(* ===== verification/_CoqProject ===== *)
-Q . S2P
Prelude.v
PyStr.v
PyDict.v
Regex.v
Bits.v
Snowflake.v
Rbac.v
PermsResolver.v
Redis.v
LookupCache.v
SnapshotStore.v
RateLimit.v
Asgi.v
Etag.v
Locale.v
Projection.v
Nats.v
Pubsub.v
Messaging.v
EventFlow.v
Leadership.v
Handlers.v
Authorization.v
Contracts.v
GrpcErrors.v
Jwt.v
Health.v
Tenancy.v
Tls.v
Server.v
ClientMetrics.v
Fields.v
ClientCodegen.v
GeneratedClient.v
Channels.v
RemoteCalls.v
Needs.v
Probes.v
Observability.v
Prometheus.v
Services.v
ArchLinter.v
Codegen.v
BufWorkspace.v
AppFactory.v
WebStack.v
Exports.v
ErrorPages.v
OpenApi.v
Boot.v
