(* ===== verification/Prelude.v ===== *)
(** * Service toolkit: verification library

    The library service-toolkit is what the platform's services share: ids,
    permissions, caches and locks on Redis, messaging on NATS, the web
    middleware, and the gRPC mesh with its callers, identities and errors.
    This development models the Python code under src/src/service_toolkit/
    (paths below are relative to it) and proves what makes its parts correct.

    ** How the code is modelled

    A call returns or raises: [result E A].  Code that threads state is a
    computation [SE S E A := S → result E A * S] with the notations [let*]
    and [do*]; [post] is its partial-correctness triple, with the rules in
    the hint database [post].  A [dict] is an association list in insertion
    order (PyDict.v), a [str] or [bytes] a [string] whose characters are the
    code points below 256 (PyStr.v), an [int] a [Z], a [float] a [Q] (so
    rounding is not modelled; the places where the code rounds on purpose,
    [int(x)], are written out).

    Concurrency is that of one event loop: between two awaits that suspend,
    a coroutine is not interrupted.  Two styles follow.  Where the
    interleavings are the point (PermsResolver, LookupCache.Inflight, Health,
    Nats, Messaging.Listener, Channels, Probes, Exports, Observability.Throttle)
    the sections between awaits are functions on the component's state and a
    relation [step] takes them in any order; the invariants are proved by
    induction on [runs step].  In Leadership a whole method is a program that
    stops at its awaits, and what it relies on there is its weakest
    precondition ([wp]).  Where one call is the point (LookupCache.Load,
    SnapshotStore, Redis, Messaging.Consumer) a step counter indexes what the
    environment answers (clock, random draws, failures of commands, the other
    tasks), and the theorems quantify over these functions.

    What is not this repository's code is a parameter: [RedisServer] and
    [RedisData] (Redis.v) and [JetStream] (Nats.v) are classes of operations
    with their documented laws, each with an instance that satisfies them;
    [ip_address], [blake2b], the ETag digest and its exclusion patterns, the
    JWT verifier, git, the environment and the descriptor pool are variables
    of sections; the wire between two services ([Transport], RemoteCalls.v), a
    TLS handshake ([Handshake], Tls.v), the replicas of a subject ([Balancer],
    Pubsub.v) and the library that translates errors ([Translator],
    ErrorPages.v) are classes as well; a generated protobuf message is an instance of [Message]
    (Fields.v) with the laws [MessageLaws] and, for the generated clients,
    the field types [MessageTypes].  [TotalOrder] below is what [sorted] needs
    of the comparison of its elements.  [Lens] below is the interface between a gRPC interceptor
    and the state that the interceptors of one server share: each file is
    proved for any state with its part in it, and Server.v puts the parts
    into one record.

    ** The files

    - Prelude.v, PyStr.v, PyDict.v, Regex.v, Bits.v: the shared language
      (results, state, steps, lenses; strings; dictionaries; the patterns of
      [re], read from their text and searched by backtracking; bit operations).
    - Snowflake.v: ids/snowflake.py.  [generate] under the class-wide lock;
      the clock is any sequence of readings.
    - Rbac.v: security/rbac.py and web/actor.py.
    - PermsResolver.v: security/platform_perms_resolver.py.  [get_start],
      [fetch_complete], [owner_resume] and the invalidations are the atomic
      sections.
    - Tenancy.v: security/tenancy.py, queries and the guard on them.
    - Redis.v: state/redis.py (keys, jitter, [RedisLock], [LeaderLease],
      client).  A command may fail before or after it took effect.
    - LookupCache.v: state/cache.py in Modules [Local], [Load], [Inflight],
      and state/async_singleton.py.
    - SnapshotStore.v: state/snapshot_store.py.
    - Asgi.v: what an ASGI application does, as a tree of its messages, and
      layers around it; Etag.v, Observability.Logging and Prometheus.v are such
      layers, and WebStack.v puts them around an application in the order of
      [create_service_app].
    - RateLimit.v, Etag.v, Locale.v, Projection.v: web/request_ip.py and
      web/rate_limit.py, web/etag.py, web/locale.py, web/projection.py with
      web/projection_decorator.py.
    - Nats.v: the settings, connection and streams of messaging/nats.py, and
      Pubsub.v what is published, requested and subscribed.  Messaging.v:
      consumer.py, events.py, event_bus.py and leader_elected_listener.py of messaging/.  EventFlow.v:
      an event of the bus from its id to the subscriptions that get it, the
      composition of Messaging.v, Snowflake.v and Pubsub.v.  Leadership.v: the
      listener's methods as coroutines that stop at each [await], and the
      replicas of a service that share a lease of Redis.v.
    - Handlers.v: grpc/handlers.py; a servicer is a computation on the state
      of its call ([Call]), and [wrap] puts a layer around it.
    - Authorization.v: grpc/authorization.py and grpc/interceptors.py.
    - Jwt.v: grpc/jwt_forwarding.py.  GrpcErrors.v: grpc/servicer.py and the
      calls of grpc/calls.py; Fields.v: its field helpers.  Health.v:
      grpc/health.py.
    - ClientCodegen.v: grpc/client_codegen.py, the text of the clients.
      GeneratedClient.v: the meaning of that text, over the interface of a
      message.
    - Channels.v: grpc/channels.py, grpc/client.py and web/http.py, two
      instances of one registry of shared objects.
    - RemoteCalls.v: a call from a client of Channels.v over the wire into the
      chain of Server.v.
    - Contracts.v: grpc/contracts.py, pins and their checkouts.
    - Tls.v: the credentials and the port of grpc/server.py.
    - Server.v: grpc/metrics.py (server side) and grpc/server.py; it calls
      Handlers, Authorization, Jwt, GrpcErrors and Health the way
      [build_grpc_lifecycle] does.  ClientMetrics.v: the client side of
      grpc/metrics.py, as a state machine of the calls under way.
    - Needs.v: settings/needs.py and settings/config.py.  Probes.v:
      web/health.py and web/auth.py.
    - Observability.v: observability/logging.py, loki.py, tracing.py and the
      throttle of metrics.py, and db/observability.py.  Prometheus.v:
      observability/prometheus.py and prometheus_runtime.py.  Services.v:
      enums.py, time.py, models.py, geo/geoip.py and channels/.
    - Codegen.v: grpc/codegen.py, grpc/imported.py and the policy and modules
      of grpc/buf_workspace.py, the output directory as a tree of texts.
      BufWorkspace.v: the workspace itself, its digest and its files.
    - AppFactory.v: web/app_factory.py, web/sdk_hints.py and web/cors.py.
    - ArchLinter.v: dev/arch_linter.py, with its rules as the source has them.
    - Exports.v: the package files, their tables and the resolution of a name
      on first use.
    - ErrorPages.v: errors/awesome_errors.py.  OpenApi.v: web/openapi.py and
      web/openapi_maps.py, db/litestar.py and db/sqlalchemy.py.  Boot.v:
      geo/fetch.py, dev/smoke_tester.py, dev/dev_migration_watcher.py and
      dev/ci_runner.py, and the guards around optional imports.

    LookupCache, SnapshotStore and RateLimit are clients of Redis.v;
    Messaging is a client of Nats.v and Snowflake.v.

    ** What the theorems show

    Across the mesh: a call from a client built with a token runs the servicer
    as the owner of that token with the forwarded identity, or is refused, and
    its outcome is what the client sees
    ([RemoteCalls.remote_calls_run_as_their_sender]).

    The gRPC server: a call that goes through the chain of interceptors runs
    as the caller and with the identity it proved, or is refused before the
    servicer, ends with one status and is counted once
    ([Server.Lifecycle.admitted_calls_run_as_their_caller],
    [refused_calls_stop_at_the_gate]); only a checked server starts
    ([only_checked_servers_start]), and with a client CA only peers with a
    certificate of it connect (Tls).  Below these: every layer keeps the
    handler's kind (Handlers), the policy alone decides a listed method and
    any other fails closed (Authorization), identities and errors survive
    the way through the mesh (Jwt, GrpcErrors), watchers see the latest
    status (Health), and what is built is the pinned commit (Contracts).

    The gRPC client: a call of a generated method sends exactly the fields its
    arguments give, with values of the fields' types (GeneratedClient); PATCH
    updates mean what they say (Fields); a call uses a channel of its own key
    and event loop, and closing closes what it names (Channels).  Generated
    server code is what protoc wrote now, with each import at the one owner of
    its module (Codegen); a Buf workspace is exactly its inputs, and its
    directory names them (BufWorkspace).

    State: a cached permission answer is never older than the last
    invalidation and its TTL, and the memory is bounded (PermsResolver); the
    lock excludes, and waiting for it ends (Redis); a load fails open, loads
    of a key are shared, the local layer is a bounded LRU (LookupCache);
    pruning is exact (SnapshotStore); ids increase, decode and do not collide
    (Snowflake).

    Messaging: at most one live connection, streams that capture their
    subjects, protected settings (Nats); a request is served by one replica of
    each queue (Pubsub); the consumer ends and settles each
    message, a listener that is subscribed leads (Messaging); an event that
    was published reached every subscription once, under an id no event of
    the process had (EventFlow); of the replicas of a listener one is
    subscribed, while leases are renewed in time, and its methods are the
    coroutines run alone (Leadership).

    Web: through the layers of an application a request is answered with tags,
    logged under its id and counted once, whatever its handlers do (WebStack);
    exact rate windows and every failure mode, the client's address
    (RateLimit); conditional requests (Etag); projections and policies read
    through a prefix as on the whole path (Projection); permission codes
    round-trip (Rbac); a subject reads its own rows only (Tenancy); the OpenAPI
    document demands a token where the handlers do (AppFactory).

    Running: a service starts with what it declared or names what is missing
    (Needs); readiness follows the dependencies (Probes); requests are logged
    under their own id, lines of a log are merged in order and no failed span
    is lost when it is to be kept (Observability); mail goes out as configured
    (Services); a published name of a package means one thing, whatever was
    imported before (Exports); a reader of the address database sees whole
    files only (Boot); a service's own error texts come first (ErrorPages).  The linter
    reports exactly the violations of its specification (ArchLinter).

    ** Fuel

    [Snowflake.generate] spins on the clock: [generate_returns] gives enough
    fuel for any clock that passes the last timestamp.
    [Redis.acquire_with_wait] and [LookupCache.Load.wait_loop] end at a
    deadline: the theorems take any fuel above the number of readings after
    which the clock has passed it, and prove that the call ended.
    [Messaging.Consumer.run] ends when [stop] was called: one more turn than
    the first turn that sees it is enough ([consumer_run_ends]).
    [RateLimit.RequestIp.finditer], [PyDict.shrink_loop], [Regex.star] and
    [Regex.sub_from] consume their argument: its length is enough, and the
    callers pass it ([Regex.star_fuel_eq]).  [Regex.parse] gives each character
    of a pattern three levels, and each use shows that its pattern is read.
    [Observability.Logging.hex_digits] takes one for each bit of its number
    ([hex_says_its_number]).

    ** Where the code does not do what it means to

    Modelling showed the following, each proved in its file: a renewal of the
    leader lease that raises ends silently ([Redis.renewal_outcomes]), and so
    does the listener's retry ([Messaging.Listener.retry_dies_with_redis]),
    and a lease that expires while the listener starts leaves it subscribed on
    a closed client ([Leadership.a_lease_lost_during_start_strands_the_listener]); a
    failing first start of the event bus leaks its connection
    ([Messaging.EventBus.first_start_outcomes]); the NATS client serves the
    context of a closed connection ([Nats.closed_context_is_reachable]); the
    child of a projection or a policy at a path that is itself listed loses
    that path ([Projection.child_forgets_the_branch],
    [child_of_denied_block_leaks]); a joined query escapes the row guard
    ([Tenancy.join_escapes_the_guard]); the JWT interceptor fails plain
    servicers ([Jwt.plain_servicers_fail]); stopping another server forgets
    the current one ([Server.Lifecycle.stopping_another_forgets_the_current]).
    The generated clients lose arguments called key and value
    ([GeneratedClient]) and ClientCodegen lists what else the generator gets
    wrong; closing blank keys closes every shared channel, a failing close
    leaves the later channels open and unregistered, and two clients of one
    key close each other's channel (Channels); two needs of one capability
    share the prefix of the last (Needs); a token outside ASCII is an error
    and not a refusal (Probes.Auth); an empty list of suppressed paths
    suppresses the default ones, and a failed query leaves its start time to
    the next (Observability); a member of an enum with the value unknown is
    lost, and a bad mail header raises (Services); three rules of the linter
    miss what they are about, and a suppression comment silences more than it
    says (ArchLinter); a contract called local takes the place of the
    service's module (Codegen.Buf); streams carry no token although the
    channel's documentation says so ([RemoteCalls.streams_are_refused]);
    [settings.needs] is a module as soon as anything has loaded it
    ([Exports.settings_needs_is_shadowed]); the database URL quotes nothing
    ([Needs.Config.connection_urls_are_ambiguous]); a bad number in its
    environment fails the boot-time download that must not fail
    ([Boot.Fetch.readers_see_whole_files]).  The manifest's findings give the
    lines.  A 304 of the entity tags is counted as the 200 it stands for, since
    the metrics are inside the tags (WebStack states it so).

    ** What is not modelled

    The modules protoc generates and the Rust crate; the package files that
    import eagerly; argument parsers and printing; the durations that metrics
    observe and the gauges of a service; the loading of settings classes, which
    is msgspec_conf's.  What the libraries do with what they are handed
    (Litestar, SQLAlchemy, redis-py, nats-py, grpc, protobuf, OpenTelemetry,
    awesome-errors) is behind the interfaces above.

    A simplification holds throughout: a streaming servicer is the
    computation of the whole stream, with the messages it sent in [sent]; in
    Messaging.v, and not in Leadership.v, a Listener method is atomic; a
    registrar of a server is what it registers. *)

From Stdlib Require Export Ascii.
From Stdlib Require String.
From Stdlib Require Export ZArith QArith Lqa.
From stdpp Require Export base tactics numbers option list gmap sets strings pretty sorting.

#[global] Open Scope Z_scope.
#[global] Set Default Goal Selector "!".

(** ** Exceptions

    A Python call either returns a value or raises.  [E] is the component's
    own type of exceptions. *)

Inductive result (E A : Type) : Type :=
  | Ok (a : A)
  | Raise (e : E).
Arguments Ok {E A} a.
Arguments Raise {E A} e.

#[global] Instance result_ret {E} : MRet (result E) := λ A a, Ok a.
#[global] Instance result_bind {E} : MBind (result E) := λ A B f m,
  match m with Ok a => f a | Raise e => Raise e end.
#[global] Instance result_fmap {E} : FMap (result E) := λ A B f m,
  match m with Ok a => Ok (f a) | Raise e => Raise e end.

#[global] Instance result_eq_dec {E A} `{EqDecision E, EqDecision A} :
  EqDecision (result E A).
Proof. solve_decision. Defined.

(** [raise_if b e]: the guard [if b: raise e]. *)
Definition raise_if {E} (b : bool) (e : E) : result E unit :=
  if b then Raise e else Ok tt.

Lemma result_bind_Ok {E A B} (m : result E A) (f : A → result E B) b :
  (m ≫= f) = Ok b ↔ ∃ a, m = Ok a ∧ f a = Ok b.
Proof. destruct m; cbn; naive_solver. Qed.

Lemma raise_if_Ok {E} b (e : E) u : raise_if b e = Ok u ↔ b = false.
Proof. destruct b, u; cbn; naive_solver. Qed.

(** ** State and exceptions

    Code that mutates an object and may raise: the mutations done before the
    exception stay, so the final state is returned in both cases. *)

Definition SE (S E A : Type) : Type := S → result E A * S.

Section state_error.
Context {S E : Type}.
Definition se_ret {A} (a : A) : SE S E A := λ s, (Ok a, s).
Definition se_bind {A B} (m : SE S E A) (f : A → SE S E B) : SE S E B := λ s,
  match m s with
  | (Ok a, s') => f a s'
  | (Raise e, s') => (Raise e, s')
  end.
Definition se_raise {A} (e : E) : SE S E A := λ s, (Raise e, s).
Definition se_get : SE S E S := λ s, (Ok s, s).
Definition se_modify (f : S → S) : SE S E unit := λ s, (Ok tt, f s).
(** [try: m  except Exception: h e] *)
Definition se_try {A} (m : SE S E A) (h : E → SE S E A) : SE S E A := λ s,
  match m s with
  | (Ok a, s') => (Ok a, s')
  | (Raise e, s') => h e s'
  end.
(** [try: m  finally: f]: an exception of [f] replaces the outcome. *)
Definition se_finally {A B} (m : SE S E A) (f : SE S E B) : SE S E A := λ s,
  let '(r, s1) := m s in
  match f s1 with
  | (Ok _, s2) => (r, s2)
  | (Raise e, s2) => (Raise e, s2)
  end.
(** A call that neither reads nor writes the state. *)
Definition se_lift {A} (r : result E A) : SE S E A := λ s, (r, s).

(** [post I m Q X]: from a state that satisfies [I], [m] ends in one that
    does, its value satisfies [Q] and its exception [X]. *)
Definition post {A} (I : S → Prop) (m : SE S E A) (Q : A → Prop) (X : E → Prop) : Prop :=
  ∀ s, I s → I (m s).2 ∧ match (m s).1 with Ok a => Q a | Raise e => X e end.

Lemma post_ret {A} I (a : A) Q X : Q a → post I (se_ret a) Q X.
Proof. by intros HQ s HI. Qed.
Lemma post_raise {A} I e (Q : A → Prop) X : X e → post I (se_raise e) Q X.
Proof. by intros HX s HI. Qed.
Lemma post_lift {A} I (r : result E A) (Q : A → Prop) X :
  match r with Ok a => Q a | Raise e => X e end → post I (se_lift r) Q X.
Proof. by intros H s HI. Qed.
Lemma post_bind {A B} I (m : SE S E A) (f : A → SE S E B) R Q X :
  post I m R X → (∀ a, R a → post I (f a) Q X) → post I (se_bind m f) Q X.
Proof.
  intros Hm Hf s HI. unfold se_bind. destruct (Hm s HI) as [HI' Hr].
  destruct (m s) as [[a|e] s']; cbn in *; [by apply Hf|done].
Qed.
Lemma post_try {A} I (m : SE S E A) h (Q : A → Prop) X Y :
  post I m Q Y → (∀ e, Y e → post I (h e) Q X) → post I (se_try m h) Q X.
Proof.
  intros Hm Hh s HI. unfold se_try. destruct (Hm s HI) as [HI' Hr].
  destruct (m s) as [[a|e] s']; cbn in *; [done|by apply Hh].
Qed.
Lemma post_finally {A B} I (m : SE S E A) (f : SE S E B) Q X :
  post I m Q X → post I f (λ _, True) X → post I (se_finally m f) Q X.
Proof.
  intros Hm Hf s HI. unfold se_finally. destruct (Hm s HI) as [HI' Hr].
  destruct (m s) as [r s']; cbn in *. destruct (Hf s' HI') as [HI'' Hr'].
  destruct (f s') as [[b|e] s'']; cbn in *; done.
Qed.
Lemma post_weaken {A} I (m : SE S E A) (Q Q' : A → Prop) (X X' : E → Prop) :
  post I m Q X → (∀ a, Q a → Q' a) → (∀ e, X e → X' e) → post I m Q' X'.
Proof.
  intros Hm HQ HX s HI. destruct (Hm s HI) as [HI' Hr]. split; [done|].
  destruct (m s).1; auto.
Qed.
Lemma post_if {A} I (b : bool) (m1 m2 : SE S E A) Q X :
  (b = true → post I m1 Q X) → (b = false → post I m2 Q X) → post I (if b then m1 else m2) Q X.
Proof. destruct b; auto. Qed.
End state_error.

Create HintDb post.
#[export] Hint Resolve post_ret post_raise post_lift post_if : post.

Declare Scope se_scope.
Delimit Scope se_scope with se.
Notation "'let*' x ':=' m 'in' k" := (se_bind m (λ x, k))
  (at level 10, x binder, m at level 100, k at level 200) : se_scope.
Notation "'do*' m 'in' k" := (se_bind m (λ _, k))
  (at level 10, m at level 100, k at level 200) : se_scope.

(** ** Reflexive-transitive closure of a labelled step relation *)

Section runs.
Context {St : Type} (step : St → St → Prop).
Inductive runs : St → St → Prop :=
  | runs_refl s : runs s s
  | runs_step s1 s2 s3 : runs s1 s2 → step s2 s3 → runs s1 s3.

Lemma runs_invariant (I : St → Prop) s s' :
  (∀ a b, I a → step a b → I b) → I s → runs s s' → I s'.
Proof. intros Hstep HI Hr. induction Hr; eauto. Qed.

Lemma runs_one s s' : step s s' → runs s s'.
Proof. intros Hs. eapply runs_step; [constructor|exact Hs]. Qed.
Lemma runs_trans s1 s2 s3 : runs s1 s2 → runs s2 s3 → runs s1 s3.
Proof. intros H12 H23. induction H23; eauto using runs. Qed.
End runs.

(** ** Parts of a larger state

    What a component reads and writes of a state it shares with others: the
    component is proved for any state that has such a part. *)

Class Lens (S A : Type) := {
  view : S → A;
  put : A → S → S;
  view_put : ∀ a s, view (put a s) = a;
  put_view : ∀ s, put (view s) s = s;
  put_put : ∀ a b s, put a (put b s) = put a s }.
#[global] Arguments view {S A _} s : simpl never.
#[global] Arguments put {S A _} a s : simpl never.
Definition lens_id {A} : Lens A A.
Proof. by refine {| view := λ a, a; put := λ a _, a |}. Defined.

(** ** Booleans over lists *)

Lemma existsb_False {A} (f : A → bool) l :
  existsb f l = false ↔ ∀ x, x ∈ l → f x = false.
Proof.
  induction l as [|a l IH]; cbn.
  - split; [intros _ x Hx; by apply elem_of_nil in Hx|done].
  - rewrite orb_false_iff, IH. setoid_rewrite elem_of_cons. naive_solver.
Qed.

Lemma existsb_True {A} (f : A → bool) l :
  existsb f l = true ↔ ∃ x, x ∈ l ∧ f x = true.
Proof.
  rewrite existsb_exists. split; intros (x & Hx & Hf); exists x;
    (split; [by apply list_elem_of_In|done]).
Qed.

Lemma forallb_True' {A} (f : A → bool) l :
  forallb f l = true ↔ ∀ x, x ∈ l → f x = true.
Proof.
  rewrite forallb_forall. split; intros H x Hx; apply H;
    by apply list_elem_of_In.
Qed.

Lemma NoDup_incl_length' {A} (l l' : list A) :
  NoDup l → (∀ x, x ∈ l → x ∈ l') → (length l <= length l')%nat.
Proof. intros Hl Hs. apply submseteq_length. by apply NoDup_submseteq. Qed.
Lemma list_elem_of_filter' {A} (f : A → bool) l x :
  x ∈ List.filter f l ↔ x ∈ l ∧ f x = true.
Proof. rewrite !list_elem_of_In. apply filter_In. Qed.
Lemma Forall_sublist' {A} (P : A → Prop) l l' : l' `sublist_of` l → Forall P l → Forall P l'.
Proof. rewrite !Forall_forall. intros Hs Hf x Hx. apply Hf. by eapply elem_of_sublist. Qed.

(** ** Rational (float) comparisons, as tests *)

Definition Qltb (a b : Q) : bool := negb (Qle_bool b a).

Lemma Qltb_true a b : Qltb a b = true ↔ (a < b)%Q.
Proof.
  unfold Qltb. rewrite negb_true_iff, <- not_true_iff_false, Qle_bool_iff.
  split; intros H; lra.
Qed.
Lemma Qltb_false a b : Qltb a b = false ↔ (b <= a)%Q.
Proof. unfold Qltb. by rewrite negb_false_iff, Qle_bool_iff. Qed.
Lemma Qle_bool_true a b : Qle_bool a b = true ↔ (a <= b)%Q.
Proof. apply Qle_bool_iff. Qed.
Lemma Qle_bool_false a b : Qle_bool a b = false ↔ (b < a)%Q.
Proof.
  rewrite <- not_true_iff_false, Qle_bool_iff. split; intros H; lra.
Qed.

Definition Qmaxb (a b : Q) : Q := if Qle_bool a b then b else a.
Definition Qminb (a b : Q) : Q := if Qle_bool a b then a else b.

Create Rewrite HintDb qbool.
#[export] Hint Rewrite Qltb_true Qltb_false Qle_bool_true Qle_bool_false : qbool.

(** [qcase b] splits on a float comparison and turns it into a [Q] fact. *)
Ltac qcase b := let H := fresh "Hq" in
  destruct b eqn:H; autorewrite with qbool in H.

(** Turns every boolean connective of the context into propositions. *)
Create Rewrite HintDb bprop.
#[export] Hint Rewrite andb_true_iff andb_false_iff orb_true_iff orb_false_iff
  negb_true_iff negb_false_iff bool_decide_eq_true bool_decide_eq_false
  Z.ltb_lt Z.ltb_ge Z.leb_le Z.leb_gt Z.eqb_eq Z.eqb_neq : bprop.
Ltac bprop := autorewrite with bprop in *.

(** Splits every [if]/[match] of the goal, discarding impossible branches. *)
Ltac splits_match := repeat (case_match; simplify_eq/=; try done).

(** ** [list.sort(key=...)]: a stable sort

    Insertion from the right keeps the order of equal elements. *)

Section sort.
Context {A : Type} (leb : A → A → bool).
Fixpoint sort_insert (x : A) (l : list A) : list A :=
  match l with
  | [] => [x]
  | y :: l' => if leb x y then x :: l else y :: sort_insert x l'
  end.
Definition py_sort (l : list A) : list A := foldr sort_insert [] l.

Lemma sort_insert_perm x l : sort_insert x l ≡ₚ x :: l.
Proof.
  induction l as [|y l IH]; cbn; [done|]. destruct (leb x y); [done|].
  rewrite IH. apply Permutation_swap.
Qed.
Lemma py_sort_perm l : py_sort l ≡ₚ l.
Proof. induction l as [|x l IH]; cbn; [done|]. by rewrite sort_insert_perm, IH. Qed.
Lemma elem_py_sort x l : x ∈ py_sort l ↔ x ∈ l.
Proof. by rewrite py_sort_perm. Qed.

Context (Htotal : ∀ a b, leb a b = true ∨ leb b a = true)
        (Htrans : ∀ a b c, leb a b = true → leb b c = true → leb a c = true).
Lemma sort_insert_sorted x l :
  StronglySorted leb l → StronglySorted leb (sort_insert x l).
Proof.
  induction 1 as [|y l Hl IH Hy]; cbn; [repeat constructor|].
  destruct (leb x y) eqn:E.
  - constructor; [by constructor|]. constructor; [by rewrite E|].
    rewrite Forall_forall in Hy |- *. intros z Hz.
    specialize (Hy z Hz). apply Is_true_true in Hy. apply Is_true_true. eauto.
  - constructor; [done|]. apply Forall_forall. intros z Hz.
    rewrite sort_insert_perm in Hz. rewrite Forall_forall in Hy.
    apply elem_of_cons in Hz as [->|Hz]; [|by apply Hy].
    apply Is_true_true. destruct (Htotal x y); congruence.
Qed.
Lemma py_sort_sorted l : StronglySorted leb (py_sort l).
Proof. induction l; cbn; [constructor|by apply sort_insert_sorted]. Qed.
(** Without ties, the order of the input does not matter. *)
Lemma py_sort_unique l l' : (∀ a b, leb a b = true → leb b a = true → a = b) → l ≡ₚ l' → py_sort l = py_sort l'.
Proof.
  intros Hanti Hp. apply (StronglySorted_unique_strong leb).
  - intros x y _ _ Hx%Is_true_true Hy%Is_true_true. by apply Hanti.
  - apply py_sort_sorted.
  - apply py_sort_sorted.
  - by rewrite !py_sort_perm.
Qed.
End sort.

(** Strings, by code points: a total order. *)
Lemma string_leb_trans a b c : String.leb a b = true → String.leb b c = true → String.leb a c = true.
Proof.
  unfold String.leb. revert b c.
  induction a as [|x a IH]; intros [|y b] [|z c]; cbn [String.compare]; try done. unfold Ascii.compare.
  destruct (N.compare_spec (N_of_ascii x) (N_of_ascii y)), (N.compare_spec (N_of_ascii y) (N_of_ascii z)),
    (N.compare_spec (N_of_ascii x) (N_of_ascii z)); try done; try lia. apply IH.
Qed.
(** Tuples and lists, as Python compares them: by the first difference. *)
Class TotalOrder {A} (leb : A → A → bool) : Prop := {
  leb_total a b : leb a b = true ∨ leb b a = true;
  leb_trans a b c : leb a b = true → leb b c = true → leb a c = true;
  leb_antisym a b : leb a b = true → leb b a = true → a = b }.
#[export] Instance string_order : TotalOrder String.leb.
Proof. split; [apply String.leb_total|apply string_leb_trans|apply String.leb_antisym]. Qed.
#[export] Instance Z_order : TotalOrder Z.leb.
Proof. split; intros *; rewrite ?Z.leb_le; lia. Qed.
Section lex.
Context {A B : Type} `{EqDecision A} (la : A → A → bool) (lb : B → B → bool) `{!TotalOrder la, !TotalOrder lb}.
Definition lex_leb (p q : A * B) : bool := if bool_decide (p.1 = q.1) then lb p.2 q.2 else la p.1 q.1.
Fixpoint list_leb (l k : list A) : bool :=
  match l, k with
  | [], _ => true
  | _, [] => false
  | x :: l', y :: k' => if bool_decide (x = y) then list_leb l' k' else la x y
  end.
#[export] Instance lex_order : TotalOrder lex_leb.
Proof.
  unfold lex_leb. split.
  - intros [a b] [c d]; cbn. repeat case_bool_decide; subst; try done; [apply leb_total|apply leb_total].
  - intros [a b] [c d] [e f]; cbn. repeat case_bool_decide; subst; try done; try by apply leb_trans.
    intros H1 H2. by destruct (leb_antisym e c H1 H2).
  - intros [a b] [c d]; cbn. repeat case_bool_decide; subst; try done.
    + intros H1 H2. f_equal. by apply leb_antisym.
    + intros H1 H2. by destruct (leb_antisym a c H1 H2).
Qed.
#[export] Instance list_order : TotalOrder list_leb.
Proof.
  split.
  - intros l. induction l as [|x l IH]; intros [|y k]; cbn; auto. repeat case_bool_decide; subst; try done; apply leb_total.
  - intros l. induction l as [|x l IH]; intros [|y k] [|z m]; cbn; try done.
    repeat case_bool_decide; subst; try done; try apply IH; try apply leb_trans;
      intros H1 H2; by destruct (leb_antisym z y H1 H2).
  - intros l. induction l as [|x l IH]; intros [|y k]; cbn; try done. repeat case_bool_decide; subst; try done.
    + intros H1 H2. f_equal. by apply IH.
    + intros H1 H2. by destruct (leb_antisym x y H1 H2).
Qed.
End lex.
Definition pair_leb : string * string → string * string → bool := lex_leb String.leb String.leb.
#[export] Instance pair_order : TotalOrder pair_leb := lex_order _ _.
(** [sorted] on strings: by code points. *)
Definition py_sorted : list string → list string := py_sort String.leb.
