(* ===== verification/PyStr.v ===== *)
(** * Python strings

    [str] and [bytes] values are [string]s.  A character is a code point below
    256, so [str.strip], [str.isspace], [\w] and [str.lower] are those of
    Python on the Latin-1 range; strings with code points above 255 are not
    represented.  [bytes] methods that treat only ASCII specially have their
    own definitions ([bstrip], [blower]). *)

From S2P Require Import Prelude.

#[global] Arguments String.append : simpl nomatch.

Definition code (c : ascii) : N := N_of_ascii c.
Definition in_range (lo hi : N) (c : ascii) : bool :=
  (lo <=? code c)%N && (code c <=? hi)%N.

(** [str.isspace] of one character, below U+0100. *)
Definition is_space (c : ascii) : bool :=
  in_range 9 13 c || in_range 28 32 c || (code c =? 133)%N || (code c =? 160)%N.
(** The whitespace [bytes.strip] removes. *)
Definition is_bspace (c : ascii) : bool := in_range 9 13 c || (code c =? 32)%N.

Definition is_digit : ascii → bool := in_range 48 57.
Definition is_upper_ascii : ascii → bool := in_range 65 90.
Definition is_lower_ascii : ascii → bool := in_range 97 122.
(** [str.isupper]/[str.islower] of one character, below U+0100. *)
Definition is_upper (c : ascii) : bool :=
  is_upper_ascii c || (in_range 192 222 c && negb (code c =? 215)%N).
Definition is_lower (c : ascii) : bool :=
  is_lower_ascii c || (in_range 223 255 c && negb (code c =? 247)%N)
  || (code c =? 170)%N || (code c =? 181)%N || (code c =? 186)%N.

Definition lower_char (c : ascii) : ascii :=
  if is_upper c then ascii_of_N (code c + 32) else c.
Definition blower_char (c : ascii) : ascii :=
  if is_upper_ascii c then ascii_of_N (code c + 32) else c.
(** [str.upper] on ASCII; it is only applied to ASCII text here. *)
Definition upper_char (c : ascii) : ascii :=
  if is_lower_ascii c then ascii_of_N (code c - 32) else c.

Fixpoint smap (f : ascii → ascii) (s : string) : string :=
  match s with
  | EmptyString => EmptyString
  | String c s => String (f c) (smap f s)
  end.
Definition lower : string → string := smap lower_char.
Definition blower : string → string := smap blower_char.
Definition upper : string → string := smap upper_char.

Fixpoint sall (p : ascii → bool) (s : string) : bool :=
  match s with
  | EmptyString => true
  | String c s => p c && sall p s
  end.

(** [s.lstrip], [s.rstrip] and [s.strip] of the characters [p] accepts. *)
Fixpoint lstrip_by (p : ascii → bool) (s : string) : string :=
  match s with
  | EmptyString => EmptyString
  | String c s' => if p c then lstrip_by p s' else s
  end.
Fixpoint rstrip_by (p : ascii → bool) (s : string) : string :=
  match s with
  | EmptyString => EmptyString
  | String c s' =>
      match rstrip_by p s' with
      | EmptyString => if p c then EmptyString else String c EmptyString
      | t => String c t
      end
  end.
Definition strip_by (p : ascii → bool) (s : string) : string :=
  lstrip_by p (rstrip_by p s).
Definition strip : string → string := strip_by is_space.
Definition bstrip : string → string := strip_by is_bspace.
(** The predicate of [s.strip(chars)]: membership in [chars]. *)
Fixpoint char_in (chars : string) (c : ascii) : bool :=
  match chars with
  | EmptyString => false
  | String d chars => bool_decide (c = d) || char_in chars c
  end.
Definition strip_chars (chars : string) : string → string := strip_by (char_in chars).
Definition lstrip_chars (chars : string) : string → string := lstrip_by (char_in chars).
Definition rstrip_chars (chars : string) : string → string := rstrip_by (char_in chars).

(** The double quote. *)
Definition dquote : ascii := ascii_of_nat 34.

(** [re.sub(p+, c, s)]: every maximal run of characters of [p] becomes one [c]. *)
Fixpoint sub_runs (p : ascii → bool) (r : ascii) (in_run : bool) (s : string) : string :=
  match s with
  | EmptyString => EmptyString
  | String c s =>
      if p c then (if in_run then sub_runs p r true s else String r (sub_runs p r true s))
      else String c (sub_runs p r false s)
  end.
(** The longest prefix of characters of [p], and the rest. *)
Fixpoint span (p : ascii → bool) (s : string) : string * string :=
  match s with
  | EmptyString => (EmptyString, EmptyString)
  | String c s' => if p c then let '(a, b) := span p s' in (String c a, b) else (EmptyString, s)
  end.

(** [not s] *)
Definition is_empty (s : string) : bool :=
  match s with EmptyString => true | _ => false end.

(** [s.startswith(p)], [s.removeprefix(p)], [s.endswith(p)], [p in s] *)
Definition startswith (p s : string) : bool := String.prefix p s.
Fixpoint sdrop (n : nat) (s : string) : string :=
  match n, s with
  | S n, String _ s => sdrop n s
  | _, _ => s
  end.
Definition removeprefix (p s : string) : string :=
  if startswith p s then sdrop (String.length p) s else s.
Fixpoint endswith (p s : string) : bool :=
  bool_decide (s = p) ||
  match s with EmptyString => false | String _ s' => endswith p s' end.
Fixpoint contains (p s : string) : bool :=
  startswith p s ||
  match s with EmptyString => false | String _ s' => contains p s' end.

(** [s.split(c)]: never empty. *)
Fixpoint split (c : ascii) (s : string) : list string :=
  match s with
  | EmptyString => [EmptyString]
  | String d s' =>
      if decide (d = c) then EmptyString :: split c s'
      else match split c s' with
           | [] => [String d EmptyString]
           | w :: ws => String d w :: ws
           end
  end.
(** [s.partition(c)]: the part before, whether [c] occurs, the part after. *)
Fixpoint partition_char (c : ascii) (s : string) : string * bool * string :=
  match s with
  | EmptyString => (EmptyString, false, EmptyString)
  | String d s' =>
      if decide (d = c) then (EmptyString, true, s')
      else let '(a, b, r) := partition_char c s' in (String d a, b, r)
  end.
(** [sep.join(ws)] *)
Fixpoint join (sep : string) (ws : list string) : string :=
  match ws with
  | [] => EmptyString
  | [w] => w
  | w :: ws => w +:+ sep +:+ join sep ws
  end.
(** [s.replace(a, b)] for single characters. *)
Definition replace_char (a b : ascii) : string → string :=
  smap (λ c, if decide (c = a) then b else c).

(** [x or y] and [x or None] on strings *)
Definition str_or (s t : string) : string := if is_empty s then t else s.
Definition str_or_none (s : string) : option string := if is_empty s then None else Some s.

(** ** Integers as text *)

(** [int(s)]: optional surrounding whitespace and sign, decimal digits with
    single underscores between them. *)
Definition digit_value (c : ascii) : option Z :=
  if is_digit c then Some (Z.of_N (code c) - 48) else None.
(** [after_digit]: an underscore or the end is allowed here. *)
Fixpoint int_digits (acc : Z) (after_digit : bool) (s : string) : option Z :=
  match s with
  | EmptyString => if after_digit then Some acc else None
  | String c s' =>
      match digit_value c with
      | Some d => int_digits (10 * acc + d) true s'
      | None => if bool_decide (c = "_"%char) && after_digit
                then int_digits acc false s' else None
      end
  end.
Definition sign_dispatch (s : string) : option Z :=
  match s with
  | String "+" s' => int_digits 0 false s'
  | String "-" s' => Z.opp <$> int_digits 0 false s'
  | s' => int_digits 0 false s'
  end.
Definition py_int (s : string) : option Z := sign_dispatch (strip s).
(** [float(s)], as the rational it denotes; [inf] and [nan] are not values of
    the model.  A part of the mantissa may be missing, not both. *)
Fixpoint count_digits (s : string) : Z :=
  match s with
  | EmptyString => 0
  | String c s => (if is_digit c then 1 else 0) + count_digits s
  end.
Definition opt_digits (s : string) : option Z :=
  if is_empty s then Some 0 else int_digits 0 false s.
Definition mantissa (s : string) : option Q :=
  let '(whole, has_point, frac) := partition_char "." s in
  if is_empty whole && is_empty frac then None
  else match opt_digits whole, opt_digits frac with
       | Some w, Some f => Some (inject_Z w + inject_Z f / inject_Z (10 ^ count_digits frac))%Q
       | _, _ => None
       end.
Definition unsigned_float (s : string) : option Q :=
  let '(m, has_exp, e) := partition_char "e" (blower s) in
  q ← mantissa m;
  if has_exp then
    z ← sign_dispatch e;
    Some (if z <? 0 then q / inject_Z (10 ^ (- z)) else q * inject_Z (10 ^ z))%Q
  else Some q.
Definition py_float (s : string) : option Q :=
  match strip s with
  | String "+" s' => unsigned_float s'
  | String "-" s' => Qopp <$> unsigned_float s'
  | s' => unsigned_float s'
  end.
(** The fields of [re.split(p+, s)]. *)
Fixpoint split_runs (p : ascii → bool) (in_run : bool) (s : string) : list string :=
  match s with
  | EmptyString => [EmptyString]
  | String c s =>
      if p c then (if in_run then split_runs p true s else EmptyString :: split_runs p true s)
      else match split_runs p false s with
           | [] => [String c EmptyString]
           | w :: ws => String c w :: ws
           end
  end.
(** [str(z)] *)
Definition str_int (z : Z) : string := pretty z.

(** ** Lemmas *)

Lemma append_nil_r s : s +:+ EmptyString = s.
Proof. induction s as [|c s IH]; cbn; [done|by rewrite IH]. Qed.
Lemma append_assoc s t u : (s +:+ t) +:+ u = s +:+ t +:+ u.
Proof. induction s as [|c s IH]; cbn; [done|by rewrite IH]. Qed.
Lemma append_length s t :
  String.length (s +:+ t) = (String.length s + String.length t)%nat.
Proof. induction s; cbn; auto. Qed.
Lemma append_inj_l s t u : s +:+ t = s +:+ u → t = u.
Proof. induction s; cbn; [done|intros [=]; auto]. Qed.

Lemma is_empty_true s : is_empty s = true ↔ s = EmptyString.
Proof. by destruct s. Qed.
Lemma is_empty_false s : is_empty s = false ↔ s ≠ EmptyString.
Proof. by destruct s. Qed.

Lemma sall_append p s t : sall p (s +:+ t) = sall p s && sall p t.
Proof. induction s as [|c s IH]; cbn; [done|by rewrite IH, andb_assoc]. Qed.
Lemma sall_mono (p q : ascii → bool) s :
  (∀ c, p c = true → q c = true) → sall p s = true → sall q s = true.
Proof. intros Hpq. induction s; cbn; rewrite ?andb_true_iff; naive_solver. Qed.

Lemma startswith_spec p s : startswith p s = true ↔ ∃ r, s = p +:+ r.
Proof.
  unfold startswith. revert s. induction p as [|c p IH]; intros s; cbn.
  - split; [intros _; by exists s|by destruct s].
  - destruct s as [|d s]; cbn; [naive_solver|].
    destruct (ascii_dec c d) as [->|]; [rewrite IH|]; naive_solver.
Qed.
Lemma startswith_refl p r : startswith p (p +:+ r) = true.
Proof. apply startswith_spec; eauto. Qed.
Lemma sdrop_append p r : sdrop (String.length p) (p +:+ r) = r.
Proof. by induction p. Qed.
Lemma removeprefix_append p r : removeprefix p (p +:+ r) = r.
Proof. unfold removeprefix. by rewrite startswith_refl, sdrop_append. Qed.

Lemma lstrip_sall p s : sall (λ c, negb (p c)) s = true → lstrip_by p s = s.
Proof. destruct s as [|c s]; cbn; [done|]. by destruct (p c). Qed.
Lemma rstrip_sall p s : sall (λ c, negb (p c)) s = true → rstrip_by p s = s.
Proof.
  induction s as [|c s IH]; cbn; [done|]. rewrite andb_true_iff.
  intros [Hc Hs]. rewrite IH by done. destruct (p c); [done|]. by destruct s.
Qed.
Lemma strip_sall p s : sall (λ c, negb (p c)) s = true → strip_by p s = s.
Proof. intros. unfold strip_by. rewrite rstrip_sall by done. by apply lstrip_sall. Qed.

Lemma rstrip_idemp p s : rstrip_by p (rstrip_by p s) = rstrip_by p s.
Proof.
  induction s as [|c s IH]; cbn; [done|].
  destruct (rstrip_by p s) as [|d t] eqn:E.
  - destruct (p c) eqn:Hc; cbn; by rewrite ?Hc.
  - cbn in *. by rewrite IH.
Qed.
Lemma lstrip_idemp p s : lstrip_by p (lstrip_by p s) = lstrip_by p s.
Proof. induction s as [|c s IH]; cbn; [done|]. destruct (p c) eqn:E; cbn; by rewrite ?E. Qed.
Lemma rstrip_cons_keep p c s : p c = false → rstrip_by p (String c s) = String c (rstrip_by p s).
Proof. intros Hc. cbn. rewrite Hc. by destruct (rstrip_by p s). Qed.
Lemma rstrip_lstrip_comm p s : rstrip_by p (lstrip_by p s) = lstrip_by p (rstrip_by p s).
Proof.
  induction s as [|c s IH]; [done|]. cbn [lstrip_by].
  destruct (p c) eqn:Hc.
  - rewrite IH. cbn [rstrip_by]. destruct (rstrip_by p s); rewrite ?Hc; [done|].
    cbn [lstrip_by]. by rewrite Hc.
  - rewrite rstrip_cons_keep by done. cbn [lstrip_by]. by rewrite Hc.
Qed.
Lemma strip_idemp p s : strip_by p (strip_by p s) = strip_by p s.
Proof.
  unfold strip_by. by rewrite rstrip_lstrip_comm, rstrip_idemp, lstrip_idemp.
Qed.
Lemma strip_sall_all p s : sall p s = true → strip_by p s = EmptyString.
Proof.
  intros H. unfold strip_by.
  assert (rstrip_by p s = EmptyString) as ->; [|done].
  induction s as [|c s IH]; cbn in *; [done|].
  rewrite andb_true_iff in H. destruct H as [-> H]. by rewrite IH.
Qed.

Lemma lstrip_sall_pres p q s : sall q s = true → sall q (lstrip_by p s) = true.
Proof.
  induction s as [|c s IH]; cbn; [done|]. intros H. destruct (p c); [|done].
  apply IH. by apply andb_true_iff in H as [_ ?].
Qed.
Lemma rstrip_sall_pres p q s : sall q s = true → sall q (rstrip_by p s) = true.
Proof.
  induction s as [|c s IH]; cbn; [done|]. rewrite andb_true_iff. intros [Hc Hs].
  specialize (IH Hs). destruct (rstrip_by p s).
  - destruct (p c); cbn; by rewrite ?Hc.
  - by rewrite <-andb_true_iff in IH || (cbn; rewrite Hc; exact IH).
Qed.
Lemma strip_sall_pres p q s : sall q s = true → sall q (strip_by p s) = true.
Proof. intros. by apply lstrip_sall_pres, rstrip_sall_pres. Qed.

Lemma smap_sall f p q s :
  (∀ c, p c = true → q (f c) = true) → sall p s = true → sall q (smap f s) = true.
Proof. intros Hf. induction s; cbn; rewrite ?andb_true_iff; naive_solver. Qed.

Lemma forall_ascii (P : ascii → bool) :
  forallb P (ascii_of_nat <$> seq 0 256) = true → ∀ c, P c = true.
Proof.
  intros H c. rewrite forallb_True' in H. apply H.
  rewrite <-(ascii_nat_embedding c). apply list_elem_of_fmap_2.
  apply elem_of_seq. pose proof (nat_ascii_bounded c). lia.
Qed.

(** A property of every character, decided by running over all of them. *)
Ltac all_chars c := apply (forall_ascii (λ c, _ c)); vm_compute; reflexivity.

Lemma lower_char_idemp c : lower_char (lower_char c) = lower_char c.
Proof.
  apply (bool_decide_eq_true_1 (lower_char (lower_char c) = lower_char c)).
  revert c. apply (forall_ascii (λ c, bool_decide (lower_char (lower_char c) = lower_char c))).
  by vm_compute.
Qed.
Lemma smap_idemp f s : (∀ c, f (f c) = f c) → smap f (smap f s) = smap f s.
Proof. intros Hf. induction s as [|c s IH]; cbn; [done|by rewrite Hf, IH]. Qed.
Lemma lower_idemp s : lower (lower s) = lower s.
Proof. apply smap_idemp, lower_char_idemp. Qed.
Lemma lower_char_space c : is_space (lower_char c) = is_space c.
Proof.
  apply eqb_true_iff. revert c.
  apply (forall_ascii (λ c, eqb (is_space (lower_char c)) (is_space c))). by vm_compute.
Qed.
Lemma lstrip_smap f p s : (∀ c, p (f c) = p c) → lstrip_by p (smap f s) = smap f (lstrip_by p s).
Proof. intros Hf. induction s as [|c s IH]; cbn; [done|]. rewrite Hf. by destruct (p c). Qed.
Lemma rstrip_smap f p s : (∀ c, p (f c) = p c) → rstrip_by p (smap f s) = smap f (rstrip_by p s).
Proof.
  intros Hf. induction s as [|c s IH]; cbn; [done|]. rewrite IH, Hf.
  destruct (rstrip_by p s); cbn; by destruct (p c).
Qed.
Lemma strip_lower s : strip (lower s) = lower (strip s).
Proof.
  unfold strip, strip_by, lower. rewrite rstrip_smap, lstrip_smap; auto using lower_char_space.
Qed.

Lemma split_nonempty c s : split c s ≠ [].
Proof. destruct s as [|d s]; cbn; [done|]. case_decide; [done|]. by destruct (split c s). Qed.
Lemma split_sall c s : sall (λ d, negb (bool_decide (d = c))) s = true → split c s = [s].
Proof.
  induction s as [|d s IH]; cbn; [done|]. rewrite andb_true_iff, negb_true_iff.
  intros [Hd Hs]. apply bool_decide_eq_false in Hd. rewrite decide_False by done.
  by rewrite IH.
Qed.
Lemma split_append c s t :
  sall (λ d, negb (bool_decide (d = c))) s = true →
  split c (s +:+ String c t) = s :: split c t.
Proof.
  induction s as [|d s IH]; cbn; [by rewrite decide_True|].
  rewrite andb_true_iff, negb_true_iff. intros [Hd Hs].
  apply bool_decide_eq_false in Hd. rewrite decide_False by done. by rewrite IH.
Qed.
Lemma split_app c s t : split c (s +:+ String c t) = split c s ++ split c t.
Proof.
  induction s as [|d s IH]; cbn; [by rewrite decide_True|]. rewrite IH.
  case_decide; [done|]. by destruct (split c s) eqn:E; [destruct (split_nonempty c s)|].
Qed.
Lemma join_cons sep w w' ws :
  join sep (w :: w' :: ws) = w +:+ sep +:+ join sep (w' :: ws).
Proof. done. Qed.
Lemma join_split c s : join (String c EmptyString) (split c s) = s.
Proof.
  induction s as [|d s IH]; cbn; [done|]. case_decide as Hd.
  - destruct (split c s) as [|w ws] eqn:E; [by destruct (split_nonempty c s)|].
    by rewrite join_cons, IH, Hd.
  - destruct (split c s) as [|w ws] eqn:E; [by destruct (split_nonempty c s)|].
    rewrite <-IH. by destruct ws.
Qed.
Lemma split_inj c s t : split c s = split c t → s = t.
Proof. intros H. by rewrite <-(join_split c s), H, join_split. Qed.
(** Splitting what [c.join] built gives the words back. *)
Lemma split_join c ws :
  ws ≠ [] → (∀ w, w ∈ ws → sall (λ d, negb (bool_decide (d = c))) w = true) →
  split c (join (String c EmptyString) ws) = ws.
Proof.
  induction ws as [|w ws IH]; [done|]. intros _ Hall.
  destruct ws as [|w' ws].
  - cbn. apply split_sall. apply Hall. set_solver.
  - rewrite join_cons. change (String c EmptyString +:+ join (String c EmptyString) (w' :: ws))
      with (String c (join (String c EmptyString) (w' :: ws))).
    rewrite split_append by (apply Hall; set_solver). f_equal. apply IH; [done|].
    intros v Hv. apply Hall. set_solver.
Qed.
(** Every part of a split is free of the separator. *)
Lemma split_parts c s w : w ∈ split c s → sall (λ d, negb (bool_decide (d = c))) w = true.
Proof.
  revert w. induction s as [|d s IH]; cbn; intros w.
  - rewrite elem_of_list_singleton || rewrite list_elem_of_singleton. by intros ->.
  - case_decide as Hd.
    + rewrite elem_of_cons. intros [->|Hw]; [done|auto].
    + destruct (split c s) as [|w' ws] eqn:E; [by apply split_nonempty in E|].
      rewrite elem_of_cons. intros [->|Hw].
      * cbn. rewrite bool_decide_eq_false_2 by done. apply IH. set_solver.
      * apply IH. set_solver.
Qed.

(** [int(str(z)) == z] *)
Lemma pretty_N_char_digit d : (d < 10)%N → digit_value (pretty_N_char d) = Some (Z.of_N d).
Proof.
  intros Hd. unfold digit_value, is_digit, in_range, code.
  assert (d = 0 ∨ d = 1 ∨ d = 2 ∨ d = 3 ∨ d = 4 ∨ d = 5 ∨ d = 6 ∨ d = 7 ∨ d = 8 ∨ d = 9)%N
    as H by lia.
  by repeat (destruct H as [->|H]); [..|subst].
Qed.
Lemma int_digits_cons acc b c s d :
  digit_value c = Some d → int_digits acc b (String c s) = int_digits (10 * acc + d) true s.
Proof. intros Hd. cbn [int_digits]. by rewrite Hd. Qed.
Lemma int_digits_pretty x b s :
  (0 < x)%N → int_digits 0 b (pretty_N_go x s) = int_digits (Z.of_N x) true s.
Proof.
  revert s. induction (N.lt_wf_0 x) as [x _ IH]. intros s Hx.
  rewrite pretty_N_go_step by done.
  assert (x mod 10 < 10)%N by (apply N.mod_lt; lia).
  pose proof (pretty_N_char_digit (x mod 10) H) as Hd.
  destruct (N.eq_0_gt_0_cases (x `div` 10)) as [Hz|Hp].
  - rewrite Hz, pretty_N_go_0. rewrite (int_digits_cons _ _ _ _ _ Hd). f_equal.
    pose proof (N.div_mod x 10). lia.
  - rewrite IH; [|apply N.div_lt; lia|done]. rewrite (int_digits_cons _ _ _ _ _ Hd). f_equal.
    pose proof (N.div_mod x 10). lia.
Qed.
Lemma sign_dispatch_digit c s :
  is_digit c = true → sign_dispatch (String c s) = int_digits 0 false (String c s).
Proof. destruct c as [[] [] [] [] [] [] [] []]; cbn; done. Qed.
Lemma sall_pretty_N_go x s : sall is_digit s = true → sall is_digit (pretty_N_go x s) = true.
Proof.
  revert s. induction (N.lt_wf_0 x) as [x _ IH]. intros s Hs.
  destruct (N.eq_0_gt_0_cases x) as [->|Hx]; [by rewrite pretty_N_go_0|].
  rewrite pretty_N_go_step by done. apply IH; [apply N.div_lt; lia|].
  cbn. rewrite Hs, andb_true_r.
  assert (x mod 10 < 10)%N by (apply N.mod_lt; lia).
  pose proof (pretty_N_char_digit (x mod 10) H) as Hd. unfold digit_value in Hd.
  by destruct (is_digit _).
Qed.
Lemma pretty_N_go_nonempty x s : (0 < x)%N → pretty_N_go x s ≠ EmptyString.
Proof.
  revert s. induction (N.lt_wf_0 x) as [x _ IH]. intros s Hx.
  rewrite pretty_N_go_step by done.
  destruct (N.eq_0_gt_0_cases (x `div` 10)) as [Hz|Hp].
  - by rewrite Hz, pretty_N_go_0.
  - apply IH; [apply N.div_lt; lia|done].
Qed.
Lemma digit_not_space c : is_digit c = true → negb (is_space c) = true.
Proof. destruct c as [[] [] [] [] [] [] [] []]; cbn; done. Qed.

Lemma py_int_pretty_pos p : py_int (pretty (Npos p)) = Some (Zpos p).
Proof.
  assert (pretty (Npos p) = pretty_N_go (Npos p) EmptyString) as Hp by done. rewrite Hp.
  pose proof (sall_pretty_N_go (Npos p) EmptyString eq_refl) as Hd.
  pose proof (pretty_N_go_nonempty (Npos p) EmptyString eq_refl) as Hne.
  change (sign_dispatch (strip (pretty_N_go (Npos p) EmptyString)) = Some (Zpos p)).
  unfold strip. rewrite strip_sall by (eapply sall_mono; [apply digit_not_space|done]).
  pose proof (int_digits_pretty (Npos p) false EmptyString eq_refl) as Hi.
  destruct (pretty_N_go (Npos p) EmptyString) as [|c s]; [done|].
  cbn [sall] in Hd. apply andb_true_iff in Hd as [Hc _].
  by rewrite sign_dispatch_digit, Hi.
Qed.
Lemma py_int_str_int z : py_int (str_int z) = Some z.
Proof.
  destruct z as [|p|p]; [done|apply py_int_pretty_pos|].
  change (str_int (Zneg p)) with ("-" +:+ pretty_N_go (Npos p) EmptyString).
  change (sign_dispatch (strip ("-" +:+ pretty_N_go (Npos p) EmptyString)) = Some (Zneg p)).
  pose proof (sall_pretty_N_go (Npos p) EmptyString eq_refl) as Hd.
  unfold strip. rewrite strip_sall.
  2: { rewrite sall_append. cbn. eapply sall_mono; [apply digit_not_space|done]. }
  change (Z.opp <$> int_digits 0 false (pretty_N_go (Npos p) EmptyString) = Some (Zneg p)).
  by rewrite int_digits_pretty.
Qed.

#[global] Arguments strip : simpl never.
#[global] Arguments bstrip : simpl never.
#[global] Arguments strip_chars : simpl never.
#[global] Arguments lower : simpl never.
#[global] Arguments blower : simpl never.
#[global] Arguments upper : simpl never.
#[global] Arguments startswith : simpl never.
