(* ===== verification/PyDict.v ===== *)
(** * Python dictionaries

    [dict] and [OrderedDict]: an association list in insertion order, keys
    without duplicates ([wf]).  Assigning to a present key keeps its place;
    [move_to_end] and [popitem(last=False)] are those of [OrderedDict]. *)

From S2P Require Import Prelude.

Section dict.
Context {K V : Type} `{EqDecision K}.
Implicit Types (d : list (K * V)) (k : K) (v : V).

(** [d.get(k)] *)
Fixpoint dget d k : option V :=
  match d with
  | [] => None
  | (k', v) :: d => if decide (k' = k) then Some v else dget d k
  end.
(** [d[k] = v] *)
Fixpoint dset d k v : list (K * V) :=
  match d with
  | [] => [(k, v)]
  | (k', v') :: d => if decide (k' = k) then (k', v) :: d else (k', v') :: dset d k v
  end.
(** [d.pop(k, None)] and [del d[k]] *)
Fixpoint ddel d k : list (K * V) :=
  match d with
  | [] => []
  | (k', v') :: d => if decide (k' = k) then d else (k', v') :: ddel d k
  end.
(** [d.move_to_end(k)] *)
Definition move_to_end d k : list (K * V) :=
  match dget d k with Some v => ddel d k ++ [(k, v)] | None => d end.
(** [d.popitem(last=False)] *)
Definition popitem_first d : list (K * V) := tail d.
(** [while len(d) > n: d.popitem(last=False)] *)
Definition shrink (n : nat) d : list (K * V) := drop (length d - n) d.
(** The loop [shrink] stands for, with the number of iterations it needs. *)
Fixpoint shrink_loop (fuel n : nat) d : list (K * V) :=
  match fuel with
  | O => d
  | S fuel => if decide (n < length d)%nat then shrink_loop fuel n (popitem_first d) else d
  end.
Definition dkeys d : list K := d.*1.
Definition dvalues d : list V := d.*2.
(** [k in d] *)
Definition dmem d k : bool := bool_decide (is_Some (dget d k)).
(** [for k in ks: d.pop(k, None)] *)
Definition ddel_all d (ks : list K) : list (K * V) := foldl ddel d ks.
Definition wf d : Prop := NoDup (dkeys d).

Lemma dget_elem d k v : dget d k = Some v → (k, v) ∈ d.
Proof.
  induction d as [|[k' v'] d IH]; cbn; [done|]. case_decide; subst.
  - intros [= ->]. constructor.
  - intros. constructor. auto.
Qed.
Lemma elem_dget d k v : wf d → (k, v) ∈ d → dget d k = Some v.
Proof.
  unfold wf, dkeys. induction d as [|[k' v'] d IH]; cbn.
  - by intros _ ?%elem_of_nil.
  - rewrite NoDup_cons. intros [Hk Hd]. rewrite elem_of_cons.
    intros [[= -> ->]|Hin]; [by rewrite decide_True|].
    rewrite decide_False; [auto|]. intros ->.
    apply Hk. by apply (list_elem_of_fmap_2 fst) in Hin.
Qed.
Lemma dget_None d k : dget d k = None ↔ k ∉ dkeys d.
Proof.
  unfold dkeys. induction d as [|[k' v'] d IH]; cbn.
  - split; [intros _; apply not_elem_of_nil|done].
  - rewrite not_elem_of_cons. case_decide; naive_solver.
Qed.
Lemma dget_Some_key d k : is_Some (dget d k) ↔ k ∈ dkeys d.
Proof.
  rewrite <-not_eq_None_Some, dget_None.
  destruct (decide (k ∈ dkeys d)); naive_solver.
Qed.
Lemma dmem_true d k : dmem d k = true ↔ k ∈ dkeys d.
Proof. unfold dmem. by rewrite bool_decide_eq_true, dget_Some_key. Qed.

Lemma dget_dset d k k' v :
  dget (dset d k v) k' = if decide (k = k') then Some v else dget d k'.
Proof.
  induction d as [|[k0 v0] d IH]; cbn; [done|].
  repeat (case_decide; subst; cbn); congruence.
Qed.
Lemma dget_dset_eq d k v : dget (dset d k v) k = Some v.
Proof. by rewrite dget_dset, decide_True. Qed.
Lemma dget_dset_ne d k k' v : k ≠ k' → dget (dset d k v) k' = dget d k'.
Proof. intros. by rewrite dget_dset, decide_False. Qed.

Lemma ddel_notin d k : k ∉ dkeys d → ddel d k = d.
Proof.
  unfold dkeys. induction d as [|[k0 v0] d IH]; cbn; [done|].
  rewrite not_elem_of_cons. intros []. rewrite decide_False by done. f_equal; auto.
Qed.
Lemma dget_ddel_ne d k k' : k ≠ k' → dget (ddel d k) k' = dget d k'.
Proof.
  intros Hne. induction d as [|[k0 v0] d IH]; cbn; [done|].
  repeat (case_decide; subst; cbn); congruence.
Qed.
Lemma dget_ddel_eq d k : wf d → dget (ddel d k) k = None.
Proof.
  unfold wf, dkeys. induction d as [|[k0 v0] d IH]; cbn; [done|].
  rewrite NoDup_cons. intros [Hk Hd]. case_decide; subst; cbn.
  - by apply dget_None.
  - rewrite decide_False by done. auto.
Qed.
Lemma dget_ddel d k k' :
  wf d → dget (ddel d k) k' = if decide (k = k') then None else dget d k'.
Proof.
  intros. case_decide; subst; [by apply dget_ddel_eq|by apply dget_ddel_ne].
Qed.
Lemma elem_ddel d k p : p ∈ ddel d k → p ∈ d.
Proof.
  induction d as [|[k0 v0] d IH]; cbn; [done|]. case_decide; rewrite ?elem_of_cons; naive_solver.
Qed.
Lemma dkeys_dset d k v :
  dkeys (dset d k v) = if decide (k ∈ dkeys d) then dkeys d else dkeys d ++ [k].
Proof.
  unfold dkeys. induction d as [|[k0 v0] d IH]; cbn.
  - rewrite decide_False; [done|]. apply not_elem_of_nil.
  - destruct (decide (k0 = k)) as [H0|H0]; cbn.
    + rewrite decide_True by (subst; constructor). done.
    + rewrite IH. destruct (decide (k ∈ d.*1)).
      * rewrite decide_True; [done|]. apply elem_of_cons; auto.
      * rewrite decide_False; [done|]. rewrite not_elem_of_cons. naive_solver.
Qed.
Lemma wf_nil : wf [].
Proof. constructor. Qed.
Lemma wf_dset d k v : wf d → wf (dset d k v).
Proof.
  unfold wf. rewrite dkeys_dset. case_decide; [done|]. intros.
  apply NoDup_app. split; [done|]. split; [|apply NoDup_singleton].
  intros x Hx ->%list_elem_of_singleton. done.
Qed.
Lemma ddel_sublist d k : ddel d k `sublist_of` d.
Proof.
  induction d as [|[k0 v0] d IH]; cbn; [done|].
  case_decide; [by apply sublist_cons|by apply sublist_skip].
Qed.
Lemma wf_sublist d d' : d' `sublist_of` d → wf d → wf d'.
Proof.
  intros Hs Hd. apply (sublist_NoDup _ (dkeys d)); [done|].
  by apply (fmap_sublist fst).
Qed.
Lemma wf_ddel d k : wf d → wf (ddel d k).
Proof. apply wf_sublist, ddel_sublist. Qed.
Lemma wf_ddel_all d ks : wf d → wf (ddel_all d ks).
Proof. revert d. induction ks; cbn; auto using wf_ddel. Qed.
Lemma ddel_all_sublist d ks : ddel_all d ks `sublist_of` d.
Proof.
  revert d. induction ks as [|k ks IH]; intros d; cbn; [done|].
  etrans; [apply IH|apply ddel_sublist].
Qed.
Lemma wf_tail d : wf d → wf (popitem_first d).
Proof. apply wf_sublist. destruct d; [done|]. by apply sublist_cons. Qed.
Lemma wf_shrink n d : wf d → wf (shrink n d).
Proof. apply wf_sublist, sublist_drop. Qed.

Lemma dget_sublist d d' k v :
  wf d → d' `sublist_of` d → dget d' k = Some v → dget d k = Some v.
Proof. intros Hd Hs Hg%dget_elem. apply elem_dget; [done|]. by eapply elem_of_sublist. Qed.

Lemma dget_app_None d d' k : dget d k = None → dget (d ++ d') k = dget d' k.
Proof. induction d as [|[k0 v0] d IH]; cbn; [done|]. case_decide; [done|auto]. Qed.
Lemma dget_app_Some d d' k v : dget d k = Some v → dget (d ++ d') k = Some v.
Proof. induction d as [|[k0 v0] d IH]; cbn; [done|]. case_decide; [done|auto]. Qed.
Lemma dget_app d d' k :
  dget (d ++ d') k = match dget d k with Some v => Some v | None => dget d' k end.
Proof. destruct (dget d k) eqn:E; [by apply dget_app_Some|by apply dget_app_None]. Qed.

(** Moving a key to the end changes no lookup. *)
Lemma dget_move_to_end d k k' : wf d → dget (move_to_end d k) k' = dget d k'.
Proof.
  intros Hd. unfold move_to_end. destruct (dget d k) as [v|] eqn:E; [|done].
  rewrite dget_app, dget_ddel by done. cbn. repeat case_decide; subst; try done.
  by destruct (dget d k').
Qed.
Lemma wf_app_fresh d k v : wf d → k ∉ dkeys d → wf (d ++ [(k, v)]).
Proof.
  unfold wf, dkeys. intros Hd Hk. rewrite fmap_app. apply NoDup_app.
  split; [done|]. split; [|apply NoDup_singleton].
  by intros x Hx ->%list_elem_of_singleton.
Qed.
Lemma ddel_not_key d k : wf d → k ∉ dkeys (ddel d k).
Proof. intros. by apply dget_None, dget_ddel_eq. Qed.
Lemma wf_move_to_end d k : wf d → wf (move_to_end d k).
Proof.
  intros Hd. unfold move_to_end. destruct (dget d k); [|done].
  apply wf_app_fresh; [by apply wf_ddel|by apply ddel_not_key].
Qed.
Lemma dkeys_ddel d k : wf d → dkeys (ddel d k) = List.filter (λ x, negb (bool_decide (x = k))) (dkeys d).
Proof.
  unfold wf, dkeys. induction d as [|[k0 v0] d IH]; cbn; [done|].
  rewrite NoDup_cons. intros [Hk Hd]. case_decide as H0; subst.
  - rewrite bool_decide_true by done. cbn. symmetry. apply forallb_filter_id, forallb_True'.
    intros x Hx. rewrite bool_decide_false; [done|]. by intros ->.
  - rewrite bool_decide_false by done. cbn. by rewrite IH.
Qed.
(** [d[k] = v; d.move_to_end(k)] *)
Lemma ddel_dset d k v : ddel (dset d k v) k = ddel d k.
Proof.
  induction d as [|[k0 v0] d IH]; cbn.
  - by rewrite decide_True.
  - destruct (decide (k0 = k)) as [->|Hk]; cbn.
    + by rewrite decide_True.
    + by rewrite decide_False, IH.
Qed.
Lemma move_to_end_dset d k v : move_to_end (dset d k v) k = ddel d k ++ [(k, v)].
Proof. unfold move_to_end. by rewrite dget_dset_eq, ddel_dset. Qed.
Lemma dmem_false d k : dmem d k = false ↔ dget d k = None.
Proof.
  unfold dmem. rewrite bool_decide_eq_false, <-not_eq_None_Some.
  destruct (dget d k); naive_solver.
Qed.

Lemma length_ddel d k v : dget d k = Some v → length d = S (length (ddel d k)).
Proof. induction d as [|[k0 v0] d IH]; cbn; [done|]. case_decide; cbn; [done|auto]. Qed.
Lemma length_ddel_le d k : (length (ddel d k) <= length d)%nat.
Proof. apply sublist_length, ddel_sublist. Qed.
Lemma length_dset d k v :
  length (dset d k v) = if dmem d k then length d else S (length d).
Proof.
  induction d as [|[k0 v0] d IH]; [done|]. unfold dmem in *. cbn.
  destruct (decide (k0 = k)) as [->|]; cbn.
  - done.
  - rewrite IH. by case_bool_decide.
Qed.
Lemma length_shrink n d : length (shrink n d) = Nat.min n (length d).
Proof. unfold shrink. rewrite length_drop. lia. Qed.
Lemma shrink_small n d : (length d <= n)%nat → shrink n d = d.
Proof. intros. unfold shrink. by replace (length d - n)%nat with 0%nat by lia. Qed.
(** [shrink] is what the loop computes; [length d] iterations are enough. *)
Lemma shrink_loop_spec fuel n d :
  (length d <= fuel)%nat → shrink_loop fuel n d = shrink n d.
Proof.
  revert d. induction fuel as [|fuel IH]; intros d Hf; cbn.
  - rewrite shrink_small by lia. done.
  - case_decide as Hn; [|by rewrite shrink_small by lia].
    destruct d as [|p d]; [cbn in Hn; lia|]. cbn in Hf |- *.
    rewrite IH by lia. unfold shrink. cbn [length].
    by replace (S (length d) - n)%nat with (S (length d - n)) by (cbn in Hn; lia).
Qed.
Lemma shrink_app_last n d k v :
  (1 <= n)%nat → wf (d ++ [(k, v)]) → dget (shrink n (d ++ [(k, v)])) k = Some v.
Proof.
  intros Hn Hd. apply elem_dget; [by apply wf_shrink|].
  unfold shrink. rewrite drop_app_le by (rewrite length_app; cbn; lia).
  set_solver.
Qed.

Lemma dkeys_elem d k : k ∈ dkeys d ↔ ∃ v, (k, v) ∈ d.
Proof.
  unfold dkeys. rewrite list_elem_of_fmap. split.
  - intros ([k' v] & -> & H). by exists v.
  - intros (v & H). by exists (k, v).
Qed.
Lemma dset_fresh d k v : k ∉ dkeys d → dset d k v = d ++ [(k, v)].
Proof.
  unfold dkeys. induction d as [|[k' v'] d IH]; cbn; [done|]. intros Hk. rewrite decide_False by set_solver.
  rewrite IH; [done|set_solver].
Qed.
Lemma dkeys_app d d' : dkeys (d ++ d') = dkeys d ++ dkeys d'.
Proof. apply fmap_app. Qed.
Lemma wf_app_inv d d' : wf (d ++ d') → wf d ∧ wf d' ∧ ∀ k, k ∈ dkeys d → k ∉ dkeys d'.
Proof. unfold wf, dkeys. rewrite fmap_app, NoDup_app. naive_solver. Qed.
(** Assigning the items of a dict, in order, appends the new ones. *)
Lemma dset_all_fresh d l : wf (d ++ l) → foldl (λ acc kv, dset acc kv.1 kv.2) d l = d ++ l.
Proof.
  revert d. induction l as [|[k v] l IH]; intros d Hwf; cbn; [by rewrite app_nil_r|].
  rewrite dset_fresh; [|destruct (wf_app_inv _ _ Hwf) as (_ & _ & Hd); intros Hk; apply (Hd k Hk); left].
  rewrite IH; by rewrite <-(assoc_L (++)).
Qed.
(** Dropping keys by a test. *)
Lemma dget_filter_key (P : K → bool) d k :
  dget (List.filter (λ p, P p.1) d) k = if P k then dget d k else None.
Proof.
  induction d as [|[k' v] d IH]; cbn; [by destruct (P k)|].
  destruct (P k') eqn:Hp; cbn; rewrite IH; case_decide as Hk; subst; by rewrite ?Hp; try destruct (P k).
Qed.
Lemma dget_ddel_all d ks k :
  wf d → dget (ddel_all d ks) k = if decide (k ∈ ks) then None else dget d k.
Proof.
  revert d. induction ks as [|k' ks IH]; intros d Hd; cbn.
  - by rewrite decide_False by apply not_elem_of_nil.
  - rewrite IH, dget_ddel by auto using wf_ddel.
    repeat case_decide; subst; set_solver.
Qed.
End dict.

#[export] Hint Resolve wf_nil wf_dset wf_ddel wf_ddel_all wf_tail wf_shrink
  wf_move_to_end : core.
