(* ===== verification/Regex.v ===== *)
(** * Python regular expressions

    The part of [re] that the code uses: the syntax of patterns ([compile]
    reads them from the text the source has), backtracking search in priority
    order with the groups it captured ([run], [search], [sub]), and what it
    means for a pattern to match a stretch of a text ([matches], [search_spec]).
    An iteration of a star consumes something, as in [re]. *)

From S2P Require Import Prelude PyStr.

#[local] Open Scope char_scope.

(** [\w], [\d], [\s] of [str] patterns, on code points below 256. *)
Definition is_word (c : ascii) : bool :=
  is_digit c || is_upper c || is_lower c || char_in "_" c
  || existsb (λ n, (code c =? n)%N) [178; 179; 185; 188; 189; 190]%N.

Inductive re : Type :=
  | Eps
  | Chr (p : ascii → bool)
  | Seq (r1 r2 : re)
  | Alt (r1 r2 : re)
  | Star (greedy : bool) (r : re)
  | Grp (name : string) (r : re)
  | Bol (multiline : bool)
  | Eol (multiline : bool)
  | Wordb.

(** ** Positions *)

(** A position: the character before it and the text after it. *)
Notation pos := (option ascii * string)%type.
Definition newline : ascii := ascii_of_nat 10.
Definition at_bol (multiline : bool) (p : pos) : bool :=
  match p.1 with None => true | Some c => multiline && bool_decide (c = newline) end.
(** Without MULTILINE, [$] also matches before a final newline. *)
Definition at_eol (multiline : bool) (p : pos) : bool :=
  match p.2 with
  | EmptyString => true
  | String c t => bool_decide (c = newline) && (multiline || is_empty t)
  end.
Definition word_at (o : option ascii) : bool := from_option is_word false o.
Definition next (p : pos) : option ascii := match p.2 with EmptyString => None | String c _ => Some c end.
Definition at_wordb (p : pos) : bool := xorb (word_at p.1) (word_at (next p)).

(** ** Backtracking *)

Notation caps := (list (string * string)).
Notation st := (pos * caps)%type.

(** The text from one position to a later one. *)
Definition between (p q : pos) : string := String.substring 0 (String.length p.2 - String.length q.2) p.2.
Definition shorter (a b : st) : bool := (String.length a.1.2 <? String.length b.1.2)%nat.

(** The ways to match, in the order [re] tries them. *)
Fixpoint star (f : st → list st) (greedy : bool) (fuel : nat) (s : st) : list st :=
  let more := match fuel with
              | O => []
              | S n => List.flat_map (star f greedy n) (List.filter (λ s', shorter s' s) (f s))
              end in
  if greedy then more ++ [s] else s :: more.

Fixpoint run (r : re) (s : st) : list st :=
  match r with
  | Eps => [s]
  | Chr p => match s.1.2 with
             | String c t => if p c then [((Some c, t), s.2)] else []
             | EmptyString => []
             end
  | Seq r1 r2 => List.flat_map (run r2) (run r1 s)
  | Alt r1 r2 => run r1 s ++ run r2 s
  | Star g r => star (run r) g (String.length s.1.2) s
  | Grp n r => (λ s' : st, (s'.1, s'.2 ++ [(n, between s.1 s'.1)])) <$> run r s
  | Bol m => if at_bol m s.1 then [s] else []
  | Eol m => if at_eol m s.1 then [s] else []
  | Wordb => if at_wordb s.1 then [s] else []
  end.

(** [re.match] at a position. *)
Definition match_at (r : re) (p : pos) : option st := head (run r (p, [])).

(** [re.search]: the first position with a match, and the match. *)
Fixpoint search_from (r : re) (o : option ascii) (s : string) : option (pos * st) :=
  match match_at r (o, s) with
  | Some m => Some ((o, s), m)
  | None => match s with
            | EmptyString => None
            | String c t => search_from r (Some c) t
            end
  end.
Definition search (r : re) (s : string) : option (pos * st) := search_from r None s.
Definition found (r : re) (s : string) : bool := bool_decide (is_Some (search r s)).
(** [match["name"]]: the last capture of the group. *)
Definition group (cs : caps) (n : string) : option string :=
  snd <$> last (List.filter (λ c, bool_decide (c.1 = n)) cs).

(** [re.sub] with a function, for patterns that do not match the empty text;
    the fuel is the length of the text. *)
Fixpoint sub_from (r : re) (f : caps → string) (fuel : nat) (o : option ascii) (s : string) : string :=
  match fuel with
  | O => s
  | S n =>
      match match_at r (o, s) with
      | Some (q, cs) =>
          if (String.length q.2 <? String.length s)%nat then f cs +:+ sub_from r f n q.1 q.2
          else match s with
               | EmptyString => EmptyString
               | String c t => String c (sub_from r f n (Some c) t)
               end
      | None => match s with
                | EmptyString => EmptyString
                | String c t => String c (sub_from r f n (Some c) t)
                end
      end
  end.
Definition sub (r : re) (f : caps → string) (s : string) : string := sub_from r f (String.length s) None s.

(** ** The syntax of patterns *)

Record flags := { MULTILINE : bool; IGNORECASE : bool }.
Definition no_flags : flags := {| MULTILINE := false; IGNORECASE := false |}.
Definition only_multiline : flags := {| MULTILINE := true; IGNORECASE := false |}.
Definition only_ignorecase : flags := {| MULTILINE := false; IGNORECASE := true |}.

Section Parse.
Context (fl : flags).

Definition literal (c : ascii) : ascii → bool := λ d,
  if IGNORECASE fl then bool_decide (lower_char c = lower_char d) else bool_decide (c = d).
Definition range (a b : ascii) : ascii → bool := λ d,
  let inside := λ d, in_range (code a) (code b) d in
  inside d || (IGNORECASE fl && (inside (lower_char d) || inside (upper_char d))).

(** What [\c] stands for: a class, or the character itself. *)
Definition escape (c : ascii) : option (ascii → bool) :=
  match c with
  | "w" => Some is_word
  | "d" => Some is_digit
  | "s" => Some is_space
  | _ => if is_word c then None else Some (literal c)
  end.

(** The items of a class, after its bracket. *)
Fixpoint class (s : string) : option ((ascii → bool) * string) :=
  match s with
  | EmptyString => None
  | String "]" t => Some (λ _, false, t)
  | String "\" (String c t) =>
      match escape c, class t with
      | Some p, Some (q, u) => Some (λ d, p d || q d, u)
      | _, _ => None
      end
  | String a (String "-" (String "]" t)) => Some (λ d, literal a d || literal "-" d, t)
  | String a (String "-" (String b t)) =>
      match class t with Some (q, u) => Some (λ d, range a b d || q d, u) | None => None end
  | String a t =>
      match class t with Some (q, u) => Some (λ d, literal a d || q d, u) | None => None end
  end.

(** A repetition after an atom. *)
Definition quantify (r : re) (s : string) : re * string :=
  match s with
  | String "*" (String "?" t) => (Star false r, t)
  | String "*" t => (Star true r, t)
  | String "+" (String "?" t) => (Seq r (Star false r), t)
  | String "+" t => (Seq r (Star true r), t)
  | String "?" (String "?" t) => (Alt Eps r, t)
  | String "?" t => (Alt r Eps, t)
  | _ => (r, s)
  end.

(** The name of a group, up to its [>]. *)
Fixpoint group_name (s : string) : option (string * string) :=
  match s with
  | EmptyString => None
  | String ">" t => Some (EmptyString, t)
  | String c t => match group_name t with Some (n, u) => Some (String c n, u) | None => None end
  end.

(** Alternatives, sequences and atoms; the depth bounds the recursion. *)
Fixpoint alternatives (depth : nat) (s : string) : option (re * string) :=
  match depth with
  | O => None
  | S n =>
      match sequence n s with
      | Some (r, String "|" t) =>
          match alternatives n t with Some (r', u) => Some (Alt r r', u) | None => None end
      | x => x
      end
  end
with sequence (depth : nat) (s : string) : option (re * string) :=
  match depth with
  | O => None
  | S n =>
      match s with
      | EmptyString => Some (Eps, s)
      | String c _ =>
          if char_in "|)" c then Some (Eps, s) else
          match atom n s with
          | Some (r, t) =>
              let '(r, t) := quantify r t in
              match sequence n t with Some (r', u) => Some (Seq r r', u) | None => None end
          | None => None
          end
      end
  end
with atom (depth : nat) (s : string) : option (re * string) :=
  match depth with
  | O => None
  | S n =>
      let closed x := match x with Some (r, String ")" u) => Some (r, u) | _ => None end in
      match s with
      | EmptyString => None
      | String "(" (String "?" (String ":" t)) => closed (alternatives n t)
      | String "(" (String "?" (String "P" (String "<" t))) =>
          match group_name t with
          | Some (name, u) => match closed (alternatives n u) with
                              | Some (r, v) => Some (Grp name r, v)
                              | None => None
                              end
          | None => None
          end
      | String "(" (String "?" _) => None
      | String "(" t => closed (alternatives n t)
      | String "[" (String "^" _) => None
      | String "[" t => match class t with Some (p, u) => Some (Chr p, u) | None => None end
      | String "\" (String "b" t) => Some (Wordb, t)
      | String "\" (String c t) => match escape c with Some p => Some (Chr p, t) | None => None end
      | String "^" t => Some (Bol (MULTILINE fl), t)
      | String "$" t => Some (Eol (MULTILINE fl), t)
      | String "." t => Some (Chr (λ c, negb (bool_decide (c = newline))), t)
      | String c t => if char_in "*+?{" c then None else Some (Chr (literal c), t)
      end
  end.

(** [re.compile]; a pattern outside the modelled part has no meaning. *)
Definition parse (s : string) : option re :=
  match alternatives (3 * String.length s + 3) s with
  | Some (r, EmptyString) => Some r
  | _ => None
  end.
End Parse.

(** A pattern that has no meaning here matches nowhere; each use shows that
    its pattern is read ([parses]). *)
Definition compile (fl : flags) (s : string) : re := default (Chr (λ _, false)) (parse fl s).
Definition parses (fl : flags) (s : string) : bool := match parse fl s with Some _ => true | None => false end.

#[local] Close Scope char_scope.

(** ** What it means to match *)

Inductive matches : re → pos → pos → Prop :=
  | matches_eps p : matches Eps p p
  | matches_chr f c o t : f c = true → matches (Chr f) (o, String c t) (Some c, t)
  | matches_seq r1 r2 p q u : matches r1 p q → matches r2 q u → matches (Seq r1 r2) p u
  | matches_alt_l r1 r2 p q : matches r1 p q → matches (Alt r1 r2) p q
  | matches_alt_r r1 r2 p q : matches r2 p q → matches (Alt r1 r2) p q
  | matches_star_done g r p : matches (Star g r) p p
  | matches_star_more g r p q u :
      matches r p q → (String.length q.2 < String.length p.2)%nat → matches (Star g r) q u → matches (Star g r) p u
  | matches_grp n r p q : matches r p q → matches (Grp n r) p q
  | matches_bol m p : at_bol m p = true → matches (Bol m) p p
  | matches_eol m p : at_eol m p = true → matches (Eol m) p p
  | matches_wordb p : at_wordb p = true → matches Wordb p p.
#[export] Hint Constructors matches : matches.

Lemma elem_flat_map {A B} (f : A → list B) l y : y ∈ List.flat_map f l ↔ ∃ x, x ∈ l ∧ y ∈ f x.
Proof. setoid_rewrite list_elem_of_In. apply in_flat_map. Qed.

Lemma elem_star f g n s s' : s' ∈ star f g n s ↔
  s' = s ∨ ∃ m s1, n = S m ∧ s1 ∈ f s ∧ shorter s1 s = true ∧ s' ∈ star f g m s1.
Proof.
  destruct n as [|n]; cbn [star]; 
    [destruct g; set_solver|].
  set (l := List.flat_map _ _).
  assert (s' ∈ l ↔ ∃ s1, s1 ∈ f s ∧ shorter s1 s = true ∧ s' ∈ star f g n s1) as Hl.
  { unfold l. rewrite elem_flat_map. setoid_rewrite list_elem_of_filter'. naive_solver. }
  destruct g; set_solver.
Qed.

Lemma star_sound g r f : (∀ s s', s' ∈ f s → matches r s.1 s'.1) →
  ∀ n s s', s' ∈ star f g n s → matches (Star g r) s.1 s'.1.
Proof.
  intros Hf n. induction n as [|n IH]; intros s s' [->|(m & s1 & Hn & H1 & Hlt & Hin)]%elem_star; [apply matches_star_done|done|apply matches_star_done|].
  injection Hn as ->. eapply matches_star_more; [by apply Hf|by apply Nat.ltb_lt in Hlt|by apply IH].
Qed.

Lemma run_sound r : ∀ s s', s' ∈ run r s → matches r s.1 s'.1.
Proof.
  induction r as [|f|r1 IH1 r2 IH2|r1 IH1 r2 IH2|g r IH|n r IH|m|m|]; intros [[o t] cs] s'; cbn [run fst snd].
  - intros ->%list_elem_of_singleton. constructor.
  - destruct t as [|c t]; [by intros ?%elem_of_nil|]. destruct (f c) eqn:Hc; [|by intros ?%elem_of_nil].
    intros ->%list_elem_of_singleton. by constructor.
  - intros (s1 & H1 & H2)%elem_flat_map. econstructor; [by apply IH1 in H1|by apply IH2].
  - intros [H|H]%elem_of_app; [apply matches_alt_l; by apply IH1 in H|apply matches_alt_r; by apply IH2 in H].
  - intros H. by apply (star_sound g r (run r)) in H.
  - intros (s1 & -> & H)%list_elem_of_fmap. constructor. by apply IH in H.
  - destruct (at_bol m (o, t)) eqn:Hb; [|by intros ?%elem_of_nil]. intros ->%list_elem_of_singleton. by constructor.
  - destruct (at_eol m (o, t)) eqn:Hb; [|by intros ?%elem_of_nil]. intros ->%list_elem_of_singleton. by constructor.
  - destruct (at_wordb (o, t)) eqn:Hb; [|by intros ?%elem_of_nil]. intros ->%list_elem_of_singleton. by constructor.
Qed.

Lemma star_fuel f g n : ∀ m s s', (n <= m)%nat → s' ∈ star f g n s → s' ∈ star f g m s.
Proof.
  induction n as [|n IH]; intros m s s' Hle [->|(k & s1 & Hn & H1 & Hlt & Hin)]%elem_star; apply elem_star;
    [by left|done|by left|right]. injection Hn as ->. destruct m as [|m]; [lia|].
  exists m, s1. repeat split; [done..|]. apply IH; [lia|done].
Qed.

Lemma run_complete r p q : matches r p q → ∀ cs, ∃ cs', (q, cs') ∈ run r (p, cs).
Proof.
  induction 1 as [p|f c o t Hc|r1 r2 p q u H1 IH1 H2 IH2|r1 r2 p q H IH|r1 r2 p q H IH|g r p|g r p q u H1 IH1 Hlt H2 IH2
                 |n r p q H IH|m p Hp|m p Hp|p Hp]; intros cs; cbn [run fst snd].
  - exists cs. by apply list_elem_of_singleton.
  - rewrite Hc. exists cs. by apply list_elem_of_singleton.
  - destruct (IH1 cs) as [cs1 Hin1]. destruct (IH2 cs1) as [cs2 Hin2]. exists cs2. apply elem_flat_map. eauto.
  - destruct (IH cs) as [cs1 Hin]. exists cs1. apply elem_of_app. auto.
  - destruct (IH cs) as [cs1 Hin]. exists cs1. apply elem_of_app. auto.
  - exists cs. apply elem_star. by left.
  - destruct (IH1 cs) as [cs1 Hin1]. destruct (IH2 cs1) as [cs2 Hin2]. exists cs2. cbn [run fst] in Hin2.
    apply elem_star. right. destruct (String.length p.2) as [|k] eqn:Hk; [lia|].
    exists k, (q, cs1). repeat split; [done|apply Nat.ltb_lt; cbn; lia|]. eapply star_fuel; [|exact Hin2]. lia.
  - destruct (IH cs) as [cs1 Hin]. eexists. apply list_elem_of_fmap. by exists (q, cs1).
  - rewrite Hp. exists cs. by apply list_elem_of_singleton.
  - rewrite Hp. exists cs. by apply list_elem_of_singleton.
  - rewrite Hp. exists cs. by apply list_elem_of_singleton.
Qed.

(** The positions of a text: [r] matches somewhere in it. *)
Inductive within : pos → pos → Prop :=
  | within_here p : within p p
  | within_later o c t p : within (Some c, t) p → within (o, String c t) p.
#[export] Hint Constructors within : matches.

Definition occurs (r : re) (p : pos) : Prop := ∃ q u, within p q ∧ matches r q u.

Lemma match_at_None r p : match_at r p = None ↔ ∀ q, ¬ matches r p q.
Proof.
  unfold match_at. split.
  - intros Hn q H. destruct (run_complete r p q H []) as [cs Hin]. destruct (run r (p, [])); [by apply elem_of_nil in Hin|done].
  - intros Hno. destruct (run r (p, [])) as [|s l] eqn:Hr; [done|].
    destruct (Hno s.1). change p with (p, [] : caps).1. apply (run_sound r (p, [])). rewrite Hr. by left.
Qed.

Lemma match_at_Some r p s : match_at r p = Some s → matches r p s.1.
Proof. intros H. apply (run_sound r (p, [])). unfold match_at in H. destruct (run r (p, [])); [done|]. injection H as ->. by left. Qed.

Lemma search_from_spec r o s : is_Some (search_from r o s) ↔ occurs r (o, s).
Proof.
  unfold occurs. revert o. induction s as [|c t IH]; intros o; cbn [search_from].
  - destruct (match_at r (o, EmptyString)) as [m|] eqn:Hm.
    + apply match_at_Some in Hm. split; [|by eauto]. intros _. eauto with matches.
    + split; [by intros []|]. intros (q & u & Hw & H). inversion Hw; subst. by apply (proj1 (match_at_None r (o, EmptyString)) Hm) in H.
  - destruct (match_at r (o, String c t)) as [m|] eqn:Hm.
    + apply match_at_Some in Hm. split; [|by eauto]. intros _. eauto with matches.
    + rewrite IH. split; intros (q & u & Hw & H); [eauto with matches|]. inversion Hw; subst; [|by eauto].
      by apply (proj1 (match_at_None _ _) Hm) in H.
Qed.

(** [re.search] finds a match exactly when there is one. *)
Lemma search_spec r s : found r s = true ↔ occurs r (None, s).
Proof. unfold found, search. rewrite bool_decide_eq_true. apply search_from_spec. Qed.

(** ** A pattern without line anchors does not look past the text around it *)

Fixpoint anchor_free (r : re) : bool :=
  match r with
  | Bol _ | Eol _ => false
  | Seq r1 r2 | Alt r1 r2 => anchor_free r1 && anchor_free r2
  | Star _ r | Grp _ r => anchor_free r
  | _ => true
  end.

(** The same position in a longer text: what comes before and after is not
    part of a word. *)
Definition extended (b : option ascii) (after : string) (p p' : pos) : Prop :=
  p'.2 = p.2 +:+ after ∧ (p'.1 = p.1 ∨ p.1 = None ∧ p'.1 = b).

Section Extended.
Context (b : option ascii) (after : string).
Hypothesis Hb : word_at b = false.
Hypothesis Hafter : word_at (next (None, after)) = false.

Lemma extended_wordb p p' : extended b after p p' → at_wordb p' = at_wordb p.
Proof using Hb Hafter.
  intros [H2 H1]. unfold at_wordb. f_equal.
  - destruct H1 as [-> | [-> ->]]; done.
  - unfold next in *. rewrite H2. by destruct p.2.
Qed.

Lemma matches_extended r p q : anchor_free r = true → matches r p q →
  ∀ p', extended b after p p' → ∃ q', extended b after q q' ∧ matches r p' q'.
Proof using Hb Hafter.
  intros Ha H. induction H as [p|f c o t Hc|r1 r2 p q u H1 IH1 H2 IH2|r1 r2 p q H IH|r1 r2 p q H IH|g r p|g r p q u H1 IH1 Hlt H2 IH2
                 |n r p q H IH|m p Hp|m p Hp|p Hp]; cbn [anchor_free] in Ha; bprop; intros p' Hp'.
  - eauto with matches.
  - destruct p' as [o' t'], Hp' as [H2 H1]. cbn in *. subst t'. exists (Some c, t +:+ after).
    split; [split; [done|by left]|]. by constructor.
  - destruct Ha as [Ha1 Ha2]. destruct (IH1 Ha1 p' Hp') as (q' & Hq' & Hm1). destruct (IH2 Ha2 q' Hq') as (u' & Hu' & Hm2). eauto with matches.
  - destruct Ha as [Ha1 Ha2]. destruct (IH Ha1 p' Hp') as (q' & Hq' & Hm). eauto with matches.
  - destruct Ha as [Ha1 Ha2]. destruct (IH Ha2 p' Hp') as (q' & Hq' & Hm). eauto with matches.
  - eauto with matches.
  - destruct (IH1 Ha p' Hp') as (q' & Hq' & Hm1). destruct (IH2 Ha q' Hq') as (u' & Hu' & Hm2). exists u'. split; [done|].
    eapply matches_star_more; [exact Hm1| |exact Hm2]. destruct Hp' as [-> _], Hq' as [-> _]. rewrite !append_length. lia.
  - destruct (IH Ha p' Hp') as (q' & Hq' & Hm). eauto with matches.
  - done.
  - done.
  - exists p'. split; [done|]. constructor. by rewrite (extended_wordb p p').
Qed.

Lemma within_extended p q : within p q → ∀ p', extended b after p p' → ∃ q', extended b after q q' ∧ within p' q'.
Proof using.
  induction 1 as [p|o c t p Hw IH]; intros p' Hp'; [by eauto with matches|].
  destruct p' as [o' t'], Hp' as [H2 H1]. cbn in *. subst t'.
  destruct (IH (Some c, t +:+ after)) as (q' & Hq' & Hm); [by split; [|left]|]. exists q'. split; [done|].
  cbn. by constructor.
Qed.

Lemma occurs_extended r p p' : anchor_free r = true → extended b after p p' → occurs r p → occurs r p'.
Proof using Hb Hafter.
  intros Ha Hp' (q & u & Hw & Hm). destruct (within_extended p q Hw p' Hp') as (q' & Hq' & Hw').
  destruct (matches_extended r q u Ha Hm q' Hq') as (u' & _ & Hm'). by exists q', u'.
Qed.
End Extended.

(** What is found in a stretch of a text is found in the text, when no word
    is cut at its ends. *)
Fixpoint last_char (o : option ascii) (s : string) : option ascii :=
  match s with EmptyString => o | String c t => last_char (Some c) t end.

Lemma within_append a : ∀ o t, within (o, a +:+ t) (last_char o a, t).
Proof. induction a as [|c a IH]; intros o t; cbn; [constructor|]. constructor. apply IH. Qed.

Lemma within_trans p q u : within p q → within q u → within p u.
Proof. induction 1; eauto with matches. Qed.

Lemma found_within r a s b : anchor_free r = true → word_at (last_char None a) = false → word_at (next (None, b)) = false →
  found r s = true → found r (a +:+ s +:+ b) = true.
Proof.
  intros Hr Ha Hb (q & u & Hw & Hm)%search_spec. apply search_spec.
  destruct (occurs_extended (last_char None a) b Ha Hb r (None, s) (last_char None a, s +:+ b)) as (q' & u' & Hw' & Hm');
    [done|split; [done|by right]|by exists q, u|].
  exists q', u'. split; [|done]. eapply within_trans; [apply within_append|done].
Qed.

(** ** The first match, for patterns that are followed step by step *)

Definition first_of (r : re) (s s' : st) : Prop := ∃ l, run r s = s' :: l.

Lemma flat_map_ext' {A B} (h k : A → list B) l : (∀ x, x ∈ l → h x = k x) → List.flat_map h l = List.flat_map k l.
Proof.
  induction l as [|x l IH]; intros Hx; [done|]. cbn. rewrite (Hx x), IH; [done| |by left].
  intros y Hy. apply Hx. by right.
Qed.

Lemma none_shorter s l : (String.length s.1.2 <= 0)%nat → List.filter (λ s', shorter s' s) l = [].
Proof.
  intros Hs. induction l as [|x l IH]; [done|]. cbn [List.filter]. unfold shorter at 1.
  rewrite (proj2 (Nat.ltb_ge _ _)) by lia. done.
Qed.

Lemma star_fuel_eq f g n : ∀ m s, (String.length s.1.2 <= n)%nat → (String.length s.1.2 <= m)%nat → star f g n s = star f g m s.
Proof.
  induction n as [|n IH]; intros [|m] s Hn Hm; cbn [star]; [done|by rewrite none_shorter by lia..|].
  rewrite (flat_map_ext' (star f g n) (star f g m)); [done|].
  intros x [_ Hlt%Nat.ltb_lt]%list_elem_of_filter'. apply IH; lia.
Qed.

Lemma first_seq r1 r2 s s1 s2 : first_of r1 s s1 → first_of r2 s1 s2 → first_of (Seq r1 r2) s s2.
Proof. intros [l1 H1] [l2 H2]. eexists. cbn [run]. rewrite H1. cbn. rewrite H2. done. Qed.

Lemma first_chr p c o t cs : p c = true → first_of (Chr p) ((o, String c t), cs) ((Some c, t), cs).
Proof. intros H. exists []. cbn. by rewrite H. Qed.

Lemma first_eps s : first_of Eps s s.
Proof. by exists []. Qed.

Lemma first_grp n r s s' : first_of r s s' → first_of (Grp n r) s (s'.1, s'.2 ++ [(n, between s.1 s'.1)]).
Proof. intros [l H]. eexists. cbn [run]. by rewrite H. Qed.

Lemma first_star_done r s : run r s = [] → first_of (Star true r) s s.
Proof. intros H. exists []. cbn [run]. destruct (String.length s.1.2); cbn [star]; by rewrite ?H. Qed.

Lemma first_star_more r s s1 s2 : first_of r s s1 → (String.length s1.1.2 < String.length s.1.2)%nat →
  first_of (Star true r) s1 s2 → first_of (Star true r) s s2.
Proof.
  intros [l H] Hlt [l' H']. cbn [run] in *. destruct (String.length s.1.2) as [|n] eqn:Hn; [lia|].
  unfold first_of. cbn [run]. rewrite Hn. cbn [star]. rewrite H. cbn [List.filter]. unfold shorter at 1.
  rewrite (proj2 (Nat.ltb_lt _ _)) by lia. cbn [List.flat_map].
  rewrite (star_fuel_eq _ _ n (String.length s1.1.2)) by lia. rewrite H'. eexists. done.
Qed.

(** A literal text. *)
Fixpoint lit (fl : flags) (p : string) (r : re) : re :=
  match p with EmptyString => r | String c t => Seq (Chr (literal fl c)) (lit fl t r) end.

Lemma first_lit fl p r : IGNORECASE fl = false → ∀ o t cs s', first_of r ((last_char o p, t), cs) s' →
  first_of (lit fl p r) ((o, p +:+ t), cs) s'.
Proof.
  intros Hfl. induction p as [|c p IH]; intros o t cs s' H; [done|]. cbn [lit String.append].
  eapply first_seq; [apply first_chr; unfold literal; rewrite Hfl; by apply bool_decide_eq_true|by apply IH].
Qed.

Lemma run_lit_other fl p r : IGNORECASE fl = false → ∀ o s cs, (∀ t, s = p +:+ t → run r ((last_char o p, t), cs) = []) →
  run (lit fl p r) ((o, s), cs) = [].
Proof.
  intros Hfl. induction p as [|c p IH]; intros o s cs H; [by apply H|]. cbn [lit run fst snd]. destruct s as [|d s]; [done|].
  unfold literal. rewrite Hfl. case_bool_decide as Hc; [subst d|done]. cbn [List.flat_map]. rewrite app_nil_r.
  apply IH. intros t ->. by apply H.
Qed.

Lemma run_seq_nil r1 r2 s : run r1 s = [] → run (Seq r1 r2) s = [].
Proof. intros H. cbn [run]. by rewrite H. Qed.

Lemma between_append o a o' t : between (o, a +:+ t) (o', t) = a.
Proof.
  unfold between. cbn [fst snd]. rewrite append_length, Nat.add_sub.
  induction a as [|c a IH]; cbn; [by destruct t|by rewrite IH].
Qed.

(** [\w+] takes the whole word. *)
Lemma first_words o w t cs : sall is_word w = true → word_at (next (o, t)) = false →
  first_of (Star true (Chr is_word)) ((o, w +:+ t), cs) ((last_char o w, t), cs).
Proof.
  revert o. induction w as [|c w IH]; intros o Hw Ht; cbn in *.
  - apply first_star_done. cbn. destruct t as [|c t]; [done|]. cbn in Ht. by rewrite Ht.
  - apply andb_true_iff in Hw as [Hc Hw]. eapply first_star_more; [by apply first_chr|cbn; lia|]. by apply IH.
Qed.
