(* ===== verification/Bits.v ===== *)
(** * Bit operations on Python integers

    Python integers are unbounded; [<<], [|] and [&] are [Z.shiftl], [Z.lor]
    and [Z.land]. *)

From S2P Require Import Prelude.

(** [bool(bits & (1 << i))] *)
Definition bit_set (bits i : Z) : bool := negb (Z.land bits (Z.shiftl 1 i) =? 0).

Lemma testbit_shiftl1 i j : 0 <= i → Z.testbit (Z.shiftl 1 i) j = bool_decide (i = j).
Proof.
  intros Hi. rewrite Z.shiftl_1_l, Z.pow2_bits_eqb by done.
  by destruct (Z.eqb_spec i j); [rewrite bool_decide_eq_true_2|rewrite bool_decide_eq_false_2].
Qed.

Lemma bit_set_testbit bits i : 0 <= i → bit_set bits i = Z.testbit bits i.
Proof.
  intros Hi. unfold bit_set. destruct (Z.testbit bits i) eqn:Hb.
  - apply negb_true_iff, Z.eqb_neq. intros H0.
    assert (Z.testbit (Z.land bits (Z.shiftl 1 i)) i = false) as H
      by (rewrite H0; apply Z.bits_0).
    rewrite Z.land_spec, Hb, testbit_shiftl1, bool_decide_eq_true_2 in H; done.
  - apply negb_false_iff, Z.eqb_eq. apply Z.bits_inj'. intros j Hj.
    rewrite Z.land_spec, testbit_shiftl1, Z.bits_0 by done.
    case_bool_decide; subst; [by rewrite Hb|apply andb_false_r].
Qed.

Lemma testbit_small n b i : 0 <= b < 2 ^ n → 0 <= n <= i → Z.testbit b i = false.
Proof.
  intros Hb Hi. rewrite <-(Z.mod_small b (2 ^ n)) by done.
  apply Z.mod_pow2_bits_high. lia.
Qed.

Lemma land_shiftl_small a b n : 0 <= n → 0 <= b < 2 ^ n → Z.land (Z.shiftl a n) b = 0.
Proof.
  intros Hn Hb. apply Z.bits_inj'. intros i Hi.
  rewrite Z.land_spec, Z.bits_0. destruct (decide (i < n)).
  - by rewrite Z.shiftl_spec_low.
  - by rewrite (testbit_small n b i), andb_false_r by lia.
Qed.

(** Packing a field below a shifted value is addition. *)
Lemma lor_shiftl_add a b n :
  0 <= n → 0 <= b < 2 ^ n → Z.lor (Z.shiftl a n) b = a * 2 ^ n + b.
Proof.
  intros Hn Hb. pose proof (land_shiftl_small a b n Hn Hb) as H0.
  rewrite <-Z.lxor_lor, <-Z.add_nocarry_lxor by done.
  by rewrite Z.shiftl_mul_pow2.
Qed.

Lemma unpack_high a b n : 0 <= n → 0 <= b < 2 ^ n → Z.shiftr (a * 2 ^ n + b) n = a.
Proof.
  intros Hn Hb. rewrite Z.shiftr_div_pow2 by done.
  rewrite Z.div_add_l, Z.div_small by lia. lia.
Qed.
Lemma unpack_low a b n : 0 <= n → 0 <= b < 2 ^ n → Z.land (a * 2 ^ n + b) (Z.ones n) = b.
Proof.
  intros Hn Hb. rewrite Z.land_ones by done.
  rewrite Z.add_comm, Z.mod_add, Z.mod_small; lia.
Qed.

Lemma land_mask_range a n : 0 <= n → 0 <= Z.land a (Z.shiftl 1 n - 1) < 2 ^ n.
Proof.
  intros Hn. rewrite Z.shiftl_1_l.
  replace (2 ^ n - 1) with (Z.ones n) by (rewrite Z.ones_equiv; lia).
  rewrite Z.land_ones by done. apply Z.mod_pos_bound. lia.
Qed.

#[export] Hint Rewrite bit_set_testbit using lia : bprop.
