(* ===== verification/Snowflake.v ===== *)
(** * ids/snowflake.py: 64-bit identifiers

    The generator's state is the object's fields.  The wall clock is the
    sequence [clk] of the values successive [_current_millis] calls return;
    the world is the number of readings made so far.  Nothing is assumed of
    the clock: it may stand still or go back.  [generate] runs under the
    class-wide lock, so calls do not interleave. *)

From S2P Require Import Prelude Bits.

Definition DEFAULT_EPOCH_MS : Z := 1735682400000.

Module Snowflake.

Record SnowflakeGenerator := {
  epoch_ms : Z; worker_id : Z; datacenter_id : Z;
  sequence_bits : Z; worker_bits : Z; datacenter_bits : Z;
  max_sequence : Z; worker_shift : Z; datacenter_shift : Z; timestamp_shift : Z;
  last_timestamp : Z; sequence : Z }.

Inductive ValueError := worker_id_out_of_range | datacenter_id_out_of_range
  | negative_shift_count.

(** [a << n] *)
Definition shl (a n : Z) : result ValueError Z :=
  if n <? 0 then Raise negative_shift_count else Ok (Z.shiftl a n).
(** [x < 0 or x >= (1 << bits)] *)
Definition out_of_range (x bits : Z) : result ValueError bool :=
  if x <? 0 then Ok true else m ← shl 1 bits; Ok (m <=? x).

Definition init (epoch_ms worker_id datacenter_id sequence_bits worker_bits datacenter_bits : Z)
    : result ValueError SnowflakeGenerator :=
  bad_worker ← out_of_range worker_id worker_bits;
  _ ← raise_if bad_worker worker_id_out_of_range;
  bad_datacenter ← out_of_range datacenter_id datacenter_bits;
  _ ← raise_if bad_datacenter datacenter_id_out_of_range;
  sequences ← shl 1 sequence_bits;
  Ok {| epoch_ms := epoch_ms; worker_id := worker_id; datacenter_id := datacenter_id;
        sequence_bits := sequence_bits; worker_bits := worker_bits;
        datacenter_bits := datacenter_bits;
        max_sequence := sequences - 1;
        worker_shift := sequence_bits;
        datacenter_shift := sequence_bits + worker_bits;
        timestamp_shift := sequence_bits + worker_bits + datacenter_bits;
        last_timestamp := -1; sequence := 0 |}.

Definition set_state (g : SnowflakeGenerator) (last seq : Z) : SnowflakeGenerator :=
  {| epoch_ms := epoch_ms g; worker_id := worker_id g; datacenter_id := datacenter_id g;
     sequence_bits := sequence_bits g; worker_bits := worker_bits g;
     datacenter_bits := datacenter_bits g; max_sequence := max_sequence g;
     worker_shift := worker_shift g; datacenter_shift := datacenter_shift g;
     timestamp_shift := timestamp_shift g;
     last_timestamp := last; sequence := seq |}.

Section clock.
Context (clk : nat → Z).

Definition current_millis (w : nat) : Z * nat := (clk w, S w).

Fixpoint wait_next_millis (fuel : nat) (last_timestamp : Z) (w : nat) : option (Z * nat) :=
  match fuel with
  | O => None
  | S fuel =>
      let '(timestamp, w) := current_millis w in
      if timestamp <=? last_timestamp
      then wait_next_millis fuel last_timestamp w else Some (timestamp, w)
  end.

(** [None] is fuel that ran out: the busy wait has not ended yet. *)
Definition generate (fuel : nat) (g : SnowflakeGenerator) (w : nat)
    : option (Z * SnowflakeGenerator * nat) :=
  let '(timestamp, w) := current_millis w in
  '(timestamp, w) ←
    (if timestamp <? last_timestamp g
     then wait_next_millis fuel (last_timestamp g) w else Some (timestamp, w));
  '(seq, timestamp, w) ←
    (if timestamp =? last_timestamp g then
       let seq := Z.land (sequence g + 1) (max_sequence g) in
       if seq =? 0 then
         '(timestamp, w) ← wait_next_millis fuel (last_timestamp g) w;
         Some (seq, timestamp, w)
       else Some (seq, timestamp, w)
     else Some (0, timestamp, w));
  let g := set_state g timestamp seq in
  Some (Z.lor (Z.lor (Z.lor
          (Z.shiftl (timestamp - epoch_ms g) (timestamp_shift g))
          (Z.shiftl (datacenter_id g) (datacenter_shift g)))
          (Z.shiftl (worker_id g) (worker_shift g)))
          (sequence g), g, w).

(** [n] successive calls. *)
Fixpoint generate_many (fuel n : nat) (g : SnowflakeGenerator) (w : nat)
    : option (list Z * SnowflakeGenerator * nat) :=
  match n with
  | O => Some ([], g, w)
  | S n =>
      '(i, g, w) ← generate fuel g w;
      '(ids, g, w) ← generate_many fuel n g w;
      Some (i :: ids, g, w)
  end.
End clock.

(** The module-level default generator. *)
Record Registry := { instance : option SnowflakeGenerator }.
Definition configure_default_generator (worker_id datacenter_id : Z) (r : Registry)
    : result ValueError Registry :=
  g ← init DEFAULT_EPOCH_MS worker_id datacenter_id 12 5 5; Ok {| instance := Some g |}.
Definition reset_default_generator (r : Registry) : Registry := {| instance := None |}.
Definition get_default (r : Registry) : result ValueError (SnowflakeGenerator * Registry) :=
  match instance r with
  | Some g => Ok (g, r)
  | None => g ← init DEFAULT_EPOCH_MS 0 0 12 5 5; Ok (g, {| instance := Some g |})
  end.
(** [_get_default().generate()]: the registry's object is the one mutated. *)
Definition generate_id (clk : nat → Z) (fuel : nat) (r : Registry) (w : nat)
    : result ValueError (option (Z * Registry * nat)) :=
  '(g, _) ← get_default r;
  Ok ('(i, g, w) ← generate clk fuel g w; Some (i, {| instance := Some g |}, w)).

(** ** Invariant and the value of an identifier *)

Record ok (g : SnowflakeGenerator) : Prop := {
  ok_bits : 0 <= sequence_bits g ∧ 0 <= worker_bits g ∧ 0 <= datacenter_bits g;
  ok_worker : 0 <= worker_id g < 2 ^ worker_bits g;
  ok_datacenter : 0 <= datacenter_id g < 2 ^ datacenter_bits g;
  ok_mask : max_sequence g = Z.shiftl 1 (sequence_bits g) - 1;
  ok_shifts : worker_shift g = sequence_bits g ∧
    datacenter_shift g = sequence_bits g + worker_bits g ∧
    timestamp_shift g = sequence_bits g + worker_bits g + datacenter_bits g;
  ok_sequence : 0 <= sequence g < 2 ^ sequence_bits g }.

Lemma shl_Ok a n z : shl a n = Ok z ↔ 0 <= n ∧ z = Z.shiftl a n.
Proof.
  unfold shl. destruct (Z.ltb_spec n 0); split; try (intros []; lia || done).
  - done.
  - intros [= <-]. done.
  - intros [_ ->]. done.
Qed.

Lemma out_of_range_false x bits :
  out_of_range x bits = Ok false ↔ 0 <= x ∧ 0 <= bits ∧ x < 2 ^ bits.
Proof.
  unfold out_of_range. destruct (Z.ltb_spec x 0); [split; [done|lia]|].
  rewrite result_bind_Ok. setoid_rewrite shl_Ok. split.
  - intros (m & [Hb ->] & [= Hm]). rewrite Z.shiftl_1_l in Hm.
    apply Z.leb_gt in Hm. lia.
  - intros (? & ? & ?). eexists; split; [split; [lia|done]|].
    rewrite Z.shiftl_1_l. f_equal. apply Z.leb_gt. lia.
Qed.

Lemma init_ok e wid dc sb wb db g : init e wid dc sb wb db = Ok g → ok g.
Proof.
  unfold init. rewrite result_bind_Ok. intros ([] & Hw & H); [done|].
  cbn in H. apply result_bind_Ok in H as ([] & Hd & H); [done|]. cbn in H.
  apply result_bind_Ok in H as (m & [Hs ->]%shl_Ok & [= <-]).
  apply out_of_range_false in Hw, Hd. constructor; cbn; try lia.
Qed.

Lemma set_state_ok g t s : ok g → 0 <= s < 2 ^ sequence_bits g → ok (set_state g t s).
Proof. intros [] Hs. by constructor. Qed.

(** An identifier as a number. *)
Definition id_value (g : SnowflakeGenerator) : Z :=
  (((last_timestamp g - epoch_ms g) * 2 ^ datacenter_bits g + datacenter_id g)
     * 2 ^ worker_bits g + worker_id g) * 2 ^ sequence_bits g + sequence g.

Lemma pack_value g :
  ok g →
  Z.lor (Z.lor (Z.lor
    (Z.shiftl (last_timestamp g - epoch_ms g) (timestamp_shift g))
    (Z.shiftl (datacenter_id g) (datacenter_shift g)))
    (Z.shiftl (worker_id g) (worker_shift g)))
    (sequence g) = id_value g.
Proof.
  intros [(Hsb & Hwb & Hdb) Hw Hd _ (Hws & Hds & Hts) Hseq]. rewrite Hws, Hds, Hts.
  set (t := last_timestamp g - epoch_ms g).
  assert (Z.shiftl t (sequence_bits g + worker_bits g + datacenter_bits g) =
          Z.shiftl (Z.shiftl (Z.shiftl t (datacenter_bits g)) (worker_bits g)) (sequence_bits g))
    as -> by (rewrite !Z.shiftl_shiftl by lia; f_equal; lia).
  assert (Z.shiftl (datacenter_id g) (sequence_bits g + worker_bits g) =
          Z.shiftl (Z.shiftl (datacenter_id g) (worker_bits g)) (sequence_bits g))
    as -> by (rewrite Z.shiftl_shiftl by lia; f_equal; lia).
  rewrite <-!Z.shiftl_lor, !lor_shiftl_add by lia. done.
Qed.

Lemma wait_next_millis_gt clk fuel last w t w' :
  wait_next_millis clk fuel last w = Some (t, w') → last < t.
Proof.
  revert w. induction fuel as [|fuel IH]; cbn; intros w; [done|].
  destruct (Z.leb_spec (clk w) last); [apply IH|]. by intros [= <- <-].
Qed.

Lemma wait_next_millis_ends clk last w :
  (∃ n, (w <= n)%nat ∧ last < clk n) →
  ∃ fuel t w', wait_next_millis clk fuel last w = Some (t, w').
Proof.
  intros (n & Hn & Hc). remember (n - w)%nat as k eqn:Hk.
  revert w Hn Hk. induction k as [|k IH]; intros w Hn Hk.
  - exists 1%nat. cbn. replace w with n by lia.
    destruct (Z.leb_spec (clk n) last); [lia|eauto].
  - destruct (IH (S w)) as (fuel & t & w' & Hf); [lia..|].
    exists (S fuel). cbn. destruct (Z.leb_spec (clk w) last); eauto.
Qed.

(** What one call does: it returns the packed value of the new state, and the
    state moves forward in the order (timestamp, sequence). *)
Lemma generate_step clk fuel g w i g' w' :
  ok g → generate clk fuel g w = Some (i, g', w') →
  ok g' ∧ i = id_value g' ∧
  (∃ t s, g' = set_state g t s) ∧
  (last_timestamp g < last_timestamp g' ∨
   last_timestamp g = last_timestamp g' ∧ sequence g < sequence g').
Proof.
  intros Hg. unfold generate. cbn.
  assert (∀ t s, 0 <= s < 2 ^ sequence_bits g →
    (last_timestamp g < t ∨ last_timestamp g = t ∧ sequence g < s) →
    let g1 := set_state g t s in
    ok g1 ∧ Z.lor (Z.lor (Z.lor
      (Z.shiftl (t - epoch_ms g) (timestamp_shift g))
      (Z.shiftl (datacenter_id g) (datacenter_shift g)))
      (Z.shiftl (worker_id g) (worker_shift g))) s = id_value g1 ∧
    (∃ t s, g1 = set_state g t s) ∧
    (last_timestamp g < last_timestamp g1 ∨
     last_timestamp g = last_timestamp g1 ∧ sequence g < sequence g1)) as Hfin.
  { intros t s Hs Hlt g1. assert (ok g1) by by apply set_state_ok.
    split; [done|]. split; [by apply (pack_value g1)|]. eauto. }
  assert (0 <= 0 < 2 ^ sequence_bits g) as H0 by (destruct Hg as [(? & _)]; lia).
  destruct (Z.ltb_spec (clk w) (last_timestamp g)) as [Hlt|Hge].
  - destruct (wait_next_millis _ _ _ _) as [[t w1]|] eqn:Hwait; cbn; [|done].
    apply wait_next_millis_gt in Hwait. destruct (Z.eqb_spec t (last_timestamp g)); [lia|].
    cbn. intros [= <- <- <-]. apply Hfin; auto.
  - cbn. destruct (Z.eqb_spec (clk w) (last_timestamp g)) as [Heq|Hne].
    + pose proof Hg as [(? & _) _ _ Hmask _ Hseq].
      pose proof (land_mask_range (sequence g + 1) (sequence_bits g)) as Hr.
      rewrite Hmask. destruct (Z.eqb_spec (Z.land (sequence g + 1)
        (Z.shiftl 1 (sequence_bits g) - 1)) 0) as [Hz|Hz].
      * rewrite Hz. destruct (wait_next_millis _ _ _ _) as [[t w1]|] eqn:Hwait; cbn; [|done].
        apply wait_next_millis_gt in Hwait. intros [= <- <- <-]. apply Hfin; auto.
      * cbn. intros [= <- <- <-]. apply Hfin; [auto|]. right. split; [done|].
        revert Hz. rewrite Z.shiftl_1_l.
        replace (2 ^ sequence_bits g - 1) with (Z.ones (sequence_bits g))
          by (rewrite Z.ones_equiv; lia).
        rewrite Z.land_ones by done. intros Hz.
        destruct (decide (sequence g + 1 < 2 ^ sequence_bits g)).
        -- rewrite Z.mod_small; lia.
        -- replace (sequence g + 1) with (2 ^ sequence_bits g) in Hz by lia.
           rewrite Z.mod_same in Hz; lia.
    + cbn. intros [= <- <- <-]. apply Hfin; [auto|]. lia.
Qed.

Lemma id_value_lt g t s t' s' :
  ok (set_state g t s) → ok (set_state g t' s') → t < t' ∨ t = t' ∧ s < s' →
  id_value (set_state g t s) < id_value (set_state g t' s').
Proof.
  intros [(? & ? & ?) Hw Hd _ _ Hs] [_ _ _ _ _ Hs'] Hlt.
  cbn in *. unfold id_value; cbn.
  assert (0 < 2 ^ sequence_bits g) by lia.
  assert (0 < 2 ^ worker_bits g) by lia.
  assert (0 < 2 ^ datacenter_bits g) by lia.
  destruct Hlt as [Hlt|[-> Hlt]]; [|lia].
  assert ((t - epoch_ms g) * 2 ^ datacenter_bits g + datacenter_id g <
          (t' - epoch_ms g) * 2 ^ datacenter_bits g + datacenter_id g) as Ha by nia.
  assert (((t - epoch_ms g) * 2 ^ datacenter_bits g + datacenter_id g) * 2 ^ worker_bits g
            + worker_id g <
          ((t' - epoch_ms g) * 2 ^ datacenter_bits g + datacenter_id g) * 2 ^ worker_bits g
            + worker_id g) as Hb by nia.
  nia.
Qed.

Lemma set_state_self g : set_state g (last_timestamp g) (sequence g) = g.
Proof. by destruct g. Qed.

Lemma generate_step_lt clk fuel g w i g' w' :
  ok g → generate clk fuel g w = Some (i, g', w') →
  ok g' ∧ i = id_value g' ∧ id_value g < i ∧ (∃ t s, g' = set_state g t s).
Proof.
  intros Hg Hgen. apply generate_step in Hgen as (Hg' & -> & (t & s & ->) & Hlt); [|done].
  split; [done|]. split; [done|]. split; [|eauto].
  rewrite <-(set_state_self g) at 1. apply id_value_lt; [by rewrite set_state_self|done|done].
Qed.

#[local] Arguments generate : simpl never.

Lemma generate_many_spec clk fuel n g w ids g' w' :
  ok g → generate_many clk fuel n g w = Some (ids, g', w') →
  StronglySorted Z.lt ids ∧ Forall (Z.lt (id_value g)) ids ∧
  Forall (λ i, ∃ t s, i = id_value (set_state g t s) ∧ ok (set_state g t s)) ids.
Proof.
  revert g w ids. induction n as [|n IH]; cbn; intros g w ids Hg.
  { intros [= <- <- <-]. split_and!; constructor. }
  destruct (generate clk fuel g w) as [[[i g1] w1]|] eqn:Hgen; cbn; [|done].
  apply generate_step_lt in Hgen as (Hg1 & -> & Hlt & t & s & ->); [|done].
  destruct (generate_many _ _ _ _ _) as [[[ids1 g2] w2]|] eqn:Hmany; cbn; [|done].
  intros [= <- <- <-]. apply IH in Hmany as (Hs & Hgt & Hf); [|done].
  split_and!; constructor; auto.
  - eapply Forall_impl; [exact Hgt|]. cbn. lia.
  - eauto.
Qed.

(** The fields of an identifier, read back by shifts and masks. *)
Definition decode (g : SnowflakeGenerator) (i : Z) : Z * Z * Z * Z :=
  (Z.shiftr i (timestamp_shift g) + epoch_ms g,
   Z.land (Z.shiftr i (datacenter_shift g)) (Z.ones (datacenter_bits g)),
   Z.land (Z.shiftr i (worker_shift g)) (Z.ones (worker_bits g)),
   Z.land i (max_sequence g)).

Lemma decode_id_value g :
  ok g → decode g (id_value g) = (last_timestamp g, datacenter_id g, worker_id g, sequence g).
Proof.
  intros [(? & ? & ?) Hw Hd Hmask (Hws & Hds & Hts) Hs].
  unfold decode, id_value. rewrite Hws, Hds, Hts, Hmask, Z.shiftl_1_l.
  replace (2 ^ sequence_bits g - 1) with (Z.ones (sequence_bits g)) by (rewrite Z.ones_equiv; lia).
  rewrite <-!Z.shiftr_shiftr by lia. rewrite !unpack_high, !unpack_low by lia.
  repeat f_equal. lia.
Qed.

(** C19: however the clock behaves (standing still, going back), the
    identifiers one generator returns in a row are strictly increasing, so
    none is issued twice. *)
Theorem generate_increasing clk e wid dc sb wb db g fuel n w ids g' w' :
  init e wid dc sb wb db = Ok g →
  generate_many clk fuel n g w = Some (ids, g', w') →
  StronglySorted Z.lt ids.
Proof. intros Hg%init_ok Hm. by apply (generate_many_spec _ _ _ _ _ _ _ _ Hg) in Hm as [? _]. Qed.

(** Two generators of the same layout whose worker or datacenter differs
    never issue the same identifier, whatever their clocks and epochs are. *)
Lemma generators_disjoint clk1 clk2 e1 e2 wid1 wid2 dc1 dc2 sb wb db g1 g2
    fuel1 fuel2 n1 n2 w1 w2 ids1 ids2 g1' g2' w1' w2' :
  init e1 wid1 dc1 sb wb db = Ok g1 → init e2 wid2 dc2 sb wb db = Ok g2 →
  (wid1, dc1) ≠ (wid2, dc2) →
  generate_many clk1 fuel1 n1 g1 w1 = Some (ids1, g1', w1') →
  generate_many clk2 fuel2 n2 g2 w2 = Some (ids2, g2', w2') →
  ∀ i, i ∈ ids1 → i ∉ ids2.
Proof.
  intros Hi1 Hi2 Hne Hm1 Hm2 i Hin1 Hin2.
  apply generate_many_spec in Hm1 as (_ & _ & Hf1); [|by eapply init_ok].
  apply generate_many_spec in Hm2 as (_ & _ & Hf2); [|by eapply init_ok].
  rewrite Forall_forall in Hf1, Hf2.
  destruct (Hf1 i Hin1) as (t1 & s1 & -> & Hk1), (Hf2 _ Hin2) as (t2 & s2 & Heq & Hk2).
  apply decode_id_value in Hk1, Hk2.
  assert (∀ e wid dc g, init e wid dc sb wb db = Ok g →
    worker_bits g = wb ∧ datacenter_bits g = db ∧ worker_shift g = sb ∧
    datacenter_shift g = sb + wb ∧ worker_id g = wid ∧ datacenter_id g = dc) as Hfields.
  { clear. intros e wid dc g. unfold init. rewrite result_bind_Ok.
    intros ([] & _ & H); [done|]. cbn in H.
    apply result_bind_Ok in H as ([] & _ & H); [done|]. cbn in H.
    by apply result_bind_Ok in H as (? & _ & [= <-]). }
  apply Hfields in Hi1 as (? & ? & ? & ? & ? & ?), Hi2 as (? & ? & ? & ? & ? & ?).
  rewrite Heq in Hk1. unfold decode in Hk1, Hk2. cbn in Hk1, Hk2. apply Hne. congruence.
Qed.

(** An identifier decodes: shifting and masking it gives back the
    millisecond, the datacenter, the worker and the sequence number of the
    generator's new state; with the default 12/5/5 layout and a clock within
    41 bits of the epoch it is a non-negative 63-bit integer. *)
Lemma generate_decodes clk fuel e wid dc sb wb db g w i g' w' :
  init e wid dc sb wb db = Ok g → generate clk fuel g w = Some (i, g', w') →
  decode g i = (last_timestamp g', dc, wid, sequence g') ∧
  (sb = 12 → wb = 5 → db = 5 → 0 <= last_timestamp g' - e < 2 ^ 41 → 0 <= i < 2 ^ 63).
Proof.
  intros Hi Hgen. pose proof (init_ok _ _ _ _ _ _ _ Hi) as Hg.
  apply generate_step_lt in Hgen as (Hg' & -> & _ & t & s & ->); [|done].
  assert (epoch_ms g = e ∧ worker_id g = wid ∧ datacenter_id g = dc ∧ sequence_bits g = sb ∧
    worker_bits g = wb ∧ datacenter_bits g = db) as (<- & <- & <- & <- & <- & <-).
  { clear -Hi. revert Hi. unfold init. rewrite result_bind_Ok.
    intros ([] & _ & H); [done|]. cbn in H.
    apply result_bind_Ok in H as ([] & _ & H); [done|]. cbn in H.
    by apply result_bind_Ok in H as (? & _ & [= <-]). }
  split; [by apply (decode_id_value (set_state g t s))|].
  destruct Hg' as [_ Hw Hd _ _ Hs]. cbn in *. unfold id_value. cbn.
  intros Hsb Hwb Hdb Ht. rewrite Hsb, Hwb, Hdb in *. lia.
Qed.

(** A call returns: if the clock keeps passing the last timestamp, some
    number of readings is enough for [generate] to produce an identifier. *)
Lemma generate_returns clk g w :
  (∀ k, ∃ n, (k <= n)%nat ∧ last_timestamp g < clk n) →
  ∃ fuel i g' w', generate clk fuel g w = Some (i, g', w').
Proof.
  intros Hclk. destruct (wait_next_millis_ends clk (last_timestamp g) (S w)) as
    (fuel & t & w1 & Hwait); [apply Hclk|].
  exists fuel. unfold generate. cbn.
  destruct (Z.ltb_spec (clk w) (last_timestamp g)) as [Hlt|Hge].
  - rewrite Hwait. cbn. apply wait_next_millis_gt in Hwait.
    destruct (Z.eqb_spec t (last_timestamp g)); [lia|]. cbn. eauto.
  - cbn. destruct (Z.eqb_spec (clk w) (last_timestamp g)); [|cbn; eauto].
    case_match; [rewrite Hwait|]; cbn; eauto.
Qed.

(** ** Witnesses: a clock that stands still for three readings per tick *)

Definition demo_clock (n : nat) : Z := DEFAULT_EPOCH_MS + 7 + Z.of_nat n / 3.
Definition demo (wid : Z) : SnowflakeGenerator :=
  {| epoch_ms := DEFAULT_EPOCH_MS; worker_id := wid; datacenter_id := 2;
     sequence_bits := 12; worker_bits := 5; datacenter_bits := 5;
     max_sequence := 4095; worker_shift := 12; datacenter_shift := 17;
     timestamp_shift := 22; last_timestamp := -1; sequence := 0 |}.
Definition demo_after (wid t s : Z) : SnowflakeGenerator := set_state (demo wid) t s.

Lemma generate_increasing_witness :
  StronglySorted Z.lt [29626368; 29626369; 29626370; 33820672].
Proof.
  apply (generate_increasing demo_clock DEFAULT_EPOCH_MS 1 2 12 5 5 (demo 1) 3 4 0 _
    (demo_after 1 (DEFAULT_EPOCH_MS + 8) 0) 4); vm_compute; reflexivity.
Defined.
Lemma generators_disjoint_witness :
  (29626369 : Z) ∉ ([29638656; 29638657] : list Z) ∧
  ∀ i, i ∈ [29626368; 29626369] → i ∉ [29638656; 29638657].
Proof.
  assert (W : ∀ i, i ∈ [29626368; 29626369] → i ∉ [29638656; 29638657]).
  { apply (generators_disjoint demo_clock demo_clock DEFAULT_EPOCH_MS DEFAULT_EPOCH_MS 1 4 2 2 12 5 5
      (demo 1) (demo 4) 3 3 2 2 0 0 _ _ (demo_after 1 (DEFAULT_EPOCH_MS + 7) 1)
      (demo_after 4 (DEFAULT_EPOCH_MS + 7) 1) 2 2); try (vm_compute; reflexivity).
    discriminate. }
  split; [apply W; right; left | exact W].
Defined.
Lemma generate_decodes_witness :
  decode (demo 1) 29626368 = (DEFAULT_EPOCH_MS + 7, 2, 1, 0) ∧
  (12 = 12 → 5 = 5 → 5 = 5 → 0 <= DEFAULT_EPOCH_MS + 7 - DEFAULT_EPOCH_MS < 2 ^ 41 →
   0 <= 29626368 < 2 ^ 63).
Proof.
  apply (generate_decodes demo_clock 3 DEFAULT_EPOCH_MS 1 2 12 5 5 (demo 1) 0 29626368
    (demo_after 1 (DEFAULT_EPOCH_MS + 7) 0) 1); vm_compute; reflexivity.
Defined.
Lemma generate_returns_witness :
  ∃ fuel i g' w', generate demo_clock fuel (demo_after 1 (DEFAULT_EPOCH_MS + 9) 4095) 0
    = Some (i, g', w').
Proof.
  apply generate_returns. intros k. exists (k + 100)%nat. split; [lia|].
  cbn [demo_after set_state last_timestamp]. unfold demo_clock.
  assert (100 / 3 <= Z.of_nat (k + 100) / 3) by (apply Z.div_le_mono; lia).
  change (100 / 3) with 33 in *. lia.
Defined.

End Snowflake.
