(* ===== verification/Rbac.v ===== *)
(** * security/rbac.py and web/actor.py: permission bitsets, on-behalf-of

    A mapping from permission codes to bit numbers is a Python dict
    (PyDict).  [1 << bit] raises on a negative [bit]. *)

From S2P Require Import Prelude PyStr PyDict Bits.

Module Rbac.

Inductive ValueError := negative_shift_count.

(** [1 << int(bit)] *)
Definition bit_mask (bit : Z) : result ValueError Z :=
  if bit <? 0 then Raise negative_shift_count else Ok (Z.shiftl 1 bit).

Fixpoint bits_from_codes_loop (codes : list string) (mapping : list (string * Z)) (bits : Z)
    : result ValueError Z :=
  match codes with
  | [] => Ok bits
  | code :: codes =>
      match dget mapping code with
      | None => bits_from_codes_loop codes mapping bits
      | Some bit => m ← bit_mask bit; bits_from_codes_loop codes mapping (Z.lor bits m)
      end
  end.
Definition bits_from_codes (codes : list string) (mapping : list (string * Z))
    : result ValueError Z := bits_from_codes_loop codes mapping 0.

Fixpoint select_codes (bits : Z) (mapping : list (string * Z))
    : result ValueError (list (Z * string)) :=
  match mapping with
  | [] => Ok []
  | (code, bit) :: mapping =>
      m ← bit_mask bit;
      selected ← select_codes bits mapping;
      Ok (if negb (Z.land bits m =? 0) then (bit, code) :: selected else selected)
  end.
Definition codes_from_bits (bits : Z) (mapping : list (string * Z))
    : result ValueError (list string) :=
  selected ← select_codes bits mapping;
  Ok ((py_sort (λ a b, a.1 <=? b.1) selected).*2).

Definition has_code (bits : Z) (mapping : list (string * Z)) (code : string)
    : result ValueError bool :=
  match dget mapping code with
  | None => Ok false
  | Some bit => m ← bit_mask bit; Ok (negb (Z.land bits m =? 0))
  end.

Fixpoint all_bits_loop (values : list Z) (bits : Z) : result ValueError Z :=
  match values with
  | [] => Ok bits
  | bit :: values => m ← bit_mask bit; all_bits_loop values (Z.lor bits m)
  end.
Definition all_bits (mapping : list (string * Z)) : result ValueError Z :=
  all_bits_loop (dvalues mapping) 0.

(** A permission catalog: a dict whose bits are distinct and not negative. *)
Record catalog (mapping : list (string * Z)) : Prop := {
  catalog_wf : wf mapping;
  catalog_nonneg : ∀ c b, dget mapping c = Some b → 0 <= b;
  catalog_inj : ∀ c c' b, dget mapping c = Some b → dget mapping c' = Some b → c = c' }.

Lemma bit_mask_nonneg b : 0 <= b → bit_mask b = Ok (Z.shiftl 1 b).
Proof. intros. unfold bit_mask. by destruct (Z.ltb_spec b 0); [lia|]. Qed.

Lemma bits_from_codes_loop_spec codes mapping bits0 :
  catalog mapping →
  ∃ bits, bits_from_codes_loop codes mapping bits0 = Ok bits ∧
  ∀ i, Z.testbit bits i = Z.testbit bits0 i || existsb (λ c, bool_decide (dget mapping c = Some i)) codes.
Proof.
  intros Hm. revert bits0. induction codes as [|c codes IH]; cbn; intros bits0.
  { eexists; split; [done|]. intros. by rewrite orb_false_r. }
  destruct (dget mapping c) as [b|] eqn:E.
  - rewrite bit_mask_nonneg by (eapply catalog_nonneg; eauto). cbn.
    destruct (IH (Z.lor bits0 (Z.shiftl 1 b))) as (bits & -> & Hbits).
    eexists; split; [done|]. intros i. rewrite Hbits, Z.lor_spec, <-orb_assoc. f_equal.
    f_equal. rewrite testbit_shiftl1 by (eapply catalog_nonneg; eauto).
    apply bool_decide_ext. naive_solver.
  - destruct (IH bits0) as (bits & -> & Hbits). eexists; split; [done|].
    intros i. by rewrite Hbits.
Qed.

Lemma has_code_spec bits mapping c b :
  catalog mapping → dget mapping c = Some b → has_code bits mapping c = Ok (Z.testbit bits b).
Proof.
  intros Hm Hc. unfold has_code. rewrite Hc.
  assert (0 <= b) by (eapply catalog_nonneg; eauto).
  rewrite bit_mask_nonneg by done. cbn. f_equal. by apply (bit_set_testbit bits b).
Qed.

Lemma select_codes_spec bits mapping :
  (∀ c b, (c, b) ∈ mapping → 0 <= b) →
  ∃ sel, select_codes bits mapping = Ok sel ∧
  ∀ b c, (b, c) ∈ sel ↔ (c, b) ∈ mapping ∧ Z.testbit bits b = true.
Proof.
  induction mapping as [|[c0 b0] mapping IH]; cbn; intros Hnn.
  { eexists; split; [done|]. intros. set_solver. }
  assert (0 <= b0) by (eapply Hnn; left).
  rewrite bit_mask_nonneg by done. cbn.
  destruct IH as (sel & -> & Hsel); [intros; eapply Hnn; by right|]. cbn.
  eexists; split; [done|]. intros b c.
  change (negb (Z.land bits (1 ≪ b0) =? 0)) with (bit_set bits b0).
  rewrite bit_set_testbit by done.
  destruct (Z.testbit bits b0) eqn:E; rewrite ?elem_of_cons, Hsel;
    intuition (simplify_eq; auto; congruence).
Qed.

Lemma codes_from_bits_spec bits mapping :
  catalog mapping →
  ∃ codes, codes_from_bits bits mapping = Ok codes ∧
  (∀ c, c ∈ codes ↔ ∃ b, dget mapping c = Some b ∧ Z.testbit bits b = true) ∧
  ∃ sel : list (Z * string), codes = sel.*2 ∧
    StronglySorted (λ a b, a.1 <=? b.1) sel ∧
    Forall (λ p : Z * string, dget mapping p.2 = Some p.1) sel.
Proof.
  intros Hm. destruct (select_codes_spec bits mapping) as (sel & Hs & Hsel).
  { intros c b Hin. eapply catalog_nonneg, elem_dget; eauto using catalog_wf. }
  unfold codes_from_bits. rewrite Hs. cbn. eexists; split; [done|]. split.
  - intros c. rewrite list_elem_of_fmap. split.
    + intros ([b c'] & -> & Hin). rewrite elem_py_sort in Hin.
      apply Hsel in Hin as [Hin ?]. exists b. split; [|done].
      apply elem_dget; [apply Hm|done].
    + intros (b & Hb & Ht). exists (b, c). split; [done|].
      rewrite elem_py_sort. apply Hsel. split; [by apply dget_elem|done].
  - eexists; split; [done|]. split.
    + apply py_sort_sorted.
      * intros a b. rewrite !Z.leb_le. lia.
      * intros a b c. rewrite !Z.leb_le. lia.
    + apply Forall_forall. intros [b c]. rewrite elem_py_sort, Hsel. intros [? _].
      apply elem_dget; [apply Hm|done].
Qed.

(** Encoding a list of codes and decoding it gives back exactly its known
    codes, in the order of their bits; unknown codes are ignored; and
    [has_code] of the encoding is membership. *)
Lemma codes_roundtrip mapping codes :
  catalog mapping →
  ∃ bits out, bits_from_codes codes mapping = Ok bits ∧ codes_from_bits bits mapping = Ok out ∧
    (∀ c, c ∈ out ↔ c ∈ codes ∧ dmem mapping c = true) ∧
    (∃ sel : list (Z * string), out = sel.*2 ∧ StronglySorted (λ a b, a.1 <=? b.1) sel ∧
      Forall (λ p : Z * string, dget mapping p.2 = Some p.1) sel) ∧
    (∀ c, has_code bits mapping c = Ok (bool_decide (c ∈ codes) && dmem mapping c)).
Proof.
  intros Hm. destruct (bits_from_codes_loop_spec codes mapping 0 Hm) as (bits & Hb & Hbits).
  destruct (codes_from_bits_spec bits mapping Hm) as (out & Ho & Hmem & Hsort).
  assert (∀ c b, dget mapping c = Some b → Z.testbit bits b = true ↔ c ∈ codes) as Htest.
  { intros c b Hc. rewrite Hbits, Z.bits_0. cbn. rewrite existsb_True.
    setoid_rewrite bool_decide_eq_true. split; [|by eauto].
    intros (c' & Hin & Hc'). by rewrite (catalog_inj _ Hm c c' b). }
  exists bits, out. split_and!; [done|done| |done|].
  - intros c. rewrite Hmem, dmem_true, <-dget_Some_key. split.
    + intros (b & Hc & Ht). apply (Htest c b Hc) in Ht. split; [done|by eexists].
    + intros [Hin [b Hc]]. exists b. split; [done|]. by apply (Htest c b Hc).
  - intros c. destruct (dget mapping c) as [b|] eqn:Hc.
    + rewrite (has_code_spec _ _ _ b) by done. f_equal.
      rewrite (proj2 (dmem_true mapping c)), andb_true_r by (apply dget_Some_key; eauto).
      apply eq_true_iff_eq. by rewrite bool_decide_eq_true, (Htest c b Hc).
    + unfold has_code. rewrite Hc. by rewrite (proj2 (dmem_false mapping c)), andb_false_r.
Qed.

Definition demo_catalog : list (string * Z) :=
  [("servers.edit", 3); ("servers.view", 0); ("users.ban", 70)]%string.
Lemma demo_catalog_ok : catalog demo_catalog.
Proof.
  constructor.
  - repeat constructor; set_solver.
  - intros c b. cbn. repeat case_decide; intros ?; simplify_eq; lia.
  - intros c c' b. cbn. repeat case_decide; intros ? ?; simplify_eq; congruence.
Qed.
Lemma codes_roundtrip_witness :
  ∃ bits out, bits_from_codes ["users.ban"; "nope"; "servers.view"]%string demo_catalog = Ok bits ∧
    codes_from_bits bits demo_catalog = Ok out ∧
    (∀ c, c ∈ out ↔ c ∈ ["users.ban"; "nope"; "servers.view"]%string ∧ dmem demo_catalog c = true) ∧
    (∃ sel : list (Z * string), out = sel.*2 ∧ StronglySorted (λ a b, a.1 <=? b.1) sel ∧
      Forall (λ p : Z * string, dget demo_catalog p.2 = Some p.1) sel) ∧
    (∀ c, has_code bits demo_catalog c =
      Ok (bool_decide (c ∈ ["users.ban"; "nope"; "servers.view"]%string) && dmem demo_catalog c)).
Proof. apply codes_roundtrip, demo_catalog_ok. Defined.

(** [all_bits] is the mask of the whole catalog: it decodes to every code. *)
Lemma all_bits_loop_spec (values : list Z) bits0 :
  Forall (λ b, 0 <= b) values →
  ∃ bits, all_bits_loop values bits0 = Ok bits ∧
  ∀ i, Z.testbit bits i = Z.testbit bits0 i || bool_decide (i ∈ values).
Proof.
  intros Hv. revert bits0. induction Hv as [|b values Hb _ IH]; cbn; intros bits0.
  { eexists; split; [done|]. intros. by rewrite orb_false_r. }
  rewrite bit_mask_nonneg by done. cbn.
  destruct (IH (Z.lor bits0 (Z.shiftl 1 b))) as (bits & -> & Hbits).
  eexists; split; [done|]. intros i. rewrite Hbits, Z.lor_spec, testbit_shiftl1, <-orb_assoc by done.
  f_equal. apply eq_true_iff_eq. rewrite orb_true_iff, !bool_decide_eq_true, elem_of_cons.
  naive_solver.
Qed.

Lemma all_bits_decodes mapping :
  catalog mapping →
  ∃ bits out, all_bits mapping = Ok bits ∧ codes_from_bits bits mapping = Ok out ∧
    ∀ c, c ∈ out ↔ c ∈ dkeys mapping.
Proof.
  intros Hm. destruct (all_bits_loop_spec (dvalues mapping) 0) as (bits & Hb & Hbits).
  { apply Forall_forall. unfold dvalues. intros b ([c b'] & -> & Hin)%list_elem_of_fmap.
    eapply catalog_nonneg, elem_dget; eauto using catalog_wf. }
  destruct (codes_from_bits_spec bits mapping Hm) as (out & Ho & Hmem & _).
  exists bits, out. split_and!; [done|done|]. intros c. rewrite Hmem, <-dget_Some_key. split.
  - intros (b & Hc & _). by eexists.
  - intros [b Hc]. exists b. split; [done|]. rewrite Hbits, Z.bits_0. cbn.
    apply bool_decide_eq_true. unfold dvalues.
    by apply dget_elem, (list_elem_of_fmap_2 snd) in Hc.
Qed.

End Rbac.

Module Actor.
Import Rbac.

Definition NATIVE_SOURCE : string := "leavepulse".

Record ActorRef := { source : string; subject : string }.
Definition is_native (r : ActorRef) : bool := bool_decide (source r = NATIVE_SOURCE).
Record ActorContext := { bot_user_id : Z; ref : ActorRef; on_behalf_user_id : Z }.

Inductive InvalidInputError := malformed_on_behalf_of.

Definition parse_on_behalf_of (raw : option string) : result InvalidInputError (option ActorRef) :=
  let value := strip (default EmptyString raw) in
  if is_empty value then Ok None else
  let '(source, separator, subject) := partition_char ":" value in
  let source := lower (strip source) in
  let subject := strip subject in
  if negb separator || is_empty source || is_empty subject
  then Raise malformed_on_behalf_of
  else Ok (Some {| source := source; subject := subject |}).

Definition intersect_scopes (bot_scopes human_scopes : list string) : list string :=
  List.filter (λ scope, bool_decide (scope ∈ human_scopes)) bot_scopes.
Definition intersect_perms_bits (bot_bits human_bits : Z) : Z := Z.land bot_bits human_bits.

(** The context variable: [set] returns the token that restores what was
    bound before. *)
Definition set_current_actor (actor cur : option ActorContext)
  : option ActorContext (* token *) * option ActorContext := (cur, actor).
Definition reset_current_actor (token cur : option ActorContext) : option ActorContext := token.

(** Acting on behalf of a human never escalates: a code is held by the
    intersection exactly when both hold it, and the effective scopes are those
    of the bot's list, in its order, that the human has too. *)
Lemma intersection_narrows mapping bot human c :
  catalog mapping →
  (∃ b h, has_code bot mapping c = Ok b ∧ has_code human mapping c = Ok h ∧
    has_code (intersect_perms_bits bot human) mapping c = Ok (b && h)) ∧
  ∀ bs hs, intersect_scopes bs hs `sublist_of` bs ∧
    ∀ s, s ∈ intersect_scopes bs hs ↔ s ∈ bs ∧ s ∈ hs.
Proof.
  intros Hm. split.
  - destruct (dget mapping c) as [b|] eqn:Hc.
    + rewrite !(has_code_spec _ _ _ b) by done. unfold intersect_perms_bits.
      rewrite Z.land_spec. eauto.
    + unfold has_code. rewrite Hc. by exists false, false.
  - intros bs hs. unfold intersect_scopes. split.
    + induction bs as [|s bs IH]; cbn; [done|].
      case_bool_decide; [by apply sublist_skip|by apply sublist_cons].
    + intros s. induction bs as [|s' bs IH]; cbn; [set_solver|].
      case_bool_decide; rewrite ?elem_of_cons, IH; naive_solver.
Qed.

Lemma intersection_narrows_witness :
  (∃ b h, has_code 9 demo_catalog "servers.edit" = Ok b ∧ has_code 1 demo_catalog "servers.edit" = Ok h ∧
    has_code (intersect_perms_bits 9 1) demo_catalog "servers.edit" = Ok (b && h)) ∧
  ∀ bs hs, intersect_scopes bs hs `sublist_of` bs ∧
    ∀ s, s ∈ intersect_scopes bs hs ↔ s ∈ bs ∧ s ∈ hs.
Proof. apply intersection_narrows, demo_catalog_ok. Defined.

Lemma partition_char_absent c s :
  sall (λ d, negb (bool_decide (d = c))) s = true → partition_char c s = (s, false, EmptyString).
Proof.
  induction s as [|d s IH]; cbn; [done|]. rewrite andb_true_iff, negb_true_iff.
  intros [Hd Hs]. apply bool_decide_eq_false in Hd. rewrite decide_False by done.
  by rewrite IH.
Qed.
Lemma partition_char_app c s t :
  sall (λ d, negb (bool_decide (d = c))) s = true →
  partition_char c (s +:+ String c t) = (s, true, t).
Proof.
  induction s as [|d s IH]; cbn; [by rewrite decide_True|].
  rewrite andb_true_iff, negb_true_iff. intros [Hd Hs].
  apply bool_decide_eq_false in Hd. rewrite decide_False by done. by rewrite IH.
Qed.

Definition plain (s : string) : Prop :=
  s ≠ EmptyString ∧ sall (λ c, negb (is_space c)) s = true.
(** [f"{source}:{subject}"] *)
Definition header_of (r : ActorRef) : string := source r +:+ ":" +:+ subject r.

Lemma plain_strip s : plain s → strip s = s.
Proof. intros [_ H]. by apply strip_sall. Qed.

(** A header written as ["source:subject"] parses back to its parts,
    whatever case the source is written in and with colons allowed in the
    subject; a value without a separator is refused and a blank or absent one
    names no actor. *)
Lemma on_behalf_of_roundtrip r :
  plain (source r) → plain (subject r) →
  sall (λ d, negb (bool_decide (d = ":"%char))) (source r) = true →
  parse_on_behalf_of (Some (header_of r)) =
    Ok (Some {| source := lower (source r); subject := subject r |}) ∧
  parse_on_behalf_of (Some (source r)) = Raise malformed_on_behalf_of ∧
  parse_on_behalf_of None = Ok None ∧
  ∀ blank, sall is_space blank = true → parse_on_behalf_of (Some blank) = Ok None.
Proof.
  intros Hs Ht Hc. destruct r as [s t]. cbn in *.
  assert (plain (s +:+ ":" +:+ t)) as Hst.
  { destruct Hs, Ht. split; [by destruct s|]. rewrite !sall_append. cbn.
    by rewrite H0, H2. }
  unfold parse_on_behalf_of, header_of; cbn.
  split_and!.
  - rewrite plain_strip by done.
    destruct (is_empty (s +:+ ":" +:+ t)) eqn:E; [by apply is_empty_true in E; destruct Hst|].
    change (":" +:+ t) with (String ":" t). rewrite partition_char_app by done.
    rewrite !plain_strip by done. cbn.
    destruct Hs as [Hs _], Ht as [Ht _]. destruct s; [done|]. by destruct t.
  - rewrite plain_strip by done. destruct Hs as [Hs _]. destruct s; [done|].
    cbn [is_empty]. by rewrite partition_char_absent.
  - done.
  - intros blank Hb. unfold strip. by rewrite strip_sall_all.
Qed.

Lemma on_behalf_of_roundtrip_witness :
  let r := {| source := "Discord"; subject := "1234:5" |} in
  parse_on_behalf_of (Some (header_of r)) =
    Ok (Some {| source := lower (source r); subject := subject r |}) ∧
  parse_on_behalf_of (Some (source r)) = Raise malformed_on_behalf_of ∧
  parse_on_behalf_of None = Ok None ∧
  ∀ blank, sall is_space blank = true → parse_on_behalf_of (Some blank) = Ok None.
Proof. intros r. apply (on_behalf_of_roundtrip r); [split; done|split; done|done]. Defined.

End Actor.
