(* ===== verification/PermsResolver.v ===== *)
(** * security/platform_perms_resolver.py: live permission bits

    One [Resolver] is the object's fields; [tasks] are the fetches whose owner
    (the [_fetch_and_cache] call that created the task) has not resumed yet.
    The event loop runs a coroutine without interruption between two [await]s
    that suspend it, so the atomic steps are: [get] up to its first suspension
    ([get_start]: the lock's body never suspends, so taking it never does),
    the end of a fetch task ([fetch_complete]), the owner's continuation
    ([owner_resume]), and the synchronous invalidations.  Any interleaving of
    these is possible ([step]). *)

From S2P Require Import Prelude PyStr PyDict Bits.

Module PermsResolver.

Abbreviation SubjectKey := (Z * option Z)%type.

Record CacheEntry := {
  bits : Z; version : Z; roles : list string; max_role_weight : Z; fetched_at : Q }.
(** What the stub answers; an attribute it lacks, or a null, is the default. *)
Record PermsResponse := {
  r_bits : option Z; r_version : option Z; r_roles : option (list string);
  r_max_role_weight : option Z }.
Record PlatformPerms := {
  p_user_id : Z; p_bits : Z; p_version : Z; p_roles : list string; p_max_role_weight : Z }.
Record ResolverMetrics := {
  cache_hits : Z; cache_misses : Z; invalidations_received : Z; grpc_errors : Z }.

(** Why a [get] fails: the stub raised, the awaiting coroutine was cancelled,
    or [min()] of an empty cache (a resolver built with [max_entries <= 0]). *)
Inductive FetchError := stub_error | cancelled | min_of_empty.

Record Task := {
  t_key : SubjectKey;   (** [key] of the owner *)
  t_epoch : Z;          (** [epoch], its local variable *)
  t_result : option (result FetchError CacheEntry) }.

Record Resolver := {
  ttl : Q; max_entries : Z; user_subject_prefix : string; role_subject_prefix : string;
  cache : list (SubjectKey * CacheEntry);
  inflight : list (SubjectKey * nat);
  epochs : list (Z * Z);
  running : list (Z * Z);
  metrics : ResolverMetrics;
  tasks : gmap nat Task;
  next_task : nat }.

Definition new_metrics : ResolverMetrics :=
  {| cache_hits := 0; cache_misses := 0; invalidations_received := 0; grpc_errors := 0 |}.
Definition init (ttl_seconds : Q) (max_entries : Z)
    (invalidation_subject_prefix role_invalidation_subject_prefix : string) : Resolver :=
  {| ttl := ttl_seconds; max_entries := max_entries;
     user_subject_prefix := rstrip_chars "." invalidation_subject_prefix;
     role_subject_prefix := rstrip_chars "." role_invalidation_subject_prefix;
     cache := []; inflight := []; epochs := []; running := [];
     metrics := new_metrics; tasks := ∅; next_task := 0 |}.
Definition user_subject_pattern (r : Resolver) : string := user_subject_prefix r +:+ ".>".
Definition role_subject_pattern (r : Resolver) : string := role_subject_prefix r +:+ ".>".

Definition set_state (r : Resolver) cache inflight epochs running metrics tasks next : Resolver :=
  {| ttl := ttl r; max_entries := max_entries r; user_subject_prefix := user_subject_prefix r;
     role_subject_prefix := role_subject_prefix r; cache := cache; inflight := inflight;
     epochs := epochs; running := running; metrics := metrics; tasks := tasks;
     next_task := next |}.
Definition set_metrics (r : Resolver) (m : ResolverMetrics) : Resolver :=
  set_state r (cache r) (inflight r) (epochs r) (running r) m (tasks r) (next_task r).
Definition count_hit (m : ResolverMetrics) : ResolverMetrics :=
  {| cache_hits := cache_hits m + 1; cache_misses := cache_misses m;
     invalidations_received := invalidations_received m; grpc_errors := grpc_errors m |}.
Definition count_miss (m : ResolverMetrics) : ResolverMetrics :=
  {| cache_hits := cache_hits m; cache_misses := cache_misses m + 1;
     invalidations_received := invalidations_received m; grpc_errors := grpc_errors m |}.
Definition count_invalidation (m : ResolverMetrics) : ResolverMetrics :=
  {| cache_hits := cache_hits m; cache_misses := cache_misses m;
     invalidations_received := invalidations_received m + 1; grpc_errors := grpc_errors m |}.
Definition count_grpc_error (m : ResolverMetrics) : ResolverMetrics :=
  {| cache_hits := cache_hits m; cache_misses := cache_misses m;
     invalidations_received := invalidations_received m; grpc_errors := grpc_errors m + 1 |}.

Definition to_perms (uid : Z) (e : CacheEntry) : PlatformPerms :=
  {| p_user_id := uid; p_bits := bits e; p_version := version e; p_roles := roles e;
     p_max_role_weight := max_role_weight e |}.

Definition epoch_of (r : Resolver) (uid : Z) : Z := default 0 (dget (epochs r) uid).
Definition running_of (r : Resolver) (uid : Z) : Z := default 0 (dget (running r) uid).

(** [_fetch_and_cache] up to [await]: join the fetch in flight or start one. *)
Definition fetch_and_cache_start (key : SubjectKey) (r : Resolver) : nat * Resolver :=
  match dget (inflight r) key with
  | Some task => (task, r)
  | None =>
      let task := next_task r in
      let uid := key.1 in
      (task,
       set_state r (cache r) (dset (inflight r) key task) (epochs r)
         (dset (running r) uid (running_of r uid + 1)) (metrics r)
         (<[task := {| t_key := key; t_epoch := epoch_of r uid; t_result := None |}]> (tasks r))
         (S task))
  end.

Inductive GetStart := Hit (p : PlatformPerms) | Await (task : nat).

(** [get] up to its answer or its first suspension; [now] is [monotonic()]. *)
Definition get_start (user_id : Z) (tenant_id : option Z) (now : Q) (r : Resolver)
    : GetStart * Resolver :=
  let key := (user_id, tenant_id) in
  let miss := let r := set_metrics r (count_miss (metrics r)) in
              let '(task, r) := fetch_and_cache_start key r in (Await task, r) in
  match dget (cache r) key with
  | Some entry =>
      if Qltb (now - fetched_at entry)%Q (ttl r)
      then (Hit (to_perms user_id entry), set_metrics r (count_hit (metrics r)))
      else miss
  | None => miss
  end.

(** [bool(bits & (1 << bit))] of a resolved snapshot; an unknown code is never held. *)
Definition has_code (snapshot : PlatformPerms) (code : string) (bit_mapping : list (string * Z)) : bool :=
  match dget bit_mapping code with
  | None => false
  | Some bit => bit_set (p_bits snapshot) bit
  end.

(** [_fetch] ends: the stub answered [response], or raised ([None]). *)
Definition entry_of (response : PermsResponse) (now : Q) : CacheEntry :=
  {| bits := default 0 (r_bits response); version := default 0 (r_version response);
     roles := default [] (r_roles response);
     max_role_weight := default 0 (r_max_role_weight response); fetched_at := now |}.
Definition fetch_complete (task : nat) (answer : option PermsResponse) (now : Q) (r : Resolver)
    : Resolver :=
  match tasks r !! task with
  | Some t =>
      let '(res, m) := match answer with
                       | Some response => (Ok (entry_of response now), metrics r)
                       | None => (Raise stub_error, count_grpc_error (metrics r))
                       end in
      set_state r (cache r) (inflight r) (epochs r) (running r) m
        (<[task := {| t_key := t_key t; t_epoch := t_epoch t; t_result := Some res |}]> (tasks r))
        (next_task r)
  | None => r
  end.

(** [min(cache, key=fetched_at)]: the first of the least. *)
Fixpoint oldest (c : list (SubjectKey * CacheEntry)) : option (SubjectKey * Q) :=
  match c with
  | [] => None
  | (k, e) :: c =>
      match oldest c with
      | None => Some (k, fetched_at e)
      | Some (k', q) => if Qle_bool (fetched_at e) q then Some (k, fetched_at e) else Some (k', q)
      end
  end.
Definition store (key : SubjectKey) (entry : CacheEntry) (max_entries : Z)
    (c : list (SubjectKey * CacheEntry)) : result FetchError (list (SubjectKey * CacheEntry)) :=
  if negb (dmem c key) && (max_entries <=? Z.of_nat (length c)) then
    match oldest c with
    | None => Raise min_of_empty
    | Some (victim, _) => Ok (dset (ddel c victim) key entry)
    end
  else Ok (dset c key entry).

(** The [finally] of [_fetch_and_cache]. *)
Definition fetch_finally (task : nat) (t : Task) (r : Resolver) : Resolver :=
  let key := t_key t in let uid := key.1 in
  let inflight' := if decide (dget (inflight r) key = Some task)
                   then ddel (inflight r) key else inflight r in
  let remaining := running_of r uid - 1 in
  if negb (remaining =? 0)
  then set_state r (cache r) inflight' (epochs r) (dset (running r) uid remaining)
         (metrics r) (delete task (tasks r)) (next_task r)
  else set_state r (cache r) inflight' (ddel (epochs r) uid) (ddel (running r) uid)
         (metrics r) (delete task (tasks r)) (next_task r).

(** The owner continues after [await task], which gave [res]. *)
Definition owner_continue (task : nat) (t : Task) (res : result FetchError CacheEntry) (r : Resolver)
    : result FetchError CacheEntry * Resolver :=
  let '(res, r) :=
    match res with
    | Raise e => (Raise e, r)
    | Ok entry =>
        if epoch_of r (t_key t).1 =? t_epoch t then
          match store (t_key t) entry (max_entries r) (cache r) with
          | Ok c => (Ok entry, set_state r c (inflight r) (epochs r) (running r) (metrics r)
                                 (tasks r) (next_task r))
          | Raise e => (Raise e, r)
          end
        else (Ok entry, r)
    end in
  (res, fetch_finally task t r).
Definition owner_resume (task : nat) (r : Resolver)
    : option (result FetchError CacheEntry * Resolver) :=
  t ← tasks r !! task; res ← t_result t; Some (owner_continue task t res r).
(** The owner is cancelled while it waits. *)
Definition owner_cancel (task : nat) (r : Resolver)
    : option (result FetchError CacheEntry * Resolver) :=
  t ← tasks r !! task; Some (owner_continue task t (Raise cancelled) r).

Definition bump_epochs (r : Resolver) (doomed : list Z) : list (Z * Z) :=
  foldl (λ eps uid, if dmem (running r) uid
                    then dset eps uid (default 0 (dget eps uid) + 1) else eps)
    (epochs r) doomed.
(** Keys of a dict whose user is in [doomed], popped. *)
Definition drop_users {V} (doomed : list Z) (d : list (SubjectKey * V)) : list (SubjectKey * V) :=
  List.filter (λ p, negb (bool_decide (p.1.1 ∈ doomed))) d.
(** [doomed] is a set: each user counted once. *)
Definition invalidate_many (user_ids : list Z) (r : Resolver) : Resolver :=
  let doomed := remove_dups user_ids in
  set_state r (drop_users doomed (cache r)) (drop_users doomed (inflight r))
    (bump_epochs r doomed) (running r) (metrics r) (tasks r) (next_task r).
Definition invalidate (user_id : Z) (r : Resolver) : Resolver := invalidate_many [user_id] r.
Definition clear (r : Resolver) : Resolver :=
  let r := invalidate_many (((dkeys (cache r)).*1) ++ dkeys (running r)) r in
  set_state r [] (inflight r) (epochs r) (running r) (metrics r) (tasks r) (next_task r).

(** ** NATS invalidation messages

    A message's payload is what [json.loads] makes of it, [None] when it is
    not UTF-8 or not JSON (a [ValueError], caught). *)

Inductive json :=
  | JNull | JBool (b : bool) | JInt (z : Z) | JFloat (q : Q) | JStr (s : string)
  | JList (l : list json) | JObj (o : list (string * json)).

(** [int(x)]; [None] is a [ValueError] or [TypeError]. *)
Definition int_of_json (j : json) : option Z :=
  match j with
  | JInt z => Some z
  | JBool b => Some (if b then 1 else 0)
  | JFloat q => Some (Z.quot (Qnum q) (Zpos (Qden q)))
  | JStr s => py_int s
  | JNull | JList _ | JObj _ => None
  end.
(** [payload.get("data") if isinstance(payload, dict) else None], a dict or nothing *)
Definition data_of (payload : json) : option (list (string * json)) :=
  match payload with
  | JObj o => match dget o "data" with Some (JObj d) => Some d | _ => None end
  | _ => None
  end.

Record Msg := { msg_subject : string; msg_payload : option json }.

Definition user_id_from_subject (r : Resolver) (subject : string) : option Z :=
  let prefix := user_subject_prefix r +:+ "." in
  if negb (startswith prefix subject) then None
  else py_int (sdrop (String.length prefix) subject).

(** The users a message dooms; [None]: the handler returns or logs without
    invalidating. *)
Definition user_message_target (r : Resolver) (m : Msg) : option (list Z) :=
  match user_id_from_subject r (msg_subject m) with
  | Some uid => Some [uid]
  | None =>
      payload ← msg_payload m;
      data ← data_of payload;
      user_id ← dget data "user_id";
      uid ← int_of_json user_id;
      Some [uid]
  end.
(** [data.get("user_ids") or []], when it is a list *)
Definition role_message_target (m : Msg) : option (list Z) :=
  payload ← msg_payload m;
  data ← data_of payload;
  match dget data "user_ids" with
  | Some (JList l) => mapM int_of_json l
  | None | Some JNull | Some (JBool false) | Some (JInt 0) | Some (JStr EmptyString)
  | Some (JObj []) => Some []
  | Some (JFloat q) => if Qeq_bool q 0 then Some [] else None
  | Some _ => None
  end.
Definition apply_target (target : option (list Z)) (r : Resolver) : Resolver :=
  match target with Some uids => invalidate_many uids r | None => r end.
Definition handle_user_invalidation (m : Msg) (r : Resolver) : Resolver :=
  let r := set_metrics r (count_invalidation (metrics r)) in
  apply_target (user_message_target r m) r.
Definition handle_role_invalidation (m : Msg) (r : Resolver) : Resolver :=
  let r := set_metrics r (count_invalidation (metrics r)) in
  apply_target (role_message_target m) r.

(** ** Interleavings

    [gen uid] counts the invalidations of [uid] so far; the log records every
    fetch ever started: its key, the count when it started, and its answer.
    Neither is read by the code. *)

Record Fetch := { f_key : SubjectKey; f_gen : nat; f_entry : option CacheEntry }.
Record World := { res : Resolver; gen : Z → nat; log : gmap nat Fetch }.

Definition bump (uids : list Z) (g : Z → nat) : Z → nat :=
  λ uid, if decide (uid ∈ uids) then S (g uid) else g uid.
Definition log_start (key : SubjectKey) (r r' : Resolver) (g : Z → nat) (l : gmap nat Fetch)
    : gmap nat Fetch :=
  if decide (next_task r' = next_task r) then l
  else <[next_task r := {| f_key := key; f_gen := g key.1; f_entry := None |}]> l.
Definition log_answer (task : nat) (answer : option PermsResponse) (now : Q) (l : gmap nat Fetch)
    : gmap nat Fetch :=
  alter (λ f, {| f_key := f_key f; f_gen := f_gen f;
                 f_entry := (λ resp, entry_of resp now) <$> answer |}) task l.
Definition target_list (t : option (list Z)) : list Z := default [] t.

Inductive step : World → World → Prop :=
  | step_get uid tenant now out r' w :
      get_start uid tenant now (res w) = (out, r') →
      step w {| res := r'; gen := gen w;
                log := log_start (uid, tenant) (res w) r' (gen w) (log w) |}
  | step_complete task t answer now w :
      tasks (res w) !! task = Some t → t_result t = None →
      step w {| res := fetch_complete task answer now (res w); gen := gen w;
                log := log_answer task answer now (log w) |}
  | step_resume task out r' w :
      owner_resume task (res w) = Some (out, r') →
      step w {| res := r'; gen := gen w; log := log w |}
  | step_cancel task out r' w :
      owner_cancel task (res w) = Some (out, r') →
      step w {| res := r'; gen := gen w; log := log w |}
  | step_invalidate uids w :
      step w {| res := invalidate_many uids (res w); gen := bump uids (gen w); log := log w |}
  | step_clear w :
      step w {| res := clear (res w); gen := λ uid, S (gen w uid); log := log w |}
  | step_user_message m w :
      step w {| res := handle_user_invalidation m (res w);
                gen := bump (target_list (user_message_target (res w) m)) (gen w); log := log w |}
  | step_role_message m w :
      step w {| res := handle_role_invalidation m (res w);
                gen := bump (target_list (role_message_target m)) (gen w); log := log w |}.

Definition initial (ttl : Q) (n : Z) (up rp : string) : World :=
  {| res := init ttl n up rp; gen := λ _, O; log := ∅ |}.
Definition reachable (w : World) : Prop := ∃ ttl n up rp, runs step (initial ttl n up rp) w.

(** ** The invariant *)

Definition of_user (uid : Z) (p : nat * Task) : Prop := (t_key p.2).1 = uid.
#[local] Instance of_user_dec uid p : Decision (of_user uid p).
Proof. unfold of_user. apply _. Defined.
(** How many fetches of [uid] are running. *)
Definition live (uid : Z) (m : gmap nat Task) : nat := size (filter (of_user uid) m).

Lemma live_insert_fresh uid task t m :
  m !! task = None →
  live uid (<[task := t]> m) = if decide ((t_key t).1 = uid) then S (live uid m) else live uid m.
Proof.
  intros Hf. unfold live. case_decide as Hu.
  - rewrite map_filter_insert_True by done. apply map_size_insert_None.
    apply map_lookup_filter_None. by left.
  - rewrite map_filter_insert_False by done. by rewrite delete_id.
Qed.
Lemma live_delete uid task t m :
  m !! task = Some t →
  live uid m = if decide ((t_key t).1 = uid) then S (live uid (delete task m)) else live uid (delete task m).
Proof.
  intros Ht. rewrite <-(insert_delete_id m task t) at 1 by done.
  apply live_insert_fresh. apply lookup_delete_eq.
Qed.
Lemma live_update uid task t t' m :
  m !! task = Some t → t_key t' = t_key t → live uid (<[task := t']> m) = live uid m.
Proof.
  intros Ht Hk. rewrite <-insert_delete_eq, live_insert_fresh by apply lookup_delete_eq.
  rewrite (live_delete uid task t m) by done. by rewrite Hk.
Qed.
Lemma live_pos uid task t m : m !! task = Some t → (t_key t).1 = uid → (0 < live uid m)%nat.
Proof. intros Ht Hu. rewrite (live_delete uid task t m), decide_True by done. lia. Qed.

Record task_ok (w : World) (task : nat) (t : Task) : Prop := {
  task_logged : ∃ f, log w !! task = Some f ∧ f_key f = t_key t ∧
    (∀ e, t_result t = Some (Ok e) → f_entry f = Some e) ∧
    (t_result t = None → f_entry f = None) ∧
    (f_gen f <= gen w (t_key t).1)%nat ∧
    (t_epoch t = epoch_of (res w) (t_key t).1 ↔ f_gen f = gen w (t_key t).1);
  task_epoch : t_epoch t <= epoch_of (res w) (t_key t).1 }.

Record Inv (w : World) : Prop := {
  inv_wf_cache : wf (cache (res w));
  inv_wf_inflight : wf (inflight (res w));
  inv_wf_epochs : wf (epochs (res w));
  inv_wf_running : wf (running (res w));
  inv_fresh : ∀ task, (next_task (res w) <= task)%nat →
    tasks (res w) !! task = None ∧ log w !! task = None;
  inv_tasks : ∀ task t, tasks (res w) !! task = Some t → task_ok w task t;
  inv_running : ∀ uid, dget (running (res w)) uid =
    if decide (live uid (tasks (res w)) = O) then None
    else Some (Z.of_nat (live uid (tasks (res w))));
  inv_epochs : ∀ uid, is_Some (dget (epochs (res w)) uid) → (0 < live uid (tasks (res w)))%nat;
  inv_inflight : ∀ key task, dget (inflight (res w)) key = Some task →
    ∃ t f, tasks (res w) !! task = Some t ∧ t_key t = key ∧
      log w !! task = Some f ∧ f_gen f = gen w key.1;
  inv_cache : ∀ key e, dget (cache (res w)) key = Some e →
    ∃ task f, log w !! task = Some f ∧ f_key f = key ∧ f_gen f = gen w key.1 ∧
      f_entry f = Some e }.

Lemma Inv_initial ttl n up rp : Inv (initial ttl n up rp).
Proof. constructor; cbn; try done; try apply wf_nil. Qed.

(** *** Starting a fetch *)

Lemma set_metrics_id r : set_metrics r (metrics r) = r.
Proof. by destruct r. Qed.

(** Metrics are not part of the invariant. *)
Lemma Inv_metrics r m g l :
  Inv {| res := r; gen := g; log := l |} → Inv {| res := set_metrics r m; gen := g; log := l |}.
Proof.
  intros [? ? ? ? ? Ht ? ? ? ?]. constructor; auto.
  intros task t Hin. destruct (Ht task t Hin) as [? ?]. by constructor.
Qed.

Lemma running_of_live w uid : Inv w → running_of (res w) uid = Z.of_nat (live uid (tasks (res w))).
Proof.
  intros Hw. unfold running_of. rewrite (inv_running w Hw uid). case_decide as H; cbn; [|done].
  by rewrite H.
Qed.

Lemma log_start_same key r g l : log_start key r r g l = l.
Proof. unfold log_start. by rewrite decide_True. Qed.

Lemma Inv_fetch_start key r task r' g l :
  Inv {| res := r; gen := g; log := l |} → fetch_and_cache_start key r = (task, r') →
  Inv {| res := r'; gen := g; log := log_start key r r' g l |}.
Proof.
  intros HI. unfold fetch_and_cache_start.
  destruct (dget (inflight r) key) as [task0|] eqn:Hin.
  { intros [= <- <-]. by rewrite log_start_same. }
  intros [= <- <-]. unfold log_start. cbn. rewrite decide_False by lia.
  pose proof HI as [Hwc Hwi Hwe Hwr Hfr Ht Hr He Hi Hc]. cbn in *.
  destruct (Hfr (next_task r)) as [Hnt Hnl]; [lia|].
  constructor; cbn; auto.
  - intros task Htask. rewrite !lookup_insert_ne by lia. apply Hfr. lia.
  - intros task t. rewrite lookup_insert. case_decide as Hk; [subst|].
    + intros [= <-]. constructor; cbn; [|done].
      eexists. rewrite lookup_insert_eq. split_and!; try done.
    + intros Hl. destruct (Ht task t Hl) as [(f & Hf & Hrest) ?].
      constructor; cbn in *; [|done]. exists f. by rewrite lookup_insert_ne.
  - intros uid. rewrite live_insert_fresh by done. cbn.
    rewrite dget_dset, (running_of_live {| res := r; gen := g; log := l |}) by done. cbn.
    repeat case_decide; subst; try congruence; try lia.
    + f_equal. lia.
    + rewrite Hr. by case_decide.
    + rewrite Hr. by case_decide.
  - intros uid Hs. rewrite live_insert_fresh by done. specialize (He uid Hs).
    case_decide; lia.
  - intros k task. rewrite dget_dset. case_decide as Hk; [subst|].
    + intros [= <-]. do 2 eexists. rewrite !lookup_insert_eq. split_and!; done.
    + intros Hl. destruct (Hi k task Hl) as (t & f & Htl & ? & Hfl & ?).
      exists t, f. rewrite !lookup_insert_ne by congruence. done.
  - intros k e Hl. destruct (Hc k e Hl) as (task & f & Hfl & ?).
    exists task, f. rewrite lookup_insert_ne by congruence. done.
Qed.

Lemma get_start_shape uid tenant now r out r' :
  get_start uid tenant now r = (out, r') →
  (∃ e, dget (cache r) (uid, tenant) = Some e ∧ (now - fetched_at e < ttl r)%Q ∧
        out = Hit (to_perms uid e) ∧ r' = set_metrics r (count_hit (metrics r))) ∨
  (∃ task, out = Await task ∧
     fetch_and_cache_start (uid, tenant) (set_metrics r (count_miss (metrics r))) = (task, r')).
Proof.
  unfold get_start.
  destruct (dget (cache r) (uid, tenant)) as [e|] eqn:He;
    [destruct (Qltb (now - fetched_at e) (ttl r)) eqn:Hq|].
  - intros [= <- <-]. left. apply Qltb_true in Hq. eauto.
  - destruct (fetch_and_cache_start _ _) as [task r1] eqn:Hs. intros [= <- <-]. eauto.
  - destruct (fetch_and_cache_start _ _) as [task r1] eqn:Hs. intros [= <- <-]. eauto.
Qed.

Lemma Inv_get uid tenant now out r' w :
  Inv w → get_start uid tenant now (res w) = (out, r') →
  Inv {| res := r'; gen := gen w; log := log_start (uid, tenant) (res w) r' (gen w) (log w) |}.
Proof.
  intros Hw Hg. destruct w as [r g l]. cbn in *.
  apply get_start_shape in Hg as [(e & _ & _ & _ & ->)|(task & _ & Hs)].
  - unfold log_start. cbn. rewrite decide_True by done. by apply Inv_metrics.
  - apply (Inv_metrics _ (count_miss (metrics r))) in Hw.
    eapply Inv_fetch_start in Hs; [|exact Hw]. exact Hs.
Qed.

(** *** The end of a fetch *)

Lemma Inv_complete task t answer now w :
  Inv w → tasks (res w) !! task = Some t → t_result t = None →
  Inv {| res := fetch_complete task answer now (res w); gen := gen w;
         log := log_answer task answer now (log w) |}.
Proof.
  intros Hw Htask Hnone. destruct w as [r g l]. cbn in *.
  set (r1 := set_state r (cache r) (inflight r) (epochs r) (running r) (metrics r)
    (<[task := {| t_key := t_key t; t_epoch := t_epoch t; t_result := Some
      (match answer with Some resp => Ok (entry_of resp now) | None => Raise stub_error end) |}]>
      (tasks r)) (next_task r)).
  assert (Inv {| res := r1; gen := g; log := log_answer task answer now l |}) as H.
  2: { unfold fetch_complete. rewrite Htask. destruct answer; [exact H|].
       by apply (Inv_metrics r1 (count_grpc_error (metrics r))). }
  destruct Hw as [Hwc Hwi Hwe Hwr Hfr Ht Hr He Hi Hc]. cbn in *.
  assert (∀ u, live u (tasks r1) = live u (tasks r)) as Hlive.
  { intros u. cbn. by apply (live_update u task t). }
  constructor; cbn; auto.
  - intros k Hk. destruct (Hfr k Hk) as [? Hl]. unfold log_answer.
    rewrite lookup_insert_ne, lookup_alter_ne by congruence. done.
  - intros k t'. unfold log_answer. rewrite lookup_insert. case_decide as Hk; [subst k|].
    + intros [= <-]. destruct (Ht task t Htask) as [(f & Hf & Hkey & _ & _ & Hgen & Hiff) Hep].
      constructor; cbn in *; [|done]. eexists. rewrite lookup_alter_eq, Hf. cbn.
      split; [done|]. cbn. do 2 (split; [done || by destruct answer; intros; simplify_eq|]).
      done.
    + intros Hl. destruct (Ht k t' Hl) as [(f & Hf & Hrest) Hep].
      constructor; cbn in *; [|done]. exists f. rewrite lookup_alter_ne by done. by split.
  - intros u. change (tasks r1) with (tasks r1) in Hlive. cbn in Hlive. by rewrite Hlive.
  - intros u Hs. cbn in Hlive. rewrite Hlive. auto.
  - intros k task' Hl. destruct (Hi k task' Hl) as (t' & f & Ht' & Hk' & Hf & Hgen).
    unfold log_answer. rewrite lookup_insert, lookup_alter. case_decide as Heq.
    + subst task'. rewrite Htask in Ht'. injection Ht' as <-. rewrite Hf. do 2 eexists. done.
    + rewrite Hf. eauto 10.
  - intros k e Hl. destruct (Hc k e Hl) as (task' & f & Hf & Hk & Hg & Hent).
    unfold log_answer. exists task'. rewrite lookup_alter. case_decide as Heq; [|by exists f].
    subst task'. destruct (Ht task t Htask) as [(f' & Hf' & _ & _ & Hno & _) _].
    cbn in Hf'. rewrite Hf in Hf'. injection Hf' as <-. by rewrite Hno in Hent.
Qed.

(** *** The owner's continuation *)

Lemma oldest_Some c : c ≠ [] → is_Some (oldest c).
Proof.
  destruct c as [|[k e] c]; cbn; [done|]. intros _.
  destruct (oldest c) as [[k' q]|]; [|eauto]. destruct (Qle_bool _ _); eauto.
Qed.
Lemma oldest_key c k q : oldest c = Some (k, q) → k ∈ dkeys c.
Proof.
  revert k q. unfold dkeys. induction c as [|[k e] c IH]; cbn; [done|]. intros k' q.
  destruct (oldest c) as [[k1 q1]|]; [destruct (Qle_bool _ _)|]; intros [= <- <-];
    rewrite elem_of_cons; eauto.
Qed.

Lemma store_spec key entry n c c' :
  wf c → store key entry n c = Ok c' →
  wf c' ∧ dget c' key = Some entry ∧
  (∀ k e, dget c' k = Some e → (k = key ∧ e = entry) ∨ dget c k = Some e) ∧
  (1 <= n → Z.of_nat (length c) <= n → Z.of_nat (length c') <= n).
Proof.
  intros Hc. unfold store.
  destruct (dmem c key) eqn:Hm; cbn [negb andb].
  - intros [= <-]. split_and!; [auto|apply dget_dset_eq| |].
    + intros k e. rewrite dget_dset. case_decide; [|auto]. intros [= <-]. auto.
    + rewrite length_dset, Hm. lia.
  - destruct (Z.leb_spec n (Z.of_nat (length c))) as [Hn|Hn].
    + destruct (oldest c) as [[victim q]|] eqn:Ho; [|done]. intros [= <-].
      split_and!; [auto|apply dget_dset_eq| |].
      * intros k e. rewrite dget_dset. case_decide; [intros [= <-]; auto|].
        rewrite dget_ddel by done. case_decide; [done|auto].
      * apply oldest_key, dget_Some_key in Ho as [v Hv].
        rewrite length_dset. pose proof (length_ddel c victim v Hv).
        case_match; lia.
    + intros [= <-]. split_and!; [auto|apply dget_dset_eq| |].
      * intros k e. rewrite dget_dset. case_decide; [|auto]. intros [= <-]. auto.
      * rewrite length_dset, Hm. lia.
Qed.

Lemma Inv_store task t entry c r g l :
  Inv {| res := r; gen := g; log := l |} →
  tasks r !! task = Some t → t_result t = Some (Ok entry) →
  epoch_of r (t_key t).1 = t_epoch t →
  store (t_key t) entry (max_entries r) (cache r) = Ok c →
  Inv {| res := set_state r c (inflight r) (epochs r) (running r) (metrics r) (tasks r) (next_task r);
         gen := g; log := l |}.
Proof.
  intros [Hwc Hwi Hwe Hwr Hfr Ht Hr He Hi Hc] Htask Hres Hep Hs. cbn in *.
  apply store_spec in Hs as (Hwc' & _ & Hlook & _); [|done].
  constructor; cbn; auto.
  - intros k t' Hl. destruct (Ht k t' Hl) as [? ?]. by constructor.
  - intros k e Hl. destruct (Hlook k e Hl) as [[-> ->]|Hold]; [|by apply Hc].
    destruct (Ht task t Htask) as [(f & Hf & Hk & Hent & _ & _ & Hiff) _]. cbn in *.
    exists task, f. split_and!; [done|done| |by apply Hent].
    by apply Hiff.
Qed.

(** A key that refers to a task is forgotten with it. *)
Lemma forget_inflight {K} `{EqDecision K} (infl : list (K * nat)) key task : wf infl → (∀ k, dget infl k = Some task → k = key) →
  let infl' := if decide (dget infl key = Some task) then ddel infl key else infl in
  wf infl' ∧ ∀ k j, dget infl' k = Some j → dget infl k = Some j ∧ j ≠ task.
Proof.
  intros Hwf Hkey. cbn zeta. case_decide as Hd; (split; [auto|intros k j]).
  - rewrite dget_ddel by done. case_decide as Hk; [done|]. intros Hj. split; [done|].
    intros ->. by apply Hkey in Hj.
  - intros Hj. split; [done|]. intros ->. pose proof (Hkey k Hj) as ->. done.
Qed.
Lemma Inv_finally task t r g l :
  Inv {| res := r; gen := g; log := l |} → tasks r !! task = Some t →
  Inv {| res := fetch_finally task t r; gen := g; log := l |}.
Proof.
  intros HI Htask. pose proof HI as [Hwc Hwi Hwe Hwr Hfr Ht Hr He Hi Hc]. cbn in *.
  set (uid := (t_key t).1). set (tasks' := delete task (tasks r)).
  assert (live uid (tasks r) = S (live uid tasks')) as Hlu.
  { rewrite (live_delete uid task t) by done. by rewrite decide_True. }
  assert (∀ u, u ≠ uid → live u (tasks r) = live u tasks') as Hlo.
  { intros u Hu. rewrite (live_delete u task t) by done. by rewrite decide_False. }
  set (inflight' := if decide (dget (inflight r) (t_key t) = Some task)
                    then ddel (inflight r) (t_key t) else inflight r).
  destruct (forget_inflight (inflight r) (t_key t) task Hwi) as [Hwi' Hin].
  { intros k Hj. destruct (Hi k task Hj) as (t' & _ & Ht' & Hkey & _). congruence. }
  fold inflight' in Hwi', Hin.
  assert (∀ k, (next_task r <= k)%nat → tasks' !! k = None ∧ l !! k = None) as Hfr'.
  { intros k Hk. destruct (Hfr k Hk). unfold tasks'. by rewrite lookup_delete_None; auto. }
  assert (∀ k j, dget inflight' k = Some j → ∃ t0 f, tasks' !! j = Some t0 ∧ t_key t0 = k ∧
    l !! j = Some f ∧ f_gen f = g k.1) as Hi'.
  { intros k j Hj. apply Hin in Hj as [Hj Hne]. destruct (Hi k j Hj) as (t0 & f & Ht0 & ?).
    exists t0, f. unfold tasks'. by rewrite lookup_delete_ne. }
  assert (running_of r uid = Z.of_nat (live uid (tasks r))) as Hrun
    by apply (running_of_live {| res := r; gen := g; log := l |} uid HI).
  unfold fetch_finally. fold uid. fold inflight'. fold tasks'. rewrite Hrun, Hlu.
  destruct (Z.eqb_spec (Z.of_nat (S (live uid tasks')) - 1) 0) as [Hz|Hz]; cbn [negb].
  - constructor; cbn; auto.
    + intros k t' Hl. apply lookup_delete_Some in Hl as [Hne Hl].
      destruct (Ht k t' Hl) as [(f & Hf & Hrest) Hep]. cbn in *.
      assert ((t_key t').1 ≠ uid) as Hnu.
      { intros Hu. assert (0 < live uid tasks')%nat; [|lia].
        apply (live_pos uid k t'); [|done]. unfold tasks'. by rewrite lookup_delete_ne. }
      constructor; cbn; unfold epoch_of in *; cbn; rewrite dget_ddel_ne by congruence; eauto.
    + intros u. rewrite dget_ddel, Hr by done. destruct (decide (uid = u)) as [<-|Hu].
      * rewrite decide_True by lia. done.
      * by rewrite Hlo by done.
    + intros u [e Hs]. rewrite dget_ddel in Hs by done. case_decide; [done|].
      rewrite <-Hlo by done. eauto.
  - constructor; cbn; auto.
    + intros k t' Hl. apply lookup_delete_Some in Hl as [Hne Hl].
      destruct (Ht k t' Hl) as [? ?]. by constructor.
    + intros u. rewrite dget_dset, Hr. destruct (decide (uid = u)) as [<-|Hu].
      * rewrite decide_False by lia. f_equal. lia.
      * by rewrite Hlo by done.
    + intros u Hs. destruct (decide (u = uid)) as [->|Hu]; [lia|].
      rewrite <-Hlo by done. eauto.
Qed.

Lemma Inv_owner_continue task t out0 out r' w :
  Inv w → tasks (res w) !! task = Some t →
  (∀ e, out0 = Ok e → t_result t = Some (Ok e)) →
  owner_continue task t out0 (res w) = (out, r') →
  Inv {| res := r'; gen := gen w; log := log w |}.
Proof.
  intros Hw Htask Hres. destruct w as [r g l]. unfold owner_continue. cbn in *.
  destruct out0 as [entry|e].
  - destruct (Z.eqb_spec (epoch_of r (t_key t).1) (t_epoch t)) as [Hep|].
    + destruct (store _ _ _ _) as [c|e] eqn:Hs; intros [= <- <-].
      * apply Inv_finally; [|done]. eapply Inv_store; eauto.
      * by apply Inv_finally.
    + intros [= <- <-]. by apply Inv_finally.
  - intros [= <- <-]. by apply Inv_finally.
Qed.

Lemma Inv_resume task out r' w :
  Inv w → owner_resume task (res w) = Some (out, r') →
  Inv {| res := r'; gen := gen w; log := log w |}.
Proof.
  intros Hw. unfold owner_resume.
  destruct (tasks (res w) !! task) as [t|] eqn:Ht; cbn; [|done].
  destruct (t_result t) as [out0|] eqn:Hr; cbn; [|done]. intros Hc%(inj Some).
  eapply Inv_owner_continue; [done|exact Ht| |exact Hc]. intros e ->. exact Hr.
Qed.

Lemma Inv_cancel task out r' w :
  Inv w → owner_cancel task (res w) = Some (out, r') →
  Inv {| res := r'; gen := gen w; log := log w |}.
Proof.
  intros Hw. unfold owner_cancel.
  destruct (tasks (res w) !! task) as [t|] eqn:Ht; [|done]. intros Hc%(inj Some).
  eapply Inv_owner_continue; [done|exact Ht| |exact Hc]. done.
Qed.

(** *** Invalidations *)

Lemma dget_filter_user {V} (D : list Z) (d : list (SubjectKey * V)) k :
  dget (drop_users D d) k = if decide (k.1 ∈ D) then None else dget d k.
Proof.
  unfold drop_users. induction d as [|[k' v] d IH]; cbn; [by case_decide|].
  destruct (bool_decide (k'.1 ∈ D)) eqn:Hb; cbn; rewrite IH.
  - apply bool_decide_eq_true in Hb. repeat case_decide; subst; done.
  - apply bool_decide_eq_false in Hb. repeat case_decide; subst; done.
Qed.
Lemma wf_drop_users {V} (D : list Z) (d : list (SubjectKey * V)) : wf d → wf (drop_users D d).
Proof.
  apply wf_sublist. unfold drop_users. induction d as [|p d IH]; cbn; [done|].
  destruct (negb _); [by apply sublist_skip|by apply sublist_cons].
Qed.

Lemma dget_bump_epochs r doomed uid :
  NoDup doomed →
  dget (bump_epochs r doomed) uid =
    if decide (uid ∈ doomed ∧ dmem (running r) uid = true)
    then Some (epoch_of r uid + 1) else dget (epochs r) uid.
Proof.
  unfold bump_epochs, epoch_of. generalize (epochs r) as eps.
  intros eps Hnd. revert eps. induction Hnd as [|u doomed Hu Hnd IH]; intros eps; cbn.
  { rewrite decide_False; [done|]. intros [?%elem_of_nil ?]. done. }
  rewrite IH. clear IH. destruct (dmem (running r) u) eqn:Hm.
  - rewrite dget_dset. destruct (decide (u = uid)) as [<-|Hne].
    + rewrite (decide_False (P := u ∈ doomed ∧ _)) by tauto.
      rewrite decide_True; [done|]. rewrite elem_of_cons. auto.
    + apply decide_ext. rewrite elem_of_cons. intuition congruence.
  - apply decide_ext. rewrite elem_of_cons. intuition congruence.
Qed.
Lemma wf_bump_epochs r doomed : wf (epochs r) → wf (bump_epochs r doomed).
Proof.
  unfold bump_epochs. generalize (epochs r) as eps. induction doomed as [|u doomed IH]; cbn; auto.
  intros eps Heps. apply IH. case_match; auto.
Qed.

Lemma dmem_running w uid :
  Inv w → dmem (running (res w)) uid = true ↔ (0 < live uid (tasks (res w)))%nat.
Proof.
  intros Hw. rewrite dmem_true, <-dget_Some_key, (inv_running w Hw uid).
  case_decide; split; try lia; [by intros [? ?]|eauto].
Qed.

(** [gen'] counts one invalidation more for every doomed user, and none less
    for the others. *)
Lemma Inv_invalidate uids gen' w :
  Inv w →
  (∀ u, u ∈ uids → (gen w u < gen' u)%nat) →
  (∀ u, u ∉ uids → gen' u = gen w u ∨
     (gen w u < gen' u)%nat ∧ live u (tasks (res w)) = 0%nat ∧ ∀ k, k.1 = u → dget (cache (res w)) k = None) →
  Inv {| res := invalidate_many uids (res w); gen := gen'; log := log w |}.
Proof.
  intros Hw Hin Hout. pose proof (dmem_running w) as Hdm. destruct w as [r g l].
  pose proof Hw as [Hwc Hwi Hwe Hwr Hfr Ht Hr He Hi Hc]. cbn in *.
  assert (∀ u, dget (bump_epochs r (remove_dups uids)) u =
    if decide (u ∈ uids ∧ (0 < live u (tasks r))%nat) then Some (epoch_of r u + 1)
    else dget (epochs r) u) as Hep.
  { intros u. rewrite dget_bump_epochs by apply NoDup_remove_dups.
    specialize (Hdm u Hw). apply decide_ext. rewrite elem_of_remove_dups. tauto. }
  constructor; cbn; auto using wf_drop_users, wf_bump_epochs.
  - intros k t Hk. destruct (Ht k t Hk) as [(f & Hf & Hkey & Hent & Hno & Hle & Hiff) Hepoch].
    pose proof (live_pos (t_key t).1 k t (tasks r) Hk eq_refl) as Hpos.
    assert (epoch_of (invalidate_many uids r) (t_key t).1 =
      if decide ((t_key t).1 ∈ uids) then epoch_of r (t_key t).1 + 1 else epoch_of r (t_key t).1) as Heq.
    { unfold epoch_of at 1. cbn. rewrite Hep. repeat case_decide; try done; tauto. }
    constructor; cbn in *.
    + exists f. do 4 (split; [done|]). fold (invalidate_many uids r). rewrite Heq.
      case_decide as Hu.
      * specialize (Hin _ Hu). split; [lia|]. split; lia.
      * destruct (Hout _ Hu) as [->|(_ & Hz & _)]; [done|lia].
    + fold (invalidate_many uids r). rewrite Heq. case_decide; lia.
  - intros u. rewrite Hep. case_decide; [lia|]. apply He.
  - intros k task. rewrite dget_filter_user, elem_of_remove_dups || rewrite dget_filter_user.
    case_decide as Hk; [done|]. rewrite elem_of_remove_dups in Hk.
    intros Hl. destruct (Hi k task Hl) as (t & f & Htk & Hkey & Hf & Hg).
    destruct (Hout _ Hk) as [Hsame|(_ & Hz & _)]; [rewrite Hsame; eauto 10|].
    pose proof (live_pos k.1 task t (tasks r) Htk). rewrite Hkey in *. specialize (H eq_refl). lia.
  - intros k e. rewrite dget_filter_user.
    case_decide as Hk; [done|]. rewrite elem_of_remove_dups in Hk.
    intros Hl. destruct (Hout _ Hk) as [->|(_ & _ & Hn)]; [by apply Hc|].
    by rewrite (Hn k eq_refl) in Hl.
Qed.

Lemma Inv_bump uids w :
  Inv w → Inv {| res := invalidate_many uids (res w); gen := bump uids (gen w); log := log w |}.
Proof.
  intros Hw. apply Inv_invalidate; [done|..]; unfold bump; intros u Hu.
  - rewrite decide_True by done. lia.
  - rewrite decide_False by done. by left.
Qed.

Lemma Inv_clear w :
  Inv w → Inv {| res := clear (res w); gen := λ u, S (gen w u); log := log w |}.
Proof.
  intros Hw.
  assert (Inv {| res := invalidate_many ((dkeys (cache (res w))).*1 ++ dkeys (running (res w))) (res w);
    gen := λ u, S (gen w u); log := log w |}) as H.
  { apply Inv_invalidate; [done|intros; lia|]. intros u Hu. right. split; [lia|].
    rewrite elem_of_app in Hu. split.
    - destruct (decide (live u (tasks (res w)) = 0%nat)) as [|Hl]; [done|].
      destruct Hu. right. apply dget_Some_key. rewrite (inv_running w Hw).
      by rewrite decide_False.
    - intros k <-. apply dget_None. intros Hk. destruct Hu. left.
      by apply list_elem_of_fmap_2. }
  destruct H as [? ? ? ? Hfr Ht ? ? ? ?]. cbn in *. constructor; cbn; auto using wf_nil.
  - intros task t Htk. destruct (Ht task t Htk) as [? ?]. by constructor.
  - done.
Qed.

Lemma Inv_gen_ext r g g' l :
  (∀ u, g u = g' u) → Inv {| res := r; gen := g; log := l |} → Inv {| res := r; gen := g'; log := l |}.
Proof.
  intros Hg [? ? ? ? ? Ht ? ? Hi Hc]. constructor; auto; cbn in *.
  - intros task t Hl. destruct (Ht task t Hl) as [? ?].
    constructor; cbn in *; [|done]. by rewrite <-Hg.
  - intros k task Hl. rewrite <-Hg. eauto.
  - intros k e Hl. rewrite <-Hg. eauto.
Qed.

Lemma Inv_target target r m g l :
  Inv {| res := r; gen := g; log := l |} →
  Inv {| res := apply_target target (set_metrics r m); gen := bump (target_list target) g; log := l |}.
Proof.
  intros HI%(Inv_metrics r m). destruct target as [uids|]; cbn.
  - by apply (Inv_bump uids) in HI.
  - eapply Inv_gen_ext; [|exact HI]. intros u. unfold bump. rewrite decide_False; [done|].
    apply not_elem_of_nil.
Qed.

Lemma Inv_step w w' : Inv w → step w w' → Inv w'.
Proof.
  intros Hw Hs. destruct Hs.
  - by eapply Inv_get.
  - by eapply Inv_complete.
  - by eapply Inv_resume.
  - by eapply Inv_cancel.
  - by apply Inv_bump.
  - by apply Inv_clear.
  - destruct w as [r g l]. by apply (Inv_target (user_message_target r m)).
  - destruct w as [r g l]. by apply Inv_target.
Qed.

Lemma Inv_reachable w : reachable w → Inv w.
Proof.
  intros (ttl & n & up & rp & Hr).
  eapply runs_invariant; [apply Inv_step|apply Inv_initial|exact Hr].
Qed.

(** ** What a reader gets *)

(** C5: at every reachable state, whatever the interleaving of readers,
    fetches, failures and invalidations, a cached answer a [get] returns is the
    answer to a fetch for that very user and tenant that began after the
    user's last invalidation and is younger than the TTL; and a fetch a [get]
    awaits is for that key and began after that invalidation too. *)
Theorem answers_are_current w uid tenant now out r' :
  reachable w → get_start uid tenant now (res w) = (out, r') →
  match out with
  | Hit p => ∃ task f e, log w !! task = Some f ∧ f_key f = (uid, tenant) ∧
      f_gen f = gen w uid ∧ f_entry f = Some e ∧ p = to_perms uid e ∧
      (now - fetched_at e < ttl (res w))%Q
  | Await task => ∃ t f, tasks r' !! task = Some t ∧ t_key t = (uid, tenant) ∧
      log_start (uid, tenant) (res w) r' (gen w) (log w) !! task = Some f ∧
      f_gen f = gen w uid
  end.
Proof.
  intros Hw%Inv_reachable Hg. pose proof (Inv_get _ _ _ _ _ _ Hw Hg) as Hw'.
  apply get_start_shape in Hg as [(e & He & Hq & -> & ->)|(task & -> & Hs)].
  - destruct (inv_cache w Hw _ _ He) as (task & f & ? & ? & ? & ?). eauto 10.
  - assert (dget (inflight r') (uid, tenant) = Some task) as Hin.
    { revert Hs. unfold fetch_and_cache_start. cbn.
      destruct (dget (inflight (res w)) (uid, tenant)) as [j|] eqn:Hj; intros [= <- <-]; cbn;
        [done|apply dget_dset_eq]. }
    apply (inv_inflight _ Hw') in Hin as (t & f & ? & ? & ? & ?). by exists t, f.
Qed.

(** An invalidation takes effect at once: right after
    [invalidate_many uids] no [get] for one of these users, for any tenant, is
    answered from the cache or joins a fetch that was already running; the
    next [get] starts a new one. *)
Lemma invalidation_is_immediate w uids uid tenant now :
  reachable w → uid ∈ uids →
  ∃ r', get_start uid tenant now (invalidate_many uids (res w)) = (Await (next_task (res w)), r') ∧
    tasks (res w) !! next_task (res w) = None.
Proof.
  intros Hw%Inv_reachable Hu. unfold get_start, fetch_and_cache_start. cbn.
  rewrite !dget_filter_user. rewrite !decide_True by by apply elem_of_remove_dups.
  eexists. split; [done|]. by apply (inv_fresh w Hw).
Qed.

(** The constructor's arguments never change. *)
Definition config (r : Resolver) : Q * Z * string * string :=
  (ttl r, max_entries r, user_subject_prefix r, role_subject_prefix r).
Lemma owner_continue_config task t out0 r out r' :
  owner_continue task t out0 r = (out, r') → config r' = config r.
Proof. unfold owner_continue, fetch_finally. repeat case_match; intros; simplify_eq; done. Qed.
Lemma step_config w w' : step w w' → config (res w') = config (res w).
Proof.
  destruct 1 as [uid tenant now out r' w Hg| | task out r' w Hr | task out r' w Hr | | | |]; cbn.
  - apply get_start_shape in Hg as [(? & _ & _ & _ & ->)|(task & _ & Hs)]; [done|].
    revert Hs. unfold fetch_and_cache_start. case_match; intros [= <- <-]; done.
  - unfold fetch_complete. repeat case_match; simplify_eq; done.
  - revert Hr. unfold owner_resume. destruct (tasks (res w) !! task) as [t|]; [|done]. cbn.
    destruct (t_result t); [|done]. intros Hc%(inj Some). by eapply owner_continue_config.
  - revert Hr. unfold owner_cancel. destruct (tasks (res w) !! task) as [t|]; [|done].
    intros Hc%(inj Some). by eapply owner_continue_config.
  - done.
  - done.
  - unfold handle_user_invalidation, apply_target. by case_match.
  - unfold handle_role_invalidation, apply_target. by case_match.
Qed.
Lemma runs_config w w' : runs step w w' → config (res w') = config (res w).
Proof. induction 1 as [|w1 w2 w3 _ IH Hs]; [done|]. by rewrite (step_config _ _ Hs). Qed.

Definition cache_bounded (w : World) : Prop :=
  1 <= max_entries (res w) → Z.of_nat (length (cache (res w))) <= max_entries (res w).

Lemma drop_users_length {V} D (d : list (SubjectKey * V)) : (length (drop_users D d) <= length d)%nat.
Proof. unfold drop_users. induction d as [|p d IH]; cbn; [lia|]. destruct (negb _); cbn; lia. Qed.

Lemma cache_bounded_step w w' : Inv w → cache_bounded w → step w w' → cache_bounded w'.
Proof.
  intros Hw Hb Hs. assert (max_entries (res w') = max_entries (res w)) as Hm
    by (pose proof (step_config _ _ Hs) as Hc; by injection Hc). revert Hb. unfold cache_bounded.
  rewrite Hm. intros Hb H1. specialize (Hb H1). clear Hm.
  assert (∀ uids r, length (cache r) = length (cache (res w)) →
    Z.of_nat (length (cache (invalidate_many uids r))) <= max_entries (res w)) as Hinv.
  { intros uids r Hl. cbn. pose proof (drop_users_length (remove_dups uids) (cache r)). lia. }
  assert (∀ task t out0 out r', owner_continue task t out0 (res w) = (out, r') →
    Z.of_nat (length (cache r')) <= max_entries (res w)) as Hoc.
  { intros task t out0 out r'. unfold owner_continue, fetch_finally.
    destruct out0 as [entry|e]; [|case_match; intros [= <- <-]; done].
    destruct (_ =? _); [|case_match; intros [= <- <-]; done].
    destruct (store _ _ _ _) as [c|e] eqn:Hst; [|case_match; intros [= <- <-]; done].
    apply store_spec in Hst as (_ & _ & _ & Hlen); [|apply Hw].
    specialize (Hlen H1 Hb). cbn. case_match; intros [= <- <-]; done. }
  destruct Hs as [uid tenant now out r' w Hg| | task out r' w Hr | task out r' w Hr | | | |]; cbn.
  - apply get_start_shape in Hg as [(? & _ & _ & _ & ->)|(task & _ & Hs)]; [done|].
    revert Hs. unfold fetch_and_cache_start. case_match; intros [= <- <-]; done.
  - unfold fetch_complete. repeat case_match; simplify_eq; done.
  - revert Hr. unfold owner_resume. destruct (tasks (res w) !! task) as [t|]; [|done]. cbn.
    destruct (t_result t); [|done]. intros Hc%(inj Some). by eapply Hoc.
  - revert Hr. unfold owner_cancel. destruct (tasks (res w) !! task) as [t|]; [|done].
    intros Hc%(inj Some). by eapply Hoc.
  - by apply Hinv.
  - lia.
  - unfold handle_user_invalidation, apply_target. case_match; [by apply Hinv|done].
  - unfold handle_role_invalidation, apply_target. case_match; [by apply Hinv|done].
Qed.

(** C40: the resolver's memory is bounded by its concurrency and its setting:
    at every reachable state [_running] holds for each user exactly the number
    of its running fetches (and no user without one), [_epochs] and
    [_inflight] hold only users with a running fetch, and the cache never
    exceeds [max_entries]. *)
Theorem memory_is_bounded w :
  reachable w →
  (∀ uid, dget (running (res w)) uid = let n := live uid (tasks (res w)) in
     if decide (n = O) then None else Some (Z.of_nat n)) ∧
  (∀ uid, is_Some (dget (epochs (res w)) uid) → live uid (tasks (res w)) ≠ O) ∧
  (∀ key task, dget (inflight (res w)) key = Some task →
     ∃ t, tasks (res w) !! task = Some t ∧ t_key t = key) ∧
  (1 <= max_entries (res w) → Z.of_nat (length (cache (res w))) <= max_entries (res w)).
Proof.
  intros Hw. pose proof (Inv_reachable w Hw) as HI. split_and!.
  - intros uid. apply (inv_running w HI).
  - intros uid Hs. apply (inv_epochs w HI) in Hs. lia.
  - intros key task Hk. apply (inv_inflight w HI) in Hk as (t & f & ? & ? & _). eauto.
  - destruct Hw as (ttl & n & up & rp & Hr).
    assert (Inv w ∧ cache_bounded w) as [_ Hc]; [|exact Hc].
    eapply (runs_invariant step (λ w, Inv w ∧ cache_bounded w));
      [|split; [apply (Inv_initial ttl n up rp)|]|exact Hr].
    + intros a b [Ha Hb] Hs. split; [by eapply Inv_step|by eapply cache_bounded_step].
    + unfold cache_bounded. cbn. lia.
Qed.

(** A fetch that ends, by answer, failure or cancellation, is never
    awaited again: a later [get] for its key finds the cache or a fetch other
    than it; and a failed or cancelled one leaves the cache as it was. *)
Lemma ended_fetch_is_not_awaited w task out r' uid tenant now :
  reachable w →
  owner_resume task (res w) = Some (out, r') ∨ owner_cancel task (res w) = Some (out, r') →
  (∀ e, out = Raise e → cache r' = cache (res w)) ∧
  (get_start uid tenant now r').1 ≠ Await task.
Proof.
  intros Hw%Inv_reachable Hend.
  assert (∃ t out0, tasks (res w) !! task = Some t ∧ owner_continue task t out0 (res w) = (out, r') ∧
    Inv {| res := r'; gen := gen w; log := log w |}) as (t & out0 & Ht & Hc & Hw').
  { destruct Hend as [Hr|Hr].
    - pose proof (Inv_resume _ _ _ _ Hw Hr). revert Hr. unfold owner_resume.
      destruct (tasks (res w) !! task) as [t|]; [|done]. cbn.
      destruct (t_result t); [|done]. intros Hc%(inj Some). eauto.
    - pose proof (Inv_cancel _ _ _ _ Hw Hr). revert Hr. unfold owner_cancel.
      destruct (tasks (res w) !! task) as [t|]; [|done]. intros Hc%(inj Some). eauto. }
  assert (tasks r' !! task = None ∧ next_task r' = next_task (res w) ∧
    (∀ e, out = Raise e → cache r' = cache (res w))) as (Hgone & Hnext & Hcache).
  { revert Hc. unfold owner_continue, fetch_finally.
    repeat case_match; intros [= <- <-]; cbn; simplify_eq/=; rewrite ?lookup_delete_eq; done. }
  split; [done|]. intros Ha.
  destruct (get_start uid tenant now r') as [o r2] eqn:Hg. cbn in Ha. subst o.
  apply get_start_shape in Hg as [(? & _ & _ & ? & _)|(j & [= <-] & Hs)]; [done|].
  revert Hs. unfold fetch_and_cache_start. cbn.
  destruct (dget (inflight r') (uid, tenant)) as [k|] eqn:Hk; intros [= <- <-].
  - apply (inv_inflight _ Hw') in Hk as (t' & _ & Ht' & _). cbn in Ht'. congruence.
  - destruct (inv_fresh w Hw (next_task (res w))) as [Hn _]; [done|]. congruence.
Qed.

Lemma user_id_from_subject_eq r p uid :
  user_subject_prefix r = p → user_id_from_subject r (p +:+ "." +:+ str_int uid) = Some uid.
Proof.
  intros <-. unfold user_id_from_subject. rewrite <-append_assoc, startswith_refl. cbn [negb].
  by rewrite sdrop_append, py_int_str_int.
Qed.

(** The subject of an invalidation message names the user whatever the
    payload is: [<prefix>.<id>] drops every answer of that user, global and
    per tenant, and no one else's. *)
Lemma user_message_targets w up n ttl_seconds rp uid payload key :
  runs step (initial ttl_seconds n up rp) w →
  let m := {| msg_subject := rstrip_chars "." up +:+ "." +:+ str_int uid; msg_payload := payload |} in
  let r' := handle_user_invalidation m (res w) in
  dget (cache r') key = if decide (key.1 = uid) then None else dget (cache (res w)) key.
Proof.
  intros Hr m r'.
  assert (user_subject_prefix (res w) = rstrip_chars "." up) as Hp.
  { pose proof (runs_config _ _ Hr) as Hc. by injection Hc. }
  unfold r', handle_user_invalidation, user_message_target, m. cbn [msg_subject].
  rewrite (user_id_from_subject_eq _ (rstrip_chars "." up)) by done.
  change (dget (drop_users (remove_dups [uid]) (cache (res w))) key =
    if decide (key.1 = uid) then None else dget (cache (res w)) key).
  rewrite dget_filter_user. apply decide_ext. set_solver.
Qed.

(** ** Witnesses: one subject resolved, cached, then invalidated *)

Definition demo_prefix : string := "auth.rbac.user.invalidated.".
Definition demo_response : PermsResponse :=
  {| r_bits := Some 9; r_version := Some 4; r_roles := Some ["admin"%string];
     r_max_role_weight := None |}.
Definition w0 : World := initial 30 2 demo_prefix "auth.rbac.role.invalidated".
Definition w1 : World :=
  let r' := (get_start 7 (Some 3) 1 (res w0)).2 in
  {| res := r'; gen := gen w0; log := log_start (7, Some 3) (res w0) r' (gen w0) (log w0) |}.
Definition w2 : World :=
  {| res := fetch_complete 0 (Some demo_response) 2 (res w1); gen := gen w1;
     log := log_answer 0 (Some demo_response) 2 (log w1) |}.
Definition resumed (w : World) : Resolver :=
  match owner_resume 0 (res w) with Some (_, r) => r | None => res w end.
Definition w3 : World := {| res := resumed w2; gen := gen w2; log := log w2 |}.
Definition demo_entry : CacheEntry :=
  {| bits := 9; version := 4; roles := ["admin"%string]; max_role_weight := 0; fetched_at := 2 |}.

Lemma demo_step1 : step w0 w1.
Proof. eapply (step_get 7 (Some 3) 1 (Await 0) _ w0). reflexivity. Defined.
Lemma demo_step2 : step w1 w2.
Proof.
  eapply (step_complete 0 {| t_key := (7, Some 3); t_epoch := 0; t_result := None |}
    (Some demo_response) 2 w1); reflexivity.
Defined.
Lemma demo_step3 : step w2 w3.
Proof. apply (step_resume 0 (Ok demo_entry) (resumed w2) w2). vm_compute. reflexivity. Defined.
Lemma demo_runs2 : runs step w0 w2.
Proof. eauto using runs, demo_step1, demo_step2. Defined.
Lemma demo_runs3 : runs step w0 w3.
Proof. eauto using runs, demo_step1, demo_step2, demo_step3. Defined.
Lemma demo_reachable2 : reachable w2.
Proof. do 4 eexists. apply demo_runs2. Defined.
Lemma demo_reachable3 : reachable w3.
Proof. do 4 eexists. apply demo_runs3. Defined.

Lemma answers_are_current_witness :
  ∃ task f e, log w3 !! task = Some f ∧ f_key f = (7, Some 3) ∧ f_gen f = gen w3 7 ∧
    f_entry f = Some e ∧ to_perms 7 demo_entry = to_perms 7 e ∧ (5 - fetched_at e < 30)%Q.
Proof.
  apply (answers_are_current w3 7 (Some 3) 5 (Hit (to_perms 7 demo_entry))
    (get_start 7 (Some 3) 5 (res w3)).2 demo_reachable3).
  vm_compute. reflexivity.
Defined.
Lemma invalidation_is_immediate_witness :
  ∃ r', get_start 7 (Some 3) 5 (invalidate_many [4; 7] (res w3)) = (Await (next_task (res w3)), r') ∧
    tasks (res w3) !! next_task (res w3) = None.
Proof. apply (invalidation_is_immediate w3 _ 7 (Some 3) 5 demo_reachable3). set_solver. Defined.
Lemma memory_is_bounded_witness :
  (∀ uid, dget (running (res w2)) uid = let n := live uid (tasks (res w2)) in
     if decide (n = O) then None else Some (Z.of_nat n)) ∧
  (∀ uid, is_Some (dget (epochs (res w2)) uid) → live uid (tasks (res w2)) ≠ O) ∧
  (∀ key task, dget (inflight (res w2)) key = Some task →
     ∃ t, tasks (res w2) !! task = Some t ∧ t_key t = key) ∧
  (1 <= max_entries (res w2) → Z.of_nat (length (cache (res w2))) <= max_entries (res w2)).
Proof. apply (memory_is_bounded w2 demo_reachable2). Defined.
Lemma ended_fetch_is_not_awaited_witness :
  (∀ e, (Ok demo_entry : result FetchError CacheEntry) = Raise e → cache (resumed w2) = cache (res w2)) ∧
  (get_start 7 (Some 3) 100 (resumed w2)).1 ≠ Await 0.
Proof.
  apply (ended_fetch_is_not_awaited w2 0 (Ok demo_entry) (resumed w2) 7 (Some 3) 100 demo_reachable2).
  left. vm_compute. reflexivity.
Defined.
Lemma user_message_targets_witness :
  let m := {| msg_subject := rstrip_chars "." demo_prefix +:+ "." +:+ str_int 7; msg_payload := None |} in
  dget (cache (handle_user_invalidation m (res w3))) (7, Some 3) =
    if decide ((7, Some 3).1 = 7) then None else dget (cache (res w3)) (7, Some 3).
Proof.
  apply (user_message_targets w3 demo_prefix 2 30 "auth.rbac.role.invalidated" 7 None (7, Some 3) demo_runs3).
Defined.

End PermsResolver.
