(* ===== verification/Redis.v ===== *)
(** * state/redis.py: keys, TTL jitter, distributed lock, leader lease

    Redis itself is not this repository's code: [RedisServer] is the interface
    the lock relies on, with the documented behaviour of [SET NX PX] and of the
    two compare-and-act scripts as its laws.  [store_server] is an
    implementation of it (a key-value store with deadlines).  A command can
    also fail on the client's side, with or without having been executed:
    [fault]. *)

From S2P Require Import Prelude PyStr PyDict.

(** ** Helpers *)

(** [int(x)] of a float: truncation towards zero *)
Definition Qtrunc (q : Q) : Z := Z.quot (Qnum q) (Zpos (Qden q)).

Lemma Qtrunc_le_Z q z : (q <= inject_Z z)%Q → 0 <= z → Qtrunc q <= z.
Proof.
  unfold Qtrunc, Qle. cbn. rewrite Z.mul_1_r. intros Hq Hz.
  destruct (decide (0 <= Qnum q)).
  - rewrite Z.quot_div_nonneg by lia. apply Z.div_le_upper_bound; lia.
  - pose proof (Z.quot_opp_l (- Qnum q) (Zpos (Qden q))). rewrite Z.opp_involutive in H.
    rewrite H by lia. pose proof (Z.quot_pos (- Qnum q) (Zpos (Qden q))). lia.
Qed.

Section jitter.
(** [u] is the draw of [random.random()], so that [random.uniform(0, limit)]
    is [limit * u]. *)
Context (u : Q).
Definition uniform0 (limit : Q) : Q := (limit * u)%Q.

Definition ttl_with_jitter (ttl_seconds : Z) (ratio : Q) (max_jitter_seconds : option Z) : Z :=
  if ttl_seconds <=? 0 then ttl_seconds
  else if Qle_bool ratio 0 then ttl_seconds
  else
    let jitter_limit := Qmaxb 0 (inject_Z ttl_seconds * ratio) in
    let jitter_limit := match max_jitter_seconds with
                        | Some m => Qminb jitter_limit (inject_Z m)
                        | None => jitter_limit
                        end in
    let jitter := uniform0 jitter_limit in
    Z.max 1 (Qtrunc (inject_Z ttl_seconds - jitter)).
End jitter.

(** ** [RedisSettings.redis_url] *)

Definition hex_digit (n : N) : ascii :=
  ascii_of_N (if (n <? 10)%N then 48 + n else 55 + n).
Definition percent (b : N) : string :=
  String "%" (String (hex_digit (b / 16)) (String (hex_digit (b mod 16)) EmptyString)).
(** The UTF-8 bytes of a code point below 256. *)
Definition utf8 (c : ascii) : list N :=
  if (code c <? 128)%N then [code c]
  else [N.lor 192 (N.shiftr (code c) 6); N.lor 128 (N.land (code c) 63)].
Definition quote_safe (c : ascii) : bool :=
  is_digit c || is_upper_ascii c || is_lower_ascii c || char_in "_.-~/" c.
(** [urllib.parse.quote] *)
Fixpoint quote (s : string) : string :=
  match s with
  | EmptyString => EmptyString
  | String c s =>
      (if quote_safe c then String c EmptyString
       else foldr (λ b r, percent b +:+ r) EmptyString (utf8 c)) +:+ quote s
  end.

Record RedisSettings := {
  url : option string; host : string; port : Z; db : Z;
  username : option string; password : option string;
  socket_connect_timeout : Q; socket_timeout : Q; health_check_interval : Q; max_connections : option Z }.
Definition default_settings : RedisSettings :=
  {| url := None; host := "127.0.0.1"; port := 6379; db := 0; username := None; password := None;
     socket_connect_timeout := 2; socket_timeout := 2; health_check_interval := 30; max_connections := None |}.

(** What [from_block] is given for each field: the attribute of the block,
    when it is there and not [None], and the override, when there is one. *)
Record Block := {
  b_url : option string; b_host : option string; b_port : option Z; b_db : option Z; b_username : option string;
  b_password : option string; b_socket_connect_timeout : option Q; b_socket_timeout : option Q;
  b_health_check_interval : option Q; b_max_connections : option Z }.
Record Overrides := {
  o_url : option (option string); o_host : option string; o_port : option Z; o_db : option Z;
  o_username : option (option string); o_password : option (option string); o_socket_connect_timeout : option Q;
  o_socket_timeout : option Q; o_health_check_interval : option Q; o_max_connections : option (option Z) }.
Definition field {A} (override block : option A) (d : A) : A :=
  match override with Some v => v | None => default d block end.
Definition from_block (b : Block) (o : Overrides) : RedisSettings :=
  let d := default_settings in
  {| url := field (o_url o) (Some <$> b_url b) (url d); host := field (o_host o) (b_host b) (host d);
     port := field (o_port o) (b_port b) (port d); db := field (o_db o) (b_db b) (db d);
     username := field (o_username o) (Some <$> b_username b) (username d);
     password := field (o_password o) (Some <$> b_password b) (password d);
     socket_connect_timeout := field (o_socket_connect_timeout o) (b_socket_connect_timeout b) (socket_connect_timeout d);
     socket_timeout := field (o_socket_timeout o) (b_socket_timeout b) (socket_timeout d);
     health_check_interval := field (o_health_check_interval o) (b_health_check_interval b) (health_check_interval d);
     max_connections := field (o_max_connections o) (Some <$> b_max_connections b) (max_connections d) |}.

(** [from_env] on a mapping, without the optional settings library; the text
    that is no number. *)
Definition _parse_int (value : option string) (d : Z) : result string Z :=
  match value with
  | None => Ok d
  | Some v => match py_int v with Some z => Ok z | None => Raise v end
  end.
Definition _parse_float (value : option string) (d : Q) : result string Q :=
  match value with
  | None => Ok d
  | Some v => match py_float v with Some q => Ok q | None => Raise v end
  end.
Definition from_env (source : string → option string) (prefix : string) : result string RedisSettings :=
  let get k := source (prefix +:+ k) in
  let d := default_settings in
  p ← _parse_int (get "PORT") (port d);
  n ← _parse_int (get "DB") (db d);
  ct ← _parse_float (get "SOCKET_CONNECT_TIMEOUT") (socket_connect_timeout d);
  st ← _parse_float (get "SOCKET_TIMEOUT") (socket_timeout d);
  hc ← _parse_float (get "HEALTH_CHECK_INTERVAL") (health_check_interval d);
  mc ← match get "MAX_CONNECTIONS" with
       | None => Ok None
       | Some v => z ← _parse_int (Some v) 0; Ok (if (z =? 0)%Z then None else Some z)
       end;
  Ok {| url := get "URL"; host := default (host d) (get "HOST"); port := p; db := n; username := get "USERNAME";
        password := get "PASSWORD"; socket_connect_timeout := ct; socket_timeout := st;
        health_check_interval := hc; max_connections := mc |}.

(** With the optional settings library: the fields of what it loaded. *)
Definition from_config (loaded : RedisSettings) : RedisSettings :=
  {| url := url loaded; host := host loaded; port := port loaded; db := db loaded; username := username loaded;
     password := password loaded; socket_connect_timeout := socket_connect_timeout loaded;
     socket_timeout := socket_timeout loaded; health_check_interval := health_check_interval loaded;
     max_connections := max_connections loaded |}.

Definition truthy (s : option string) : bool :=
  match s with Some t => negb (is_empty t) | None => false end.
Definition redis_url (s : RedisSettings) : string :=
  if truthy (url s) then default EmptyString (url s)
  else
    let user := default EmptyString (username s) in
    let pass := default EmptyString (password s) in
    let auth := if truthy (username s) && truthy (password s)
                then quote user +:+ ":" +:+ quote pass +:+ "@"
                else if truthy (password s) then ":" +:+ quote pass +:+ "@" else EmptyString in
    "redis://" +:+ auth +:+ host s +:+ ":" +:+ str_int (port s) +:+ "/" +:+ str_int (db s).

(** The settings a block was loaded into are those the client connects with. *)
Lemma from_block_keeps_the_block b u n :
  b_url b = Some u → u <> EmptyString → b_max_connections b = n →
  let s := from_block b {| o_url := None; o_host := None; o_port := None; o_db := None; o_username := None; o_password := None;
    o_socket_connect_timeout := None; o_socket_timeout := None; o_health_check_interval := None; o_max_connections := None |} in
  redis_url s = u ∧ max_connections s = n.
Proof.
  intros Hu Hne <-. unfold redis_url, from_block, field. cbn. rewrite Hu. cbn. unfold id.
  rewrite (proj2 (is_empty_false u) Hne). split; [done|]. by destruct (b_max_connections b).
Qed.

(** A number that cannot be read is an error that names it, never a default. *)
Lemma from_env_port source prefix s : from_env source prefix = Ok s →
  match source (prefix +:+ "PORT") with Some v => py_int v = Some (port s) | None => port s = 6379%Z end.
Proof.
  unfold from_env. intros (p & Hp & H)%result_bind_Ok.
  do 5 (apply result_bind_Ok in H as (? & _ & H)). injection H as <-. cbn [port].
  destruct (source (prefix +:+ "PORT")) as [v|]; cbn [_parse_int] in Hp; [destruct (py_int v); [|done]|]; by injection Hp as ->.
Qed.

(** ** [Keyspace] *)

Record Keyspace := { prefix : string; separator : string }.
Definition clean_part (sep part : string) : option string :=
  let part := strip part in
  if is_empty part then None else Some (strip_chars sep part).
Definition key (ks : Keyspace) (parts : list string) : string :=
  join (separator ks) (omap (clean_part (separator ks)) (prefix ks :: parts)).

(** ** The server *)

Inductive fault := no_fault | fails_before | fails_after.

Class RedisServer (Srv : Type) := {
  value_of : Srv → string → option string;
  (** [SET k v NX PX ms] *)
  set_nx_px : string → string → Z → Srv → bool * Srv;
  (** [if get(k) == v then del(k)]: the release script *)
  compare_and_delete : string → string → Srv → Z * Srv;
  (** [if get(k) == v then pexpire(k, ms)]: the extend script *)
  compare_and_pexpire : string → string → Z → Srv → Z * Srv;
  (** time passes and keys may expire *)
  elapse : Srv → Srv → Prop;
  set_nx_px_ok s k v ms : 0 < ms →
    match value_of s k with
    | None => ∃ s', set_nx_px k v ms s = (true, s') ∧
        ∀ k', value_of s' k' = if decide (k = k') then Some v else value_of s k'
    | Some _ => set_nx_px k v ms s = (false, s)
    end;
  compare_and_delete_ok s k v :
    if decide (value_of s k = Some v)
    then ∃ s', compare_and_delete k v s = (1, s') ∧
        ∀ k', value_of s' k' = if decide (k = k') then None else value_of s k'
    else compare_and_delete k v s = (0, s);
  compare_and_pexpire_ok s k v ms : 0 < ms →
    if decide (value_of s k = Some v)
    then ∃ s', compare_and_pexpire k v ms s = (1, s') ∧ ∀ k', value_of s' k' = value_of s k'
    else compare_and_pexpire k v ms s = (0, s);
  elapse_ok s s' k v : elapse s s' → value_of s' k = Some v → value_of s k = Some v }.

(** Plain values: [SET k v EX seconds] and [DEL k]. *)
Class RedisData (Srv : Type) `{RedisServer Srv} := {
  set_ex : string → string → Z → Srv → Srv;
  delete_key : string → Srv → Srv;
  set_ex_ok s k v ttl k' : 0 < ttl →
    value_of (set_ex k v ttl s) k' = if decide (k = k') then Some v else value_of s k';
  delete_key_ok s k k' :
    value_of (delete_key k s) k' = if decide (k = k') then None else value_of s k' }.

Inductive RedisError := connection_error | failed_to_acquire.

(** A command under a fault: the client sees the answer, or an error with the
    command not executed, or an error with the command executed. *)
Definition command {Srv A} (f : fault) (run : Srv → A * Srv) (s : Srv)
    : result RedisError A * Srv :=
  match f with
  | no_fault => let '(a, s') := run s in (Ok a, s')
  | fails_before => (Raise connection_error, s)
  | fails_after => (Raise connection_error, (run s).2)
  end.

(** ** [RedisLock] *)

Record RedisLock := {
  lock_key : string; ttl_seconds : Q; token : string; held : bool }.
Definition new_lock (key : string) (ttl : Q) (token : string) : RedisLock :=
  {| lock_key := key; ttl_seconds := ttl; token := token; held := false |}.
Definition set_held (l : RedisLock) (h : bool) : RedisLock :=
  {| lock_key := lock_key l; ttl_seconds := ttl_seconds l; token := token l; held := h |}.
(** [max(1, int(ttl * 1000))] *)
Definition ttl_ms (ttl : Q) : Z := Z.max 1 (Qtrunc (ttl * 1000)).

Section lock.
Context {Srv : Type} `{RedisServer Srv}.
Abbreviation St := (RedisLock * Srv)%type.

Definition acquire (f : fault) : SE St RedisError bool := λ '(l, s),
  match command f (set_nx_px (lock_key l) (token l) (ttl_ms (ttl_seconds l))) s with
  | (Ok result, s) => (Ok result, (set_held l result, s))
  | (Raise e, s) => (Raise e, (l, s))
  end.

Definition release (f : fault) : SE St RedisError bool := λ '(l, s),
  if negb (held l) then (Ok false, (l, s))
  else match command f (compare_and_delete (lock_key l) (token l)) s with
       | (Ok result, s) => (Ok (result =? 1), (set_held l false, s))
       | (Raise e, s) => (Raise e, (l, s))
       end.

Definition extend (f : fault) (ttl : option Q) : SE St RedisError bool := λ '(l, s),
  if negb (held l) then (Ok false, (l, s))
  else match command f (compare_and_pexpire (lock_key l) (token l)
                          (ttl_ms (default (ttl_seconds l) ttl))) s with
       | (Ok result, s) =>
           let ok := result =? 1 in
           (Ok ok, (if negb ok then set_held l false else l, s))
       | (Raise e, s) => (Raise e, (l, s))
       end.

(** [async with lock]: [__aenter__] and [__aexit__] *)
Definition aenter (f : fault) : SE St RedisError unit :=
  (let* ok := acquire f in if negb ok then se_raise failed_to_acquire else se_ret tt)%se.
Definition aexit (f : fault) : SE St RedisError unit :=
  (do* release f in se_ret tt)%se.

(** [acquire_with_wait]: [clock n] is the [n]-th reading of the monotonic
    clock, [faults n] what happens to the [n]-th attempt, and [others n] what
    the rest of the world does to the server during the [n]-th sleep. *)
Fixpoint acquire_loop (fuel : nat) (clock : nat → Q) (faults : nat → fault)
    (others : nat → Srv → Srv) (deadline delay max_delay : Q) (n : nat) (st : St)
    : option (result RedisError bool * St * list Q) :=
  match fuel with
  | O => None
  | S fuel =>
      match acquire (faults n) st with
      | (Raise e, st) => Some (Raise e, st, [])
      | (Ok true, st) => Some (Ok true, st, [])
      | (Ok false, (l, s)) =>
          if Qle_bool deadline (clock (S n)) then Some (Ok false, (l, s), [])
          else '(r, st, slept) ← acquire_loop fuel clock faults others deadline
                   (Qminb max_delay (delay * (3 # 2))) max_delay (S n) (l, others n s);
               Some (r, st, delay :: slept)
      end
  end.
Definition acquire_with_wait (fuel : nat) (clock : nat → Q) (faults : nat → fault)
    (others : nat → Srv → Srv) (timeout initial_delay max_delay : Q) (st : St)
    : option (result RedisError bool * St * list Q) :=
  let deadline := (clock 0%nat + Qmaxb 0 timeout)%Q in
  acquire_loop fuel clock faults others deadline (Qmaxb 0 initial_delay) max_delay 0 st.
End lock.

(** ** [LeaderLease] *)

Inductive RenewTask := running | ended (error : option RedisError).

Record LeaderLease := {
  lease_lock : RedisLock; lease_ttl : Q; renew_interval : Q; has_on_lost : bool;
  task : option RenewTask;   (** [_task]: none, or the renewal loop *)
  lost : bool;               (** [_lost.is_set()] *)
  on_lost_calls : nat }.     (** how many times [on_lost] was scheduled *)

Definition new_lease (key : string) (ttl : Q) (interval : option Q) (has_on_lost : bool)
    (token : string) : LeaderLease :=
  {| lease_lock := new_lock key ttl token; lease_ttl := ttl;
     renew_interval := match interval with Some i => i | None => Qmaxb 1 (ttl / 3) end;
     has_on_lost := has_on_lost; task := None; lost := false; on_lost_calls := 0 |}.
Definition lease_held (l : LeaderLease) : bool := held (lease_lock l) && negb (lost l).
Definition set_lease (l : LeaderLease) lock task lost calls : LeaderLease :=
  {| lease_lock := lock; lease_ttl := lease_ttl l; renew_interval := renew_interval l;
     has_on_lost := has_on_lost l; task := task; lost := lost; on_lost_calls := calls |}.

Section lease.
Context {Srv : Type} `{RedisServer Srv}.
Abbreviation LSt := (LeaderLease * Srv)%type.

Definition lease_acquire (f : fault) : SE LSt RedisError bool := λ '(l, s),
  match task l with
  | Some running => (Ok (lease_held l), (l, s))
  | _ =>
      match acquire f (lease_lock l, s) with
      | (Raise e, (k, s)) => (Raise e, (set_lease l k (task l) (lost l) (on_lost_calls l), s))
      | (Ok false, (k, s)) =>
          (Ok false, (set_lease l k (task l) (lost l) (on_lost_calls l), s))
      | (Ok true, (k, s)) =>
          (Ok true, (set_lease l k (Some running) false (on_lost_calls l), s))
      end
  end.

(** One turn of [_renew_loop] after its sleep.  An exception of [extend]
    leaves the loop: only cancellation is caught there. *)
Definition renew_turn (f : fault) (st : LSt) : LSt :=
  let '(l, s) := st in
  match task l with
  | Some running =>
      match extend f (Some (lease_ttl l)) (lease_lock l, s) with
      | (Ok true, (k, s)) => (set_lease l k (Some running) (lost l) (on_lost_calls l), s)
      | (Ok false, (k, s)) =>
          (set_lease l k (Some (ended None)) true
             (if has_on_lost l then S (on_lost_calls l) else on_lost_calls l), s)
      | (Raise e, (k, s)) => (set_lease l k (Some (ended (Some e))) (lost l) (on_lost_calls l), s)
      end
  | _ => (l, s)
  end.

(** [wait_lost]: [None] while it waits for the loop to end, whose error it
    re-raises. *)
Definition wait_lost (l : LeaderLease) : option (result RedisError unit) :=
  match task l with
  | None => Some (Ok tt)
  | Some running => None
  | Some (ended (Some e)) => Some (Raise e)
  | Some (ended None) => Some (Ok tt)
  end.
(** A turn of the loop that loses the lease, or fails, ends the wait. *)
Lemma wait_ends_with_the_loop f l s : task l = Some running →
  let '(l', _) := renew_turn f (l, s) in
  (wait_lost l' = None ↔ task l' = Some running) ∧ (lost l = false → wait_lost l' = Some (Ok tt) ↔ lost l' = true).
Proof.
  intros Ht. unfold renew_turn. rewrite Ht. destruct (extend f _ _) as [[[]|e] [k s']]; cbn; (split; [split; congruence|intros; split; congruence]).
Qed.

(** [release]: cancel the loop (awaiting it re-raises its own error), then
    release the lock. *)
Definition lease_release (f : fault) : SE LSt RedisError unit := λ '(l, s),
  match task l with
  | Some (ended (Some e)) => (Raise e, (set_lease l (lease_lock l) None true (on_lost_calls l), s))
  | _ =>
      match release f (lease_lock l, s) with
      | (Ok _, (k, s)) => (Ok tt, (set_lease l k None true (on_lost_calls l), s))
      | (Raise e, (k, s)) => (Raise e, (set_lease l k None true (on_lost_calls l), s))
      end
  end.
End lease.

(** ** An implementation of the server: values with deadlines *)

Record store := { now_ms : Z; data : gmap string (string * Z) }.
Definition store_value (s : store) (k : string) : option string :=
  match data s !! k with
  | Some (v, deadline) => if now_ms s <? deadline then Some v else None
  | None => None
  end.
Definition store_put (k v : string) (ms : Z) (s : store) : store :=
  {| now_ms := now_ms s; data := <[k := (v, now_ms s + ms)]> (data s) |}.
Definition store_del (k : string) (s : store) : store :=
  {| now_ms := now_ms s; data := delete k (data s) |}.

Lemma store_value_put k v ms s k' :
  0 < ms → store_value (store_put k v ms s) k' = if decide (k = k') then Some v else store_value s k'.
Proof.
  intros Hms. unfold store_value; cbn. rewrite lookup_insert. case_decide; [|done].
  destruct (Z.ltb_spec (now_ms s) (now_ms s + ms)); [done|lia].
Qed.
Lemma store_value_del k s k' :
  store_value (store_del k s) k' = if decide (k = k') then None else store_value s k'.
Proof. unfold store_value; cbn. rewrite lookup_delete. by case_decide. Qed.

Definition store_set_nx (k v : string) (ms : Z) (s : store) : bool * store :=
  match store_value s k with Some _ => (false, s) | None => (true, store_put k v ms s) end.
Definition store_cad (k v : string) (s : store) : Z * store :=
  if decide (store_value s k = Some v) then (1, store_del k s) else (0, s).
Definition store_cape (k v : string) (ms : Z) (s : store) : Z * store :=
  if decide (store_value s k = Some v) then (1, store_put k v ms s) else (0, s).
Definition store_elapse (s s' : store) : Prop := now_ms s <= now_ms s' ∧ data s' = data s.

#[export] Instance store_server : RedisServer store.
Proof.
  refine (Build_RedisServer store store_value store_set_nx store_cad store_cape store_elapse _ _ _ _);
    unfold store_set_nx, store_cad, store_cape, store_elapse.
  - intros s k v ms Hms. destruct (store_value s k); [done|].
    eexists; split; [done|]. intros k'. by apply store_value_put.
  - intros s k v. case_decide; [|done]. eexists; split; [done|]. apply store_value_del.
  - intros s k v ms Hms. case_decide as Hv; [|done]. eexists; split; [done|].
    intros k'. rewrite store_value_put by done. case_decide; by subst.
  - intros s s' k v [Hn Hd]. unfold store_value. rewrite Hd.
    destruct (data s !! k) as [[v' d]|]; [|done].
    destruct (Z.ltb_spec (now_ms s') d); [|done]. destruct (Z.ltb_spec (now_ms s) d); [done|lia].
Defined.

#[export] Instance store_data : RedisData store.
Proof.
  refine {| set_ex := λ k v ttl, store_put k v (ttl * 1000); delete_key := store_del |}.
  - intros s k v ttl k' Ht. apply store_value_put. lia.
  - intros s k k'. apply store_value_del.
Defined.

(** ** TTL jitter *)

Lemma Qtrunc_nonneg q : (0 <= q)%Q → 0 <= Qtrunc q.
Proof.
  unfold Qtrunc, Qle. cbn. rewrite Z.mul_1_r. intros. apply Z.quot_pos; lia.
Qed.

(** A jittered TTL is never lengthened and never becomes zero: for a
    positive TTL it lies between 1 and the TTL, whatever ratio, cap and random
    draw; a TTL that is not positive, or a ratio that is not, changes nothing. *)
Lemma jitter_in_range u ttl ratio cap :
  (0 <= u <= 1)%Q →
  (match cap with Some m => 0 <= m | None => True end) →
  (0 < ttl → 1 <= ttl_with_jitter u ttl ratio cap <= ttl) ∧
  (ttl <= 0 → ttl_with_jitter u ttl ratio cap = ttl) ∧
  ((ratio <= 0)%Q → ttl_with_jitter u ttl ratio cap = ttl).
Proof.
  intros Hu Hcap. unfold ttl_with_jitter. split_and!.
  - intros Ht. destruct (Z.leb_spec ttl 0); [lia|].
    destruct (Qle_bool ratio 0); [lia|].
    set (lim := match cap with Some _ => _ | None => _ end).
    assert (0 <= lim)%Q as Hlim.
    { assert (0 <= Qmaxb 0 (inject_Z ttl * ratio))%Q as H0.
      { unfold Qmaxb. qcase (Qle_bool 0 (inject_Z ttl * ratio)); [done|lra]. }
      unfold lim. destruct cap as [m|]; [|done]. unfold Qminb.
      destruct (Qle_bool _ _); [done|]. by rewrite Zle_Qle in Hcap. }
    split; [lia|]. apply Z.max_lub; [lia|]. apply Qtrunc_le_Z; [|lia].
    unfold uniform0. assert (0 <= lim * u)%Q by (apply Qmult_le_0_compat; lra). lra.
  - intros Ht. destruct (Z.leb_spec ttl 0); [done|lia].
  - intros Hr. destruct (Z.leb_spec ttl 0); [done|].
    qcase (Qle_bool ratio 0); [done|lra].
Qed.
Lemma jitter_in_range_witness :
  (0 < 300 → 1 <= ttl_with_jitter (1 # 2) 300 (1 # 10) (Some 20) <= 300) ∧
  (300 <= 0 → ttl_with_jitter (1 # 2) 300 (1 # 10) (Some 20) = 300) ∧
  ((1 # 10 <= 0)%Q → ttl_with_jitter (1 # 2) 300 (1 # 10) (Some 20) = 300).
Proof. apply jitter_in_range; [split; vm_compute; discriminate|lia]. Defined.

(** ** Keys *)

Definition clean (sep : ascii) (s : string) : Prop :=
  s ≠ EmptyString ∧ sall (λ c, negb (is_space c)) s = true ∧
  sall (λ c, negb (bool_decide (c = sep))) s = true.
Lemma clean_part_clean sep s : clean sep s → clean_part (String sep EmptyString) s = Some s.
Proof.
  intros (Hne & Hsp & Hsep). unfold clean_part, strip. rewrite strip_sall by done.
  destruct (is_empty s) eqn:E; [by apply is_empty_true in E|]. f_equal.
  unfold strip_chars. apply strip_sall. eapply sall_mono; [|exact Hsep].
  intros c. cbn. by rewrite orb_false_r.
Qed.

(** A key built from clean parts (no blanks, no separator) splits back
    into the namespace and the parts, so different parts never share a key;
    blank parts are left out. *)
Lemma key_roundtrip sep pre parts :
  clean sep pre → Forall (clean sep) parts →
  let ks := {| prefix := pre; separator := String sep EmptyString |} in
  split sep (key ks parts) = pre :: parts ∧
  ∀ blank, sall is_space blank = true → key ks (blank :: parts) = key ks parts.
Proof.
  intros Hp Hparts ks. unfold key. cbn [separator prefix ks].
  assert (omap (clean_part (String sep EmptyString)) parts = parts) as Ho.
  { induction Hparts as [|p ps Hc _ IH]; cbn; [done|]. by rewrite clean_part_clean, IH. }
  split.
  - cbn [omap list_omap]. rewrite clean_part_clean by done. change (list_omap _ _ ?f) with (omap f).
    rewrite Ho. apply split_join; [done|]. intros w [->|Hw]%elem_of_cons; [apply Hp|].
    rewrite Forall_forall in Hparts. by apply Hparts.
  - intros blank Hb. cbn. rewrite (clean_part_clean _ pre) by done.
    unfold clean_part at 1. unfold strip. by rewrite strip_sall_all.
Qed.
Lemma key_roundtrip_witness :
  let ks := {| prefix := "auth"; separator := ":" |} in
  split ":" (key ks ["user"; "42"]%string) = ["auth"; "user"; "42"]%string ∧
  ∀ blank, sall is_space blank = true → key ks (blank :: ["user"; "42"]%string) = key ks ["user"; "42"]%string.
Proof.
  apply key_roundtrip; [by split_and!|]. repeat constructor; done.
Defined.

(** ** The lock *)

Inductive op := op_acquire (f : fault) | op_release (f : fault) | op_extend (f : fault) (ttl : option Q).

Lemma ttl_ms_pos t : 0 < ttl_ms t.
Proof. unfold ttl_ms. lia. Qed.

Section lock_props.
Context {Srv : Type} `{RedisServer Srv}.

Definition run_op (o : op) : SE (RedisLock * Srv) RedisError bool :=
  match o with op_acquire f => acquire f | op_release f => release f | op_extend f t => extend f t end.

(** What others do to the server: operations of any lock object in any
    state, and time during which [k] does not expire. *)
Inductive others (k : string) : Srv → list (RedisLock * op * result RedisError bool) → Srv → Prop :=
  | others_nil s : others k s [] s
  | others_op s1 m o r m' s2 tr s3 :
      run_op o (m, s1) = (r, (m', s2)) → others k s2 tr s3 → others k s1 ((m, o, r) :: tr) s3
  | others_time s1 s2 tr s3 :
      elapse s1 s2 → value_of s2 k = value_of s1 k → others k s2 tr s3 → others k s1 tr s3.

Lemma acquire_cases f l s :
  (∃ l', acquire f (l, s) = (Raise connection_error, (l', s))) ∨
  (∃ s' r l', acquire f (l, s) = (r, (l', s')) ∧ value_of s (lock_key l) = None ∧ r ≠ Ok false ∧
     token l' = token l ∧ lock_key l' = lock_key l ∧ (r = Ok true → held l' = true) ∧
     ∀ k, value_of s' k = if decide (lock_key l = k) then Some (token l) else value_of s k) ∨
  (∃ r l' v, acquire f (l, s) = (r, (l', s)) ∧ value_of s (lock_key l) = Some v ∧ r ≠ Ok true).
Proof.
  pose proof (set_nx_px_ok s (lock_key l) (token l) _ (ttl_ms_pos (ttl_seconds l))) as Hs.
  unfold acquire, command. destruct f; [| left; eauto|].
  - destruct (value_of s (lock_key l)) as [v|] eqn:Hv.
    + rewrite Hs. right. right. by do 3 eexists.
    + destruct Hs as (s' & -> & Hk). right. left. do 3 eexists. split_and!; done.
  - destruct (value_of s (lock_key l)) as [v|] eqn:Hv.
    + rewrite Hs. right. right. by do 3 eexists.
    + destruct Hs as (s' & -> & Hk). right. left. do 3 eexists. split_and!; done.
Qed.

(** An operation touches its own key only. *)
Lemma run_op_elsewhere k o m s :
  lock_key m ≠ k →
  value_of (run_op o (m, s)).2.2 k = value_of s k ∧
  lock_key (run_op o (m, s)).2.1 = lock_key m.
Proof.
  intros Hne. destruct o as [f|f|f t]; cbn [run_op].
  - unfold acquire, command.
    pose proof (set_nx_px_ok s (lock_key m) (token m) _ (ttl_ms_pos (ttl_seconds m))) as Hs.
    destruct (value_of s (lock_key m)) as [v|].
    + rewrite Hs. by destruct f.
    + destruct Hs as (s' & -> & Hk). destruct f; cbn; rewrite ?Hk, ?decide_False by done; done.
  - unfold release, command. destruct (held m); cbn; [|done].
    pose proof (compare_and_delete_ok s (lock_key m) (token m)) as Hd.
    case_decide; [destruct Hd as (s1 & -> & Hk)|rewrite Hd]; destruct f; cbn;
      rewrite ?Hk, ?decide_False by done; done.
  - unfold extend, command. destruct (held m); cbn; [|done].
    pose proof (compare_and_pexpire_ok s (lock_key m) (token m) _
      (ttl_ms_pos (default (ttl_seconds m) t))) as Hd.
    case_decide; [destruct Hd as (s1 & -> & Hk)|rewrite Hd]; destruct f; cbn; rewrite ?Hk; done.
Qed.

(** An operation of another token leaves a present value of [k] alone. *)
Lemma run_op_other k v o m s r m' s' :
  value_of s k = Some v → token m ≠ v → run_op o (m, s) = (r, (m', s')) →
  value_of s' k = Some v ∧ (∀ f, o = op_acquire f → lock_key m = k → r ≠ Ok true).
Proof.
  intros Hv Hne Hr. destruct o as [f|f|f t]; cbn [run_op] in Hr.
  - destruct (acquire_cases f m s) as [(l1 & Ha)|[(s1 & r1 & l1 & Ha & Hnone & _ & _ & _ & _ & Hk)|
      (r1 & l1 & v1 & Ha & Hsome & Hno)]]; rewrite Ha in Hr; injection Hr as <- <- <-.
    + split; [done|]. intros ? _ _ ?. done.
    + rewrite Hk. split; [|congruence]. case_decide; [congruence|done].
    + split; [done|]. intros ? _ _. done.
  - split; [|done]. revert Hr. unfold release, command. destruct (held m); cbn; [|intros [= _ _ <-]; done].
    pose proof (compare_and_delete_ok s (lock_key m) (token m)) as Hd.
    case_decide as Hm; [destruct Hd as (s1 & Hd & Hk)|]; rewrite ?Hd; destruct f;
      intros [= _ _ <-]; try done; rewrite Hk; case_decide; congruence.
  - split; [|done]. revert Hr. unfold extend, command. destruct (held m); cbn; [|intros [= _ _ <-]; done].
    pose proof (compare_and_pexpire_ok s (lock_key m) (token m) _
      (ttl_ms_pos (default (ttl_seconds m) t))) as Hd.
    case_decide as Hm; [destruct Hd as (s1 & Hd & Hk)|]; rewrite ?Hd; destruct f;
      intros [= _ _ <-]; try done; by rewrite Hk.
Qed.

Lemma others_keep k v s tr s' :
  value_of s k = Some v → (∀ m o r, (m, o, r) ∈ tr → token m ≠ v) → others k s tr s' →
  value_of s' k = Some v ∧
  ∀ m f r, (m, op_acquire f, r) ∈ tr → lock_key m = k → r ≠ Ok true.
Proof.
  intros Hv Htok Ho. revert Hv Htok.
  induction Ho as [|s1 m o r m' s2 tr s3 Hr _ IH|s1 s2 tr s3 He Hk _ IH]; intros Hv Htok.
  - split; [done|]. by intros ? ? ? ?%elem_of_nil.
  - destruct (run_op_other k v o m s1 r m' s2) as [Hv2 Hno]; [done| |done|].
    { apply (Htok m o r). by left. }
    destruct IH as [Hv3 Hrest]; [done|intros; eapply Htok; by right|].
    split; [done|]. intros m1 f r1. rewrite elem_of_cons. intros [[= <- <- <-]|Hin] Hkey; eauto.
  - rewrite Hk in IH. auto.
Qed.

(** C7: the lock excludes.  After a successful [acquire], whatever other
    lock objects (each with its own token) do on the server, including
    commands that fail half way, none of them acquires the key until it
    expires; the owner still holds it, its [extend] succeeds, and its
    [release] succeeds and frees the key. *)
Theorem lock_excludes l s l1 s1 tr s2 :
  acquire no_fault (l, s) = (Ok true, (l1, s1)) →
  others (lock_key l) s1 tr s2 →
  (∀ m o r, (m, o, r) ∈ tr → token m ≠ token l) →
  held l1 = true ∧
  (∀ m f r, (m, op_acquire f, r) ∈ tr → lock_key m = lock_key l → r ≠ Ok true) ∧
  (extend no_fault None (l1, s2)).1 = Ok true ∧
  ∃ l3 s3, release no_fault (l1, s2) = (Ok true, (l3, s3)) ∧ held l3 = false ∧
    value_of s3 (lock_key l) = None.
Proof.
  intros Ha Ho Htok.
  destruct (acquire_cases no_fault l s) as [(l' & Hc)|[(s' & r' & l' & Hc & _ & _ & Ht & Hlk & Hh & Hk)|
    (r' & l' & v & Hc & _ & Hno)]]; rewrite Hc in Ha; [done| |congruence].
  injection Ha as -> -> ->.
  assert (value_of s1 (lock_key l) = Some (token l)) as Hv1 by (rewrite Hk, decide_True; done).
  destruct (others_keep _ _ _ _ _ Hv1 Htok Ho) as [Hv2 Hexcl].
  split_and!; [auto|done| |].
  - unfold extend, command. rewrite Hh, Ht, Hlk by done. cbn.
    pose proof (compare_and_pexpire_ok s2 (lock_key l) (token l) _ (ttl_ms_pos (ttl_seconds l1))) as Hx.
    rewrite decide_True in Hx by done. destruct Hx as (s3 & -> & _). done.
  - unfold release, command. rewrite Hh, Ht, Hlk by done. cbn.
    pose proof (compare_and_delete_ok s2 (lock_key l) (token l)) as Hx.
    rewrite decide_True in Hx by done. destruct Hx as (s3 & -> & Hk3). do 2 eexists.
    split_and!; [done|done|]. by rewrite Hk3, decide_True.
Qed.

Lemma acquire_loop_returns clock faults others deadline max_delay k :
  (deadline <= clock (S k))%Q →
  ∀ fuel delay n st, (n <= k)%nat → (k - n < fuel)%nat →
  ∃ r st' slept,
    acquire_loop fuel clock faults others deadline delay max_delay n st = Some (r, st', slept) ∧
    (length slept <= k - n)%nat ∧
    (r = Ok true → value_of st'.2 (lock_key st'.1) = Some (token st'.1)).
Proof.
  intros Hk. induction fuel as [|fuel IH]; intros delay n [l s] Hn Hf; [lia|].
  cbn [acquire_loop].
  assert (∀ r l1 s1, acquire (faults n) (l, s) = (r, (l1, s1)) → r = Ok true →
    value_of s1 (lock_key l1) = Some (token l1)) as Hacq.
  { intros r l1 s1 Ha ->.
    destruct (acquire_cases (faults n) l s) as [(l' & Hc)|[(s' & r' & l' & Hc & _ & _ & Ht & Hlk & Hh & Hv)|
      (r' & l' & v & Hc & _ & Hno)]]; rewrite Hc in Ha; [done| |congruence].
    injection Ha as -> -> ->. by rewrite Hv, Ht, Hlk, decide_True. }
  destruct (acquire (faults n) (l, s)) as [[[]|e] [l1 s1]] eqn:Ha.
  - do 3 eexists. split; [done|]. split; [cbn; lia|]. eauto.
  - destruct (Qle_bool deadline (clock (S n))) eqn:Hq.
    + do 3 eexists. split; [done|]. split; [cbn; lia|done].
    + apply Qle_bool_false in Hq. destruct (decide (n = k)) as [->|Hne]; [lra|].
      destruct (IH (Qminb max_delay (delay * (3 # 2))) (S n) (l1, others n s1)) as
        (r & st' & slept & -> & Hlen & Hv); [lia..|].
      do 3 eexists. split; [done|]. split; [cbn; lia|done].
  - do 3 eexists. split; [done|]. split; [cbn; lia|done].
Qed.

(** Waiting for a lock ends: once the clock has passed the deadline at
    some reading, the call has returned, after at most that many sleeps;
    and when it returns true the key holds this lock's token. *)
Lemma acquire_with_wait_returns clock faults others timeout initial max_delay k st :
  (clock 0%nat + Qmaxb 0 timeout <= clock (S k))%Q →
  ∃ r st' slept,
    acquire_with_wait (S k) clock faults others timeout initial max_delay st = Some (r, st', slept) ∧
    (length slept <= k)%nat ∧
    (r = Ok true → value_of st'.2 (lock_key st'.1) = Some (token st'.1)).
Proof.
  intros Hk. unfold acquire_with_wait.
  destruct (acquire_loop_returns clock faults others _ max_delay k Hk (S k) (Qmaxb 0 initial) 0 st)
    as (r & st' & slept & Heq & Hlen & Hv); [lia..|].
  do 3 eexists. split; [exact Heq|]. split; [lia|done].
Qed.

(** What one turn of the renewal loop can do.  While the server still
    holds the lease's token, the lease stays held and the loop goes on; when
    it does not, the lease is lost, the loop ends and [on_lost] is scheduled
    once; but when the command raises, the loop ends with the lease still
    reported as held, [on_lost] never called and no later turn: nothing
    renews the key any more. *)
Lemma renewal_outcomes l s :
  task l = Some running → held (lease_lock l) = true → lost l = false →
  let k := lock_key (lease_lock l) in let v := token (lease_lock l) in
  (value_of s k = Some v → ∃ l' s', renew_turn no_fault (l, s) = (l', s') ∧
     lease_held l' = true ∧ task l' = Some running ∧ ∀ k, value_of s' k = value_of s k) ∧
  (value_of s k ≠ Some v → ∃ l', renew_turn no_fault (l, s) = (l', s) ∧
     lease_held l' = false ∧ lost l' = true ∧ task l' = Some (ended None) ∧
     on_lost_calls l' = (if has_on_lost l then 1 + on_lost_calls l else on_lost_calls l)%nat) ∧
  (∀ f, f ≠ no_fault → ∃ l' s', renew_turn f (l, s) = (l', s') ∧
     lease_held l' = true ∧ on_lost_calls l' = on_lost_calls l ∧
     task l' = Some (ended (Some connection_error)) ∧
     ∀ g s2, renew_turn g (l', s2) = (l', s2)).
Proof.
  intros Ht Hh Hl k v.
  pose proof (compare_and_pexpire_ok s k v _ (ttl_ms_pos (lease_ttl l))) as Hx.
  unfold renew_turn, extend, command. rewrite Ht, Hh. cbn. fold k v.
  split_and!.
  - intros Hv. rewrite decide_True in Hx by done. destruct Hx as (s' & -> & Hk).
    do 2 eexists. split; [done|]. cbn. unfold lease_held. cbn. by rewrite Hh, Hl.
  - intros Hv. rewrite decide_False in Hx by done. rewrite Hx.
    eexists. split; [done|]. cbn. unfold lease_held. cbn. done.
  - intros f Hf. destruct f; [done| |];
      (do 2 eexists; split; [done|]; unfold lease_held; cbn; by rewrite Hh, Hl).
Qed.
End lock_props.

(** ** Witnesses *)

Definition demo_lock (t : string) : RedisLock := new_lock "jobs:leader" 30 t.
Definition empty_store : store := {| now_ms := 0; data := ∅ |}.
Definition after_acquire (l : RedisLock) (s : store) : RedisLock * store := (acquire no_fault (l, s)).2.
Definition demo_l1 : RedisLock := (after_acquire (demo_lock "a") empty_store).1.
Definition demo_s1 : store := (after_acquire (demo_lock "a") empty_store).2.
Definition demo_other : RedisLock := demo_lock "b".

Lemma lock_excludes_witness :
  held demo_l1 = true ∧
  (∀ m f r, (m, op_acquire f, r) ∈ [(demo_other, op_acquire fails_after, Raise connection_error)] →
     lock_key m = lock_key (demo_lock "a") → r ≠ Ok true) ∧
  (extend no_fault None (demo_l1, demo_s1)).1 = Ok true ∧
  ∃ l3 s3, release no_fault (demo_l1, demo_s1) = (Ok true, (l3, s3)) ∧ held l3 = false ∧
    value_of s3 (lock_key (demo_lock "a")) = None.
Proof.
  apply (lock_excludes (demo_lock "a") empty_store demo_l1 demo_s1
    [(demo_other, op_acquire fails_after, Raise connection_error)] demo_s1).
  - reflexivity.
  - eapply (others_op _ _ _ _ _ demo_other demo_s1); [reflexivity|constructor].
  - intros m o r [= -> -> ->]%list_elem_of_singleton. discriminate.
Defined.
Lemma acquire_with_wait_returns_witness :
  ∃ r st' slept,
    acquire_with_wait 4 (λ n, inject_Z (Z.of_nat n)) (λ _, no_fault) (λ _ s, s) 2 (1 # 20) (1 # 2)
      (demo_other, demo_s1) = Some (r, st', slept) ∧
    (length slept <= 3)%nat ∧ (r = Ok true → value_of st'.2 (lock_key st'.1) = Some (token st'.1)).
Proof. apply (acquire_with_wait_returns (Srv := store)). vm_compute. discriminate. Defined.

Definition demo_lease : LeaderLease :=
  match lease_acquire no_fault (new_lease "jobs:leader" 30 None true "a", empty_store) with
  | (_, (l, _)) => l end.
Lemma renewal_outcomes_witness :
  let l := demo_lease in let s := demo_s1 in
  let k := lock_key (lease_lock l) in let v := token (lease_lock l) in
  (value_of s k = Some v → ∃ l' s', renew_turn no_fault (l, s) = (l', s') ∧
     lease_held l' = true ∧ task l' = Some running ∧ ∀ k, value_of s' k = value_of s k) ∧
  (value_of s k ≠ Some v → ∃ l', renew_turn no_fault (l, s) = (l', s) ∧
     lease_held l' = false ∧ lost l' = true ∧ task l' = Some (ended None) ∧
     on_lost_calls l' = (if has_on_lost l then 1 + on_lost_calls l else on_lost_calls l)%nat) ∧
  (∀ f, f ≠ no_fault → ∃ l' s', renew_turn f (l, s) = (l', s') ∧
     lease_held l' = true ∧ on_lost_calls l' = on_lost_calls l ∧
     task l' = Some (ended (Some connection_error)) ∧
     ∀ g s2, renew_turn g (l', s2) = (l', s2)).
Proof. apply (renewal_outcomes demo_lease demo_s1); reflexivity. Defined.

(** ** [RedisClient] *)

Module RedisClient.
Inductive ClientError := not_connected | ping_failed | close_failed.
(** [_client]: the connection opened, identified by a number; [opened] and
    [closed] are the connections made and closed so far. *)
Record Client := { current : option nat; opened : nat; closed : list nat }.
Definition init : Client := {| current := None; opened := 0; closed := [] |}.
Definition client : SE Client ClientError nat := λ c,
  match current c with Some n => (Ok n, c) | None => (Raise not_connected, c) end.
(** [ping_ok]: whether the new connection answers its ping; [close_ok]:
    whether closing it succeeds. *)
Definition connect (ping_ok close_ok : bool) : SE Client ClientError nat := λ c,
  match current c with
  | Some n => (Ok n, c)
  | None =>
      let n := opened c in
      if ping_ok then (Ok n, {| current := Some n; opened := S n; closed := closed c |})
      else if close_ok
        then (Raise ping_failed, {| current := None; opened := S n; closed := n :: closed c |})
        else (Raise close_failed, {| current := None; opened := S n; closed := closed c |})
  end.
Definition aclose (close_ok : bool) : SE Client ClientError unit := λ c,
  match current c with
  | None => (Ok tt, c)
  | Some n =>
      if close_ok then (Ok tt, {| current := None; opened := opened c; closed := n :: closed c |})
      else (Raise close_failed, {| current := None; opened := opened c; closed := closed c |})
  end.
End RedisClient.
