(* ===== verification/LookupCache.v ===== *)
(** * state/cache.py: [LookupCache], and state/async_singleton.py

    Three layers.  [Local]: the ordered dictionary of the in-process cache,
    with its expiry and its eviction.  [Load]: one run of the methods against
    Redis, where every clock reading, random draw, command outcome and
    suspension is indexed by a step counter; at a suspension the other tasks
    of the process and the other users of the server act ([others]).
    [Inflight]: the coalescing of concurrent loads of one key. *)

From S2P Require Import Prelude PyStr PyDict Redis.

Inductive CacheMode := LOCAL | REDIS | HYBRID.
Inductive RedisFailureMode := LOCAL_FALLBACK | BYPASS | RAISE.
#[export] Instance CacheMode_eq_dec : EqDecision CacheMode.
Proof. solve_decision. Defined.
#[export] Instance RedisFailureMode_eq_dec : EqDecision RedisFailureMode.
Proof. solve_decision. Defined.

(** ** The in-process layer *)

Module Local.
Section local.
Context {K V : Type} `{EqDecision K}.
Implicit Types (d : list (K * (V * Q))) (k : K) (v : V).

(** [_peek_local] past its first guard *)
Definition peek (now : Q) d k : option V :=
  match dget d k with
  | None => None
  | Some (v, expires_at) => if Qle_bool expires_at now then None else Some v
  end.
(** [_get_local_unlocked] past its first guard *)
Definition get_unlocked (now : Q) d k : option V * list (K * (V * Q)) :=
  match dget d k with
  | None => (None, d)
  | Some (v, expires_at) =>
      if Qle_bool expires_at now then (None, ddel d k) else (Some v, move_to_end d k)
  end.
(** the locked part of [_store_local] *)
Definition store (max_entries : Z) d k v (expires_at : Q) : list (K * (V * Q)) :=
  shrink (Z.to_nat max_entries) (move_to_end (dset d k (v, expires_at)) k).

(** What a caller can do to the layer. *)
Inductive op :=
  | op_get (now : Q) (k : K)
  | op_store (k : K) (v : V) (expires_at : Q)
  | op_invalidate (k : K)
  | op_clear.
Definition run_op (max_entries : Z) d (o : op) : list (K * (V * Q)) :=
  match o with
  | op_get now k => (get_unlocked now d k).2
  | op_store k v e => store max_entries d k v e
  | op_invalidate k => ddel d k
  | op_clear => []
  end.

(** The order of use, least recently used first, after a use of [k]. *)
Definition used k (order : list K) : list K :=
  List.filter (λ x, negb (bool_decide (x = k))) order ++ [k].

Lemma store_eq n d k v e :
  store n d k v e = shrink (Z.to_nat n) (ddel d k ++ [(k, (v, e))]).
Proof. unfold store. by rewrite move_to_end_dset. Qed.
Lemma wf_store n d k v e : wf d → wf (store n d k v e).
Proof. intros. unfold store. auto. Qed.
Lemma wf_run_op n d o : wf d → wf (run_op n d o).
Proof.
  intros Hd. destruct o as [now k| | |]; cbn; auto using wf_store.
  unfold get_unlocked. destruct (dget d k) as [[v e]|]; [|done].
  destruct (Qle_bool e now); cbn; auto.
Qed.
Lemma length_move_to_end d k : wf d → length (move_to_end d k) = length d.
Proof.
  intros Hd. unfold move_to_end. destruct (dget d k) eqn:Hk; [|done].
  rewrite length_app. cbn. erewrite (length_ddel d k) by done. lia.
Qed.
Lemma length_run_op n d o :
  0 < n → wf d → Z.of_nat (length d) <= n → Z.of_nat (length (run_op n d o)) <= n.
Proof.
  intros Hn Hd Hl. destruct o as [now k|k v e|k|]; cbn.
  - unfold get_unlocked. destruct (dget d k) as [[v e]|]; [|done].
    destruct (Qle_bool e now); cbn.
    + pose proof (length_ddel_le d k). lia.
    + by rewrite length_move_to_end.
  - unfold store. rewrite length_shrink. lia.
  - pose proof (length_ddel_le d k). lia.
  - lia.
Qed.
Lemma run_ops_inv n ops d :
  0 < n → wf d → Z.of_nat (length d) <= n →
  wf (foldl (run_op n) d ops) ∧ Z.of_nat (length (foldl (run_op n) d ops)) <= n.
Proof.
  revert d. induction ops as [|o ops IH]; intros d Hn Hd Hl; cbn; [done|].
  apply IH; [done|by apply wf_run_op|by apply length_run_op].
Qed.
Lemma get_unlocked_peek now d k : (get_unlocked now d k).1 = peek now d k.
Proof. unfold get_unlocked, peek. by destruct (dget d k) as [[v e]|]; [destruct (Qle_bool _ _)|]. Qed.

Lemma peek_store n d k v e now k' :
  0 < n → wf d →
  (k' = k → peek now (store n d k v e) k' = if Qle_bool e now then None else Some v) ∧
  (k' ≠ k → ∀ v', peek now (store n d k v e) k' = Some v' → peek now d k' = Some v').
Proof.
  intros Hn Hd.
  assert (Hwf : wf (ddel d k ++ [(k, (v, e))])).
  { apply wf_app_fresh; [auto|by apply ddel_not_key]. }
  rewrite store_eq. unfold peek. split.
  - intros ->. rewrite shrink_app_last by (done || lia). done.
  - intros Hk v'. destruct (dget (shrink _ _) k') as [[v2 e2]|] eqn:Hg; [|done].
    apply dget_sublist with (d := ddel d k ++ [(k, (v, e))]) in Hg; [|done|apply sublist_drop].
    rewrite dget_app, dget_ddel_ne in Hg by done.
    destruct (dget d k') as [p|]; [|cbn in Hg; by rewrite decide_False in Hg].
    by simplify_eq.
Qed.
End local.
Arguments op : clear implicits.

End Local.

(** ** The configuration *)

Inductive ConfigError := redis_client_required | redis_keyspace_required
  | redis_ttl_required | local_fallback_needs_local.

Record LookupCache (V : Type) := {
  mode : CacheMode;
  local_ttl_seconds : Q; empty_ttl_seconds : Q; is_empty_value : V → bool;
  max_entries : Z;
  local_ttl_jitter_ratio : Q; local_ttl_jitter_max_seconds : option Q;
  has_redis_client : bool; redis_keyspace : option Keyspace;
  redis_ttl_seconds : option Z; redis_empty_ttl_seconds : option Z;
  redis_lock_ttl_seconds : Q; redis_wait_timeout_seconds : Q;
  redis_ttl_jitter_ratio : Q; redis_ttl_jitter_max_seconds : option Z;
  redis_failure_mode : RedisFailureMode }.
Arguments mode {V}. Arguments local_ttl_seconds {V}. Arguments empty_ttl_seconds {V}.
Arguments is_empty_value {V}. Arguments max_entries {V}. Arguments local_ttl_jitter_ratio {V}.
Arguments local_ttl_jitter_max_seconds {V}. Arguments has_redis_client {V}.
Arguments redis_keyspace {V}. Arguments redis_ttl_seconds {V}.
Arguments redis_empty_ttl_seconds {V}. Arguments redis_lock_ttl_seconds {V}.
Arguments redis_wait_timeout_seconds {V}. Arguments redis_ttl_jitter_ratio {V}.
Arguments redis_ttl_jitter_max_seconds {V}. Arguments redis_failure_mode {V}.

Definition local_enabled {V} (c : LookupCache V) : bool :=
  bool_decide (mode c = LOCAL ∨ mode c = HYBRID) && Qltb 0 (local_ttl_seconds c).
Definition redis_enabled {V} (c : LookupCache V) : bool :=
  bool_decide (mode c = REDIS ∨ mode c = HYBRID).
Definition raising {V} (c : LookupCache V) : bool :=
  bool_decide (redis_failure_mode c = RAISE).

(** [__init__]: the arguments are normalised, then the combination checked. *)
Definition normalise {V} (a : LookupCache V) (empty_ttl : option Q) (is_empty : option (V → bool))
    : LookupCache V :=
  let local_ttl := Qmaxb 0 (local_ttl_seconds a) in
  let redis_ttl := Z.max 0 <$> redis_ttl_seconds a in
  {| mode := mode a;
     local_ttl_seconds := local_ttl;
     empty_ttl_seconds := match empty_ttl with Some e => Qmaxb 0 e | None => local_ttl end;
     is_empty_value := default (λ _, false) is_empty;
     max_entries := Z.max 1 (max_entries a);
     local_ttl_jitter_ratio := Qmaxb 0 (local_ttl_jitter_ratio a);
     local_ttl_jitter_max_seconds := Qmaxb 0 <$> local_ttl_jitter_max_seconds a;
     has_redis_client := has_redis_client a;
     redis_keyspace := redis_keyspace a;
     redis_ttl_seconds := redis_ttl;
     redis_empty_ttl_seconds :=
       match redis_empty_ttl_seconds a with Some t => Some (Z.max 0 t) | None => redis_ttl end;
     redis_lock_ttl_seconds := Qmaxb 1 (redis_lock_ttl_seconds a);
     redis_wait_timeout_seconds := Qmaxb 0 (redis_wait_timeout_seconds a);
     redis_ttl_jitter_ratio := Qmaxb 0 (redis_ttl_jitter_ratio a);
     redis_ttl_jitter_max_seconds := redis_ttl_jitter_max_seconds a;
     redis_failure_mode := redis_failure_mode a |}.
Definition init {V} (a : LookupCache V) (empty_ttl : option Q) (is_empty : option (V → bool))
    : result ConfigError (LookupCache V) :=
  let c := normalise a empty_ttl is_empty in
  _ ← raise_if (redis_enabled c && negb (has_redis_client c)) redis_client_required;
  _ ← raise_if (redis_enabled c && negb (bool_decide (is_Some (redis_keyspace c)))) redis_keyspace_required;
  _ ← raise_if (redis_enabled c && negb (bool_decide (is_Some (redis_ttl_seconds c)))) redis_ttl_required;
  _ ← raise_if (bool_decide (redis_failure_mode c = LOCAL_FALLBACK)
                && negb (local_enabled c) && redis_enabled c) local_fallback_needs_local;
  Ok c.

Lemma init_keyspace {V} (a : LookupCache V) empty_ttl is_empty c :
  init a empty_ttl is_empty = Ok c → redis_enabled c = true → ∃ ks, redis_keyspace c = Some ks.
Proof.
  unfold init. set (c0 := normalise a empty_ttl is_empty). intros Hi Hen.
  assert (Hc : c0 = c ∧ redis_enabled c0 && negb (bool_decide (is_Some (redis_keyspace c0))) = false).
  { do 4 (apply result_bind_Ok in Hi as (? & ?%raise_if_Ok & Hi)). by simplify_eq. }
  destruct Hc as [-> Hks]. rewrite Hen in Hks. bprop. destruct Hks as [|[ks Hks]]; [done|eauto].
Qed.

(** [_ttl_with_jitter_seconds]; [u] is the random draw in [[0, 1]] *)
Definition ttl_with_jitter_seconds (u : Q) (ttl_seconds ratio : Q) (max_jitter_seconds : option Q) : Q :=
  if Qle_bool ttl_seconds 0 then ttl_seconds
  else if Qle_bool ratio 0 then ttl_seconds
  else
    let jitter_limit := Qmaxb 0 (ttl_seconds * ratio) in
    let jitter_limit := match max_jitter_seconds with
                        | Some m => Qminb jitter_limit m
                        | None => jitter_limit
                        end in
    let jitter := uniform0 u jitter_limit in
    Qmaxb 0 (ttl_seconds - jitter).
Definition effective_local_ttl {V} (c : LookupCache V) (u : Q) (value : V) : Q :=
  let ttl := if is_empty_value c value then empty_ttl_seconds c else local_ttl_seconds c in
  ttl_with_jitter_seconds u ttl (local_ttl_jitter_ratio c) (local_ttl_jitter_max_seconds c).
Definition effective_redis_ttl {V} (c : LookupCache V) (u : Q) (value : V) : Z :=
  match (if is_empty_value c value then redis_empty_ttl_seconds c else redis_ttl_seconds c) with
  | None => 0
  | Some ttl => ttl_with_jitter u ttl (redis_ttl_jitter_ratio c) (redis_ttl_jitter_max_seconds c)
  end.

(** ** One run of the methods *)

Module Load.
Inductive CacheError (Exn : Type) :=
  | redis_failed (e : RedisError)
  | decode_failed | encode_failed
  | cache_unavailable (key : string)
  | keyspace_not_configured
  | loader_raised (e : Exn)
  | out_of_fuel.
Arguments redis_failed {Exn} e.
Arguments decode_failed {Exn}.
Arguments encode_failed {Exn}.
Arguments cache_unavailable {Exn} key.
Arguments keyspace_not_configured {Exn}.
Arguments loader_raised {Exn} e.
Arguments out_of_fuel {Exn}.

Section load.
Context {K V Exn Srv : Type} `{EqDecision K} `{RedisData Srv}.
Context (encode : V → option string) (decode : string → option V) (key_serializer : K → string).
Context (c : LookupCache V).

Record World := { local : list (K * (V * Q)); srv : Srv; tick : nat }.

(** The environment, indexed by the step counter: the monotonic clock, random
    draws, lock tokens, what becomes of a Redis command, and what the rest of
    the world does while this task is suspended. *)
Record Env := {
  clock : nat → Q; unif : nat → Q; tokens : nat → string; faults : nat → fault;
  others : nat → list (K * (V * Q)) * Srv → list (K * (V * Q)) * Srv }.
Context (env : Env).
Abbreviation M := (SE World (CacheError Exn)).

Definition draw {A} (f : nat → A) : M A := λ w,
  (Ok (f (tick w)), {| local := local w; srv := srv w; tick := S (tick w) |}).
Definition monotonic : M Q := draw (clock env).
Definition suspend : M unit := λ w,
  let '(l, s) := others env (tick w) (local w, srv w) in
  (Ok tt, {| local := l; srv := s; tick := S (tick w) |}).
Definition redis {A} (run : Srv → A * Srv) : M A :=
  (do* suspend in λ w,
   let '(r, s) := command (faults env (tick w)) run (srv w) in
   (match r with Ok a => Ok a | Raise e => Raise (redis_failed e) end,
    {| local := local w; srv := s; tick := S (tick w) |}))%se.
Definition update_local (f : list (K * (V * Q)) → list (K * (V * Q))) : M unit := λ w,
  (Ok tt, {| local := f (local w); srv := srv w; tick := tick w |}).
Definition read_local {A} (f : list (K * (V * Q)) → A) : M A := λ w, (Ok (f (local w)), w).

Definition key_of (ks : option Keyspace) (parts : list string) : result (CacheError Exn) string :=
  match ks with
  | None => Raise keyspace_not_configured
  | Some ks => Ok (key ks parts)
  end.
Definition redis_key (k : K) : result (CacheError Exn) string :=
  key_of (redis_keyspace c) [key_serializer k].
Definition redis_lock_key (k : K) : result (CacheError Exn) string :=
  key_of (redis_keyspace c) [key_serializer k; "lock"%string].

Definition peek_local (k : K) : M (option V) :=
  (if negb (local_enabled c) then se_ret None
   else let* now := monotonic in read_local (λ d, Local.peek now d k))%se.
Definition get_local_unlocked (k : K) : M (option V) :=
  (if negb (local_enabled c) then se_ret None
   else let* now := monotonic in
        let* cached := read_local (λ d, (Local.get_unlocked now d k).1) in
        do* update_local (λ d, (Local.get_unlocked now d k).2) in
        se_ret cached)%se.
Definition store_local (k : K) (value : V) : M unit :=
  (if negb (local_enabled c) then se_ret tt
   else let* u := draw (unif env) in
        let ttl_seconds := effective_local_ttl c u value in
        if Qle_bool ttl_seconds 0 then se_ret tt
        else let* now := monotonic in
             let expires_at := (now + ttl_seconds)%Q in
             do* suspend in
             update_local (λ d, Local.store (max_entries c) d k value expires_at))%se.

(** [if mode is RAISE: raise] in an [except Exception] clause *)
Definition reraise {A} (e : CacheError Exn) (otherwise : A) : M A :=
  if raising c then se_raise e else se_ret otherwise.

Definition get_redis (k : K) : M (option V) :=
  (if negb (redis_enabled c) then se_ret None
   else let* rk := se_lift (redis_key k) in
        let* data := se_try (redis (λ s, (value_of s rk, s))) (λ e, reraise e None) in
        match data with
        | None => se_ret None
        | Some data =>
            match decode data with
            | Some v => se_ret (Some v)
            | None => reraise decode_failed None
            end
        end)%se.
Definition set_redis (k : K) (value : V) : M unit :=
  (if negb (redis_enabled c) then se_ret tt
   else let* u := draw (unif env) in
        let ttl := effective_redis_ttl c u value in
        if ttl <=? 0 then se_ret tt
        else let* rk := se_lift (redis_key k) in
             se_try
               (match encode value with
                | None => se_raise encode_failed
                | Some data => redis (λ s, (tt, set_ex rk data ttl s))
                end)
               (λ e, reraise e tt))%se.

(** [_run_loader]: waiting for the semaphore, if there is one, and for the
    loader's own awaits; [loader] may answer differently at each call. *)
Context (loader : nat → result Exn V).
Definition run_loader : M V :=
  (do* suspend in
   let* r := draw loader in
   match r with Ok v => se_ret v | Raise e => se_raise (loader_raised e) end)%se.

Definition load_without_redis (k : K) : M V :=
  (if raising c then
     let* cached := get_redis k in
     match cached with
     | None => se_raise (cache_unavailable (key_serializer k))
     | Some v => se_ret v
     end
   else
     let* value := run_loader in
     do* (if local_enabled c then store_local k value else se_ret tt) in
     se_ret value)%se.

Fixpoint wait_loop (fuel : nat) (k : K) (deadline delay : Q) : M (option V) :=
  match fuel with
  | O => se_raise out_of_fuel
  | S fuel =>
      (let* now := monotonic in
       if Qle_bool deadline now then se_ret None
       else do* suspend in
            let* cached := get_redis k in
            match cached with
            | Some v => se_ret (Some v)
            | None => wait_loop fuel k deadline (Qminb (1 # 2) (delay * (3 # 2)))
            end)%se
  end.
Definition wait_for_redis_fill (fuel : nat) (k : K) : M (option V) :=
  (if Qle_bool (redis_wait_timeout_seconds c) 0 then se_ret None
   else let* now := monotonic in
        wait_loop fuel k (now + redis_wait_timeout_seconds c) (1 # 20))%se.

(** [lock.acquire()] and [lock.release()] on the lock of this load *)
Definition with_lock (m : fault → SE (RedisLock * Srv) RedisError bool) (l : RedisLock)
    : M (bool * RedisLock) :=
  (do* suspend in λ w,
   let '(r, (l, s)) := m (faults env (tick w)) (l, srv w) in
   (match r with Ok b => Ok (b, l) | Raise e => Raise (redis_failed e) end,
    {| local := local w; srv := s; tick := S (tick w) |}))%se.

Definition keep (k : K) (value : V) : M V :=
  (do* store_local k value in se_ret value)%se.
Definition load_and_fill (k : K) : M V :=
  (let* value := run_loader in
   do* store_local k value in
   do* set_redis k value in
   se_ret value)%se.

Definition load_uncached (fuel : nat) (k : K) : M V :=
  (let* cached := get_redis k in
   match cached with
   | Some value => keep k value
   | None =>
       if negb (redis_enabled c) then let* value := run_loader in keep k value
       else
         let* lk := se_lift (redis_lock_key k) in
         let* token := draw (tokens env) in
         let lock := new_lock lk (redis_lock_ttl_seconds c) token in
         let* attempt := se_try (let* a := with_lock acquire lock in se_ret (Some a))
                                (λ _, se_ret None) in
         match attempt with
         | None => load_without_redis k
         | Some (true, lock) =>
             se_finally
               (let* cached := get_redis k in
                match cached with
                | Some value => keep k value
                | None => load_and_fill k
                end)
               (se_try (do* with_lock release lock in se_ret tt) (λ e, reraise e tt))
         | Some (false, lock) =>
             let* cached := wait_for_redis_fill fuel k in
             match cached with
             | Some value => keep k value
             | None => load_and_fill k
             end
         end
   end)%se.

Definition get_cached (k : K) : M (option V) :=
  (let* cached := peek_local k in
   match cached with
   | Some v => se_ret (Some v)
   | None =>
       let* cached := get_redis k in
       match cached with
       | None => se_ret None
       | Some value => do* store_local k value in se_ret (Some value)
       end
   end)%se.
Definition set (k : K) (value : V) : M unit :=
  (do* store_local k value in set_redis k value)%se.
Definition invalidate (k : K) : M unit :=
  (do* suspend in
   do* update_local (λ d, ddel d k) in
   if negb (redis_enabled c) then se_ret tt
   else se_try (let* rk := se_lift (redis_key k) in redis (λ s, (tt, delete_key rk s)))
               (λ e, reraise e tt))%se.
Definition clear_local : M unit :=
  (do* suspend in update_local (λ _, []))%se.

(** *** What a load preserves

    [Good v]: [v] is an acceptable value for the key [k].  [Inv]: the local
    entry of [k] and whatever the server holds under its key are good. *)

Context (k : K) (rk lk : string) (Good : V → Prop).
Definition Inv (l : list (K * (V * Q))) (s : Srv) : Prop :=
  wf l ∧ (∀ v e, dget l k = Some (v, e) → Good v) ∧
  ∀ d v, value_of s rk = Some d → decode d = Some v → Good v.
(** [Inv], at step [n] or later. *)
Definition At (n : nat) (w : World) : Prop := Inv (local w) (srv w) ∧ (n <= tick w)%nat.
Definition raised_by_loader (e : CacheError Exn) : Prop :=
  ∃ x t, e = loader_raised x ∧ loader t = Raise x.

Context (Hrk : redis_enabled c = true → redis_key k = Ok rk)
        (Hlk : redis_enabled c = true → redis_lock_key k = Ok lk) (Hne : rk ≠ lk).
Context (Hothers : ∀ t l s, Inv l s → Inv (others env t (l, s)).1 (others env t (l, s)).2).
Context (Hcodec : ∀ v d, encode v = Some d → decode d = Some v).
Context (Hloader : ∀ t v, loader t = Ok v → Good v).
Context (Hquiet : raising c = false).

Lemma world_inv_store n l s v e : Inv l s → Good v → Inv (Local.store n l k v e) s.
Proof.
  intros (Hwf & Hl & Hs) Hv. split; [by apply Local.wf_store|]. split; [|done].
  intros v' e'. rewrite Local.store_eq. intros Hg.
  apply dget_sublist with (d := ddel l k ++ [(k, (v, e))]) in Hg; [| |apply sublist_drop].
  - rewrite dget_app, dget_ddel_eq in Hg by done. cbn in Hg. rewrite decide_True in Hg by done.
    by simplify_eq.
  - apply wf_app_fresh; [auto|by apply ddel_not_key].
Qed.
Lemma Inv_srv l s s' : (∀ d, value_of s' rk = Some d → value_of s rk = Some d) → Inv l s → Inv l s'.
Proof. intros Hv (Hwf & Hl & Hs). split; [done|]. split; [done|]. eauto. Qed.

Lemma post_draw {A} n (f : nat → A) X : post (At n) (draw f) (λ a, ∃ t, a = f t) X.
Proof. intros w [HI Ht]. cbn. split; [|eauto]. split; cbn; [done|lia]. Qed.
Lemma post_interference n X : post (At n) suspend (λ _, True) X.
Proof.
  intros w [HI Ht]. unfold suspend. pose proof (Hothers (tick w) _ _ HI) as HI'.
  destruct (others env (tick w) (local w, srv w)) as [l s]. cbn in *.
  split; [|done]. split; cbn; [done|lia].
Qed.
Lemma post_redis {A} n (run : Srv → A * Srv) :
  (∀ l s, Inv l s → Inv l (run s).2) →
  post (At n) (redis run) (λ a, ∃ l s, Inv l s ∧ a = (run s).1) (λ _, True).
Proof.
  intros Hrun. unfold redis. eapply post_bind; [apply post_interference|]. intros _ _ w [HI Ht].
  unfold command. destruct (faults env (tick w)); cbn.
  - pose proof (Hrun _ _ HI) as Hr. destruct (run (srv w)) as [a s] eqn:E; cbn in *.
    split; [split; cbn; [done|lia]|]. exists (local w), (srv w). by rewrite E.
  - split; [split; cbn; [done|lia]|done].
  - split; [split; cbn; [by apply Hrun|lia]|done].
Qed.
Lemma post_update_local n f X :
  (∀ l s, Inv l s → Inv (f l) s) → post (At n) (update_local f) (λ _, True) X.
Proof. intros Hf w [HI Ht]. cbn. split; [|done]. split; cbn; [by apply Hf|done]. Qed.
Lemma post_quiet {A} n e (a : A) (Q : A → Prop) X : Q a → post (At n) (reraise e a) Q X.
Proof. intros HQ. unfold reraise. rewrite Hquiet. by apply post_ret. Qed.

Lemma post_store_local n v X : Good v → post (At n) (store_local k v) (λ _, True) X.
Proof.
  intros Hv. unfold store_local. apply post_if; intros _; [by apply post_ret|].
  eapply post_bind; [apply post_draw|]. intros u _.
  apply post_if; intros _; [by apply post_ret|].
  eapply post_bind; [apply post_draw|]. intros now _.
  eapply post_bind; [apply post_interference|]. intros _ _.
  apply post_update_local. intros. by apply world_inv_store.
Qed.
Lemma post_get_redis n X :
  post (At n) (get_redis k) (λ o, ∀ v, o = Some v → Good v) X.
Proof.
  unfold get_redis. destruct (redis_enabled c) eqn:Hen; cbn [negb]; [|by apply post_ret].
  rewrite Hrk by done. apply post_bind with (R := λ a, a = rk); [by apply post_lift|].
  intros _ ->.
  apply post_bind with (R := λ o, ∀ d v, o = Some d → decode d = Some v → Good v).
  - eapply post_try.
    + eapply post_weaken; [by apply post_redis| |].
      * intros a (l & s & (_ & _ & Hs) & ->) d v. cbn. apply Hs.
      * exact (λ _ H, H).
    + intros e _. by apply post_quiet.
  - intros [d|] Hd; [|by apply post_ret].
    destruct (decode d) as [v|] eqn:Hdec; [|by apply post_quiet].
    apply post_ret. intros v' [= <-]. eauto.
Qed.
Lemma post_set_redis n v X : Good v → post (At n) (set_redis k v) (λ _, True) X.
Proof.
  intros Hv. unfold set_redis. destruct (redis_enabled c) eqn:Hen; cbn [negb]; [|by apply post_ret].
  eapply post_bind; [apply post_draw|]. intros u _. cbn.
  destruct (effective_redis_ttl c u v <=? 0) eqn:Ettl; [by apply post_ret|].
  rewrite Hrk by done. apply post_bind with (R := λ a, a = rk); [by apply post_lift|].
  intros _ ->. apply post_try with (Y := λ _, True).
  - destruct (encode v) as [d|] eqn:Henc; [|by apply post_raise].
    eapply post_weaken; [apply post_redis|done|done].
    intros l s (Hwf & Hl & Hs). split; [done|]. split; [done|]. cbn. intros d' v'.
    rewrite set_ex_ok, decide_True by (done || (apply Z.leb_gt in Ettl; lia)).
    intros [= <-]. rewrite (Hcodec _ _ Henc). by intros [= <-].
  - intros e _. by apply post_quiet.
Qed.
Lemma post_run_loader n : post (At n) run_loader Good raised_by_loader.
Proof.
  unfold run_loader. eapply post_bind; [apply post_interference|]. intros _ _.
  eapply post_bind; [apply post_draw|]. cbn. intros r [t ->].
  destruct (loader t) eqn:E; [apply post_ret; eauto|]. apply post_raise. by exists e, t.
Qed.
Lemma post_keep n v X : Good v → post (At n) (keep k v) Good X.
Proof. intros. eapply post_bind; [by apply post_store_local|]. intros _ _. by apply post_ret. Qed.
Lemma post_load_and_fill n : post (At n) (load_and_fill k) Good raised_by_loader.
Proof.
  eapply post_bind; [apply post_run_loader|]. intros v Hv.
  eapply post_bind; [by apply post_store_local|]. intros _ _.
  eapply post_bind; [by apply post_set_redis|]. intros _ _. by apply post_ret.
Qed.
Lemma post_load_without_redis n : post (At n) (load_without_redis k) Good raised_by_loader.
Proof.
  unfold load_without_redis. rewrite Hquiet.
  eapply post_bind; [apply post_run_loader|]. intros v Hv.
  eapply post_bind with (R := λ _, True); [|intros _ _; by apply post_ret].
  apply post_if; intros _; [by apply post_store_local|by apply post_ret].
Qed.

Lemma draw_bind {A B} (f : nat → A) (m : A → M B) w :
  se_bind (draw f) m w = m (f (tick w)) {| local := local w; srv := srv w; tick := S (tick w) |}.
Proof. done. Qed.

(** The wait ends: from step [n], with the deadline passed from step [N] on,
    [N - n + 1] iterations are enough. *)
Lemma post_wait_loop N deadline fuel n delay X :
  (∀ t, (N <= t)%nat → (deadline <= clock env t)%Q) → (n <= N)%nat → (N < n + fuel)%nat →
  post (At n) (wait_loop fuel k deadline delay) (λ o, ∀ v, o = Some v → Good v) X.
Proof.
  intros HN. revert n delay. induction fuel as [|fuel IH]; intros n delay Hn Hf w [HI Ht]; [lia|].
  set (w1 := {| local := local w; srv := srv w; tick := S (tick w) |}).
  assert (Hw1 : At (S n) w1) by (split; cbn; [done|lia]).
  cbn [wait_loop]. unfold monotonic. rewrite draw_bind. fold w1.
  destruct (Qle_bool deadline (clock env (tick w))) eqn:Hq.
  - split; [split; cbn; [done|lia]|by intros].
  - apply Qle_bool_false in Hq.
    destruct (decide (N <= tick w)%nat) as [Hle|Hle]; [specialize (HN _ Hle); lra|].
    assert (Hp : post (At (S n)) (do* suspend in let* cached := get_redis k in
        match cached with Some v => se_ret (Some v)
        | None => wait_loop fuel k deadline (Qminb (1 # 2) (delay * (3 # 2))) end)%se
        (λ o, ∀ v, o = Some v → Good v) X).
    { eapply post_bind; [apply post_interference|]. intros _ _.
      eapply post_bind; [apply post_get_redis|]. intros [v|] Hv; [by apply post_ret|].
      apply IH; lia. }
    destruct (Hp w1 Hw1) as [[HI' Ht'] Hr]. split; [split; [done|lia]|done].
Qed.
Lemma post_wait_for_redis_fill N fuel n X :
  (∀ t t', (t + N <= t')%nat → (clock env t + redis_wait_timeout_seconds c <= clock env t')%Q) →
  (N < fuel)%nat →
  post (At n) (wait_for_redis_fill fuel k) (λ o, ∀ v, o = Some v → Good v) X.
Proof.
  intros HN Hf. unfold wait_for_redis_fill. apply post_if; intros _; [by apply post_ret|].
  intros w [HI Ht].
  set (w1 := {| local := local w; srv := srv w; tick := S (tick w) |}).
  unfold monotonic. rewrite draw_bind. fold w1.
  destruct (post_wait_loop (S (tick w + N)) (clock env (tick w) + redis_wait_timeout_seconds c)%Q
    fuel (S (tick w)) (1 # 20) X) with (s := w1) as [[HI' Ht'] Hr]; [|lia|lia|split; cbn; [done|lia]|].
  - intros t Hle. apply HN. lia.
  - split; [split; [done|lia]|done].
Qed.

Lemma post_with_lock n m l :
  (∀ f l1 s, lock_key l1 = lk →
    (∀ d, value_of (m f (l1, s)).2.2 rk = Some d → value_of s rk = Some d) ∧
    lock_key (m f (l1, s)).2.1 = lk) →
  lock_key l = lk →
  post (At n) (with_lock m l) (λ a, lock_key a.2 = lk) (λ _, True).
Proof.
  intros Hm Hl. unfold with_lock. eapply post_bind; [apply post_interference|]. intros _ _ w [HI Ht].
  destruct (Hm (faults env (tick w)) l (srv w) Hl) as [Hv Hk].
  destruct (m (faults env (tick w)) (l, srv w)) as [r [l' s']]; cbn in *.
  split; [split; cbn; [by eapply Inv_srv|lia]|]. by destruct r.
Qed.

Lemma run_op_rk o l1 s :
  lock_key l1 = lk →
  (∀ d, value_of (run_op o (l1, s)).2.2 rk = Some d → value_of s rk = Some d) ∧
  lock_key (run_op o (l1, s)).2.1 = lk.
Proof.
  intros Hl. destruct (run_op_elsewhere rk o l1 s) as [Hv Hk]; [congruence|].
  rewrite Hv, Hk. done.
Qed.
Lemma post_acquire n l :
  lock_key l = lk → post (At n) (with_lock acquire l) (λ a, lock_key a.2 = lk) (λ _, True).
Proof. apply post_with_lock. intros f l1 s. apply (run_op_rk (op_acquire f)). Qed.
Lemma post_release n l :
  lock_key l = lk → post (At n) (with_lock release l) (λ a, lock_key a.2 = lk) (λ _, True).
Proof. apply post_with_lock. intros f l1 s. apply (run_op_rk (op_release f)). Qed.

Lemma post_load_uncached N fuel n :
  (∀ t t', (t + N <= t')%nat → (clock env t + redis_wait_timeout_seconds c <= clock env t')%Q) →
  (N < fuel)%nat → post (At n) (load_uncached fuel k) Good raised_by_loader.
Proof.
  intros HN Hf. unfold load_uncached.
  eapply post_bind; [apply post_get_redis|]. intros [v|] Hv; [apply post_keep; auto|].
  case_eq (redis_enabled c); intros Hen; cbn [negb].
  2:{ eapply post_bind; [apply post_run_loader|]. intros v Hg. by apply post_keep. }
  rewrite Hlk by done. apply post_bind with (R := λ a, a = lk); [by apply post_lift|].
  intros _ ->. eapply post_bind; [apply post_draw|]. intros token _. cbn zeta.
  apply post_bind with (R := λ o, ∀ b l, o = Some (b, l) → lock_key l = lk).
  - apply post_try with (Y := λ _, True); [|intros e _; by apply post_ret].
    eapply post_bind; [by apply post_acquire|]. intros [b l] Hl. apply post_ret.
    intros ? ? [= _ <-]. done.
  - intros [[[] l]|] Hl; [| |apply post_load_without_redis].
    + apply post_finally.
      * eapply post_bind; [apply post_get_redis|].
        intros [v|] Hv'; [apply post_keep; auto|apply post_load_and_fill].
      * apply post_try with (Y := λ _, True); [|intros e _; by apply post_quiet].
        eapply post_bind; [apply post_release; eauto|]. intros _ _. by apply post_ret.
    + eapply post_bind; [eapply post_wait_for_redis_fill; eauto|].
      intros [v|] Hv'; [apply post_keep; auto|apply post_load_and_fill].
Qed.
End load.

(** C8: with any failure mode but RAISE, a load never fails because of Redis.
    Whatever commands fail, before or after taking effect, whatever entry does
    not decode, whoever holds the lock and whatever the other tasks do: if the
    clock makes progress the load ends, its value is a good one (a value the
    loader gave, or one the server held), the local entry and the server's
    stay good, and the only exception it can raise is the loader's own. *)
Theorem load_fails_open {K V Exn Srv} `{EqDecision K} `{RedisData Srv}
    (encode : V → option string) (decode : string → option V) (key_serializer : K → string)
    (a : LookupCache V) empty_ttl is_empty c (env : @Env K V Srv) (loader : nat → result Exn V)
    k (Good : V → Prop) N fuel w :
  init a empty_ttl is_empty = Ok c → redis_failure_mode c ≠ RAISE →
  (∀ ks, redis_keyspace c = Some ks →
     key ks [key_serializer k] ≠ key ks [key_serializer k; "lock"%string]) →
  (∀ v d, encode v = Some d → decode d = Some v) →
  let good := Inv decode k (match redis_keyspace c with
                            | Some ks => key ks [key_serializer k] | None => EmptyString end) Good in
  (∀ t l s, good l s → good (others env t (l, s)).1 (others env t (l, s)).2) →
  (∀ t v, loader t = Ok v → Good v) →
  (∀ t t', (t + N <= t')%nat → (clock env t + redis_wait_timeout_seconds c <= clock env t')%Q) →
  (N < fuel)%nat → good (local w) (srv w) →
  let '(r, w') := load_uncached encode decode key_serializer c env loader fuel k w in
  good (local w') (srv w') ∧
  match r with Ok v => Good v | Raise e => raised_by_loader loader e end.
Proof.
  intros Hinit Hmode Hkeys Hcodec good Hothers Hloader HN Hf Hw.
  pose proof (init_keyspace _ _ _ _ Hinit) as Hks.
  destruct (post_load_uncached encode decode key_serializer c env loader k
    (match redis_keyspace c with Some ks => key ks [key_serializer k] | None => EmptyString end)
    (match redis_keyspace c with Some ks => key ks [key_serializer k; "lock"%string] | None => "lock"%string end)
    Good) with (N := N) (fuel := fuel) (n := 0%nat) (s := w) as [[HI _] Hr]; try done.
  - intros [ks Hk]%Hks. unfold redis_key, key_of. by rewrite Hk.
  - intros [ks Hk]%Hks. unfold redis_lock_key, key_of. by rewrite Hk.
  - destruct (redis_keyspace c) eqn:E; [by apply Hkeys|done].
  - unfold raising. by rewrite bool_decide_eq_false.
  - split; [done|lia].
  - by destruct (load_uncached _ _ _ _ _ _ _ _ _).
Qed.

(** A hybrid cache whose Redis answers nothing: every command fails. *)
Definition demo_args : LookupCache string :=
  {| mode := HYBRID; local_ttl_seconds := 300; empty_ttl_seconds := 0; is_empty_value := λ _, false;
     max_entries := 2; local_ttl_jitter_ratio := 0; local_ttl_jitter_max_seconds := None;
     has_redis_client := true; redis_keyspace := Some {| prefix := "auth"; separator := ":" |};
     redis_ttl_seconds := Some 60; redis_empty_ttl_seconds := None;
     redis_lock_ttl_seconds := 10; redis_wait_timeout_seconds := 2;
     redis_ttl_jitter_ratio := 0; redis_ttl_jitter_max_seconds := None;
     redis_failure_mode := LOCAL_FALLBACK |}.
Definition demo_cache : LookupCache string := normalise demo_args None None.
Definition demo_env : @Env string string store :=
  {| clock := λ t, inject_Z (Z.of_nat t); unif := λ _, 0%Q; tokens := λ _, "t"%string;
     faults := λ _, fails_before; others := λ _ ls, ls |}.
Definition demo_world : @World string string store :=
  {| local := []; srv := empty_store; tick := 0 |}.
Definition demo_loader (t : nat) : result unit string := Ok "loaded"%string.
Definition demo_load : result (CacheError unit) string * @World string string store :=
  load_uncached Some Some id demo_cache demo_env demo_loader 3 "7"%string demo_world.
Lemma load_fails_open_witness :
  demo_load.1 = Ok "loaded"%string ∧
  let '(r, w') := demo_load in
  Inv Some "7"%string "auth:7"%string (λ v, v = "loaded"%string) (local w') (srv w') ∧
  match r with Ok v => v = "loaded"%string | Raise e => raised_by_loader demo_loader e end.
Proof.
  split; [by vm_compute|].
  refine (load_fails_open Some Some id demo_args None None demo_cache demo_env demo_loader
    "7"%string (λ v, v = "loaded"%string) 2 3 demo_world _ _ _ _ _ _ _ _ _).
  - vm_compute. reflexivity.
  - discriminate.
  - intros ks [= <-]. vm_compute. discriminate.
  - congruence.
  - intros t l s. exact id.
  - by intros t v [= ->].
  - intros t t' Ht. change (inject_Z (Z.of_nat t) + inject_Z 2 <= inject_Z (Z.of_nat t'))%Q.
    rewrite <-inject_Z_plus, <-Zle_Qle. lia.
  - lia.
  - split_and!; [constructor|done|done].
Defined.
End Load.

(** ** Coalescing of concurrent loads

    [get] past the first lookup: in the locked section a task joins the load
    in flight for its key or starts one; the task that started it removes it
    from [_inflight] when it is over, if it is still the one registered. *)

Module Inflight.
Section inflight.
Context {K : Type} `{EqDecision K}.

(** [creators]: the loads whose creator has not yet run its [finally]. *)
Record State := { inflight : list (K * nat); creators : gmap nat K; next : nat }.
Definition empty : State := {| inflight := []; creators := ∅; next := 0 |}.

Definition get_locked (k : K) (st : State) : (nat * bool) * State :=
  match dget (inflight st) k with
  | Some task => ((task, false), st)
  | None =>
      let task := next st in
      ((task, true), {| inflight := dset (inflight st) k task;
                        creators := <[task := k]> (creators st); next := S task |})
  end.
Definition get_finally (task : nat) (st : State) : State :=
  match creators st !! task with
  | None => st
  | Some k =>
      {| inflight := if decide (dget (inflight st) k = Some task) then ddel (inflight st) k
                     else inflight st;
         creators := delete task (creators st); next := next st |}
  end.
Inductive step : State → State → Prop :=
  | step_get k st : step st (get_locked k st).2
  | step_end task st : step st (get_finally task st).

Record Inv (st : State) : Prop := {
  inv_wf : wf (inflight st);
  inv_next : ∀ t k, creators st !! t = Some k → (t < next st)%nat;
  inv_match : ∀ t k, creators st !! t = Some k ↔ dget (inflight st) k = Some t }.

Lemma inflight_step_inv st st' : Inv st → step st st' → Inv st'.
Proof.
  intros HI Hs. pose proof (inv_wf _ HI) as Hw. pose proof (inv_next _ HI) as Hn.
  pose proof (inv_match _ HI) as Hm. destruct Hs as [k st|task st].
  - unfold get_locked. destruct (dget (inflight st) k) as [t|] eqn:Hk; [done|]. cbn. split; cbn.
    + auto.
    + intros t k'. rewrite lookup_insert_Some. intros [[<- <-]|[_ Ht%Hn]]; lia.
    + intros t k'. rewrite lookup_insert_Some, dget_dset. case_decide as Hkk; subst.
      * split; [|naive_solver]. intros [[-> _]|[_ Ht%Hm]]; [done|congruence].
      * split; [intros [[_ ->]|[_ Ht%Hm]]; done|]. intros Ht%Hm. right. split; [|done].
        intros <-. apply Hn in Ht. lia.
  - unfold get_finally. destruct (creators st !! task) as [k|] eqn:Hk; [|done].
    rewrite decide_True by (by apply Hm). split; cbn.
    + auto.
    + intros t k' [_ Ht%Hn]%lookup_delete_Some. done.
    + intros t k'. rewrite lookup_delete_Some, dget_ddel by done. case_decide as Hkk; subst.
      * split; [|done]. intros [Hne Ht%Hm]. apply Hm in Hk. congruence.
      * rewrite Hm. split; [naive_solver|]. intros Ht. split; [|done]. intros <-.
        apply Hm in Ht. congruence.
Qed.
Lemma inflight_reachable_inv st : runs step empty st → Inv st.
Proof.
  apply runs_invariant; [by intros a b; apply inflight_step_inv|].
  split; cbn; [constructor|done|done].
Qed.
End inflight.

End Inflight.

(** ** state/async_singleton.py *)

Module AsyncSingleton.
Inductive SingletonError (E : Type) := factory_failed (e : E) | closer_failed (e : E).
Arguments factory_failed {E} e.
Arguments closer_failed {E} e.
(** [made] counts the successful factory calls, [dropped] is what was reset. *)
Record Singleton (T : Type) := { value : option T; made : nat; dropped : list T }.
Arguments value {T}. Arguments made {T}. Arguments dropped {T}.

Definition get {T E} (factory : result E T) : SE (Singleton T) (SingletonError E) T := λ s,
  match value s with
  | Some v => (Ok v, s)
  | None =>
      match factory with
      | Ok v => (Ok v, {| value := Some v; made := S (made s); dropped := dropped s |})
      | Raise e => (Raise (factory_failed e), s)
      end
  end.
Definition reset {T E} (closer : option (T → result E unit))
    : SE (Singleton T) (SingletonError E) unit := λ s,
  match value s with
  | None => (Ok tt, s)
  | Some v =>
      let s := {| value := None; made := made s; dropped := v :: dropped s |} in
      match closer with
      | None => (Ok tt, s)
      | Some close =>
          match close v with Ok _ => (Ok tt, s) | Raise e => (Raise (closer_failed e), s) end
      end
  end.
End AsyncSingleton.
