(* ===== verification/SnapshotStore.v ===== *)
(** * state/snapshot_store.py: [RedisReplicaStore]

    Snapshots in a local ordered dictionary, optionally replicated through
    Redis.  A step counter indexes the clock readings and the outcomes of the
    calls to the Redis client; while a call is awaited the rest of the process
    and the other replicas act ([others]). *)

From S2P Require Import Prelude PyStr PyDict Redis.

Module SnapshotStore.
Section store.
Context {K V Srv : Type} `{EqDecision K} `{RedisData Srv}.
Context (encode : V → string) (decode : string → option V) (key_serializer : K → string).
Abbreviation Local := (list (K * (V * Q))).

Inductive StoreError := connect_failed.
Record Config := {
  redis_enabled : bool; keyspace : Keyspace; ttl_seconds : Z;
  local_ttl_seconds : Q; local_max_entries : option Z }.
Definition init (redis_enabled : bool) (keyspace : Keyspace) (ttl_seconds : Z)
    (local_ttl_seconds : option Q) (local_max_entries : option Z) : Config :=
  {| redis_enabled := redis_enabled; keyspace := keyspace; ttl_seconds := Z.max 1 ttl_seconds;
     local_ttl_seconds := Qmaxb 0 (default (inject_Z ttl_seconds) local_ttl_seconds);
     local_max_entries := Z.max 1 <$> local_max_entries |}.
Context (cfg : Config).

Record Store := { local : Local; connected : bool; srv : Srv; tick : nat }.
Record Env := {
  clock : nat → Q; connect_ok : nat → bool; faults : nat → fault;
  others : nat → Local * Srv → Local * Srv }.
Context (env : Env).
Abbreviation M := (SE Store StoreError).

Definition monotonic : M Q := λ w,
  (Ok (clock env (tick w)),
   {| local := local w; connected := connected w; srv := srv w; tick := S (tick w) |}).
Definition suspend : M unit := λ w,
  let '(l, s) := others env (tick w) (local w, srv w) in
  (Ok tt, {| local := l; connected := connected w; srv := s; tick := S (tick w) |}).
Definition on_local {A} (f : Local → A * Local) : M A := λ w,
  let '(a, l) := f (local w) in
  (Ok a, {| local := l; connected := connected w; srv := srv w; tick := tick w |}).
Definition set_connected (b : bool) : M unit := λ w,
  (Ok tt, {| local := local w; connected := b; srv := srv w; tick := tick w |}).

(** [_prune_local]: from the oldest entry up to the first that is alive *)
Fixpoint prune_local (current : Q) (l : Local) : Local :=
  match l with
  | [] => []
  | (k, (v, expires_at)) :: rest =>
      if Qltb current expires_at then l else prune_local current rest
  end.
(** [_prune_local_limit] *)
Definition prune_local_limit (l : Local) : Local :=
  match local_max_entries cfg with
  | None => l
  | Some n => shrink (Z.to_nat n) l
  end.
Definition put (expires_at : Q) (l : Local) (kv : K * V) : Local :=
  move_to_end (dset l kv.1 (kv.2, expires_at)) kv.1.
Definition set_local_at (now : Q) (values : list (K * V)) (l : Local) : Local :=
  let expires_at := (now + local_ttl_seconds cfg)%Q in
  prune_local_limit (foldl (put expires_at) (prune_local now l) values).
(** [_set_local_many], [set_local_many]; [set_local] is the case of one key *)
Definition set_local_many (values : list (K * V)) : M unit :=
  (if Nat.eqb (length values) 0 || Qle_bool (local_ttl_seconds cfg) 0 then se_ret tt
   else let* now := monotonic in on_local (λ l, (tt, set_local_at now values l)))%se.
Definition set_local (k : K) (value : V) : M unit := set_local_many [(k, value)].

(** [_get_local] *)
Definition get_local (k : K) : M (option V) := λ w,
  match dget (local w) k with
  | None => (Ok None, w)
  | Some (value, expires_at) =>
      (let* now := monotonic in
       on_local (λ l, if Qle_bool expires_at now then (None, ddel l k) else (Some value, l)))%se w
  end.

Definition redis_key (k : K) : string := key (keyspace cfg) [key_serializer k].

(** [start]; connecting may fail, and another task may have connected while
    this one waited for the lock. *)
Definition start : M unit := λ w,
  if negb (redis_enabled cfg) || connected w then (Ok tt, w)
  else (do* suspend in λ w,
        if connect_ok env (tick w) then set_connected true w else se_raise connect_failed w)%se w.
Definition stop : M unit :=
  (do* set_connected false in do* on_local (λ _, (tt, [])) in suspend)%se.

(** The pipeline of [set_many]; its failure is logged and swallowed. *)
Definition pipeline_set (values : list (K * V)) : M unit :=
  (do* suspend in λ w,
   let run s := (tt, foldl (λ s kv, set_ex (redis_key kv.1) (encode kv.2) (ttl_seconds cfg) s) s values) in
   let '(_, s) := command (faults env (tick w)) run (srv w) in
   (Ok tt, {| local := local w; connected := connected w; srv := s; tick := S (tick w) |}))%se.
Definition set_many (values : list (K * V)) : M unit :=
  (if Nat.eqb (length values) 0 then se_ret tt
   else do* set_local_many values in
        if negb (redis_enabled cfg) then se_ret tt
        else do* start in λ w,
             if connected w then pipeline_set values w else (Ok tt, w))%se.
Definition set (k : K) (value : V) : M unit := set_many [(k, value)].

(** The loop over the requested keys: what the local layer has, and the rest. *)
Fixpoint get_local_loop (keys : list K) : M (list (K * V) * list K) :=
  match keys with
  | [] => se_ret ([], [])
  | k :: keys =>
      (let* cached := get_local k in
       let* rest := get_local_loop keys in
       se_ret (match cached with
               | Some v => ((k, v) :: rest.1, rest.2)
               | None => (rest.1, k :: rest.2)
               end))%se
  end.
(** [mget] and the decoding of its answer: empty and malformed entries are
    skipped, a failed call gives nothing. *)
Definition decode_entry (kr : K * option string) : option (K * V) :=
  match kr.2 with
  | Some raw => if is_empty raw then None else (λ v, (kr.1, v)) <$> decode raw
  | None => None
  end.
Definition mget (missing : list K) : M (option (list (K * V))) :=
  (do* suspend in λ w,
   let '(r, s) := command (faults env (tick w)) (λ s, ((λ k, value_of s (redis_key k)) <$> missing, s)) (srv w) in
   (Ok (match r with
        | Ok values => Some (omap decode_entry (zip missing values))
        | Raise _ => None
        end),
    {| local := local w; connected := connected w; srv := s; tick := S (tick w) |}))%se.
Definition to_dict {B} (l : list (K * B)) : list (K * B) := foldl (λ d kv, dset d kv.1 kv.2) [] l.
Definition get_many (requested : list K) : M (list (K * V)) :=
  (if Nat.eqb (length requested) 0 then se_ret []
   else let* nonempty := on_local (λ l, (negb (Nat.eqb (length l) 0), l)) in
        do* (if nonempty
             then let* current := monotonic in on_local (λ l, (tt, prune_local current l))
             else se_ret tt) in
        let* found := get_local_loop requested in
        let result := to_dict found.1 in
        if negb (Nat.eqb (length found.2) 0) && redis_enabled cfg then
          do* start in λ w,
            if connected w then
              (let* answer := mget found.2 in
               match answer with
               | None => se_ret result
               | Some pairs =>
                   let decoded := to_dict pairs in
                   do* set_local_many decoded in
                   se_ret (foldl (λ d kv, dset d kv.1 kv.2) result decoded)
               end)%se w
            else (Ok result, w)
        else se_ret result)%se.
Definition get (k : K) : M (option V) :=
  (let* result := get_many [k] in se_ret (dget result k))%se.

Inductive op := op_set_local (values : list (K * V)) | op_set (values : list (K * V))
  | op_get (keys : list K) | op_start | op_stop.
Definition run_op (o : op) : M unit :=
  match o with
  | op_set_local values => set_local_many values
  | op_set values => set_many values
  | op_get keys => (do* get_many keys in se_ret tt)%se
  | op_start => start
  | op_stop => stop
  end.
(** Calls one after the other, each caller keeping its exception. *)
Definition run_ops (ops : list op) (w : Store) : Store := foldl (λ w o, (run_op o w).2) w ops.

(** ** The order of the local entries *)

Definition expiry_le (p q : K * (V * Q)) : Prop := (p.2.2 <= q.2.2)%Q.
(** Oldest first, none expiring later than one written now. *)
Definition Ordered (horizon : Q) (l : Local) : Prop :=
  wf l ∧ StronglySorted expiry_le l ∧ Forall (λ p, p.2.2 <= horizon)%Q l.
Definition Bounded (l : Local) : Prop :=
  match local_max_entries cfg with Some n => Z.of_nat (length l) <= n | None => True end.
Definition J (l : Local) (t : nat) : Prop :=
  Ordered (clock env t + local_ttl_seconds cfg) l ∧ Bounded l.

Context (Hclock : ∀ t, (clock env t <= clock env (S t))%Q).
Context (Hmax : match local_max_entries cfg with Some n => 1 <= n | None => True end).
Context (Hothers : ∀ t l s, J l t → J (others env t (l, s)).1 (S t)).

Lemma StronglySorted_sublist (l l' : Local) :
  l' `sublist_of` l → StronglySorted expiry_le l → StronglySorted expiry_le l'.
Proof.
  induction 1 as [|x l' l Hs IH|x l' l Hs IH]; intros Ho; [done| |];
    apply StronglySorted_inv in Ho as [Ho Hx]; [|auto].
  constructor; [auto|]. by eapply Forall_sublist'.
Qed.
Lemma Ordered_sublist h l l' : l' `sublist_of` l → Ordered h l → Ordered h l'.
Proof.
  intros Hs (Hw & Ho & Hf). split; [by eapply wf_sublist|].
  split; [by eapply StronglySorted_sublist|by eapply Forall_sublist'].
Qed.
Lemma Ordered_later h h' l : (h <= h')%Q → Ordered h l → Ordered h' l.
Proof.
  intros Hh (Hw & Ho & Hf). split; [done|]. split; [done|].
  eapply Forall_impl; [exact Hf|]. cbn. intros p Hp. lra.
Qed.
Lemma Ordered_put h l kv : Ordered h l → Ordered h (put h l kv).
Proof.
  intros Ho. unfold put. rewrite move_to_end_dset.
  pose proof (Ordered_sublist _ _ _ (ddel_sublist l kv.1) Ho) as (Hw & Hs & Hf).
  split; [apply wf_app_fresh; [done|by apply ddel_not_key, Ho]|]. split.
  - clear Hw. induction Hs as [|p l' Hl IH Hp]; cbn; [repeat constructor|].
    apply Forall_cons in Hf as [Hph Hf]. constructor; [by apply IH|].
    apply Forall_app. split; [done|]. by repeat constructor.
  - apply Forall_app. split; [done|]. repeat constructor. cbn. lra.
Qed.
Lemma prune_sublist now l : prune_local now l `sublist_of` l.
Proof.
  induction l as [|[k [v e]] l IH]; cbn; [done|]. destruct (Qltb now e); [done|].
  by apply sublist_cons.
Qed.
Lemma prune_filter now l :
  StronglySorted expiry_le l →
  prune_local now l = List.filter (λ p, Qltb now p.2.2) l.
Proof.
  induction 1 as [|[k [v e]] l Hl IH Hp]; cbn; [done|].
  destruct (Qltb now e) eqn:He; [|done]. f_equal. symmetry.
  apply forallb_filter_id, forallb_True'. intros p Hin.
  rewrite Forall_forall in Hp. specialize (Hp p Hin). apply Qltb_true in He.
  apply Qltb_true. unfold expiry_le in Hp; cbn in Hp. lra.
Qed.
Lemma Bounded_sublist l l' : l' `sublist_of` l → Bounded l → Bounded l'.
Proof. intros Hs%sublist_length. unfold Bounded. destruct (local_max_entries cfg); [lia|done]. Qed.

Lemma J_sublist l l' t : l' `sublist_of` l → J l t → J l' t.
Proof. intros Hs [Ho Hb]. split; [by eapply Ordered_sublist|by eapply Bounded_sublist]. Qed.
Lemma J_later l t : J l t → J l (S t).
Proof.
  intros [Ho Hb]. split; [|done]. eapply Ordered_later; [|exact Ho]. specialize (Hclock t). lra.
Qed.
Lemma J_set_local_at values l t : J l t → J (set_local_at (clock env t) values l) t.
Proof.
  intros [Ho Hb]. unfold set_local_at.
  assert (Hf : Ordered (clock env t + local_ttl_seconds cfg)
    (foldl (put (clock env t + local_ttl_seconds cfg)) (prune_local (clock env t) l) values)).
  { apply (Ordered_sublist _ _ _ (prune_sublist (clock env t) l)) in Ho.
    revert Ho. generalize (prune_local (clock env t) l).
    induction values as [|kv values IH]; intros l0 Ho; cbn; [done|]. by apply IH, Ordered_put. }
  unfold prune_local_limit. split.
  - destruct (local_max_entries cfg); [|done]. eapply Ordered_sublist; [apply sublist_drop|done].
  - unfold Bounded. destruct (local_max_entries cfg); [|done]. rewrite length_shrink. lia.
Qed.

Definition I (w : Store) : Prop := J (local w) (tick w).
Lemma post_suspend X : post I suspend (λ _, True) X.
Proof.
  intros w HI. unfold suspend. pose proof (Hothers (tick w) (local w) (srv w) HI) as Ho.
  by destruct (others env (tick w) (local w, srv w)).
Qed.
Lemma post_connected b X : post I (set_connected b) (λ _, True) X.
Proof. by intros w HI. Qed.
Lemma post_on_local {A} (f : Local → A * Local) X :
  (∀ l, (f l).2 `sublist_of` l) → post I (on_local f) (λ _, True) X.
Proof.
  intros Hf w HI. unfold on_local. specialize (Hf (local w)).
  destruct (f (local w)) as [a l]; cbn in *. split; [|done]. by eapply J_sublist.
Qed.
Lemma post_monotonic X : post I monotonic (λ _, True) X.
Proof. intros w HI. split; [|done]. by apply J_later. Qed.
Lemma post_set_local_many values X : post I (set_local_many values) (λ _, True) X.
Proof.
  unfold set_local_many. apply post_if; intros _; [by apply post_ret|].
  intros w HI. cbn. split; [|done]. by apply J_later, J_set_local_at.
Qed.
Lemma post_get_local k X : post I (get_local k) (λ _, True) X.
Proof.
  intros w HI. unfold get_local. destruct (dget (local w) k) as [[v e]|]; [|done].
  refine (post_bind _ _ _ (λ _, True) _ _ _ _ w HI); [apply post_monotonic|].
  intros now _. apply post_on_local. intros l. destruct (Qle_bool e now); cbn; [apply ddel_sublist|done].
Qed.
Lemma post_get_local_loop keys X : post I (get_local_loop keys) (λ _, True) X.
Proof.
  induction keys as [|k keys IH]; cbn [get_local_loop]; [by apply post_ret|].
  eapply post_bind; [apply post_get_local|]. intros cached _.
  eapply post_bind; [apply IH|]. intros rest _. by apply post_ret.
Qed.
Lemma post_start : post I start (λ _, True) (λ _, True).
Proof.
  intros w HI. unfold start. destruct (_ || _); [done|].
  refine (post_bind _ _ _ (λ _, True) _ _ _ _ w HI); [apply post_suspend|].
  intros _ _ w' HI'. by destruct (connect_ok env (tick w')).
Qed.
Lemma post_awaited {A B} (run : Srv → A * Srv) (f : result RedisError A → B) X :
  post I (do* suspend in λ w,
    let '(r, s) := command (faults env (tick w)) run (srv w) in
    (Ok (f r), {| local := local w; connected := connected w; srv := s; tick := S (tick w) |}))%se
    (λ _, True) X.
Proof.
  eapply post_bind; [apply post_suspend|]. intros _ _ w HI.
  destruct (command _ _ _) as [r s]. split; [|done]. by apply J_later.
Qed.
Lemma post_set_many values : post I (set_many values) (λ _, True) (λ _, True).
Proof.
  unfold set_many. apply post_if; intros _; [by apply post_ret|].
  eapply post_bind; [apply post_set_local_many|]. intros _ _.
  apply post_if; intros _; [by apply post_ret|].
  eapply post_bind; [apply post_start|]. intros _ _ w HI.
  destruct (connected w); [|done].
  by apply (post_awaited (λ s, (tt, foldl (λ s kv, set_ex (redis_key kv.1) (encode kv.2)
    (ttl_seconds cfg) s) s values)) (λ _, tt)).
Qed.
Lemma post_get_many keys : post I (get_many keys) (λ _, True) (λ _, True).
Proof.
  unfold get_many. apply post_if; intros _; [by apply post_ret|].
  eapply post_bind; [by apply post_on_local|]. intros b _.
  eapply post_bind with (R := λ _, True).
  { apply post_if; intros _; [|by apply post_ret].
    eapply post_bind; [apply post_monotonic|]. intros now _.
    apply post_on_local. intros l. apply prune_sublist. }
  intros _ _. eapply post_bind; [apply post_get_local_loop|]. intros found _. cbn zeta.
  apply post_if; intros _; [|by apply post_ret].
  eapply post_bind; [apply post_start|]. intros _ _ w HI.
  destruct (connected w); [|done]. revert w HI. fold (@post Store StoreError).
  refine (post_bind I _ _ (λ _, True) _ _ _ _).
  - apply post_awaited.
  - intros [pairs|] _; [|by apply post_ret]. cbn zeta.
    eapply post_bind; [apply post_set_local_many|]. intros _ _. by apply post_ret.
Qed.
Lemma post_run_op o : post I (run_op o) (λ _, True) (λ _, True).
Proof.
  destruct o; cbn [run_op]; [apply post_set_local_many|apply post_set_many| |apply post_start|].
  - eapply post_bind; [apply post_get_many|]. intros _ _. by apply post_ret.
  - eapply post_bind; [apply post_connected|]. intros _ _.
    eapply post_bind; [|intros _ _; apply post_suspend].
    apply post_on_local. intros l. apply sublist_nil_l.
Qed.
Lemma I_run_ops ops w : I w → I (run_ops ops w).
Proof.
  unfold run_ops. revert w. induction ops as [|o ops IH]; intros w HI; cbn; [done|].
  by apply IH, post_run_op.
Qed.
End store.

(** The shortcut of the local layer is exact.  [_prune_local] only looks
    at the oldest entries, yet after any sequence of calls (whatever Redis
    answers, and with other tasks using the store the same way while a call is
    awaited) it removes exactly the entries that have expired; the layer never
    holds more than [local_max_entries] entries, and a value it answers had
    not expired when it was read. *)
Lemma local_pruning_is_exact {K V Srv} `{EqDecision K} `{RedisData Srv}
    (encode : V → string) (decode : string → option V) (key_serializer : K → string)
    enabled ks ttl local_ttl max_entries (env : @Env K V Srv) s0 (ops : list op) :
  let cfg := init enabled ks ttl local_ttl max_entries in
  (∀ t, (clock env t <= clock env (S t))%Q) →
  (∀ t l s, J cfg env l t → J cfg env (others env t (l, s)).1 (S t)) →
  let w := run_ops encode decode key_serializer cfg env ops
             {| local := []; connected := false; srv := s0; tick := 0 |} in
  (∀ now, prune_local now (local w) = List.filter (λ p, Qltb now p.2.2) (local w)) ∧
  (∀ n, max_entries = Some n → Z.of_nat (length (local w)) <= Z.max 1 n) ∧
  (∀ k v w', get_local env k w = (Ok (Some v), w') →
     ∃ e, dget (local w) k = Some (v, e) ∧ (clock env (tick w) < e)%Q).
Proof.
  intros cfg Hclock Hothers w.
  assert (Hmax : match local_max_entries cfg with Some n => 1 <= n | None => True end).
  { unfold cfg; cbn. destruct max_entries; cbn; [lia|done]. }
  destruct (I_run_ops encode decode key_serializer cfg env Hclock Hmax Hothers ops
    {| local := []; connected := false; srv := s0; tick := 0 |}) as [(Hw & Hs & _) Hb].
  { split; [split; [apply wf_nil|split; constructor]|].
    unfold Bounded; cbn. destruct max_entries; cbn; [lia|done]. }
  fold w in Hw, Hs, Hb. split_and!.
  - intros now. by apply prune_filter.
  - intros n ->. exact Hb.
  - intros k v w'. unfold get_local. destruct (dget (local w) k) as [[v0 e]|] eqn:Hg; [|done].
    cbn. destruct (Qle_bool e (clock env (tick w))) eqn:Hq; [done|].
    intros [= -> _]. exists e. split; [done|]. by apply Qle_bool_false in Hq.
Qed.

Definition demo_env : @Env Z string store :=
  {| clock := λ t, inject_Z (Z.of_nat t); connect_ok := λ _, true; faults := λ _, no_fault;
     others := λ _ ls, ls |}.
Lemma local_pruning_is_exact_witness :
  let ks := {| prefix := "snap"; separator := ":" |} in
  let cfg := init true ks 5 None (Some 2) in
  let w := run_ops id Some str_int cfg demo_env
             [op_set [(1, "a"%string)]; op_get [1; 2]; op_set_local [(2, "b"%string); (3, "c"%string)]]
             {| local := []; connected := false; srv := empty_store; tick := 0 |} in
  dkeys (local w) = [2; 3] ∧
  (∀ n, Some 2 = Some n → Z.of_nat (length (local w)) <= Z.max 1 n).
Proof.
  split; [by vm_compute|].
  apply (local_pruning_is_exact id Some str_int true {| prefix := "snap"; separator := ":" |} 5 None (Some 2)
    demo_env empty_store
    [op_set [(1, "a"%string)]; op_get [1; 2]; op_set_local [(2, "b"%string); (3, "c"%string)]]).
  - intros t. unfold demo_env; cbn. rewrite <-Zle_Qle. lia.
  - intros t l s HJ. unfold demo_env; cbn. apply J_later; [|done].
    intros t'. unfold demo_env; cbn. rewrite <-Zle_Qle. lia.
Defined.
End SnapshotStore.
