(* ===== verification/RateLimit.v ===== *)
(** * web/request_ip.py and web/rate_limit.py

    [RequestIp]: which header names the client.  [RateLimit]: the key of a
    request, the process-local fixed-window limiter, the Redis counter and the
    failure modes that choose between them.  [ipaddress.ip_address] (whose
    normal form depends on the interpreter's version) and [blake2b] are
    parameters. *)

From S2P Require Import Prelude PyStr PyDict Redis.

Module RequestIp.
Section request_ip.
(** [str(ip_address(s))], [None] for [ValueError] *)
Context (ip_address : string → option string).

(** [s[1:-1]] *)
Definition inner (s : string) : string := String.substring 1 (String.length s - 2) s.
Definition normalize_ip_candidate (value : option string) : option string :=
  match value with
  | None => None
  | Some value =>
      if is_empty value then None else
      let candidate := strip_chars "'" (strip_chars (String dquote EmptyString) (strip value)) in
      if is_empty candidate then None else
      let candidate :=
        if startswith "[" candidate && endswith "]" candidate then inner candidate else candidate in
      ip_address candidate
  end.
(** The first candidate that is an address: [if candidate := ...: return]. *)
Fixpoint first_valid (parts : list string) : option string :=
  match parts with
  | [] => None
  | p :: parts =>
      match normalize_ip_candidate (Some p) with
      | Some c => if is_empty c then first_valid parts else Some c
      | None => first_valid parts
      end
  end.
Definition first_valid_csv_ip (value : option string) : option string :=
  match value with
  | None => None
  | Some value => if is_empty value then None else first_valid (split "," value)
  end.

(** [for=(?:"?\[?)([^;\s,\]"]+)], case insensitive: the group of a match that
    starts with [s], and the text after it. *)
Definition group_char (c : ascii) : bool :=
  negb (char_in ";,]" c || is_space c || bool_decide (c = dquote)).
Definition match_for (s : string) : option (string * string) :=
  if negb (bool_decide (lower (String.substring 0 4 s) = "for="%string)) then None else
  let s := sdrop 4 s in
  let s := match s with String c s' => if decide (c = dquote) then s' else s | _ => s end in
  let '(group, rest) :=
    match s with
    | String "[" s' => let '(g, r) := span group_char s' in if is_empty g then span group_char s else (g, r)
    | _ => span group_char s
    end in
  if is_empty group then None else Some (group, rest).
(** [finditer]: from left to right, without overlap. *)
Fixpoint finditer (fuel : nat) (s : string) : list string :=
  match fuel with
  | O => []
  | S fuel =>
      match s with
      | EmptyString => []
      | String _ s' =>
          match match_for s with
          | Some (g, rest) => g :: finditer fuel rest
          | None => finditer fuel s'
          end
      end
  end.
Definition forwarded_header_ip (value : option string) : option string :=
  match value with
  | None => None
  | Some value => if is_empty value then None else first_valid (finditer (String.length value) value)
  end.

(** [client]: [request.client.host], [None] without a client. *)
Record Request := { headers : string → option string; client_host : option string }.

(** [if candidate := a: return candidate] *)
Definition or_next (a b : option string) : option string :=
  match a with Some c => if is_empty c then b else a | None => b end.
Definition resolve_client_ip (request : Request) (trust_forwarded_chain : bool) : option string :=
  let direct name rest := or_next (normalize_ip_candidate (headers request name)) rest in
  direct "cf-connecting-ip"%string (direct "true-client-ip"%string (direct "x-real-ip"%string
    (let socket :=
       match client_host request with
       | Some host => if is_empty host then None else normalize_ip_candidate (Some host)
       | None => None
       end in
     if trust_forwarded_chain then
       or_next (first_valid_csv_ip (headers request "x-forwarded-for"%string))
         (or_next (forwarded_header_ip (headers request "forwarded"%string)) socket)
     else socket))).

Lemma normalize_ip_candidate_valid v ip :
  normalize_ip_candidate v = Some ip → ∃ c, ip_address c = Some ip.
Proof.
  unfold normalize_ip_candidate. destruct v as [v|]; [|done].
  destruct (is_empty v); [done|]. destruct (is_empty _); [done|]. eauto.
Qed.
Lemma first_valid_valid parts ip : first_valid parts = Some ip → ∃ c, ip_address c = Some ip.
Proof.
  induction parts as [|p parts IH]; cbn [first_valid]; [done|].
  destruct (normalize_ip_candidate (Some p)) as [c|] eqn:E; [|done].
  destruct (is_empty c); [done|]. intros [= ->]. by eapply normalize_ip_candidate_valid.
Qed.
Lemma or_next_cases a b ip : or_next a b = Some ip → a = Some ip ∨ b = Some ip.
Proof. unfold or_next. destruct a as [c|]; [|auto]. destruct (is_empty c); auto. Qed.
Lemma resolve_client_ip_valid r trust ip :
  resolve_client_ip r trust = Some ip → ∃ c, ip_address c = Some ip.
Proof.
  unfold resolve_client_ip. cbn zeta.
  do 3 (intros [?|H]%or_next_cases; [by eapply normalize_ip_candidate_valid|]; revert H).
  assert (Hsock : match client_host r with
    | Some host => if is_empty host then None else normalize_ip_candidate (Some host)
    | None => None end = Some ip → ∃ c, ip_address c = Some ip).
  { destruct (client_host r) as [h|]; [|done]. destruct (is_empty h); [done|].
    apply normalize_ip_candidate_valid. }
  destruct trust; [|done].
  intros [H|[H|H]%or_next_cases]%or_next_cases; [| |by apply Hsock].
  - unfold first_valid_csv_ip in H. destruct (headers r _) as [v|]; [|done].
    destruct (is_empty v); [done|]. by eapply first_valid_valid.
  - unfold forwarded_header_ip in H. destruct (headers r _) as [v|]; [|done].
    destruct (is_empty v); [done|]. by eapply first_valid_valid.
Qed.
End request_ip.

(** The resolved client address is an address in normal form, never the
    text of a header; when the forwarded chain is not trusted the headers
    [X-Forwarded-For] and [Forwarded] have no influence on it; and an address
    in [CF-Connecting-IP] wins over everything else. *)
Lemma client_ip_is_an_address (ip_address : string → option string) r trust :
  (∀ s ip, ip_address s = Some ip → ip_address ip = Some ip ∧ ip ≠ EmptyString) →
  (∀ ip, resolve_client_ip ip_address r trust = Some ip → ip_address ip = Some ip) ∧
  (∀ h, (∀ name, name ≠ "x-forwarded-for"%string → name ≠ "forwarded"%string → h name = headers r name) →
     resolve_client_ip ip_address {| headers := h; client_host := client_host r |} false =
     resolve_client_ip ip_address r false) ∧
  (∀ ip, normalize_ip_candidate ip_address (headers r "cf-connecting-ip") = Some ip →
     resolve_client_ip ip_address r trust = Some ip).
Proof.
  intros Hip. split_and!.
  - intros ip [c Hc]%resolve_client_ip_valid. by apply (Hip c).
  - intros h Hh. unfold resolve_client_ip. cbn. by rewrite !Hh by done.
  - intros ip Hcf. unfold resolve_client_ip. rewrite Hcf. unfold or_next at 1.
    apply normalize_ip_candidate_valid in Hcf as [c Hc]. apply Hip in Hc as [_ Hne].
    by destruct ip.
Qed.

(** Dotted quads only. *)
Definition octet (s : string) : option Z :=
  z ← (if sall is_digit s && (String.length s <=? 3)%nat then py_int s else None);
  if (z <=? 255) && bool_decide (str_int z = s) then Some z else None.
Definition ipv4_address (s : string) : option string :=
  match split "." s with
  | [a; b; c; d] =>
      match octet a, octet b, octet c, octet d with
      | Some _, Some _, Some _, Some _ => Some s
      | _, _, _, _ => None
      end
  | _ => None
  end.
Definition demo_request : Request :=
  {| headers := λ name, if decide (name = "x-forwarded-for"%string) then Some "unknown, 10.0.0.7 , 1.1.1.1"%string else None;
     client_host := Some "127.0.0.1"%string |}.
Lemma client_ip_is_an_address_witness :
  resolve_client_ip ipv4_address demo_request true = Some "10.0.0.7"%string ∧
  (∀ ip, resolve_client_ip ipv4_address demo_request true = Some ip → ipv4_address ip = Some ip).
Proof.
  split; [by vm_compute|].
  apply (client_ip_is_an_address ipv4_address demo_request true).
  intros s ip. unfold ipv4_address. destruct (split "." s) as [|a [|b [|c [|d []]]]] eqn:E; try done.
  destruct (octet a) eqn:Ha, (octet b) eqn:Hb, (octet c) eqn:Hc, (octet d) eqn:Hd; try done.
  intros [= <-]. rewrite E, Ha, Hb, Hc, Hd. split; [done|]. by intros ->.
Defined.
End RequestIp.

Module RateLimit.
Inductive FailureMode := LOCAL_FALLBACK | BYPASS | RAISE.
#[export] Instance FailureMode_eq_dec : EqDecision FailureMode.
Proof. solve_decision. Defined.

(** ** The key of a request *)

Definition FALLBACK_SUBJECT : string := "unknown".
(** [[a-z0-9:_-]] *)
Definition part_char (c : ascii) : bool := is_lower_ascii c || is_digit c || char_in ":_-" c.
Definition is_colon (c : ascii) : bool := bool_decide (c = ":"%char).
Definition normalize_subject (subject : string) : string :=
  let normalized := sub_runs (λ c, negb (part_char c)) ":" false (lower (strip subject)) in
  let normalized := strip_chars ":" (sub_runs is_colon ":" false normalized) in
  str_or normalized FALLBACK_SUBJECT.
Definition normalize_bucket (bucket : string) : string := normalize_subject bucket.

(** ** [_LocalWindowLimiter] *)

Inductive RateError (E : Type) := too_many_requests (detail : string)
  | backend_unavailable | no_redis_backend | backend_error (e : E).
Arguments too_many_requests {E} detail.
Arguments backend_unavailable {E}.
Arguments no_redis_backend {E}.
Arguments backend_error {E} e.

Record LocalWindowLimiter := { entries : list (string * (Z * Q)); max_entries : Z }.
Definition new_limiter (max_entries : Z) : LocalWindowLimiter :=
  {| entries := []; max_entries := Z.max 1 max_entries |}.

(** [now] is the clock reading at the start of the call. *)
Definition enforce {E} (now : Q) (key : string) (limit window_seconds : Z) (error_detail : string)
    : SE LocalWindowLimiter (RateError E) unit := λ l,
  let ttl := Z.max 1 window_seconds in
  let expires_at := (now + inject_Z ttl)%Q in
  let stale := dkeys (List.filter (λ p, Qle_bool p.2.2 now) (entries l)) in
  let alive := ddel_all (entries l) stale in
  let '(current_count, current_expires_at) :=
    match dget alive key with
    | None => (0, expires_at)
    | Some (count, e) => if Qle_bool e now then (0, expires_at) else (count, e)
    end in
  if limit <=? current_count
  then (Raise (too_many_requests error_detail), {| entries := alive; max_entries := max_entries l |})
  else
    (Ok tt,
     {| entries := shrink (Z.to_nat (max_entries l))
          (move_to_end (dset alive key (current_count + 1, current_expires_at)) key);
        max_entries := max_entries l |}).

(** ** The counter in Redis *)

Section backend.
Context {Srv E Key : Type}.
(** [INCR] and [EXPIRE] of the server *)
Context (incr : string → Srv → Z * Srv) (expire : string → Z → Srv → Srv).
(** [blake2b(key=secret, digest_size=16)(subject).hexdigest()] *)
Context (blake2b : string → string → string).

Record World := { limiter : LocalWindowLimiter; srv : Srv }.
Abbreviation M := (SE World (RateError E)).

(** [_REDIS_FIXED_WINDOW_SCRIPT] *)
Definition fixed_window_script (k : string) (ttl : Z) (s : Srv) : Z * Srv :=
  let '(current, s) := incr k s in
  if current =? 1 then (current, expire k ttl s) else (current, s).

(** What the configured store turns out to be: absent, without a Redis client,
    with one whose key builder raises, or usable. *)
Inductive Store := no_store | not_redis | key_build_fails | redis_store (make_key : string → string).
Definition resolve_redis_backend (st : Store) (key : string) : option string :=
  match st with
  | redis_store make_key => Some (make_key key)
  | _ => None
  end.

(** [failure]: the exception the client raises, if it does, before or after
    the script has run. *)
Inductive failure := answers | fails_before (e : E) | fails_after (e : E).
Definition enforce_redis_rate_limit (f : failure) (redis_key : string) (limit window_seconds : Z)
    (error_detail : string) : M unit := λ w,
  let run := fixed_window_script redis_key (Z.max 1 window_seconds) in
  match f with
  | fails_before e => (Raise (backend_error e), w)
  | fails_after e => (Raise (backend_error e), {| limiter := limiter w; srv := (run (srv w)).2 |})
  | answers =>
      let '(current, s) := run (srv w) in
      ((if limit <? current then Raise (too_many_requests error_detail) else Ok tt),
       {| limiter := limiter w; srv := s |})
  end.

Definition enforce_local (now : Q) (key : string) (limit window_seconds : Z) (error_detail : string)
    : M unit := λ w,
  let '(r, l) := enforce now key limit window_seconds error_detail (limiter w) in
  (r, {| limiter := l; srv := srv w |}).
Definition handle_backend_failure (now : Q) (failure_mode : FailureMode) (key : string)
    (limit window_seconds : Z) (error_detail : string) (cause : option (RateError E)) : M unit :=
  match failure_mode with
  | BYPASS => se_ret tt
  | RAISE => se_raise (default backend_unavailable cause)
  | LOCAL_FALLBACK => enforce_local now key limit window_seconds error_detail
  end.

(** The options of one call; [resolved_subject] is the given subject, the
    resolver's answer or the client address, in that order. *)
Record Options := {
  bucket : string; limit : Z; window_seconds : Z; subject : option string;
  subject_resolver : option (RequestIp.Request → string);
  hash_subject : bool; hash_secret : option string;
  key_prefix : string; error_detail : string; failure_mode : FailureMode }.
Context (ip_address : string → option string).
Definition default_subject_resolver (r : RequestIp.Request) : string :=
  match RequestIp.resolve_client_ip ip_address r true with
  | Some ip => str_or ip FALLBACK_SUBJECT
  | None => FALLBACK_SUBJECT
  end.
Definition resolved_subject (o : Options) (r : RequestIp.Request) : string :=
  match subject o with
  | Some s => s
  | None => match subject_resolver o with Some f => f r | None => default_subject_resolver r end
  end.
Definition hash_subject_key (secret : option string) (s : string) : string :=
  blake2b (default EmptyString secret) s.
Definition rate_key (o : Options) (r : RequestIp.Request) : string :=
  let subject_key := normalize_subject (resolved_subject o r) in
  let subject_key := if hash_subject o then hash_subject_key (hash_secret o) subject_key else subject_key in
  key_prefix o +:+ ":" +:+ normalize_bucket (bucket o) +:+ ":" +:+ subject_key.

Definition enforce_request_rate_limit (now : Q) (f : failure) (st : Store) (o : Options)
    (r : RequestIp.Request) : M unit :=
  if limit o <=? 0 then se_ret tt else
  let key := rate_key o r in
  let failed := handle_backend_failure now (failure_mode o) key (limit o) (window_seconds o) (error_detail o) in
  match st with
  | no_store => failed None
  | _ =>
      match resolve_redis_backend st key with
      | None => failed (Some no_redis_backend)
      | Some redis_key =>
          se_try (enforce_redis_rate_limit f redis_key (limit o) (window_seconds o) (error_detail o))
            (λ e, match e with
                  | too_many_requests _ => se_raise e
                  | _ => failed (Some e)
                  end)
      end
  end.

(** ** The decorator *)

Inductive DecoratorError := missing_parameter | unresolved_request | rate (e : RateError E).
(** The first parameter with the name. *)
Fixpoint request_index (request_param : string) (parameters : list string) : option nat :=
  match parameters with
  | [] => None
  | p :: ps => if decide (p = request_param) then Some 0%nat else S <$> request_index request_param ps
  end.
(** Argument values are [None] for Python's [None]. *)
Definition resolve_request {Obj} (request_param : string) (idx : nat) (args : list (option Obj))
    (kwargs : list (string * option Obj)) : option Obj :=
  match mjoin (dget kwargs request_param) with
  | Some o => Some o
  | None => mjoin (args !! idx)
  end.
Definition rate_limited_request {Obj R} (as_request : Obj → RequestIp.Request)
    (request_param : string) (parameters : list string) (o : Options)
    (handler : list (option Obj) → list (string * option Obj) → SE World DecoratorError R)
    : result DecoratorError
        (Q → failure → Store → list (option Obj) → list (string * option Obj) → SE World DecoratorError R) :=
  match request_index request_param parameters with
  | None => Raise missing_parameter
  | Some idx => Ok (λ now f st args kwargs,
      match resolve_request request_param idx args kwargs with
      | None => se_raise unresolved_request
      | Some obj => λ w,
          match enforce_request_rate_limit now f st o (as_request obj) w with
          | (Raise e, w) => (Raise (rate e), w)
          | (Ok _, w) => handler args kwargs w
          end
      end)
  end.
End backend.

(** ** Normalised parts *)

(** No two colons in a row. *)
Fixpoint no_double (s : string) : bool :=
  match s with
  | String c (String d _ as s') => negb (is_colon c && is_colon d) && no_double s'
  | _ => true
  end.
Definition first_is (p : ascii → bool) (s : string) : bool :=
  match s with String c _ => p c | EmptyString => false end.

Lemma sub_runs_part b s : sall part_char (sub_runs (λ c, negb (part_char c)) ":" b s) = true.
Proof.
  revert b. induction s as [|c s IH]; intros b; cbn; [done|].
  destruct (part_char c) eqn:Hc; cbn; [by rewrite Hc, IH|]. destruct b; cbn; by rewrite ?IH.
Qed.
Lemma sub_runs_sall p q r b s :
  q r = true → sall q s = true → sall q (sub_runs p r b s) = true.
Proof.
  intros Hr. revert b. induction s as [|c s IH]; intros b; cbn; [done|].
  rewrite andb_true_iff. intros [Hc Hs]. destruct (p c), b; cbn; rewrite ?Hr, ?Hc, ?IH; done.
Qed.
Lemma sub_runs_none p r b s : sall (λ c, negb (p c)) s = true → sub_runs p r b s = s.
Proof.
  revert b. induction s as [|c s IH]; intros b; cbn; [done|].
  rewrite andb_true_iff, negb_true_iff. intros [-> Hs]. by rewrite IH.
Qed.
Lemma sub_runs_no_double b s :
  no_double (sub_runs is_colon ":" b s) = true ∧
  (b = true → first_is is_colon (sub_runs is_colon ":" b s) = false).
Proof.
  revert b. induction s as [|c s IH]; intros b; cbn [sub_runs]; [done|].
  destruct (is_colon c) eqn:Hc.
  - destruct b; [apply IH|]. split; [|done]. destruct (IH true) as [IHd IHf].
    specialize (IHf eq_refl). cbn [no_double].
    destruct (sub_runs is_colon ":" true s) as [|d t]; [done|]. cbn in IHf. by rewrite IHf.
  - destruct (IH false) as [IHd _]. split; [|intros _; exact Hc]. cbn [no_double].
    destruct (sub_runs is_colon ":" false s); [done|]. by rewrite Hc.
Qed.
Lemma sub_runs_id b s :
  no_double s = true → (b = true → first_is is_colon s = false) → sub_runs is_colon ":" b s = s.
Proof.
  revert b. induction s as [|c s IH]; intros b Hd Hf; [done|]. cbn [sub_runs].
  destruct (is_colon c) eqn:Hc.
  - destruct b; [specialize (Hf eq_refl); cbn in Hf; congruence|].
    assert (c = ":"%char) as -> by (unfold is_colon in Hc; by bprop). f_equal. apply IH.
    + destruct s; [done|]. cbn in Hd. by apply andb_true_iff in Hd as [_ ?].
    + intros _. destruct s; [done|]. cbn in Hd |- *. apply andb_true_iff in Hd as [Hn _].
      by apply negb_true_iff in Hn.
  - f_equal. apply IH; [|done]. destruct s; [done|]. cbn in Hd. by apply andb_true_iff in Hd as [_ ?].
Qed.
Lemma no_double_lstrip p s : no_double s = true → no_double (lstrip_by p s) = true.
Proof.
  induction s as [|c s IH]; [done|]. intros Hd. cbn [lstrip_by]. destruct (p c); [|done].
  apply IH. destruct s; [done|]. cbn in Hd. by apply andb_true_iff in Hd as [_ ?].
Qed.
Lemma no_double_rstrip p s : no_double s = true → no_double (rstrip_by p s) = true.
Proof.
  induction s as [|c s IH]; [done|]. intros Hd. cbn [rstrip_by].
  assert (Hs : no_double s = true).
  { destruct s; [done|]. cbn in Hd. by apply andb_true_iff in Hd as [_ ?]. }
  specialize (IH Hs). destruct s as [|d s]; [by destruct (p c)|].
  cbn [rstrip_by] in *. destruct (rstrip_by p s) as [|d' s'] eqn:Er.
  - destruct (p d); [by destruct (p c)|]. cbn in Hd |- *.
    apply andb_true_iff in Hd as [-> _]. done.
  - cbn in Hd |- *. apply andb_true_iff in Hd as [-> _]. done.
Qed.

Lemma part_char_not_space c : part_char c = true → is_space c = false.
Proof.
  intros Hc. apply negb_true_iff. revert Hc. rewrite <-implb_true_iff. revert c.
  apply (forall_ascii (λ c, implb (part_char c) (negb (is_space c)))). by vm_compute.
Qed.
Lemma part_char_lower c : part_char c = true → lower_char c = c.
Proof.
  intros Hc. apply (bool_decide_eq_true_1 (lower_char c = c)). revert Hc.
  rewrite <-implb_true_iff. revert c.
  apply (forall_ascii (λ c, implb (part_char c) (bool_decide (lower_char c = c)))). by vm_compute.
Qed.
Lemma smap_id f s : (∀ c, part_char c = true → f c = c) → sall part_char s = true → smap f s = s.
Proof.
  intros Hf. induction s as [|c s IH]; cbn; [done|]. rewrite andb_true_iff.
  intros [Hc Hs]. by rewrite Hf, IH.
Qed.

Definition clean_part (s : string) : Prop :=
  s ≠ EmptyString ∧ sall part_char s = true ∧ no_double s = true ∧ strip_chars ":" s = s.

Lemma normalize_clean s : clean_part (normalize_subject s).
Proof.
  unfold normalize_subject, str_or. cbn zeta.
  set (a := sub_runs _ ":" false (lower (strip s))). set (n := strip_chars _ _).
  destruct (is_empty n) eqn:Hn; [by vm_compute|]. split; [by apply is_empty_false|].
  split; [|split; [|by apply strip_idemp]].
  - apply strip_sall_pres, sub_runs_sall; [done|]. apply sub_runs_part.
  - apply no_double_lstrip, no_double_rstrip, sub_runs_no_double.
Qed.
Lemma normalize_of_clean s : clean_part s → normalize_subject s = s.
Proof.
  intros (Hne & Hp & Hd & Hs). unfold normalize_subject. cbn zeta.
  replace (strip s) with s; [|symmetry; apply strip_sall; revert Hp; apply sall_mono;
    intros c Hc; by rewrite part_char_not_space].
  unfold lower. rewrite smap_id by auto using part_char_lower.
  rewrite (sub_runs_none (λ c, negb (part_char c))); [|revert Hp; apply sall_mono; intros c Hc; by rewrite Hc].
  rewrite sub_runs_id by done. rewrite Hs. unfold str_or. by apply is_empty_false in Hne as ->.
Qed.

(** The parts of a rate-limit key are in normal form: never empty, made of
    [a-z0-9:_-] only, no colon at either end and no two in a row; and a part
    already in that form is left as it is, so normalising twice is
    normalising once. *)
Lemma normalized_parts_are_clean s :
  clean_part (normalize_subject s) ∧
  normalize_bucket (normalize_bucket s) = normalize_bucket s ∧
  (∀ t, clean_part t → normalize_subject t = t).
Proof.
  split; [apply normalize_clean|]. split; [|apply normalize_of_clean].
  apply normalize_of_clean, normalize_clean.
Qed.

(** ** The windows of the local limiter *)

Section windows.
Context (limit window_seconds : Z) (detail : string).
Context (Hlimit : 0 < limit).
Abbreviation ttl := (inject_Z (Z.max 1 window_seconds)).

(** The calls of one limiter, in order, and whether each passed. *)
Fixpoint run_calls (calls : list (Q * string)) (l : LocalWindowLimiter) : list (string * (Q * bool)) :=
  match calls with
  | [] => []
  | (now, key) :: calls =>
      match enforce (E := Empty_set) now key limit window_seconds detail l with
      | (Ok _, l) => (key, (now, true)) :: run_calls calls l
      | (Raise _, l) => (key, (now, false)) :: run_calls calls l
      end
  end.
Definition events_of (key : string) (evs : list (string * (Q * bool))) : list (Q * bool) :=
  omap (λ e, if decide (e.1 = key) then Some e.2 else None) evs.

(** [served c w]: with [c] calls already passed, the next ones pass until the
    limit is reached and none passes after. *)
Fixpoint served (c : Z) (w : list (Q * bool)) : Prop :=
  match w with
  | [] => True
  | (_, b) :: w => b = (c <? limit) ∧ served (if b then c + 1 else c) w
  end.
(** The calls of a key, cut into windows: a window opens with its first call
    and lasts [ttl]; the next one opens later. *)
Inductive Windows : Q → list (list (Q * bool)) → Prop :=
  | Windows_nil from : Windows from []
  | Windows_cons from t b w ws :
      (from <= t)%Q → served 0 ((t, b) :: w) →
      Forall (λ x, t <= x.1 /\ x.1 < t + ttl)%Q w →
      Windows (t + ttl) ws → Windows from (((t, b) :: w) :: ws).

Lemma Windows_from a b ws : (a <= b)%Q → Windows b ws → Windows a ws.
Proof. intros Hab HW. inversion HW; subst; constructor; try done. lra. Qed.

Fixpoint nondecreasing (from : Q) (calls : list (Q * string)) : Prop :=
  match calls with
  | [] => True
  | (now, _) :: calls => (from <= now)%Q ∧ nondecreasing now calls
  end.

Lemma alive_spec now (d : list (string * (Z * Q))) k :
  wf d →
  dget (ddel_all d (dkeys (List.filter (λ p, Qle_bool p.2.2 now) d))) k =
  match dget d k with
  | Some (c, e) => if Qle_bool e now then None else Some (c, e)
  | None => None
  end.
Proof.
  intros Hd. rewrite dget_ddel_all by done. case_decide as Hk.
  - apply dkeys_elem in Hk as [[c e] [Hin Hq]%list_elem_of_filter']. rewrite (elem_dget d k (c, e)) by done.
    cbn in Hq. by rewrite Hq.
  - destruct (dget d k) as [[c e]|] eqn:Hg; [|done]. destruct (Qle_bool e now) eqn:Hq; [|done].
    exfalso. apply Hk, dkeys_elem. exists (c, e). apply list_elem_of_filter'. split; [|done].
    by apply dget_elem.
Qed.

(** What one call does to the entry of each key, when nothing is evicted. *)
(** The entry under [key] becomes the last one; nothing is evicted. *)
Lemma replaced_entry (l : LocalWindowLimiter) (alive : list (string * (Z * Q))) (ks : list string) key ce :
  wf alive → NoDup ks → Z.of_nat (length ks) <= max_entries l → key ∈ ks →
  (∀ k, k ∈ dkeys alive → k ∈ ks) →
  let d := ddel alive key ++ [(key, ce)] in
  wf d ∧ (∀ k, k ∈ dkeys d → k ∈ ks) ∧ shrink (Z.to_nat (max_entries l)) d = d ∧
  dget d key = Some ce ∧ ∀ k, k ≠ key → dget d k = dget alive k.
Proof.
  intros Hwa Hks Hlen Hin Hsa d.
  assert (Hwd : wf d) by (apply wf_app_fresh; [auto|by apply ddel_not_key]).
  assert (Hsd : ∀ k, k ∈ dkeys d → k ∈ ks).
  { intros k. unfold d, dkeys. rewrite fmap_app, elem_of_app. intros [Hk|Hk].
    - apply Hsa. eapply elem_of_sublist; [exact Hk|]. apply (fmap_sublist fst), ddel_sublist.
    - by apply list_elem_of_singleton in Hk as ->. }
  split; [done|]. split; [done|]. split; [|split].
  - apply shrink_small. assert (length (dkeys d) <= length ks)%nat by (apply NoDup_incl_length'; done).
    unfold dkeys in *. rewrite length_fmap in *. lia.
  - unfold d. rewrite dget_app, dget_ddel_eq by done. cbn. by rewrite decide_True.
  - intros k Hk. unfold d. rewrite dget_app, dget_ddel_ne by done. cbn. rewrite decide_False by done.
    by destruct (dget alive k).
Qed.
Lemma enforce_spec now key l ks :
  wf (entries l) → NoDup ks → Z.of_nat (length ks) <= max_entries l →
  key ∈ ks → (∀ k, k ∈ dkeys (entries l) → k ∈ ks) →
  let current := match dget (entries l) key with
                 | Some (c, e) => if Qle_bool e now then None else Some (c, e)
                 | None => None
                 end in
  let '(r, l') := enforce (E := Empty_set) now key limit window_seconds detail l in
  wf (entries l') ∧ max_entries l' = max_entries l ∧
  (∀ k, k ∈ dkeys (entries l') → k ∈ ks) ∧
  r = (if limit <=? match current with Some (c, _) => c | None => 0 end
       then Raise (too_many_requests detail) else Ok tt) ∧
  dget (entries l') key =
    (if limit <=? match current with Some (c, _) => c | None => 0 end then current
     else match current with
          | Some (c, e) => Some (c + 1, e)
          | None => Some (1, (now + ttl)%Q)
          end) ∧
  ∀ k, k ≠ key → dget (entries l') k =
    match dget (entries l) k with
    | Some (c, e) => if Qle_bool e now then None else Some (c, e)
    | None => None
    end.
Proof.
  intros Hwf Hks Hlen Hin Hsub current. unfold enforce.
  set (alive := ddel_all _ _). assert (Hal : ∀ k, dget alive k = match dget (entries l) k with
    | Some (c, e) => if Qle_bool e now then None else Some (c, e) | None => None end).
  { intros k. by apply alive_spec. }
  assert (Hwa : wf alive) by by apply wf_ddel_all.
  assert (Hsa : ∀ k, k ∈ dkeys alive → k ∈ ks).
  { intros k Hk. apply Hsub. apply dget_Some_key in Hk as [ce Hk]. rewrite Hal in Hk.
    apply dget_Some_key. destruct (dget (entries l) k) as [[c e]|]; [by eexists|done]. }
  pose proof (λ ce, replaced_entry l alive ks key ce Hwa Hks Hlen Hin Hsa) as Hfresh. cbv zeta in Hfresh.
  pose proof (Hal key) as Hcur. fold current in Hcur.
  assert (Hc : match dget alive key with
    | Some (count, e) => if Qle_bool e now then (0, (now + ttl)%Q) else (count, e)
    | None => (0, (now + ttl)%Q) end =
    match current with Some (c, e) => (c, e) | None => (0, (now + ttl)%Q) end).
  { rewrite Hcur. unfold current. destruct (dget (entries l) key) as [[c e]|]; [|done].
    destruct (Qle_bool e now) eqn:Hq; [done|]. by rewrite Hq. }
  rewrite Hc. clear Hc.
  destruct current as [[c e]|].
  - destruct (limit <=? c); cbn [entries max_entries].
    + split_and!; done.
    + rewrite move_to_end_dset. destruct (Hfresh (c + 1, e)) as (H1 & H2 & -> & Hg1 & Hg2). split_and!; try done.
      intros k Hk. by rewrite Hg2.
  - destruct (Z.leb_spec limit 0); [lia|]. cbn [entries max_entries].
    rewrite move_to_end_dset. destruct (Hfresh (0 + 1, (now + ttl)%Q)) as (H1 & H2 & -> & Hg1 & Hg2). split_and!; try done.
    intros k Hk. by rewrite Hg2.
Qed.

Lemma run_calls_windows ks key calls : ∀ from l,
  wf (entries l) → NoDup ks → Z.of_nat (length ks) <= max_entries l →
  (∀ k, k ∈ dkeys (entries l) → k ∈ ks) → (∀ p, p ∈ calls → p.2 ∈ ks) →
  nondecreasing from calls →
  let evs := events_of key (run_calls calls l) in
  match dget (entries l) key with
  | Some (c, e) => ∃ pre ws, evs = pre ++ concat ws ∧ served c pre ∧
      Forall (λ x, from <= x.1 ∧ x.1 < e)%Q pre ∧ Windows e ws
  | None => ∃ ws, evs = concat ws ∧ Windows from ws
  end.
Proof.
  induction calls as [|[now k] calls IH]; intros from l Hwf Hks Hlen Hsub Hcalls Hnd evs.
  { unfold evs; cbn. destruct (dget (entries l) key) as [[c e]|]; [|exists []; split; [done|constructor]].
    exists [], []. split_and!; [done|done|constructor|constructor]. }
  destruct Hnd as [Hfrom Hnd]. cbn [run_calls] in evs.
  pose proof (enforce_spec now k l ks Hwf Hks Hlen (Hcalls (now, k) ltac:(left)) Hsub) as Hsp.
  cbn zeta in Hsp. destruct (enforce now k limit window_seconds detail l) as [r l'] eqn:He.
  destruct Hsp as (Hwf' & Hmax & Hsub' & Hr & Hk & Hother).
  specialize (IH now l' Hwf' Hks ltac:(by rewrite Hmax) Hsub' ltac:(intros p Hp; apply Hcalls; by right) Hnd).
  cbn zeta in IH.
  assert (Hevs : evs = (if decide (k = key) then [(now, match r with Ok _ => true | Raise _ => false end)] else [])
                   ++ events_of key (run_calls calls l')).
  { unfold evs, events_of. destruct r; cbn; by case_decide. }
  rewrite Hevs. clear Hevs evs. destruct (decide (k = key)) as [->|Hne].
  - rewrite Hk in IH. destruct (dget (entries l) key) as [[c e]|] eqn:Hd.
    + destruct (Qle_bool e now) eqn:Hq; autorewrite with qbool in Hq.
      * destruct (Z.leb_spec limit 0); [lia|]. subst r. destruct IH as (pre & ws & -> & Hs & Hp & HW).
        exists [], (((now, true) :: pre) :: ws). split_and!; [done|done|constructor|].
        constructor; [lra| |done|done]. cbn. split; [|done]. symmetry. by apply Z.ltb_lt.
      * destruct (Z.leb_spec limit c); subst r.
        -- destruct IH as (pre & ws & -> & Hs & Hp & HW).
           exists ((now, false) :: pre), ws. split_and!; [done| | |done].
           ++ cbn. split; [|done]. symmetry. by apply Z.ltb_ge.
           ++ constructor; [cbn; lra|]. eapply Forall_impl; [exact Hp|]. cbn. intros x Hx. lra.
        -- destruct IH as (pre & ws & -> & Hs & Hp & HW).
           exists ((now, true) :: pre), ws. split_and!; [done| | |done].
           ++ cbn. split; [|done]. symmetry. by apply Z.ltb_lt.
           ++ constructor; [cbn; lra|]. eapply Forall_impl; [exact Hp|]. cbn. intros x Hx. lra.
    + destruct (Z.leb_spec limit 0); [lia|]. subst r. destruct IH as (pre & ws & -> & Hs & Hp & HW).
      exists (((now, true) :: pre) :: ws). split; [done|].
      constructor; [lra| |done|done]. cbn. split; [|done]. symmetry. by apply Z.ltb_lt.
  - cbn. rewrite (Hother key) in IH by done.
    destruct (dget (entries l) key) as [[c e]|]; [|].
    + destruct (Qle_bool e now) eqn:Hq; autorewrite with qbool in Hq.
      * destruct IH as (ws & -> & HW). exists [], ws. split_and!; [done|done|constructor|].
        by eapply Windows_from.
      * destruct IH as (pre & ws & -> & Hs & Hp & HW). exists pre, ws. split_and!; [done|done| |done].
        eapply Forall_impl; [exact Hp|]. cbn. intros x Hx. lra.
    + destruct IH as (ws & -> & HW). exists ws. split; [done|]. by eapply Windows_from.
Qed.
End windows.


(** The failure modes.  A non-positive limit never refuses.  A call that
    reaches the Redis counter is refused exactly when the counter has passed
    the limit, in every mode, and the local limiter is not consulted; when the
    backend is missing or fails, BYPASS lets the call pass, RAISE raises the
    cause, and LOCAL_FALLBACK does exactly what the local limiter does on the
    same key. *)
Lemma failure_modes {Srv E} (incr : string → Srv → Z * Srv) expire blake2b ip_address
    now (f : @failure E) st o r (w : @World Srv) :
  let run := enforce_request_rate_limit incr expire blake2b ip_address now f st o r w in
  let k := rate_key blake2b ip_address o r in
  let local := enforce (E := E) now k (limit o) (window_seconds o) (error_detail o) (limiter w) in
  let failing cause s' :=
    match failure_mode o with
    | BYPASS => (Ok tt, {| limiter := limiter w; srv := s' |})
    | RAISE => (Raise cause, {| limiter := limiter w; srv := s' |})
    | LOCAL_FALLBACK => (local.1, {| limiter := local.2; srv := s' |})
    end in
  run =
  if limit o <=? 0 then (Ok tt, w) else
  match st with
  | no_store => failing backend_unavailable (srv w)
  | not_redis | key_build_fails => failing no_redis_backend (srv w)
  | redis_store make_key =>
      let '(current, s') := fixed_window_script incr expire (make_key k) (Z.max 1 (window_seconds o)) (srv w) in
      match f with
      | answers => ((if limit o <? current then Raise (too_many_requests (error_detail o)) else Ok tt),
                    {| limiter := limiter w; srv := s' |})
      | fails_before e => failing (backend_error e) (srv w)
      | fails_after e => failing (backend_error e) s'
      end
  end.
Proof.
  cbn zeta. unfold enforce_request_rate_limit. destruct (limit o <=? 0); [done|]. cbn zeta.
  assert (Hf : ∀ cause c (w' : @World Srv), limiter w' = limiter w →
    match cause with Some c' => c' = c | None => c = backend_unavailable end →
    handle_backend_failure now (failure_mode o) (rate_key blake2b ip_address o r) (limit o)
      (window_seconds o) (error_detail o) cause w' =
    match failure_mode o with
    | BYPASS => (Ok tt, {| limiter := limiter w; srv := srv w' |})
    | RAISE => (Raise c, {| limiter := limiter w; srv := srv w' |})
    | LOCAL_FALLBACK =>
        let l := enforce (E := E) now (rate_key blake2b ip_address o r) (limit o) (window_seconds o)
                   (error_detail o) (limiter w) in
        (l.1, {| limiter := l.2; srv := srv w' |})
    end).
  { intros cause c [lim s'] Hl Hc. cbn in Hl. subst lim. unfold handle_backend_failure, enforce_local.
    destruct (failure_mode o); [|done|destruct cause; cbn in Hc; by subst].
    cbn. by destruct (enforce _ _ _ _ _ _). }
  destruct st as [| | |make_key]; cbn [resolve_redis_backend]; try by apply Hf.
  unfold se_try, enforce_redis_rate_limit.
  destruct (fixed_window_script _ _ _ _ _) as [current s'] eqn:Es.
  destruct f as [|e|e].
  - by destruct (limit o <? current).
  - by apply Hf.
  - by apply Hf.
Qed.
End RateLimit.
