(* ===== verification/Asgi.v ===== *)
(** * The applications of the web middleware

    An ASGI application as the middleware sees it: a finite tree of what it
    does, over the messages of HTTP.  A middleware is a function on such
    trees, so that middlewares compose; [behave] is what a tree does. *)

From S2P Require Import Prelude.
#[local] Open Scope list_scope.

Module Asgi.
Abbreviation headers := (list (string * string)).

(** A body message without [body] has the empty one. *)
Inductive Message :=
  | response_start (status : Z) (hs : headers)
  | response_body (body : string) (more_body : bool)
  | other_message (type : string).
(** What the middleware reads of a scope; [route_path] is the path of its
    [route_handler], when it has both. *)
Record Scope := {
  scope_type : string; method : option string; path : option string; request_headers : headers;
  route_path : option string }.

Section app.
(** The context variables of the task, exceptions, and the samples of the
    metrics. *)
Context {C E S : Type}.

(** Setting the variables gives back what they were; a line of the log is
    known by the variables it is written under. *)
Inductive App :=
  | Return
  | RaiseExc (e : E)
  | Send (m : Message) (k : App)
  | SetVars (f : C → C) (k : C → App)
  | Log (k : App)
  | Count (s : S) (k : App).

Record World := { vars : C; sent : list Message; logged : list C; counted : list S }.
Fixpoint run (app : App) (w : World) : result E unit * World :=
  match app with
  | Return => (Ok tt, w)
  | RaiseExc e => (Raise e, w)
  | Send m k => run k {| vars := vars w; sent := sent w ++ [m]; logged := logged w; counted := counted w |}
  | SetVars f k => run (k (vars w)) {| vars := f (vars w); sent := sent w; logged := logged w; counted := counted w |}
  | Log k => run k {| vars := vars w; sent := sent w; logged := logged w ++ [vars w]; counted := counted w |}
  | Count s k => run k {| vars := vars w; sent := sent w; logged := logged w; counted := counted w ++ [s] |}
  end.

(** The same from given variables: the outcome, the variables it leaves, what
    it sends, logs and counts. *)
Record Behaviour := { outcome : result E unit; left : C; sends : list Message; logs : list C; counts : list S }.
Fixpoint behave (app : App) (v : C) : Behaviour :=
  match app with
  | Return => {| outcome := Ok tt; left := v; sends := []; logs := []; counts := [] |}
  | RaiseExc e => {| outcome := Raise e; left := v; sends := []; logs := []; counts := [] |}
  | Send m k => let b := behave k v in
      {| outcome := outcome b; left := left b; sends := m :: sends b; logs := logs b; counts := counts b |}
  | SetVars f k => behave (k v) (f v)
  | Log k => let b := behave k v in
      {| outcome := outcome b; left := left b; sends := sends b; logs := v :: logs b; counts := counts b |}
  | Count s k => let b := behave k v in
      {| outcome := outcome b; left := left b; sends := sends b; logs := logs b; counts := s :: counts b |}
  end.
Lemma run_behaves app : ∀ w, run app w =
  let b := behave app (vars w) in
  (outcome b, {| vars := left b; sent := sent w ++ sends b; logged := logged w ++ logs b; counted := counted w ++ counts b |}).
Proof.
  induction app as [|e|m k IH|f k IH|k IH|s k IH]; intros w; cbn [run behave].
  - cbn. rewrite !app_nil_r. by destruct w.
  - cbn. rewrite !app_nil_r. by destruct w.
  - rewrite IH. cbn. by rewrite <-app_assoc.
  - by rewrite IH.
  - rewrite IH. cbn. by rewrite <-app_assoc.
  - rewrite IH. cbn. by rewrite <-app_assoc.
Qed.

(** ** Middleware *)

Fixpoint send_all (ms : list Message) (k : App) : App :=
  match ms with [] => k | m :: ms => Send m (send_all ms k) end.
(** A wrapper of [send] with a state of its own. *)
Section wrapped.
Context {W : Type} (wrapper : W → Message → list Message * W).
Fixpoint wrapping (w : W) (app : App) : App :=
  match app with
  | Return => Return
  | RaiseExc e => RaiseExc e
  | Send m k => let '(ms, w') := wrapper w m in send_all ms (wrapping w' k)
  | SetVars f k => SetVars f (λ v, wrapping w (k v))
  | Log k => Log (wrapping w k)
  | Count s k => Count s (wrapping w k)
  end.
Fixpoint wrap_all (w : W) (ms : list Message) : list Message :=
  match ms with [] => [] | m :: ms => let '(out, w') := wrapper w m in out ++ wrap_all w' ms end.
End wrapped.
(** [try ... finally]: [f] runs at the end, after which the outcome stands. *)
Fixpoint finally (f : App → App) (app : App) : App :=
  match app with
  | Return => f Return
  | RaiseExc e => f (RaiseExc e)
  | Send m k => Send m (finally f k)
  | SetVars g k => SetVars g (λ v, finally f (k v))
  | Log k => Log (finally f k)
  | Count s k => Count s (finally f k)
  end.
Definition ended (r : result E unit) : App := match r with Ok _ => Return | Raise e => RaiseExc e end.

Definition with_sends (ms : list Message) (b : Behaviour) : Behaviour :=
  {| outcome := outcome b; left := left b; sends := ms; logs := logs b; counts := counts b |}.
Lemma behave_send_all ms k v : behave (send_all ms k) v = with_sends (ms ++ sends (behave k v)) (behave k v).
Proof. induction ms as [|m ms IH]; cbn; [by destruct (behave k v)|]. by rewrite IH. Qed.
Lemma behave_wrapping {W} wrapper app : ∀ (w : W) v,
  behave (wrapping wrapper w app) v = with_sends (wrap_all wrapper w (sends (behave app v))) (behave app v).
Proof.
  induction app as [|e|m k IH|f k IH|k IH|s k IH]; intros w v; cbn [wrapping behave].
  - done.
  - done.
  - destruct (wrapper w m) as [ms w'] eqn:Hw. rewrite behave_send_all, IH. cbn. by rewrite Hw.
  - apply IH.
  - by rewrite IH.
  - by rewrite IH.
Qed.
(** A wrapper without a state. *)
Lemma wrap_all_map (f : Message → Message) ms : wrap_all (λ w m, ([f m], w)) tt ms = f <$> ms.
Proof. induction ms as [|m ms IH]; cbn; [done|]. by rewrite IH. Qed.
Lemma behave_finally f app : ∀ v, behave (finally f app) v =
  let b := behave app v in let e := behave (f (ended (outcome b))) (left b) in
  {| outcome := outcome e; left := left e; sends := sends b ++ sends e; logs := logs b ++ logs e;
     counts := counts b ++ counts e |}.
Proof.
  induction app as [|e|m k IH|g k IH|k IH|s k IH]; intros v; cbn [finally behave].
  - cbn. by destruct (behave (f Return) v).
  - cbn. by destruct (behave (f (RaiseExc e)) v).
  - by rewrite IH.
  - by rewrite IH.
  - by rewrite IH.
  - by rewrite IH.
Qed.
End app.
Arguments App : clear implicits.
Arguments World : clear implicits.
Arguments Behaviour : clear implicits.
End Asgi.
