(* ===== verification/Etag.v ===== *)
(** * web/etag.py: ETag and conditional requests

    The middleware as a fold of [send_wrapper] over the messages the wrapped
    application sends.  Header names and values and bodies are bytes.  The
    digest and the exclusion patterns are parameters. *)

From S2P Require Import Prelude PyStr PyDict Asgi.

Module Etag.
Import Asgi.
Definition DEFAULT_CACHE_CONTROL : string := "private, no-cache".
Definition CARRIED_ON_304 : list string :=
  ["cache-control"; "content-location"; "date"; "expires"; "vary"]%string.
Definition is_carried (name : string) : bool := bool_decide (name ∈ CARRIED_ON_304).

Fixpoint header (hs : headers) (name : string) : option string :=
  match hs with
  | [] => None
  | (key, value) :: hs => if decide (blower key = blower name) then Some value else header hs name
  end.

Section etag.
(** [blake2b(body, digest_size=16).hexdigest()] *)
Context (digest : string → string).

Definition quoted (d : string) : string := String dquote (d +:+ String dquote EmptyString).
Definition compute_etag (body : string) : string := quoted (digest body).

Definition tag_of (candidate : string) : string :=
  bstrip (lstrip_chars "W/" candidate).
Definition etag_matches (if_none_match etag : string) : bool :=
  let raw := bstrip if_none_match in
  if decide (raw = "*"%string) then true
  else
    let target := tag_of etag in
    existsb (λ candidate, bool_decide (tag_of (bstrip candidate) = target)) (split "," raw).

(** [_finalize]: the messages it sends *)
Definition finalize (start : option (Z * headers)) (body : string) (if_none_match : option string)
    : list Message :=
  match start with
  | None => [response_body body false]
  | Some (status, hs) =>
      if is_empty body then [response_start status hs; response_body body false]
      else
        let etag_bytes := compute_etag body in
        let hs := match header hs "cache-control" with
                  | None => hs ++ [("cache-control"%string, DEFAULT_CACHE_CONTROL)]
                  | Some _ => hs
                  end in
        if match if_none_match with Some m => etag_matches m etag_bytes | None => false end then
          let carried := List.filter (λ h, is_carried (blower h.1)) hs in
          [response_start 304 (carried ++ [("etag"%string, etag_bytes)]); response_body EmptyString false]
        else [response_start status (hs ++ [("etag"%string, etag_bytes)]); response_body body false]
  end.

Record Wrapper := {
  start_message : option (Z * headers); body_chunks : string; passthrough : bool;
  sent : list Message }.
Definition new_wrapper : Wrapper :=
  {| start_message := None; body_chunks := EmptyString; passthrough := false; sent := [] |}.
Definition emit (ms : list Message) (w : Wrapper) : Wrapper :=
  {| start_message := start_message w; body_chunks := body_chunks w; passthrough := passthrough w;
     sent := sent w ++ ms |}.
Definition streamed (status : Z) (hs : headers) : bool :=
  (status <? 200) || (300 <=? status) || bool_decide (is_Some (header hs "etag"))
  || contains "no-store" (blower (default EmptyString (header hs "cache-control"))).
Definition send_wrapper (if_none_match : option string) (w : Wrapper) (m : Message) : Wrapper :=
  if passthrough w then emit [m] w else
  match m with
  | response_start status hs =>
      if streamed status hs
      then emit [m] {| start_message := start_message w; body_chunks := body_chunks w;
                       passthrough := true; sent := sent w |}
      else {| start_message := Some (status, hs); body_chunks := body_chunks w;
              passthrough := passthrough w; sent := sent w |}
  | response_body body more_body =>
      let w := {| start_message := start_message w; body_chunks := body_chunks w +:+ body;
                  passthrough := passthrough w; sent := sent w |} in
      if more_body then w
      else emit (finalize (start_message w) (body_chunks w) if_none_match) w
  | other_message _ => emit [m] w
  end.

(** [excluded path]: some pattern of [exclude] occurs in it.  [app] is what the
    wrapped application sends. *)
Definition tags (excluded : string → bool) (scope : Scope) : bool :=
  if negb (bool_decide (scope_type scope = "http"%string)) || negb (bool_decide (method scope = Some "GET"%string))
  then false
  else negb (excluded (default EmptyString (path scope))).
Definition call (excluded : string → bool) (scope : Scope) (app : list Message) : list Message :=
  if tags excluded scope
  then sent (foldl (send_wrapper (header (request_headers scope) "if-none-match")) new_wrapper app)
  else app.
(** [ETagMiddleware.__call__]: each message the application sends makes the
    wrapper send some of its own. *)
Definition send_step (if_none_match : option string) (w : Wrapper) (m : Message) : list Message * Wrapper :=
  let w' := send_wrapper if_none_match
    {| start_message := start_message w; body_chunks := body_chunks w; passthrough := passthrough w; sent := [] |} m in
  (sent w', w').
Definition middleware {C E S} (excluded : string → bool) (scope : Scope) (app : App C E S) : App C E S :=
  if tags excluded scope
  then wrapping (send_step (header (request_headers scope) "if-none-match")) new_wrapper app
  else app.

(** ** Lemmas *)

Lemma send_wrapper_sent im w m : send_wrapper im w m =
  let w' := send_wrapper im {| start_message := start_message w; body_chunks := body_chunks w;
              passthrough := passthrough w; sent := [] |} m in
  {| start_message := start_message w'; body_chunks := body_chunks w'; passthrough := passthrough w';
     sent := sent w ++ sent w' |}.
Proof.
  unfold send_wrapper, emit. destruct (passthrough w) eqn:Hp; [done|].
  destruct m as [st hs|b more|t]; cbn; [destruct (streamed st hs)|destruct more|]; cbn; by rewrite ?app_nil_r, ?Hp.
Qed.
Lemma wrap_all_send_step im ms : ∀ w,
  sent w ++ wrap_all (send_step im) w ms = sent (foldl (send_wrapper im) w ms).
Proof.
  induction ms as [|m ms IH]; intros w; cbn [wrap_all foldl]; [by rewrite app_nil_r|].
  rewrite <-IH, (send_wrapper_sent im w m). unfold send_step at 1. cbn zeta.
  set (w' := send_wrapper im _ m). cbn [sent]. rewrite <-app_assoc. f_equal. f_equal.
  generalize w' as u. clear. intros u. induction ms as [|m ms IH]; [done|]. done.
Qed.
(** What the middleware sends is [call] of what the application sends. *)
Lemma behave_tagged {C E S} excluded scope (app : App C E S) v :
  behave (middleware excluded scope app) v = with_sends (call excluded scope (sends (behave app v))) (behave app v).
Proof.
  unfold middleware, call. destruct (tags excluded scope); [|by destruct (behave app v)].
  rewrite behave_wrapping. f_equal. by rewrite <-wrap_all_send_step.
Qed.

Definition chunks (bs : list string) : list Message := (λ b, response_body b true) <$> bs.
Fixpoint concat_str (bs : list string) : string :=
  match bs with [] => EmptyString | b :: bs => b +:+ concat_str bs end.

Lemma foldl_passthrough im app w :
  passthrough w = true → sent (foldl (send_wrapper im) w app) = sent w ++ app.
Proof.
  revert w. induction app as [|m app IH]; intros w Hw; cbn; [by rewrite app_nil_r|].
  rewrite IH; unfold send_wrapper; rewrite Hw; cbn; [by rewrite <-app_assoc|done].
Qed.
Lemma foldl_chunks im bs w :
  passthrough w = false →
  foldl (send_wrapper im) w (chunks bs) =
  {| start_message := start_message w; body_chunks := body_chunks w +:+ concat_str bs;
     passthrough := false; sent := sent w |}.
Proof.
  revert w. induction bs as [|b bs IH]; intros w Hw; cbn.
  - rewrite append_nil_r. destruct w; cbn in *; by subst.
  - unfold send_wrapper at 2. rewrite Hw. cbn. rewrite IH by done. cbn. by rewrite append_assoc.
Qed.
Lemma header_app hs hs' n :
  header (hs ++ hs') n = match header hs n with Some v => Some v | None => header hs' n end.
Proof. induction hs as [|[k v] hs IH]; cbn; [done|]. by case_decide. Qed.
Lemma header_filter hs (f : string → bool) n :
  f (blower n) = true → header (List.filter (λ h, f (blower h.1)) hs) n = header hs n.
Proof.
  intros Hf. induction hs as [|[k v] hs IH]; cbn; [done|].
  destruct (f (blower k)) eqn:E; cbn; case_decide as Hk; try done. by rewrite Hk, Hf in E.
Qed.

(** Digests are hexadecimal. *)
Definition hex_char (c : ascii) : bool := is_digit c || in_range 97 102 c.
Definition hex (d : string) : Prop := sall hex_char d = true.

Lemma hex_char_plain c :
  hex_char c = true → bool_decide (c = ","%char) = false ∧ is_bspace c = false.
Proof.
  intros Hc. assert (H : negb (bool_decide (c = ","%char)) && negb (is_bspace c) = true).
  { revert Hc. rewrite <-implb_true_iff. revert c. apply (forall_ascii (λ c,
      implb (hex_char c) (negb (bool_decide (c = ","%char)) && negb (is_bspace c)))). by vm_compute. }
  apply andb_true_iff in H as [?%negb_true_iff ?%negb_true_iff]. done.
Qed.
Lemma quoted_sall (p : ascii → bool) d :
  p dquote = true → (∀ c, hex_char c = true → p c = true) → hex d → sall p (quoted d) = true.
Proof.
  intros Hq Hp Hd. unfold quoted. cbn [sall]. rewrite sall_append. cbn. rewrite Hq.
  cbn. rewrite andb_true_r. revert Hd. by apply sall_mono.
Qed.
Lemma bstrip_quoted d : hex d → bstrip (quoted d) = quoted d.
Proof.
  intros Hd. apply strip_sall. apply quoted_sall; [done| |done].
  intros c Hc. by apply hex_char_plain in Hc as [_ ->].
Qed.
(** A weak or strong tag. *)
Definition spelled (weak : bool) (d : string) : string :=
  (if weak then "W/" else "")%string +:+ quoted d.
Lemma tag_of_spelled weak d : hex d → tag_of (bstrip (spelled weak d)) = quoted d.
Proof.
  intros Hd. assert (Hs : bstrip (spelled weak d) = spelled weak d).
  { apply strip_sall. unfold spelled. rewrite sall_append. apply andb_true_iff.
    split; [by destruct weak|]. apply quoted_sall; [done| |done].
    intros c Hc. by apply hex_char_plain in Hc as [_ ->]. }
  rewrite Hs. unfold tag_of. replace (lstrip_chars "W/" (spelled weak d)) with (quoted d).
  - by apply bstrip_quoted.
  - unfold spelled. by destruct weak.
Qed.
Lemma quoted_inj d d' : quoted d = quoted d' → d = d'.
Proof.
  unfold quoted. intros [= H]. revert d' H. induction d as [|c d IH]; intros [|c' d'] H; cbn in H.
  - done.
  - injection H as <- H. by destruct d'.
  - injection H as -> H. by destruct d.
  - injection H as -> H. f_equal. by apply IH.
Qed.

Lemma etag_matches_spec cs d :
  cs ≠ [] → Forall (λ c, hex c.2) cs → hex d →
  etag_matches (join "," ((λ c, spelled c.1 c.2) <$> cs)) (quoted d) =
  bool_decide (d ∈ cs.*2).
Proof.
  intros Hne Hcs Hd. unfold etag_matches.
  assert (Hplain : sall (λ c, negb (is_bspace c)) (join "," ((λ c, spelled c.1 c.2) <$> cs)) = true).
  { clear Hne. induction Hcs as [|[wk c] cs Hc Hcs IH]; [done|]. cbn in Hc.
    assert (Hw : sall (λ c, negb (is_bspace c)) (spelled wk c) = true).
    { unfold spelled. rewrite sall_append. apply andb_true_iff. split; [by destruct wk|].
      apply quoted_sall; [done| |done]. intros a Ha. by apply hex_char_plain in Ha as [_ ->]. }
    destruct cs as [|c' cs]; [exact Hw|].
    rewrite !fmap_cons, join_cons, sall_append. cbn [fst snd]. rewrite Hw. cbn [andb].
    rewrite sall_append. exact IH. }
  rewrite (strip_sall _ _ Hplain : bstrip _ = _).
  rewrite decide_False; [|].
  2:{ destruct cs as [|[wk c] cs]; [done|]. by destruct cs, wk. }
  rewrite split_join; [| |].
  - replace (tag_of (quoted d)) with (quoted d) by (symmetry; by apply bstrip_quoted).
    apply eq_true_iff_eq. rewrite existsb_True, bool_decide_eq_true, list_elem_of_fmap.
    split.
    + intros (t & ([wk c] & -> & Hc)%list_elem_of_fmap & Ht). apply bool_decide_eq_true in Ht.
      rewrite Forall_forall in Hcs. rewrite tag_of_spelled in Ht by by apply (Hcs (wk, c)).
      apply quoted_inj in Ht as <-. by exists (wk, c).
    + intros ([wk c] & -> & Hc). exists (spelled wk c). split; [by apply (list_elem_of_fmap_2 (λ c, spelled c.1 c.2) _ (wk, c))|].
      apply bool_decide_eq_true. by apply tag_of_spelled.
  - by destruct cs.
  - intros t ([wk c] & -> & Hc)%list_elem_of_fmap. unfold spelled. rewrite sall_append.
    apply andb_true_iff. split; [by destruct wk|]. apply quoted_sall; [done| |].
    + intros a Ha. by apply hex_char_plain in Ha as [-> _].
    + rewrite Forall_forall in Hcs. by apply (Hcs (wk, c)).
Qed.

Definition with_policy (hs : headers) : headers :=
  match header hs "cache-control" with
  | None => hs ++ [("cache-control"%string, DEFAULT_CACHE_CONTROL)]
  | Some _ => hs
  end.
Definition get_request (p : string) (rh : headers) : Scope :=
  {| scope_type := "http"; method := Some "GET"%string; path := Some p; request_headers := rh; route_path := None |}.
Definition response (status : Z) (hs : headers) (bs : list string) (b : string) : list Message :=
  response_start status hs :: chunks bs ++ [response_body b false].

Lemma call_buffered excluded p rh status hs bs b :
  excluded p = false → streamed status hs = false →
  call excluded (get_request p rh) (response status hs bs b) =
  finalize (Some (status, hs)) (concat_str bs +:+ b) (header rh "if-none-match").
Proof.
  intros He Hs. unfold call, tags, get_request, response. cbn [scope_type method path request_headers].
  rewrite !bool_decide_true by done. cbn [negb orb default from_option id]. rewrite He. cbn [negb].
  cbn [foldl]. unfold send_wrapper at 2. cbn [passthrough new_wrapper]. rewrite Hs.
  rewrite foldl_app, foldl_chunks by done. done.
Qed.
Lemma header_policy hs :
  header (with_policy hs) "cache-control" =
  Some (default DEFAULT_CACHE_CONTROL (header hs "cache-control")).
Proof.
  unfold with_policy. destruct (header hs "cache-control") eqn:E; [done|].
  by rewrite header_app, E.
Qed.
Lemma header_etag_policy hs status : streamed status hs = false → header (with_policy hs) "etag" = None.
Proof.
  unfold streamed. intros Hs. bprop. destruct Hs as [[_ He] _].
  destruct (header hs "etag") eqn:E; [by destruct He|].
  unfold with_policy. destruct (header hs "cache-control"); [done|]. by rewrite header_app, E.
Qed.
End etag.

(** C22: conditional requests.  A cacheable GET response leaves with one strong
    tag computed from its whole body and with a caching policy, its own or the
    default.  Asked again with [If-None-Match] listing tags, weak or strong,
    the answer is a 304 without a body exactly when the body's tag is listed;
    that 304 repeats the policy and the tag and no length or type of a body,
    and otherwise the full response is sent.  A response that is not a 2xx, is
    tagged already or forbids storing is passed on message by message. *)
Theorem conditional_get digest excluded p status hs bs b cs :
  (∀ body, hex (digest body)) → excluded p = false → is_empty (concat_str bs +:+ b) = false →
  cs ≠ [] → Forall (λ c, hex c.2) cs →
  let body := concat_str bs +:+ b in
  let answer rh := call digest excluded (get_request p rh) (response status hs bs b) in
  let asked := answer [("If-None-Match", join "," ((λ c, spelled c.1 c.2) <$> cs))]%string in
  let policy := default DEFAULT_CACHE_CONTROL (header hs "cache-control") in
  if streamed status hs then answer [] = response status hs bs b ∧ asked = response status hs bs b
  else ∃ full short,
    answer [] = [response_start status full; response_body body false] ∧
    header full "etag" = Some (quoted (digest body)) ∧ header full "cache-control" = Some policy ∧
    header short "etag" = Some (quoted (digest body)) ∧ header short "cache-control" = Some policy ∧
    header short "content-length" = None ∧ header short "content-type" = None ∧
    asked = if decide (digest body ∈ cs.*2)
            then [response_start 304 short; response_body EmptyString false] else answer [].
Proof.
  intros Hdig Hexc Hne Hcs Hhex body answer asked policy.
  destruct (streamed status hs) eqn:Hs.
  - assert (Hall : ∀ rh, answer rh = response status hs bs b); [|split; apply Hall].
    intros rh. unfold answer, call, tags, get_request. cbn [scope_type method path request_headers].
    rewrite !bool_decide_true by done. cbn [negb orb default from_option id]. rewrite Hexc. unfold response. cbn [negb foldl].
    unfold send_wrapper at 2. cbn [passthrough new_wrapper]. rewrite Hs.
    by rewrite foldl_passthrough.
  - set (carried := List.filter (λ h, is_carried (blower h.1)) (with_policy hs)).
    set (e := [("etag"%string, compute_etag digest body)]).
    exists (with_policy hs ++ e), (carried ++ e). unfold answer in *.
    assert (Hcar : ∀ n, header carried n = if is_carried (blower n)
                                           then header (with_policy hs) n else None).
    { intros n. unfold carried. destruct (is_carried (blower n)) eqn:Hn; [by apply header_filter|].
      induction (with_policy hs) as [|[k v] l IH]; cbn; [done|].
      destruct (is_carried (blower k)) eqn:Hk; cbn; [|done]. rewrite decide_False; [done|]. congruence. }
    rewrite !header_app, header_policy, !Hcar, (header_etag_policy _ _ Hs).
    rewrite call_buffered by done. cbn [header].
    split_and!; try reflexivity.
    + unfold finalize. rewrite Hne. fold body. done.
    + by rewrite header_policy.
    + unfold asked. rewrite !call_buffered by done. unfold finalize. rewrite Hne. fold body.
      cbn [header]. rewrite decide_True by done. unfold compute_etag at 1.
      rewrite etag_matches_spec by done. by repeat case_decide; case_bool_decide.
Qed.
Lemma conditional_get_witness :
  let answer rh := call (λ _, "0af3"%string) (λ _, false) (get_request "/x" rh)
                     (response 200 [("Date", "d")]%string ["{}"]%string "") in
  answer [] = [response_start 200 [("Date", "d"); ("cache-control", "private, no-cache");
                 ("etag", quoted "0af3")]%string; response_body "{}" false] ∧
  ∃ full short,
    answer [] = [response_start 200 full; response_body "{}" false] ∧
    header full "etag" = Some (quoted "0af3") ∧
    header full "cache-control" = Some DEFAULT_CACHE_CONTROL ∧
    header short "etag" = Some (quoted "0af3") ∧
    header short "cache-control" = Some DEFAULT_CACHE_CONTROL ∧
    header short "content-length" = None ∧ header short "content-type" = None ∧
    answer [("If-None-Match", join "," ((λ c, spelled c.1 c.2) <$> [(true, "0af3"); (false, "11")]))]%string =
    [response_start 304 short; response_body EmptyString false].
Proof.
  split; [by vm_compute|].
  refine (conditional_get (λ _, "0af3"%string) (λ _, false) "/x" 200 [("Date", "d")]%string ["{}"]%string ""
    [(true, "0af3"); (false, "11")]%string _ _ _ _ _); try done.
  by repeat constructor.
Defined.
End Etag.
