(* ===== verification/Locale.v ===== *)
(** * web/locale.py: locale negotiation *)

From S2P Require Import Prelude PyStr PyDict.

Module Locale.
(** The set, in the order of its first occurrences; only membership is used. *)
Definition supported_locale_set (supported_locales : list string) : list string :=
  omap (λ locale, str_or_none (lower (strip locale))) supported_locales.

(** [headers.get(name)], then [headers.get(name.lower())], then the empty string. *)
Definition header_value (get : string → option string) (name : string) : string :=
  match get name with
  | Some value => value
  | None => default EmptyString (get (lower name))
  end.

(** [s.split(c, 1)[0]] *)
Definition before (c : ascii) (s : string) : string := (partition_char c s).1.1.

Definition normalize_locale_tag (value : option string) (supported_locales : list string) : option string :=
  let supported := supported_locale_set supported_locales in
  if bool_decide (supported = []) then None else
  let raw := replace_char "_" "-" (lower (strip (default EmptyString value))) in
  if is_empty raw then None
  else if bool_decide (raw ∈ supported) then Some raw
  else let primary := before "-" raw in
       if bool_decide (primary ∈ supported) then Some primary else None.

Record Request := { query_params : string → option string; headers : string → option string }.
Fixpoint first_match (supported : list string) (parts : list string) : option string :=
  match parts with
  | [] => None
  | part :: parts =>
      match normalize_locale_tag (Some (before ";" part)) supported with
      | Some locale => if is_empty locale then first_match supported parts else Some locale
      | None => first_match supported parts
      end
  end.
Definition resolve_locale_from_request (request : option Request) (supported_locales : list string)
    (default_locale : string) (query_param : option string) : option string :=
  let supported := supported_locale_set supported_locales in
  if bool_decide (supported = []) then None else
  let fallback := normalize_locale_tag (Some default_locale) supported in
  match request with
  | None => fallback
  | Some r =>
      let from_header :=
        match first_match supported (split "," (header_value (headers r) "Accept-Language")) with
        | Some locale => Some locale
        | None => fallback
        end in
      match query_param with
      | Some q =>
          if is_empty q then from_header
          else match normalize_locale_tag (Some (default EmptyString (query_params r q))) supported with
               | Some locale => if is_empty locale then from_header else Some locale
               | None => from_header
               end
      | None => from_header
      end
  end.

Lemma elem_supported ls x :
  x ∈ supported_locale_set ls ↔ x ≠ EmptyString ∧ ∃ l, l ∈ ls ∧ x = lower (strip l).
Proof.
  unfold supported_locale_set. rewrite list_elem_of_omap. unfold str_or_none.
  split.
  - intros (l & Hl & He). destruct (is_empty (lower (strip l))) eqn:E; [done|].
    injection He as <-. apply is_empty_false in E. eauto.
  - intros [Hne (l & Hl & ->)]. exists l. split; [done|]. by apply is_empty_false in Hne as ->.
Qed.
(** A set of supported locales is its own normal form. *)
Lemma supported_idemp ls x :
  x ∈ supported_locale_set (supported_locale_set ls) ↔ x ∈ supported_locale_set ls.
Proof.
  assert (Hx : ∀ l, lower (strip (lower (strip l))) = lower (strip l)).
  { intros l. rewrite strip_lower, lower_idemp. f_equal. apply strip_idemp. }
  rewrite elem_supported. split.
  - intros [Hne (l & (_ & l' & Hl' & ->)%elem_supported & ->)]. rewrite Hx in Hne |- *.
    apply elem_supported. eauto.
  - intros H. apply elem_supported in H as [Hne (l & Hl & ->)]. split; [done|].
    exists (lower (strip l)). split; [|by rewrite Hx]. apply elem_supported. eauto.
Qed.
Lemma supported_nil ls : supported_locale_set (supported_locale_set ls) = [] ↔ supported_locale_set ls = [].
Proof.
  split; [|by intros ->]. intros H. destruct (supported_locale_set ls) as [|x l] eqn:E; [done|].
  assert (Hx : x ∈ supported_locale_set (supported_locale_set ls)).
  { apply supported_idemp. rewrite E. left. }
  rewrite E, H in Hx. by apply elem_of_nil in Hx.
Qed.
Lemma normalize_supported v ls x :
  normalize_locale_tag v ls = Some x → x ∈ supported_locale_set ls.
Proof.
  unfold normalize_locale_tag. cbn zeta. case_bool_decide; [done|]. destruct (is_empty _); [done|].
  case_bool_decide; [by intros [= <-]|]. case_bool_decide; [by intros [= <-]|done].
Qed.
Lemma first_match_supported ls parts x : first_match ls parts = Some x → x ∈ supported_locale_set ls.
Proof.
  induction parts as [|p parts IH]; cbn [first_match]; [done|].
  destruct (normalize_locale_tag _ ls) eqn:E; [|done]. destruct (is_empty s); [done|].
  intros [= <-]. by eapply normalize_supported.
Qed.

Lemma resolve_supported request ls dflt qp x :
  resolve_locale_from_request request ls dflt qp = Some x → x ∈ supported_locale_set ls.
Proof.
  unfold resolve_locale_from_request. cbn zeta. case_bool_decide; [done|].
  assert (Hn : ∀ v y, normalize_locale_tag v (supported_locale_set ls) = Some y → y ∈ supported_locale_set ls).
  { intros v y Hy%normalize_supported. by apply supported_idemp. }
  destruct request as [r|]; [|apply Hn].
  assert (Hh : match first_match (supported_locale_set ls) (split "," (header_value (headers r) "Accept-Language")) with
    | Some locale => Some locale
    | None => normalize_locale_tag (Some dflt) (supported_locale_set ls) end = Some x →
    x ∈ supported_locale_set ls).
  { destruct (first_match _ _) eqn:E; [|apply Hn]. intros [= <-].
    apply first_match_supported in E. by apply supported_idemp. }
  destruct qp as [q|]; [|exact Hh]. destruct (is_empty q); [exact Hh|].
  destruct (normalize_locale_tag (Some (default EmptyString (query_params r q))) _) eqn:E; [|exact Hh]. destruct (is_empty s); [exact Hh|].
  intros [= <-]. by apply Hn in E.
Qed.
Lemma normalize_exact v ls :
  replace_char "_" "-" (lower (strip v)) ∈ supported_locale_set ls →
  normalize_locale_tag (Some v) ls = Some (replace_char "_" "-" (lower (strip v))).
Proof.
  intros Hin. unfold normalize_locale_tag. cbn zeta. cbn [default].
  rewrite bool_decide_false by (intros E; rewrite E in Hin; by apply elem_of_nil in Hin).
  assert (Hne : is_empty (replace_char "_" "-" (lower (strip v))) = false).
  { apply is_empty_false. by apply elem_supported in Hin as [? _]. }
  unfold default, id. rewrite Hne. by rewrite bool_decide_true.
Qed.
Lemma replace_absent a b s :
  sall (λ c, negb (bool_decide (c = a))) s = true → replace_char a b s = s.
Proof.
  induction s as [|c s IH]; [done|]. cbn [sall]. rewrite andb_true_iff, negb_true_iff, bool_decide_eq_false.
  intros [Hc Hs]. unfold replace_char in *. cbn [smap]. rewrite decide_False by done. by rewrite IH.
Qed.
Lemma lower_not_underscore c :
  negb (bool_decide (c = "_"%char)) = true → negb (bool_decide (lower_char c = "_"%char)) = true.
Proof.
  rewrite <-implb_true_iff. revert c. apply (forall_ascii (λ c, implb (negb (bool_decide (c = "_"%char)))
    (negb (bool_decide (lower_char c = "_"%char))))). by vm_compute.
Qed.
Lemma default_resolves request ls dflt qp :
  lower (strip dflt) ∈ supported_locale_set ls → sall (λ c, negb (bool_decide (c = "_"%char))) dflt = true →
  resolve_locale_from_request request ls dflt qp ≠ None.
Proof.
  intros Hin Hu. unfold resolve_locale_from_request. cbn zeta.
  rewrite bool_decide_false by (intros E; rewrite E in Hin; by apply elem_of_nil in Hin).
  assert (Hd : normalize_locale_tag (Some dflt) (supported_locale_set ls) ≠ None).
  { rewrite normalize_exact; [done|]. rewrite replace_absent; [by apply supported_idemp|].
    eapply smap_sall; [apply lower_not_underscore|]. by apply strip_sall_pres. }
  destruct request as [r|]; [|done].
  repeat case_match; done.
Qed.
Lemma lower_upper_alpha s : sall is_upper_ascii s = true → sall is_lower_ascii (lower s) = true.
Proof.
  apply smap_sall. intros c. rewrite <-implb_true_iff. revert c.
  apply (forall_ascii (λ c, implb (is_upper_ascii c) (is_lower_ascii (lower_char c)))). by vm_compute.
Qed.
Lemma lower_alpha_plain c : is_lower_ascii c = true →
  is_space c = false ∧ lower_char c = c ∧ c ≠ "-"%char ∧ c ≠ "_"%char.
Proof.
  intros Hc. assert (H : negb (is_space c) && bool_decide (lower_char c = c)
    && negb (bool_decide (c = "-"%char)) && negb (bool_decide (c = "_"%char)) = true).
  { revert Hc. rewrite <-implb_true_iff. revert c. apply (forall_ascii (λ c, implb (is_lower_ascii c)
      (negb (is_space c) && bool_decide (lower_char c = c)
       && negb (bool_decide (c = "-"%char)) && negb (bool_decide (c = "_"%char))))). by vm_compute. }
  bprop. tauto.
Qed.
Lemma upper_alpha_not_space c : is_upper_ascii c = true → is_space c = false.
Proof.
  intros Hc. apply negb_true_iff. revert Hc. rewrite <-implb_true_iff. revert c.
  apply (forall_ascii (λ c, implb (is_upper_ascii c) (negb (is_space c)))). by vm_compute.
Qed.
Lemma smap_append f s t : smap f (s +:+ t) = smap f s +:+ smap f t.
Proof. induction s as [|c s IH]; cbn; [done|by rewrite IH]. Qed.
Lemma before_app lang t : sall is_lower_ascii lang = true → before "-" (lang +:+ String "-" t) = lang.
Proof.
  unfold before. induction lang as [|c lang IH]; [done|]. cbn [sall]. rewrite andb_true_iff.
  intros [Hc Hl]. change (String c lang +:+ String "-" t) with (String c (lang +:+ String "-" t)).
  cbn [partition_char]. apply lower_alpha_plain in Hc as (_ & _ & Hc & _).
  rewrite decide_False by done. specialize (IH Hl). destruct (partition_char _ _) as [[p b] r].
  cbn in *. by subst.
Qed.
Lemma region_falls_back ls lang region sep :
  lang ∈ supported_locale_set ls → sep = "-"%char ∨ sep = "_"%char →
  sall is_lower_ascii lang = true → sall is_upper_ascii region = true →
  replace_char "_" "-" (lower (lang +:+ String sep region)) ∉ supported_locale_set ls →
  normalize_locale_tag (Some (lang +:+ String sep region)) ls = Some lang.
Proof.
  intros Hin Hsep Hlang Hreg Hnot.
  assert (Hstrip : strip (lang +:+ String sep region) = lang +:+ String sep region).
  { apply strip_sall. rewrite sall_append. cbn [sall]. rewrite !andb_true_iff. split_and!.
    - revert Hlang. apply sall_mono. intros c Hc. by apply lower_alpha_plain in Hc as (-> & _).
    - by destruct Hsep as [-> | ->].
    - revert Hreg. apply sall_mono. intros c Hc. by rewrite upper_alpha_not_space. }
  assert (Hraw : replace_char "_" "-" (lower (lang +:+ String sep region)) = lang +:+ String "-" (lower region)).
  { assert (Hl : lower (lang +:+ String sep region) = lang +:+ String sep (lower region)).
    { unfold lower. rewrite smap_append. f_equal.
      - clear -Hlang. induction lang as [|c lang IH]; [done|]. cbn in *. apply andb_true_iff in Hlang as [Hc Hl].
        apply lower_alpha_plain in Hc as (_ & -> & _). by rewrite IH.
      - cbn. f_equal. by destruct Hsep as [-> | ->]. }
    rewrite Hl. unfold replace_char. rewrite smap_append. f_equal.
    - apply replace_absent. revert Hlang. apply sall_mono. intros c Hc.
      apply lower_alpha_plain in Hc as (_ & _ & _ & Hc). by rewrite bool_decide_false.
    - cbn. f_equal; [by destruct Hsep as [-> | ->]|]. apply replace_absent.
      apply lower_upper_alpha in Hreg. revert Hreg. apply sall_mono. intros c Hc.
      apply lower_alpha_plain in Hc as (_ & _ & _ & Hc). by rewrite bool_decide_false. }
  unfold normalize_locale_tag. cbn zeta. unfold default, id. rewrite Hstrip, Hraw. rewrite Hraw in Hnot.
  rewrite bool_decide_false by (intros E; rewrite E in Hin; by apply elem_of_nil in Hin).
  assert (He : is_empty (lang +:+ String "-" (lower region)) = false) by by destruct lang.
  rewrite He, bool_decide_false, before_app by done. by rewrite bool_decide_true.
Qed.

(** The negotiated locale is one of the supported ones (in normal form),
    there is one whenever the default is supported, and a tag with a region
    falls back to its language: [xx-YY] and [xx_YY] give [xx] when only [xx]
    is supported. *)
Lemma negotiated_locale_is_supported request ls dflt qp :
  (∀ x, resolve_locale_from_request request ls dflt qp = Some x → x ∈ supported_locale_set ls) ∧
  (lower (strip dflt) ∈ supported_locale_set ls → sall (λ c, negb (bool_decide (c = "_"%char))) dflt = true →
   resolve_locale_from_request request ls dflt qp ≠ None) ∧
  (∀ lang region sep, lang ∈ supported_locale_set ls → sep = "-"%char ∨ sep = "_"%char →
     sall is_lower_ascii lang = true → sall is_upper_ascii region = true →
     replace_char "_" "-" (lower (lang +:+ String sep region)) ∉ supported_locale_set ls →
     normalize_locale_tag (Some (lang +:+ String sep region)) ls = Some lang).
Proof.
  split_and!.
  - apply resolve_supported.
  - apply default_resolves.
  - apply region_falls_back.
Qed.
Lemma negotiated_locale_is_supported_witness :
  normalize_locale_tag (Some "uk_UA"%string) ["UK"; "en"]%string = Some "uk"%string ∧
  resolve_locale_from_request None ["UK"; "en"]%string "en" None ≠ None.
Proof.
  split.
  - apply (negotiated_locale_is_supported None ["UK"; "en"]%string "en" None) with
      (lang := "uk"%string) (region := "UA"%string) (sep := "_"%char); try by vm_compute.
    + by apply (bool_decide_eq_true_1 ("uk"%string ∈ supported_locale_set ["UK"; "en"]%string)); vm_compute.
    + by right.
    + by apply (bool_decide_eq_true_1 (_ ∉ supported_locale_set ["UK"; "en"]%string)); vm_compute.
  - apply (negotiated_locale_is_supported None ["UK"; "en"]%string "en" None); [|by vm_compute].
    by apply (bool_decide_eq_true_1 (_ ∈ supported_locale_set ["UK"; "en"]%string)); vm_compute.
Defined.
End Locale.
