(* ===== verification/Projection.v ===== *)
(** * web/projection.py and web/projection_decorator.py

    Response projections and visibility policies over dotted paths.  A path is
    the string the code keeps; [segs] (its segments) is how the theorems read
    it.  Sets of paths are lists: only membership is used. *)

From S2P Require Import Prelude PyStr PyDict.

Module Projection.

(** ** Paths *)

Definition normalize_path (path : string) : string :=
  let segments := (λ segment, lower (strip segment)) <$> split "." path in
  join "." (List.filter (λ s, negb (is_empty s)) segments).
(** [raw]: [None], one string or an iterable of strings *)
Inductive Paths := no_paths | one_string (s : string) | many (l : list string).
Definition candidates (raw : Paths) : list string :=
  match raw with
  | no_paths => []
  | one_string s => split "," s
  | many l => flat_map (split ",") l
  end.
Definition normalize_paths (raw : Paths) : list string :=
  List.filter (λ p, negb (is_empty p)) (normalize_path <$> candidates raw).
Definition is_same_or_descendant (value parent : string) : bool :=
  bool_decide (value = parent) || startswith (parent +:+ ".") value.
Definition paths_related (left right : string) : bool :=
  is_same_or_descendant left right || is_same_or_descendant right left.

(** ** [ProjectionSpec] *)

Record ProjectionSpec := {
  fields : list string; include : list string; exclude : list string; field_restricted : bool }.
Definition default_spec (restricted : bool) : ProjectionSpec :=
  {| fields := []; include := []; exclude := []; field_restricted := restricted |}.
Definition from_query_params (f i e : Paths) : ProjectionSpec :=
  {| fields := normalize_paths f; include := normalize_paths i; exclude := normalize_paths e;
     field_restricted := match f with no_paths => false | _ => true end |}.
Definition is_nil {A} (l : list A) : bool := match l with [] => true | _ => false end.
Definition is_default (s : ProjectionSpec) : bool :=
  negb (field_restricted s) && is_nil (include s) && is_nil (exclude s).
Definition mem (p : string) (l : list string) : bool := bool_decide (p ∈ l).

Definition excludes_path (s : ProjectionSpec) (path : string) : bool :=
  let normalized := normalize_path path in
  if is_empty normalized then false
  else existsb (is_same_or_descendant normalized) (exclude s).
Definition has (s : ProjectionSpec) (path : string) : bool :=
  let normalized := normalize_path path in
  if is_empty normalized then false
  else if excludes_path s normalized then false
  else if negb (field_restricted s) then true
  else mem normalized (fields s) || mem normalized (include s).
Definition has_any (s : ProjectionSpec) (paths : list string) : bool := existsb (has s) paths.
Definition includes (s : ProjectionSpec) (path : string) : bool :=
  let normalized := normalize_path path in
  if is_empty normalized then false
  else existsb (λ requested, paths_related requested normalized && negb (excludes_path s requested))
         (include s).
Definition needs (s : ProjectionSpec) (path : string) : bool :=
  let normalized := normalize_path path in
  if is_empty normalized then false
  else if excludes_path s normalized then false
  else if negb (field_restricted s) then true
  else existsb (λ entry, paths_related entry normalized && negb (excludes_path s entry))
         (fields s ++ include s).
Definition restrict_to (s : ProjectionSpec) (allowed_paths : list string) : ProjectionSpec :=
  let normalized_allowed := normalize_paths (many allowed_paths) in
  if is_nil normalized_allowed then default_spec (field_restricted s)
  else
    let keep path := existsb (paths_related path) normalized_allowed in
    {| fields := List.filter keep (fields s); include := List.filter keep (include s);
       exclude := List.filter keep (exclude s); field_restricted := field_restricted s |}.
Definition excluding (s : ProjectionSpec) (paths : Paths) : ProjectionSpec :=
  {| fields := fields s; include := include s; exclude := exclude s ++ normalize_paths paths;
     field_restricted := field_restricted s |}.

(** What a path of the set becomes below [prefix]; [itself] is what the prefix
    becomes. *)
Definition trim (prefix : string) (itself : option string) (path : string) : option string :=
  let r := if bool_decide (path = prefix) then itself
           else if is_same_or_descendant path prefix then Some (removeprefix (prefix +:+ ".") path)
           else None in
  match r with Some p => str_or_none p | None => None end.
Definition child (s : ProjectionSpec) (prefix : string) : ProjectionSpec :=
  let p := normalize_path prefix in
  if is_empty p then s
  else if negb (field_restricted s) && is_nil (include s) && is_nil (exclude s) then s
  else
    {| fields := omap (trim p None) (fields s);
       include := omap (trim p (Some p)) (include s);
       exclude := omap (trim p (Some p)) (exclude s);
       field_restricted := field_restricted s && negb (mem p (fields s)) |}.

(** ** [ResponsePolicy] *)

Record ResponsePolicy := { allowed_fields : list string; denied_fields : list string; allow_all : bool }.
(** the constructor with [__post_init__] *)
Definition new_policy (allowed denied : list string) (all : bool) : ResponsePolicy :=
  {| allowed_fields := normalize_paths (many allowed); denied_fields := normalize_paths (many denied);
     allow_all := all |}.
Definition allowing_all (denied : Paths) : ResponsePolicy := new_policy [] (normalize_paths denied) true.
Definition can_view (r : ResponsePolicy) (path : string) : bool :=
  let normalized := normalize_path path in
  if is_empty normalized then false
  else if existsb (is_same_or_descendant normalized) (denied_fields r) then false
  else if allow_all r then true
  else existsb (λ allowed, paths_related allowed normalized) (allowed_fields r).
Definition filter_allowed (r : ResponsePolicy) (paths : list string) : list string :=
  List.filter (can_view r) paths.
Definition policy_child (r : ResponsePolicy) (prefix : string) : ResponsePolicy :=
  let p := normalize_path prefix in
  if is_empty p then r
  else new_policy (omap (trim p (Some p)) (allowed_fields r)) (omap (trim p (Some p)) (denied_fields r))
         (allow_all r && can_view r p).

(** ** [ExpansionLoader] *)

Definition get_or_load {V E} (key : string) (loader : result E V) : SE (list (string * V)) E V := λ cache,
  match dget cache key with
  | Some v => (Ok v, cache)
  | None => match loader with Ok v => (Ok v, dset cache key v) | Raise e => (Raise e, cache) end
  end.
Definition prime {V} (key : string) (value : V) (cache : list (string * V)) : list (string * V) :=
  dset cache key value.

(** ** The decorator and what handlers read back *)

(** [projection] and [state.projection], as far as the object has them; an
    object with slots may refuse new attributes. *)
Record Request := {
  projection : option ProjectionSpec; takes_projection : bool;
  state : option (option ProjectionSpec); takes_state : bool }.
Definition request_projection (r : Request) : ProjectionSpec :=
  match projection r with
  | Some p => p
  | None => match mjoin (state r) with Some p => p | None => default_spec false end
  end.

Inductive TypeError := no_request_parameter | conflicting (names : list string) | no_request_instance.
Definition attach (p : ProjectionSpec) (r : Request) : Request :=
  {| projection := if takes_projection r then Some p else projection r;
     takes_projection := takes_projection r;
     state := match state r with
              | Some _ => Some (Some p)
              | None => if takes_state r then Some (Some p) else None
              end;
     takes_state := takes_state r |}.
(** [bound]: the query arguments of a call and its request, if there is one. *)
Record Bound := { request : option Request; q_fields : Paths; q_include : Paths; q_exclude : Paths }.
Definition with_projection {R} (allowed_paths : list string) (parameters : list string)
    (fn : Request → R) : result TypeError (Bound → result TypeError R) :=
  if negb (mem "request"%string parameters) then Raise no_request_parameter else
  let conflicts := List.filter (λ n, mem n parameters) ["fields"; "include"; "exclude"]%string in
  if negb (is_nil conflicts) then Raise (conflicting (py_sorted conflicts)) else
  Ok (λ bound,
    match request bound with
    | None => Raise no_request_instance
    | Some r =>
        let p := restrict_to (from_query_params (q_fields bound) (q_include bound) (q_exclude bound)) allowed_paths in
        Ok (fn (attach p r))
    end).

(** ** Paths as lists of segments *)

Definition segs (p : string) : list string := split "." p.
(** A path in normal form. *)
Definition clean_seg (w : string) : Prop := w ≠ EmptyString ∧ lower (strip w) = w.
Definition normal (p : string) : Prop := Forall clean_seg (segs p).

Lemma segs_inj p q : segs p = segs q → p = q.
Proof. apply split_inj. Qed.
Lemma segs_app p q : segs (p +:+ String "." q) = segs p ++ segs q.
Proof. apply split_app. Qed.
Lemma segs_nonempty p : segs p ≠ [].
Proof. apply split_nonempty. Qed.

Lemma same_or_descendant_spec v p : is_same_or_descendant v p = true ↔ segs p `prefix_of` segs v.
Proof.
  unfold is_same_or_descendant. rewrite orb_true_iff, bool_decide_eq_true, startswith_spec. split.
  - intros [->|[r ->]]; [done|]. rewrite append_assoc. change ("." +:+ r) with (String "." r).
    rewrite segs_app. by apply prefix_app_r.
  - intros [k Hk]. destruct k as [|w k].
    + rewrite app_nil_r in Hk. left. by apply segs_inj.
    + right. exists (join "." (w :: k)). apply segs_inj. rewrite append_assoc.
      change ("." +:+ join "." (w :: k)) with (String "." (join "." (w :: k))).
      rewrite segs_app, Hk. f_equal. symmetry. apply split_join; [done|].
      intros x Hx. apply (split_parts "." v). fold (segs v). rewrite Hk. apply elem_of_app. by right.
Qed.
Lemma same_or_descendant_false v p : is_same_or_descendant v p = false ↔ ¬ segs p `prefix_of` segs v.
Proof. rewrite <-same_or_descendant_spec, not_true_iff_false. done. Qed.
Lemma related_spec a b :
  paths_related a b = true ↔ segs b `prefix_of` segs a ∨ segs a `prefix_of` segs b.
Proof. unfold paths_related. by rewrite orb_true_iff, !same_or_descendant_spec. Qed.

Lemma normal_not_empty p : normal p → is_empty p = false.
Proof. intros Hp. apply is_empty_false. intros ->. inversion Hp as [|? ? [? _]]; done. Qed.
Lemma normalize_normal p : normal p → normalize_path p = p.
Proof.
  intros Hp. unfold normalize_path. apply segs_inj. fold (segs p).
  assert (H : List.filter (λ s, negb (is_empty s)) ((λ s, lower (strip s)) <$> segs p) = segs p).
  { unfold normal in Hp. induction Hp as [|w ws [Hne Hw] Hws IH]; [done|].
    rewrite fmap_cons. cbn [List.filter]. rewrite Hw. apply is_empty_false in Hne. rewrite Hne. cbn. by rewrite IH. }
  rewrite H. unfold segs. by rewrite join_split.
Qed.
Lemma normalize_path_normal q : normalize_path q = EmptyString ∨ normal (normalize_path q).
Proof.
  unfold normalize_path. set (l := List.filter _ _).
  assert (Hl : Forall (λ w, clean_seg w ∧ sall (λ d, negb (bool_decide (d = "."%char))) w = true) l).
  { apply Forall_forall. intros w [Hw Hne]%list_elem_of_filter'.
    apply list_elem_of_fmap in Hw as (x & -> & Hx). apply negb_true_iff, is_empty_false in Hne.
    split.
    - split; [done|]. rewrite strip_lower, lower_idemp. f_equal. apply strip_idemp.
    - apply split_parts in Hx. eapply smap_sall; [|by apply strip_sall_pres].
      intros c. rewrite <-implb_true_iff. revert c. apply (forall_ascii (λ c,
        implb (negb (bool_decide (c = "."%char))) (negb (bool_decide (lower_char c = "."%char))))).
      by vm_compute. }
  destruct l as [|w l']; [by left|]. right. unfold normal, segs. rewrite split_join; [|done|].
  - eapply Forall_impl; [exact Hl|]. by intros x [? _].
  - intros x Hx. rewrite Forall_forall in Hl. by apply Hl.
Qed.
Lemma normalize_paths_normal raw p : p ∈ normalize_paths raw → normal p.
Proof.
  unfold normalize_paths. intros [(q & -> & _)%list_elem_of_fmap Hne]%list_elem_of_filter'.
  destruct (normalize_path_normal q) as [He|?]; [by rewrite He in Hne|done].
Qed.
Lemma normal_app p q : normal (p +:+ String "." q) ↔ normal p ∧ normal q.
Proof. unfold normal. by rewrite segs_app, Forall_app. Qed.

(** A comma in a path would split it again; none of the constructors lets one in. *)
Definition no_comma (p : string) : Prop := sall (λ d, negb (bool_decide (d = ","%char))) p = true.
Lemma normalize_paths_many l :
  Forall (λ p, normal p ∧ no_comma p) l → normalize_paths (many l) = l.
Proof.
  unfold normalize_paths, candidates. induction 1 as [|p l [Hp Hc] Hl IH]; [done|].
  cbn [flat_map]. rewrite (split_sall "," p) by done. cbn [app]. rewrite fmap_cons. cbn [List.filter].
  rewrite normalize_normal, normal_not_empty by done. cbn [negb]. by rewrite IH.
Qed.

(** ** Well-formed projections and policies *)

Definition normal_paths (l : list string) : Prop := Forall normal l.
Definition ok_spec (s : ProjectionSpec) : Prop :=
  normal_paths (fields s) ∧ normal_paths (include s) ∧ normal_paths (exclude s).

(** [needs] on normal paths, in terms of segments. *)
Definition blocked (s : ProjectionSpec) (p : string) : Prop :=
  ∃ e, e ∈ exclude s ∧ segs e `prefix_of` segs p.
Lemma excludes_spec s p : normal p → excludes_path s p = true ↔ blocked s p.
Proof.
  intros Hp. unfold excludes_path. rewrite normalize_normal, normal_not_empty by done.
  rewrite existsb_True. unfold blocked. by setoid_rewrite same_or_descendant_spec.
Qed.
Lemma needs_spec s p :
  ok_spec s → normal p →
  needs s p = true ↔
  ¬ blocked s p ∧
  (field_restricted s = false ∨
   ∃ e, e ∈ fields s ++ include s ∧ (segs p `prefix_of` segs e ∨ segs e `prefix_of` segs p) ∧ ¬ blocked s e).
Proof.
  intros (Hf & Hi & He) Hp. unfold needs. rewrite normalize_normal, normal_not_empty by done.
  destruct (excludes_path s p) eqn:Hx.
  { apply excludes_spec in Hx; [|done]. split; [done|]. tauto. }
  assert (Hb : ¬ blocked s p) by (rewrite <-excludes_spec, Hx; done).
  destruct (field_restricted s); cbn [negb]; [|naive_solver].
  rewrite existsb_True. split.
  - intros (e & Hin & Hr). apply andb_true_iff in Hr as [Hr Hn]. split; [done|]. right. exists e.
    split; [done|]. rewrite related_spec in Hr. split; [tauto|].
    apply negb_true_iff in Hn. rewrite <-excludes_spec; [by rewrite Hn|].
    unfold normal_paths in *. rewrite Forall_forall in Hf, Hi. apply elem_of_app in Hin as []; auto.
  - intros [_ [?|(e & Hin & Hr & Hn)]]; [done|]. exists e. split; [done|].
    apply andb_true_iff. rewrite related_spec. split; [tauto|].
    apply negb_true_iff, not_true_iff_false. rewrite excludes_spec; [done|].
    unfold normal_paths in *. rewrite Forall_forall in Hf, Hi. apply elem_of_app in Hin as []; auto.
Qed.

(** A path below [p] and what [trim] makes of it. *)
Lemma prefix_cases {A} (p l : list A) : p `prefix_of` l ↔ l = p ∨ ∃ k, k ≠ [] ∧ l = p ++ k.
Proof.
  split.
  - intros [[|x k] ->]; [left; by rewrite app_nil_r|]. right. by exists (x :: k).
  - intros [->|(k & _ & ->)]; [done|by apply prefix_app_r].
Qed.
Lemma below_split v p : segs p `prefix_of` segs v → v = p ∨ ∃ q, v = p +:+ String "." q.
Proof.
  rewrite <-same_or_descendant_spec. unfold is_same_or_descendant.
  rewrite orb_true_iff, bool_decide_eq_true, startswith_spec. intros [->|[r ->]]; [by left|right].
  exists r. by rewrite append_assoc.
Qed.
Lemma trim_below p i q : normal q → trim p i (p +:+ String "." q) = Some q.
Proof.
  intros Hq. unfold trim.
  assert (Hne : p +:+ String "." q ≠ p).
  { intros E. assert (H := f_equal (λ s, length (segs s)) E). cbn in H. rewrite segs_app, length_app in H.
    pose proof (segs_nonempty q). destruct (segs q); [done|]. cbn in H. lia. }
  rewrite bool_decide_false by done.
  assert (Hs : is_same_or_descendant (p +:+ String "." q) p = true).
  { apply same_or_descendant_spec. rewrite segs_app. by apply prefix_app_r. }
  rewrite Hs. replace (p +:+ String "." q) with ((p +:+ ".") +:+ q) by by rewrite append_assoc.
  rewrite removeprefix_append. unfold str_or_none. by rewrite normal_not_empty.
Qed.
(** When the prefix itself is not in the set, its children are exactly the
    paths below it. *)
Lemma elem_trim p i l q :
  normal_paths l → normal q → p ∉ l → q ∈ omap (trim p i) l ↔ p +:+ String "." q ∈ l.
Proof.
  intros Hl Hq Hp. rewrite list_elem_of_omap. split.
  - intros (v & Hv & Ht). unfold trim in Ht. rewrite bool_decide_false in Ht by congruence.
    destruct (is_same_or_descendant v p) eqn:Hs; [|done].
    apply same_or_descendant_spec, below_split in Hs as [->|[r ->]]; [done|].
    replace (p +:+ String "." r) with ((p +:+ ".") +:+ r) in Ht by by rewrite append_assoc.
    rewrite removeprefix_append in Ht. unfold str_or_none in Ht. destruct (is_empty r); [done|].
    by injection Ht as ->.
  - intros Hv. exists (p +:+ String "." q). split; [done|]. by apply trim_below.
Qed.
Lemma trim_normal p i l :
  normal_paths l → p ∉ l ∨ i = None → normal_paths (omap (trim p i) l).
Proof.
  intros Hl Hp. apply Forall_forall. intros q (v & Hv & Ht)%list_elem_of_omap.
  unfold normal_paths in Hl. rewrite Forall_forall in Hl. specialize (Hl v Hv). unfold trim in Ht.
  case_bool_decide as Hvp; [destruct Hp as [Hp| ->]; [by subst|done]|].
  destruct (is_same_or_descendant v p) eqn:Hs; [|done].
  apply same_or_descendant_spec, below_split in Hs as [->|[r ->]]; [done|].
  apply normal_app in Hl as [_ Hr].
  replace (p +:+ String "." r) with ((p +:+ ".") +:+ r) in Ht by by rewrite append_assoc.
  rewrite removeprefix_append in Ht. unfold str_or_none in Ht. rewrite normal_not_empty in Ht by done.
  by injection Ht as <-.
Qed.
Lemma elem_trim_none p l q :
  normal_paths l → normal q → q ∈ omap (trim p None) l ↔ p +:+ String "." q ∈ l.
Proof.
  intros Hl Hq. rewrite list_elem_of_omap. split.
  - intros (v & Hv & Ht). unfold trim in Ht. case_bool_decide; [done|].
    destruct (is_same_or_descendant v p) eqn:Hs; [|done].
    apply same_or_descendant_spec, below_split in Hs as [->|[r ->]]; [done|].
    replace (p +:+ String "." r) with ((p +:+ ".") +:+ r) in Ht by by rewrite append_assoc.
    rewrite removeprefix_append in Ht. unfold str_or_none in Ht. destruct (is_empty r); [done|].
    by injection Ht as ->.
  - intros Hv. exists (p +:+ String "." q). split; [done|]. by apply trim_below.
Qed.

Lemma prefix_app_cases {A} (l p x : list A) :
  l `prefix_of` p ++ x → l `prefix_of` p ∨ ∃ k, l = p ++ k ∧ k `prefix_of` x.
Proof.
  revert l. induction p as [|a p IH]; intros l Hl; [right; by exists l|].
  destruct l as [|b l]; [left; apply prefix_nil|]. cbn in Hl.
  apply prefix_cons_inv_1 in Hl as Hab. apply prefix_cons_inv_2 in Hl as Hl'. subst b.
  destruct (IH l Hl') as [Hp|(k & -> & Hk)].
  - left. by apply prefix_cons.
  - right. by exists k.
Qed.

(** No path of [l] is at or above [p]. *)
Definition none_above (l : list string) (p : string) : Prop :=
  ∀ e, e ∈ l → ¬ segs e `prefix_of` segs p.
Lemma none_above_notin l p : none_above l p → p ∉ l.
Proof. intros H Hp. by apply (H p). Qed.
(** A path of [l] related to something below [p] is itself below [p]. *)
Lemma below_of_prefix l p x e :
  none_above l p → e ∈ l → segs e `prefix_of` segs (p +:+ String "." x) →
  ∃ r, e = p +:+ String "." r ∧ segs r `prefix_of` segs x.
Proof.
  intros Hn He Hp. rewrite segs_app in Hp. apply prefix_app_cases in Hp as [Hp|(k & Hk & Hkx)].
  - by apply Hn in Hp.
  - assert (Hpe : segs p `prefix_of` segs e) by (rewrite Hk; by apply prefix_app_r).
    apply below_split in Hpe as [->|[r ->]]; [by destruct (Hn p He)|].
    exists r. split; [done|]. rewrite segs_app in Hk. by apply app_inv_head in Hk as ->.
Qed.
Lemma below_of_extension p x e :
  segs (p +:+ String "." x) `prefix_of` segs e →
  ∃ r, e = p +:+ String "." r ∧ segs x `prefix_of` segs r.
Proof.
  rewrite segs_app. intros [k Hk].
  assert (Hpe : segs p `prefix_of` segs e) by (rewrite Hk, <-app_assoc; by apply prefix_app_r).
  apply below_split in Hpe as [->|[r ->]].
  - apply (f_equal length) in Hk. rewrite !length_app in Hk. pose proof (segs_nonempty x).
    destruct (segs x); [done|]. cbn in Hk. lia.
  - exists r. split; [done|]. exists k. rewrite segs_app, <-app_assoc in Hk. by apply app_inv_head in Hk.
Qed.
Lemma segs_prefix_app p a b :
  segs (p +:+ String "." a) `prefix_of` segs (p +:+ String "." b) ↔ segs a `prefix_of` segs b.
Proof.
  rewrite !segs_app. split.
  - intros [k Hk]. exists k. rewrite <-app_assoc in Hk. by apply app_inv_head in Hk.
  - apply prefix_app.
Qed.


(** Excluding below [p] is excluding under the whole path. *)
Lemma blocked_below s p x fs ins fr :
  normal p → normal_paths (exclude s) → none_above (exclude s) p → normal x →
  blocked {| fields := fs; include := ins; exclude := omap (trim p (Some p)) (exclude s);
             field_restricted := fr |} x ↔ blocked s (p +:+ String "." x).
Proof.
  intros Hp Hne Hx Hnx. unfold blocked; cbn [exclude]. split.
  - intros (e & He & Hpr). assert (Hne' : normal e).
    { assert (Hall := trim_normal p (Some p) (exclude s) Hne (or_introl (none_above_notin _ _ Hx))).
      unfold normal_paths in Hall. rewrite Forall_forall in Hall. by apply Hall. }
    apply elem_trim in He; [|done|done|by apply none_above_notin].
    exists (p +:+ String "." e). split; [done|]. by apply segs_prefix_app.
  - intros (e & He & Hpr). destruct (below_of_prefix (exclude s) p x e Hx He Hpr) as (r & -> & Hr).
    exists r. split; [|done]. apply elem_trim; [done| |by apply none_above_notin|done].
    unfold normal_paths in Hne. rewrite Forall_forall in Hne. by apply Hne, normal_app in He as [_ ?].
Qed.
(** A listed path on the way to or below [p.q] is [p] itself or below it. *)
Lemma related_below s p q e :
  none_above (include s) p → (∀ e, e ∈ fields s → segs e `prefix_of` segs p → e = p) →
  e ∈ fields s ++ include s →
  segs (p +:+ String "." q) `prefix_of` segs e ∨ segs e `prefix_of` segs (p +:+ String "." q) →
  e = p ∧ p ∈ fields s ∨ ∃ r, e = p +:+ String "." r ∧
    (segs q `prefix_of` segs r ∨ segs r `prefix_of` segs q).
Proof.
  intros Hi Hf He [Hrel|Hrel].
  - right. destruct (below_of_extension _ _ _ Hrel) as (r & -> & Hr). eauto.
  - apply elem_of_app in He as [He|He].
    + assert (Hrel' := Hrel). rewrite segs_app in Hrel'.
      apply prefix_app_cases in Hrel' as [Hep|(k & Hk & Hkq)]; [left; by rewrite <-(Hf e He Hep)|].
      assert (Hpe : segs p `prefix_of` segs e) by (rewrite Hk; by apply prefix_app_r).
      apply below_split in Hpe as [->|[r ->]]; [by left|]. right. exists r. split; [done|]. right.
      rewrite segs_app in Hk. by apply app_inv_head in Hk as ->.
    + right. destruct (below_of_prefix _ _ _ _ Hi He Hrel) as (r & -> & Hr). eauto.
Qed.
Lemma child_spec s p q :
  ok_spec s → normal p → normal q → none_above (include s ++ exclude s) p →
  (∀ e, e ∈ fields s → segs e `prefix_of` segs p → e = p) →
  needs (child s p) q = true ↔ needs s (p +:+ String "." q) = true.
Proof.
  intros Hok Hp Hq Hn Hf. pose proof Hok as (Hnf & Hni & Hne).
  assert (Hpq : normal (p +:+ String "." q)) by by apply normal_app.
  assert (Hi : none_above (include s) p) by (intros e He; apply Hn, elem_of_app; by left).
  assert (Hx : none_above (exclude s) p) by (intros e He; apply Hn, elem_of_app; by right).
  unfold child. rewrite normalize_normal, normal_not_empty by done.
  destruct (negb (field_restricted s) && is_nil (include s) && is_nil (exclude s)) eqn:Hd.
  { bprop. destruct Hd as [[Hr Hin] Hex]. destruct (exclude s) eqn:Ee; [|done].
    rewrite (needs_spec s q), (needs_spec s (p +:+ String "." q)) by done.
    unfold blocked. rewrite Ee. rewrite Hr. split; intros _; (split; [|by left]);
      intros (e & He%elem_of_nil & _); done. }
  assert (Hbl : ∀ x, normal x → blocked {| fields := omap (trim p None) (fields s);
      include := omap (trim p (Some p)) (include s); exclude := omap (trim p (Some p)) (exclude s);
      field_restricted := field_restricted s && negb (mem p (fields s)) |} x ↔
      blocked s (p +:+ String "." x)) by (intros x; by apply blocked_below).
  rewrite (needs_spec s (p +:+ String "." q)) by done. rewrite needs_spec; [| |done].
  2:{ split_and!; cbn; apply trim_normal; auto; left; by apply none_above_notin. }
  rewrite Hbl by done. cbn [field_restricted fields include].
  assert (Hent : ∀ e, normal e →
    e ∈ omap (trim p None) (fields s) ++ omap (trim p (Some p)) (include s) ↔
    p +:+ String "." e ∈ fields s ++ include s).
  { intros e He. rewrite !elem_of_app, elem_trim_none, elem_trim by (done || by apply none_above_notin). done. }
  assert (Hnent : ∀ e, e ∈ omap (trim p None) (fields s) ++ omap (trim p (Some p)) (include s) → normal e).
  { intros e [He|He]%elem_of_app; revert e He; apply Forall_forall, trim_normal; auto.
    left. by apply none_above_notin. }
  assert (Hsent : ∀ e, e ∈ fields s ++ include s → normal e).
  { intros e [He|He]%elem_of_app; revert e He; by apply Forall_forall. }
  split; intros [Hb Hr]; (split; [done|]).
  - destruct Hr as [Hr|(e & He & Hrel & Hnb)].
    + apply andb_false_iff in Hr as [Hr|Hr]; [by left|right]. exists p.
      apply negb_false_iff in Hr. unfold mem in Hr. apply bool_decide_eq_true in Hr.
      split; [by apply elem_of_app; left|]. split.
      * right. rewrite segs_app. by apply prefix_app_r.
      * intros (x & Hxe & Hxp). by apply Hx in Hxp.
    + right. exists (p +:+ String "." e). assert (He' := Hnent _ He).
      split; [by apply Hent|]. rewrite !segs_prefix_app. split; [done|]. by rewrite <-Hbl.
  - destruct Hr as [->|(e & He & Hrel & Hnb)]; [by left|].
    pose proof (related_below s p q e Hi Hf He Hrel) as Hcase.
    destruct Hcase as [[-> Hpf]|(r & -> & Hr)].
    + left. apply andb_false_iff. right. apply negb_false_iff. unfold mem. by apply bool_decide_eq_true.
    + assert (Hnr : normal r) by (apply Hsent, normal_app in He as [_ ?]; done).
      right. exists r. split; [by apply Hent|]. split; [done|]. by rewrite Hbl.
Qed.

Lemma from_query_ok f i e : ok_spec (from_query_params f i e).
Proof. split_and!; apply Forall_forall; intros p; apply normalize_paths_normal. Qed.

(** C39: a projection handed down to a nested serializer answers as the whole
    one does.  For a projection parsed from query parameters and a block [p],
    [child p] needs [q] exactly when the projection needs [p.q], as long as
    no included or excluded path is [p] or above it and no requested field is
    strictly above it.  (Without the condition it does not: see
    [child_forgets_the_branch].) *)
Theorem projection_child_commutes f i e p q :
  let s := from_query_params f i e in
  normal p → normal q → none_above (include s ++ exclude s) p →
  (∀ x, x ∈ fields s → segs x `prefix_of` segs p → x = p) →
  needs (child s p) q = needs s (p +:+ String "." q).
Proof.
  intros s Hp Hq Hn Hf. apply eq_true_iff_eq, child_spec; auto. apply from_query_ok.
Qed.
Lemma projection_child_commutes_witness :
  let s := from_query_params (one_string "Owner.Name, stats") no_paths (one_string "owner.email") in
  needs s "owner.name" = true ∧ needs (child s "owner") "name" = needs s "owner.name".
Proof.
  split; [by vm_compute|].
  apply (projection_child_commutes (one_string "Owner.Name, stats") no_paths (one_string "owner.email")
    "owner" "name").
  - repeat constructor; try done.
  - repeat constructor; try done.
  - intros x. apply (proj1 (Forall_forall (λ x, ¬ segs x `prefix_of` segs "owner") ["owner.email"%string])).
    apply (bool_decide_eq_true_1 (Forall (λ x, ¬ segs x `prefix_of` segs "owner") ["owner.email"%string])).
    by vm_compute.
  - intros x. apply (proj1 (Forall_forall (λ x, segs x `prefix_of` segs "owner" → x = "owner"%string)
      ["owner.name"; "stats"]%string)).
    apply (bool_decide_eq_true_1 (Forall (λ x, segs x `prefix_of` segs "owner" → x = "owner"%string)
      ["owner.name"; "stats"]%string)). by vm_compute.
Defined.

(** What the condition is for.  An excluded block is needed again by its own
    child, and a requested block is not needed by the child of its child:
    the path equal to the prefix stays in the child's set as it is, and the
    paths above the prefix are dropped. *)
Theorem child_forgets_the_branch :
  (let s := from_query_params no_paths no_paths (one_string "owner") in
   needs s "owner.name" = false ∧ needs (child s "owner") "name" = true) ∧
  (let s := from_query_params (one_string "owner") no_paths no_paths in
   needs s "owner.profile.name" = true ∧ needs (child s "owner.profile") "name" = false ∧
   needs (child (child s "owner") "profile") "name" = true).
Proof. split; split_and!; by vm_compute. Qed.

(** ** Policies *)

Definition ok_policy (r : ResponsePolicy) : Prop :=
  Forall (λ p, normal p ∧ no_comma p) (allowed_fields r) ∧
  Forall (λ p, normal p ∧ no_comma p) (denied_fields r).

Lemma candidates_no_comma raw : Forall no_comma (candidates raw).
Proof.
  apply Forall_forall. intros p. destruct raw as [|s|l]; cbn [candidates].
  - by intros ?%elem_of_nil.
  - apply split_parts.
  - induction l as [|s l IH]; cbn [flat_map]; [by intros ?%elem_of_nil|].
    intros [Hp|Hp]%elem_of_app; [by eapply split_parts|auto].
Qed.
Lemma no_comma_app s t : no_comma (s +:+ t) ↔ no_comma s ∧ no_comma t.
Proof. unfold no_comma. by rewrite sall_append, andb_true_iff. Qed.
Lemma join_no_comma l : Forall no_comma l → no_comma (join "." l).
Proof.
  induction 1 as [|w l Hw Hl IH]; [done|]. destruct l as [|w' l]; [done|].
  rewrite join_cons, !no_comma_app. done.
Qed.
Lemma split_no_comma p w : no_comma p → w ∈ split "." p → no_comma w.
Proof.
  intros Hp. rewrite <-(join_split "." p) in Hp. revert Hp. generalize (split "." p). intros l.
  induction l as [|x l IH]; [by intros _ ?%elem_of_nil|].
  destruct l as [|y l]; [by intros Hx ->%list_elem_of_singleton|].
  rewrite join_cons, !no_comma_app. intros (Hx & _ & Hl) [->|Hw]%elem_of_cons; auto.
Qed.
Lemma normalize_no_comma p : no_comma p → no_comma (normalize_path p).
Proof.
  intros Hp. unfold normalize_path. apply join_no_comma, Forall_forall.
  intros w [(x & -> & Hx)%list_elem_of_fmap _]%list_elem_of_filter'.
  eapply smap_sall; [|apply strip_sall_pres; by eapply split_no_comma].
  intros c. rewrite <-implb_true_iff. revert c. apply (forall_ascii (λ c,
    implb (negb (bool_decide (c = ","%char))) (negb (bool_decide (lower_char c = ","%char))))). by vm_compute.
Qed.
Lemma normalize_paths_ok raw : Forall (λ p, normal p ∧ no_comma p) (normalize_paths raw).
Proof.
  apply Forall_forall. intros p Hp. split; [by eapply normalize_paths_normal|].
  unfold normalize_paths in Hp. apply list_elem_of_filter' in Hp as [(x & -> & Hx)%list_elem_of_fmap _].
  apply normalize_no_comma. by eapply Forall_forall; [apply candidates_no_comma|].
Qed.
Lemma new_policy_ok a d all : ok_policy (new_policy a d all).
Proof. split; apply normalize_paths_ok. Qed.

Lemma ok_normal l : Forall (λ p, normal p ∧ no_comma p) l → normal_paths l.
Proof. intros H. eapply Forall_impl; [exact H|]. by intros p []. Qed.
Lemma trim_ok p l :
  p ∉ l → Forall (λ p, normal p ∧ no_comma p) l →
  Forall (λ p, normal p ∧ no_comma p) (omap (trim p (Some p)) l).
Proof.
  intros Hp Hl. pose proof (trim_normal p (Some p) l (ok_normal l Hl) (or_introl Hp)) as Hn.
  apply Forall_forall. intros q Hq. unfold normal_paths in Hn. rewrite Forall_forall in Hn.
  split; [by apply Hn|]. apply elem_trim in Hq; [|by apply ok_normal|by apply Hn|done].
  rewrite Forall_forall in Hl. apply Hl in Hq as [_ Hc].
  apply no_comma_app in Hc as [_ Hc]. unfold no_comma in *. cbn in Hc. done.
Qed.

Definition denied (r : ResponsePolicy) (p : string) : Prop :=
  ∃ e, e ∈ denied_fields r ∧ segs e `prefix_of` segs p.
Lemma can_view_spec r p :
  normal p → can_view r p = true ↔
  ¬ denied r p ∧ (allow_all r = true ∨
    ∃ e, e ∈ allowed_fields r ∧ (segs p `prefix_of` segs e ∨ segs e `prefix_of` segs p)).
Proof.
  intros Hp. unfold can_view. rewrite normalize_normal, normal_not_empty by done.
  assert (Hd : existsb (is_same_or_descendant p) (denied_fields r) = true ↔ denied r p).
  { rewrite existsb_True. unfold denied. by setoid_rewrite same_or_descendant_spec. }
  destruct (existsb (is_same_or_descendant p) (denied_fields r)).
  - split; [done|]. intros [Hn _]. destruct Hn. by apply Hd.
  - assert (¬ denied r p) by (rewrite <-Hd; done). destruct (allow_all r); [naive_solver|].
    rewrite existsb_True. setoid_rewrite related_spec. naive_solver.
Qed.

Lemma policy_child_spec r p q :
  ok_policy r → normal p → normal q → none_above (denied_fields r) p →
  allow_all r = true ∨ none_above (allowed_fields r) p →
  can_view (policy_child r p) q = true ↔ can_view r (p +:+ String "." q) = true.
Proof.
  intros [Ha Hd] Hp Hq Hnd Hna. unfold policy_child. rewrite normalize_normal, normal_not_empty by done.
  rewrite (can_view_spec r (p +:+ String "." q)) by by apply normal_app.
  rewrite can_view_spec by done. unfold new_policy, denied; cbn [denied_fields allowed_fields allow_all].
  rewrite (normalize_paths_many (omap _ (denied_fields r)))
    by (apply trim_ok; [by apply none_above_notin|done]).
  assert (Hcd : (∃ e, e ∈ omap (trim p (Some p)) (denied_fields r) ∧ segs e `prefix_of` segs q) ↔
    ∃ e, e ∈ denied_fields r ∧ segs e `prefix_of` segs (p +:+ String "." q)).
  { split.
    - intros (e & He & Hpr). assert (Hne : normal e).
      { revert e He Hpr. intros e He _. revert e He. apply Forall_forall, trim_normal; [by apply ok_normal|].
        left. by apply none_above_notin. }
      apply elem_trim in He; [|by apply ok_normal|done|by apply none_above_notin].
      exists (p +:+ String "." e). split; [done|]. by apply segs_prefix_app.
    - intros (e & He & Hpr). destruct (below_of_prefix _ _ _ _ Hnd He Hpr) as (x & -> & Hx).
      exists x. split; [|done]. apply elem_trim; [by apply ok_normal| |by apply none_above_notin|done].
      apply (proj1 (Forall_forall _ _) Hd) in He as [He _]. by apply normal_app in He as [_ ?]. }
  rewrite Hcd. assert (Hpv : allow_all r = true → can_view r p = true).
  { intros Hall. apply can_view_spec; [done|]. split; [|by left]. intros (e & He & Hpr). by apply Hnd in Hpr. }
  destruct (allow_all r) eqn:Hall; [rewrite Hpv by done; cbn; tauto|]. cbn [andb].
  destruct Hna as [|Hna]; [done|].
  rewrite normalize_paths_many by (apply trim_ok; [by apply none_above_notin|done]).
  assert (Hca : (∃ e, e ∈ omap (trim p (Some p)) (allowed_fields r) ∧
      (segs q `prefix_of` segs e ∨ segs e `prefix_of` segs q)) ↔
    ∃ e, e ∈ allowed_fields r ∧ (segs (p +:+ String "." q) `prefix_of` segs e ∨
      segs e `prefix_of` segs (p +:+ String "." q))).
  { split.
    - intros (e & He & Hpr). assert (Hne : normal e).
      { revert e He Hpr. intros e He _. revert e He. apply Forall_forall, trim_normal; [by apply ok_normal|].
        left. by apply none_above_notin. }
      apply elem_trim in He; [|by apply ok_normal|done|by apply none_above_notin].
      exists (p +:+ String "." e). split; [done|]. by rewrite !segs_prefix_app.
    - intros (e & He & [Hpr|Hpr]).
      + destruct (below_of_extension _ _ _ Hpr) as (x & -> & Hx). exists x. split; [|by left].
        apply elem_trim; [by apply ok_normal| |by apply none_above_notin|done].
        apply (proj1 (Forall_forall _ _) Ha) in He as [He _]. by apply normal_app in He as [_ ?].
      + destruct (below_of_prefix _ _ _ _ Hna He Hpr) as (x & -> & Hx). exists x. split; [|by right].
        apply elem_trim; [by apply ok_normal| |by apply none_above_notin|done].
        apply (proj1 (Forall_forall _ _) Ha) in He as [He _]. by apply normal_app in He as [_ ?]. }
  rewrite Hca. done.
Qed.

(** A visibility policy handed down to a nested serializer answers as the
    whole one does: [child p] shows [q] exactly when the policy shows [p.q],
    as long as nothing at or above [p] is denied and either everything is
    allowed or nothing at or above [p] is named in the allowed set.  (Without
    the condition it does not: see [child_of_denied_block_leaks].) *)
Lemma policy_child_agrees a d all p q :
  let r := new_policy a d all in
  normal p → normal q → none_above (denied_fields r) p →
  allow_all r = true ∨ none_above (allowed_fields r) p →
  can_view (policy_child r p) q = can_view r (p +:+ String "." q).
Proof.
  intros r Hp Hq Hd Ha. apply eq_true_iff_eq, policy_child_spec; auto. apply new_policy_ok.
Qed.
Lemma policy_child_agrees_witness :
  let r := new_policy [] ["owner.email"]%string true in
  can_view r "owner.email.domain" = false ∧
  can_view (policy_child r "owner") "email.domain" = can_view r "owner.email.domain".
Proof.
  split; [by vm_compute|].
  apply (policy_child_agrees [] ["owner.email"]%string true "owner" "email.domain").
  - by repeat constructor.
  - by repeat constructor.
  - intros x. apply (proj1 (Forall_forall (λ x, ¬ segs x `prefix_of` segs "owner") ["owner.email"%string])).
    apply (bool_decide_eq_true_1 (Forall (λ x, ¬ segs x `prefix_of` segs "owner") ["owner.email"%string])).
    by vm_compute.
  - by left.
Defined.

(** What the condition is for.  Below a denied block a field that is allowed
    by name becomes visible through [child], and a block allowed as a whole
    shows nothing of itself to its child. *)
Theorem child_of_denied_block_leaks :
  (let r := new_policy ["owner.name"]%string ["owner"]%string false in
   can_view r "owner.name" = false ∧ can_view (policy_child r "owner") "name" = true) ∧
  (let r := new_policy ["owner"]%string [] false in
   can_view r "owner.name" = true ∧ can_view (policy_child r "owner") "name" = false).
Proof. split; split_and!; by vm_compute. Qed.

(** A handler reads back the projection of its own request: whatever the
    request object accepts (attributes of its own, a state, or a new state),
    after the decorator [request_projection] gives the parsed and restricted
    one; a request that already carries another projection and accepts
    nothing is the only exception. *)
Lemma projection_is_read_back {R} allowed parameters (fn : Request → R) w bound r :
  with_projection allowed parameters fn = Ok w → request bound = Some r →
  takes_projection r = true ∨ (projection r = None ∧ (state r ≠ None ∨ takes_state r = true)) →
  ∃ r', w bound = Ok (fn r') ∧
    request_projection r' =
      restrict_to (from_query_params (q_fields bound) (q_include bound) (q_exclude bound)) allowed ∧
    mem "request" parameters = true ∧
    ∀ n, n ∈ ["fields"; "include"; "exclude"]%string → n ∉ parameters.
Proof.
  unfold with_projection. destruct (mem "request" parameters) eqn:Hreq; cbn [negb]; [|done].
  destruct (is_nil _) eqn:Hconf; cbn [negb]; [|done]. intros [= <-] Hr Hacc. rewrite Hr.
  eexists. split; [done|]. split_and!; [|done|].
  - unfold request_projection, attach; cbn.
    destruct (takes_projection r); [done|]. destruct Hacc as [|[-> Hst]]; [done|].
    destruct (state r); [done|]. destruct Hst as [| ->]; done.
  - intros n Hn Hin. destruct (List.filter _ _) as [|x l] eqn:Ef; [|done].
    assert (Hx : n ∈ List.filter (λ n, mem n parameters) ["fields"; "include"; "exclude"]%string).
    { apply list_elem_of_filter'. split; [done|]. unfold mem. by apply bool_decide_eq_true. }
    rewrite Ef in Hx. by apply elem_of_nil in Hx.
Qed.
Lemma projection_is_read_back_witness :
  let r := {| projection := None; takes_projection := false; state := None; takes_state := true |} in
  ∃ r', restrict_to (from_query_params (one_string "owner, stats") no_paths no_paths) ["owner"%string] =
        request_projection r' ∧ r' = attach (request_projection r') r.
Proof.
  destruct (projection_is_read_back ["owner"%string] ["request"%string] id _
    {| request := Some {| projection := None; takes_projection := false; state := None; takes_state := true |};
       q_fields := one_string "owner, stats"; q_include := no_paths; q_exclude := no_paths |}
    {| projection := None; takes_projection := false; state := None; takes_state := true |}
    eq_refl eq_refl) as (r' & Hw & Hp & _); [by right; split; [|right]|].
  exists r'. split; [by rewrite Hp|]. cbn in Hw. injection Hw as <-. by rewrite Hp.
Defined.
End Projection.
