(* ===== verification/Nats.v ===== *)
(** * messaging/nats.py: settings, connection, streams and consumers

    The NATS server and client library are not this repository's code:
    connecting, draining and the JetStream administration calls are
    parameters ([JetStream] is the interface the stream code relies on). *)

From S2P Require Import Prelude PyStr PyDict.

Module Nats.
Definition DEFAULT_NATS_URL : string := "nats://127.0.0.1:4222".
Definition MSG_ID_HEADER : string := "Nats-Msg-Id".

(** ** Settings *)

Definition parse_servers (value : option string) : list string :=
  match value with
  | None => [DEFAULT_NATS_URL]
  | Some value =>
      if is_empty value then [DEFAULT_NATS_URL] else
      let fields := split_runs (λ c, char_in ";," c || is_space c) false value in
      let servers := List.filter (λ s, negb (is_empty s)) (strip <$> fields) in
      match servers with [] => [DEFAULT_NATS_URL] | _ => servers end
  end.
(** [value]: absent, one string or a sequence of strings *)
Definition normalize_servers (value : option (string + list string)) : list string :=
  match value with
  | None => [DEFAULT_NATS_URL]
  | Some (inl s) => parse_servers (Some s)
  | Some (inr items) => parse_servers (Some (join " " items))
  end.

Inductive ValueError := invalid_integer (v : string) | invalid_float (v : string)
  | invalid_boolean (v : string)
  | tls_needs_tls_servers | mtls_needs_tls | certificate_and_key | mtls_needs_certificate
  | tls_settings_need_tls_servers | bad_ca_file | bad_cert_chain.
#[export] Instance ValueError_eq_dec : EqDecision ValueError.
Proof. solve_decision. Defined.

Definition parse_int (value : option string) (default : Z) : result ValueError Z :=
  match value with
  | None => Ok default
  | Some v => match py_int v with Some z => Ok z | None => Raise (invalid_integer v) end
  end.
Definition parse_float (value : option string) (default : Q) : result ValueError Q :=
  match value with
  | None => Ok default
  | Some v => match py_float v with Some q => Ok q | None => Raise (invalid_float v) end
  end.
Definition parse_bool (value : option string) (default : bool) : result ValueError bool :=
  match value with
  | None => Ok default
  | Some v =>
      let normalized := lower (strip v) in
      if bool_decide (normalized ∈ ["1"; "true"; "yes"; "on"]%string) then Ok true
      else if bool_decide (normalized ∈ ["0"; "false"; "no"; "off"]%string) then Ok false
      else Raise (invalid_boolean v)
  end.

Record NATSSettings := {
  servers : list string; name : option string; user : option string; password : option string;
  token : option string;
  max_reconnect_attempts : Z; reconnect_time_wait : Q; ping_interval : Q; connect_timeout : Q;
  drain_timeout : Q; request_timeout : Q; jetstream_domain : option string;
  require_tls : bool; require_mtls : bool;
  tls_ca_file : option string; tls_cert_file : option string; tls_key_file : option string;
  tls_server_name : option string }.

(** [from_env] on a mapping, without the optional settings library. *)
Definition from_env (source : string → option string) (pre : string) : result ValueError NATSSettings :=
  let get k := source (pre +:+ k) in
  max_reconnect ← parse_int (get "MAX_RECONNECT_ATTEMPTS"%string) 60;
  time_wait ← parse_float (get "RECONNECT_TIME_WAIT"%string) 2;
  ping ← parse_float (get "PING_INTERVAL"%string) 60;
  connect_t ← parse_float (get "CONNECT_TIMEOUT"%string) 2;
  drain_t ← parse_float (get "DRAIN_TIMEOUT"%string) 5;
  request_t ← parse_float (get "REQUEST_TIMEOUT"%string) 2;
  tls ← parse_bool (get "REQUIRE_TLS"%string) false;
  mtls ← parse_bool (get "REQUIRE_MTLS"%string) false;
  Ok {| servers := parse_servers (get "SERVERS"%string); name := get "NAME"%string;
        user := get "USER"%string; password := get "PASSWORD"%string; token := get "TOKEN"%string;
        max_reconnect_attempts := max_reconnect; reconnect_time_wait := time_wait;
        ping_interval := ping; connect_timeout := connect_t; drain_timeout := drain_t;
        request_timeout := request_t; jetstream_domain := get "JETSTREAM_DOMAIN"%string;
        require_tls := tls; require_mtls := mtls;
        tls_ca_file := get "TLS_CA_FILE"%string; tls_cert_file := get "TLS_CERT_FILE"%string;
        tls_key_file := get "TLS_KEY_FILE"%string; tls_server_name := get "TLS_SERVER_NAME"%string |}.

(** With the optional settings library: what it loaded, its servers still as
    they were given. *)
Definition from_config (loaded_servers : option (string + list string)) (loaded : NATSSettings) : NATSSettings :=
  {| servers := normalize_servers loaded_servers; name := name loaded; user := user loaded; password := password loaded;
     token := token loaded; max_reconnect_attempts := max_reconnect_attempts loaded;
     reconnect_time_wait := reconnect_time_wait loaded; ping_interval := ping_interval loaded;
     connect_timeout := connect_timeout loaded; drain_timeout := drain_timeout loaded;
     request_timeout := request_timeout loaded; jetstream_domain := jetstream_domain loaded;
     require_tls := require_tls loaded; require_mtls := require_mtls loaded; tls_ca_file := tls_ca_file loaded;
     tls_cert_file := tls_cert_file loaded; tls_key_file := tls_key_file loaded; tls_server_name := tls_server_name loaded |}.
(** Both ways agree on the same values. *)
Lemma from_env_is_from_config source pre s : from_env source pre = Ok s →
  s = from_config (match source (pre +:+ "SERVERS")%string with Some v => Some (inl v) | None => None end) s.
Proof.
  unfold from_env. intros Hs. repeat (apply result_bind_Ok in Hs as (? & _ & Hs)). injection Hs as <-.
  unfold from_config. cbn. f_equal. by destruct (source _).
Qed.

Definition truthy (s : option string) : bool :=
  match s with Some t => negb (is_empty t) | None => false end.

(** A TLS context: verification against the system's or the given authorities,
    with a client certificate or without. *)
Record TlsContext := { ca : option string; client_certificate : option (string * string) }.

Section tls.
(** [ssl.create_default_context] and [load_cert_chain] may refuse the files. *)
Context (ca_ok : option string → bool) (chain_ok : string → string → bool).

Definition tls_context (s : NATSSettings) : result ValueError (option TlsContext) :=
  let uses_tls := forallb (startswith "tls://") (servers s) in
  let has_client_certificate := truthy (tls_cert_file s) || truthy (tls_key_file s) in
  _ ← raise_if (require_tls s && negb uses_tls) tls_needs_tls_servers;
  _ ← raise_if (require_mtls s && negb (require_tls s)) mtls_needs_tls;
  _ ← raise_if (has_client_certificate && negb (truthy (tls_cert_file s) && truthy (tls_key_file s)))
        certificate_and_key;
  _ ← raise_if (require_mtls s && negb has_client_certificate) mtls_needs_certificate;
  if negb (uses_tls || require_tls s || has_client_certificate || truthy (tls_ca_file s)) then Ok None else
  _ ← raise_if (negb uses_tls) tls_settings_need_tls_servers;
  _ ← raise_if (negb (ca_ok (tls_ca_file s))) bad_ca_file;
  if has_client_certificate then
    match tls_cert_file s, tls_key_file s with
    | Some certificate, Some key =>
        _ ← raise_if (negb (chain_ok certificate key)) bad_cert_chain;
        Ok (Some {| ca := tls_ca_file s; client_certificate := Some (certificate, key) |})
    | _, _ => Raise certificate_and_key
    end
  else Ok (Some {| ca := tls_ca_file s; client_certificate := None |}).

Record Options := {
  o_servers : list string; o_max_reconnect_attempts : Z; o_reconnect_time_wait : Q;
  o_ping_interval : Q; o_connect_timeout : Q;
  o_tls : option TlsContext; o_tls_hostname : option string; o_name : option string;
  o_credentials : option (string * string); o_token : option string }.
(** [x if x else absent] *)
Definition when_truthy (s : option string) : option string := if truthy s then s else None.
Definition connection_options (s : NATSSettings) : result ValueError Options :=
  tls ← tls_context s;
  Ok {| o_servers := servers s; o_max_reconnect_attempts := max_reconnect_attempts s;
        o_reconnect_time_wait := reconnect_time_wait s; o_ping_interval := ping_interval s;
        o_connect_timeout := connect_timeout s;
        o_tls := tls;
        o_tls_hostname := match tls with Some _ => when_truthy (tls_server_name s) | None => None end;
        o_name := when_truthy (name s);
        o_credentials := match when_truthy (user s), when_truthy (password s) with
                         | Some u, Some p => Some (u, p)
                         | _, _ => None
                         end;
        o_token := when_truthy (token s) |}.
End tls.

(** ** The connection *)

Inductive Status := connected | reconnecting | closed.
#[export] Instance Status_eq_dec : EqDecision Status.
Proof. solve_decision. Defined.
Inductive ClientError := bad_settings (e : ValueError) | no_servers | drain_failed.

(** [connections]: every connection this client opened, by number, with its
    status; [context]: the connection the cached JetStream context is bound to. *)
Record NATSClient := {
  settings : NATSSettings; connection : option nat; context : option nat;
  connections : list Status }.
Definition new_client (s : NATSSettings) : NATSClient :=
  {| settings := s; connection := None; context := None; connections := [] |}.
Definition set_client (c : NATSClient) conn ctx conns : NATSClient :=
  {| settings := settings c; connection := conn; context := ctx; connections := conns |}.
Definition status_of (c : NATSClient) (n : nat) : Status := default closed (connections c !! n).

(** [connected] *)
Definition is_connected (c : NATSClient) : bool :=
  match connection c with Some n => bool_decide (status_of c n = connected) | None => false end.
Definition usable (c : NATSClient) : option nat :=
  match connection c with
  | Some n => if bool_decide (status_of c n = closed) then None else Some n
  | None => None
  end.

Section client.
Context (ca_ok : option string → bool) (chain_ok : string → string → bool).

(** [reachable]: whether [nats.connect] succeeds this time. *)
Definition connect (reachable : bool) : SE NATSClient ClientError nat := λ c,
  match usable c with
  | Some n => (Ok n, c)
  | None =>
      match connection_options ca_ok chain_ok (settings c) with
      | Raise e => (Raise (bad_settings e), c)
      | Ok _ =>
          if reachable then
            let n := length (connections c) in
            (Ok n, set_client c (Some n) None (connections c ++ [connected]))
          else (Raise no_servers, c)
      end
  end.
Definition jetstream (reachable : bool) : SE NATSClient ClientError nat := λ c,
  match context c with
  | Some n => (Ok n, c)
  | None =>
      (let* n := connect reachable in
       do* se_modify (λ c, set_client c (connection c) (Some n) (connections c)) in
       se_ret n)%se c
  end.

(** How [drain] ends: drained, timed out (then [close] is called) or with an
    error of the library. *)
Inductive Drain := drained | timed_out | raises.
Definition mark_closed (n : nat) (l : list Status) : list Status := <[n := closed]> l.
Definition close (d : Drain) : SE NATSClient ClientError unit := λ c,
  match connection c with
  | None => (Ok tt, c)
  | Some n =>
      match d with
      | raises => (Raise drain_failed, set_client c None None (connections c))
      | _ => (Ok tt, set_client c None None (mark_closed n (connections c)))
      end
  end.

(** [publish_stream]: the headers and the timeout of the JetStream publish *)
Definition publish_stream_headers (msg_id : option string) (headers : list (string * string))
    : option (list (string * string)) :=
  let merged := match msg_id with
                | Some i => if is_empty i then headers else dset headers MSG_ID_HEADER i
                | None => headers
                end in
  match merged with [] => None | _ => Some merged end.
(** [timeout or self.settings.request_timeout] *)
Definition or_timeout (timeout : option Q) (s : NATSSettings) : Q :=
  match timeout with
  | Some t => if Qeq_bool t 0 then request_timeout s else t
  | None => request_timeout s
  end.

(** [respond] in [serve]: the reply that is sent, given what the handler does. *)
Definition respond {Exn} (outcome : result Exn (option string)) (reply : string) : option string :=
  match outcome with
  | Raise _ => None
  | Ok None => None
  | Ok (Some r) => if is_empty reply then None else Some r
  end.
End client.

(** ** Streams and consumers *)

Record StreamConfig := {
  stream_name : option string; subjects : list string; max_age : option Q; max_bytes : option Z }.
Record ConsumerConfig := {
  durable_name : option string; filter_subject : option string; deliver_group : option string }.

Inductive JsError (E : Type) := not_found | other (e : E).
Arguments not_found {E}.
Arguments other {E} e.

(** The administration calls of JetStream.  Only what a success means is
    assumed; any call may fail with an error of its own. *)
Class JetStream (Js E : Type) := {
  stream_info : string → Js → result (JsError E) StreamConfig;
  update_stream : StreamConfig → Js → result (JsError E) unit * Js;
  add_stream : StreamConfig → Js → result (JsError E) StreamConfig * Js;
  consumer_info : string → string → Js → result (JsError E) ConsumerConfig;
  add_consumer : string → ConsumerConfig → Js → result (JsError E) ConsumerConfig * Js;
  update_stream_ok c js js' n i :
    stream_info n js = Ok i → stream_name c = Some n → update_stream c js = (Ok tt, js') →
    stream_info n js' = Ok c;
  update_stream_found c js n i :
    stream_info n js = Ok i → stream_name c = Some n → (update_stream c js).1 ≠ Raise not_found;
  add_stream_ok c js js' n i :
    stream_name c = Some n → add_stream c js = (Ok i, js') → stream_info n js' = Ok i ∧ i = c;
  add_consumer_ok s c js js' n i :
    durable_name c = Some n → add_consumer s c js = (Ok i, js') → consumer_info s n js' = Ok i ∧ i = c;
  info_name n js i : stream_info n js = Ok i → stream_name i = Some n }.

Definition subset (a b : list string) : bool := forallb (λ x, bool_decide (x ∈ b)) a.
Definition with_subjects (c : StreamConfig) (s : list string) : StreamConfig :=
  {| stream_name := stream_name c; subjects := s; max_age := max_age c; max_bytes := max_bytes c |}.

Section streams.
Context {Js E : Type} `{JetStream Js E}.

(** The configuration a new stream gets. *)
Definition new_stream_config (name : string) (subs : list string) (config : option StreamConfig)
    (default_max_age : option Q) (default_max_bytes : option Z) : StreamConfig :=
  match config with
  | None => {| stream_name := Some name; subjects := subs; max_age := default_max_age;
               max_bytes := default_max_bytes |}
  | Some c =>
      {| stream_name := if truthy (stream_name c) then stream_name c else Some name;
         subjects := match subjects c with [] => subs | s => s end;
         max_age := max_age c; max_bytes := max_bytes c |}
  end.
(** Every call inside the [try] may raise NotFoundError. *)
Definition ensure_stream (name : string) (subs : list string) (config : option StreamConfig)
    (default_max_age : option Q) (default_max_bytes : option Z) : SE Js (JsError E) StreamConfig :=
  se_try
    (let* js := se_get in
     let* info := se_lift (stream_info name js) in
     match subs with
     | [] => se_ret info
     | _ =>
         if subset subs (subjects info) then se_ret info
         else
           let info := with_subjects info (py_sorted (remove_dups (subjects info ++ subs))) in
           do* update_stream info in
           let* js := se_get in
           se_lift (stream_info name js)
     end)%se
    (λ e, match e with
          | not_found => add_stream (new_stream_config name subs config default_max_age default_max_bytes)
          | other _ => se_raise e
          end).
Definition ensure_consumer (stream durable : string) (config : option ConsumerConfig)
    : SE Js (JsError E) ConsumerConfig :=
  se_try
    (let* js := se_get in se_lift (consumer_info stream durable js))%se
    (λ e, match e with
          | not_found =>
              add_consumer stream
                match config with
                | None => {| durable_name := Some durable; filter_subject := None; deliver_group := None |}
                | Some c => if truthy (durable_name c) then c
                            else {| durable_name := Some durable; filter_subject := filter_subject c;
                                    deliver_group := deliver_group c |}
                end
          | other _ => se_raise e
          end).

Inductive Compat := incompatible (fields : list string) | lookup_failed (e : E).
(** [(x or "").strip()] *)
Definition stripped (s : option string) : string := strip (default EmptyString s).
Definition mismatches (c : ConsumerConfig) (subject queue_group : option string) : list string :=
  (if negb (is_empty (stripped subject)) && negb (is_empty (stripped (filter_subject c)))
      && negb (bool_decide (stripped (filter_subject c) = stripped subject))
   then ["filter_subject"%string] else []) ++
  (if negb (bool_decide (stripped (deliver_group c) = stripped queue_group))
   then ["deliver_group"%string] else []).
Definition assert_consumer_compatible (stream durable : string) (subject queue_group : option string)
    (js : Js) : result Compat (option ConsumerConfig) :=
  match consumer_info stream durable js with
  | Raise not_found => Ok None
  | Raise (other e) => Raise (lookup_failed e)
  | Ok c =>
      match mismatches c subject queue_group with
      | [] => Ok (Some c)
      | m => Raise (incompatible m)
      end
  end.
End streams.

(** ** TLS *)

Lemma tls_context_spec ca_ok chain_ok s t :
  tls_context ca_ok chain_ok s = Ok t →
  let uses_tls := forallb (startswith "tls://") (servers s) in
  let has_cert := truthy (tls_cert_file s) || truthy (tls_key_file s) in
  (require_tls s = true → uses_tls = true) ∧ (require_mtls s = true → require_tls s = true) ∧
  (require_mtls s = true → has_cert = true) ∧
  match t with
  | None => uses_tls = false ∧ require_tls s = false ∧ has_cert = false ∧ truthy (tls_ca_file s) = false
  | Some c => uses_tls = true ∧ ca c = tls_ca_file s ∧ ca_ok (tls_ca_file s) = true ∧
      client_certificate c =
        (if has_cert then match tls_cert_file s, tls_key_file s with
                          | Some a, Some b => Some (a, b) | _, _ => None end else None) ∧
      (has_cert = true → client_certificate c ≠ None)
  end.
Proof.
  unfold tls_context. cbn zeta. set (u := forallb _ _). set (h := truthy (tls_cert_file s) || _).
  intros Ht. apply result_bind_Ok in Ht as (? & H1%raise_if_Ok & Ht).
  apply result_bind_Ok in Ht as (? & H2%raise_if_Ok & Ht).
  apply result_bind_Ok in Ht as (? & H3%raise_if_Ok & Ht).
  apply result_bind_Ok in Ht as (? & H4%raise_if_Ok & Ht).
  split_and!.
  - intros Hr. rewrite Hr in H1. by destruct u.
  - intros Hr. rewrite Hr in H2. by destruct (require_tls s).
  - intros Hr. rewrite Hr in H4. by destruct h.
  - destruct (negb (u || require_tls s || h || truthy (tls_ca_file s))) eqn:E.
    { injection Ht as <-. bprop. tauto. }
    apply result_bind_Ok in Ht as (? & H5%raise_if_Ok & Ht).
    apply result_bind_Ok in Ht as (? & H6%raise_if_Ok & Ht). bprop.
    destruct h.
    + destruct (tls_cert_file s) as [a|], (tls_key_file s) as [b|]; try done.
      apply result_bind_Ok in Ht as (? & H7%raise_if_Ok & Ht). by injection Ht as <-.
    + by injection Ht as <-.
Qed.

(** Protected settings never open an unprotected connection.  When TLS is
    required, mutual TLS is required, or any TLS file is given, the options
    are either refused or name only [tls://] servers and carry a context that
    verifies against the given authorities; mutual TLS means a client
    certificate and key are loaded; and options without a context only occur
    for a server list that is not all [tls://]. *)
Lemma protected_connections ca_ok chain_ok s o :
  connection_options ca_ok chain_ok s = Ok o →
  (require_tls s || require_mtls s || truthy (tls_ca_file s) || truthy (tls_cert_file s)
     || truthy (tls_key_file s) = true →
   (∀ url, url ∈ o_servers o → startswith "tls://" url = true) ∧
   ∃ c, o_tls o = Some c ∧ ca c = tls_ca_file s ∧
     (require_mtls s = true → ∃ cert key, client_certificate c = Some (cert, key) ∧
        tls_cert_file s = Some cert ∧ tls_key_file s = Some key)) ∧
  (o_tls o = None → ∃ url, url ∈ o_servers o ∧ startswith "tls://" url = false).
Proof.
  intros Ho. apply result_bind_Ok in Ho as (t & Ht%tls_context_spec & Ho). injection Ho as <-.
  cbn [o_servers o_tls]. destruct Ht as (Hreq & Hmt & Hmc & Ht). cbn zeta in *.
  split.
  - intros Hany. destruct t as [c|].
    + destruct Ht as (Hu & Hca & _ & Hcert & Hne). split.
      * rewrite forallb_True' in Hu. exact Hu.
      * exists c. split_and!; [done|done|]. intros Hm. specialize (Hmc Hm). specialize (Hne Hmc).
        rewrite Hmc in Hcert. destruct (tls_cert_file s) as [a|], (tls_key_file s) as [b|]; try congruence.
        by exists a, b.
    + destruct Ht as (Hu & Hr & Hh & Hca). rewrite Hr, Hca in Hany. cbn in Hany.
      apply orb_false_iff in Hh as [Hh1 Hh2]. rewrite Hh1, Hh2 in Hany.
      destruct (require_mtls s); [|done]. by specialize (Hmt eq_refl); congruence.
  - intros ->. destruct Ht as (Hu & _). apply not_true_iff_false in Hu. rewrite forallb_True' in Hu.
    assert (Hex : existsb (λ url, negb (startswith "tls://" url)) (servers s) = true).
    { apply not_false_iff_true. intros Hx. apply Hu. intros x Hin. rewrite existsb_False in Hx.
      apply negb_false_iff, (Hx x Hin). }
    apply existsb_True in Hex as (url & Hin & Hn). exists url. split; [done|]. by apply negb_true_iff.
Qed.
Definition demo_settings (tls : bool) (urls : list string) : NATSSettings :=
  {| servers := urls; name := None; user := None; password := None; token := None;
     max_reconnect_attempts := 60; reconnect_time_wait := 2; ping_interval := 60; connect_timeout := 2;
     drain_timeout := 5; request_timeout := 2; jetstream_domain := None; require_tls := tls;
     require_mtls := false; tls_ca_file := None; tls_cert_file := None; tls_key_file := None;
     tls_server_name := None |}.
Lemma protected_connections_witness :
  let s := demo_settings true ["tls://a:4222"]%string in
  connection_options (λ _, true) (λ _ _, true) (demo_settings true ["nats://a:4222"]%string)
    = Raise tls_needs_tls_servers ∧
  ∃ o, connection_options (λ _, true) (λ _ _, true) s = Ok o ∧
    (∀ url, url ∈ o_servers o → startswith "tls://" url = true).
Proof.
  split; [by vm_compute|]. eexists. split; [vm_compute; reflexivity|].
  apply (protected_connections (λ _, true) (λ _ _, true) (demo_settings true ["tls://a:4222"]%string));
    vm_compute; reflexivity.
Defined.

(** ** The client's connections *)

Inductive step (ca_ok : option string → bool) (chain_ok : string → string → bool)
    : NATSClient → NATSClient → Prop :=
  | step_connect c ok : step _ _ c (connect ca_ok chain_ok ok c).2
  | step_jetstream c ok : step _ _ c (jetstream ca_ok chain_ok ok c).2
  | step_close c d : d ≠ raises → step _ _ c (close d c).2
  (** the library loses, restores or gives up a connection that is not closed *)
  | step_library c n st : status_of c n ≠ closed →
      step _ _ c (set_client c (connection c) (context c) (<[n := st]> (connections c))).

Record Inv (c : NATSClient) : Prop := {
  inv_current : ∀ n, connection c = Some n → (n < length (connections c))%nat;
  inv_context : ∀ n, context c = Some n → connection c = Some n;
  inv_single : ∀ n, status_of c n ≠ closed → connection c = Some n }.

Section client_inv.
Context (ca_ok : option string → bool) (chain_ok : string → string → bool).
Lemma status_length c n : (length (connections c) <= n)%nat → status_of c n = closed.
Proof. intros Hn. unfold status_of. by rewrite lookup_ge_None_2. Qed.
Lemma status_insert (l : list Status) n st m :
  (n < length l)%nat → default closed (<[n := st]> l !! m) = if decide (n = m) then st else default closed (l !! m).
Proof.
  intros Hn. rewrite list_lookup_insert. case_decide as Hd; case_decide as Hd2; tauto.
Qed.

Lemma connect_spec ok c r c' :
  Inv c → connect ca_ok chain_ok ok c = (r, c') →
  Inv c' ∧ settings c' = settings c ∧
  match r with
  | Ok n => connection c' = Some n ∧ status_of c' n ≠ closed ∧
      (usable c = Some n ∧ c' = c ∨ usable c = None ∧ context c' = None ∧
       connections c' = connections c ++ [connected])
  | Raise _ => c' = c ∧ usable c = None
  end.
Proof.
  intros HI. unfold connect. destruct (usable c) as [n|] eqn:Hu.
  { intros [= <- <-]. unfold usable in Hu. destruct (connection c) as [m|] eqn:Hm; [|done].
    case_bool_decide; [done|]. injection Hu as ->. split_and!; try done. by left. }
  destruct (connection_options ca_ok chain_ok (settings c)); [|by intros [= <- <-]].
  destruct ok; [|by intros [= <- <-]]. intros [= <- <-]. cbn.
  assert (Hold : ∀ m, status_of c m = closed).
  { intros m. destruct (decide (status_of c m = closed)) as [|Hm]; [done|].
    pose proof (inv_single c HI m Hm) as Hc. unfold usable in Hu. rewrite Hc in Hu.
    by rewrite bool_decide_false in Hu. }
  split; [|split_and!; try done].
  - split; cbn.
    + intros n [= <-]. rewrite length_app. cbn. lia.
    + done.
    + intros n Hn. unfold status_of in *. cbn in Hn. destruct (decide (n = length (connections c))) as [->|Hne]; [done|].
      rewrite lookup_app in Hn. destruct (connections c !! n) as [st|] eqn:E.
      * specialize (Hold n). rewrite E in Hold. by cbn in *; subst.
      * apply lookup_ge_None_1 in E. rewrite lookup_ge_None_2 in Hn by (cbn; lia). done.
  - unfold status_of; cbn. by rewrite lookup_app_r, Nat.sub_diag by lia.
  - by right.
Qed.
Lemma client_step_inv c c' : Inv c → step ca_ok chain_ok c c' → Inv c'.
Proof.
  intros HI Hs. destruct Hs as [c ok|c ok|c d Hd|c n st Hst].
  - destruct (connect ca_ok chain_ok ok c) as [r c'] eqn:E. by apply (connect_spec ok c r c').
  - unfold jetstream. destruct (context c) as [n|] eqn:Hc; [done|]. unfold se_bind, se_modify, se_ret.
    destruct (connect ca_ok chain_ok ok c) as [[n|e] c'] eqn:E; cbn;
      destruct (connect_spec ok c _ _ HI E) as (HI' & _ & Hr); [|done].
    destruct Hr as (Hcn & _). destruct HI' as [H1 H2 H3]. split; cbn; [done| |done]. by intros m [= <-].
  - unfold close. destruct (connection c) as [n|] eqn:Hc; [|done].
    assert (HI' : Inv (set_client c None None (mark_closed n (connections c)))).
    { split; cbn; [done|done|]. intros m Hm. exfalso. apply Hm. unfold status_of, mark_closed; cbn.
      rewrite status_insert by by apply (inv_current c HI). case_decide as Hnm; [done|].
      destruct (decide (status_of c m = closed)) as [|Hx]; [done|].
      apply (inv_single c HI) in Hx. congruence. }
    by destruct d.
  - assert (Hn := inv_single c HI n Hst). split; cbn.
    + intros m Hm. rewrite length_insert. by apply (inv_current c HI).
    + apply (inv_context c HI).
    + intros m Hm. unfold status_of in Hm; cbn in Hm.
      rewrite status_insert in Hm by by apply (inv_current c HI).
      case_decide; [by subst|]. by apply (inv_single c HI).
Qed.
End client_inv.

Definition demo_client : NATSClient := (jetstream (λ _, true) (λ _ _, true) true
  (new_client (demo_settings false ["nats://a:4222"]%string))).2.
Lemma demo_client_runs :
  runs (step (λ _, true) (λ _ _, true)) (new_client (demo_settings false ["nats://a:4222"]%string)) demo_client.
Proof. eapply runs_step; [apply runs_refl|]. apply step_jetstream. Qed.

(** A context outlives its connection: once the library has given a connection
    up, [jetstream] still answers the old context and nothing reconnects,
    however often it is asked and whether or not the server is back. *)
Theorem closed_context_is_served ca_ok chain_ok c n ok :
  context c = Some n → status_of c n = closed → jetstream ca_ok chain_ok ok c = (Ok n, c).
Proof. intros Hc _. unfold jetstream. by rewrite Hc. Qed.
Theorem closed_context_is_reachable :
  ∃ c n, runs (step (λ _, true) (λ _ _, true)) (new_client (demo_settings false ["nats://a:4222"]%string)) c ∧
    context c = Some n ∧ status_of c n = closed.
Proof.
  exists (set_client demo_client (connection demo_client) (context demo_client)
            (<[0%nat := closed]> (connections demo_client))), 0%nat.
  split; [|by vm_compute].
  eapply runs_step; [apply demo_client_runs|]. by apply step_library.
Qed.

(** ** Streams *)

Lemma elem_subset a b : subset a b = true ↔ ∀ x, x ∈ a → x ∈ b.
Proof. unfold subset. rewrite forallb_True'. by setoid_rewrite bool_decide_eq_true. Qed.

Section ensure.
Context {Js E : Type} `{JetStream Js E}.
Lemma ensure_stream_spec name subs config age bytes js i js' :
  match config with
  | Some c => (truthy (stream_name c) = true → stream_name c = Some name) ∧
              (subjects c = [] ∨ subset subs (subjects c) = true)
  | None => True
  end →
  ensure_stream name subs config age bytes js = (Ok i, js') →
  stream_info name js' = Ok i ∧ subset subs (subjects i) = true ∧
  ∀ old, stream_info name js = Ok old → subset (subjects old) (subjects i) = true ∧
    (subset subs (subjects old) = true → js' = js ∧ i = old).
Proof.
  intros Hconf. unfold ensure_stream, se_try, se_bind, se_get, se_lift.
  assert (Hrefl : ∀ l, subset l l = true) by (intros l; by apply elem_subset).
  destruct (stream_info name js) as [info|err] eqn:Hi.
  - destruct subs as [|s0 subs0] eqn:Es.
    { intros [= <- <-]. split_and!; [done|done|]. intros old [= <-]. split; [apply Hrefl|done]. }
    rewrite <-Es in *. clear Es. destruct (subset subs (subjects info)) eqn:Hsub.
    { intros [= <- <-]. split_and!; [done|done|]. intros old [= <-]. split; [apply Hrefl|done]. }
    set (info' := with_subjects info _).
    assert (Hn : stream_name info' = Some name) by (cbn; by eapply info_name).
    pose proof (update_stream_found info' js name info Hi Hn) as Hf.
    destruct (update_stream info' js) as [[[]|[|e]] js1] eqn:Hup; [|done|done].
    pose proof (update_stream_ok _ _ _ _ _ Hi Hn Hup) as Hi'. cbn. rewrite Hi'.
    intros [= <- <-].
    assert (Hall : ∀ x, x ∈ subjects info' ↔ x ∈ subjects info ∨ x ∈ subs).
    { intros x. cbn. unfold py_sorted. by rewrite elem_py_sort, elem_of_remove_dups, elem_of_app. }
    split_and!; [done| |].
    + apply elem_subset. intros x Hx. apply Hall. by right.
    + intros old [= <-]. split; [|congruence]. apply elem_subset. intros x Hx. apply Hall. by left.
  - destruct err as [|e]; [|done]. intros Ha.
    apply add_stream_ok with (n := name) in Ha as [Hi' ->].
    + split_and!; [done| |done]. destruct config as [c|]; cbn; [|apply Hrefl].
      destruct Hconf as [_ [-> |Hs]]; [apply Hrefl|]. destruct (subjects c); [apply Hrefl|done].
    + destruct config as [c|]; cbn; [|done]. destruct (truthy (stream_name c)) eqn:Ht; [|done].
      by apply Hconf.
Qed.
End ensure.

(** [ensure_stream] does what it says and does it once.  When it returns,
    the server's stream of that name is the returned one and captures every
    wanted subject; a stream that was there keeps every subject it had; and
    when it already captured them nothing is changed, so a second call is a
    no-op. *)
Lemma ensure_stream_captures {Js E} `{JetStream Js E} name subs config age bytes (js : Js) i js' :
  match config with
  | Some c => (truthy (stream_name c) = true → stream_name c = Some name) ∧
              (subjects c = [] ∨ subset subs (subjects c) = true)
  | None => True
  end →
  ensure_stream name subs config age bytes js = (Ok i, js') →
  stream_info name js' = Ok i ∧ (∀ x, x ∈ subs → x ∈ subjects i) ∧
  (∀ old, stream_info name js = Ok old → ∀ x, x ∈ subjects old → x ∈ subjects i) ∧
  ensure_stream name subs config age bytes js' = (Ok i, js').
Proof.
  intros Hc He. destruct (ensure_stream_spec _ _ _ _ _ _ _ _ Hc He) as (Hi & Hs & Ho).
  split_and!; [done|by apply elem_subset| |].
  - intros old Hold. destruct (Ho old Hold) as [Hso _]. by apply elem_subset.
  - unfold ensure_stream, se_try, se_bind, se_get, se_lift. rewrite Hi.
    destruct subs; [done|]. by rewrite Hs.
Qed.

(** A server that holds streams and consumers in memory. *)
Record Memory := { streams : gmap string StreamConfig; consumers : gmap (string * string) ConsumerConfig }.
Definition mem_stream_info (n : string) (m : Memory) : result (JsError Empty_set) StreamConfig :=
  match streams m !! n with
  | Some c => Ok {| stream_name := Some n; subjects := subjects c; max_age := max_age c; max_bytes := max_bytes c |}
  | None => Raise not_found
  end.
Definition mem_put_stream (c : StreamConfig) (m : Memory) : Memory :=
  match stream_name c with
  | Some n => {| streams := <[n := c]> (streams m); consumers := consumers m |}
  | None => m
  end.
Definition mem_consumer_info (s n : string) (m : Memory) : result (JsError Empty_set) ConsumerConfig :=
  match consumers m !! (s, n) with Some c => Ok c | None => Raise not_found end.
Definition mem_add_consumer (s : string) (c : ConsumerConfig) (m : Memory)
    : result (JsError Empty_set) ConsumerConfig * Memory :=
  match durable_name c with
  | Some n => (Ok c, {| streams := streams m; consumers := <[(s, n) := c]> (consumers m) |})
  | None => (Raise not_found, m)
  end.
#[export] Instance memory_jetstream : JetStream Memory Empty_set.
Proof.
  refine {| stream_info := mem_stream_info;
            update_stream := λ c m, (Ok tt, mem_put_stream c m);
            add_stream := λ c m, (Ok c, mem_put_stream c m);
            consumer_info := mem_consumer_info; add_consumer := mem_add_consumer |}.
  - intros c js js' n i _ Hn [= <-]. unfold mem_put_stream, mem_stream_info. rewrite Hn; cbn.
    rewrite lookup_insert_eq. destruct c; cbn in *. by rewrite Hn.
  - done.
  - intros c js js' n i Hn [= <- <-]. split; [|done]. unfold mem_put_stream, mem_stream_info. rewrite Hn; cbn.
    rewrite lookup_insert_eq. destruct c; cbn in *. by rewrite Hn.
  - intros s c js js' n i Hn. unfold mem_add_consumer, mem_consumer_info. rewrite Hn. intros [= <- <-]. cbn.
    by rewrite lookup_insert_eq.
  - intros n js i. unfold mem_stream_info. destruct (streams js !! n); [|done]. by intros [= <-].
Defined.
Definition demo_js : Memory := mem_put_stream
  {| stream_name := Some "EVENTS"; subjects := ["b"; "c"]; max_age := None; max_bytes := None |}%string
  {| streams := ∅; consumers := ∅ |}.
Lemma ensure_stream_captures_witness :
  let i := {| stream_name := Some "EVENTS"; subjects := ["a"; "b"; "c"]; max_age := None; max_bytes := None |}%string in
  let js' := mem_put_stream i demo_js in
  ensure_stream (Js := Memory) "EVENTS" ["a"; "c"]%string None None None demo_js = (Ok i, js') ∧
  ensure_stream (Js := Memory) "EVENTS" ["a"; "c"]%string None None None js' = (Ok i, js').
Proof.
  split; [by vm_compute|].
  apply (ensure_stream_captures (Js := Memory) "EVENTS" ["a"; "c"]%string None None None demo_js); [done|].
  vm_compute. reflexivity.
Defined.
End Nats.
