(* ===== verification/Pubsub.v ===== *)
(** * messaging/nats.py: publishing, requests and serving

    The core NATS calls of the client of Nats.v, several clients on one
    broker.  The broker is not this repository's code: which subscriptions
    match a subject is a parameter, and [Balancer] is what NATS promises of
    queue groups. *)

From S2P Require Import Prelude PyStr PyDict Nats.
#[local] Open Scope se_scope.

Module Pubsub.
Import Nats.

(** A message: its subject, its data and headers, and where a reply goes, or
    nothing. *)
Record Msg := { subject : string; data : string; headers : list (string * string); reply : string }.
(** A subscription: the client and the connection it was made on; a callback is
    what it answers to [msg.reply], when it does. *)
Record Subscription := {
  owner : nat * nat; s_subject : string; s_queue : option string; callback : Msg → option string; max_msgs : option Z }.
Record World := { clients : list NATSClient; subs : list Subscription; delivered : list (nat * Msg) }.

(** Of the subscriptions a message matches, those without a queue each get it,
    and of a queue group one does. *)
Class Balancer := {
  route : list (nat * option string) → list nat;
  route_sub l j : j ∈ route l → ∃ q, (j, q) ∈ l;
  route_plain l j : (j, None) ∈ l → j ∈ route l;
  route_group l j q : NoDup l.*1 → (j, Some q) ∈ l → ∃ i, (i, Some q) ∈ l ∧ ∀ k, (k, Some q) ∈ l → (k ∈ route l ↔ k = i);
  route_once l : NoDup l.*1 → NoDup (route l) }.

Inductive PubError := client_error (e : ClientError) | no_client | no_responders | request_timed_out | encode_error.

Section broker.
Context `{Balancer} (matches : string → string → bool).
Context (ca_ok : option string → bool) (chain_ok : string → string → bool).
Abbreviation M := (SE World PubError).

(** A client's own computation, on its state. *)
Definition on_client {A} (i : nat) (f : SE NATSClient ClientError A) : M A := λ w,
  match clients w !! i with
  | None => (Raise no_client, w)
  | Some c =>
      let '(r, c') := f c in
      (match r with Ok x => Ok x | Raise e => Raise (client_error e) end,
       {| clients := <[i := c']> (clients w); subs := subs w; delivered := delivered w |})
  end.
Definition connect_ (i : nat) (reachable : bool) : M nat := on_client i (connect ca_ok chain_ok reachable).

(** A subscription gets messages while its connection is up and its limit is
    not reached. *)
Definition received (w : World) (j : nat) : nat := length (List.filter (λ d, bool_decide (d.1 = j)) (delivered w)).
Definition live (w : World) (j : nat) (s : Subscription) : bool :=
  match clients w !! (owner s).1 with Some c => bool_decide (status_of c (owner s).2 = connected) | None => false end &&
  match max_msgs s with Some m => (m <=? 0)%Z || (Z.of_nat (received w j) <? m)%Z | None => true end.
Definition eligible (w : World) (subj : string) (p : nat * Subscription) : bool :=
  matches (s_subject p.2) subj && live w p.1 p.2.
Definition candidates (w : World) (subj : string) : list (nat * option string) :=
  (λ p, (p.1, s_queue p.2)) <$> List.filter (eligible w subj) (imap pair (subs w)).
Definition deliver (m : Msg) (w : World) : list nat * World :=
  let ds := route (candidates w (subject m)) in
  (ds, {| clients := clients w; subs := subs w; delivered := delivered w ++ ((λ j, (j, m)) <$> ds) |}).

(** [publish]; [dumps] gives the JSON text, which is encoded as UTF-8. *)
Definition publish (i : nat) (reachable : bool) (subj payload : string) (headers : option (list (string * string))) : M unit :=
  let* _ := connect_ i reachable in λ w,
  let '(_, w') := deliver {| subject := subj; data := payload; headers := default [] headers; reply := EmptyString |} w in
  (Ok tt, w').
Definition publish_json {A} (encode : string → string) (dumps : A → result PubError string) (i : nat) (reachable : bool)
    (subj : string) (payload : A) (headers : option (list (string * string))) : M unit :=
  let* text := se_lift (dumps payload) in publish i reachable subj (encode text) headers.
(** [publish_stream]: [store] is JetStream's answer to what it is given, on the
    connection of the context. *)
Definition publish_stream {A} (store : nat → string → string → Q → option (list (string * string)) → result PubError A)
    (i : nat) (reachable : bool) (subj payload : string) (msg_id : option string)
    (headers : option (list (string * string))) (timeout : option Q) : M A :=
  let* n := on_client i (jetstream ca_ok chain_ok reachable) in λ w,
  let t := match clients w !! i with Some c => or_timeout timeout (settings c) | None => 0%Q end in
  (store n subj payload t (publish_stream_headers msg_id (default [] headers)), w).
(** [subscribe], and [serve] with what [respond] makes of a handler. *)
Definition subscribe (i : nat) (reachable : bool) (subj : string) (queue : option string) (cb : Msg → option string)
    (max_messages : option Z) : M nat :=
  let* n := connect_ i reachable in λ w,
  (Ok (length (subs w)),
   {| clients := clients w; delivered := delivered w;
      subs := subs w ++ [{| owner := (i, n); s_subject := subj; s_queue := queue; callback := cb; max_msgs := max_messages |}] |}).
Definition Handler : Type := Msg → result string (option string).
Definition responding (handler : Handler) (m : Msg) : option string := respond (handler m) (reply m).
Definition serve (i : nat) (reachable : bool) (subj : string) (handler : Handler) (queue : option string) : M nat :=
  subscribe i reachable subj queue (responding handler) None.

(** [request] to a fresh [inbox]: the first answer, as they arrive in the
    order of [route]; with no subscription at all the server says so. *)
Definition answers (w : World) (m : Msg) (ds : list nat) : list string :=
  omap (λ j, match subs w !! j with Some s => callback s m | None => None end) ds.
Definition request (i : nat) (reachable : bool) (inbox subj payload : string) (timeout : option Q)
    (headers : option (list (string * string))) : M (string * Q) :=
  let* _ := connect_ i reachable in λ w,
  let m := {| subject := subj; data := payload; headers := default [] headers; reply := inbox |} in
  let t := match clients w !! i with Some c => or_timeout timeout (settings c) | None => 0%Q end in
  let '(ds, w') := deliver m w in
  match ds, answers w m ds with
  | [], _ => (Raise no_responders, w')
  | _, [] => (Raise request_timed_out, w')
  | _, a :: _ => (Ok (a, t), w')
  end.
Definition request_json {A} (encode : string → string) (dumps : A → result PubError string) (i : nat) (reachable : bool)
    (inbox subj : string) (payload : A) (timeout : option Q) (headers : option (list (string * string))) : M (string * Q) :=
  let* text := se_lift (dumps payload) in request i reachable inbox subj (encode text) timeout headers.
(** [async with client]: the connection is made, and closed whatever the body
    does. *)
Definition with_client {A} (i : nat) (reachable : bool) (d : Drain) (body : M A) : M A := λ w,
  match connect_ i reachable w with
  | (Raise e, w1) => (Raise e, w1)
  | (Ok _, w1) =>
      let '(r, w2) := body w1 in
      match on_client i (close d) w2 with (Ok _, w3) => (r, w3) | (Raise e, w3) => (Raise e, w3) end
  end.

(** ** Serving through a queue *)

Lemma serve_spec i reachable subj handler queue w j w' : serve i reachable subj handler queue w = (Ok j, w') →
  ∃ n c', j = length (subs w) ∧ delivered w' = delivered w ∧ clients w' !! i = Some c' ∧
    (∀ k, k ≠ i → clients w' !! k = clients w !! k) ∧
    subs w' = (subs w ++ [{| owner := (i, n); s_subject := subj; s_queue := queue; callback := responding handler;
                             max_msgs := None |}])%list.
Proof.
  unfold serve, subscribe, se_bind, connect_, on_client. destruct (clients w !! i) as [c|] eqn:Hc; [|done].
  destruct (connect ca_ok chain_ok reachable c) as [[n|e] c'] eqn:Hn; [|done]. intros [= <- <-].
  exists n, c'. cbn. split_and!; try done.
  - rewrite list_lookup_insert_eq; [done|]. by eapply lookup_lt_Some.
  - intros k Hk. by rewrite list_lookup_insert_ne.
Qed.
Lemma elem_candidates w subj j q : (j, q) ∈ candidates w subj ↔
  ∃ s, subs w !! j = Some s ∧ eligible w subj (j, s) = true ∧ s_queue s = q.
Proof.
  unfold candidates. rewrite list_elem_of_fmap. split.
  - intros ([k s] & [= -> ->] & [Hin He]%list_elem_of_filter'). exists s. split; [|done].
    apply list_elem_of_lookup in Hin as (n & Hn). rewrite list_lookup_imap in Hn.
    destruct (subs w !! n) as [s'|] eqn:Hs; cbn in Hn; [|done]. by injection Hn as <- <-.
  - intros (s & Hs & He & <-). exists (j, s). split; [done|]. apply list_elem_of_filter'. split; [|done].
    apply list_elem_of_lookup. exists j. by rewrite list_lookup_imap, Hs.
Qed.
Lemma filter_is_sublist {A} (P : A → bool) (l : list A) : List.filter P l `sublist_of` l.
Proof. induction l as [|x l IH]; [done|]. cbn. destruct (P x); by constructor. Qed.
Lemma candidates_NoDup w subj : NoDup (candidates w subj).*1.
Proof.
  unfold candidates. rewrite <-list_fmap_compose.
  apply (sublist_NoDup _ (fst <$> imap pair (subs w))).
  - assert (fst <$> imap pair (subs w) = seq 0 (length (subs w))) as ->; [|apply NoDup_seq].
    rewrite <-(list_fmap_id (seq 0 _)), <-(imap_seq_0 (subs w) id). rewrite fmap_imap. by apply imap_ext.
  - apply (fmap_sublist fst), filter_is_sublist.
Qed.
Lemma singleton_NoDup {A} (l : list A) x : NoDup l → (∀ y, y ∈ l ↔ y = x) → l = [x].
Proof.
  intros Hn Hl. assert (x ∈ l) as Hx by by apply Hl. destruct l as [|a l]; [by apply not_elem_of_nil in Hx|].
  assert (a = x) as -> by (apply Hl; by left). f_equal. destruct l as [|b l]; [done|].
  assert (b = x) as -> by (apply Hl; right; by left). apply NoDup_cons in Hn as [Hn _]. destruct Hn. by left.
Qed.

(** ** Publishing *)

Lemma connect_keeps i reachable w : ∃ cs, (connect_ i reachable w).2 = {| clients := cs; subs := subs w; delivered := delivered w |}.
Proof.
  unfold connect_, on_client. destruct (clients w !! i) as [c|]; [|exists (clients w); by destruct w].
  destruct (connect ca_ok chain_ok reachable c) as [r c']. by eexists.
Qed.
(** What is published goes to subscriptions that could get it, once to each:
    to every one without a queue, and to one of each queue group. *)
Definition spread (w : World) (subj : string) (ds : list nat) : Prop :=
  NoDup ds ∧ (∀ j, j ∈ ds → ∃ s, subs w !! j = Some s ∧ eligible w subj (j, s) = true) ∧
  ∀ j s, subs w !! j = Some s → eligible w subj (j, s) = true →
    match s_queue s with
    | None => j ∈ ds
    | Some q => ∃ k s', subs w !! k = Some s' ∧ eligible w subj (k, s') = true ∧ s_queue s' = Some q ∧ k ∈ ds ∧
        ∀ k' s'', subs w !! k' = Some s'' → eligible w subj (k', s'') = true → s_queue s'' = Some q → k' ∈ ds → k' = k
    end.
Lemma route_spread w subj : spread w subj (route (candidates w subj)).
Proof.
  split; [apply route_once, candidates_NoDup|]. split.
  - intros j (q & (s & Hs & He & _)%elem_candidates)%route_sub. by exists s.
  - intros j s Hs He. assert ((j, s_queue s) ∈ candidates w subj) as Hin by (apply elem_candidates; by exists s).
    destruct (s_queue s) as [q|]; [|by apply route_plain].
    destruct (route_group _ _ _ (candidates_NoDup w subj) Hin) as (k & Hk & Hone).
    pose proof Hk as (s' & Hs' & He' & Hq')%elem_candidates. exists k, s'. split_and!; try done; [by apply Hone|].
    intros k' s'' Hs'' He'' Hq''. apply Hone, elem_candidates. by exists s''.
Qed.
Lemma publish_delivers i reachable subj payload headers w :
  let '(r, w') := publish i reachable subj payload headers w in
  subs w' = subs w ∧
  match r with
  | Ok _ => ∃ ds, spread {| clients := clients w'; subs := subs w; delivered := delivered w |} subj ds ∧
      delivered w' = (delivered w ++ ((λ j, (j, {| subject := subj; data := payload; headers := default [] headers;
                                                  reply := EmptyString |})) <$> ds))%list
  | Raise _ => delivered w' = delivered w
  end.
Proof.
  unfold publish, se_bind. pose proof (connect_keeps i reachable w) as [cs Hcs].
  destruct (connect_ i reachable w) as [[n|e] w1]; cbn in Hcs |- *; subst w1; [|done]. cbn.
  split; [done|]. eexists. split; [apply route_spread|done].
Qed.

(** ** Requests *)

(** A request to a service is handled by one of its replicas and by no other,
    and its answer is that replica's.  When every subscription that could get
    the request was made by [serve] with one queue and one of them is up,
    exactly one of them gets the message; the requester gets what its handler
    returned, and waits in vain when it returned nothing or raised. *)
Lemma requests_reach_one_replica w i c n inbox subj payload timeout headers queue (h : nat → Handler) j0 s0 :
  clients w !! i = Some c → usable c = Some n → inbox ≠ EmptyString →
  subs w !! j0 = Some s0 → eligible w subj (j0, s0) = true →
  (∀ j s, subs w !! j = Some s → eligible w subj (j, s) = true → s_queue s = Some queue ∧ callback s = responding (h j)) →
  let m := {| subject := subj; data := payload; headers := default [] headers; reply := inbox |} in
  ∃ j s w', subs w !! j = Some s ∧ eligible w subj (j, s) = true ∧ delivered w' = (delivered w ++ [(j, m)])%list ∧
    request i true inbox subj payload timeout headers w =
      (match h j m with Ok (Some a) => Ok (a, or_timeout timeout (settings c)) | _ => Raise request_timed_out end, w').
Proof.
  intros Hc Hu Hin Hs0 He0 Hall m.
  assert (∀ j q, (j, q) ∈ candidates w subj → q = Some queue) as Hq.
  { intros j q (s & Hs & He & <-)%elem_candidates. by destruct (Hall j s Hs He). }
  assert ((j0, Some queue) ∈ candidates w subj) as H0.
  { apply elem_candidates. exists s0. split; [done|]. split; [done|]. by destruct (Hall j0 s0 Hs0 He0). }
  destruct (route_group _ _ _ (candidates_NoDup w subj) H0) as (j & Hj & Hone).
  assert (route (candidates w subj) = [j]) as Hroute.
  { apply singleton_NoDup; [apply route_once, candidates_NoDup|]. intros k. split.
    - intros Hk. destruct (route_sub _ _ Hk) as [q Hkq]. pose proof (Hq k q Hkq) as ->. by apply Hone.
    - intros ->. by apply Hone. }
  apply elem_candidates in Hj as (s & Hs & He & _). destruct (Hall j s Hs He) as [_ Hcb].
  exists j, s. eexists. split; [done|]. split; [done|]. split; cycle 1.
  - unfold request, se_bind, connect_, on_client. rewrite Hc. unfold connect. rewrite Hu. cbn [clients subs delivered].
    assert (<[i:=c]> (clients w) = clients w) as -> by by apply list_insert_id.
    assert ({| clients := clients w; subs := subs w; delivered := delivered w |} = w) as -> by by destruct w.
    rewrite Hc. unfold deliver. fold m. change (subject m) with subj. rewrite Hroute. cbn [fmap list_fmap].
    unfold answers. cbn [omap list_omap]. rewrite Hs, Hcb. unfold responding, respond. change (reply m) with inbox.
    apply is_empty_false in Hin. rewrite Hin.
    destruct (h j m) as [[a|]|e]; reflexivity.
  - done.
Qed.
End broker.

(** ** Two replicas *)

(** The first of each queue. *)
Fixpoint firsts (seen : list string) (l : list (nat * option string)) : list nat :=
  match l with
  | [] => []
  | (j, None) :: l => j :: firsts seen l
  | (j, Some q) :: l => if bool_decide (q ∈ seen) then firsts seen l else j :: firsts (q :: seen) l
  end.
Lemma firsts_sub l : ∀ seen j, j ∈ firsts seen l → ∃ q, (j, q) ∈ l.
Proof.
  induction l as [|[k [q|]] l IH]; intros seen j; cbn; [by intros ?%not_elem_of_nil| |].
  - case_bool_decide; [|intros [->|Hj]%elem_of_cons; [exists (Some q); by left|]].
    + intros Hj. destruct (IH _ _ Hj) as [q' ?]. exists q'. by right.
    + destruct (IH _ _ Hj) as [q' ?]. exists q'. by right.
  - intros [->|Hj]%elem_of_cons; [exists None; by left|]. destruct (IH _ _ Hj) as [q' ?]. exists q'. by right.
Qed.
Lemma firsts_plain l : ∀ seen j, (j, None) ∈ l → j ∈ firsts seen l.
Proof.
  induction l as [|[k [q|]] l IH]; intros seen j; cbn; [by intros ?%not_elem_of_nil| |].
  - intros [?|Hj]%elem_of_cons; [done|]. case_bool_decide; [by apply IH|]. right. by apply IH.
  - intros [[= ->]|Hj]%elem_of_cons; [by left|right; by apply IH].
Qed.
Lemma firsts_fresh l seen k : k ∉ l.*1 → k ∉ firsts seen l.
Proof. intros Hk [q Hin]%firsts_sub. apply Hk. apply list_elem_of_fmap. by exists (k, q). Qed.
Lemma firsts_once l : ∀ seen, NoDup l.*1 → NoDup (firsts seen l).
Proof.
  induction l as [|[k [q|]] l IH]; intros seen; cbn; [by constructor| |]; intros [Hn Hd]%NoDup_cons.
  - case_bool_decide; [by apply IH|]. apply NoDup_cons. split; [by apply firsts_fresh|by apply IH].
  - apply NoDup_cons. split; [by apply firsts_fresh|by apply IH].
Qed.
Lemma firsts_seen l : ∀ seen k q, NoDup l.*1 → (k, Some q) ∈ l → q ∈ seen → k ∉ firsts seen l.
Proof.
  induction l as [|[k' q'] l IH]; intros seen k q; cbn; [by intros _ ?%not_elem_of_nil|].
  intros [Hn Hd]%NoDup_cons [[= -> <-]|Hin]%elem_of_cons Hq.
  - rewrite bool_decide_eq_true_2 by done. by apply firsts_fresh.
  - assert (k' ≠ k) as Hne.
    { intros ->. apply Hn, list_elem_of_fmap. by exists (k, Some q). }
    destruct q' as [q'|]; [case_bool_decide|].
    + by apply (IH seen k q).
    + intros [?|Hf]%elem_of_cons; [done|]. revert Hf. apply (IH _ k q); [done|done|by right].
    + intros [?|Hf]%elem_of_cons; [done|]. revert Hf. by apply (IH _ k q).
Qed.
Lemma firsts_group l : ∀ seen j q, NoDup l.*1 → (j, Some q) ∈ l → q ∉ seen →
  ∃ i, (i, Some q) ∈ l ∧ ∀ k, (k, Some q) ∈ l → (k ∈ firsts seen l ↔ k = i).
Proof.
  induction l as [|[k' q'] l IH]; intros seen j q; cbn; [by intros _ ?%not_elem_of_nil|].
  intros [Hn Hd]%NoDup_cons Hj Hq.
  assert (∀ k, (k, Some q) ∈ l → k ≠ k') as Hne.
  { intros k Hk ->. apply Hn, list_elem_of_fmap. by exists (k', Some q). }
  destruct (decide (q' = Some q)) as [->|Hqq].
  - exists k'. split; [by left|]. rewrite bool_decide_eq_false_2 by done. intros k [[= ->]|Hk]%elem_of_cons.
    + split; [done|]. intros _. by left.
    + split; [|intros ->; by left]. intros [?|Hf]%elem_of_cons; [done|].
      by destruct (firsts_seen l (q :: seen) k q Hd Hk ltac:(by left)).
  - assert ((j, Some q) ∈ l) as Hj' by (apply elem_of_cons in Hj as [[= _ ?]|?]; congruence).
    assert (∀ seen', q ∉ seen' → ∃ i, (i, Some q) ∈ (k', q') :: l ∧
      ∀ k, (k, Some q) ∈ (k', q') :: l → (k ∈ firsts seen' l ↔ k = i)) as Hrest.
    { intros seen' Hs'. destruct (IH seen' j q Hd Hj' Hs') as (i & Hi & Hone). exists i. split; [by right|].
      intros k [[= _ ?]|Hk]%elem_of_cons; [congruence|by apply Hone]. }
    assert (∀ seen', q ∉ seen' → ∃ i, (i, Some q) ∈ (k', q') :: l ∧
      ∀ k, (k, Some q) ∈ (k', q') :: l → (k ∈ k' :: firsts seen' l ↔ k = i)) as Hcons.
    { intros seen' Hs'. destruct (Hrest seen' Hs') as (i & Hi & Hone). exists i. split; [done|].
      intros k Hk. rewrite elem_of_cons, Hone by done. split; [|by right].
      intros [->|?]; [|done]. apply elem_of_cons in Hk as [[= ?]|Hk]; [congruence|]. by destruct (Hne _ Hk). }
    destruct q' as [q'|]; [case_bool_decide|]; [by apply Hrest|apply Hcons|by apply Hcons].
    intros [->|?]%elem_of_cons; [congruence|done].
Qed.
#[local] Instance first_of_each : Balancer.
Proof.
  refine {| route := firsts [] |}.
  - intros l j. apply firsts_sub.
  - intros l j. apply firsts_plain.
  - intros l j q Hl Hj. apply (firsts_group l [] j q Hl Hj). apply not_elem_of_nil.
  - intros l. apply firsts_once.
Defined.

(** Two clients serve one subject and a third asks. *)
Definition demo_client : NATSClient :=
  {| settings := demo_settings false ["nats://a:4222"]%string; connection := Some 0%nat; context := None; connections := [connected] |}.
Definition demo_start : World := {| clients := [demo_client; demo_client; demo_client]; subs := []; delivered := [] |}.
Definition same (pattern subj : string) : bool := bool_decide (pattern = subj).
Definition demo_handler (who : string) : Handler := λ m, Ok (Some (who +:+ (" " +:+ data m))%string).
Definition demo_world : World :=
  ((let* _ := serve (λ _, true) (λ _ _, true) 0 true "work" (demo_handler "one") (Some "workers"%string) in
   serve (λ _, true) (λ _ _, true) 1 true "work" (demo_handler "two") (Some "workers"%string)) demo_start).2.

Lemma requests_reach_one_replica_witness :
  ∃ j s w', subs demo_world !! j = Some s ∧ delivered w' = [(j, {| subject := "work"; data := "x"; headers := []; reply := "inbox" |})] ∧
    request same (λ _, true) (λ _ _, true) 2 true "inbox" "work" "x" None None demo_world =
      (Ok ((if decide (j = 0%nat) then "one x" else "two x")%string, 2%Q), w').
Proof.
  destruct (requests_reach_one_replica same (λ _, true) (λ _ _, true) demo_world 2 demo_client 0 "inbox" "work" "x" None None
    "workers" (λ j, if decide (j = 0%nat) then demo_handler "one" else demo_handler "two") 0
    {| owner := (0, 0)%nat; s_subject := "work"; s_queue := Some "workers"%string; callback := responding (demo_handler "one");
       max_msgs := None |} eq_refl eq_refl ltac:(done) eq_refl eq_refl) as (j & s & w' & Hs & _ & Hd & Hr).
  - intros [|[|j]] s; cbn; [intros [= <-]|intros [= <-]|done]; done.
  - exists j, s, w'. split; [exact Hs|]. split; [exact Hd|]. rewrite Hr. by case_decide.
Defined.
End Pubsub.
