(* ===== verification/Messaging.v ===== *)
(** * messaging/: durable consumer, event bus, leader-elected listener

    [Consumer] (consumer.py), [Events] (events.py and event_bus.py) and
    [Listener] (leader_elected_listener.py).  What JetStream, Redis and the
    subclasses answer is given by scripts: functions of a step counter, or the
    answers of one attempt. *)

From S2P Require Import Prelude PyStr PyDict Bits Snowflake Nats.

Module Consumer.
Definition DEFAULT_BACKOFF : list Q := [1; 5; 30; 120]%Q.

Record DurableConsumer := {
  stream : string; durable : string; subject : string; batch : Z; fetch_timeout : Q; ack_wait : Q;
  max_deliver : Z; backoff : list Q; reconnect_delay : Q }.

(** [config]: what JetStream is asked to hold *)
Definition config (c : DurableConsumer) : Nats.ConsumerConfig :=
  {| Nats.durable_name := Some (durable c); Nats.filter_subject := Some (subject c);
     Nats.deliver_group := None |}.

(** [backoff[min(max(attempt, 1), len(backoff)) - 1]] *)
Definition delay_for (c : DurableConsumer) (attempt : Z) : Q :=
  match backoff c with
  | [] => 0
  | _ => default 0%Q (backoff c !! Z.to_nat (Z.min (Z.max attempt 1) (Z.of_nat (length (backoff c))) - 1))
  end.

(** How a handler ends, and what settles the message. *)
Inductive Outcome := returns | poison | fails | cancelled.
Inductive Settlement := ack | term | nak (delay : Q).
(** [num_delivered]: [None] without metadata *)
Record Msg := { msg_id : nat; num_delivered : option Z }.
Definition settlement (c : DurableConsumer) (m : Msg) (o : Outcome) : option Settlement :=
  match o with
  | returns => Some ack
  | poison => Some term
  | fails => Some (nak (delay_for c (default 1 (num_delivered m))))
  | cancelled => None
  end.

(** A call to the library in the loop. *)
Inductive Prepared := ready | unavailable | unexpected | prepare_cancelled.
Inductive Fetched := empty_fetch | messages (ms : list Msg) | fetch_unavailable | fetch_unexpected
  | fetch_cancelled.
Record Env := {
  prepare : nat → Prepared; fetch : nat → Fetched; handler : nat → Msg → Outcome;
  settle_ok : nat → bool; stopping : nat → bool }.

Inductive End := stopped | run_cancelled.
Inductive BatchEnd := all_handled | settle_failed | batch_cancelled.
Section run.
Context (c : DurableConsumer) (env : Env).

(** [handle] for each message of a batch, in order; a settlement that cannot
    be sent ends the batch. *)
Fixpoint handle_all (t : nat) (ms : list Msg) : BatchEnd * nat * list (Msg * Settlement) :=
  match ms with
  | [] => (all_handled, t, [])
  | m :: ms =>
      match settlement c m (handler env t m) with
      | None => (batch_cancelled, S t, [])
      | Some s =>
          if settle_ok env t then
            let '(e, t', log) := handle_all (S t) ms in (e, t', (m, s) :: log)
          else (settle_failed, S t, [])
      end
  end.
(** [run]: [bound] says which of the two loops is running.  A lost connection
    and an unexpected exception both sleep and go back to the outer loop. *)
Fixpoint run (fuel : nat) (bound : bool) (t : nat) : option (End * list (Msg * Settlement)) :=
  match fuel with
  | O => None
  | S fuel =>
      if stopping env t then Some (stopped, [])
      else if bound then
        match fetch env t with
        | empty_fetch => run fuel true (S t)
        | messages ms =>
            match handle_all (S t) ms with
            | (batch_cancelled, _, log) => Some (run_cancelled, log)
            | (all_handled, t', log) => '(e, log') ← run fuel true t'; Some (e, log ++ log')
            | (settle_failed, t', log) => '(e, log') ← run fuel false t'; Some (e, log ++ log')
            end
        | fetch_unavailable | fetch_unexpected => run fuel false (S t)
        | fetch_cancelled => Some (run_cancelled, [])
        end
      else
        match prepare env t with
        | ready => run fuel true (S t)
        | unavailable | unexpected => run fuel false (S t)
        | prepare_cancelled => Some (run_cancelled, [])
        end
  end.

Lemma handle_all_tick t ms e t' log : handle_all t ms = (e, t', log) → (t <= t')%nat.
Proof.
  revert t e log. induction ms as [|m ms IH]; intros t e log; cbn [handle_all]; [intros [= _ <- _]; done|].
  destruct (settlement c m _); [|intros [= _ <- _]; lia]. destruct (settle_ok env t); [|intros [= _ <- _]; lia].
  destruct (handle_all (S t) ms) as [[e' t1] l] eqn:E. intros [= _ <- _]. apply IH in E. lia.
Qed.
(** The settled part of a batch is a prefix of it; it is the whole batch when
    nothing went wrong. *)
Lemma handle_all_log t ms e t' log :
  handle_all t ms = (e, t', log) →
  log.*1 `prefix_of` ms ∧ (e = all_handled → log.*1 = ms) ∧
  Forall (λ p, ∃ t0, settlement c p.1 (handler env t0 p.1) = Some p.2) log.
Proof.
  revert t e log. induction ms as [|m ms IH]; intros t e log; cbn [handle_all].
  { intros [= <- _ <-]. split_and!; [done|done|constructor]. }
  destruct (settlement c m (handler env t m)) as [s|] eqn:Hs.
  - destruct (settle_ok env t); [|intros [= <- _ <-]; split_and!; [apply prefix_nil|done|constructor]].
    destruct (handle_all (S t) ms) as [[e' t1] l] eqn:E. intros [= <- <- <-].
    destruct (IH _ _ _ E) as (Hp & Ha & Hf). split_and!; cbn.
    + by apply prefix_cons.
    + intros He. by rewrite Ha.
    + constructor; [by exists t|done].
  - intros [= <- _ <-]. split_and!; [apply prefix_nil|done|constructor].
Qed.
Lemma run_spec N fuel bound t :
  (∀ t', (N <= t')%nat → stopping env t' = true) → (N < t + fuel)%nat → (0 < fuel)%nat →
  ∃ e log, run fuel bound t = Some (e, log) ∧
    Forall (λ p, ∃ t0, settlement c p.1 (handler env t0 p.1) = Some p.2) log ∧
    (e = run_cancelled → ∃ t0, prepare env t0 = prepare_cancelled ∨ fetch env t0 = fetch_cancelled ∨
       ∃ m, handler env t0 m = cancelled).
Proof.
  intros HN. revert bound t. induction fuel as [|fuel IH]; intros bound t Hf Hp; [lia|]. cbn [run].
  destruct (stopping env t) eqn:Hs; [exists stopped, []; split_and!; [done|constructor|done]|].
  assert (Ht : (t < N)%nat).
  { destruct (decide (N <= t)%nat) as [Hle|]; [|lia]. by rewrite (HN t Hle) in Hs. }
  assert (Hnext : ∀ b t', (t < t')%nat → ∃ e log, run fuel b t' = Some (e, log) ∧
    Forall (λ p, ∃ t0, settlement c p.1 (handler env t0 p.1) = Some p.2) log ∧
    (e = run_cancelled → ∃ t0, prepare env t0 = prepare_cancelled ∨ fetch env t0 = fetch_cancelled ∨
       ∃ m, handler env t0 m = cancelled)) by (intros; apply IH; lia).
  destruct bound.
  - destruct (fetch env t) as [|ms| | |] eqn:Hfe; [apply Hnext; lia| |apply Hnext; lia|apply Hnext; lia|].
    2:{ exists run_cancelled, []. split_and!; [done|constructor|]. intros _. exists t. by right; left. }
    destruct (handle_all (S t) ms) as [[be t'] log] eqn:Hh.
    pose proof (handle_all_tick _ _ _ _ _ Hh) as Htt. pose proof (handle_all_log _ _ _ _ _ Hh) as (_ & _ & Hlog).
    destruct be.
    + destruct (Hnext true t' ltac:(lia)) as (e & log' & -> & Hl & Hc). exists e, (log ++ log').
      split_and!; [done|by apply Forall_app|done].
    + destruct (Hnext false t' ltac:(lia)) as (e & log' & -> & Hl & Hc). exists e, (log ++ log').
      split_and!; [done|by apply Forall_app|done].
    + exists run_cancelled, log. split_and!; [done|done|]. intros _. clear -Hh.
      revert Hh. generalize (S t). intros t1. revert t1 log. induction ms as [|m ms IH]; intros t1 log; cbn [handle_all]; [done|].
      destruct (settlement c m (handler env t1 m)) eqn:Hs.
      * destruct (settle_ok env t1); [|done]. destruct (handle_all (S t1) ms) as [[e' t2] l] eqn:E.
        intros [= -> <- _]. by eapply IH.
      * intros _. exists t1. right; right. exists m. by destruct (handler env t1 m).
  - destruct (prepare env t) eqn:Hpr; [apply Hnext; lia|apply Hnext; lia|apply Hnext; lia|].
    exists run_cancelled, []. split_and!; [done|constructor|]. intros _. exists t. by left.
Qed.
End run.

(** The redelivery delay is one of the configured ones: the [n]-th for the
    [n]-th attempt, the first for anything below one, the last from then on. *)
Lemma delay_is_configured c attempt :
  backoff c ≠ [] →
  delay_for c attempt ∈ backoff c ∧
  (attempt <= 1 → Some (delay_for c attempt) = head (backoff c)) ∧
  (Z.of_nat (length (backoff c)) <= attempt → Some (delay_for c attempt) = last (backoff c)) ∧
  (1 <= attempt <= Z.of_nat (length (backoff c)) →
     backoff c !! Z.to_nat (attempt - 1) = Some (delay_for c attempt)).
Proof.
  intros Hne. unfold delay_for.
  assert (Hin : ∀ i, (0 <= i < Z.of_nat (length (backoff c))) →
    backoff c !! Z.to_nat i = Some (default 0%Q (backoff c !! Z.to_nat i))).
  { intros i Hi. destruct (lookup_lt_is_Some_2 (backoff c) (Z.to_nat i)) as [q Hq]; [lia|]. by rewrite Hq. }
  destruct (backoff c) as [|q l] eqn:E; [done|]. clear Hne.
  assert (Hlen : 0 < Z.of_nat (length (q :: l))) by (cbn; lia).
  set (L := q :: l) in *. assert (Hlast : last L = L !! pred (length L)) by apply last_lookup.
  assert (Hhead : head L = L !! 0%nat) by done. clearbody L. clear E q l.
  set (i := Z.min (Z.max attempt 1) (Z.of_nat (length L)) - 1).
  assert (Hi := Hin i ltac:(unfold i; lia)). split_and!.
  - by eapply list_elem_of_lookup_2.
  - intros Ha. rewrite <-Hi, Hhead. f_equal. unfold i. lia.
  - intros Ha. rewrite <-Hi, Hlast. f_equal. unfold i. lia.
  - intros Ha. rewrite <-Hi. f_equal. unfold i. lia.
Qed.
Definition demo_consumer : DurableConsumer :=
  {| stream := "EVENTS"; durable := "billing"; subject := "a"; batch := 10; fetch_timeout := 5;
     ack_wait := 30; max_deliver := 10; backoff := DEFAULT_BACKOFF; reconnect_delay := 2 |}.
Lemma delay_is_configured_witness :
  delay_for demo_consumer 2 = 5%Q ∧ delay_for demo_consumer 9 = 120%Q ∧
  delay_for demo_consumer 9 ∈ backoff demo_consumer.
Proof.
  split; [by vm_compute|]. split; [by vm_compute|].
  apply (delay_is_configured demo_consumer 9). discriminate.
Defined.

Definition demo_msg (n : nat) : Msg := {| msg_id := n; num_delivered := Some 2 |}.
Definition demo_env : Env :=
  {| prepare := λ t, if Nat.eqb t 0 then unavailable else ready;
     fetch := λ t, if Nat.eqb t 2 then messages [demo_msg 1; demo_msg 2; demo_msg 3] else empty_fetch;
     handler := λ _ m, match msg_id m with 1%nat => returns | 2%nat => fails | _ => poison end;
     settle_ok := λ _, true; stopping := λ t, (9 <=? t)%nat |}.
End Consumer.

Module Events.
(** The data of an event is opaque. *)
Record Event (D : Type) := {
  event_id : string; event_type : string; occurred_at : string; producer : option string;
  schema_version : Z; correlation_id : option string; causation_id : option string; data : D }.
Arguments event_id {D}. Arguments event_type {D}. Arguments occurred_at {D}. Arguments producer {D}.
Arguments schema_version {D}. Arguments correlation_id {D}. Arguments causation_id {D}. Arguments data {D}.

(** [str(x or fallback)] *)
Definition or_else (x : option string) (fallback : string) : string :=
  match x with Some s => if is_empty s then fallback else s | None => fallback end.

Section events.
Context {D : Type} (clk : nat → Z) (fuel : nat).

(** [build_event]; an id is drawn from the process's generator only when none
    is given, and that may fail as the generator does. *)
Inductive BuildError := id_error (e : Snowflake.ValueError) | id_waits.
Definition build_event (type : string) (d : D) (prod : option string) (version : Z)
    (correlation causation eid occurred : option string) (now : string)
    (r : Snowflake.Registry) (w : nat) : result BuildError (Event D) * Snowflake.Registry * nat :=
  let make i := {| event_id := i; event_type := type; occurred_at := or_else occurred now;
                   producer := prod; schema_version := version; correlation_id := correlation;
                   causation_id := causation; data := d |} in
  match eid with
  | Some i => if is_empty i then
                match Snowflake.generate_id clk fuel r w with
                | Raise e => (Raise (id_error e), r, w)
                | Ok None => (Raise id_waits, r, w)
                | Ok (Some (z, r, w)) => (Ok (make (str_int z)), r, w)
                end
              else (Ok (make i), r, w)
  | None =>
      match Snowflake.generate_id clk fuel r w with
      | Raise e => (Raise (id_error e), r, w)
      | Ok None => (Raise id_waits, r, w)
      | Ok (Some (z, r, w)) => (Ok (make (str_int z)), r, w)
      end
  end.
End events.
End Events.

(** ** The event bus *)

Module EventBus.
(** [settings]: what [NATSSettings.from_env] gives; [connects], [stream_ok],
    [drain]: how the calls on the client end in this attempt. *)
Record Attempt := {
  settings : result Nats.ValueError Nats.NATSSettings; connects : bool; stream_ok : bool;
  drain : Nats.Drain }.

(** [abandoned]: clients with an open connection that nothing refers to. *)
Record Bus := {
  service_name : string; enabled : bool; stream_name : string; subjects : list string;
  client : option Nats.NATSClient; abandoned : list Nats.NATSClient }.
Definition new_bus (service : string) (on : bool) (stream : string) (subs : list string) : Bus :=
  {| service_name := service; enabled := on; stream_name := stream; subjects := subs;
     client := None; abandoned := [] |}.
Definition set_bus (b : Bus) (c : option Nats.NATSClient) (a : list Nats.NATSClient) : Bus :=
  {| service_name := service_name b; enabled := enabled b; stream_name := stream_name b;
     subjects := subjects b; client := c; abandoned := a |}.
Definition is_connected (b : Bus) : bool := match client b with Some _ => true | None => false end.

Definition truthy (s : option string) : bool :=
  match s with Some t => negb (is_empty t) | None => false end.
(** the settings with the defaults of the bus *)
Definition named (s : Nats.NATSSettings) (service : string) : Nats.NATSSettings :=
  {| Nats.servers := match Nats.servers s with [] => [Nats.DEFAULT_NATS_URL] | l => l end;
     Nats.name := if truthy (Nats.name s) then Nats.name s else Some service;
     Nats.user := Nats.user s; Nats.password := Nats.password s; Nats.token := Nats.token s;
     Nats.max_reconnect_attempts := Nats.max_reconnect_attempts s;
     Nats.reconnect_time_wait := Nats.reconnect_time_wait s; Nats.ping_interval := Nats.ping_interval s;
     Nats.connect_timeout := Nats.connect_timeout s; Nats.drain_timeout := Nats.drain_timeout s;
     Nats.request_timeout := Nats.request_timeout s; Nats.jetstream_domain := Nats.jetstream_domain s;
     Nats.require_tls := Nats.require_tls s; Nats.require_mtls := Nats.require_mtls s;
     Nats.tls_ca_file := Nats.tls_ca_file s; Nats.tls_cert_file := Nats.tls_cert_file s;
     Nats.tls_key_file := Nats.tls_key_file s; Nats.tls_server_name := Nats.tls_server_name s |}.

Section bus.
Context (ca_ok : option string → bool) (chain_ok : string → string → bool).

(** The [except] clause: it closes the client the bus refers to, not the one
    this attempt opened.  An error of that close propagates. *)
Definition start_failed (a : Attempt) (opened : option Nats.NATSClient) : SE Bus Nats.ClientError unit := λ b,
  let lost := match opened with Some c => c :: abandoned b | None => abandoned b end in
  match client b with
  | None => (Ok tt, set_bus b None lost)
  | Some c =>
      match Nats.close (drain a) c with
      | (Ok _, _) => (Ok tt, set_bus b None lost)
      | (Raise e, c) => (Raise e, set_bus b (Some c) lost)
      end
  end.
Definition start (a : Attempt) : SE Bus Nats.ClientError unit := λ b,
  if negb (enabled b) then (Ok tt, b) else
  match settings a with
  | Raise _ => start_failed a None b
  | Ok s =>
      let new := Nats.new_client (named s (service_name b)) in
      match Nats.connect ca_ok chain_ok (connects a) new with
      | (Raise _, _) => start_failed a None b
      | (Ok _, new) =>
          if stream_ok a
          then (Ok tt, set_bus b (Some new)
                         (match client b with Some old => old :: abandoned b | None => abandoned b end))
          else start_failed a (Some new) b
      end
  end.
Definition stop (d : Nats.Drain) : SE Bus Nats.ClientError unit := λ b,
  match client b with
  | None => (Ok tt, b)
  | Some c => let '(r, _) := Nats.close d c in (r, set_bus b None (abandoned b))
  end.
(** [_publish_bool]; [_publish] is the same without the answer.  [built]: the
    envelope, if the id generator gave one; [sent]: whether publishing
    succeeded. *)
Definition publish_bool {D} (built : result Events.BuildError (Events.Event D)) (sent : bool)
    : SE Bus Events.BuildError (bool * option (Events.Event D)) := λ b,
  if negb (enabled b) || negb (is_connected b) then (Ok (false, None), b)
  else match built with
       | Raise e => (Raise e, b)
       | Ok event => if sent then (Ok (true, Some event), b) else (Ok (false, None), b)
       end.
Definition publish {D} (built : result Events.BuildError (Events.Event D)) (sent : bool) : SE Bus Events.BuildError unit := λ b,
  match publish_bool built sent b with (Ok _, b) => (Ok tt, b) | (Raise e, b) => (Raise e, b) end.
End bus.
(** Publishing leaves the bus as it is and fails only when the envelope cannot
    be built, which is not tried without a connection; the answer tells
    whether the event was sent. *)
Lemma publishing_never_fails {D} (built : result Events.BuildError (Events.Event D)) sent b :
  (publish built sent b).2 = b ∧
  match (publish built sent b).1 with
  | Ok _ => ∃ answer, publish_bool built sent b = (Ok answer, b) ∧ (answer.1 = true ↔ is_Some answer.2) ∧
            (answer.1 = true → sent = true ∧ enabled b = true ∧ is_connected b = true)
  | Raise e => built = Raise e ∧ enabled b = true ∧ is_connected b = true
  end.
Proof.
  unfold publish, publish_bool. destruct (enabled b), (is_connected b); cbn; try (split; [done|]; eexists; split; [done|]; naive_solver).
  destruct built as [event|e]; [|done]. destruct sent; cbn; (split; [done|]; eexists; split; [done|]); naive_solver.
Qed.

(** Starting the event bus never raises on the first attempt and leaves
    the bus in one of two states: connected to a client with an open
    connection, or not connected; when the stream cannot be ensured the
    connection that was opened for it is left open and unreferenced. *)
Lemma first_start_outcomes ca_ok chain_ok a b :
  client b = None → enabled b = true →
  let '(r, b') := start ca_ok chain_ok a b in
  r = Ok tt ∧
  match client b' with
  | Some c => stream_ok a = true ∧ abandoned b' = abandoned b ∧
      (∃ n, Nats.connection c = Some n ∧ Nats.status_of c n = Nats.connected)
  | None =>
      abandoned b' = abandoned b ∨
      stream_ok a = false ∧ ∃ c n, abandoned b' = c :: abandoned b ∧
        Nats.connection c = Some n ∧ Nats.status_of c n = Nats.connected
  end.
Proof.
  intros Hc He. unfold start. rewrite He. cbn [negb].
  destruct (settings a) as [s|]; [|unfold start_failed; rewrite Hc; cbn; auto].
  unfold Nats.connect. cbn [Nats.usable Nats.new_client Nats.connection].
  change (Nats.usable (Nats.new_client (named s (service_name b)))) with (@None nat). cbn.
  destruct (Nats.connection_options _ _ _); [|unfold start_failed; rewrite Hc; cbn; auto].
  destruct (connects a); [|unfold start_failed; rewrite Hc; cbn; auto].
  destruct (stream_ok a) eqn:Hs; cbn.
  - rewrite Hc. split_and!; try done. by exists 0%nat.
  - unfold start_failed. rewrite Hc; cbn. split; [done|]. right. split; [done|]. by do 2 eexists.
Qed.
Definition demo_attempt (ok : bool) : Attempt :=
  {| settings := Ok (Nats.demo_settings false ["nats://a:4222"]%string); connects := true; stream_ok := ok;
     drain := Nats.drained |}.
Lemma first_start_outcomes_witness :
  let b := new_bus "billing" true "EVENTS" ["a"]%string in
  let b' := (start (λ _, true) (λ _ _, true) (demo_attempt false) b).2 in
  length (abandoned b') = 1%nat ∧
  (start (λ _, true) (λ _ _, true) (demo_attempt false) b).1 = Ok tt.
Proof.
  split; [by vm_compute|].
  refine (proj1 (first_start_outcomes (λ _, true) (λ _ _, true) (demo_attempt false)
    (new_bus "billing" true "EVENTS" ["a"]%string) _ _)); reflexivity.
Defined.
End EventBus.

(** ** The leader-elected listener *)

Module Listener.
Inductive ListenerError := redis_connect_failed | redis_not_connected | lease_error
  | hook_error | client_close_error | release_error | redis_close_error.

(** The Redis client of the listener: created, and connected or not. *)
Inductive RedisState := no_redis | unconnected | redis_connected.
Inductive TaskState := running | done.
(** [lease]: the number of the lease in use; leases are numbered by attempt. *)
Record State := {
  redis_enabled : bool; redis : RedisState; lease : option nat; leases : nat;
  client : bool; subscriptions : list nat; started : bool; stopping : bool;
  retry_task : option TaskState }.
Definition new_listener (redis_enabled : bool) : State :=
  {| redis_enabled := redis_enabled; redis := no_redis; lease := None; leases := 0; client := false;
     subscriptions := []; started := false; stopping := false; retry_task := None |}.

(** What the outside answers during one attempt or one shutdown. *)
Record Answers := {
  redis_connects : bool; lease_acquired : option bool (** [None]: an exception *);
  client_connects : bool; setup : option (list nat); on_start_ok : bool; on_stop_ok : bool;
  client_closes : bool; lease_releases : bool; redis_closes : bool }.

Definition set_redis (r : RedisState) (s : State) : State :=
  {| redis_enabled := redis_enabled s; redis := r; lease := lease s; leases := leases s; client := client s;
     subscriptions := subscriptions s; started := started s; stopping := stopping s; retry_task := retry_task s |}.
Definition set_lease (l : option nat) (s : State) : State :=
  {| redis_enabled := redis_enabled s; redis := redis s; lease := l; leases := leases s; client := client s;
     subscriptions := subscriptions s; started := started s; stopping := stopping s; retry_task := retry_task s |}.
Definition fresh_lease (s : State) : State :=
  {| redis_enabled := redis_enabled s; redis := redis s; lease := Some (leases s); leases := S (leases s);
     client := client s; subscriptions := subscriptions s; started := started s; stopping := stopping s;
     retry_task := retry_task s |}.
Definition set_runtime (c : bool) (subs : list nat) (st : bool) (s : State) : State :=
  {| redis_enabled := redis_enabled s; redis := redis s; lease := lease s; leases := leases s; client := c;
     subscriptions := subs; started := st; stopping := stopping s; retry_task := retry_task s |}.
Definition set_control (stop : bool) (t : option TaskState) (s : State) : State :=
  {| redis_enabled := redis_enabled s; redis := redis s; lease := lease s; leases := leases s; client := client s;
     subscriptions := subscriptions s; started := started s; stopping := stop; retry_task := t |}.
Abbreviation M := (SE State ListenerError).

(** [_release_lease] *)
Definition release_lease (a : Answers) : M unit := λ s,
  match lease s with
  | None => (Ok tt, s)
  | Some _ => ((if lease_releases a then Ok tt else Raise release_error), set_lease None s)
  end.
(** [_close_runtime]; failures to unsubscribe are logged. *)
Definition close_runtime (a : Answers) : M unit := λ s,
  let '(stopped_ok, s) :=
    if started s then (on_stop_ok a, set_runtime (client s) (subscriptions s) false s) else (true, s) in
  if negb stopped_ok then (Raise hook_error, s) else
  let s := set_runtime (client s) [] (started s) s in
  if client s then
    if client_closes a then release_lease a (set_runtime false (subscriptions s) (started s) s)
    else (Raise client_close_error, s)
  else release_lease a s.

(** The part of [_start_once] under the lease. *)
Definition start_runtime (a : Answers) : M bool := λ s,
  let failed s := match close_runtime a s with (Ok _, s) => (Ok false, s) | (Raise e, s) => (Raise e, s) end in
  let s := set_runtime true (subscriptions s) (started s) s in
  if negb (client_connects a) then failed s else
  match setup a with
  | None => failed s
  | Some subs =>
      let s := set_runtime true subs (started s) s in
      if negb (on_start_ok a) then failed s
      else (Ok true, set_runtime true subs true s)
  end.
Definition start_once (a : Answers) : M bool := λ s,
  match subscriptions s with
  | _ :: _ => (Ok true, s)
  | [] =>
      if redis_enabled s then
        let '(connected, s) :=
          match redis s with
          | no_redis => if redis_connects a then (None, set_redis redis_connected s)
                        else (Some redis_connect_failed, set_redis unconnected s)
          | unconnected => (Some redis_not_connected, s)
          | redis_connected => (None, s)
          end in
        match connected with
        | Some e => (Raise e, s)
        | None =>
            let s := fresh_lease s in
            match lease_acquired a with
            | None => (Raise lease_error, s)
            | Some false => (Ok false, set_lease None s)
            | Some true => start_runtime a s
            end
        end
      else start_runtime a s
  end.

(** [_ensure_retry_task] *)
Definition ensure_retry_task : M unit := λ s,
  if stopping s then (Ok tt, s)
  else match retry_task s with
       | Some running => (Ok tt, s)
       | _ => (Ok tt, set_control (stopping s) (Some running) s)
       end.
Definition start (a : Answers) : M unit :=
  (do* se_modify (λ s, set_control false (retry_task s) s) in
   let* ok := start_once a in
   if ok then se_ret tt else ensure_retry_task)%se.
(** One turn of [_retry_start], after its sleep: the task goes on or ends; an
    exception ends it. *)
Definition retry_turn (a : Answers) : M unit := λ s,
  match retry_task s with
  | Some running =>
      let end_task s := set_control (stopping s) (Some done) s in
      if stopping s || negb (Nat.eqb (length (subscriptions s)) 0) then (Ok tt, end_task s)
      else match start_once a s with
           | (Ok true, s) => (Ok tt, end_task s)
           | (Ok false, s) => (Ok tt, s)
           | (Raise e, s) => (Raise e, end_task s)
           end
  | _ => (Ok tt, s)
  end.
(** [_close_redis] and [stop] *)
Definition close_redis (a : Answers) : M unit := λ s,
  match redis s with
  | no_redis => (Ok tt, s)
  | _ => if redis_closes a then (Ok tt, set_redis no_redis s) else (Raise redis_close_error, s)
  end.
Definition stop (a : Answers) : M unit :=
  (do* se_modify (λ s, set_control true None s) in
   do* close_runtime a in
   close_redis a)%se.
(** [_on_lease_lost] *)
Definition on_lease_lost (a : Answers) : M unit :=
  (do* close_runtime a in ensure_retry_task)%se.

Inductive step : State → State → Prop :=
  | step_start a s : step s (start a s).2
  | step_retry a s : step s (retry_turn a s).2
  | step_lost a s : step s (on_lease_lost a s).2
  | step_stop a s : step s (stop a s).2.

(** Subscribed means holding a lease (when election is on) and a client. *)
Record Inv (s : State) : Prop := {
  inv_lease : redis_enabled s = true → subscriptions s ≠ [] → lease s ≠ None;
  inv_client : subscriptions s ≠ [] → client s = true }.

Lemma close_runtime_spec a s r s' :
  close_runtime a s = (r, s') →
  redis_enabled s' = redis_enabled s ∧ stopping s' = stopping s ∧ retry_task s' = retry_task s ∧
  (r = Ok tt → subscriptions s' = [] ∧ lease s' = None ∧ client s' = false ∧ started s' = false) ∧
  (subscriptions s' ≠ [] → subscriptions s' = subscriptions s ∧ lease s' = lease s ∧ client s' = client s).
Proof.
  unfold close_runtime, release_lease. destruct (started s) eqn:Hst, (on_stop_ok a); cbn;
    destruct (client s) eqn:Hc, (client_closes a); cbn; destruct (lease s) eqn:Hl, (lease_releases a); cbn;
    intros [= <- <-]; cbn; rewrite ?Hst, ?Hl, ?Hc; split_and!; try done; intros; congruence || done.
Qed.
Lemma start_runtime_spec a s r s' :
  subscriptions s = [] → start_runtime a s = (r, s') →
  redis_enabled s' = redis_enabled s ∧ stopping s' = stopping s ∧ retry_task s' = retry_task s ∧
  (subscriptions s' ≠ [] → lease s' = lease s ∧ client s' = true) ∧
  (r = Ok false → subscriptions s' = [] ∧ lease s' = None ∧ client s' = false).
Proof.
  intros Hs. unfold start_runtime.
  assert (Hfail : ∀ s0 r s', redis_enabled s0 = redis_enabled s → stopping s0 = stopping s →
    retry_task s0 = retry_task s → lease s0 = lease s → client s0 = true →
    match close_runtime a s0 with (Ok _, s) => (Ok false, s) | (Raise e, s) => (Raise e, s) end = (r, s') →
    redis_enabled s' = redis_enabled s ∧ stopping s' = stopping s ∧ retry_task s' = retry_task s ∧
    (subscriptions s' ≠ [] → lease s' = lease s ∧ client s' = true) ∧
    (r = Ok false → subscriptions s' = [] ∧ lease s' = None ∧ client s' = false)).
  { intros s0 r0 s1 H1 H2 H3 H4 H5. destruct (close_runtime a s0) as [[[]|e] s2] eqn:Hcl;
      apply close_runtime_spec in Hcl as (C1 & C2 & C3 & C4 & C5); intros [= <- <-].
    - destruct (C4 eq_refl) as (-> & -> & -> & _). split_and!; [congruence..|done|done].
    - split_and!; [congruence..| |done]. intros Hn. destruct (C5 Hn) as (_ & -> & ->). by split. }
  destruct (client_connects a); cbn [negb]; [|by apply Hfail].
  destruct (setup a) as [subs|]; [|by apply Hfail].
  destruct (on_start_ok a); cbn [negb]; [|by apply Hfail].
  intros [= <- <-]. cbn. done.
Qed.
Lemma start_once_spec a s r s' :
  start_once a s = (r, s') →
  redis_enabled s' = redis_enabled s ∧ stopping s' = stopping s ∧ retry_task s' = retry_task s ∧
  (Inv s → Inv s') ∧ (r = Ok false → subscriptions s' = [] ∧ lease s' = None).
Proof.
  unfold start_once. destruct (subscriptions s) as [|x l] eqn:Hs; [|by intros [= <- <-]].
  assert (Hinv0 : ∀ s', subscriptions s' = [] → Inv s') by (intros s0 H0; by split; rewrite H0).
  assert (Hrun : ∀ s0 r s', redis_enabled s0 = redis_enabled s → stopping s0 = stopping s →
    retry_task s0 = retry_task s → subscriptions s0 = [] → (redis_enabled s = true → lease s0 ≠ None) →
    start_runtime a s0 = (r, s') →
    redis_enabled s' = redis_enabled s ∧ stopping s' = stopping s ∧ retry_task s' = retry_task s ∧
    (Inv s → Inv s') ∧ (r = Ok false → subscriptions s' = [] ∧ lease s' = None)).
  { intros s0 r0 s1 H1 H2 H3 H4 H5 Hr.
    destruct (start_runtime_spec _ _ _ _ H4 Hr) as (C1 & C2 & C3 & C4 & C5). split_and!; try congruence.
    - intros _. split; [|intros Hn; by destruct (C4 Hn)]. rewrite C1, H1. intros He Hn. apply C4 in Hn as [-> _]. auto.
    - intros Hf. by destruct (C5 Hf) as (? & ? & _). }
  destruct (redis_enabled s) eqn:He; [|by apply Hrun].
  assert (Hlease : ∀ s0 r s', redis_enabled s0 = redis_enabled s → stopping s0 = stopping s →
    retry_task s0 = retry_task s → subscriptions s0 = [] →
    match lease_acquired a with
    | None => (Raise lease_error, fresh_lease s0)
    | Some false => (Ok false, set_lease None (fresh_lease s0))
    | Some true => start_runtime a (fresh_lease s0)
    end = (r, s') →
    redis_enabled s' = true ∧ stopping s' = stopping s ∧ retry_task s' = retry_task s ∧
    (Inv s → Inv s') ∧ (r = Ok false → subscriptions s' = [] ∧ lease s' = None)).
  { intros s0 r0 s1 H1 H2 H3 H4. destruct (lease_acquired a) as [[]|].
    - apply Hrun; cbn; congruence || done.
    - intros [= <- <-]. cbn. split_and!; try congruence; [by intros _; apply Hinv0|done].
    - intros [= <- <-]. cbn. split_and!; try congruence. intros _; by apply Hinv0. }
  destruct (redis s).
  - destruct (redis_connects a); [by apply Hlease|]. intros [= <- <-]. cbn.
    split_and!; try done; intros _; by apply Hinv0.
  - intros [= <- <-]. done.
  - by apply Hlease.
Qed.
Lemma listener_step_inv s s' : Inv s → step s s' → Inv s'.
Proof.
  assert (Hctl : ∀ b t s, Inv s → Inv (set_control b t s)) by (intros b t s0 [H1 H2]; by split).
  assert (Hclose : ∀ a s r s', Inv s → close_runtime a s = (r, s') → Inv s').
  { intros a s0 r s1 [H1 H2] (C1 & _ & _ & _ & C5)%close_runtime_spec. split.
    - rewrite C1. intros He Hn. destruct (C5 Hn) as (Hs & -> & _). rewrite Hs in Hn. auto.
    - intros Hn. destruct (C5 Hn) as (Hs & _ & ->). rewrite Hs in Hn. auto. }
  intros HI Hs. destruct Hs as [a s|a s|a s|a s].
  - unfold start, se_bind, se_modify, se_ret, ensure_retry_task.
    destruct (start_once a (set_control false (retry_task s) s)) as [[[]|e] s1] eqn:E;
      destruct (start_once_spec _ _ _ _ E) as (_ & _ & _ & HI' & _); cbn;
      specialize (HI' (Hctl _ _ _ HI)); try done.
    destruct (stopping s1); [done|]. destruct (retry_task s1) as [[]|]; try done; by apply Hctl.
  - unfold retry_turn. destruct (retry_task s) as [[]|]; [|done|done].
    destruct (_ || _); [by apply Hctl|].
    destruct (start_once a s) as [[[]|e] s1] eqn:E; destruct (start_once_spec _ _ _ _ E) as (_ & _ & _ & HI' & _);
      cbn; auto.
  - unfold on_lease_lost, se_bind, ensure_retry_task. destruct (close_runtime a s) as [[[]|e] s1] eqn:E;
      pose proof (Hclose _ _ _ _ HI E) as HI'; [|done].
    destruct (stopping s1); [done|]. destruct (retry_task s1) as [[]|]; try done; by apply Hctl.
  - unfold stop, se_bind, se_modify, close_redis.
    destruct (close_runtime a (set_control true None s)) as [[[]|e] s1] eqn:E;
      pose proof (Hclose _ _ _ _ (Hctl _ _ _ HI) E) as HI'; [|done].
    destruct HI' as [H1 H2]. destruct (redis s1); [done|..]; destruct (redis_closes a); done.
Qed.

Lemma lost_leaves_nothing a s s' : on_lease_lost a s = (Ok tt, s') →
  subscriptions s' = [] ∧ lease s' = None ∧ client s' = false ∧ (stopping s' = false → retry_task s' = Some running).
Proof.
  unfold on_lease_lost, se_bind, ensure_retry_task. destruct (close_runtime a s) as [[[]|e] s1] eqn:E; [|done].
  apply close_runtime_spec in E as (_ & _ & _ & C & _). destruct (C eq_refl) as (H1 & H2 & H3 & _).
  destruct (stopping s1) eqn:Hst; [intros [= <-]; by rewrite H1, H2, H3, Hst|].
  destruct (retry_task s1) as [[]|] eqn:Ht; intros [= <-]; cbn; by rewrite ?Ht.
Qed.

(** A listener that is subscribed is leading.  At every state reached by
    starting, retrying, losing the lease and stopping, whatever Redis, NATS
    and the subclass answer: subscriptions exist only together with an open
    client and, when election is on, with the lease they were made under; and
    when handling a lost lease succeeds nothing of the runtime is left, and a
    retry is scheduled unless the listener is stopping. *)
Lemma subscribed_means_leading enabled s :
  runs step (new_listener enabled) s →
  (subscriptions s ≠ [] → client s = true ∧ (redis_enabled s = true → lease s ≠ None)) ∧
  (∀ a s', on_lease_lost a s = (Ok tt, s') →
     subscriptions s' = [] ∧ lease s' = None ∧ client s' = false ∧
     (stopping s' = false → retry_task s' = Some running)) ∧
  (∀ a s', stop a s = (Ok tt, s') →
     subscriptions s' = [] ∧ lease s' = None ∧ client s' = false ∧ redis s' = no_redis ∧
     retry_task s' = None).
Proof.
  intros Hr. assert (HI : Inv s).
  { revert Hr. apply runs_invariant; [apply listener_step_inv|]. by split. }
  split_and!.
  - intros Hn. split; [by apply (inv_client s HI)|]. intros He. by apply (inv_lease s HI).
  - intros a s'. apply lost_leaves_nothing.
  - intros a s'. unfold stop, se_bind, se_modify, close_redis.
    destruct (close_runtime a (set_control true None s)) as [[[]|e] s1] eqn:E; [|done].
    apply close_runtime_spec in E as (_ & _ & Ht & C & _). destruct (C eq_refl) as (H1 & H2 & H3 & _).
    cbn in Ht. destruct (redis s1) eqn:Hred; [|destruct (redis_closes a); [|done]..]; intros [= <-]; cbn; by rewrite ?Hred.
Qed.
Definition all_fine (subs : list nat) : Answers :=
  {| redis_connects := true; lease_acquired := Some true; client_connects := true; setup := Some subs;
     on_start_ok := true; on_stop_ok := true; client_closes := true; lease_releases := true;
     redis_closes := true |}.
Definition redis_down : Answers :=
  {| redis_connects := true; lease_acquired := None; client_connects := true; setup := Some [];
     on_start_ok := true; on_stop_ok := true; client_closes := true; lease_releases := true;
     redis_closes := true |}.
Lemma subscribed_means_leading_witness :
  let s := (start (all_fine [7%nat]) (new_listener true)).2 in
  subscriptions s = [7%nat] ∧
  (subscriptions s ≠ [] → client s = true ∧ (redis_enabled s = true → lease s ≠ None)).
Proof.
  split; [by vm_compute|].
  apply (subscribed_means_leading true (start (all_fine [7%nat]) (new_listener true)).2).
  eapply runs_step; [apply runs_refl|]. apply step_start.
Defined.

(** The retry loop does not survive an error of Redis: a turn in which
    acquiring the lease raises ends the task with nothing subscribed, and from
    then on turns do nothing. *)
Theorem retry_dies_with_redis a s :
  retry_task s = Some running → stopping s = false → subscriptions s = [] → redis_enabled s = true →
  redis s = redis_connected → lease_acquired a = None →
  ∃ s', retry_turn a s = (Raise lease_error, s') ∧ subscriptions s' = [] ∧ retry_task s' = Some done ∧
    ∀ a', retry_turn a' s' = (Ok tt, s').
Proof.
  intros Ht Hst Hsub He Hred Ha. unfold retry_turn. rewrite Ht, Hst, Hsub. cbn.
  unfold start_once. rewrite Hsub, He, Hred, Ha. eexists. split; [reflexivity|]. cbn. by rewrite Hsub.
Qed.
End Listener.
