(* ===== verification/EventFlow.v ===== *)
(** * messaging/: an event from the service to its subscribers

    The event bus of Messaging.v with the generator of Snowflake.v and the
    clients of Pubsub.v: what [_publish_bool] does with an event, from the id
    it is given to the subscriptions that get it.  [Wire] is the JSON of an
    envelope; while an event is being sent the process builds others, takes
    ids for other purposes and uses the broker. *)

From S2P Require Import Prelude PyStr Snowflake Nats Pubsub Messaging.

Module EventFlow.
Import Snowflake.Snowflake Messaging.Events.

(** [json.dumps] and UTF-8, and what a subscriber reads of it. *)
Class Wire (D : Type) := {
  dumps : Event D → result Pubsub.PubError string; encode : string → string; read : string → option (Event D);
  read_written e text : dumps e = Ok text → read (encode text) = Some e }.

Section flow.
Context {D : Type} `{Wire D} `{Pubsub.Balancer} (matches : string → string → bool).
Context (ca_ok : option string → bool) (chain_ok : string → string → bool) (clk : nat → Z) (fuel : nat).

(** The bus with its client's place among the broker's clients, the process's
    generator and the readings of its clock; every event that was built, the
    latest first, and those being sent, each with the client that was asked. *)
Record Flow := {
  bus : EventBus.Bus; place : nat; world : Pubsub.World; registry : Registry; readings : nat;
  built : list (Event D); waiting : list (nat * Event D) }.
Definition with_registry (r : Registry) (w : nat) (st : Flow) : Flow :=
  {| bus := bus st; place := place st; world := world st; registry := r; readings := w; built := built st; waiting := waiting st |}.
Definition with_world (w : Pubsub.World) (st : Flow) : Flow :=
  {| bus := bus st; place := place st; world := w; registry := registry st; readings := readings st; built := built st;
     waiting := waiting st |}.
Definition with_bus (b : EventBus.Bus) (i : nat) (st : Flow) : Flow :=
  {| bus := b; place := i; world := world st; registry := registry st; readings := readings st; built := built st;
     waiting := waiting st |}.
Definition with_events (es : list (Event D)) (ws : list (nat * Event D)) (st : Flow) : Flow :=
  {| bus := bus st; place := place st; world := world st; registry := registry st; readings := readings st; built := es; waiting := ws |}.

(** [_publish_bool] up to its [await]: the event, if the bus is connected. *)
Definition begin_publish (subj : string) (payload : D) (now : string) : SE Flow BuildError (option (Event D)) := λ st,
  if negb (EventBus.enabled (bus st)) || negb (EventBus.is_connected (bus st)) then (Ok None, st)
  else
    let '(event, r, w) := build_event clk fuel subj payload (Some (EventBus.service_name (bus st))) 1 None None None None now
                            (registry st) (readings st) in
    let st := with_registry r w st in
    match event with
    | Raise e => (Raise e, st)
    | Ok e => (Ok (Some e), with_events (e :: built st) (waiting st ++ [(place st, e)]) st)
    end.
(** [publish_json], whose exceptions are logged, and the answer. *)
Definition finish_publish (reachable : bool) (k i : nat) (e : Event D) (st : Flow) : bool * Flow :=
  let st := with_events (built st) (delete k (waiting st)) st in
  match Pubsub.publish_json matches ca_ok chain_ok encode dumps i reachable (event_type e) e None (world st) with
  | (Ok _, w) => (true, with_world w st)
  | (Raise _, w) => (false, with_world w st)
  end.
(** A whole call, with nobody in between. *)
Definition publish_event (reachable : bool) (subj : string) (payload : D) (now : string) : SE Flow BuildError bool := λ st,
  match begin_publish subj payload now st with
  | (Ok (Some e), st') => let '(sent, st'') := finish_publish reachable (length (waiting st)) (place st) e st' in (Ok sent, st'')
  | (Ok None, st') => (Ok false, st')
  | (Raise e, st') => (Raise e, st')
  end.

(** The process publishes, any number of events at a time, and takes ids for
    other purposes; in between the broker, its clients and the settings of the
    bus may be in any state. *)
Inductive step : Flow → Flow → Prop :=
  | step_begin subj payload now st : step st (begin_publish subj payload now st).2
  | step_finish reachable k i e st : waiting st !! k = Some (i, e) → step st (finish_publish reachable k i e st).2
  | step_id st z r w : generate_id clk fuel (registry st) (readings st) = Ok (Some (z, r, w)) → step st (with_registry r w st)
  | step_world w st : step st (with_world w st)
  | step_bus b i st : step st (with_bus b i st).
Definition start (b : EventBus.Bus) (i : nat) (w : Pubsub.World) (r : Registry) : Flow :=
  {| bus := b; place := i; world := w; registry := r; readings := 0; built := []; waiting := [] |}.

(** ** Ids *)

#[local] Arguments generate : simpl never.
#[local] Arguments generate_id : simpl never.

Definition registry_ok (r : Registry) : Prop := ∀ g, instance r = Some g → ok g.
Lemma generate_id_next r w z r' w' : registry_ok r → generate_id clk fuel r w = Ok (Some (z, r', w')) →
  registry_ok r' ∧ (∃ g', instance r' = Some g' ∧ z = id_value g') ∧ ∀ g, instance r = Some g → (id_value g < z)%Z.
Proof.
  intros Hok. unfold generate_id. intros ([g r0] & Hg & Hz)%result_bind_Ok. cbn in Hz. injection Hz as Hz.
  destruct (generate clk fuel g w) as [[[i g'] w'']|] eqn:Hgen; [|by cbn in Hz]. cbn in Hz. injection Hz as <- <- <-.
  assert (ok g) as Hgok.
  { unfold get_default in Hg. destruct (instance r) as [g0|] eqn:Hi; [injection Hg as <- <-; by apply Hok|].
    apply result_bind_Ok in Hg as (g0 & Hinit & [= <- <-]). by eapply init_ok. }
  destruct (generate_step_lt _ _ _ _ _ _ _ Hgok Hgen) as (Hg' & -> & Hlt & _). split_and!.
  - intros g0 [= <-]. exact Hg'.
  - by exists g'.
  - intros g0 Hi. unfold get_default in Hg. rewrite Hi in Hg. by injection Hg as <- <-.
Qed.
Definition ids (es : list (Event D)) : list string := event_id <$> es.
(** The ids are numbers in decreasing order, the latest first, and the
    generator has passed them all; what is being sent was built, once. *)
Record Inv (st : Flow) : Prop := {
  inv_registry : registry_ok (registry st);
  inv_built : ∃ zs, ids (built st) = str_int <$> zs ∧ StronglySorted Z.gt zs ∧
    ∀ z, z ∈ zs → ∃ g, instance (registry st) = Some g ∧ (z <= id_value g)%Z;
  inv_waiting : NoDup (ids (waiting st).*2) ∧ ∀ p, p ∈ waiting st → p.2 ∈ built st }.
Lemma next_id_keeps st z r w : Inv st → generate_id clk fuel (registry st) (readings st) = Ok (Some (z, r, w)) →
  Inv (with_registry r w st) ∧ ∃ zs g, ids (built st) = str_int <$> zs ∧ StronglySorted Z.gt zs ∧ instance r = Some g ∧ z = id_value g ∧
    ∀ z', z' ∈ zs → (z > z')%Z.
Proof.
  intros [Hok (zs & Hids & Hs & Hb) Hw] Hg. destruct (generate_id_next _ _ _ _ _ Hok Hg) as (Hok' & (g' & Hi' & ->) & Hlt).
  assert (∀ z', z' ∈ zs → (id_value g' > z')%Z) as Hgt.
  { intros z Hz. destruct (Hb z Hz) as (g & Hi & Hle). specialize (Hlt g Hi). lia. }
  split; [split; [done| |done]|by exists zs, g'].
  exists zs. split; [done|]. split; [done|]. intros z Hz. exists g'. split; [done|]. specialize (Hgt z Hz). lia.
Qed.
Lemma fresh_id (zs : list Z) z : (∀ z', z' ∈ zs → (z > z')%Z) → str_int z ∉ str_int <$> zs.
Proof.
  intros Hlt (z' & Heq & Hz')%list_elem_of_fmap. specialize (Hlt z' Hz').
  apply (f_equal py_int) in Heq. rewrite !py_int_str_int in Heq. injection Heq as ->. lia.
Qed.
(** The first half of a call. *)
Definition begun (subj : string) (payload : D) (st : Flow) (res : result BuildError (option (Event D)) * Flow) : Prop :=
  let '(out, st') := res in
  world st' = world st ∧
  match out with
  | Ok (Some e) => event_id e ∉ ids (built st) ∧ event_type e = subj ∧ data e = payload ∧
      producer e = Some (EventBus.service_name (bus st)) ∧ built st' = e :: built st ∧ waiting st' = (waiting st ++ [(place st, e)])%list
  | _ => built st' = built st ∧ waiting st' = waiting st
  end.
Lemma begin_publish_spec subj payload now st : Inv st →
  Inv (begin_publish subj payload now st).2 ∧ begun subj payload st (begin_publish subj payload now st).
Proof.
  intros HI. unfold begin_publish, begun. destruct (negb _ || negb _); [done|].
  unfold build_event. destruct (generate_id clk fuel (registry st) (readings st)) as [[[[z r] w]|]|e] eqn:Hg; cbn.
  2, 3: by destruct st.
  destruct (next_id_keeps st z r w HI Hg) as ([Hok _ [Hnd Hsub]] & zs & g & Hids & Hs & Hi & Hz & Hgt).
  pose proof (fresh_id zs z Hgt) as Hfresh. rewrite <-Hids in Hfresh.
  set (event := {| event_id := str_int z |}). split; [split; cbn|by split_and!].
  - exact Hok.
  - exists (z :: zs). split; [unfold ids in *; cbn; by rewrite Hids|]. split; [constructor; [done|by apply Forall_forall]|].
    intros z' [-> |Hz']%elem_of_cons; exists g; (split; [done|]); [lia|]. specialize (Hgt z' Hz'). lia.
  - cbn in Hnd, Hsub. split.
    + unfold ids in *. rewrite !fmap_app. apply NoDup_app. split_and!; [done| |by apply NoDup_singleton].
      intros x Hx Hin. apply list_elem_of_singleton in Hin as ->. apply Hfresh.
      apply list_elem_of_fmap in Hx as (e & He & (p & -> & Hp)%list_elem_of_fmap). apply list_elem_of_fmap.
      exists p.2. split; [done|by apply Hsub].
    + intros p [Hp| ->%list_elem_of_singleton]%elem_of_app; [right; by apply Hsub|by left].
Qed.

(** ** Sending *)

(** The second half: [e] is delivered as it was built, or to nobody. *)
Definition finished (e : Event D) (st : Flow) (res : bool * Flow) : Prop :=
  let '(answer, st') := res in
  if answer then ∃ text ds, read (encode text) = Some e ∧
    Pubsub.spread matches {| Pubsub.clients := Pubsub.clients (world st'); Pubsub.subs := Pubsub.subs (world st);
                     Pubsub.delivered := Pubsub.delivered (world st) |} (event_type e) ds ∧
    Pubsub.delivered (world st') = (Pubsub.delivered (world st) ++ ((λ j, (j, {| Pubsub.subject := event_type e;
      Pubsub.data := encode text; Pubsub.headers := []; Pubsub.reply := EmptyString |})) <$> ds))%list
  else Pubsub.delivered (world st') = Pubsub.delivered (world st).
Lemma finish_publish_spec reachable k i e st : 
  finished e st (finish_publish reachable k i e st) ∧
  let st' := (finish_publish reachable k i e st).2 in
  registry st' = registry st ∧ built st' = built st ∧ waiting st' = delete k (waiting st).
Proof.
  unfold finish_publish, finished, Pubsub.publish_json, se_bind, se_lift. cbn. destruct (dumps e) as [text|err] eqn:Hd; [|done].
  pose proof (Pubsub.publish_delivers matches ca_ok chain_ok i reachable (event_type e) (encode text) None (world st)) as Hp.
  destruct (Pubsub.publish _ _ _ _ _ _ _ _ _) as [[[]|err] w']; destruct Hp as (Hs & Hp); cbn; [|done]. split; [|done].
  destruct Hp as (ds & Hsp & Hdel). exists text, ds. split; [by apply read_written|done].
Qed.
(** With nobody in between, the call is the one of Messaging.v. *)
Lemma publish_event_is_publish_bool reachable subj payload now st : ∃ (event : result BuildError (Event D)) sent,
  (publish_event reachable subj payload now st).1 =
    match (EventBus.publish_bool event sent (bus st)).1 with Ok (answer, _) => Ok answer | Raise e => Raise e end.
Proof.
  unfold publish_event, begin_publish, EventBus.publish_bool. destruct (negb _ || negb _); [by exists (Raise id_waits), false|].
  destruct (build_event _ _ _ _ _ _ _ _ _ _ _ _ _) as [[[e|err] r] w]; [|by exists (Raise err), false].
  destruct (finish_publish _ _ _ _ _) as [sent st']. exists (Ok e), sent. by destruct sent.
Qed.
Lemma deleted_once (ws : list (nat * Event D)) k i e : NoDup (ids ws.*2) → ws !! k = Some (i, e) →
  NoDup (ids (delete k ws).*2) ∧ e ∉ (delete k ws).*2.
Proof.
  intros Hnd Hk. rewrite delete_take_drop. unfold ids in *.
  rewrite <-(take_drop_middle ws k (i, e) Hk) in Hnd. rewrite !fmap_app in *. cbn in Hnd.
  apply NoDup_app in Hnd as (H1 & H2 & H3). apply NoDup_cons in H3 as [H3 H4]. split.
  - apply NoDup_app. split_and!; [done| |done]. intros x Hx Hin. apply (H2 x Hx). by right.
  - intros [Hin|Hin]%elem_of_app.
    + apply (H2 (event_id e)); [by apply list_elem_of_fmap_2|by left].
    + apply H3. by apply list_elem_of_fmap_2.
Qed.
Lemma flow_reachable_Inv b i w r st : registry_ok r → rtc step (start b i w r) st → Inv st.
Proof.
  intros Hr Hst. assert (Inv (start b i w r)) as HI.
  { split; [exact Hr| |split; [constructor|by intros p ?%not_elem_of_nil]].
    exists []. split; [done|]. split; [constructor|]. by intros z ?%not_elem_of_nil. }
  clear Hr. induction Hst as [|st1 st2 st3 Hstep _ IH]; [done|]. apply IH. clear IH.
  destruct Hstep as [subj payload now st|reachable k j e st Hk|st z r' w' Hg|w' st|b' i' st].
  - by apply begin_publish_spec.
  - destruct (finish_publish_spec reachable k j e st) as (_ & H1 & H2 & H3). destruct HI as [I1 I2 [I3 I4]]. split; rewrite ?H1, ?H2, ?H3; [done|done|].
    split; [by eapply deleted_once|]. intros p Hp. apply I4. eapply elem_of_sublist; [exact Hp|]. apply sublist_delete.
  - by destruct (next_id_keeps st z r' w' HI Hg).
  - by destruct HI.
  - by destruct HI.
Qed.
Lemma Inv_ids st : Inv st → NoDup (ids (built st)).
Proof.
  intros [_ (zs & -> & Hs & _) _]. apply NoDup_fmap_2_strong.
  - intros x y _ _ Heq. apply (f_equal py_int) in Heq. rewrite !py_int_str_int in Heq. by injection Heq.
  - clear -Hs. induction Hs as [|z zs _ IH Hz]; constructor; [|done]. rewrite Forall_forall in Hz. intros Hin. specialize (Hz z Hin). lia.
Qed.

End flow.

(** A bus on three clients: two workers share the orders and an auditor gets
    them all. *)
Definition order (eid : string) : Event string :=
  {| event_id := eid; event_type := "orders"; occurred_at := "noon"; producer := Some "billing"%string; schema_version := 1;
     correlation_id := None; causation_id := None; data := "one" |}.
#[local] Instance event_eq_dec : EqDecision (Event string).
Proof. solve_decision. Defined.
#[local] Instance id_and_data : Wire string.
Proof.
  refine {| dumps := λ e, if decide (e = order (event_id e)) then Ok (event_id e) else Raise Pubsub.encode_error;
            encode := id; read := λ text, Some (order text) |}.
  intros e text. case_decide as He; [|done]. intros [= <-]. by rewrite He.
Defined.
#[local] Existing Instance Pubsub.first_of_each.
Definition demo_bus : EventBus.Bus :=
  (EventBus.start (λ _, true) (λ _ _, true) (EventBus.demo_attempt true) (EventBus.new_bus "billing" true "EVENTS" ["orders"]%string)).2.
Definition demo_world : Pubsub.World :=
  {| Pubsub.clients := [Pubsub.demo_client; Pubsub.demo_client; Pubsub.demo_client]; Pubsub.delivered := [];
     Pubsub.subs := (λ p, {| Pubsub.owner := (p.1, 0%nat); Pubsub.s_subject := "orders"; Pubsub.s_queue := p.2;
                             Pubsub.callback := λ _, None; Pubsub.max_msgs := None |}) <$>
                    [(0%nat, Some "workers"%string); (1%nat, Some "workers"%string); (2%nat, None)] |}.
Definition demo_flow : Flow (D := string) := start demo_bus 2 demo_world {| instance := None |}.
Abbreviation demo_begin := (begin_publish demo_clock 10 "orders"%string "one"%string "noon"%string).
Abbreviation demo_finish := (finish_publish Pubsub.same (λ _, true) (λ _ _, true) true).
(** Two events under way at once. *)
Definition under_way : Flow (D := string) := (demo_begin (demo_begin demo_flow).2).2.
End EventFlow.
