(* ===== verification/Leadership.v ===== *)
(** * messaging/leader_elected_listener.py: replicas that share one lease

    The methods of the listener of Messaging.v once more, as the coroutines
    they are: a method runs by itself up to an [await], and other tasks of the
    process, the renewal loops of its leases, and other replicas run before
    it goes on.  Run alone a coroutine is the method of Messaging.v; the
    replicas of a service meet on the server of Redis.v. *)

From S2P Require Import Prelude PyStr Redis Messaging.

Module Leadership.
Import Messaging.Listener.

(** ** Coroutines *)

(** What a method awaits; the number is a lease's. *)
Inductive Request :=
  | connect_redis | acquire_lease (n : nat) | connect_client | setup_subscriptions | on_start_hook | on_stop_hook
  | unsubscribe (sub : nat) | close_client | cancel_and_release (n : nat) | close_redis_client | sleep.
(** [no]: the lease is somebody else's. *)
Inductive Reply := fine | no | raises | made (subs : list nat).

(** A coroutine reads and writes the fields of its listener, makes a lease,
    starts and cancels the retry task, and awaits. *)
Inductive Co (A : Type) :=
  | Ret (a : A)
  | Throw (e : ListenerError)
  | Get (k : State → Co A)
  | Upd (f : State → State) (p : Co A)
  | NewLease (p : Co A)
  | SpawnRetry (p : Co A)
  | CancelRetry (p : Co A)
  | Await (q : Request) (k : Reply → Co A).
Arguments Ret {A}. Arguments Throw {A}. Arguments Get {A}. Arguments Upd {A}. Arguments NewLease {A}.
Arguments SpawnRetry {A}. Arguments CancelRetry {A}. Arguments Await {A}.
Fixpoint bind {A B} (p : Co A) (f : A → Co B) : Co B :=
  match p with
  | Ret a => f a
  | Throw e => Throw e
  | Get k => Get (λ s, bind (k s) f)
  | Upd g p => Upd g (bind p f)
  | NewLease p => NewLease (bind p f)
  | SpawnRetry p => SpawnRetry (bind p f)
  | CancelRetry p => CancelRetry (bind p f)
  | Await q k => Await q (λ r, bind (k r) f)
  end.
#[local] Instance co_ret : MRet Co := @Ret.
#[local] Instance co_bind : MBind Co := λ A B f p, bind p f.
(** A reply that is not [fine] is an exception. *)
Definition await (q : Request) (e : ListenerError) : Co unit :=
  Await q (λ r, match r with fine => Ret tt | _ => Throw e end).
Definition upd (f : State → State) : Co unit := Upd f (Ret tt).
Definition get : Co State := Get Ret.

(** [_release_lease] *)
Definition release_lease : Co unit :=
  s ← get; upd (set_lease None);;
  match lease s with None => Ret tt | Some n => await (cancel_and_release n) release_error end.
(** [_close_runtime]; it goes through the list it found. *)
Fixpoint unsubscribe_all (subs : list nat) : Co unit :=
  match subs with [] => Ret tt | sub :: subs => Await (unsubscribe sub) (λ _, unsubscribe_all subs) end.
Definition set_started (b : bool) (s : State) : State := set_runtime (client s) (subscriptions s) b s.
Definition set_subs (l : list nat) (s : State) : State := set_runtime (client s) l (started s) s.
Definition set_client (b : bool) (s : State) : State := set_runtime b (subscriptions s) (started s) s.
Definition drop_runtime : Co unit :=
  s ← get; unsubscribe_all (subscriptions s);; upd (set_subs []);;
  s ← get;
  (if client s then await close_client client_close_error;; upd (set_client false) else Ret tt);;
  release_lease.
Definition close_runtime : Co unit :=
  s ← get;
  (if started s then upd (set_started false);; await on_stop_hook hook_error else Ret tt);;
  drop_runtime.

(** [_start_once]: its [try] block, and what comes before it. *)
Definition start_runtime : Co bool :=
  let failed := close_runtime;; Ret false in
  upd (set_client true);;
  Await connect_client (λ r, match r with
    | fine => Await setup_subscriptions (λ r, match r with
        | made subs => upd (set_subs subs);;
            Await on_start_hook (λ r, match r with fine => upd (set_started true);; Ret true | _ => failed end)
        | _ => failed end)
    | _ => failed end).
Definition start_elected : Co bool :=
  NewLease (Get (λ s, match lease s with
    | None => Ret false   (* [NewLease] has just set it *)
    | Some n => Await (acquire_lease n) (λ r, match r with
        | fine => start_runtime
        | no => upd (set_lease None);; Ret false
        | _ => Throw lease_error end)
    end)).
Definition start_once : Co bool :=
  s ← get;
  match subscriptions s with
  | _ :: _ => Ret true
  | [] =>
      if redis_enabled s then
        match redis s with
        | no_redis => upd (set_redis unconnected);; await connect_redis redis_connect_failed;; upd (set_redis redis_connected);;
                      start_elected
        | unconnected => Throw redis_not_connected
        | redis_connected => start_elected
        end
      else start_runtime
  end.
(** [_ensure_retry_task], [start], [stop], [_on_lease_lost] *)
Definition ensure_retry_task : Co unit :=
  s ← get;
  if stopping s then Ret tt
  else match retry_task s with Some running => Ret tt | _ => SpawnRetry (upd (λ s, set_control (stopping s) (Some running) s)) end.
Definition start : Co unit :=
  upd (λ s, set_control false (retry_task s) s);;
  ok ← start_once; if (ok : bool) then Ret tt else ensure_retry_task.
Definition close_redis : Co unit :=
  s ← get;
  match redis s with no_redis => Ret tt | _ => await close_redis_client redis_close_error;; upd (set_redis no_redis) end.
Definition stop : Co unit :=
  upd (set_control true None);; CancelRetry (close_runtime;; close_redis).
Definition on_lease_lost : Co unit := close_runtime;; ensure_retry_task.
(** One turn of [_retry_start]; whether it goes on. *)
Definition asleep : Co bool :=
  Await sleep (λ _,
    s ← get;
    if stopping s || negb (Nat.eqb (length (subscriptions s)) 0) then Ret false
    else ok ← start_once; Ret (negb ok)).
Definition retry_turn : Co bool := s ← get; if stopping s then Ret false else asleep.

(** ** Run alone *)

(** With the answers of one attempt, and nobody in between. *)
Definition reply (a : Answers) (q : Request) : Reply :=
  let ok b := if (b : bool) then fine else raises in
  match q with
  | connect_redis => ok (redis_connects a)
  | acquire_lease _ => match lease_acquired a with Some true => fine | Some false => no | None => raises end
  | connect_client => ok (client_connects a)
  | setup_subscriptions => match setup a with Some subs => made subs | None => raises end
  | on_start_hook => ok (on_start_ok a)
  | on_stop_hook => ok (on_stop_ok a)
  | unsubscribe _ => fine
  | close_client => ok (client_closes a)
  | cancel_and_release _ => ok (lease_releases a)
  | close_redis_client => ok (redis_closes a)
  | sleep => fine
  end.
Fixpoint alone {A} (a : Answers) (p : Co A) (s : State) : result ListenerError A * State :=
  match p with
  | Ret x => (Ok x, s)
  | Throw e => (Raise e, s)
  | Get k => alone a (k s) s
  | Upd f p => alone a p (f s)
  | NewLease p => alone a p (fresh_lease s)
  | SpawnRetry p | CancelRetry p => alone a p s
  | Await q k => alone a (k (reply a q)) s
  end.
Lemma alone_bind {A B} a (p : Co A) (f : A → Co B) s :
  alone a (bind p f) s = match alone a p s with (Ok x, s') => alone a (f x) s' | (Raise e, s') => (Raise e, s') end.
Proof. revert s. induction p; intros s; cbn; auto. Qed.
Lemma alone_unsubscribe a l s : alone a (unsubscribe_all l) s = (Ok tt, s).
Proof. by induction l. Qed.
(** Evaluates a coroutine run alone, on a record of fields and answers. *)
#[local] Ltac alone_simpl := repeat (progress cbn || rewrite alone_bind || rewrite alone_unsubscribe).
Lemma alone_close_runtime a s : alone a close_runtime s = Listener.close_runtime a s.
Proof.
  destruct s. unfold close_runtime, drop_runtime, Listener.close_runtime, Listener.release_lease, release_lease, get, upd, await, mbind, co_bind.
  alone_simpl. destruct started0, (on_stop_ok a) eqn:Ho; alone_simpl; rewrite ?Ho; cbn; try done;
    destruct client0, (client_closes a) eqn:Hc; alone_simpl; rewrite ?Hc; cbn; try done;
    destruct lease0, (lease_releases a) eqn:Hl; alone_simpl; rewrite ?Hl; done.
Qed.
#[local] Arguments close_runtime : simpl never.
#[local] Arguments Listener.close_runtime : simpl never.
Lemma alone_start_runtime a s : alone a start_runtime s = Listener.start_runtime a s.
Proof.
  unfold start_runtime, Listener.start_runtime, upd, mbind, co_bind. cbn.
  destruct (client_connects a) eqn:Hc; cbn; [|by rewrite alone_bind, alone_close_runtime].
  destruct (setup a) as [subs|] eqn:Hs; cbn; [|by rewrite alone_bind, alone_close_runtime].
  destruct (on_start_ok a) eqn:Ho; cbn; [done|by rewrite alone_bind, alone_close_runtime].
Qed.
#[local] Arguments start_runtime : simpl never.
#[local] Arguments Listener.start_runtime : simpl never.
Lemma alone_start_elected a s : alone a start_elected s =
  match lease_acquired a with
  | None => (Raise lease_error, fresh_lease s)
  | Some false => (Ok false, set_lease None (fresh_lease s))
  | Some true => Listener.start_runtime a (fresh_lease s)
  end.
Proof. cbn. destruct (lease_acquired a) as [[]|]; cbn; [apply alone_start_runtime|done|done]. Qed.
#[local] Arguments start_elected : simpl never.
Lemma alone_start_once a s : alone a start_once s = Listener.start_once a s.
Proof.
  unfold start_once, Listener.start_once, get, upd, await, mbind, co_bind. cbn.
  destruct (subscriptions s) eqn:Hs; [|done]. destruct (redis_enabled s) eqn:He; [|apply alone_start_runtime].
  destruct (redis s) eqn:Hr; cbn; [|done|apply alone_start_elected].
  destruct (redis_connects a); cbn; [|done]. rewrite alone_start_elected. by destruct s.
Qed.
Lemma alone_ensure_retry a s : alone a ensure_retry_task s = Listener.ensure_retry_task s.
Proof. unfold ensure_retry_task, Listener.ensure_retry_task. cbn. destruct (stopping s) eqn:Hs; [done|]. destruct (retry_task s) as [[]|]; cbn; by rewrite ?Hs. Qed.
#[local] Arguments start_once : simpl never.
#[local] Arguments ensure_retry_task : simpl never.

(** Run with nobody in between, the coroutines are the methods of
    Messaging.v. *)
Lemma coroutines_are_the_methods a s :
  alone a start s = Listener.start a s ∧ alone a stop s = Listener.stop a s ∧
  alone a on_lease_lost s = Listener.on_lease_lost a s ∧
  (retry_task s = Some running → ∃ r s', alone a retry_turn s = (r, s') ∧
     Listener.retry_turn a s = match r with
                               | Ok true => (Ok tt, s')
                               | Ok false => (Ok tt, set_control (stopping s') (Some done) s')
                               | Raise e => (Raise e, set_control (stopping s') (Some done) s')
                               end).
Proof.
  unfold start, stop, on_lease_lost, retry_turn, asleep, Listener.start, Listener.stop, Listener.on_lease_lost, Listener.retry_turn, close_redis,
    Listener.close_redis, se_bind, se_modify, se_ret, get, upd, await, mbind, co_bind. split_and!.
  - cbn. rewrite alone_bind, alone_start_once. destruct (Listener.start_once a _) as [[[]|e] s']; [done|apply alone_ensure_retry|done].
  - cbn. rewrite alone_bind, alone_close_runtime. destruct (Listener.close_runtime a _) as [[[]|e] s']; cbn; [|done].
    destruct (redis s'); cbn; [done|..]; by destruct (redis_closes a).
  - rewrite alone_bind, alone_close_runtime. destruct (Listener.close_runtime a s) as [[[]|e] s']; [apply alone_ensure_retry|done].
  - intros Ht. rewrite Ht. cbn. destruct (stopping s) eqn:Hs; cbn; [do 2 eexists; split; [done|by rewrite Hs]|]. rewrite Hs. cbn.
    destruct (Nat.eqb _ _); cbn; [|do 2 eexists; split; [done|by rewrite Hs]]. rewrite alone_bind, alone_start_once.
    destruct (Listener.start_once a s) as [[[]|e] s']; cbn; by do 2 eexists.
Qed.

(** ** Replicas *)

Section replicas.
Context {Srv : Type} `{RedisServer Srv} (lease_key : string) (leader_ttl_seconds : Q).

(** A replica: the fields of its listener and every lease object it made; the
    call of [start] or [stop] that is under way, the retry task, and the tasks
    of [_safe_on_lost]; [up]: started and not stopped, as far as its owner is
    concerned. *)
Record Replica := {
  st : State; own : list LeaderLease; up : bool;
  user : option (Co unit); retrying : option (Co bool); losing : list (Co unit) }.
Definition with_st (s : State) (r : Replica) : Replica :=
  {| st := s; own := own r; up := up r; user := user r; retrying := retrying r; losing := losing r |}.
Definition with_own (ls : list LeaderLease) (r : Replica) : Replica :=
  {| st := st r; own := ls; up := up r; user := user r; retrying := retrying r; losing := losing r |}.
Definition with_user (b : bool) (p : option (Co unit)) (r : Replica) : Replica :=
  {| st := st r; own := own r; up := b; user := p; retrying := retrying r; losing := losing r |}.
Definition with_retrying (p : option (Co bool)) (r : Replica) : Replica :=
  {| st := st r; own := own r; up := up r; user := user r; retrying := p; losing := losing r |}.
Definition with_losing (ps : list (Co unit)) (r : Replica) : Replica :=
  {| st := st r; own := own r; up := up r; user := user r; retrying := retrying r; losing := ps |}.
(** [LeaderLease(client, lease_key, ttl_seconds=..., on_lost=self._on_lease_lost)];
    the token is what [secrets.token_hex] draws. *)
Definition make_lease (tok : string) : LeaderLease := new_lease lease_key leader_ttl_seconds None true tok.

(** What a task does up to its next [await]; [tok] is the tokens to draw. *)
Fixpoint go {A} (tok : nat → string) (p : Co A) (r : Replica) : Co A * Replica :=
  match p with
  | Ret _ | Throw _ | Await _ _ => (p, r)
  | Get k => go tok (k (st r)) r
  | Upd f p => go tok p (with_st (f (st r)) r)
  | NewLease p =>
      go tok p (with_st (set_lease (Some (length (own r))) (st r)) (with_own (own r ++ [make_lease (tok (length (own r)))]) r))
  | SpawnRetry p => go tok p (with_retrying (Some retry_turn) r)
  | CancelRetry p => go tok p (with_retrying None r)
  end.
(** What answers an [await]: Redis does for the commands of a lease, and
    anything may for the others. *)
Definition answer (f : fault) (rep : Reply) (q : Request) (ls : list LeaderLease) (s : Srv) : Reply * list LeaderLease * Srv :=
  match q with
  | acquire_lease n =>
      match ls !! n with
      | Some l => let '(res, (l', s')) := lease_acquire f (l, s) in
                  (match res with Ok true => fine | Ok false => no | Raise _ => raises end, <[n := l']> ls, s')
      | None => (raises, ls, s)
      end
  | cancel_and_release n =>
      match ls !! n with
      | Some l => let '(res, (l', s')) := lease_release f (l, s) in
                  (match res with Ok _ => fine | Raise _ => raises end, <[n := l']> ls, s')
      | None => (raises, ls, s)
      end
  | _ => (rep, ls, s)
  end.
Definition resume {A} (f : fault) (rep : Reply) (tok : nat → string) (p : Co A) (r : Replica) (s : Srv) : Co A * Replica * Srv :=
  match p with
  | Await q k => let '(rep, ls, s) := answer f rep q (own r) s in (go tok (k rep) (with_own ls r), s)
  | p => (go tok p r, s)
  end.
(** A task that is over is dropped. *)
Definition unfinished {A} (p : Co A) : option (Co A) :=
  match p with Ret _ | Throw _ => None | p => Some p end.
(** A retry that is cancelled may have sent its command: an [acquire] that is
    not answered leaves its lease as it was; a release has ended its loop. *)
Definition cancelled (f : fault) (p : option (Co bool)) (ls : list LeaderLease) (s : Srv) : list LeaderLease * Srv :=
  match p with
  | Some (Await (acquire_lease n) _) => (ls, (answer f raises (acquire_lease n) ls s).2)
  | Some (Await q _) => let '(_, ls', s') := answer f raises q ls s in (ls', s')
  | _ => (ls, s)
  end.

(** [lapsed]: the tokens of leases that expired on the server, of a replica
    since it was last at rest ([step_settle] only keeps these books). *)
Record World := { server : Srv; replicas : list Replica; lapsed : list string }.
Definition put (i : nat) (r : Replica) (s : Srv) (w : World) : World :=
  {| server := s; replicas := <[i := r]> (replicas w); lapsed := lapsed w |}.
Definition tokens (r : Replica) : list string := (λ l, token (lease_lock l)) <$> own r.
Definition fresh_tokens (w : World) (tok : nat → string) : Prop :=
  Inj (=) (=) tok ∧ ∀ r n, r ∈ replicas w → tok n ∉ tokens r.
Definition expired (s s' : Srv) : list string :=
  match value_of s lease_key with
  | Some t => if decide (value_of s' lease_key = Some t) then [] else [t]
  | None => []
  end.
(** What the retry task does when a turn of it is over. *)
Definition retried (p : Co bool) (r : Replica) : Replica :=
  match p with
  | Ret true => with_retrying (Some retry_turn) r
  | Ret false | Throw _ => with_st (set_control (stopping (st r)) (Some done) (st r)) (with_retrying None r)
  | p => with_retrying (Some p) r
  end.

(** Nothing is subscribed, no renewal loop runs, and no task but a retry that
    has not woken up. *)
Definition at_rest (r : Replica) : Prop :=
  subscriptions (st r) = [] ∧ user r = None ∧ losing r = [] ∧ (∀ l, l ∈ own r → task l ≠ Some Redis.running) ∧
  (retrying r = None ∨ up r = true ∧ (retrying r = Some retry_turn ∨ retrying r = Some asleep)).
(** The owner of a replica starts it and stops it, in turns, and waits for
    one before the other. *)
Inductive step : World → World → Prop :=
  | step_start w i r tok p r' :
      replicas w !! i = Some r → user r = None → up r = false → fresh_tokens w tok → go tok start r = (p, r') →
      step w (put i (with_user true (unfinished p) r') (server w) w)
  | step_stop w i r f ls s' tok p r' :
      replicas w !! i = Some r → user r = None → up r = true → fresh_tokens w tok →
      cancelled f (retrying r) (own r) (server w) = (ls, s') → go tok stop (with_own ls r) = (p, r') →
      step w (put i (with_user false (unfinished p) r') s' w)
  | step_user w i r p f rep tok p' r' s' :
      replicas w !! i = Some r → user r = Some p → fresh_tokens w tok → resume f rep tok p r (server w) = (p', r', s') →
      step w (put i (with_user (up r') (unfinished p') r') s' w)
  | step_retry w i r p f rep tok p' r' s' :
      replicas w !! i = Some r → retrying r = Some p → fresh_tokens w tok → resume f rep tok p r (server w) = (p', r', s') →
      step w (put i (retried p' r') s' w)
  | step_lost w i r j p f rep tok p' r' s' :
      replicas w !! i = Some r → losing r !! j = Some p → fresh_tokens w tok → resume f rep tok p r (server w) = (p', r', s') →
      step w (put i (with_losing (match unfinished p' with Some p' => <[j := p']> (losing r') | None => delete j (losing r') end) r') s' w)
  | step_renew w i r n l f l' s' :
      replicas w !! i = Some r → own r !! n = Some l → renew_turn f (l, server w) = (l', s') →
      step w (put i (with_losing (if decide (on_lost_calls l' = on_lost_calls l) then losing r else on_lease_lost :: losing r)
                                 (with_own (<[n := l']> (own r)) r)) s' w)
  | step_elapse w s' :
      elapse (server w) s' →
      step w {| server := s'; replicas := replicas w; lapsed := expired (server w) s' ++ lapsed w |}
  | step_settle w i r :
      replicas w !! i = Some r → at_rest r →
      step w {| server := server w; replicas := replicas w; lapsed := filter (λ t, t ∉ tokens r) (lapsed w) |}.

Definition new_replica (election : bool) : Replica :=
  {| st := new_listener election; own := []; up := false; user := None; retrying := None; losing := [] |}.
Definition start_world (s : Srv) (elections : list bool) : World :=
  {| server := s; replicas := new_replica <$> elections; lapsed := [] |}.

(** ** A replica whose leases have not lapsed *)

(** What a suspended task relies on: that the server keeps a token of the
    replica's that it holds; and what the answer to a request does to it. *)
Abbreviation Value := (option string).
Definition keeps (toks : list string) (v v' : Value) : Prop := ∀ t, t ∈ toks → v = Some t → v' = Some t.
Definition answers (q : Request) (rep : Reply) (toks : list string) (v v' : Value) : Prop :=
  match q with
  | acquire_lease n => keeps toks v v' ∧ (rep = fine → ∃ t, toks !! n = Some t ∧ v' = Some t)
  | cancel_and_release n => v' = v ∨ ∃ t, toks !! n = Some t ∧ v = Some t ∧ v' = None
  | _ => v' = v
  end.
(** Under election a lease of the listener is held on the server. *)
Definition Led (s : State) (toks : list string) (v : Value) : Prop :=
  redis_enabled s = true → ∃ n t, lease s = Some n ∧ toks !! n = Some t ∧ v = Some t.
Definition J (s : State) (toks : list string) (v : Value) : Prop := subscriptions s ≠ [] → Led s toks v.
(** [wp p Q]: wherever [p] is suspended, [J] holds and it has not started the
    retry task; and where it ends, [Q]. *)
Abbreviation Post A := (result ListenerError A → bool → State → list string → Value → Prop).
Fixpoint wp {A} (p : Co A) (Q : Post A) (sp : bool) (s : State) (toks : list string) (v : Value) : Prop :=
  match p with
  | Ret a => Q (Ok a) sp s toks v
  | Throw e => Q (Raise e) sp s toks v
  | Get k => wp (k s) Q sp s toks v
  | Upd f p => wp p Q sp (f s) toks v
  | NewLease p => ∀ tok, wp p Q sp (set_lease (Some (length toks)) s) (toks ++ [tok]) v
  | SpawnRetry p => wp p Q true s toks v
  | CancelRetry p => wp p Q false s toks v
  | Await q k => sp = false ∧ J s toks v ∧
      ∀ v1 rep v2, keeps toks v v1 → answers q rep toks v1 v2 → J s toks v2 ∧ wp (k rep) Q sp s toks v2
  end.
Lemma wp_mono {A} (p : Co A) (Q Q' : Post A) : (∀ r sp s toks v, Q r sp s toks v → Q' r sp s toks v) →
  ∀ sp s toks v, wp p Q sp s toks v → wp p Q' sp s toks v.
Proof.
  intros HQ. induction p; cbn; auto. intros sp s toks v (Hsp & HJ & Hk). split; [done|]. split; [done|].
  intros v1 rep v2 H1 H2. destruct (Hk v1 rep v2 H1 H2) as [HJ2 Hw]. auto.
Qed.
Lemma wp_bind {A B} (p : Co A) (f : A → Co B) (Q : Post B) : ∀ sp s toks v,
  wp p (λ r sp s toks v, match r with Ok a => wp (f a) Q sp s toks v | Raise e => Q (Raise e) sp s toks v end) sp s toks v →
  wp (bind p f) Q sp s toks v.
Proof.
  induction p; cbn; auto. intros sp s toks v (Hsp & HJ & Hk). split; [done|]. split; [done|].
  intros v1 rep v2 H1 H2. destruct (Hk v1 rep v2 H1 H2) as [HJ2 Hw]. auto.
Qed.
Lemma Led_keeps s toks v v' : keeps toks v v' → Led s toks v → Led s toks v'.
Proof.
  intros Hk HL He. destruct (HL He) as (n & t & Hn & Ht & Hv). exists n, t. split_and!; [done|done|].
  apply Hk; [by eapply list_elem_of_lookup_2|done].
Qed.
Lemma J_keeps s toks v v' : keeps toks v v' → J s toks v → J s toks v'.
Proof. intros Hk HJ Hs. eapply Led_keeps; [exact Hk|auto]. Qed.
Lemma value_keeps_trans toks v v1 v2 : keeps toks v v1 → keeps toks v1 v2 → keeps toks v v2.
Proof. intros H1 H2 t Ht Hv. auto. Qed.
Lemma value_keeps_refl toks v : keeps toks v v.
Proof. by intros t _. Qed.
(** A suspended task stays so whatever the server does that keeps the tokens. *)
Lemma wp_keeps {A} q (k : Reply → Co A) Q sp s toks v v' :
  keeps toks v v' → wp (Await q k) Q sp s toks v → wp (Await q k) Q sp s toks v'.
Proof.
  intros Hv (Hsp & HJ & Hk). split; [done|]. split; [by eapply J_keeps|].
  intros v1 rep v2 H1 H2. apply (Hk v1); [|done]. by eapply value_keeps_trans.
Qed.
(** Waiting for something else than Redis, and for nobody's release. *)
Lemma wp_await {A} q (k : Reply → Co A) (Q : Post A) s toks v :
  match q with acquire_lease _ | cancel_and_release _ => False | _ => True end → J s toks v →
  (∀ rep v', keeps toks v v' → wp (k rep) Q false s toks v') → wp (Await q k) Q false s toks v.
Proof.
  intros Hq HJ Hk. split; [done|]. split; [done|]. intros v1 rep v2 H1 H2.
  assert (v2 = v1) as -> by by destruct q. split; [by eapply J_keeps|by apply Hk].
Qed.
Lemma J_quiet s toks v : subscriptions s = [] → J s toks v.
Proof. intros Hs Hn. by rewrite Hs in Hn. Qed.

Definition holds {A} : Post A := λ _ sp s toks v, sp = false ∧ J s toks v.
Lemma wp_release_lease s toks v : subscriptions s = [] →
  wp release_lease (λ _ sp s' toks' v', sp = false ∧ subscriptions s' = []) false s toks v.
Proof.
  intros Hs. cbn. destruct (lease s) as [n|]; [|done]. cbn. split; [done|]. split; [by apply J_quiet|].
  intros v1 rep v2 _ _. split; [by apply J_quiet|]. by destruct rep.
Qed.
#[local] Arguments release_lease : simpl never.
#[local] Arguments unsubscribe_all : simpl never.
Lemma wp_unsubscribe_all l s toks v : J s toks v →
  wp (unsubscribe_all l) (λ r sp s' toks' v', r = Ok tt ∧ sp = false ∧ s' = s ∧ toks' = toks ∧ J s' toks' v') false s toks v.
Proof.
  revert v. induction l as [|x l IH]; intros v HJ; [done|]. apply wp_await; [done|done|].
  intros _ v' Hv. apply IH. by eapply J_keeps.
Qed.
Definition closed : Post unit := λ r sp s toks v, sp = false ∧ J s toks v ∧ (r = Ok tt → subscriptions s = []).
Lemma wp_release_closed s toks v : subscriptions s = [] → wp release_lease closed false s toks v.
Proof.
  intros Hs. eapply wp_mono; [|by apply wp_release_lease]. intros ? ? ? ? ? [-> Hs2]. split_and!; [done|by apply J_quiet|done].
Qed.
Lemma wp_drop_runtime s toks v : J s toks v → wp drop_runtime closed false s toks v.
Proof.
  intros HJ. unfold drop_runtime, get, upd, await, mbind, co_bind. cbn [bind wp]. apply wp_bind.
  eapply wp_mono; [|by apply wp_unsubscribe_all]. intros r sp s' toks' v' (-> & -> & -> & -> & HJ'). cbn.
  destruct (client s); cbn; [|by apply wp_release_closed].
  split; [done|]. split; [by apply J_quiet|]. intros v1 rep v2 _ _. split; [by apply J_quiet|].
  destruct rep; cbn; try (split_and!; [done|by apply J_quiet|done]). by apply wp_release_closed.
Qed.
#[local] Arguments drop_runtime : simpl never.
Lemma wp_close_runtime s toks v : J s toks v → wp close_runtime closed false s toks v.
Proof.
  intros HJ. unfold close_runtime, get, upd, await, mbind, co_bind. cbn.
  destruct (started s); cbn; [|by apply wp_drop_runtime]. split; [done|]. split; [done|]. intros v1 rep v2 H1 ->.
  assert (J (set_started false s) toks v1) as HJ1 by by eapply (J_keeps (set_started false s)).
  split; [done|]. destruct rep; cbn; try by split_and!. by apply wp_drop_runtime.
Qed.
Lemma wp_failed s toks v : J s toks v → wp (bind close_runtime (λ _, Ret false)) holds false s toks v.
Proof.
  intros HJ. apply wp_bind. eapply wp_mono; [|by apply wp_close_runtime].
  by intros [] sp s' toks' v' (-> & HJ' & _).
Qed.
Lemma wp_start_runtime s toks v : Led s toks v → subscriptions s = [] → wp start_runtime holds false s toks v.
Proof.
  intros HL Hs. unfold start_runtime, upd, mbind, co_bind. cbn [bind].
  assert (∀ s v, J s toks v → wp (bind close_runtime (λ _, Ret false)) holds false s toks v) as Hf by (intros; by apply wp_failed).
  change (wp (Upd ?f ?p) ?Q ?sp ?s ?toks ?v) with (wp p Q sp (f s) toks v).
  apply wp_await; [done|by apply J_quiet|]. intros rep v' Hv. destruct rep; try (by apply Hf, J_quiet).
  apply wp_await; [done|by apply J_quiet|]. intros rep v2 Hv2. destruct rep as [| | |subs]; try (by apply Hf, J_quiet).
  assert (Led s toks v2) as HL2 by (eapply Led_keeps; [|exact HL]; by eapply value_keeps_trans).
  change (wp (Upd ?f ?p) ?Q ?sp ?s ?toks ?v) with (wp p Q sp (f s) toks v).
  apply wp_await; [done|by intros _|]. intros rep v3 Hv3.
  assert (Led s toks v3) as HL3 by by eapply Led_keeps.
  destruct rep; try (by apply Hf; intros _). by cbn; split; [|intros _].
Qed.
Lemma wp_start_elected s toks v : subscriptions s = [] → wp start_elected holds false s toks v.
Proof.
  intros Hs tok. cbn [wp set_lease lease]. split; [done|]. split; [by apply J_quiet|].
  intros v1 rep v2 H1 [H2 Hfine]. split; [by apply J_quiet|]. destruct rep; try (split; [done|by apply J_quiet]).
  apply wp_start_runtime; [|done]. intros _. destruct (Hfine eq_refl) as (t & Ht & Hv). by exists (length toks), t.
Qed.
Lemma wp_start_once s toks v : J s toks v → wp start_once holds false s toks v.
Proof.
  intros HJ. unfold start_once, get, upd, await, mbind, co_bind. cbn [bind wp].
  destruct (subscriptions s) eqn:Hs; [|by split].
  destruct (redis_enabled s) eqn:He; [|apply wp_start_runtime; [by unfold Led; rewrite He|done]].
  destruct (redis s); [|split; [done|by apply J_quiet]|by apply wp_start_elected].
  cbn [bind wp]. apply wp_await; [done|by apply J_quiet|]. intros rep v' _.
  destruct rep; try (split; [done|by apply J_quiet]). by apply wp_start_elected.
Qed.
(** A call of [start] may leave a retry task behind, one of [stop] does not. *)
Definition ends (b : bool) : Post unit := λ _ sp s toks v, (b = false → sp = false) ∧ J s toks v.
Lemma wp_ensure_retry s toks v : J s toks v → wp ensure_retry_task (ends true) false s toks v.
Proof.
  intros HJ. unfold ensure_retry_task. cbn. destruct (stopping s); [by split|].
  destruct (retry_task s) as [[]|]; (split; [done|exact HJ]).
Qed.
Lemma wp_start s toks v : J s toks v → wp start (ends true) false s toks v.
Proof.
  intros HJ. unfold start, upd, mbind, co_bind. cbn [bind wp]. apply wp_bind.
  eapply wp_mono; [|apply wp_start_once; exact HJ]. intros [[]|e] sp s' toks' v' [-> HJ']; [done|by apply wp_ensure_retry|done].
Qed.
Lemma wp_stop s toks v sp : J s toks v → wp stop (ends false) sp s toks v.
Proof.
  intros HJ. unfold stop, upd, mbind, co_bind. cbn [bind wp]. apply wp_bind.
  eapply wp_mono; [|apply wp_close_runtime; exact HJ]. intros [[]|e] sp' s' toks' v' (-> & HJ' & Hq); [|done].
  specialize (Hq eq_refl). cbn. destruct (redis s'); [by split| |]; cbn;
    (split; [done|]); (split; [done|]); intros v1 rep v2 H1 ->; (split; [by apply J_quiet|]);
    destruct rep; (split; [done|by apply J_quiet]).
Qed.
Lemma wp_asleep s toks v : J s toks v → wp asleep holds false s toks v.
Proof.
  intros HJ. unfold asleep, get, mbind, co_bind. apply wp_await; [done|done|]. intros _ v' Hv. cbn [bind wp]. assert (J s toks v') as HJ' by by eapply J_keeps.
  destruct (_ || _); [by split|]. apply wp_bind. eapply wp_mono; [|by apply wp_start_once].
  intros [[]|e] sp s' toks' v2 [-> HJ2]; by split.
Qed.
Lemma wp_retry_turn s toks v : J s toks v → wp retry_turn holds false s toks v.
Proof.
  intros HJ. unfold retry_turn, get, mbind, co_bind. cbn [bind wp]. destruct (stopping s); [by split|by apply wp_asleep].
Qed.

(** ** What the commands of a lease do to the server *)

Definition toks_of (ls : list LeaderLease) : list string := (λ l, token (lease_lock l)) <$> ls.
Definition keyed (l : LeaderLease) : Prop := lock_key (lease_lock l) = lease_key ∧ has_on_lost l = true.
Abbreviation val s := (value_of s lease_key).
(** A renewal loop runs only while its lease is held here and on the server. *)
Definition looping (l : LeaderLease) (v : Value) : Prop :=
  task l = Some Redis.running → held (lease_lock l) = true ∧ v = Some (token (lease_lock l)).
(** What the owner of [toks] may do to the value. *)
Definition touch (toks : list string) (v v' : Value) : Prop :=
  v' = v ∨ (v = None ∧ ∃ t, t ∈ toks ∧ v' = Some t) ∨ (∃ t, t ∈ toks ∧ v = Some t ∧ v' = None).

Lemma acquire_same f l s r l' s' : acquire f (l, s) = (r, (l', s')) → token l' = token l ∧ lock_key l' = lock_key l ∧ (r = Ok true → held l' = true).
Proof. unfold acquire. destruct (command _ _ _) as [[b|e] s1]; intros [= <- <- <-]; cbn; split_and!; congruence. Qed.
Lemma acquire_value f l s r l' s' : acquire f (l, s) = (r, (l', s')) →
  value_of s (lock_key l) = None ∧ value_of s' (lock_key l) = Some (token l) ∧ r ≠ Ok false ∨
  value_of s' (lock_key l) = value_of s (lock_key l) ∧ r ≠ Ok true.
Proof.
  intros Ha. destruct (acquire_cases f l s) as [(l1 & Hc)|[(s1 & r1 & l1 & Hc & Hn & Hr & _ & _ & _ & Hk)|(r1 & l1 & v & Hc & Hs & Hr)]];
    rewrite Hc in Ha; injection Ha as <- <- <-; [by right| |by right].
  left. split_and!; [done| |done]. by rewrite Hk, decide_True.
Qed.
Lemma lease_acquire_spec f l s res l' s' : keyed l → lease_acquire f (l, s) = (res, (l', s')) →
  token (lease_lock l') = token (lease_lock l) ∧ keyed l' ∧
  (task l = Some Redis.running ∧ l' = l ∧ s' = s ∨
   task l ≠ Some Redis.running ∧ (res = Ok true → task l' = Some Redis.running ∧ held (lease_lock l') = true) ∧
     (res ≠ Ok true → task l' = task l) ∧
     (val s = None ∧ val s' = Some (token (lease_lock l)) ∧ res ≠ Ok false ∨ val s' = val s ∧ res ≠ Ok true)).
Proof.
  unfold keyed. intros [Hk Ho]. unfold lease_acquire. destruct (task l) as [[|e]|] eqn:Ht; [intros [= <- <- <-]; split; [done|split; [done|by left]]|..].
  all: destruct (acquire f (lease_lock l, s)) as [[[]|e'] [k s1]] eqn:Ha; intros [= <- <- <-];
    destruct (acquire_same _ _ _ _ _ _ Ha) as (Hs1 & Hs2 & Hs3); pose proof (acquire_value _ _ _ _ _ _ Ha) as Hv; rewrite Hk in Hv;
    cbn; (split; [done|]); (split; [split; congruence|]); right; split_and!; try done; naive_solver.
Qed.
Lemma release_value f l s r l' s' : release f (l, s) = (r, (l', s')) →
  token l' = token l ∧ lock_key l' = lock_key l ∧
  (value_of s' (lock_key l) = value_of s (lock_key l) ∨ value_of s (lock_key l) = Some (token l) ∧ value_of s' (lock_key l) = None).
Proof.
  unfold release, command. destruct (held l); cbn; [|intros [= <- <- <-]; auto].
  pose proof (compare_and_delete_ok s (lock_key l) (token l)) as Hd.
  case_decide as Hv; [destruct Hd as (s1 & Hd & Hk)|]; rewrite ?Hd; destruct f; intros [= <- <- <-]; cbn;
    (split; [done|]); (split; [done|]); try (by left); right; (split; [done|]); by rewrite Hk, decide_True.
Qed.
Lemma lease_release_spec f l s res l' s' : keyed l → lease_release f (l, s) = (res, (l', s')) →
  token (lease_lock l') = token (lease_lock l) ∧ keyed l' ∧ task l' = None ∧
  (val s' = val s ∨ val s = Some (token (lease_lock l)) ∧ val s' = None).
Proof.
  unfold keyed. intros [Hk Ho]. unfold lease_release.
  assert (∀ r k s1, release f (lease_lock l, s) = (r, (k, s1)) →
    (match r with Ok _ => (Ok tt, (Redis.set_lease l k None true (on_lost_calls l), s1))
                | Raise e => (Raise e, (Redis.set_lease l k None true (on_lost_calls l), s1)) end) = (res, (l', s')) →
    token (lease_lock l') = token (lease_lock l) ∧ (lock_key (lease_lock l') = lease_key ∧ has_on_lost l' = true) ∧ task l' = None ∧
    (val s' = val s ∨ val s = Some (token (lease_lock l)) ∧ val s' = None)) as Hrel.
  { intros r k s1 (Ht & Hl & Hv)%release_value. rewrite Hk in Hv. destruct r; intros [= <- <- <-]; cbn; (split_and!; [done|congruence|done|done|done]). }
  destruct (task l) as [[|[e|]]|]; [| |..].
  2: intros [= <- <- <-]; cbn; auto.
  all: destruct (release f (lease_lock l, s)) as [r [k s1]]; by apply (Hrel r k s1).
Qed.
Lemma extend_value f t l s r l' s' : extend f t (l, s) = (r, (l', s')) →
  token l' = token l ∧ lock_key l' = lock_key l ∧ value_of s' (lock_key l) = value_of s (lock_key l) ∧
  (held l = true → value_of s (lock_key l) = Some (token l) → r ≠ Ok false ∧ l' = l).
Proof.
  unfold extend, command. destruct (held l); cbn; [|intros [= <- <- <-]; auto].
  pose proof (compare_and_pexpire_ok s (lock_key l) (token l) _ (ttl_ms_pos (default (ttl_seconds l) t))) as Hd.
  case_decide as Hv; [destruct Hd as (s1 & Hd & Hk)|]; rewrite ?Hd; destruct f; intros [= <- <- <-]; cbn; split_and!; try done.
Qed.
Lemma renew_turn_spec f l s l' s' : keyed l → renew_turn f (l, s) = (l', s') →
  token (lease_lock l') = token (lease_lock l) ∧ keyed l' ∧ val s' = val s ∧
  (looping l (val s) → on_lost_calls l' = on_lost_calls l ∧ looping l' (val s)).
Proof.
  unfold keyed, looping. intros [Hk Ho]. unfold renew_turn. destruct (task l) as [[|e]|] eqn:Ht; [|intros [= <- <-]; rewrite Ht; auto..].
  destruct (extend f _ _) as [r [k s1]] eqn:He. destruct (extend_value _ _ _ _ _ _ _ He) as (E1 & E2 & E3 & E4). rewrite Hk in E3, E4.
  destruct r as [[]|e]; intros [= <- <-]; cbn; (split; [done|]); (split; [split; congruence|]); (split; [done|]); intros Hl;
    destruct (Hl eq_refl) as [Hh Hv]; destruct (E4 Hh Hv) as [Hn ->]; [by split|done|by split].
Qed.

Definition loops (ls : list LeaderLease) (v : Value) : Prop := ∀ l, l ∈ ls → looping l v.
Definition all_keyed (ls : list LeaderLease) : Prop := ∀ l, l ∈ ls → keyed l.
Lemma toks_insert ls n l l' : ls !! n = Some l → token (lease_lock l') = token (lease_lock l) → toks_of (<[n := l']> ls) = toks_of ls.
Proof.
  intros Hl Ht. unfold toks_of. rewrite list_fmap_insert. apply list_insert_id. by rewrite list_lookup_fmap, Hl, Ht.
Qed.
Lemma elem_insert {A} (ls : list A) n x y : y ∈ <[n := x]> ls → y = x ∨ ∃ m, m ≠ n ∧ ls !! m = Some y.
Proof.
  intros (m & Hm)%list_elem_of_lookup. apply list_lookup_insert_Some in Hm as [(-> & -> & _)|[Hne Hm]]; [by left|right]. by exists m.
Qed.
Lemma all_keyed_insert ls n l : all_keyed ls → keyed l → all_keyed (<[n := l]> ls).
Proof. intros Hls Hl y [->|(m & _ & Hm)]%elem_insert; [done|]. by eapply Hls, list_elem_of_lookup_2. Qed.
Lemma elem_toks ls n l : ls !! n = Some l → toks_of ls !! n = Some (token (lease_lock l)).
Proof. intros Hl. unfold toks_of. by rewrite list_lookup_fmap, Hl. Qed.
Lemma tok_in ls n l : ls !! n = Some l → token (lease_lock l) ∈ toks_of ls.
Proof. intros Hl%elem_toks. by eapply list_elem_of_lookup_2. Qed.
(** The other leases of a replica do not have the token that is released. *)
Lemma other_token ls n l m l' : NoDup (toks_of ls) → ls !! n = Some l → ls !! m = Some l' → m ≠ n →
  token (lease_lock l') ≠ token (lease_lock l).
Proof. intros Hn Hl%elem_toks Hm%elem_toks Hne Heq. rewrite Heq in Hm. apply Hne. by eapply NoDup_lookup. Qed.

(** The leases and the server before and after a request is answered. *)
Definition answered (q : Request) (rep : Reply) (ls ls' : list LeaderLease) (v v' : Value) : Prop :=
  toks_of ls' = toks_of ls ∧ all_keyed ls' ∧ touch (toks_of ls) v v' ∧
  (NoDup (toks_of ls) → loops ls v → answers q rep (toks_of ls) v v' ∧ loops ls' v').
Lemma answered_same q rep ls v : all_keyed ls → (rep = fine → match q with acquire_lease _ => False | _ => True end) →
  answered q rep ls ls v v.
Proof.
  intros Hk H1. split_and!; [done|done|by left|]. intros _ Hl. split; [|done]. unfold answers.
  destruct q; try done; [|by left]. split; [apply value_keeps_refl|]. intros ->. by destruct H1.
Qed.
(** The loops of the leases that are not [n] keep looping. *)
Lemma loops_insert ls n l v v' : loops ls v → looping l v' →
  (∀ m y, m ≠ n → ls !! m = Some y → v = Some (token (lease_lock y)) → v' = v) → loops (<[n := l]> ls) v'.
Proof.
  intros Hloops Hl Hoth y [->|(m & Hne & Hm)]%elem_insert; [done|].
  intros Hy. destruct (Hloops y ltac:(by eapply list_elem_of_lookup_2) Hy) as [Hh Hv]. split; [done|]. by rewrite (Hoth m y).
Qed.
Lemma answered_acquire f ls n l s res l1 s1 : all_keyed ls → ls !! n = Some l → lease_acquire f (l, s) = (res, (l1, s1)) →
  answered (acquire_lease n) (match res with Ok true => fine | Ok false => no | Raise _ => raises end) ls (<[n := l1]> ls) (val s) (val s1).
Proof.
  intros Hk Hl Ha. pose proof (Hk l ltac:(by eapply list_elem_of_lookup_2)) as Hkl.
  destruct (lease_acquire_spec _ _ _ _ _ _ Hkl Ha) as (Ht & Hk1 & Hcase).
  split; [by eapply toks_insert|]. split; [by apply all_keyed_insert|]. split.
  - destruct Hcase as [(_ & _ & ->)|(_ & _ & _ & [(Hv & Hv' & _)|[Hv _]])]; [by left|right; left|by left].
    split; [done|]. eexists. split; [by eapply tok_in|done].
  - intros Hnd Hloops. pose proof (Hloops l ltac:(by eapply list_elem_of_lookup_2)) as Hll.
    destruct Hcase as [(Hrun & -> & ->)|(Hrun & Hok & Hno & Hv)].
    + rewrite list_insert_id by done. split; [|done]. split; [apply value_keeps_refl|]. intros _. destruct (Hll Hrun) as [_ Hv].
      eexists. split; [by apply elem_toks|done].
    + assert (res = Ok true → val s1 = Some (token (lease_lock l))) as Hset.
      { intros ->. destruct Hv as [(_ & Hv & _)|[_ Hv]]; [done|congruence]. }
      split; [split|apply (loops_insert _ _ _ (val s)); [done| |]].
      * intros t Hin Hvt. destruct Hv as [(Hn & _)|[-> _]]; [congruence|done].
      * intros Hf. exists (token (lease_lock l)). split; [by apply elem_toks|]. apply Hset. destruct res as [[]|]; congruence.
      * intros Hy. destruct res as [[]|e]; [|rewrite Hno in Hy by done; congruence..].
        destruct (Hok eq_refl) as [_ Hh]. split; [done|]. by rewrite Hset, Ht.
      * intros m y _ _ Hvy. destruct Hv as [(Hn & _)|[Hv _]]; [congruence|done].
Qed.
Lemma answered_release f ls n l s res l1 s1 : all_keyed ls → ls !! n = Some l → lease_release f (l, s) = (res, (l1, s1)) →
  answered (cancel_and_release n) (match res with Ok _ => fine | Raise _ => raises end) ls (<[n := l1]> ls) (val s) (val s1).
Proof.
  intros Hk Hl Ha. pose proof (Hk l ltac:(by eapply list_elem_of_lookup_2)) as Hkl.
  destruct (lease_release_spec _ _ _ _ _ _ Hkl Ha) as (Ht & Hk1 & Htask & Hv).
  split; [by eapply toks_insert|]. split; [by apply all_keyed_insert|]. split.
  - destruct Hv as [->|[Hv Hv']]; [by left|right; right]. eexists. split; [by eapply tok_in|done].
  - intros Hnd Hloops. split; [|apply (loops_insert _ _ _ (val s)); [done| |]].
    + destruct Hv as [->|[Hv Hv']]; [by left|right]. eexists. split; [by apply elem_toks|done].
    + intros Hy. congruence.
    + intros m y Hne Hm Hvy. destruct Hv as [->|[Hv Hv']]; [done|]. exfalso. apply (other_token _ _ _ _ _ Hnd Hl Hm Hne). congruence.
Qed.
Lemma answer_spec f rep q ls s rep' ls' s' : all_keyed ls → answer f rep q ls s = (rep', ls', s') →
  answered q rep' ls ls' (val s) (val s').
Proof.
  intros Hk. unfold answer. destruct q as [|n| | | | | | |n| |]; try (intros [= <- <- <-]; by apply answered_same).
  - destruct (ls !! n) as [l|] eqn:Hl; [|intros [= <- <- <-]; by apply answered_same].
    destruct (lease_acquire f (l, s)) as [res [l1 s1]] eqn:Ha. intros [= <- <- <-]. by eapply answered_acquire.
  - destruct (ls !! n) as [l|] eqn:Hl; [|intros [= <- <- <-]; by apply answered_same].
    destruct (lease_release f (l, s)) as [res [l1 s1]] eqn:Ha. intros [= <- <- <-]. by eapply answered_release.
Qed.
#[local] Arguments answer : simpl never.
(** What is cancelled leaves the loops as they should be, and the others'
    tokens alone. *)
Lemma cancelled_spec f p ls s ls' s' : all_keyed ls → cancelled f p ls s = (ls', s') →
  toks_of ls' = toks_of ls ∧ all_keyed ls' ∧ touch (toks_of ls) (val s) (val s') ∧
  (NoDup (toks_of ls) → loops ls (val s) → loops ls' (val s') ∧
   match p with Some (Await q _) => ∃ rep, answers q rep (toks_of ls) (val s) (val s') | _ => val s' = val s end).
Proof.
  intros Hk. destruct p as [[| | | | | | |q k]|]; cbn; try (intros [= <- <-]; by split_and!; [| |left|]).
  destruct q as [|n| | | | | | |n| |]; 
    try (unfold answer; intros [= <- <-]; split_and!; [done|done|by left|]; intros _ Hl; split; [done|]; by exists raises).
  - destruct (answer f raises (acquire_lease n) ls s) as [[rep ls1] s1] eqn:Ha. cbn. intros [= <- <-].
    destruct (answer_spec _ _ _ _ _ _ _ _ Hk Ha) as (_ & _ & Ht & Hrest). split_and!; [done|done|done|].
    intros Hnd Hl. destruct (Hrest Hnd Hl) as [Hans _]. split; [|by exists rep].
    intros y Hy Hrun. destruct (Hl y Hy Hrun) as [Hh Hv]. split; [done|]. destruct Hans as [Hkeep _]. apply Hkeep; [|done].
    apply list_elem_of_lookup in Hy as (m & Hm). by eapply tok_in.
  - destruct (answer f raises (cancel_and_release n) ls s) as [[rep ls1] s1] eqn:Ha. intros [= <- <-].
    destruct (answer_spec _ _ _ _ _ _ _ _ Hk Ha) as (H1 & H2 & Ht & Hrest). split_and!; [done|done|done|].
    intros Hnd Hl. destruct (Hrest Hnd Hl) as [Hans Hl']. split; [done|]. by exists rep.
Qed.

Definition settled {A} (p : Co A) : Prop := match p with Ret _ | Throw _ | Await _ _ => True | _ => False end.
Lemma go_spec {A} tok (p : Co A) : ∀ r p' r', go tok p r = (p', r') →
  settled p' ∧ up r' = up r ∧ user r' = user r ∧ losing r' = losing r ∧
  ∃ n, own r' = (own r ++ ((λ m, make_lease (tok m)) <$> seq (length (own r)) n))%list.
Proof.
  induction p as [a|e|k IH|f p IH|p IH|p IH|p IH|q k IH]; intros r p' r'; cbn; try (intros [= <- <-]; split_and!; try done; exists 0%nat; by rewrite app_nil_r).
  - apply IH.
  - intros Hg. by apply IH in Hg.
  - intros Hg. apply IH in Hg as (Hs & Hu & Hus & Hl & n & Ho). split_and!; [done..|]. exists (S n). rewrite Ho. cbn.
    rewrite length_app, <-app_assoc. cbn. by rewrite Nat.add_1_r.
  - intros Hg. by apply IH in Hg.
  - intros Hg. by apply IH in Hg.
Qed.
Definition slot (sp : bool) : option (Co bool) := if sp then Some retry_turn else None.
Lemma go_wp {A} tok (p : Co A) Q v : ∀ sp r p' r', wp p Q sp (st r) (tokens r) v → go tok p r = (p', r') →
  ∃ sp', wp p' Q sp' (st r') (tokens r') v ∧ (retrying r = slot sp → retrying r' = slot sp').
Proof.
  induction p as [a|e|k IH|f p IH|p IH|p IH|p IH|q k IH]; intros sp r p' r' Hw; cbn; try (intros [= <- <-]; by exists sp).
  - apply IH. exact Hw.
  - intros Hg. by apply (IH sp (with_st (f (st r)) r) p' r').
  - intros Hg. specialize (Hw (tok (length (own r)))). unfold tokens in Hw. rewrite length_fmap in Hw.
    refine (IH sp (with_st _ (with_own _ r)) p' r' _ Hg). unfold tokens. cbn. by rewrite fmap_app.
  - intros Hg. destruct (IH true (with_retrying (Some retry_turn) r) _ _ Hw Hg) as (sp' & Hw' & Hs). exists sp'. split; [done|]. intros _. by apply Hs.
  - intros Hg. destruct (IH false (with_retrying None r) _ _ Hw Hg) as (sp' & Hw' & Hs). exists sp'. split; [done|]. intros _. by apply Hs.
Qed.

Definition is_await {A} (p : Co A) : Prop := match p with Await _ _ => True | _ => False end.
Lemma unfinished_settled {A} (p p' : Co A) : settled p → unfinished p = Some p' → p' = p ∧ is_await p.
Proof. destruct p; cbn; try done; by intros _ [= <-]. Qed.
Lemma wp_finished {A} (p : Co A) Q sp s toks v : settled p → unfinished p = None → wp p Q sp s toks v → ∃ r, Q r sp s toks v.
Proof. destruct p; cbn; try done; eauto. Qed.

(** ** The invariant *)

Record Good (r : Replica) (v : Value) : Prop := {
  good_losing : losing r = [];
  good_loops : loops (own r) v;
  good_tasks :
    match user r, retrying r with
    | None, None => J (st r) (tokens r) v
    | Some p, None => is_await p ∧ wp p (ends (up r)) false (st r) (tokens r) v
    | None, Some p => p = retry_turn ∧ J (st r) (tokens r) v ∨ is_await p ∧ wp p holds false (st r) (tokens r) v
    | Some _, Some _ => False
    end;
  good_down : user r = None → up r = false → retrying r = None }.
Lemma Good_keeps r v v' : keeps (tokens r) v v' → Good r v → Good r v'.
Proof.
  intros Hk [G1 G2 G3 G4]. split; [done| | |done].
  - intros l Hl Hrun. destruct (G2 l Hl Hrun) as [Hh Hv]. split; [done|]. apply Hk; [|done].
    apply list_elem_of_lookup in Hl as (n & Hn). by eapply tok_in.
  - destruct (user r) as [p|], (retrying r) as [p'|]; [done| | |].
    + destruct G3 as [Hp Hw]. split; [done|]. destruct p; try done. by eapply wp_keeps.
    + destruct G3 as [[-> HJ]|[Hp Hw]]; [left; split; [done|by eapply J_keeps]|right].
      split; [done|]. destruct p'; try done. by eapply wp_keeps.
    + by eapply J_keeps.
Qed.
Lemma Good_J r v : Good r v → J (st r) (tokens r) v.
Proof.
  intros [_ _ G _]. destruct (user r) as [p|], (retrying r) as [p'|]; [done| | |done].
  - destruct G as [Hp Hw]. destruct p; try done. apply Hw.
  - destruct G as [[_ HJ]|[Hp Hw]]; [done|]. destruct p'; try done. apply Hw.
Qed.
Definition clean (w : World) (r : Replica) : Prop := ∀ t, t ∈ tokens r → t ∉ lapsed w.
Record Inv (w : World) : Prop := {
  inv_keyed : ∀ i r, replicas w !! i = Some r → all_keyed (own r);
  inv_nodup : ∀ i r, replicas w !! i = Some r → NoDup (tokens r);
  inv_distinct : ∀ i j ri rj t, replicas w !! i = Some ri → replicas w !! j = Some rj → t ∈ tokens ri → t ∈ tokens rj → i = j;
  inv_good : ∀ i r, replicas w !! i = Some r → clean w r → Good r (val (server w)) }.
(** What a step of one replica may do. *)
Record moves (w : World) (r r1 : Replica) (s1 : Srv) : Prop := {
  m_keyed : all_keyed (own r1);
  m_nodup : NoDup (tokens r1);
  m_sub : tokens r ⊆ tokens r1;
  m_new : ∀ t, t ∈ tokens r1 → t ∈ tokens r ∨ ∀ r', r' ∈ replicas w → t ∉ tokens r';
  m_touch : touch (tokens r) (val (server w)) (val s1);
  m_good : Good r (val (server w)) → Good r1 (val s1) }.
Lemma touch_others toks toks' v v' : touch toks v v' → (∀ t, t ∈ toks → t ∉ toks') → keeps toks' v v'.
Proof.
  intros [->|[(-> & _)|(t & Ht & -> & ->)]] Hd t' Ht'; [done|done|]. intros [= ->]. by destruct (Hd t').
Qed.
Lemma Inv_put w i r r1 s1 : Inv w → replicas w !! i = Some r → moves w r r1 s1 → Inv (put i r1 s1 w).
Proof.
  intros [I1 I2 I3 I4] Hi [M1 M2 M3 M4 M5 M6].
  assert (∀ j rj, <[i := r1]> (replicas w) !! j = Some rj → j = i ∧ rj = r1 ∨ j ≠ i ∧ replicas w !! j = Some rj) as Hput.
  { intros j rj [(-> & -> & _)|[Hne Hj]]%list_lookup_insert_Some; [by left|right]. by split. }
  assert (∀ j rj t, j ≠ i → replicas w !! j = Some rj → t ∈ tokens r1 → t ∉ tokens rj) as Hdis.
  { intros j rj t Hne Hj [Ht|Ht]%M4 Htj; [by apply Hne, (I3 j i rj r t)|]. by apply (Ht rj); [eapply list_elem_of_lookup_2|]. }
  split; cbn [put replicas server].
  - intros j rj [(-> & ->)|[_ Hj]]%Hput; [done|by eapply I1].
  - intros j rj [(-> & ->)|[_ Hj]]%Hput; [done|by eapply I2].
  - intros j k rj rk t Hj Hk Htj Htk. apply Hput in Hj as [(-> & ->)|[Hne Hj]]; apply Hput in Hk as [(-> & ->)|[Hne' Hk]]; [done|..].
    + by destruct (Hdis k rk t).
    + by destruct (Hdis j rj t).
    + by eapply I3.
  - intros j rj [(-> & ->)|[Hne Hj]]%Hput Hc.
    + apply M6, (I4 i r Hi). intros t Ht. apply Hc, M3, Ht.
    + apply (Good_keeps rj (val (server w))); [|by apply (I4 j rj)]. eapply touch_others; [exact M5|].
      intros t Ht. by apply (Hdis j rj t Hne Hj), M3.
Qed.
Lemma Inv_elapse w s1 : Inv w → elapse (server w) s1 →
  Inv {| server := s1; replicas := replicas w; lapsed := expired (server w) s1 ++ lapsed w |}.
Proof.
  intros [I1 I2 I3 I4] He. split; [exact I1|exact I2|exact I3|]. cbn. intros i r Hi Hc.
  apply (Good_keeps r (val (server w))).
  - intros t Ht Hv. specialize (Hc t Ht). unfold lapsed, expired in Hc. rewrite Hv in Hc. case_decide; [done|].
    destruct Hc. apply elem_of_app. left. by left.
  - apply (I4 i r Hi). intros t Ht Hl. apply (Hc t Ht). apply elem_of_app. by right.
Qed.
(** Everything but [m_good], of the leases before and after. *)
Record grows (w : World) (ls ls1 : list LeaderLease) : Prop := {
  g_keyed : all_keyed ls1;
  g_nodup : NoDup (toks_of ls1);
  g_sub : toks_of ls ⊆ toks_of ls1;
  g_new : ∀ t, t ∈ toks_of ls1 → t ∈ toks_of ls ∨ ∀ r', r' ∈ replicas w → t ∉ tokens r' }.
Lemma grows_same w ls ls1 : all_keyed ls1 → NoDup (toks_of ls) → toks_of ls1 = toks_of ls → grows w ls ls1.
Proof. intros Hk Hn Ht. split; rewrite ?Ht; [done|done|done|]. intros t. by left. Qed.
Lemma grows_made w ls tok n : all_keyed ls → NoDup (toks_of ls) → fresh_tokens w tok →
  (∀ t, t ∈ toks_of ls → ∃ r, r ∈ replicas w ∧ t ∈ tokens r) →
  grows w ls (ls ++ ((λ m, make_lease (tok m)) <$> seq (length ls) n)).
Proof.
  intros Hk Hn [Hinj Hf] Hls. unfold toks_of in *.
  assert (toks_of ((λ m, make_lease (tok m)) <$> seq (length ls) n) = tok <$> seq (length ls) n) as Hnew.
  { unfold toks_of. rewrite <-list_fmap_compose. by apply list_fmap_ext. }
  unfold toks_of in Hnew. split; unfold toks_of; rewrite ?fmap_app, ?Hnew.
  - intros l [Hl|(m & -> & _)%list_elem_of_fmap]%elem_of_app; [by apply Hk|done].
  - apply NoDup_app. split_and!; [done| |by apply NoDup_fmap_2, NoDup_seq].
    intros t Ht (m & -> & _)%list_elem_of_fmap. destruct (Hls _ Ht) as (r & Hr & Htr). by apply (Hf r m Hr).
  - intros t Ht. apply elem_of_app. by left.
  - intros t [Ht|(m & -> & _)%list_elem_of_fmap]%elem_of_app; [by left|right]. intros r' Hr'. by apply Hf.
Qed.
Lemma loops_made ls v tok n : loops ls v → loops (ls ++ ((λ m, make_lease (tok m)) <$> seq (length ls) n)) v.
Proof. intros Hl l [Hin|(m & -> & _)%list_elem_of_fmap]%elem_of_app; [by apply Hl|done]. Qed.

(** What a task does from one [await] to the next. *)
Record advances {A} (w : World) (p p' : Co A) (r r' : Replica) (s' : Srv) : Prop := {
  a_settled : settled p';
  a_up : up r' = up r; a_user : user r' = user r; a_losing : losing r' = losing r;
  a_grows : grows w (own r) (own r');
  a_touch : touch (tokens r) (val (server w)) (val s');
  a_loops : loops (own r) (val (server w)) → loops (own r') (val s') ∧
    ∀ Q sp, wp p Q sp (st r) (tokens r) (val (server w)) →
      ∃ sp', wp p' Q sp' (st r') (tokens r') (val s') ∧ (retrying r = slot sp → retrying r' = slot sp') }.
Lemma go_advances {A} w i r tok (p : Co A) p' r' : Inv w → replicas w !! i = Some r → fresh_tokens w tok →
  go tok p r = (p', r') → advances w p p' r r' (server w).
Proof.
  intros HI Hi Hf Hg. destruct (go_spec _ _ _ _ _ Hg) as (H1 & H2 & H3 & H4 & n & Ho).
  split; [done..| |by left|].
  - rewrite Ho. apply grows_made; [by eapply inv_keyed|by apply (inv_nodup w HI i)|done|].
    intros t Ht. exists r. split; [by eapply list_elem_of_lookup_2|done].
  - intros Hl. split; [rewrite Ho; by apply loops_made|]. intros Q sp Hw. by eapply go_wp.
Qed.
Lemma resume_advances {A} w i r f rep tok (p : Co A) p' r' s' : Inv w → replicas w !! i = Some r → fresh_tokens w tok →
  resume f rep tok p r (server w) = (p', r', s') → advances w p p' r r' s'.
Proof.
  intros HI Hi Hf. pose proof (inv_keyed w HI i r Hi) as Hk. pose proof (inv_nodup w HI i r Hi) as Hn.
  assert (go tok p r = (p', r') → s' = server w → advances w p p' r r' s') as Hgo.
  { intros Hg ->. by eapply go_advances. }
  destruct p as [a|e|k|g p|p|p|p|q k]; cbn [resume]; try (intros [Hg Hs]%pair_equal_spec; by apply Hgo).
  destruct (answer f rep q (own r) (server w)) as [[rep1 ls] s1] eqn:Ha.
  destruct (answer_spec _ _ _ _ _ _ _ _ Hk Ha) as (Ht & Hk1 & Htouch & Hrest).
  destruct (go tok (k rep1) (with_own ls r)) as [p1 r1] eqn:Hg. intros [= <- <- <-].
  destruct (go_spec _ _ _ _ _ Hg) as (H1 & H2 & H3 & H4 & n & Ho). cbn in Ho.
  assert (grows w ls (own r1)) as [G1 G2 G3 G4].
  { rewrite Ho. apply grows_made; [done|by rewrite Ht|done|]. intros t Hin. rewrite Ht in Hin.
    exists r. split; [by eapply list_elem_of_lookup_2|done]. }
  split; [done..| |done|].
  - split; [done|done|by rewrite <-Ht|]. intros t Hin. destruct (G4 t Hin) as [?|?]; [left; by rewrite <-Ht|by right].
  - intros Hl. destruct (Hrest Hn Hl) as [Hans Hl1]. split; [rewrite Ho; by apply loops_made|].
    intros Q sp (-> & HJ & Hw). destruct (Hw (val (server w)) rep1 (val s1) (value_keeps_refl _ _) Hans) as [_ Hw1].
    eapply (go_wp tok (k rep1) Q (val s1) false (with_own ls r)); [|exact Hg].
    change (tokens (with_own ls r)) with (toks_of ls). by rewrite Ht.
Qed.
Lemma advances_moves {A} w i r (p p' : Co A) r' s' r1 : Inv w → replicas w !! i = Some r → advances w p p' r r' s' → own r1 = own r' →
  (Good r (val (server w)) → Good r1 (val s')) → moves w r r1 s'.
Proof.
  intros HI Hi [_ _ _ _ [G1 G2 G3 G4] Ht _] Ho Hg. split; unfold tokens; rewrite ?Ho; done.
Qed.

(** A call of the owner's, and a turn of the retry task, go on or end. *)
Lemma Good_call b (p : Co unit) sp r v : losing r = [] → loops (own r) v → settled p → retrying r = slot sp →
  wp p (ends b) sp (st r) (tokens r) v → Good (with_user b (unfinished p) r) v.
Proof.
  intros Hl Hlo Hp Hs Hw. destruct (unfinished p) as [p1|] eqn:Hu.
  - destruct (unfinished_settled _ _ Hp Hu) as [-> Ha]. split; cbn; [done|done| |done].
    destruct p; try done. assert (sp = false) as -> by apply Hw. rewrite Hs. by split.
  - destruct (wp_finished _ _ _ _ _ _ Hp Hu Hw) as (res & Hsp & HJ). split; cbn; [done|done| |].
    + rewrite Hs. destruct sp; cbn; [left; by split|done].
    + intros _ ->. by rewrite Hs, (Hsp eq_refl).
Qed.
Lemma Good_retried (p : Co bool) sp r v : losing r = [] → loops (own r) v → settled p → user r = None → up r = true →
  wp p holds sp (st r) (tokens r) v → Good (retried p r) v.
Proof.
  intros Hl Hlo Hp Hu Hup Hw. destruct p as [[]|e|k|g p|p|p|p|q k]; try done; cbn.
  1, 2, 3: destruct Hw as [-> HJ]; (split; cbn; [done|done|rewrite Hu; first [exact HJ|left; by split]|congruence]).
  split; cbn; [done|done|rewrite Hu|congruence]. right. split; [done|]. assert (sp = false) as -> by apply Hw. done.
Qed.

Lemma stop_moves w i r f ls s1 tok p r' : Inv w → replicas w !! i = Some r → user r = None → fresh_tokens w tok →
  cancelled f (retrying r) (own r) (server w) = (ls, s1) → go tok stop (with_own ls r) = (p, r') →
  moves w r (with_user false (unfinished p) r') s1.
Proof.
  intros HI Hi Hu Hf Hc Hg. pose proof (inv_keyed w HI i r Hi) as Hk. pose proof (inv_nodup w HI i r Hi) as Hn.
  destruct (cancelled_spec _ _ _ _ _ _ Hk Hc) as (Ht & Hk1 & Htouch & Hrest).
  assert (go tok stop (with_retrying None (with_own ls r)) = (p, r')) as Hg0 by exact Hg.
  destruct (go_spec _ _ _ _ _ Hg0) as (H1 & H2 & H3 & H4 & n & Ho). cbn in Ho.
  assert (grows w ls (own r')) as [G1 G2 G3 G4].
  { rewrite Ho. apply grows_made; [done|by rewrite Ht|done|]. intros t Hin. rewrite Ht in Hin.
    exists r. split; [by eapply list_elem_of_lookup_2|done]. }
  change (toks_of (own r)) with (tokens r) in Ht. rewrite Ht in G3, G4. split; [exact G1|exact G2|exact G3|exact G4|exact Htouch|]. intros HG.
  destruct (Hrest Hn (good_loops _ _ HG)) as [Hlo Hq].
  assert (J (st r) (toks_of ls) (val s1)) as HJ.
  { rewrite Ht. pose proof (good_tasks _ _ HG) as Htask. rewrite Hu in Htask.
    revert Hq Htask. destruct (retrying r) as [p0|]; intros Hq Htask; [|by rewrite Hq].
    destruct Htask as [[-> HJ]|[Ha Hw]]; [by rewrite Hq|]. destruct p0; try done. destruct Hq as [rep Hans].
    destruct Hw as (_ & _ & Hw). by destruct (Hw _ _ _ (value_keeps_refl _ _) Hans). }
  destruct (go_wp tok stop (ends false) (val s1) false (with_retrying None (with_own ls r)) p r' (wp_stop _ _ _ false HJ) Hg0) as (sp & Hw & Hs).
  eapply Good_call; [rewrite H4; apply HG|rewrite Ho; by apply loops_made|done|by apply Hs|done].
Qed.
Lemma renew_moves w i r n l f l' s1 : Inv w → replicas w !! i = Some r → own r !! n = Some l → renew_turn f (l, server w) = (l', s1) →
  moves w r (with_losing (if decide (on_lost_calls l' = on_lost_calls l) then losing r else on_lease_lost :: losing r)
                         (with_own (<[n := l']> (own r)) r)) s1.
Proof.
  intros HI Hi Hl Hr. pose proof (inv_keyed w HI i r Hi) as Hk. pose proof (inv_nodup w HI i r Hi) as Hn.
  assert (keyed l) as Hkl by by eapply Hk, list_elem_of_lookup_2.
  destruct (renew_turn_spec _ _ _ _ _ Hkl Hr) as (Ht & Hk1 & Hv & Hlo). pose proof (toks_insert _ _ _ _ Hl Ht) as Htoks.
  destruct (grows_same w (own r) (<[n := l']> (own r))) as [G1 G2 G3 G4]; [by apply all_keyed_insert|done|done|].
  split; [done|done|done|done|by left|]. intros [L1 L2 L3 L4].
  destruct (Hlo (L2 l ltac:(by eapply list_elem_of_lookup_2))) as [Hc Hl']. rewrite Hv. split; cbn.
  - by rewrite decide_True.
  - intros y [->|(m & _ & Hm)]%elem_insert; [done|]. by eapply L2, list_elem_of_lookup_2.
  - unfold tokens, toks_of in *. cbn. by rewrite Htoks.
  - done.
Qed.
Lemma at_rest_Good r v : at_rest r → Good r v.
Proof.
  intros (Hs & Hu & Hl & Hlo & Hr). split; [done| | |].
  - intros l Hin Hrun. by destruct (Hlo l).
  - rewrite Hu. destruct Hr as [->|[_ [-> | ->]]]; [by apply J_quiet|left; split; [done|by apply J_quiet]|right].
    split; [done|]. by apply wp_asleep, J_quiet.
  - intros _ Hup. destruct Hr as [?|[Hup' _]]; congruence.
Qed.
Lemma Inv_settle w i r : Inv w → replicas w !! i = Some r → at_rest r →
  Inv {| server := server w; replicas := replicas w; lapsed := filter (λ t, t ∉ tokens r) (lapsed w) |}.
Proof.
  intros [I1 I2 I3 I4] Hi Hrest. split; [exact I1|exact I2|exact I3|]. cbn. intros j rj Hj Hc.
  destruct (decide (j = i)) as [->|Hne].
  - rewrite Hi in Hj. injection Hj as <-. by apply at_rest_Good.
  - apply (I4 j rj Hj). intros t Ht Hl. apply (Hc t Ht). apply list_elem_of_filter. split; [|done].
    intros Hti. apply Hne. by eapply I3.
Qed.
Lemma replica_step_Inv w w' : Inv w → step w w' → Inv w'.
Proof.
  intros HI Hs. destruct Hs as [w i r tok p r' Hi Hu Hup Hf Hg|w i r f ls s1 tok p r' Hi Hu Hup Hf Hc Hg|w i r p f rep tok p' r' s1 Hi Hu Hf Hr|
    w i r p f rep tok p' r' s1 Hi Hu Hf Hr|w i r j p f rep tok p' r' s1 Hi Hu Hf Hr|w i r n l f l' s1 Hi Hl Hr|w s1 He|w i r Hi Hrest].
  - pose proof (go_advances _ _ _ _ _ _ _ HI Hi Hf Hg) as Ha. apply (Inv_put _ i r); [done|done|].
    eapply advances_moves; [done|done|exact Ha|done|]. intros HG. destruct Ha as [A1 A2 A3 A4 _ _ A5].
    destruct (A5 (good_loops _ _ HG)) as [Hlo Hw]. pose proof (good_down _ _ HG Hu Hup) as Hre.
    destruct (Hw (ends true) false (wp_start _ _ _ (Good_J _ _ HG))) as (sp & Hwp & Hsl).
    eapply Good_call; [by rewrite A4; apply HG|done|done|by apply Hsl|done].
  - apply (Inv_put _ i r); [done|done|]. by eapply stop_moves.
  - pose proof (resume_advances _ _ _ _ _ _ _ _ _ _ HI Hi Hf Hr) as Ha. apply (Inv_put _ i r); [done|done|].
    eapply advances_moves; [done|done|exact Ha|done|]. intros HG. destruct Ha as [A1 A2 A3 A4 _ _ A5].
    destruct (A5 (good_loops _ _ HG)) as [Hlo Hw]. pose proof (good_tasks _ _ HG) as Ht. rewrite Hu in Ht.
    destruct (retrying r) eqn:Hre; [done|]. destruct Ht as [_ Ht].
    destruct (Hw _ _ Ht) as (sp & Hwp & Hsl). rewrite A2.
    eapply Good_call; [by rewrite A4; apply HG|done|done|by apply Hsl|done].
  - pose proof (resume_advances _ _ _ _ _ _ _ _ _ _ HI Hi Hf Hr) as Ha. apply (Inv_put _ i r); [done|done|].
    eapply advances_moves; [done|done|exact Ha|by destruct p' as [[]|?|?|? ?|?|?|?|? ?]|]. intros HG. destruct Ha as [A1 A2 A3 A4 _ _ A5].
    destruct (A5 (good_loops _ _ HG)) as [Hlo Hw]. pose proof (good_tasks _ _ HG) as Ht. rewrite Hu in Ht.
    destruct (user r) eqn:Hus; [done|].
    assert (wp p holds false (st r) (tokens r) (val (server w))) as Hp by (destruct Ht as [[-> HJ]|[_ Hp]]; [by apply wp_retry_turn|done]).
    destruct (Hw _ _ Hp) as (sp & Hwp & _).
    eapply Good_retried; [by rewrite A4; apply HG|done|done|done| |exact Hwp].
    rewrite A2. destruct (up r) eqn:Hup; [done|]. by rewrite (good_down _ _ HG Hus Hup) in Hu.
  - pose proof (resume_advances _ _ _ _ _ _ _ _ _ _ HI Hi Hf Hr) as Ha. apply (Inv_put _ i r); [done|done|].
    eapply advances_moves; [done|done|exact Ha|done|]. intros HG. by rewrite (good_losing _ _ HG) in Hu.
  - apply (Inv_put _ i r); [done|done|]. by eapply renew_moves.
  - by apply Inv_elapse.
  - by eapply Inv_settle.
Qed.
Lemma start_Inv s elections : Inv (start_world s elections).
Proof.
  assert (∀ i r, replicas (start_world s elections) !! i = Some r → ∃ b, r = new_replica b) as Hr.
  { intros i r. cbn. rewrite list_lookup_fmap. destruct (elections !! i) as [b|]; cbn; [intros [= <-]; by exists b|done]. }
  split.
  - intros i r (b & ->)%Hr l ?%elem_of_nil. done.
  - intros i r (b & ->)%Hr. constructor.
  - intros i j ri rj t (b & ->)%Hr _ ?%elem_of_nil. done.
  - intros i r (b & ->)%Hr _. apply at_rest_Good. split_and!; try done; [by intros l ?%elem_of_nil|by left].
Qed.
Lemma leads w i r : Inv w → replicas w !! i = Some r → subscriptions (st r) ≠ [] → redis_enabled (st r) = true → clean w r →
  ∃ n l, lease (st r) = Some n ∧ own r !! n = Some l ∧ val (server w) = Some (token (lease_lock l)).
Proof.
  intros HI Hi Hs He Hc. destruct (Good_J _ _ (inv_good w HI i r Hi Hc) Hs He) as (n & t & Hn & Ht & Hv).
  unfold tokens in Ht. rewrite list_lookup_fmap in Ht. destruct (own r !! n) as [l|] eqn:Hl; [|done]. injection Ht as <-.
  by exists n, l.
Qed.
(** A renewal that finds the lease gone. *)
Lemma renewal_finds_out l s : keyed l → task l = Some Redis.running → val s ≠ Some (token (lease_lock l)) →
  ∃ l', renew_turn no_fault (l, s) = (l', s) ∧ lease_held l' = false ∧ task l' = Some (ended None) ∧
    on_lost_calls l' ≠ on_lost_calls l.
Proof.
  intros [Hk Ho] Ht Hv. unfold renew_turn, extend, command. rewrite Ht.
  pose proof (compare_and_pexpire_ok s (lock_key (lease_lock l)) (token (lease_lock l)) _ (ttl_ms_pos (lease_ttl l))) as Hx.
  rewrite Hk in Hx. rewrite decide_False in Hx by done.
  destruct (held (lease_lock l)); cbn; rewrite ?Hk, ?Hx; cbn; rewrite Ho; eexists; (split; [done|]); unfold lease_held; cbn;
    rewrite ?andb_false_r; split_and!; try done; lia.
Qed.

(** There are always tokens to draw. *)
Lemma fresh_tokens_exist w : ∃ tok, fresh_tokens w tok.
Proof.
  set (used := foldr String.append EmptyString (List.concat (tokens <$> replicas w))).
  assert (∀ l t, t ∈ l → (String.length t ≤ String.length (foldr String.append EmptyString l))%nat) as Hlen.
  { induction l as [|x l IH]; intros t; [by intros ?%not_elem_of_nil|].
    intros [->|Ht]%elem_of_cons; cbn; rewrite append_length; [|specialize (IH t Ht)]; lia. }
  exists (λ n, used +:+ ("-" +:+ pretty n)). split.
  - intros n m Heq. apply append_inj_l in Heq. injection Heq as Heq. by apply (inj pretty).
  - intros r n Hr Ht. assert (used +:+ ("-" +:+ pretty n) ∈ List.concat (tokens <$> replicas w)) as Hin.
    { apply list_elem_of_In, in_concat. exists (tokens r). split; apply list_elem_of_In; [by apply list_elem_of_fmap_2|done]. }
    apply Hlen in Hin. rewrite !append_length in Hin. fold used in Hin. cbn in Hin. lia.
Qed.
(** The retry task goes on, with tokens that nobody has. *)
Lemma retry_goes_on w i r p rep : replicas w !! i = Some r → retrying r = Some p →
  ∃ w' tok, runs step w w' ∧
    let '(p', r', s') := resume no_fault rep tok p r (server w) in replicas w' !! i = Some (retried p' r') ∧ server w' = s'.
Proof.
  intros Hi Hr. destruct (fresh_tokens_exist w) as [tok Hf]. destruct (resume no_fault rep tok p r (server w)) as [[p' r'] s'] eqn:Hres.
  exists (put i (retried p' r') s' w), tok. split; [apply runs_one; by eapply step_retry|]. rewrite Hres.
  split; [|done]. cbn. apply list_lookup_insert_eq. by eapply lookup_lt_Some.
Qed.
Lemma make_lease_acquired tok s : val s = None → ∃ s1, val s1 = Some tok ∧
  lease_acquire no_fault (make_lease tok, s) =
    (Ok true, (Redis.set_lease (make_lease tok) (set_held (lease_lock (make_lease tok)) true) (Some Redis.running) false 0, s1)).
Proof.
  intros Hv. pose proof (set_nx_px_ok s lease_key tok _ (ttl_ms_pos leader_ttl_seconds)) as Hs. rewrite Hv in Hs.
  destruct Hs as (s1 & Hs & Hk). exists s1. split; [by rewrite Hk, decide_True|].
  unfold lease_acquire, acquire, command. cbn. by rewrite Hs.
Qed.
(** A lease that nobody holds is taken by the next replica that wakes up, when
    the calls it makes do not fail. *)
Lemma a_free_lease_is_taken w i r subs :
  replicas w !! i = Some r → retrying r = Some asleep → redis_enabled (st r) = true → redis (st r) = redis_connected →
  stopping (st r) = false → subscriptions (st r) = [] → val (server w) = None →
  ∃ w' r' l, runs step w w' ∧ replicas w' !! i = Some r' ∧ subscriptions (st r') = subs ∧ started (st r') = true ∧
    lease (st r') = Some (length (own r)) ∧ own r' !! length (own r) = Some l ∧ lease_held l = true ∧
    task l = Some Redis.running ∧ val (server w') = Some (token (lease_lock l)).
Proof.
  intros Hi Hr He Hred Hst Hs Hv.
  destruct (retry_goes_on w i r _ fine Hi Hr) as (w1 & tok & R1 & H1).
  unfold asleep, resume, answer in H1. cbn in H1. rewrite Hst, Hs in H1. cbn in H1. unfold start_once in H1. cbn in H1. rewrite Hs, He, Hred in H1. cbn in H1.
  destruct H1 as [Hi1 Hs1].
  destruct (retry_goes_on w1 i _ _ fine Hi1 eq_refl) as (w2 & tok2 & R2 & H2).
  destruct (make_lease_acquired (tok (length (own r))) (server w) Hv) as (s1 & Hv1 & Hacq).
  cbn in H2. unfold answer in H2. rewrite list_lookup_middle in H2 by done. rewrite Hs1, Hacq in H2. unfold start_runtime in H2. cbn in H2.
  destruct H2 as [Hi2 Hs2].
  destruct (retry_goes_on w2 i _ _ fine Hi2 eq_refl) as (w3 & tok3 & R3 & Hi3 & Hs3).
  destruct (retry_goes_on w3 i _ _ (made subs) Hi3 eq_refl) as (w4 & tok4 & R4 & Hi4 & Hs4).
  destruct (retry_goes_on w4 i _ _ fine Hi4 eq_refl) as (w5 & tok5 & R5 & Hi5 & Hs5).
  cbn in Hi5, Hs3, Hs4, Hs5. eexists w5, _, _.
  split; [eapply runs_trans; [exact R1|eapply runs_trans; [exact R2|eapply runs_trans; [exact R3|by eapply runs_trans]]]|].
  split; [exact Hi5|]. cbn. rewrite Hs5, Hs4, Hs3, Hs2. do 3 (split; [done|]).
  split; [apply list_lookup_insert_eq; rewrite length_app; cbn; lia|]. done.
Qed.

End replicas.

(** ** Two replicas, and one whose lease expires while it starts *)

(** A schedule as a list of commands, each with the first letter of the tokens
    it may draw; the commands to Redis do not fail. *)
Definition letter_tokens (c : ascii) (n : nat) : string := String c (pretty n).
#[local] Instance letter_tokens_inj c : Inj (=) (=) (letter_tokens c).
Proof. intros n m [= H]. by apply (inj pretty). Qed.
Inductive Command :=
  | starts (i : nat) | goes_on (i : nat) (rep : Reply) | retries (i : nat) (rep : Reply) | loses (i : nat) (rep : Reply)
  | renews (i n : nat) | time_passes (ms : Z).

Section schedule.
Context (lease_key : string) (leader_ttl_seconds : Q).
Abbreviation step := (step (Srv := store) lease_key leader_ttl_seconds).
Abbreviation resume := (resume (Srv := store) lease_key leader_ttl_seconds no_fault).
Definition unused (c : ascii) (w : World (Srv := store)) : bool :=
  forallb (λ r, forallb (λ t, match t with String d _ => negb (Ascii.eqb d c) | EmptyString => true end) (tokens r)) (replicas w).
Lemma unused_fresh c w : unused c w = true → fresh_tokens w (letter_tokens c).
Proof.
  unfold unused. intros Hu. split; [apply _|]. intros r n Hr Ht. rewrite forallb_True' in Hu.
  specialize (Hu r Hr). cbn in Hu. rewrite forallb_True' in Hu. specialize (Hu _ Ht). cbn in Hu. by rewrite Ascii.eqb_refl in Hu.
Qed.
Definition after (c : ascii) (cmd : Command) (w : World (Srv := store)) : option (World (Srv := store)) :=
  guard (unused c w = true);;
  let tok := letter_tokens c in
  match cmd with
  | starts i =>
      r ← replicas w !! i;
      match user r, up r with
      | None, false => let '(p, r') := go lease_key leader_ttl_seconds tok start r in
                       Some (put i (with_user true (unfinished p) r') (server w) w)
      | _, _ => None
      end
  | goes_on i rep =>
      r ← replicas w !! i; p ← user r;
      let '(p', r', s') := resume rep tok p r (server w) in Some (put i (with_user (up r') (unfinished p') r') s' w)
  | retries i rep =>
      r ← replicas w !! i; p ← retrying r;
      let '(p', r', s') := resume rep tok p r (server w) in Some (put i (retried p' r') s' w)
  | loses i rep =>
      r ← replicas w !! i; p ← losing r !! 0%nat;
      let '(p', r', s') := resume rep tok p r (server w) in
      Some (put i (with_losing (match unfinished p' with Some p' => <[0%nat := p']> (losing r') | None => delete 0%nat (losing r') end) r') s' w)
  | renews i n =>
      r ← replicas w !! i; l ← own r !! n;
      let '(l', s') := renew_turn no_fault (l, server w) in
      Some (put i (with_losing (if decide (on_lost_calls l' = on_lost_calls l) then losing r else on_lease_lost :: losing r)
                               (with_own (<[n := l']> (own r)) r)) s' w)
  | time_passes ms =>
      guard (0 <= ms)%Z;;
      let s' := {| now_ms := now_ms (server w) + ms; data := data (server w) |} in
      Some {| server := s'; replicas := replicas w; lapsed := expired lease_key (server w) s' ++ lapsed w |}
  end.
Fixpoint schedule (cs : list (ascii * Command)) (w : World (Srv := store)) : option (World (Srv := store)) :=
  match cs with [] => Some w | (c, cmd) :: cs => w ← after c cmd w; schedule cs w end.
#[local] Arguments renew_turn : simpl never.
Lemma after_step c cmd w w' : after c cmd w = Some w' → step w w'.
Proof.
  unfold after. case_guard as Hu; cbn; [|done]. apply unused_fresh in Hu. destruct cmd as [i|i rep|i rep|i rep|i n|ms].
  - destruct (replicas w !! i) as [r|] eqn:Hi; cbn; [|done]. destruct (user r) eqn:Hus; [done|]. destruct (up r) eqn:Hup; [done|].
    destruct (go _ _ _ _ _) as [p r'] eqn:Hg. intros [= <-]. by eapply step_start.
  - destruct (replicas w !! i) as [r|] eqn:Hi; cbn; [|done]. destruct (user r) as [p|] eqn:Hus; cbn; [|done].
    destruct (Leadership.resume _ _ _ _ _ _ _ _) as [[p' r'] s'] eqn:Hg. intros [= <-]. by eapply step_user.
  - destruct (replicas w !! i) as [r|] eqn:Hi; cbn; [|done]. destruct (retrying r) as [p|] eqn:Hus; cbn; [|done].
    destruct (Leadership.resume _ _ _ _ _ _ _ _) as [[p' r'] s'] eqn:Hg. intros [= <-]. by eapply step_retry.
  - destruct (replicas w !! i) as [r|] eqn:Hi; cbn; [|done]. destruct (losing r !! 0%nat) as [p|] eqn:Hus; cbn; [|done].
    destruct (Leadership.resume _ _ _ _ _ _ _ _) as [[p' r'] s'] eqn:Hg. intros [= <-]. by eapply step_lost.
  - destruct (replicas w !! i) as [r|] eqn:Hi; cbn; [|done]. destruct (own r !! n) as [l|] eqn:Hl; cbn; [|done].
    destruct (renew_turn no_fault (l, server w)) as [l' s'] eqn:Hr. intros [= <-]. by eapply step_renew.
  - case_guard; cbn; [|done]. intros [= <-]. apply step_elapse. by split; [cbn; lia|].
Qed.
#[local] Arguments after : simpl never.
Lemma schedule_runs cs : ∀ w w', schedule cs w = Some w' → runs step w w'.
Proof.
  induction cs as [|[c cmd] cs IH]; intros w w'; cbn; [intros H; injection H as <-; constructor|].
  destruct (after c cmd w) as [w1|] eqn:Ha; cbn; [|done]. intros Hs. eapply runs_trans; [apply runs_one; by eapply after_step|by apply IH].
Qed.
End schedule.

Abbreviation demo_run := (schedule "billing:leader" 30).
(** Both replicas start; the second one finds the lease taken. *)
Definition election : list (ascii * Command) :=
  [("-", starts 0); ("a", goes_on 0 fine); ("-", goes_on 0 fine); ("-", starts 1); ("b", goes_on 1 fine); ("-", goes_on 0 fine);
   ("-", goes_on 1 fine); ("-", goes_on 0 (made [7%nat])); ("-", goes_on 0 fine)]%char.
Definition two : World := start_world empty_store [true; true].
Definition elected : World := default two (demo_run election two).
Definition serving (w : World (Srv := store)) : list bool := (λ r, negb (Nat.eqb (length (subscriptions (st r))) 0)) <$> replicas w.
Definition leader : Replica := match replicas elected with r :: _ => r | [] => new_replica true end.
Lemma elected_reached : runs (step "billing:leader" 30) two elected.
Proof.
  apply (schedule_runs _ _ election). unfold elected.
  destruct (demo_run election two) as [w|] eqn:He; [done|by vm_compute in He].
Qed.

(** A lease that expires while [start] is making the subscriptions: the task
    of the lost lease closes the runtime under it, [start] then notes its
    subscriptions and succeeds.  The listener has subscriptions, on a client
    that is closed, and no lease; no task is left, starting again does nothing
    and the retry task ends. *)
Definition stranding : list (ascii * Command) :=
  [("-", starts 0); ("a", goes_on 0 fine); ("-", goes_on 0 fine); ("-", goes_on 0 fine); ("-", time_passes 30000); ("-", renews 0 0);
   ("-", loses 0 fine); ("-", goes_on 0 (made [7%nat])); ("-", goes_on 0 fine); ("-", loses 0 fine); ("-", loses 0 fine);
   ("-", retries 0 fine); ("-", retries 0 fine)]%char.
Definition alone_replica : World := start_world empty_store [true].
Definition stranded : World := default alone_replica (demo_run stranding alone_replica).
Lemma a_lease_lost_during_start_strands_the_listener :
  runs (step "billing:leader" 30) alone_replica stranded ∧ ∃ r, replicas stranded = [r] ∧
    subscriptions (st r) = [7%nat] ∧ client (st r) = false ∧ lease (st r) = None ∧ up r = true ∧ stopping (st r) = false ∧
    user r = None ∧ retrying r = None ∧ losing r = [] ∧ ∀ a, alone a start_once (st r) = (Ok true, st r).
Proof.
  split.
  - apply (schedule_runs _ _ stranding). unfold stranded. destruct (demo_run stranding alone_replica) as [w|] eqn:He; [done|by vm_compute in He].
  - eexists. split; [vm_compute; reflexivity|]. split_and!; try done.
Qed.
End Leadership.
