(* ===== verification/Handlers.v ===== *)
(** * grpc/handlers.py: wrapping a handler without changing its kind

    A call is a state ([Call]): what the servicer reads and writes outside of
    it ([ambient]: context variables, metrics), the metadata it arrived with,
    the messages it sent, and what was done to its context.  A servicer is a computation on it; its execution
    model (coroutine or plain function) is a flag.  An exception that is thrown
    into a running servicer (a cancellation, a closed generator) is one that
    its computation raises. *)

From S2P Require Import Prelude PyStr.

(** The status codes of gRPC. *)
Inductive Code :=
  | OK | CANCELLED | UNKNOWN | INVALID_ARGUMENT | DEADLINE_EXCEEDED | NOT_FOUND
  | ALREADY_EXISTS | PERMISSION_DENIED | UNAUTHENTICATED | RESOURCE_EXHAUSTED
  | FAILED_PRECONDITION | ABORTED | OUT_OF_RANGE | UNIMPLEMENTED | INTERNAL
  | UNAVAILABLE | DATA_LOSS.
#[export] Instance Code_eq_dec : EqDecision Code.
Proof. solve_decision. Defined.

#[local] Open Scope se_scope.

Module Handlers.

(** [AbortError] is what [context.abort] raises. *)
Inductive Exn (E : Type) := AbortError | Raised (e : E).
Arguments AbortError {E}.
Arguments Raised {E} e.

Record Call (Amb Resp : Type) := {
  ambient : Amb; metadata : option (list (string * string));
  sent : list Resp; aborted : option (Code * string);
  code_set : option Code; details_set : option string }.
Arguments ambient {Amb Resp}.
Arguments metadata {Amb Resp}.
Arguments sent {Amb Resp}.
Arguments aborted {Amb Resp}.
Arguments code_set {Amb Resp}.
Arguments details_set {Amb Resp}.

(** What a library raises by itself: calling something that is not callable,
    aborting a call twice. *)
Class LibraryErrors (E : Type) := { type_error : E; usage_error : E }.

Section handlers.
Context {Req Resp E Amb Codec : Type} `{LibraryErrors E}.
Abbreviation M := (SE (Call Amb Resp) (Exn E)).

Definition with_ambient (f : Amb → Amb) (c : Call Amb Resp) : Call Amb Resp :=
  {| ambient := f (ambient c); metadata := metadata c; sent := sent c; aborted := aborted c;
     code_set := code_set c; details_set := details_set c |}.
Definition with_abort (st : Code * string) (c : Call Amb Resp) : Call Amb Resp :=
  {| ambient := ambient c; metadata := metadata c; sent := sent c; aborted := Some st;
     code_set := code_set c; details_set := details_set c |}.
Definition with_status (st : Code * string) (c : Call Amb Resp) : Call Amb Resp :=
  {| ambient := ambient c; metadata := metadata c; sent := sent c; aborted := aborted c;
     code_set := Some st.1; details_set := Some st.2 |}.

(** [await context.abort(code, details)] *)
Definition abort (st : Code * string) : M unit := λ c,
  match aborted c with
  | None => (Raise AbortError, with_abort st c)
  | Some _ => (Raise (Raised usage_error), c)
  end.
Definition on_ambient (f : Amb → Amb) : M unit := se_modify (with_ambient f).

(** A servicer returns one response, or [None] when it streams. *)
Record Servicer := { is_async : bool; run : Req → M (option Resp) }.
Record MethodHandler := {
  request_streaming : bool; response_streaming : bool;
  request_deserializer : Codec; response_serializer : Codec;
  unary_unary : option Servicer; unary_stream : option Servicer;
  stream_unary : option Servicer; stream_stream : option Servicer }.

Definition stream_stream_rpc_method_handler (b : Servicer) (d s : Codec) : MethodHandler :=
  {| request_streaming := true; response_streaming := true; request_deserializer := d;
     response_serializer := s; unary_unary := None; unary_stream := None;
     stream_unary := None; stream_stream := Some b |}.
Definition stream_unary_rpc_method_handler (b : Servicer) (d s : Codec) : MethodHandler :=
  {| request_streaming := true; response_streaming := false; request_deserializer := d;
     response_serializer := s; unary_unary := None; unary_stream := None;
     stream_unary := Some b; stream_stream := None |}.
Definition unary_stream_rpc_method_handler (b : Servicer) (d s : Codec) : MethodHandler :=
  {| request_streaming := false; response_streaming := true; request_deserializer := d;
     response_serializer := s; unary_unary := None; unary_stream := Some b;
     stream_unary := None; stream_stream := None |}.
Definition unary_unary_rpc_method_handler (b : Servicer) (d s : Codec) : MethodHandler :=
  {| request_streaming := false; response_streaming := false; request_deserializer := d;
     response_serializer := s; unary_unary := Some b; unary_stream := None;
     stream_unary := None; stream_stream := None |}.

Definition factory (handler : MethodHandler) : Servicer → Codec → Codec → MethodHandler :=
  if request_streaming handler && response_streaming handler then stream_stream_rpc_method_handler
  else if request_streaming handler then stream_unary_rpc_method_handler
  else if response_streaming handler then unary_stream_rpc_method_handler
  else unary_unary_rpc_method_handler.

Definition first_of {A} (a b : option A) : option A := match a with Some _ => a | None => b end.
Definition behaviour (handler : MethodHandler) : option Servicer :=
  first_of (unary_unary handler) (first_of (unary_stream handler)
    (first_of (stream_unary handler) (stream_stream handler))).

Definition rebuild (handler : MethodHandler) (new_behaviour : Servicer) : MethodHandler :=
  factory handler new_behaviour (request_deserializer handler) (response_serializer handler).

(** [_end_sync]: [set_code] and [set_details] on the layer's [_SyncContext],
    which passes both on to the call's own context. *)
Definition end_sync (st : Code * string) : M unit := se_modify (with_status st).

Definition Enter : Type := M (option (option (Exn E) → M unit)).
Definition OnError : Type := E → option (Code * string).

Definition start (enter : option Enter) : Enter :=
  match enter with Some f => f | None => se_ret None end.
Definition status (on_error : option OnError) (error : Exn E) : option (Code * string) :=
  match on_error, error with
  | Some f, Raised e => f e
  | _, _ => None
  end.
(** The [finally] clause: an exception of [end] replaces the outcome. *)
Definition finish {A} (end_ : option (option (Exn E) → M unit)) (failure : option (Exn E))
    (r : result (Exn E) A) : M A := λ c,
  match end_ with
  | None => (r, c)
  | Some f =>
      match f failure c with
      | (Ok _, c') => (r, c')
      | (Raise e, c') => (Raise e, c')
      end
  end.

(** [_async_stream] and [_async_single] *)
Definition async_wrapped (enter : option Enter) (on_error : option OnError)
    (inner : Req → M (option Resp)) (request : Req) : M (option Resp) :=
  let* end_ := start enter in λ c,
  match inner request c with
  | (Ok a, c1) => finish end_ None (Ok a) c1
  | (Raise error, c1) =>
      match status on_error error with
      | None => finish end_ (Some error) (Raise error) c1
      | Some st =>
          match abort st c1 with
          | (Raise e, c2) => finish end_ (Some error) (Raise e) c2
          | (Ok _, c2) => finish end_ (Some error) (Raise error) c2
          end
      end
  end.

(** [_sync_stream] and [_sync_single]: the failure that a status was given
    for is not reported to [end]. *)
Definition sync_wrapped (enter : option Enter) (on_error : option OnError)
    (inner : Req → M (option Resp)) (request : Req) : M (option Resp) :=
  let* end_ := start enter in λ c,
  match inner request c with
  | (Ok a, c1) => finish end_ None (Ok a) c1
  | (Raise error, c1) =>
      match status on_error error with
      | None => finish end_ (Some error) (Raise error) c1
      | Some st =>
          match end_sync st c1 with
          | (Ok _, c2) => finish end_ None (Ok None) c2
          | (Raise e, c2) => finish end_ None (Raise e) c2
          end
      end
  end.

(** A handler without a behaviour is [None], which is plain and not callable. *)
Definition not_callable : Servicer :=
  {| is_async := false; run := λ _, se_raise (Raised type_error) |}.

Definition wrap (enter : option Enter) (on_error : option OnError) (handler : MethodHandler)
    : MethodHandler :=
  let inner := default not_callable (behaviour handler) in
  rebuild handler
    {| is_async := is_async inner;
       run := (if is_async inner then async_wrapped else sync_wrapped) enter on_error (run inner) |}.

(** ** What wrapping keeps *)

(** A handler as grpc's constructors build them: one behaviour, in the slot
    of its kind. *)
Definition well_formed (h : MethodHandler) (s : Servicer) : Prop :=
  h = factory h s (request_deserializer h) (response_serializer h).
Definition same_kind (h h' : MethodHandler) : Prop :=
  request_streaming h' = request_streaming h ∧ response_streaming h' = response_streaming h ∧
  request_deserializer h' = request_deserializer h ∧ response_serializer h' = response_serializer h.

Lemma behaviour_factory h s d c : behaviour (factory h s d c) = Some s.
Proof. unfold factory. by repeat case_match. Qed.
Lemma behaviour_well_formed h s : well_formed h s → behaviour h = Some s.
Proof. intros ->. apply behaviour_factory. Qed.
Lemma same_kind_rebuild h s : same_kind h (rebuild h s).
Proof.
  unfold same_kind, rebuild, factory.
  by destruct (request_streaming h) eqn:?, (response_streaming h) eqn:?.
Qed.
Lemma same_kind_refl h : same_kind h h.
Proof. done. Qed.
Lemma same_kind_trans h1 h2 h3 : same_kind h1 h2 → same_kind h2 h3 → same_kind h1 h3.
Proof. unfold same_kind. intuition congruence. Qed.
Lemma well_formed_rebuild h s : well_formed (rebuild h s) s.
Proof.
  unfold well_formed, rebuild, factory.
  by destruct (request_streaming h) eqn:?, (response_streaming h) eqn:?.
Qed.
Lemma wrap_well_formed enter on_error h s : well_formed h s →
  well_formed (wrap enter on_error h)
    {| is_async := is_async s;
       run := (if is_async s then async_wrapped else sync_wrapped) enter on_error (run s) |}.
Proof.
  intros Hw. unfold wrap. rewrite (behaviour_well_formed _ _ Hw). apply well_formed_rebuild.
Qed.
Lemma same_kind_wrap enter on_error h : same_kind h (wrap enter on_error h).
Proof. apply same_kind_rebuild. Qed.
End handlers.
Arguments Servicer : clear implicits.
Arguments MethodHandler : clear implicits.

(** ** A stack of wrappers

    What interceptors do: each layer notes that the call entered it and, at
    its end, what it ended on, and may judge an exception.  The outermost
    layer comes first. *)

Section layers.
Context {Req Resp E Codec : Type} `{LibraryErrors E}.
Inductive Event := entered (layer : nat) | ended (layer : nat) (failure : option (Exn E)).
Abbreviation M := (SE (Call (list Event) Resp) (Exn E)).
Abbreviation Handler := (MethodHandler Req Resp E (list Event) Codec).

Record Layer := { layer_id : nat; judges : option (E → option (Code * string)) }.
Definition note (e : Event) : M unit := on_ambient (λ log, log ++ [e]).
Definition noting (l : Layer) : Enter :=
  do* note (entered (layer_id l)) in
  se_ret (Some (λ failure, note (ended (layer_id l) failure))).
Definition stack (ls : list Layer) (h : Handler) : Handler :=
  foldr (λ l h', wrap (Some (noting l)) (judges l) h') h ls.

(** The status of the innermost layer that recognises the exception. *)
Fixpoint judged (ls : list Layer) (e : E) : option (Code * string) :=
  match ls with
  | [] => None
  | l :: ls' => first_of (judged ls' e) (match judges l with Some f => f e | None => None end)
  end.

Definition enter_all (ls : list Layer) (c : Call (list Event) Resp) : Call (list Event) Resp :=
  with_ambient (λ log, log ++ (entered ∘ layer_id <$> ls)) c.
(** Each layer is left once, the innermost first. *)
Definition left_with (ls : list Layer) (fs : list (option (Exn E))) : list Event :=
  zip_with (λ l f, ended (layer_id l) f) (reverse ls) fs.

(** What the call ends in, for each outcome of the servicer. *)
Definition ends_as (async : bool) (ls : list Layer) (r : result (Exn E) (option Resp))
    (c1 : Call (list Event) Resp) (r' : result (Exn E) (option Resp))
    (c' : Call (list Event) Resp) (fs : list (option (Exn E))) : Prop :=
  match r with
  | Ok a => r' = Ok a ∧ aborted c' = aborted c1 ∧ code_set c' = code_set c1 ∧
      details_set c' = details_set c1 ∧ Forall (λ f, f = None) fs
  | Raise AbortError => r' = Raise AbortError ∧ aborted c' = aborted c1 ∧
      Forall (λ f, f = Some AbortError) fs
  | Raise (Raised e) =>
      match judged ls e with
      | None => r' = Raise (Raised e) ∧ aborted c' = aborted c1 ∧ code_set c' = code_set c1 ∧
          details_set c' = details_set c1 ∧ Forall (λ f, f = Some (Raised e)) fs
      | Some (code, text) =>
          if async then r' = Raise AbortError ∧ aborted c' = Some (code, text) ∧
            Forall (λ f, f ≠ None) fs
          else r' = Ok None ∧ aborted c' = aborted c1 ∧ code_set c' = Some code ∧
            details_set c' = Some text ∧ last fs = Some None
      end
  end.

(** Leaving one more layer. *)
Definition leave (l : Layer) (f : option (Exn E)) (c : Call (list Event) Resp) :
    Call (list Event) Resp :=
  with_ambient (λ log, log ++ [ended (layer_id l) f]) c.
Lemma finish_noting {A} l f (r : result (Exn E) A) c :
  finish (Some (λ failure, note (ended (layer_id l) failure))) f r c = (r, leave l f c).
Proof. done. Qed.
Lemma wrapped_noting (async : bool) l on_error (inner : Req → M (option Resp)) request c r c1 :
  inner request (with_ambient (λ log, log ++ [entered (layer_id l)]) c) = (r, c1) →
  (if async then async_wrapped else sync_wrapped) (Some (noting l)) on_error inner request c =
  match r with
  | Ok a => (Ok a, leave l None c1)
  | Raise error =>
      match status on_error error with
      | None => (Raise error, leave l (Some error) c1)
      | Some st =>
          if async then
            match abort st c1 with
            | (Raise e, c2) => (Raise e, leave l (Some error) c2)
            | (Ok _, c2) => (Raise error, leave l (Some error) c2)
            end
          else (Ok None, leave l None (with_status st c1))
      end
  end.
Proof.
  intros Hin. destruct async; unfold async_wrapped, sync_wrapped, se_bind; cbn;
    rewrite Hin; destruct r as [a|error]; [done| |done|]; destruct (status on_error error) as [st|]; try done.
Qed.
Lemma left_with_cons l ls f fs : length fs = length ls →
  left_with (l :: ls) (fs ++ [f]) = left_with ls fs ++ [ended (layer_id l) f].
Proof.
  intros Hl. unfold left_with. rewrite reverse_cons, zip_with_app; [done|].
  by rewrite length_reverse.
Qed.
Lemma enter_all_cons l ls c :
  enter_all (l :: ls) c = enter_all ls (with_ambient (λ log, log ++ [entered (layer_id l)]) c).
Proof. unfold enter_all, with_ambient. cbn. by rewrite <-(assoc_L (++)). Qed.

Lemma leave_bracket l ls f fs (c1 c2 : Call (list Event) Resp) :
  length fs = length ls → ambient c2 = ambient c1 ++ left_with ls fs →
  ambient (leave l f c2) = ambient c1 ++ left_with (l :: ls) (fs ++ [f]).
Proof.
  intros Hl Ha. unfold leave, with_ambient; cbn [ambient]. rewrite Ha, left_with_cons by done.
  by rewrite (assoc_L (++)).
Qed.
Lemma leave_layer async l ls r (c1 c2 : Call (list Event) Resp) r1 fs :
  (∀ e, r = Raise (Raised e) → aborted c1 = None) →
  length fs = length ls → ambient c2 = ambient c1 ++ left_with ls fs → sent c2 = sent c1 →
  ends_as async ls r c1 r1 c2 fs →
  ∃ r' c' fs',
    match r1 with
    | Ok a => (Ok a, leave l None c2)
    | Raise error =>
        match status (judges l) error with
        | None => (Raise error, leave l (Some error) c2)
        | Some st =>
            if async then
              match abort st c2 with
              | (Raise e, c3) => (Raise e, leave l (Some error) c3)
              | (Ok _, c3) => (Raise error, leave l (Some error) c3)
              end
            else (Ok None, leave l None (with_status st c2))
        end
    end = (r', c') ∧ length fs' = S (length ls) ∧
    ambient c' = ambient c1 ++ left_with (l :: ls) fs' ∧ sent c' = sent c1 ∧
    ends_as async (l :: ls) r c1 r' c' fs'.
Proof.
  intros Hab Hl Ha Hs.
  assert (∀ f, length (fs ++ [f]) = S (length ls)) as Hl'.
  { intros f. rewrite length_app; cbn. lia. }
  assert (∀ P (f : option (Exn E)), Forall P fs → P f → Forall P (fs ++ [f])) as Hall.
  { intros P f ??. apply Forall_app. by repeat constructor. }
  assert (∀ st, ambient (with_abort st c2) = ambient c1 ++ left_with ls fs) as Ha' by done.
  assert (∀ st, ambient (with_status st c2) = ambient c1 ++ left_with ls fs) as Ha'' by done.
  pose proof (leave_bracket l ls) as Hbr.
  destruct r as [a|[|e]]; cbn [ends_as judged].
  - intros (-> & Hb & Hc & Hd & Hf). exists (Ok a), (leave l None c2), (fs ++ [None]). eauto 15.
  - intros (-> & Hb & Hf). exists (Raise AbortError), (leave l (Some AbortError) c2), (fs ++ [Some AbortError]).
    assert (status (judges l) AbortError = None) as -> by (by destruct (judges l)). eauto 15.
  - specialize (Hab e eq_refl). destruct (judged ls e) as [[code text]|]; cbn [first_of].
    + destruct async.
      * intros (-> & Hb & Hf). exists (Raise AbortError), (leave l (Some AbortError) c2), (fs ++ [Some AbortError]).
        assert (status (judges l) AbortError = None) as -> by (by destruct (judges l)).
        split_and!; eauto.
      * intros (-> & Hb & Hc & Hd & Hf). exists (Ok None), (leave l None c2), (fs ++ [None]).
        split_and!; eauto; by rewrite last_snoc.
    + intros (-> & Hb & Hc & Hd & Hf). rewrite Hab in Hb.
      assert (status (judges l) (Raised e) = match judges l with Some f => f e | None => None end) as ->
        by (by destruct (judges l)).
      destruct (match judges l with Some f => f e | None => None end) as [[code text]|].
      * destruct async.
        -- unfold abort. rewrite Hb.
           exists (Raise AbortError), (leave l (Some (Raised e)) (with_abort (code, text) c2)), (fs ++ [Some (Raised e)]).
           split_and!; eauto. apply Hall; [|done]. eapply Forall_impl; [done|]. by intros ? ->.
        -- exists (Ok None), (leave l None (with_status (code, text) c2)), (fs ++ [None]).
           split_and!; eauto; [by rewrite Hab|by rewrite last_snoc].
      * exists (Raise (Raised e)), (leave l (Some (Raised e)) c2), (fs ++ [Some (Raised e)]).
        rewrite Hab. split_and!; eauto.
Qed.
End layers.

(** C11: wrapping never changes what a handler is, and what the layers around
    it see is well bracketed.  For any stack of layers around any servicer of
    any kind: the kind, the codecs and the execution model are the
    servicer's own; the servicer runs once, after every layer was entered;
    every layer is left exactly once, the innermost first, also when the
    servicer fails; a response, an abort of the servicer's own and an
    exception no layer recognises pass through unchanged; and a recognised
    exception ends the call with the status of the innermost layer that
    recognises it, by an abort of a coroutine and by setting the status of a
    plain servicer's context, and is never judged again. *)
Theorem layers_keep_the_call {Req Resp E Codec : Type} `{LibraryErrors E} (ls : list (@Layer E))
    (h : MethodHandler Req Resp E (list Event) Codec) s :
  well_formed h s →
  ∃ s', well_formed (stack ls h) s' ∧ same_kind h (stack ls h) ∧ is_async s' = is_async s ∧
  ∀ request c r c1,
    run s request (enter_all ls c) = (r, c1) →
    (∀ e, r = Raise (Raised e) → aborted c1 = None) →
    ∃ r' c' fs, run s' request c = (r', c') ∧ length fs = length ls ∧
      ambient c' = ambient c1 ++ left_with ls fs ∧ sent c' = sent c1 ∧
      ends_as (is_async s) ls r c1 r' c' fs.
Proof.
  intros Hw. induction ls as [|l ls (s1 & Hw1 & Hk1 & Ha1 & IH)]; cbn [stack foldr].
  { exists s. split; [done|]. split; [done|]. split; [done|]. intros request c r c1 Hr Hab.
    exists r, c1, []. unfold enter_all, with_ambient in Hr. cbn in Hr. rewrite app_nil_r in Hr.
    destruct c; cbn in *. split; [done|]. split; [done|]. unfold left_with; cbn.
    rewrite app_nil_r. by destruct r as [a|[|e]]. }
  eexists. split; [by apply wrap_well_formed|]. split.
  { eapply same_kind_trans; [done|]. apply same_kind_wrap. }
  split; [done|]. intros request c r c1 Hr Hab. rewrite enter_all_cons in Hr.
  destruct (IH request _ r c1 Hr Hab) as (r1 & c2 & fs & Hr1 & Hfs & Hamb & Hsent & Hends).
  cbn [run]. rewrite (wrapped_noting _ _ _ _ _ _ _ _ Hr1). rewrite Ha1.
  by eapply leave_layer.
Qed.
#[local] Instance demo_errors : LibraryErrors nat := {| type_error := 0%nat; usage_error := 1%nat |}.
(** A streaming servicer that sends one message and fails, inside a layer
    that only watches and one that maps the failure. *)
Definition demo_servicer (async : bool) : Servicer nat nat nat (list (@Event nat)) :=
  {| is_async := async;
     run := λ request c,
       (Raise (Raised 7%nat),
        {| ambient := ambient c; metadata := metadata c; sent := sent c ++ [request]; aborted := aborted c;
           code_set := code_set c; details_set := details_set c |}) |}.
Definition demo_handler (async : bool) : MethodHandler nat nat nat (list (@Event nat)) bool :=
  unary_stream_rpc_method_handler (demo_servicer async) true false.
Definition demo_layers : list (@Layer nat) :=
  [{| layer_id := 1; judges := None |};
   {| layer_id := 2; judges := Some (λ e, if Nat.eqb e 7 then Some (NOT_FOUND, "missing"%string) else None) |}].
Definition demo_call : Call (list (@Event nat)) nat :=
  {| ambient := []; metadata := None; sent := []; aborted := None; code_set := None; details_set := None |}.

Lemma layers_keep_the_call_witness :
  well_formed (demo_handler true) (demo_servicer true) ∧
  (∃ s', well_formed (stack demo_layers (demo_handler true)) s' ∧
    (run s' 3%nat demo_call).1 = Raise AbortError ∧
    ambient (run s' 3%nat demo_call).2 =
      [entered 1; entered 2; ended 2 (Some (Raised 7%nat)); ended 1 (Some AbortError)]) ∧
  (∃ s', well_formed (stack demo_layers (demo_handler false)) s' ∧ is_async s' = false ∧
    code_set (run s' 3%nat demo_call).2 = Some NOT_FOUND).
Proof.
  split; [done|]. split.
  - destruct (layers_keep_the_call demo_layers (demo_handler true) (demo_servicer true) eq_refl)
      as (s' & Hw & _). exists s'. split; [done|].
    vm_compute in Hw. injection Hw as <-. by vm_compute.
  - destruct (layers_keep_the_call demo_layers (demo_handler false) (demo_servicer false) eq_refl)
      as (s' & Hw & _ & Ha & Hcall). exists s'. split; [done|]. split; [done|].
    destruct (Hcall 3%nat demo_call _ _ eq_refl ltac:(done)) as (r' & c' & fs & -> & _ & _ & _ & Hends).
    vm_compute in Hends. naive_solver.
Defined.
End Handlers.
