(* ===== verification/Authorization.v ===== *)
(** * grpc/authorization.py and grpc/interceptors.py: which caller may call which method

    The caller policy with its credentials, and the server interceptor that
    decides each call by the policy or by the platform token.  The state of a
    call that this file reads and writes outside the servicer is
    [current_caller].  UTF-8 maps different texts to different bytes, so the
    encoded secrets are compared as texts; the platform's token is compared as
    text by the code too, which [compare_digest] refuses unless it is ASCII. *)

From S2P Require Import Prelude PyStr PyDict Handlers.
#[local] Open Scope se_scope.

Module Authorization.
Import Handlers.

(** ** Patterns *)

Definition is_letter (c : ascii) : bool := is_upper_ascii c || is_lower_ascii c.
(** [\w]: letters, digits and the other numeric characters, underscore. *)
Definition word_char (c : ascii) : bool :=
  is_upper c || is_lower c || is_digit c || char_in "_" c ||
  in_range 178 179 c || (code c =? 185)%N || in_range 188 190 c.
Definition first_char (p : ascii → bool) (s : string) : bool :=
  match s with EmptyString => false | String c _ => p c end.
(** [_CALLER_NAME]: [[a-z0-9][a-z0-9-]*] *)
Definition caller_name (s : string) : bool :=
  first_char (λ c, is_lower_ascii c || is_digit c) s &&
  sall (λ c, is_lower_ascii c || is_digit c || char_in "-" c) s.
(** [[A-Za-z_]\w*] *)
Definition identifier (s : string) : bool :=
  first_char (λ c, is_letter c || char_in "_" c) s && sall word_char s.
(** [[A-Za-z_][\w.]*\.[A-Za-z_]\w*]: the dot is the last one, an identifier
    holds none. *)
Definition service_name (s : string) : bool :=
  first_char (λ c, is_letter c || char_in "_" c) s &&
  sall (λ c, word_char c || char_in "." c) s &&
  match reverse (split "." s) with
  | name :: _ :: _ => identifier name
  | _ => false
  end.
(** [_METHOD_PATH.fullmatch]: the groups. *)
Definition method_path (s : string) : option (string * string) :=
  match split "/" s with
  | [EmptyString; service; name] =>
      if service_name service && identifier name then Some (service, name) else None
  | _ => None
  end.

(** ** Credentials *)

Inductive CallerPolicyError :=
  | bad_caller_name (name : string)
  | blank_secret (name : string)
  | shared_secret (name other : string)
  | bad_method (method : string)
  | no_caller (method : string)
  | no_secret (method : string) (callers : list string)
  | not_served (method : string)
  | no_descriptor (method : string)
  | no_such_method (method : string).

Record CallerCredentials := { _entries : list (string * string) }.

(** The loop of [CallerCredentials.__init__]; [seen] maps a secret to its
    caller. *)
Fixpoint read_secrets (secrets : list (string * string)) (seen : list (string * string))
    (entries : list (string * string)) : result CallerPolicyError CallerCredentials :=
  match secrets with
  | [] => Ok {| _entries := entries |}
  | (name, secret) :: secrets' =>
      if negb (caller_name name) then Raise (bad_caller_name name)
      else if is_empty secret || negb (bool_decide (secret = strip secret)) then Raise (blank_secret name)
      else match dget seen secret with
           | Some other => Raise (shared_secret other name)
           | None => read_secrets secrets' (dset seen secret name) (entries ++ [(name, secret)])
           end
  end.
Definition caller_credentials (secrets : list (string * string)) :
    result CallerPolicyError CallerCredentials := read_secrets secrets [] [].

Definition names (c : CallerCredentials) : list string := (_entries c).*1.

(** [hmac.compare_digest] on bytes *)
Definition digest_eq (a b : string) : bool := bool_decide (a = b).
(** Every entry is compared, a later match replaces an earlier one. *)
Definition resolve (c : CallerCredentials) (presented : option string) : option string :=
  let candidate := default EmptyString presented in
  foldl (λ found e, if digest_eq candidate e.2 then Some e.1 else found) None (_entries c).

(** ** The policy *)

Inductive Verdict := admits | unauthenticated | permission_denied.
#[export] Instance Verdict_eq_dec : EqDecision Verdict.
Proof. solve_decision. Defined.
Record Decision := { verdict : Verdict; caller : option string }.

Record CallerPolicy := { _rules : list (string * list string); _callers : CallerCredentials }.

(** The loop of [CallerPolicy.__init__]. *)
Fixpoint read_rules (rules : list (string * list string)) (callers : CallerCredentials)
    (parsed : list (string * list string)) : result CallerPolicyError CallerPolicy :=
  match rules with
  | [] => Ok {| _rules := parsed; _callers := callers |}
  | (method, admitted) :: rules' =>
      if negb (bool_decide (is_Some (method_path method))) then Raise (bad_method method)
      else if bool_decide (admitted = []) then Raise (no_caller method)
      else
        let unknown := filter (λ n, n ∉ names callers) admitted in
        if bool_decide (unknown ≠ []) then Raise (no_secret method unknown)
        else read_rules rules' callers (dset parsed method admitted)
  end.
Definition caller_policy (rules : list (string * list string)) (callers : CallerCredentials) :
    result CallerPolicyError CallerPolicy := read_rules rules callers [].

Definition covers (p : CallerPolicy) (method : string) : bool := dmem (_rules p) method.

Inductive AuthError (E : Type) := key_error (method : string) | digest_type_error | verifier_failed (e : E).
Arguments key_error {E} method.
Arguments digest_type_error {E}.
Arguments verifier_failed {E} e.

Definition decide_call {E} (p : CallerPolicy) (method : string) (presented : option string) :
    result (AuthError E) Decision :=
  match resolve (_callers p) presented with
  | None => Ok {| verdict := unauthenticated; caller := None |}
  | Some c =>
      match dget (_rules p) method with
      | None => Raise (key_error method)
      | Some admitted =>
          if negb (bool_decide (c ∈ admitted))
          then Ok {| verdict := permission_denied; caller := Some c |}
          else Ok {| verdict := admits; caller := Some c |}
      end
  end.

(** [pool]: the methods of a service's descriptor, when it has one. *)
Definition check_served (pool : string → option (list string)) (p : CallerPolicy)
    (service_names : list string) : result CallerPolicyError unit :=
  foldr (λ rule rest,
    match method_path rule.1 with
    | None => Raise (bad_method rule.1)
    | Some (service, name) =>
        if negb (bool_decide (service ∈ service_names)) then Raise (not_served rule.1)
        else match pool service with
             | None => Raise (no_descriptor rule.1)
             | Some methods =>
                 if negb (bool_decide (name ∈ methods)) then Raise (no_such_method rule.1) else rest
             end
    end) (Ok tt) (_rules p).

(** ** Serving or refusing a call *)

Record HandlerCallDetails := {
  method : option string; invocation_metadata : option (list (string * string)) }.
(** [dict(metadata)]: the last of two equal keys counts. *)
Definition metadata_dict (d : HandlerCallDetails) : list (string * string) :=
  foldl (λ acc kv, dset acc kv.1 kv.2) [] (default [] (invocation_metadata d)).
Definition presented_token (d : HandlerCallDetails) : option string :=
  dget (metadata_dict d) "x-internal-token".

Section serving.
Context {Req Resp E Amb Codec : Type} `{LibraryErrors E}.
(** [current_caller] is a part of the ambient state. *)
Context `{current_caller : Lens Amb (option string)}.
Abbreviation Handler := (MethodHandler Req Resp E Amb Codec).
Abbreviation M := (SE (Call Amb Resp) (Exn E)).
(** The rest of the chain: the next interceptor, or the handler's lookup. *)
Definition Continuation : Type := HandlerCallDetails → result (AuthError E) (option Handler).

Definition refusing (handler : Handler) (code : Code) (details : string) : Handler :=
  rebuild handler
    {| is_async := true; run := λ _, do* abort (code, details) in se_ret None |}.

(** The context variable's token is its previous value. *)
Definition as_caller (handler : Handler) (name : string) : Handler :=
  let enter : Enter := λ c,
    let token := view (ambient c) in
    (Ok (Some (λ _, on_ambient (put token))), with_ambient (put (Some name)) c) in
  wrap (Some enter) None handler.

Definition refusal (v : Verdict) : Code * string :=
  match v with
  | permission_denied => (PERMISSION_DENIED, "this caller may not call this method"%string)
  | _ => (UNAUTHENTICATED, "unknown caller"%string)
  end.

Definition authorize_listed (policy : CallerPolicy) (continuation : Continuation)
    (details : HandlerCallDetails) : result (AuthError E) (option Handler) :=
  let m := default EmptyString (method details) in
  decision ← decide_call policy m (presented_token details);
  found ← continuation details;
  match found with
  | None => Ok None
  | Some handler =>
      match verdict decision, caller decision with
      | admits, Some name => Ok (Some (as_caller handler name))
      | v, _ => let '(code, text) := refusal v in Ok (Some (refusing handler code text))
      end
  end.

(** [AlternateTokenVerifier]: what it returns wraps the handler, [None]
    leaves the call refused; it may raise. *)
Definition Verifier : Type :=
  string → string → result E (option (option Handler → option Handler)).
Record InternalTokenInterceptor := {
  _token : option string; _policy : option CallerPolicy;
  _exempt_methods : list string; _alternate_verifier : option Verifier }.
Definition internal_token_interceptor (token : option string) (exempt : list string)
    (verifier : option Verifier) (policy : option CallerPolicy) : option InternalTokenInterceptor :=
  if is_empty (default EmptyString token) && match policy with None => true | Some _ => false end
  then None
  else Some {| _token := if is_empty (default EmptyString token) then None else token;
               _policy := policy; _exempt_methods := exempt; _alternate_verifier := verifier |}.

(** [hmac.compare_digest] on text: only ASCII text is compared. *)
Definition ascii_text (s : string) : bool := sall (λ c, (code c <? 128)%N) s.
Definition compare_digest (a b : string) : result (AuthError E) bool :=
  if ascii_text a && ascii_text b then Ok (digest_eq a b) else Raise digest_type_error.
Definition INVALID_TOKEN : string := "Invalid or missing internal token".
Definition refuse_token (handler : option Handler) : option Handler :=
  match handler with
  | None => None
  | Some h => Some (refusing h UNAUTHENTICATED INVALID_TOKEN)
  end.
Definition system_method (m : string) : bool :=
  contains "grpc.health" m || contains "grpc.reflection" m.

Definition platform_rule (cfg : InternalTokenInterceptor) (token : string)
    (continuation : Continuation) (details : HandlerCallDetails) : result (AuthError E) (option Handler) :=
  let m := default EmptyString (method details) in
  if system_method m then continuation details
  else if existsb (λ exempt, endswith exempt m) (_exempt_methods cfg) then continuation details
  else
    let received_token := presented_token details in
    same ← compare_digest (default EmptyString received_token) token;
    if negb same then
      match _alternate_verifier cfg, received_token with
      | Some verifier, Some received =>
          if is_empty received then found ← continuation details; Ok (refuse_token found)
          else match verifier m received with
               | Raise e => Raise (verifier_failed e)
               | Ok (Some admitted) => found ← continuation details; Ok (admitted found)
               | Ok None => found ← continuation details; Ok (refuse_token found)
               end
      | _, _ => found ← continuation details; Ok (refuse_token found)
      end
    else continuation details.

Definition intercept_service (cfg : InternalTokenInterceptor)
    (continuation : Continuation) (details : HandlerCallDetails) : result (AuthError E) (option Handler) :=
  let m := default EmptyString (method details) in
  match _policy cfg with
  | Some p =>
      if covers p m then authorize_listed p continuation details
      else match _token cfg with
           | None => continuation details
           | Some token => platform_rule cfg token continuation details
           end
  | None =>
      match _token cfg with
      | None => continuation details
      | Some token => platform_rule cfg token continuation details
      end
  end.
End serving.

(** [InternalTokenClientInterceptor]: the token goes after the call's own
    metadata. *)
Definition client_metadata (token : string) (metadata : option (list (string * string))) :
    list (string * string) :=
  default [] metadata ++ [("x-internal-token"%string, token)].

(** ** Credentials name one caller *)

Definition entries_ok (seen entries : list (string * string)) : Prop :=
  wf seen ∧ (∀ n s, (n, s) ∈ entries ↔ dget seen s = Some n) ∧ ∀ n s, (n, s) ∈ entries → s ≠ EmptyString.
Lemma entries_ok_snoc seen entries name secret :
  entries_ok seen entries → dget seen secret = None → is_empty secret = false →
  entries_ok (dset seen secret name) (entries ++ [(name, secret)]).
Proof.
  intros (Hwf & Hiff & Hpos) Hseen Hne. split; [by apply wf_dset|]. split.
  - intros n s. rewrite elem_of_app, list_elem_of_singleton, Hiff. destruct (decide (s = secret)) as [->|Hs].
    + rewrite dget_dset_eq, Hseen. naive_solver.
    + rewrite dget_dset_ne by done. naive_solver.
  - intros n s [Hi|Hi]%elem_of_app; [eauto|]. apply list_elem_of_singleton in Hi as [= -> ->].
    by apply is_empty_false.
Qed.
Lemma read_secrets_ok secrets : ∀ seen entries creds,
  entries_ok seen entries → read_secrets secrets seen entries = Ok creds →
  ∃ seen', entries_ok seen' (_entries creds) ∧ ∀ e, e ∈ _entries creds ↔ e ∈ entries ∨ e ∈ secrets.
Proof.
  induction secrets as [|[name secret] secrets IH]; intros seen entries creds Hok; cbn.
  { intros [= <-]. exists seen. split; [done|]. set_solver. }
  destruct (negb (caller_name name)); [done|].
  destruct (is_empty secret) eqn:Hne; [done|]; cbn.
  destruct (negb _); [done|]. destruct (dget seen secret) eqn:Hseen; [done|]. intros Hr.
  destruct (IH _ _ _ (entries_ok_snoc _ _ _ _ Hok Hseen Hne) Hr) as (seen' & Hok' & Hin).
  exists seen'. split; [done|]. intros e. rewrite Hin, elem_of_app, list_elem_of_singleton.
  rewrite elem_of_cons. tauto.
Qed.

Lemma foldl_last_match (P : string * string → bool) (l : list (string * string)) :
  (∀ e e', e ∈ l → e' ∈ l → P e = true → P e' = true → e.1 = e'.1) →
  ∀ acc name, (∀ e n, acc = Some n → e ∈ l → P e = true → n = e.1) →
  foldl (λ found e, if P e then Some e.1 else found) acc l = Some name ↔
  (acc = Some name ∨ ∃ e, e ∈ l ∧ P e = true ∧ e.1 = name).
Proof.
  induction l as [|x l IH]; intros Hu acc name Hacc; cbn.
  { split; [by left|]. intros [?|(e & He & _)]; [done|by apply not_elem_of_nil in He]. }
  rewrite IH.
  - setoid_rewrite elem_of_cons. destruct (P x) eqn:Hx.
    + split.
      * intros [[= <-]|(e & ? & ? & ?)]; right; [by exists x; auto|exists e; auto].
      * intros [->|(e & [->|?] & ? & <-)]; [left; f_equal|by left|right; by exists e].
        symmetry. eapply Hacc; [done|by left|done].
    + split; intros [?|(e & He & ? & ?)]; [by left|right; exists e; auto|by left|].
      destruct He as [->|?]; [congruence|]. right. by exists e.
  - intros e e' ??. apply Hu; by apply elem_of_cons; right.
  - intros e n He Hl Hp. destruct (P x) eqn:Hx.
    + injection He as <-. apply Hu; [by left|by right|done|done].
    + eapply Hacc; [done|by right|done].
Qed.
Lemma resolve_spec secrets creds : caller_credentials secrets = Ok creds →
  (∀ e, e ∈ _entries creds ↔ e ∈ secrets) ∧
  ∀ presented name, resolve creds presented = Some name ↔
    ∃ s, presented = Some s ∧ (name, s) ∈ secrets.
Proof.
  intros Hr. destruct (read_secrets_ok secrets [] [] creds) as (seen & (Hwf & Hiff & Hpos) & Hin); [|done|].
  { split; [by apply wf_nil|]. split; set_solver. }
  assert (∀ e, e ∈ _entries creds ↔ e ∈ secrets) as Heq by set_solver.
  split; [done|]. intros presented name. unfold resolve. rewrite foldl_last_match; [|  |set_solver].
  - split.
    + intros [[=]|([n s] & He & Hd & <-)]. apply bool_decide_eq_true_1 in Hd. cbn in *.
      destruct presented as [t|]; cbn in *; [subst; exists s; set_solver|]. by destruct (Hpos n s).
    + intros (s & -> & He). right. exists (name, s). split; [by apply Heq|]. split; [|done].
      by apply bool_decide_eq_true_2.
  - intros [n s] [n' s'] He He' Hd Hd'. apply bool_decide_eq_true_1 in Hd, Hd'. cbn in *.
    rewrite <-Hd in He. rewrite <-Hd' in He'. apply Hiff in He, He'. congruence.
Qed.

(** ** A policy can be enforced *)

Lemma method_path_spec s service name : method_path s = Some (service, name) →
  s = String "/" (service +:+ String "/" name).
Proof.
  unfold method_path. pose proof (join_split "/" s) as Hj.
  destruct (split "/" s) as [|[|] [|w1 [|w2 [|]]]]; try done.
  destruct (service_name w1 && identifier w2); [|done]. by intros [= <- <-].
Qed.

Definition enforceable (callers : CallerCredentials) (m : string) (admitted : list string) : Prop :=
  is_Some (method_path m) ∧ admitted ≠ [] ∧ ∀ a, a ∈ admitted → a ∈ names callers.
Lemma read_rules_ok callers rules : wf rules → ∀ parsed p,
  (∀ m adm, dget parsed m = Some adm → enforceable callers m adm) →
  read_rules rules callers parsed = Ok p →
  _callers p = callers ∧ (∀ m adm, dget (_rules p) m = Some adm → enforceable callers m adm) ∧
  ∀ m, dget (_rules p) m = match dget rules m with Some a => Some a | None => dget parsed m end.
Proof.
  induction rules as [|[m0 adm0] rules IH]; intros Hwf parsed p Hp; cbn.
  { by intros [= <-]. }
  apply NoDup_cons in Hwf as [Hnew Hwf]. destruct (bool_decide (is_Some (method_path m0))) eqn:Hm; [|done]; cbn.
  destruct (bool_decide (adm0 = [])) eqn:Hne; [done|].
  destruct (bool_decide (filter _ adm0 ≠ [])) eqn:Hun; [done|]. intros Hr.
  apply bool_decide_eq_true_1 in Hm. apply bool_decide_eq_false_1 in Hne, Hun.
  assert (enforceable callers m0 adm0) as He.
  { split; [done|]. split; [done|]. intros a Ha. apply dec_stable in Hun.
    destruct (decide (a ∈ names callers)) as [|Hn]; [done|]. exfalso.
    assert (a ∈ filter (λ n, n ∉ names callers) adm0) as Hf by by apply list_elem_of_filter.
    rewrite Hun in Hf. by apply not_elem_of_nil in Hf. }
  assert (∀ m adm, dget (dset parsed m0 adm0) m = Some adm → enforceable callers m adm) as Hp0.
  { intros m adm. rewrite dget_dset. case_decide; [|by apply Hp]. intros [= <-]. by subst. }
  destruct (IH Hwf _ _ Hp0 Hr) as (Hc & Hp' & Hd). split; [done|]. split; [done|].
  intros m. rewrite Hd, dget_dset. destruct (decide (m0 = m)) as [<-|]; [|done].
  apply dget_None in Hnew. cbn in Hnew. by rewrite Hnew.
Qed.

Lemma check_served_spec pool p services : check_served pool p services = Ok tt →
  ∀ rule, rule ∈ _rules p → ∃ service name methods, method_path rule.1 = Some (service, name) ∧
    service ∈ services ∧ pool service = Some methods ∧ name ∈ methods.
Proof.
  unfold check_served. induction (_rules p) as [|r rules IH]; cbn; [by intros _ ? ?%not_elem_of_nil|].
  destruct (method_path r.1) as [[service name]|] eqn:Hm; [|done].
  destruct (bool_decide (service ∈ services)) eqn:Hs; [|done].
  destruct (pool service) as [methods|] eqn:Hpool; [|done]; cbn.
  destruct (bool_decide (name ∈ methods)) eqn:Hn; [|done]; cbn. intros Hr rule [->|?]%elem_of_cons; [|eauto].
  apply bool_decide_eq_true_1 in Hs, Hn. by exists service, name, methods.
Qed.

Lemma dget_fold_last (l : list (string * string)) : ∀ acc k v,
  dget (foldl (λ acc kv, dset acc kv.1 kv.2) acc (l ++ [(k, v)])) k = Some v.
Proof. intros acc k v. rewrite foldl_app. apply dget_dset_eq. Qed.

(** C32: a policy that the server accepts is one it can enforce.  When the
    credentials, the policy and the check against the served services all
    succeed: a presented secret names its own caller and no other, and
    nothing else (no credential, an empty one, the platform's) names one;
    every listed method is a method of a service this server serves; it
    admits someone, and each caller it admits is admitted with its own
    secret as the client interceptor sends it, whatever other metadata the
    call carries. *)
Theorem accepted_policy_is_enforceable {E} secrets rules creds p pool services :
  wf rules → caller_credentials secrets = Ok creds → caller_policy rules creds = Ok p →
  check_served pool p services = Ok tt →
  (∀ presented name, resolve creds presented = Some name ↔
    ∃ s, presented = Some s ∧ s ≠ EmptyString ∧ (name, s) ∈ secrets) ∧
  ∀ m admitted, (m, admitted) ∈ rules →
    covers p m = true ∧ admitted ≠ [] ∧
    (∃ service name methods, m = String "/" (service +:+ String "/" name) ∧
       service ∈ services ∧ pool service = Some methods ∧ name ∈ methods) ∧
    ∀ a, a ∈ admitted → ∃ s, (a, s) ∈ secrets ∧ ∀ md,
      decide_call (E:=E) p m (presented_token
        {| method := Some m; invocation_metadata := Some (client_metadata s md) |}) =
      Ok {| verdict := admits; caller := Some a |}.
Proof.
  intros Hwf Hc Hp Hs. destruct (resolve_spec _ _ Hc) as [Hin Hres].
  destruct (read_secrets_ok secrets [] [] creds) as (seen & (_ & _ & Hpos) & _); [|done|].
  { split; [by apply wf_nil|]. split; set_solver. }
  split.
  { intros presented name. rewrite Hres. split.
    - intros (s & -> & He). exists s. split; [done|]. split; [|done]. by apply (Hpos name), Hin.
    - intros (s & -> & _ & He). by exists s. }
  intros m admitted Hm. destruct (read_rules_ok _ _ Hwf [] p ltac:(done) Hp) as (Hcs & Hen & Hd).
  assert (dget (_rules p) m = Some admitted) as Hget.
  { rewrite Hd. by rewrite (elem_dget _ _ _ Hwf Hm). }
  destruct (Hen _ _ Hget) as (_ & Hne & Hnames).
  split; [unfold covers, dmem; by rewrite bool_decide_eq_true, Hget|]. split; [done|]. split.
  { destruct (check_served_spec _ _ _ Hs (m, admitted) (dget_elem _ _ _ Hget))
      as (service & name & methods & Hmp & ?). exists service, name, methods.
    split; [by apply method_path_spec|done]. }
  intros a Ha. pose proof (Hnames a Ha) as ([n s] & -> & He)%list_elem_of_fmap. cbn in *.
  exists s. apply Hin in He. split; [done|]. intros md. unfold presented_token, metadata_dict, client_metadata. cbn.
  rewrite dget_fold_last. unfold decide_call. rewrite Hcs.
  assert (resolve creds (Some s) = Some n) as -> by (apply Hres; by exists s).
  rewrite Hget. by rewrite bool_decide_eq_true_2.
Qed.

(** ** What a decision does to a call *)

Section outcomes.
Context {Req Resp E Amb Codec : Type} `{LibraryErrors E}.
Context `{current_caller : Lens Amb (option string)}.
Abbreviation Handler := (MethodHandler Req Resp E Amb Codec).

(** [h'] serves the calls of [s] with [current_caller] set to [name], and
    sets it back. *)
Definition serves_as (h h' : Handler) (s : Servicer Req Resp E Amb) (name : string) : Prop :=
  ∃ s', well_formed h' s' ∧ same_kind h h' ∧ is_async s' = is_async s ∧
    ∀ request c r c1, run s request (with_ambient (put (Some name)) c) = (r, c1) →
      run s' request c = (r, with_ambient (put (view (ambient c))) c1).
(** [h'] is of [h]'s kind and ends every call with [st], whatever the
    servicer behind [h] is. *)
Definition refuses (h h' : Handler) (st : Code * string) : Prop :=
  ∃ s', well_formed h' s' ∧ same_kind h h' ∧
    ∀ request c, aborted c = None → run s' request c = (Raise AbortError, with_abort st c).

Lemma as_caller_serves h s name : well_formed h s → serves_as h (as_caller h name) s name.
Proof.
  intros Hw. eexists. split; [by apply wrap_well_formed|]. split; [apply same_kind_wrap|].
  split; [done|]. intros request c r c1 Hr. cbn. destruct (is_async s);
    unfold async_wrapped, sync_wrapped, se_bind; cbn; rewrite Hr; by destruct r.
Qed.
Lemma refusing_refuses (h : Handler) code text : refuses h (refusing h code text) (code, text).
Proof.
  eexists. split; [apply well_formed_rebuild|]. split; [apply same_kind_rebuild|].
  intros request c Hc. cbn. unfold se_bind, abort. by rewrite Hc.
Qed.

(** What the policy makes of a listed call. *)
Definition decided (p : CallerPolicy) (admitted : list string) (details : HandlerCallDetails)
    (h h' : Handler) (s : Servicer Req Resp E Amb) : Prop :=
  match resolve (_callers p) (presented_token details) with
  | Some name =>
      if bool_decide (name ∈ admitted) then serves_as h h' s name
      else refuses h h' (refusal permission_denied)
  | None => refuses h h' (refusal unauthenticated)
  end.
Lemma listed_decided (cfg : @InternalTokenInterceptor Req Resp E Amb Codec) p continuation details h s admitted :
  _policy cfg = Some p → dget (_rules p) (default EmptyString (method details)) = Some admitted →
  continuation details = Ok (Some h) → well_formed h s →
  ∃ h', intercept_service cfg continuation details = Ok (Some h') ∧ decided p admitted details h h' s.
Proof.
  intros Hp Hm Hc Hw. unfold intercept_service, decided. rewrite Hp.
  assert (covers p (default EmptyString (method details)) = true) as ->
    by (by unfold covers, dmem; rewrite bool_decide_eq_true, Hm).
  unfold authorize_listed, decide_call. rewrite Hm, Hc.
  destruct (resolve (_callers p) (presented_token details)) as [name|]; cbn.
  - destruct (bool_decide (name ∈ admitted)); cbn; eexists; (split; [done|]).
    + by apply as_caller_serves.
    + by apply refusing_refuses.
  - eexists. split; [done|]. apply refusing_refuses.
Qed.

(** C4: a listed method is decided by the policy alone.  Whatever platform
    token, exemptions and second verifier the interceptor was built with, and
    whatever servicer of whatever kind is behind the method: a caller the
    method admits is served, under its own name and in the servicer's own
    kind and execution model; a caller that is known but not admitted is
    refused as PERMISSION_DENIED and any other credential as UNAUTHENTICATED,
    by a handler of the method's own kind that never runs the servicer. *)
Theorem listed_methods_are_decided_by_the_policy (cfg : @InternalTokenInterceptor Req Resp E Amb Codec)
    p continuation details h s admitted :
  let m := default EmptyString (method details) in
  _policy cfg = Some p → dget (_rules p) m = Some admitted →
  continuation details = Ok (Some h) → well_formed h s →
  ∃ h', intercept_service cfg continuation details = Ok (Some h') ∧
    match resolve (_callers p) (presented_token details) with
    | Some name =>
        if bool_decide (name ∈ admitted) then serves_as h h' s name
        else refuses h h' (refusal permission_denied)
    | None => refuses h h' (refusal unauthenticated)
    end.
Proof. intros m. by apply listed_decided. Qed.

(** What the platform's rule makes of any other call. *)
Definition open_method (cfg : @InternalTokenInterceptor Req Resp E Amb Codec) (m : string) : Prop :=
  system_method m = true ∨ ∃ x, x ∈ _exempt_methods cfg ∧ endswith x m = true.
Definition verified (cfg : @InternalTokenInterceptor Req Resp E Amb Codec) (details : HandlerCallDetails)
    (admitted : option Handler → option Handler) : Prop :=
  ∃ v t, _alternate_verifier cfg = Some v ∧ presented_token details = Some t ∧ t ≠ EmptyString ∧
    v (default EmptyString (method details)) t = Ok (Some admitted).
Definition refused_token (found out : option Handler) : Prop :=
  match found, out with
  | None, None => True
  | Some h, Some h' => refuses h h' (UNAUTHENTICATED, INVALID_TOKEN)
  | _, _ => False
  end.
Lemma refuse_token_refused found : refused_token found (refuse_token found).
Proof. destruct found; [apply refusing_refuses|done]. Qed.

Lemma platform_rule_spec (cfg : @InternalTokenInterceptor Req Resp E Amb Codec) token continuation details found :
  token ≠ EmptyString → continuation details = Ok found →
  let m := default EmptyString (method details) in
  let presented := presented_token details in
  match platform_rule cfg token continuation details with
  | Ok out =>
      (open_method cfg m ∨ presented = Some token) ∧ out = found ∨
      ¬ (open_method cfg m ∨ presented = Some token) ∧
        ((∃ admitted, verified cfg details admitted ∧ out = admitted found) ∨
         (∀ admitted, ¬ verified cfg details admitted) ∧ refused_token found out)
  | Raise digest_type_error => ascii_text token = false ∨ ascii_text (default EmptyString presented) = false
  | Raise (verifier_failed e) =>
      ∃ v t, _alternate_verifier cfg = Some v ∧ presented = Some t ∧ v m t = Raise e
  | Raise (key_error _) => False
  end.
Proof.
  intros Hne Hc m presented. unfold platform_rule. fold m. fold presented. rewrite Hc.
  destruct (system_method m) eqn:Hsys; [left; split; [by left; left|done]|].
  destruct (existsb _ _) eqn:Hex.
  { left. split; [|done]. left. right. by apply existsb_True in Hex. }
  assert (¬ open_method cfg m) as Hclosed.
  { intros [|(x & Hx & He)]; [congruence|]. by rewrite (proj1 (existsb_False _ _) Hex x Hx) in He. }
  unfold compare_digest. destruct (ascii_text (default EmptyString presented)) eqn:Ha; [|by right].
  destruct (ascii_text token) eqn:Hb; [|by left]. cbn. unfold digest_eq.
  destruct (bool_decide (default EmptyString presented = token)) eqn:Hd; cbn.
  { apply bool_decide_eq_true_1 in Hd. left. split; [right|done].
    destruct presented; cbn in *; [by f_equal|by subst]. }
  apply bool_decide_eq_false_1 in Hd.
  assert (¬ (open_method cfg m ∨ presented = Some token)) as Hnot by (intros [?| Hp]; [done|by rewrite Hp in Hd]).
  pose proof (refuse_token_refused found) as Hrefused. unfold verified. fold m. fold presented.
  destruct (_alternate_verifier cfg) as [v|] eqn:Hv; cycle 1.
  { right. split; [done|]. right. split; [|done]. by intros ? (? & ? & ? & _). }
  destruct presented as [t|] eqn:Hpres; cycle 1.
  { right. split; [done|]. right. split; [|done]. by intros ? (? & ? & _ & ? & _). }
  destruct (is_empty t) eqn:Het.
  { right. split; [done|]. right. apply is_empty_true in Het as ->. split; [|done].
    by intros ? (? & ? & _ & [= <-] & ? & _). }
  apply is_empty_false in Het. destruct (v m t) as [[admitted|]|e] eqn:Hvt.
  - right. split; [done|]. left. exists admitted. split; [|done]. by exists v, t.
  - right. split; [done|]. right. split; [|done].
    intros ? (? & ? & [= <-] & [= <-] & _ & ?). congruence.
  - by exists v, t.
Qed.

End outcomes.

(** ** A running example *)

#[local] Instance demo_errors : LibraryErrors nat := {| type_error := 0%nat; usage_error := 1%nat |}.
#[local] Instance demo_caller : Lens (option string) (option string) := lens_id.
Definition demo_secrets : list (string * string) := [("billing", "s1"); ("web-api", "s2")]%string.
Definition enroll : string := "/pulse.v1.AgentGateway/Enroll".
Definition renew : string := "/pulse.v1.AgentGateway/Renew".
Definition demo_rules : list (string * list string) := [(enroll, ["web-api"%string])].
Definition demo_creds : CallerCredentials := {| _entries := demo_secrets |}.
Definition demo_policy : CallerPolicy := {| _rules := demo_rules; _callers := demo_creds |}.
Definition demo_pool (s : string) : option (list string) :=
  if bool_decide (s = "pulse.v1.AgentGateway"%string) then Some ["Enroll"; "Renew"]%string else None.
Lemma demo_secrets_ok : caller_credentials demo_secrets = Ok demo_creds.
Proof. by vm_compute. Qed.
Lemma demo_rules_ok : caller_policy demo_rules demo_creds = Ok demo_policy.
Proof. by vm_compute. Qed.

(** The servicer answers who it was called by. *)
Definition demo_servicer : Servicer nat (option string) nat (option string) :=
  {| is_async := false; run := λ _ c, (Ok (Some (ambient c)), c) |}.
Definition demo_handler : MethodHandler nat (option string) nat (option string) bool :=
  unary_unary_rpc_method_handler demo_servicer true true.
Definition demo_cfg : @InternalTokenInterceptor nat (option string) nat (option string) bool :=
  {| _token := Some "platform"%string; _policy := Some demo_policy; _exempt_methods := ["Enroll"%string];
     _alternate_verifier := None |}.
Definition demo_details (m token : string) : HandlerCallDetails :=
  {| method := Some m; invocation_metadata := Some (client_metadata token None) |}.

Lemma accepted_policy_is_enforceable_witness :
  caller_credentials demo_secrets = Ok demo_creds ∧
  ∃ s, (("web-api"%string, s) ∈ demo_secrets) ∧
    decide_call (E:=nat) demo_policy enroll (presented_token (demo_details enroll s)) =
      Ok {| verdict := admits; caller := Some "web-api"%string |}.
Proof.
  split; [by vm_compute|].
  destruct (accepted_policy_is_enforceable (E:=nat) demo_secrets demo_rules demo_creds demo_policy demo_pool
    ["pulse.v1.AgentGateway"%string]
    ltac:(apply (bool_decide_eq_true_1 (NoDup (dkeys demo_rules))); by vm_compute)
    demo_secrets_ok demo_rules_ok ltac:(by vm_compute)) as [_ Hall].
  destruct (Hall enroll ["web-api"%string] ltac:(by left)) as (_ & _ & _ & Hcall).
  destruct (Hcall "web-api"%string ltac:(by left)) as (s & Hs & Hd). exists s. split; [done|]. apply Hd.
Defined.

Lemma listed_methods_are_decided_by_the_policy_witness :
  well_formed demo_handler demo_servicer ∧
  (∃ h', intercept_service demo_cfg (λ _, Ok (Some demo_handler)) (demo_details enroll "s2") = Ok (Some h') ∧
     serves_as demo_handler h' demo_servicer "web-api") ∧
  (∃ h', intercept_service demo_cfg (λ _, Ok (Some demo_handler)) (demo_details enroll "platform") = Ok (Some h') ∧
     refuses demo_handler h' (refusal unauthenticated)).
Proof.
  split; [done|]. split.
  - destruct (listed_methods_are_decided_by_the_policy demo_cfg demo_policy (λ _, Ok (Some demo_handler))
      (demo_details enroll "s2") demo_handler demo_servicer ["web-api"%string] eq_refl eq_refl eq_refl eq_refl)
      as (h' & ? & ?). by exists h'.
  - destruct (listed_methods_are_decided_by_the_policy demo_cfg demo_policy (λ _, Ok (Some demo_handler))
      (demo_details enroll "platform") demo_handler demo_servicer ["web-api"%string] eq_refl eq_refl eq_refl eq_refl)
      as (h' & ? & ?). by exists h'.
Defined.

End Authorization.
