(* ===== verification/Contracts.v ===== *)
(** * grpc/contracts.py: pinned contracts, materialised and verified

    A parsed manifest is a tree ([Toml]); a path is the list of its
    components; the disk maps the directory of a contract to what git says of
    it.  What a clone brings is the environment's answer to each fetch. *)

From S2P Require Import Prelude PyStr PyDict.
#[local] Open Scope se_scope.

Module Contracts.

(** ** Patterns *)

Definition is_alnum (c : ascii) : bool := is_upper_ascii c || is_lower_ascii c || is_digit c.
Definition is_lower_alnum (c : ascii) : bool := is_lower_ascii c || is_digit c.
Definition APPROVED_PREFIX : string := "https://github.com/LeavePulse/".
Definition repo_char (c : ascii) : bool := is_alnum c || char_in "._-" c.
(** [[A-Za-z0-9._-]*\.git] *)
Fixpoint named_git (s : string) : bool :=
  bool_decide (s = ".git"%string) ||
  match s with EmptyString => false | String c s' => repo_char c && named_git s' end.
(** [_APPROVED_REPOSITORY] *)
Definition approved_repository (s : string) : bool :=
  startswith APPROVED_PREFIX s &&
  match sdrop (String.length APPROVED_PREFIX) s with
  | EmptyString => false
  | String c s' => is_alnum c && named_git s'
  end.
(** [_COMMIT]: [[0-9a-f]{40}] *)
Definition is_commit (s : string) : bool :=
  Nat.eqb (String.length s) 40 && sall (λ c, is_digit c || in_range 97 102 c) s.
Definition digits (s : string) : bool := negb (is_empty s) && sall is_digit s.
(** [_TAG]: [v[0-9]+\.[0-9]+\.[0-9]+] *)
Definition is_tag (s : string) : bool :=
  match s with
  | String c s' =>
      bool_decide (c = "v"%char) &&
      match split "." s' with [a; b; c] => digits a && digits b && digits c | _ => false end
  | EmptyString => false
  end.
(** [_NAME]: [[a-z0-9][a-z0-9-]*] *)
Definition is_name (s : string) : bool :=
  match s with
  | EmptyString => false
  | String c s' => is_lower_alnum c && sall (λ c, is_lower_alnum c || char_in "-" c) s'
  end.
(** [_PROTO_DIR]: [[A-Za-z0-9_][A-Za-z0-9._/-]*] *)
Definition is_proto_dir (s : string) : bool :=
  match s with
  | EmptyString => false
  | String c s' => (is_alnum c || char_in "_" c) && sall (λ c, is_alnum c || char_in "._/-" c) s'
  end.
(** [Path(s).parts] of a relative path *)
Definition parts (s : string) : list string :=
  List.filter (λ w, negb (bool_decide (w = EmptyString)) && negb (bool_decide (w = "."%string))) (split "/" s).

(** ** Pins *)

Record ContractPin := {
  name : string; repository : string; tag : string; commit : string; proto_dir : string }.

Inductive problem := bad_name | bad_repository | bad_tag | bad_commit | bad_proto_dir.
Inductive ContractError :=
  | not_a_table (contract : option string)
  | missing (contract key : string)
  | invalid (contract : string) (problems : list problem)
  | attribute_error
  | override_in_ci (contract : string)
  | not_on_disk (contract : string)
  | git_failed (command : string)
  | tag_moved (contract resolved : string).

Definition override_variable (contract : string) : string :=
  "LP_GRPC_CONTRACT_"%string +:+ upper (smap (λ c, if is_alnum c then c else "_"%char) contract).

Inductive Toml := toml_string (s : string) | toml_table (l : list (string * Toml)) | toml_other.
(** [value.get(key, {})] *)
Definition get_table (value : Toml) (k : string) : result ContractError Toml :=
  match value with
  | toml_table l => Ok (default (toml_table []) (dget l k))
  | _ => Raise attribute_error
  end.
Fixpoint get_path (value : Toml) (keys : list string) : result ContractError Toml :=
  match keys with
  | [] => Ok value
  | k :: keys' => v ← get_table value k; get_path v keys'
  end.
Definition pin_tables (manifest_name : string) (data : Toml) : result ContractError (list (string * Toml)) :=
  section ← get_path data
    (if bool_decide (manifest_name = "Cargo.toml"%string) then ["package"; "metadata"; "contracts"]%string
     else ["tool"; "service_toolkit"; "contracts"]%string);
  match section with
  | toml_table l => Ok l
  | _ => Raise (not_a_table None)
  end.

(** The inner function [value] of [_validated]. *)
Definition value (contract : string) (raw : list (string * Toml)) (k : string) : result ContractError string :=
  match dget raw k with
  | Some (toml_string found) =>
      if is_empty (strip found) then Raise (missing contract k) else Ok (strip found)
  | _ => Raise (missing contract k)
  end.
Definition problems_of (pin : ContractPin) : list problem :=
  (if negb (is_name (name pin)) then [bad_name] else []) ++
  (if negb (approved_repository (repository pin)) then [bad_repository] else []) ++
  (if negb (is_tag (tag pin)) then [bad_tag] else []) ++
  (if negb (is_commit (commit pin)) then [bad_commit] else []) ++
  (if negb (is_proto_dir (proto_dir pin)) || bool_decide (".."%string ∈ parts (proto_dir pin))
   then [bad_proto_dir] else []).
Definition validated (contract : string) (raw : list (string * Toml)) : result ContractError ContractPin :=
  r ← value contract raw "repository";
  t ← value contract raw "tag";
  c ← value contract raw "commit";
  p ← value contract raw "proto_dir";
  let pin := {| name := contract; repository := r; tag := t; commit := c; proto_dir := p |} in
  if bool_decide (problems_of pin = []) then Ok pin else Raise (invalid contract (problems_of pin)).

Fixpoint read_loop (tables : list (string * Toml)) (pins : list (string * ContractPin)) :
    result ContractError (list (string * ContractPin)) :=
  match tables with
  | [] => Ok pins
  | (contract, toml_table raw) :: tables' =>
      pin ← validated contract raw; read_loop tables' (dset pins contract pin)
  | (contract, _) :: _ => Raise (not_a_table (Some contract))
  end.
Definition read_pins (manifest_name : string) (data : Toml) : result ContractError (list (string * ContractPin)) :=
  tables ← pin_tables manifest_name data; read_loop tables [].

(** ** On disk *)

Abbreviation path := (list string).
(** What git says of a directory: [head] is [rev-parse HEAD], [changes] is
    [status --porcelain --untracked-files=all]; [None] when git fails. *)
Record Checkout := { has_git : bool; head : option string; changes : option string }.
Record World := { disk : gmap path Checkout; fetches : nat }.

Section materialise.
Context (environ : string → option string) (resolve : string → path).
(** The environment's answer to the [n]-th clone of a tag. *)
Context (clone : nat → string → string → option Checkout).

Definition truthy (s : option string) : option string :=
  match s with Some v => if is_empty v then None else Some v | None => None end.

Definition materialised_dir (pin : ContractPin) (base_dir : path) : result ContractError path :=
  match truthy (environ (override_variable (name pin))) with
  | Some override =>
      match truthy (environ "CI") with
      | Some _ => Raise (override_in_ci (name pin))
      | None => Ok (resolve override)
      end
  | None => Ok (base_dir ++ [".contracts"; name pin; commit pin]%string)
  end.
Definition proto_root (is_dir : path → bool) (pin : ContractPin) (base_dir : path) : result ContractError path :=
  d ← materialised_dir pin base_dir;
  let root := d ++ parts (proto_dir pin) in
  if negb (is_dir root) then Raise (not_on_disk (name pin)) else Ok root.

(** A failing git command is a copy that is not intact. *)
Definition is_intact (d : Checkout) (pin : ContractPin) : bool :=
  if negb (has_git d) then false
  else match head d, changes d with
       | Some h, Some c => bool_decide (h = commit pin) && is_empty c
       | _, _ => false
       end.

Abbreviation M := (SE World ContractError).
Definition on_disk (f : gmap path Checkout → gmap path Checkout) : M unit :=
  se_modify (λ w, {| disk := f (disk w); fetches := fetches w |}).
Definition git_clone (pin : ContractPin) : M Checkout := λ w,
  let w' := {| disk := disk w; fetches := S (fetches w) |} in
  match clone (fetches w) (repository pin) (tag pin) with
  | Some c => (Ok c, w')
  | None => (Raise (git_failed "clone"), w')
  end.
(** The clone is made in a scratch directory, which is removed with whatever
    is still in it. *)
Definition fetch (pin : ContractPin) (destination : path) : M path :=
  let* checkout := git_clone pin in
  match head checkout with
  | None => se_raise (git_failed "rev-parse")
  | Some resolved =>
      if negb (bool_decide (resolved = commit pin)) then se_raise (tag_moved (name pin) resolved)
      else do* on_disk <[destination := checkout]> in se_ret destination
  end.
Definition materialise (pin : ContractPin) (base_dir : path) : M path :=
  let* destination := se_lift (materialised_dir pin base_dir) in
  match truthy (environ (override_variable (name pin))) with
  | Some _ => se_ret destination
  | None => λ w,
      match disk w !! destination with
      | Some d =>
          if is_intact d pin then (Ok destination, w)
          else (do* on_disk (delete destination) in fetch pin destination) w
      | None => fetch pin destination w
      end
  end.
(** [main]: the directories printed before it ends. *)
Fixpoint sync (pins : list ContractPin) (base_dir : path) : M (list (string * path)) :=
  match pins with
  | [] => se_ret []
  | pin :: pins' =>
      let* directory := materialise pin base_dir in
      let* rest := sync pins' base_dir in
      se_ret ((name pin, directory) :: rest)
  end.
End materialise.

(** ** What validation gives *)

Lemma named_git_spec s : named_git s = true → ∃ repo, s = repo +:+ ".git" ∧ sall repo_char repo = true.
Proof.
  induction s as [|c s IH]; [done|]. cbn [named_git]. intros [Hg|[Hc Hs]%andb_true_iff]%orb_true_iff.
  - apply bool_decide_eq_true_1 in Hg as ->. by exists EmptyString.
  - destruct (IH Hs) as (repo & -> & Hr). exists (String c repo). cbn. by rewrite Hc.
Qed.
Lemma approved_repository_spec s : approved_repository s = true →
  ∃ repo, s = APPROVED_PREFIX +:+ repo +:+ ".git" ∧ repo ≠ EmptyString ∧ sall repo_char repo = true.
Proof.
  unfold approved_repository. intros [(r & ->)%startswith_spec Hr]%andb_true_iff.
  rewrite sdrop_append in Hr. destruct r as [|c r]; [done|]. apply andb_true_iff in Hr as [Hc Hr].
  destruct (named_git_spec _ Hr) as (repo & -> & Hrepo). exists (String c repo).
  split; [done|]. split; [done|]. cbn. rewrite Hrepo. unfold repo_char. by rewrite Hc.
Qed.

(** Which override variable a contract has. *)
Definition variable_char (c : ascii) : ascii := upper_char (if is_alnum c then c else "_"%char).
Definition name_char (c : ascii) : bool := is_lower_alnum c || char_in "-" c.
Definition back (c : ascii) : ascii := if bool_decide (c = "_"%char) then "-"%char else lower_char c.
Lemma back_variable_char c : name_char c = true → back (variable_char c) = c.
Proof.
  intros Hc. apply (bool_decide_eq_true_1 (back (variable_char c) = c)).
  revert Hc. rewrite <-implb_true_iff. revert c.
  apply (forall_ascii (λ c, implb (name_char c) (bool_decide (back (variable_char c) = c)))); by vm_compute.
Qed.
Lemma back_variable s : sall name_char s = true → smap back (smap variable_char s) = s.
Proof.
  induction s as [|c s IH]; cbn; [done|]. intros [Hc Hs]%andb_true_iff.
  by rewrite back_variable_char, IH.
Qed.
Lemma override_variable_eq s : override_variable s = "LP_GRPC_CONTRACT_"%string +:+ smap variable_char s.
Proof.
  unfold override_variable. f_equal. unfold upper, variable_char. induction s as [|c s IH]; cbn; [done|].
  by rewrite <-IH.
Qed.
Lemma name_chars s : is_name s = true → sall name_char s = true.
Proof.
  destruct s as [|c s]; cbn; [done|]. intros [Hc Hs]%andb_true_iff. unfold name_char at 1. by rewrite Hc.
Qed.
Lemma override_variable_inj s t : is_name s = true → is_name t = true →
  override_variable s = override_variable t → s = t.
Proof.
  intros Hs%name_chars Ht%name_chars. rewrite !override_variable_eq. intros He%append_inj_l.
  by rewrite <-(back_variable s), He, back_variable.
Qed.

Definition valid (pin : ContractPin) : Prop := problems_of pin = [].
Lemma valid_spec pin : valid pin →
  is_name (name pin) = true ∧ approved_repository (repository pin) = true ∧ is_tag (tag pin) = true ∧
  is_commit (commit pin) = true ∧ is_proto_dir (proto_dir pin) = true ∧ ".."%string ∉ parts (proto_dir pin).
Proof.
  unfold valid, problems_of.
  destruct (is_name _), (approved_repository _), (is_tag _), (is_commit _), (is_proto_dir _); try done.
  cbn. case_bool_decide; done.
Qed.
Lemma validated_valid contract raw pin : validated contract raw = Ok pin → name pin = contract ∧ valid pin.
Proof.
  unfold validated. intros (r & _ & H)%result_bind_Ok. apply result_bind_Ok in H as (t & _ & H).
  apply result_bind_Ok in H as (c & _ & H). apply result_bind_Ok in H as (p & _ & H).
  case_bool_decide as Hp; [|done]. by injection H as <-.
Qed.
Lemma read_loop_valid tables : ∀ pins out,
  (∀ k pin, dget pins k = Some pin → name pin = k ∧ valid pin) → read_loop tables pins = Ok out →
  ∀ k pin, dget out k = Some pin → name pin = k ∧ valid pin.
Proof.
  induction tables as [|[k0 [|raw|]] tables IH]; intros pins out Hp; cbn; [by intros [= <-]|done| |done].
  intros (pin0 & Hv%validated_valid & Hr)%result_bind_Ok. eapply IH; [|done].
  intros k pin. rewrite dget_dset. case_decide as Hk; [|apply Hp]. intros [= <-]. by subst.
Qed.
Lemma read_loop_wf tables : ∀ pins out, wf pins → read_loop tables pins = Ok out → wf out.
Proof.
  induction tables as [|[k0 [|raw|]] tables IH]; intros pins out Hp; cbn; [by intros [= <-]|done| |done].
  intros (pin0 & _ & Hr)%result_bind_Ok. eapply IH; [|done]. by apply wf_dset.
Qed.

(** The directory of a pin without an override. *)
Definition directory (pin : ContractPin) (base_dir : path) : path :=
  base_dir ++ [".contracts"; name pin; commit pin]%string.

Lemma name_is_a_component s : is_name s = true → parts s = [s] ∧ s ≠ ".."%string.
Proof.
  intros Hn. split; [|by intros ->]. unfold parts.
  assert (sall (λ d, negb (bool_decide (d = "/"%char))) s = true) as Hs.
  { eapply sall_mono; [|by apply name_chars]. intros c. rewrite <-implb_true_iff. revert c.
    apply (forall_ascii (λ c, implb (name_char c) _)); by vm_compute. }
  rewrite split_sall by done. cbn. destruct (decide (s = EmptyString)) as [->|]; [done|].
  destruct (decide (s = "."%string)) as [->|]; [done|]. by rewrite !bool_decide_eq_false_2.
Qed.

Lemma proto_dir_is_relative s : is_proto_dir s = true → startswith "/" s = false.
Proof.
  intros Hp. apply not_true_iff_false. intros (r & ->)%startswith_spec. done.
Qed.

(** A pin that was read can be handed to git and to the file system.  Its
    repository is one of the approved organisation, over HTTPS; neither the
    tag nor the repository can be read as an option; the commit is a full
    hash; the proto directory is relative and has no step out of the
    checkout; the name is one path component; and two contracts of a
    manifest share neither their directory nor their override variable. *)
Lemma read_pins_are_safe manifest data pins k pin :
  read_pins manifest data = Ok pins → (k, pin) ∈ pins →
  name pin = k ∧
  (∃ repo, repository pin = APPROVED_PREFIX +:+ repo +:+ ".git" ∧ repo ≠ EmptyString ∧
     sall repo_char repo = true) ∧
  startswith "-" (tag pin) = false ∧ startswith "-" (repository pin) = false ∧
  String.length (commit pin) = 40%nat ∧
  (startswith "/" (proto_dir pin) = false ∧ ".."%string ∉ parts (proto_dir pin)) ∧
  (parts (name pin) = [name pin] ∧ name pin ≠ ".."%string) ∧
  ∀ k' pin' base_dir, (k', pin') ∈ pins → k' ≠ k →
    directory pin' base_dir ≠ directory pin base_dir ∧
    override_variable (name pin') ≠ override_variable (name pin).
Proof.
  unfold read_pins. intros (tables & _ & Hr)%result_bind_Ok Hk.
  pose proof (read_loop_wf _ _ _ wf_nil Hr) as Hwf.
  pose proof (read_loop_valid _ [] _ ltac:(done) Hr) as Hall.
  destruct (Hall k pin) as [Hn Hv]; [by apply elem_dget|].
  destruct (valid_spec pin Hv) as (Hname & Hrepo & Htag & Hcommit & Hproto & Hdots).
  split; [done|]. split; [by apply approved_repository_spec|].
  split. { destruct (tag pin) as [|c s]; [done|]. cbn in Htag. by case_bool_decide; subst. }
  split. { by destruct (approved_repository_spec _ Hrepo) as (repo & -> & _). }
  split. { apply andb_true_iff in Hcommit as [Hl%Nat.eqb_eq _]. done. }
  split; [split; [by apply proto_dir_is_relative|done]|].
  split; [by apply name_is_a_component|].
  intros k' pin' base_dir Hk' Hne. destruct (Hall k' pin') as [Hn' Hv']; [by apply elem_dget|].
  destruct (valid_spec pin' Hv') as (Hname' & _). split.
  - unfold directory. intros [= He _]%app_inv_head. congruence.
  - intros He. apply override_variable_inj in He; [congruence|done|done].
Qed.

(** ** What is on disk afterwards *)

Section synced.
Context (environ : string → option string) (resolve : string → path).
Context (clone : nat → string → string → option Checkout).
(** [git clone] leaves a checkout with its metadata and nothing changed. *)
Context (clean_clone : ∀ n repo t c, clone n repo t = Some c → has_git c = true ∧ changes c = Some EmptyString).

Definition overridden (pin : ContractPin) : option string :=
  truthy (environ (override_variable (name pin))).
Definition dir_of (base_dir : path) (pin : ContractPin) : path :=
  match overridden pin with Some o => resolve o | None => directory pin base_dir end.
(** The pinned commit is in the pin's directory, unchanged. *)
Definition in_place (base_dir : path) (w : World) (pin : ContractPin) : Prop :=
  ∃ c, disk w !! directory pin base_dir = Some c ∧ is_intact c pin = true.

Lemma fetch_spec pin destination w r w' : fetch clone pin destination w = (r, w') →
  disk w !! destination = None →
  (∀ q, q ≠ destination → disk w' !! q = disk w !! q) ∧
  match r with
  | Ok d => d = destination ∧ ∃ c, disk w' !! destination = Some c ∧ is_intact c pin = true
  | Raise _ => disk w' !! destination = None
  end.
Proof.
  unfold fetch, se_bind, git_clone. intros Hf Hnone.
  destruct (clone (fetches w) (repository pin) (tag pin)) as [c|] eqn:Hc; [|by simplify_eq/=].
  destruct (clean_clone _ _ _ _ Hc) as [Hg Hch].
  destruct (head c) as [h|] eqn:Hh; [|by unfold se_raise in Hf; simplify_eq/=].
  destruct (bool_decide (h = commit pin)) eqn:Hp; cbn in Hf; [|by unfold se_raise in Hf; simplify_eq/=].
  unfold se_ret in Hf. simplify_eq/=. split; [intros q Hq; by rewrite lookup_insert_ne|]. split; [done|].
  exists c. rewrite lookup_insert_eq. split; [done|]. unfold is_intact. by rewrite Hg, Hh, Hch, Hp.
Qed.

Lemma materialise_spec pin base_dir w r w' : materialise environ resolve clone pin base_dir w = (r, w') →
  (∀ q, q ≠ directory pin base_dir → disk w' !! q = disk w !! q) ∧
  match overridden pin with
  | Some o => w' = w ∧
      r = match truthy (environ "CI") with Some _ => Raise (override_in_ci (name pin)) | None => Ok (resolve o) end
  | None =>
      (in_place base_dir w pin → w' = w ∧ r = Ok (directory pin base_dir)) ∧
      match r with
      | Ok d => d = directory pin base_dir ∧ in_place base_dir w' pin
      | Raise _ => disk w' !! directory pin base_dir = None
      end
  end.
Proof.
  unfold materialise, materialised_dir, se_bind, se_lift. fold (overridden pin).
  destruct (overridden pin) as [o|].
  { destruct (truthy (environ "CI")); unfold se_ret; intros [= <- <-]; done. }
  fold (directory pin base_dir). unfold in_place.
  destruct (disk w !! directory pin base_dir) as [d|] eqn:Hd.
  - destruct (is_intact d pin) eqn:Hi.
    + intros [= <- <-]. split; [done|]. split; [done|]. split; [done|]. rewrite Hd. by exists d.
    + cbn. intros Hf. destruct (fetch_spec _ _ _ _ _ Hf) as [Hq Hr]; [by apply lookup_delete_eq|].
      split; [|split; [|done]].
      * intros q Hn. rewrite Hq by done. by apply lookup_delete_ne.
      * intros (c & [= <-] & ?). congruence.
  - intros Hf. destruct (fetch_spec _ _ _ _ _ Hf Hd) as [Hq Hr]. split; [done|]. split; [|done].
    by intros (c & ? & _).
Qed.

Lemma in_place_same base_dir w pin pin' : directory pin' base_dir = directory pin base_dir →
  in_place base_dir w pin' → in_place base_dir w pin.
Proof.
  intros He (c & Hc & Hi). exists c. rewrite <-He. split; [done|].
  apply app_inv_head in He. injection He as _ Hcommit. unfold is_intact in *. by rewrite Hcommit in Hi.
Qed.
Lemma sync_quiet pins base_dir w :
  (∀ pin, pin ∈ pins → materialise environ resolve clone pin base_dir w = (Ok (dir_of base_dir pin), w)) →
  sync environ resolve clone pins base_dir w = (Ok ((λ pin, (name pin, dir_of base_dir pin)) <$> pins), w).
Proof.
  induction pins as [|pin pins IH]; intros Hall; [done|]. cbn. unfold se_bind.
  rewrite (Hall pin) by by left. rewrite IH; [done|]. intros p Hp. apply Hall. by right.
Qed.
Lemma materialise_again base_dir w pin : truthy (environ "CI") = None ∨ overridden pin = None →
  (overridden pin = None → in_place base_dir w pin) →
  materialise environ resolve clone pin base_dir w = (Ok (dir_of base_dir pin), w).
Proof.
  intros Hci Hp. destruct (materialise _ _ _ pin base_dir w) as [r w'] eqn:Hm.
  destruct (materialise_spec _ _ _ _ _ Hm) as [_ Hr]. unfold dir_of.
  destruct (overridden pin) as [o|].
  - destruct Hr as [-> ->]. by destruct Hci as [->|].
  - destruct Hr as [Hin _]. by destruct (Hin (Hp eq_refl)) as [-> ->].
Qed.

Definition synced (pins : list ContractPin) (base_dir : path) (w : World)
    (r : result ContractError (list (string * path))) (w' : World) : Prop :=
  (∀ q, disk w' !! q = disk w !! q ∨
     ∃ pin, pin ∈ pins ∧ overridden pin = None ∧ q = directory pin base_dir ∧
       (disk w' !! q = None ∨ in_place base_dir w' pin)) ∧
  match r with
  | Ok dirs => dirs = (λ pin, (name pin, dir_of base_dir pin)) <$> pins ∧
      (∀ pin, pin ∈ pins → overridden pin = None → in_place base_dir w' pin) ∧
      (∀ pin, pin ∈ pins → overridden pin ≠ None → truthy (environ "CI") = None)
  | Raise _ => ∃ pin, pin ∈ pins ∧
      if overridden pin then truthy (environ "CI") ≠ None else disk w' !! directory pin base_dir = None
  end.
(** A pin that is in place stays in place while the others are fetched. *)
Lemma synced_keeps pins base_dir w dirs w' pin : synced pins base_dir w (Ok dirs) w' →
  in_place base_dir w pin → in_place base_dir w' pin.
Proof.
  intros (Hq & _ & Hin & _) (c & Hc & Hi).
  destruct (Hq (directory pin base_dir)) as [He|(pin' & Hp & Ho & He & _)].
  - exists c. by rewrite He.
  - by eapply in_place_same, Hin.
Qed.
Lemma synced_cons pin pins base_dir w d w1 r w' :
  materialise environ resolve clone pin base_dir w = (Ok d, w1) → synced pins base_dir w1 r w' →
  synced (pin :: pins) base_dir w (rest ← r; Ok ((name pin, d) :: rest)) w'.
Proof.
  intros Hm Hs. destruct (materialise_spec _ _ _ _ _ Hm) as [Hq1 Hr1]. split.
  - intros q. destruct Hs as [Hq _]. destruct (Hq q) as [He|(p & ? & ?)]; [|right; exists p; by split; [right|]].
    destruct (decide (q = directory pin base_dir)) as [->|Hn]; [|left; by rewrite He, Hq1].
    destruct (overridden pin) as [o|] eqn:Ho; [destruct Hr1 as [-> _]; by left|].
    right. exists pin. split; [by left|]. split; [done|]. split; [done|]. right.
    destruct Hr1 as (_ & _ & (c & Hc & Hi)). exists c. by rewrite He.
  - destruct r as [dirs|e]; cbn.
    + destruct (Hs) as (_ & Hd & Hin & Hci). split; [|split].
      * rewrite Hd. do 2 f_equal. unfold dir_of. destruct (overridden pin) as [o|].
        -- destruct Hr1 as [_ Hd1]. by destruct (truthy (environ "CI")); simplify_eq.
        -- by destruct Hr1 as (_ & -> & _).
      * intros p [->|Hp]%elem_of_cons Ho; [|by apply Hin]. rewrite Ho in Hr1.
        eapply synced_keeps; [done|apply Hr1].
      * intros p [->|Hp]%elem_of_cons Ho; [|by apply (Hci p)].
        destruct (overridden pin); [|done]. destruct Hr1 as [_ Hd1]. by destruct (truthy (environ "CI")).
    + destruct Hs as (_ & p & Hp & He). exists p. split; [by right|done].
Qed.
Lemma sync_spec pins base_dir : ∀ w r w',
  sync environ resolve clone pins base_dir w = (r, w') → synced pins base_dir w r w'.
Proof.
  induction pins as [|pin pins IH]; intros w r w'; cbn; unfold se_bind.
  { intros [= <- <-]. split; [by left|]. split; [done|]. split; by intros ? ?%not_elem_of_nil. }
  destruct (materialise _ _ _ pin base_dir w) as [[d|e] w1] eqn:Hm.
  - destruct (sync _ _ _ pins base_dir w1) as [r1 w2] eqn:Hs. intros Hr.
    pose proof (synced_cons _ _ _ _ _ _ _ _ Hm (IH _ _ _ Hs)) as Hc.
    by destruct r1; unfold se_ret in Hr; simplify_eq/=.
  - intros [= <- <-]. destruct (materialise_spec _ _ _ _ _ Hm) as [Hq Hr]. split.
    + intros q. destruct (decide (q = directory pin base_dir)) as [->|]; [|left; by apply Hq].
      destruct (overridden pin) eqn:Ho; [destruct Hr as [-> _]; by left|]. right. exists pin.
      split; [by left|]. split; [done|]. split; [done|]. left. apply Hr.
    + exists pin. split; [by left|]. destruct (overridden pin); [|apply Hr].
      destruct Hr as [_ Hr]. by destruct (truthy (environ "CI")).
Qed.

(** C10: syncing a manifest leaves exactly the pinned commits on disk.  When
    it succeeds, every pin without an override has its own directory, which
    holds the pinned commit with nothing changed and nothing added (a copy
    that was damaged has been fetched again), an override is used only
    outside CI, and syncing again changes nothing and fetches nothing.
    When it fails (a clone fails, a tag has moved, an override is set in CI)
    there is a pin whose directory does not exist, or that is overridden in
    CI.  In any case nothing but directories of pins is touched, and what is
    left in such a directory is the pinned commit or nothing. *)
Theorem sync_leaves_the_pinned_commits pins base_dir w r w' :
  sync environ resolve clone pins base_dir w = (r, w') →
  (∀ q, disk w' !! q = disk w !! q ∨
     ∃ pin, pin ∈ pins ∧ overridden pin = None ∧ q = directory pin base_dir ∧
       (disk w' !! q = None ∨ in_place base_dir w' pin)) ∧
  match r with
  | Ok dirs =>
      dirs = (λ pin, (name pin, dir_of base_dir pin)) <$> pins ∧
      (∀ pin, pin ∈ pins → overridden pin = None → in_place base_dir w' pin) ∧
      (∀ pin, pin ∈ pins → overridden pin ≠ None → truthy (environ "CI") = None) ∧
      sync environ resolve clone pins base_dir w' = (Ok dirs, w')
  | Raise _ =>
      ∃ pin, pin ∈ pins ∧
        if overridden pin then truthy (environ "CI") ≠ None else disk w' !! directory pin base_dir = None
  end.
Proof.
  intros Hs. destruct (sync_spec _ _ _ _ _ Hs) as [Hq Hr].
  split; [done|]. destruct r as [dirs|e]; [|done]. destruct Hr as (-> & Hin & Hci).
  split; [done|]. split; [done|]. split; [done|]. apply sync_quiet. intros pin Hp. apply materialise_again; [|auto].
  destruct (overridden pin) eqn:Ho; [left|by right]. apply (Hci pin); [done|congruence].
Qed.
End synced.

(** ** A running example *)

Definition sha (c : string) : string := c +:+ "0123456789abcdef0123456789abcdef0123456".
Definition demo_table (repo c : string) : Toml :=
  toml_table [("repository", toml_string ("https://github.com/LeavePulse/" +:+ repo +:+ ".git"));
    ("tag", toml_string " v1.2.0 "); ("commit", toml_string (sha c)); ("proto_dir", toml_string "proto/v1")]%string.
Definition demo_manifest (contracts : list (string * Toml)) : Toml :=
  toml_table [("package", toml_table [("metadata", toml_table [("contracts", toml_table contracts)])])]%string.
Definition demo_pin (n c : string) : ContractPin :=
  {| name := n; repository := "https://github.com/LeavePulse/" +:+ n +:+ ".git";
     tag := "v1.2.0"; commit := sha c; proto_dir := "proto/v1" |}.
Definition demo_pins : list (string * ContractPin) :=
  [("agent-contract", demo_pin "agent-contract" "a"); ("catalog", demo_pin "catalog" "b")]%string.
Lemma demo_pins_read : read_pins "Cargo.toml"
  (demo_manifest [("agent-contract", demo_table "agent-contract" "a"); ("catalog", demo_table "catalog" "b")]%string)
  = Ok demo_pins.
Proof. by vm_compute. Qed.

Lemma read_pins_are_safe_witness :
  (("catalog"%string, demo_pin "catalog" "b") ∈ demo_pins) ∧
  startswith "-" (tag (demo_pin "catalog" "b")) = false ∧
  directory (demo_pin "agent-contract" "a") ["srv"%string] ≠ directory (demo_pin "catalog" "b") ["srv"%string].
Proof.
  assert (("catalog"%string, demo_pin "catalog" "b") ∈ demo_pins) as Hin by (right; by left).
  destruct (read_pins_are_safe _ _ _ _ _ demo_pins_read Hin) as (_ & _ & Ht & _ & _ & _ & _ & Hd).
  split; [done|]. split; [done|].
  apply (Hd "agent-contract"%string (demo_pin "agent-contract" "a")); [by left|done].
Defined.

(** The first fetch finds a damaged copy, and a tag that was moved later is
    noticed by the fetch of the second contract. *)
Definition demo_clone (moved : bool) (n : nat) (repo t : string) : option Checkout :=
  Some {| has_git := true; changes := Some EmptyString;
          head := Some (if bool_decide (repo = repository (demo_pin "catalog" "b"))
                        then sha (if moved then "c" else "b") else sha "a") |}.
Definition demo_world : World :=
  {| disk := {[ directory (demo_pin "agent-contract" "a") ["srv"%string] :=
                {| has_git := true; head := Some (sha "a"); changes := Some "M x.proto"%string |} ]};
     fetches := 0 |}.

Lemma sync_leaves_the_pinned_commits_witness :
  (∀ moved n repo t c, demo_clone moved n repo t = Some c → has_git c = true ∧ changes c = Some EmptyString) ∧
  (∃ w', sync (λ _, None) (λ _, []) (demo_clone false) demo_pins.*2 ["srv"%string] demo_world =
           (Ok ((λ p, (name p, directory p ["srv"%string])) <$> demo_pins.*2), w') ∧
         in_place ["srv"%string] w' (demo_pin "agent-contract" "a") ∧ in_place ["srv"%string] w' (demo_pin "catalog" "b")) ∧
  (∃ e w', sync (λ _, None) (λ _, []) (demo_clone true) demo_pins.*2 ["srv"%string] demo_world = (Raise e, w') ∧
         ∃ pin, pin ∈ demo_pins.*2 ∧ disk w' !! directory pin ["srv"%string] = None).
Proof.
  assert (∀ moved n repo t c, demo_clone moved n repo t = Some c → has_git c = true ∧ changes c = Some EmptyString)
    as Hclean by (by intros ????? [= <-]).
  split; [done|]. split.
  - destruct (sync (λ _, None) (λ _, []) (demo_clone false) demo_pins.*2 ["srv"%string] demo_world) as [r w'] eqn:Hs.
    assert (r = Ok ((λ p, (name p, directory p ["srv"%string])) <$> demo_pins.*2)) as ->.
    { apply (f_equal fst) in Hs. cbn [fst] in Hs. rewrite <-Hs. by vm_compute. }
    destruct (sync_leaves_the_pinned_commits _ _ _ (Hclean false) _ _ _ _ _ Hs) as (_ & _ & Hin & _).
    exists w'. split; [done|]. split; apply Hin; try done; [by left|right; by left].
  - destruct (sync (λ _, None) (λ _, []) (demo_clone true) demo_pins.*2 ["srv"%string] demo_world) as [r w'] eqn:Hs.
    assert (r = Raise (tag_moved "catalog" (sha "c"))) as ->.
    { apply (f_equal fst) in Hs. cbn [fst] in Hs. rewrite <-Hs. by vm_compute. }
    destruct (sync_leaves_the_pinned_commits _ _ _ (Hclean true) _ _ _ _ _ Hs) as (_ & pin & Hp & Hd).
    eexists _, w'. split; [done|]. by exists pin.
Defined.
End Contracts.
