(* ===== verification/GrpcErrors.v ===== *)
(** * grpc/servicer.py and grpc/calls.py: domain errors across the mesh

    The server side maps an exception of a servicer to a status, the client
    side maps a status back to an exception.  A Python exception is what the
    code looks at: its class name, whether it is an [Exception], its
    [status_code] when that is an integer, its text. *)

From S2P Require Import Prelude PyStr PyDict Handlers.
#[local] Open Scope se_scope.

Module Servicer.
Import Handlers.

Record PyExn := {
  type_name : string; is_exception : bool; status_code : option Z; text : string }.

Definition ERROR_CLASS_TO_STATUS : list (string * Code) :=
  [("ResourceNotFoundError", NOT_FOUND);
   ("InvalidInputError", INVALID_ARGUMENT);
   ("InvalidFormatError", INVALID_ARGUMENT);
   ("AuthRequiredError", UNAUTHENTICATED);
   ("AuthInvalidTokenError", UNAUTHENTICATED);
   ("AuthPermissionDeniedError", PERMISSION_DENIED);
   ("DuplicateResourceError", ALREADY_EXISTS);
   ("RateLimitError", RESOURCE_EXHAUSTED);
   ("NotAuthorizedException", UNAUTHENTICATED)]%string.
Definition HTTP_STATUS_TO_GRPC : list (Z * Code) :=
  [(400, INVALID_ARGUMENT); (401, UNAUTHENTICATED); (403, PERMISSION_DENIED); (404, NOT_FOUND);
   (409, ALREADY_EXISTS); (422, INVALID_ARGUMENT); (429, RESOURCE_EXHAUSTED); (501, UNIMPLEMENTED);
   (503, UNAVAILABLE); (504, DEADLINE_EXCEEDED)].

Definition of_http (http_status : Z) : option Code :=
  match dget HTTP_STATUS_TO_GRPC http_status with
  | Some mapped => Some mapped
  | None =>
      if (400 <=? http_status) && (http_status <? 500) then Some INVALID_ARGUMENT
      else if 500 <=? http_status then Some INTERNAL
      else None
  end.
Definition grpc_status_for_exception (exc : PyExn) : option Code :=
  match dget ERROR_CLASS_TO_STATUS (type_name exc) with
  | Some status => Some status
  | None => match status_code exc with Some http_status => of_http http_status | None => None end
  end.

Definition domain_status (error : PyExn) : option (Code * string) :=
  if negb (is_exception error) then None
  else match grpc_status_for_exception error with
       | None => None
       | Some status => Some (status, str_or (text error) (type_name error))
       end.

Section servicer.
Context {Req Resp Amb Codec : Type} `{LibraryErrors PyExn}.
Abbreviation M := (SE (Call Amb Resp) (Exn PyExn)).

Definition abort_not_found (resource resource_id : string) : M unit :=
  let detail := if is_empty resource_id then resource +:+ " not found"
                else resource +:+ " " +:+ resource_id +:+ " not found" in
  abort (NOT_FOUND, detail).
Definition abort_invalid (detail : string) : M unit := abort (INVALID_ARGUMENT, detail).

(** The decorator of one coroutine method. *)
Definition grpc_error_handler (func : Req → M (option Resp)) (request : Req) : M (option Resp) :=
  se_try (func request) (λ exc,
    match exc with
    | AbortError => se_raise AbortError
    | Raised e =>
        if negb (is_exception e) then se_raise (Raised e)
        else
          do* match grpc_status_for_exception e with
              | Some status => abort (status, str_or (text e) (type_name e))
              | None => se_ret tt
              end in
          do* abort (INTERNAL, "Internal server error"%string) in se_ret None
    end).

(** [DomainErrorServerInterceptor] *)
Definition intercept_service (method : string)
    (continuation : option (MethodHandler Req Resp PyExn Amb Codec)) :
    option (MethodHandler Req Resp PyExn Amb Codec) :=
  if contains "grpc.health" method || contains "grpc.reflection" method then continuation
  else match continuation with
       | None => None
       | Some handler => Some (wrap None (Some domain_status) handler)
       end.
End servicer.
End Servicer.

Module Calls.

Definition UPSTREAM_FAILURE_CODES : list Code :=
  [UNAVAILABLE; DEADLINE_EXCEEDED; RESOURCE_EXHAUSTED; INTERNAL].

(** [AioRpcError], and the exceptions a call is translated to: those of
    awesome-errors when it is installed, built-in ones otherwise. *)
Record AioRpcError := { rpc_code : Code; rpc_details : option string }.
Inductive Translated :=
  | ResourceNotFoundError (resource : string) (resource_id : option string)
  | InvalidInputError (detail : string)
  | AuthRequiredError (detail : string)
  | AuthPermissionDeniedError (detail : string)
  | AppError_SERVICE_UNAVAILABLE (detail : string)
  | LookupError (detail : string)
  | ValueError (detail : string)
  | PermissionError (detail : string)
  | ConnectionError (detail : string)
  | custom (tag : string) (detail : string).
Inductive CallError :=
  | rpc (e : AioRpcError)
  | translated (e : Translated) (cause : AioRpcError)
  | other_error.

(** [is_upstream_failure]: the error itself or its [__cause__]. *)
Definition rpc_of (error : CallError) : option AioRpcError :=
  match error with rpc e => Some e | translated _ cause => Some cause | other_error => None end.
Definition is_upstream_failure (error : CallError) : bool :=
  match rpc_of error with
  | Some e => bool_decide (rpc_code e ∈ UPSTREAM_FAILURE_CODES)
  | None => false
  end.

Definition resource_label (resource resource_id : option string) : string :=
  let label := str_or (default EmptyString resource) "resource" in
  match resource_id with None => label | Some rid => label +:+ " " +:+ rid end.
Abbreviation Factory := (string → option string → option string → Translated).
Definition fallback_not_found : Factory := λ detail resource rid,
  LookupError (str_or detail (resource_label resource rid +:+ " not found")).
Definition fallback_invalid : Factory := λ detail _ _, ValueError (str_or detail "Invalid argument").
Definition fallback_auth_required : Factory := λ detail _ _, PermissionError (str_or detail "Authentication required").
Definition fallback_permission_denied : Factory := λ detail _ _,
  PermissionError (str_or detail "Insufficient permissions").
Definition fallback_already_exists : Factory := λ detail _ _, ValueError (str_or detail "Resource already exists").
Definition unavailable_text (detail : string) (resource : option string) : string :=
  str_or detail (str_or (default EmptyString resource) "upstream service" +:+ " is unavailable").
Definition fallback_unavailable : Factory := λ detail resource _, ConnectionError (unavailable_text detail resource).
Definition unavailable : Factory := λ detail resource _,
  AppError_SERVICE_UNAVAILABLE (unavailable_text detail resource).

(** [**dict.fromkeys(UPSTREAM_FAILURE_CODES, f)] after the other entries. *)
Definition default_translation (awesome_errors : bool) : list (Code * Factory) :=
  if negb awesome_errors then
    [(NOT_FOUND, fallback_not_found); (INVALID_ARGUMENT, fallback_invalid);
     (UNAUTHENTICATED, fallback_auth_required); (PERMISSION_DENIED, fallback_permission_denied);
     (ALREADY_EXISTS, fallback_already_exists)]
    ++ ((λ c, (c, fallback_unavailable)) <$> UPSTREAM_FAILURE_CODES)
  else
    [(NOT_FOUND, λ _ resource rid, ResourceNotFoundError (str_or (default EmptyString resource) "resource") rid);
     (INVALID_ARGUMENT, λ detail _ _, InvalidInputError (str_or detail "Invalid argument"));
     (UNAUTHENTICATED, λ detail _ _, AuthRequiredError (str_or detail "Authentication required"));
     (PERMISSION_DENIED, λ detail _ _, AuthPermissionDeniedError (str_or detail "Insufficient permissions"));
     (ALREADY_EXISTS, λ detail _ _, InvalidInputError (str_or detail "Resource already exists"))]
    ++ ((λ c, (c, unavailable)) <$> UPSTREAM_FAILURE_CODES).

Definition code_name (c : Code) : string :=
  match c with
  | OK => "OK" | CANCELLED => "CANCELLED" | UNKNOWN => "UNKNOWN" | INVALID_ARGUMENT => "INVALID_ARGUMENT"
  | DEADLINE_EXCEEDED => "DEADLINE_EXCEEDED" | NOT_FOUND => "NOT_FOUND" | ALREADY_EXISTS => "ALREADY_EXISTS"
  | PERMISSION_DENIED => "PERMISSION_DENIED" | UNAUTHENTICATED => "UNAUTHENTICATED"
  | RESOURCE_EXHAUSTED => "RESOURCE_EXHAUSTED" | FAILED_PRECONDITION => "FAILED_PRECONDITION"
  | ABORTED => "ABORTED" | OUT_OF_RANGE => "OUT_OF_RANGE" | UNIMPLEMENTED => "UNIMPLEMENTED"
  | INTERNAL => "INTERNAL" | UNAVAILABLE => "UNAVAILABLE" | DATA_LOSS => "DATA_LOSS"
  end%string.

(** [extra] is a mapping; an entry may be [None], which falls through. *)
Definition translate_grpc_error (awesome_errors : bool) (extra : option (list (Code * option Factory)))
    (resource resource_id : option string) (exc : AioRpcError) : Translated :=
  let detail := default EmptyString (rpc_details exc) in
  let factory :=
    match match extra with Some m => dget m (rpc_code exc) | None => None end with
    | Some (Some f) => Some f
    | _ => dget (default_translation awesome_errors) (rpc_code exc)
    end in
  match factory with
  | Some f => f detail resource resource_id
  | None =>
      fallback_invalid
        (str_or detail ("upstream rejected the request (" +:+ code_name (rpc_code exc) +:+ ")")) resource resource_id
  end.

(** [grpc_call]: any other exception of the stub passes through. *)
Definition grpc_call {A} (awesome_errors : bool) (extra : option (list (Code * option Factory)))
    (resource resource_id : option string) (answer : result CallError A) : result CallError A :=
  match answer with
  | Raise (rpc exc) => Raise (translated (translate_grpc_error awesome_errors extra resource resource_id exc) exc)
  | _ => answer
  end.
End Calls.

(** ** A domain error ends its call with its status *)

Module Mesh.
Import Handlers Servicer Calls.

Section ends.
Context {Req Resp Amb Codec : Type} `{LibraryErrors PyExn}.
Abbreviation M := (SE (Call Amb Resp) (Exn PyExn)).

(** What the interceptor makes of the servicer's outcome. *)
Definition domain_servicer (s : Servicer Req Resp PyExn Amb) : Servicer Req Resp PyExn Amb :=
  {| is_async := is_async s;
     run := (if is_async s then async_wrapped else sync_wrapped) None (Some domain_status) (run s) |}.
Definition domain_outcome (async : bool) (r : result (Exn PyExn) (option Resp)) (c1 : Call Amb Resp) :
    result (Exn PyExn) (option Resp) * Call Amb Resp :=
  match r with
  | Raise (Raised e) =>
      match domain_status e with
      | Some st =>
          if async then match abort st c1 with (Raise x, c2) => (Raise x, c2) | (Ok _, c2) => (Raise (Raised e), c2) end
          else (Ok None, with_status st c1)
      | None => (r, c1)
      end
  | _ => (r, c1)
  end.
Lemma domain_servicer_run s request c r c1 : run s request c = (r, c1) →
  run (domain_servicer s) request c = domain_outcome (is_async s) r c1.
Proof.
  intros Hr. cbn. unfold domain_outcome. destruct (is_async s); unfold async_wrapped, sync_wrapped, se_bind; cbn;
    rewrite Hr; destruct r as [a|[|e]]; try done; cbn; destruct (domain_status e) as [st|]; try done;
    by destruct (abort st c1) as [[]].
Qed.

(** Whoever maps it, a domain error gets the same status.  For a servicer
    of any kind and model behind the server's interceptor, and for a
    coroutine under the decorator: what it returns and an abort of its own
    are kept; a domain error ends the call with the status and the text of
    the exception; an exception that is none passes the interceptor
    unchanged, is reported as INTERNAL by the decorator without its text, and
    one that is not an [Exception] (a cancellation) passes both. *)
Lemma domain_errors_have_one_status (h : MethodHandler Req Resp PyExn Amb Codec) s method request c r c1 :
  well_formed h s → contains "grpc.health" method = false → contains "grpc.reflection" method = false →
  run s request c = (r, c1) → aborted c1 = None ∨ r = Raise AbortError →
  ∃ h' s', intercept_service method (Some h) = Some h' ∧ well_formed h' s' ∧ same_kind h h' ∧
    is_async s' = is_async s ∧
    match r with
    | Raise (Raised e) =>
        match domain_status e with
        | Some st =>
            run s' request c = (if is_async s then (Raise AbortError, with_abort st c1)
                                else (Ok None, with_status st c1)) ∧
            grpc_error_handler (run s) request c = (Raise AbortError, with_abort st c1)
        | None =>
            run s' request c = (r, c1) ∧
            grpc_error_handler (run s) request c =
              (if is_exception e
               then (Raise AbortError, with_abort (INTERNAL, "Internal server error"%string) c1) else (r, c1))
        end
    | _ => run s' request c = (r, c1) ∧ grpc_error_handler (run s) request c = (r, c1)
    end.
Proof.
  intros Hw H1 H2 Hr Hab. unfold intercept_service. rewrite H1, H2. cbn.
  eexists _, _. split; [done|]. split; [by apply wrap_well_formed|]. split; [apply same_kind_wrap|].
  split; [done|]. unfold grpc_error_handler, se_try. rewrite Hr.
  pose proof (domain_servicer_run s request c r c1 Hr) as Hrun. cbn [run domain_servicer] in Hrun |- *.
  rewrite Hrun. unfold domain_outcome. destruct r as [a|[|e]]; [done|done|].
  destruct Hab as [Hab|]; [|done]. unfold domain_status, abort, se_bind, se_ret, se_raise. rewrite Hab.
  destruct (is_exception e); [|done]. cbn. destruct (grpc_status_for_exception e) as [st|]; cbn; by rewrite Hab.
Qed.
End ends.

(** What the client of a call sees of a status, with awesome-errors. *)
Definition seen (resource rid : option string) (st : Code * string) : Translated :=
  translate_grpc_error true None resource rid {| rpc_code := st.1; rpc_details := Some st.2 |}.
(** What it is to see of an HTTP status. *)
Definition seen_of_http (resource rid : option string) (h : Z) (detail : string) : Translated :=
  if h =? 401 then AuthRequiredError detail
  else if h =? 403 then AuthPermissionDeniedError detail
  else if h =? 404 then ResourceNotFoundError (str_or (default EmptyString resource) "resource") rid
  else if h =? 429 then AppError_SERVICE_UNAVAILABLE detail
  else if h <? 500 then InvalidInputError detail
  else if h =? 501 then ValueError detail
  else AppError_SERVICE_UNAVAILABLE detail.

Lemma str_or_nonempty s t : s ≠ EmptyString → str_or s t = s.
Proof. intros Hs. unfold str_or. by apply is_empty_false in Hs as ->. Qed.
Lemma seen_code resource rid code detail : detail ≠ EmptyString →
  seen resource rid (code, detail) =
  match code with
  | NOT_FOUND => ResourceNotFoundError (str_or (default EmptyString resource) "resource") rid
  | INVALID_ARGUMENT | ALREADY_EXISTS => InvalidInputError detail
  | UNAUTHENTICATED => AuthRequiredError detail
  | PERMISSION_DENIED => AuthPermissionDeniedError detail
  | UNAVAILABLE | DEADLINE_EXCEEDED | RESOURCE_EXHAUSTED | INTERNAL => AppError_SERVICE_UNAVAILABLE detail
  | _ => ValueError detail
  end.
Proof.
  intros Hd. unfold seen, translate_grpc_error.
  destruct code; lazy -[str_or unavailable_text String.append];
    unfold unavailable_text; by rewrite ?(str_or_nonempty detail _ Hd).
Qed.
Lemma of_http_seen resource rid h code detail : detail ≠ EmptyString → of_http h = Some code →
  seen resource rid (code, detail) = seen_of_http resource rid h detail ∧ 400 <= h.
Proof.
  intros Hd. unfold of_http, seen_of_http. cbn [dget HTTP_STATUS_TO_GRPC].
  repeat (case_decide; [subst; intros [= <-]; rewrite seen_code by done; done|]).
  destruct (400 <=? h) eqn:Hge, (h <? 500) eqn:Hlt5, (500 <=? h) eqn:Hge5; cbn; try done; try lia;
    intros [= <-]; rewrite seen_code by done; (split; [|lia]);
    repeat match goal with |- context [?a =? ?b] => destruct (Z.eqb_spec a b); [lia|] end; done.
Qed.

(** C33: a domain error arrives as what it was.  Raised behind one service's
    interceptor and translated by the caller's [grpc_call]: a missing
    resource, a bad input, a missing or bad credential and a missing
    permission arrive as the exception of that meaning, with their text (for
    a missing resource, with the caller's own name for it); any other
    exception arrives by its HTTP status, a client error as a client error
    and a server error as an unavailable upstream; and it counts as an
    upstream failure exactly when it arrives as one, before and after the
    translation. *)
Theorem errors_cross_the_mesh e st resource rid :
  domain_status e = Some st → type_name e ≠ EmptyString →
  let sent := {| rpc_code := st.1; rpc_details := Some st.2 |} in
  let t := seen resource rid st in
  grpc_call (A:=unit) true None resource rid (Raise (rpc sent)) = Raise (translated t sent) ∧
  (st.2 = text e ∨ text e = EmptyString ∧ st.2 = type_name e) ∧
  (is_upstream_failure (translated t sent) = true ↔ t = AppError_SERVICE_UNAVAILABLE st.2) ∧
  is_upstream_failure (rpc sent) = is_upstream_failure (translated t sent) ∧
  (type_name e = "ResourceNotFoundError"%string →
     t = ResourceNotFoundError (str_or (default EmptyString resource) "resource") rid) ∧
  (type_name e ∈ ["InvalidInputError"; "InvalidFormatError"; "DuplicateResourceError"]%string →
     t = InvalidInputError st.2) ∧
  (type_name e ∈ ["AuthRequiredError"; "AuthInvalidTokenError"; "NotAuthorizedException"]%string →
     t = AuthRequiredError st.2) ∧
  (type_name e = "AuthPermissionDeniedError"%string → t = AuthPermissionDeniedError st.2) ∧
  (dget ERROR_CLASS_TO_STATUS (type_name e) = None →
     ∃ h, status_code e = Some h ∧ 400 <= h ∧ t = seen_of_http resource rid h st.2).
Proof.
  intros Hst Hname sent t. unfold domain_status in Hst. destruct (is_exception e); [|done]. cbn [negb] in Hst.
  destruct (grpc_status_for_exception e) as [code|] eqn:Hcode; [|done]. injection Hst as <-. cbn [fst snd] in *.
  set (detail := str_or (text e) (type_name e)) in *.
  assert (detail ≠ EmptyString ∧ (detail = text e ∨ text e = EmptyString ∧ detail = type_name e)) as [Hne Hd].
  { unfold detail, str_or. destruct (is_empty (text e)) eqn:He; [apply is_empty_true in He|apply is_empty_false in He]; auto. }
  assert (t = seen resource rid (code, detail)) as Ht by done. clearbody t detail.
  split; [by subst|]. split; [done|]. rewrite seen_code in Ht by done.
  split. { subst t. unfold is_upstream_failure. cbn. rewrite bool_decide_eq_true. destruct code; split; try done;
      try (intros _; apply (bool_decide_eq_true_1 (_ ∈ UPSTREAM_FAILURE_CODES)); by vm_compute);
      intros Hin; apply (bool_decide_eq_true_2 (_ ∈ UPSTREAM_FAILURE_CODES)) in Hin; by vm_compute in Hin. }
  split; [done|]. unfold grpc_status_for_exception in Hcode.
  split; [|split; [|split; [|split]]].
  - intros Hn. rewrite Hn in Hcode. lazy in Hcode. by simplify_eq.
  - intros Hn. repeat (apply elem_of_cons in Hn as [Hn|Hn]; [rewrite Hn in Hcode; lazy in Hcode; by simplify_eq|]).
    by apply not_elem_of_nil in Hn.
  - intros Hn. repeat (apply elem_of_cons in Hn as [Hn|Hn]; [rewrite Hn in Hcode; lazy in Hcode; by simplify_eq|]).
    by apply not_elem_of_nil in Hn.
  - intros Hn. rewrite Hn in Hcode. lazy in Hcode. by simplify_eq.
  - intros Hn. rewrite Hn in Hcode. destruct (status_code e) as [h|]; [|done]. exists h.
    destruct (of_http_seen resource rid h code detail Hne Hcode) as [He Hh]. rewrite seen_code in He by done.
    split; [done|]. split; [done|]. by rewrite Ht, He.
Qed.

(** ** A running example *)

#[local] Instance demo_errors : LibraryErrors PyExn :=
  {| type_error := {| type_name := "TypeError"; is_exception := true; status_code := None; text := "" |};
     usage_error := {| type_name := "UsageError"; is_exception := true; status_code := None; text := "" |} |}.
Definition conflict : PyExn :=
  {| type_name := "SlugTaken"; is_exception := true; status_code := Some 409; text := "slug taken" |}.
Definition demo_servicer (async : bool) : Servicer nat nat PyExn unit :=
  {| is_async := async; run := λ _, se_raise (Raised conflict) |}.
Definition demo_handler (async : bool) : MethodHandler nat nat PyExn unit bool :=
  unary_unary_rpc_method_handler (demo_servicer async) true false.
Definition demo_call : Call unit nat :=
  {| ambient := tt; metadata := None; sent := []; aborted := None; code_set := None; details_set := None |}.

Lemma domain_errors_have_one_status_witness :
  (∃ h' s', intercept_service "/pulse.v1.Catalog/Create" (Some (demo_handler true)) = Some h' ∧ well_formed h' s' ∧
     run s' 0%nat demo_call = (Raise AbortError, with_abort (ALREADY_EXISTS, "slug taken"%string) demo_call)) ∧
  (∃ h' s', intercept_service "/pulse.v1.Catalog/Create" (Some (demo_handler false)) = Some h' ∧ well_formed h' s' ∧
     run s' 0%nat demo_call = (Ok None, with_status (ALREADY_EXISTS, "slug taken"%string) demo_call)).
Proof.
  split.
  - destruct (domain_errors_have_one_status (demo_handler true) (demo_servicer true) "/pulse.v1.Catalog/Create" 0%nat
      demo_call _ _ eq_refl eq_refl eq_refl eq_refl (or_introl eq_refl)) as (h' & s' & ? & ? & _ & _ & ? & _).
    by exists h', s'.
  - destruct (domain_errors_have_one_status (demo_handler false) (demo_servicer false) "/pulse.v1.Catalog/Create" 0%nat
      demo_call _ _ eq_refl eq_refl eq_refl eq_refl (or_introl eq_refl)) as (h' & s' & ? & ? & _ & _ & ? & _).
    by exists h', s'.
Defined.

Lemma errors_cross_the_mesh_witness :
  domain_status conflict = Some (ALREADY_EXISTS, "slug taken"%string) ∧
  seen None None (ALREADY_EXISTS, "slug taken"%string) = InvalidInputError "slug taken" ∧
  is_upstream_failure (rpc {| rpc_code := ALREADY_EXISTS; rpc_details := Some "slug taken"%string |}) = false.
Proof.
  destruct (errors_cross_the_mesh conflict (ALREADY_EXISTS, "slug taken"%string) None None eq_refl ltac:(done))
    as (_ & _ & Hup & _ & _ & _ & _ & _ & Hh). split; [done|].
  destruct (Hh eq_refl) as (h & [= <-] & _ & Ht). split; [exact Ht|].
  apply not_true_iff_false. by intros H%Hup.
Defined.
End Mesh.
