(* ===== verification/Jwt.v ===== *)
(** * grpc/jwt_forwarding.py: the user's token across the mesh

    The client side copies the task's token into the metadata of a call, the
    server side verifies it and binds what it proved while the servicer runs.
    Verification is a parameter; metadata keys and values are text. *)

From S2P Require Import Prelude PyStr Handlers.
#[local] Open Scope se_scope.

Module Jwt.
Import Handlers.
Abbreviation Metadata := (list (string * string)).

Definition AUTHORIZATION_HEADER : string := "authorization".
Definition ON_BEHALF_METADATA : string := "x-on-behalf-user-id".
Definition BEARER_PREFIX : string := "bearer ".
Definition is_key (wanted : string) (kv : string * string) : bool := bool_decide (lower kv.1 = wanted).

(** ** The client side *)

(** [set_forwarded_jwt]: an empty token is none. *)
Definition set_forwarded_jwt (jwt : option string) : option string :=
  match jwt with Some j => str_or_none j | None => None end.
Definition set_forwarded_on_behalf (user_id : option Z) : option Z := user_id.
(** Binding a context variable gives its new value and a token, which is what
    it was; resetting it with the token. *)
Definition bind {A} (value current : A) : A * A := (value, current).
Definition reset {A} (token : A) (_current : A) : A := token.
(** What a task bound last is undone first: the value before both is back. *)
Lemma nested_bindings_unwind {A} (current value value' : A) :
  let '(v, outer) := bind value current in let '(v', inner) := bind value' v in
  reset inner v' = v ∧ reset outer (reset inner v') = current.
Proof. done. Qed.
(** [JwtForwardingClientInterceptor]: the metadata the call is sent with. *)
Definition intercept_unary_unary (forwarded_jwt : option string) (forwarded_on_behalf : option Z)
    (md : option Metadata) : option Metadata :=
  match forwarded_jwt with
  | None => md
  | Some jwt =>
      if is_empty jwt then md
      else
        let own := default [] md in
        if existsb (is_key AUTHORIZATION_HEADER) own then md
        else
          let with_jwt := own ++ [(AUTHORIZATION_HEADER, "Bearer " +:+ jwt)] in
          match forwarded_on_behalf with
          | Some on_behalf =>
              if negb (existsb (is_key ON_BEHALF_METADATA) with_jwt)
              then Some (with_jwt ++ [(ON_BEHALF_METADATA, str_int on_behalf)])
              else Some with_jwt
          | None => Some with_jwt
          end
  end.

(** ** The server side *)

Fixpoint first_value (wanted : string) (md : Metadata) : option string :=
  match md with
  | [] => None
  | kv :: md' => if is_key wanted kv then Some kv.2 else first_value wanted md'
  end.
Definition read_authorization (md : option Metadata) : option string :=
  first_value AUTHORIZATION_HEADER (default [] md).
Definition read_on_behalf (md : option Metadata) : option Z :=
  match first_value ON_BEHALF_METADATA (default [] md) with
  | Some raw => py_int (strip raw)
  | None => None
  end.

Section server.
Context {Req Resp E P Codec : Type} `{LibraryErrors E}.
(** A verified payload: whether it is a bot's, and [int(payload.sub)]. *)
Context (is_bot : P → bool) (sub : P → option Z).
(** The verifier's answer; [interrupted] is an exception that is not an
    [Exception], such as a cancellation. *)
Inductive Verified := valid (p : P) | rejected | interrupted (e : E).
Context (verify : string → Verified).

(** The context variables of the task. *)
Record Vars := { current_jwt_payload : option P; current_on_behalf : option Z }.
Context {Amb : Type} `{vars : Lens Amb Vars}.
Abbreviation M := (SE (Call Amb Resp) (Exn E)).
Abbreviation Handler := (MethodHandler Req Resp E Amb Codec).
Definition set_payload (p : option P) (v : Vars) : Vars :=
  {| current_jwt_payload := p; current_on_behalf := current_on_behalf v |}.
Definition set_on_behalf (u : option Z) (v : Vars) : Vars :=
  {| current_jwt_payload := current_jwt_payload v; current_on_behalf := u |}.

(** [AuthRequiredError] *)
Inductive AuthError := auth_required.
Definition user_id_from_payload (payload : option P) : result AuthError Z :=
  match payload with
  | Some p => match sub p with Some u => Ok u | None => Raise auth_required end
  | None => Raise auth_required
  end.
Definition effective_user_id (v : Vars) (payload : option P) : result AuthError Z :=
  match current_on_behalf v, payload with
  | Some on_behalf, Some p => if is_bot p then Ok on_behalf else user_id_from_payload payload
  | _, _ => user_id_from_payload payload
  end.

Definition not_bearer : Code * string := (UNAUTHENTICATED, "authorization metadata must be a Bearer token"%string).
Definition invalid_jwt : Code * string := (UNAUTHENTICATED, "invalid or expired authorization JWT"%string).
Definition verify_metadata_jwt : M (option P) := λ c,
  match read_authorization (metadata c) with
  | None => (Ok None, c)
  | Some auth_value =>
      if is_empty auth_value then (Ok None, c)
      else if negb (startswith BEARER_PREFIX (lower auth_value))
      then (do* abort not_bearer in se_ret None) c
      else
        match verify (strip (sdrop (String.length BEARER_PREFIX) auth_value)) with
        | valid p => (Ok (Some p), c)
        | rejected => (do* abort invalid_jwt in se_ret None) c
        | interrupted e => (Raise (Raised e), c)
        end
  end.

(** [await inner_unary_unary(request, context)]: what a plain function
    returned cannot be awaited. *)
Definition awaited (inner : Servicer Req Resp E Amb) (request : Req) : M (option Resp) :=
  if is_async inner then run inner request
  else do* run inner request in se_raise (Raised type_error).
(** The context variables set for the call, by what was verified and the
    call's metadata. *)
Definition bind_payload (md : option Metadata) (payload : option P) (v : Vars) : Vars :=
  match payload with
  | None => v
  | Some p =>
      let v1 := set_payload (Some p) v in
      if is_bot p then
        match read_on_behalf md with
        | Some u => set_on_behalf (Some u) v1
        | None => v1
        end
      else v1
  end.
(** The [finally] clause: the variables that were set get their old values. *)
Definition unbind_payload (md : option Metadata) (payload : option P) (old : Vars) (v : Vars) : Vars :=
  match payload with
  | None => v
  | Some p =>
      let v1 := if is_bot p then
                  match read_on_behalf md with
                  | Some _ => set_on_behalf (current_on_behalf old) v
                  | None => v
                  end
                else v in
      set_payload (current_jwt_payload old) v1
  end.
Definition update (f : Vars → Vars) (a : Amb) : Amb := put (f (view a)) a.
Definition wrapped (inner : Servicer Req Resp E Amb) (request : Req) : M (option Resp) :=
  let* payload := verify_metadata_jwt in λ c,
  let md := metadata c in
  let '(r, c1) := awaited inner request (with_ambient (update (bind_payload md payload)) c) in
  (r, with_ambient (update (unbind_payload md payload (view (ambient c)))) c1).

Definition wrap_handler_with_jwt_context (handler : Handler) : Handler :=
  match unary_unary handler with
  | None => handler
  | Some inner =>
      unary_unary_rpc_method_handler {| is_async := true; run := wrapped inner |}
        (request_deserializer handler) (response_serializer handler)
  end.
(** [JwtContextServerInterceptor] *)
Definition intercept_service (method : string) (continuation : option Handler) : option Handler :=
  if contains "grpc.health" method || contains "grpc.reflection" method then continuation
  else match continuation with
       | None => None
       | Some handler => Some (wrap_handler_with_jwt_context handler)
       end.

(** ** Who a call acts as *)

(** What the metadata of a call proves. *)
Inductive Identity := anonymous | refused (st : Code * string) | proved (p : P) | broken (e : E).
Definition identity (md : option Metadata) : Identity :=
  match read_authorization md with
  | None => anonymous
  | Some a =>
      if is_empty a then anonymous
      else if negb (startswith BEARER_PREFIX (lower a)) then refused not_bearer
      else match verify (strip (sdrop (String.length BEARER_PREFIX) a)) with
           | valid p => proved p | rejected => refused invalid_jwt | interrupted e => broken e
           end
  end.
Definition acts_as (md : option Metadata) (p : P) : result AuthError Z :=
  match read_on_behalf md with
  | Some u => if is_bot p then Ok u else user_id_from_payload (Some p)
  | None => user_id_from_payload (Some p)
  end.

Lemma verify_metadata_identity c : aborted c = None →
  verify_metadata_jwt c =
  match identity (metadata c) with
  | anonymous => (Ok None, c)
  | proved p => (Ok (Some p), c)
  | refused st => (Raise AbortError, with_abort st c)
  | broken e => (Raise (Raised e), c)
  end.
Proof.
  intros Hc. unfold verify_metadata_jwt, identity, se_bind, abort. rewrite Hc.
  by repeat case_match; simplify_eq.
Qed.

Lemma update_id f a : f (view a) = view a → update f a = a.
Proof. intros Hf. unfold update. by rewrite Hf, put_view. Qed.
Lemma bind_effective md p v : current_on_behalf v = None →
  current_jwt_payload (bind_payload md (Some p) v) = Some p ∧
  effective_user_id (bind_payload md (Some p) v) (Some p) =
    (if is_bot p then match read_on_behalf md with Some u => Ok u | None => user_id_from_payload (Some p) end
     else user_id_from_payload (Some p)).
Proof.
  intros Hv. unfold bind_payload, effective_user_id.
  destruct (is_bot p) eqn:Hb, (read_on_behalf md); cbn; rewrite ?Hv; try done; by rewrite ?Hb.
Qed.
Lemma unbind_bind md p v : unbind_payload md (Some p) v (bind_payload md (Some p) v) = v.
Proof.
  unfold unbind_payload, bind_payload. destruct v as [j b]; cbn. by destruct (is_bot p), (read_on_behalf md).
Qed.

(** [h'] serves the calls of the coroutine servicer [s] as what their
    metadata proves. *)
Definition serves_identity (h h' : Handler) (s : Servicer Req Resp E Amb) : Prop :=
  ∃ s', well_formed h' s' ∧ same_kind h h' ∧ is_async s' = true ∧
    ∀ request c, aborted c = None →
      let md := metadata c in
      match identity md with
      | refused st => run s' request c = (Raise AbortError, with_abort st c)
      | broken e => run s' request c = (Raise (Raised e), c)
      | anonymous => run s' request c = run s request c
      | proved p =>
          ∀ r c1, run s request (with_ambient (update (bind_payload md (Some p))) c) = (r, c1) →
            run s' request c = (r, with_ambient (update (unbind_payload md (Some p) (view (ambient c)))) c1)
      end.
Lemma unary_serves_identity h s : well_formed h s → request_streaming h = false → response_streaming h = false →
  is_async s = true → serves_identity h (wrap_handler_with_jwt_context h) s.
Proof.
  intros Hw Hq Hs Ha. assert (unary_unary h = Some s) as Hu.
  { rewrite Hw. unfold factory. by rewrite Hq, Hs. }
  unfold wrap_handler_with_jwt_context. rewrite Hu. exists {| is_async := true; run := wrapped s |}.
  split; [done|]. split; [by split_and!|]. split; [done|]. intros request c Hab md. cbn [run].
  unfold wrapped, se_bind. rewrite verify_metadata_identity by done. fold md. unfold awaited. rewrite Ha.
  assert (∀ c : Call Amb Resp, with_ambient (update (λ v, v)) c = c) as Hid.
  { intros [a m sn ab cs ds]. unfold with_ambient; cbn. by rewrite update_id. }
  destruct (identity md) as [|st|p|e]; try done.
  - change (bind_payload md None) with (λ v : Vars, v). rewrite Hid. destruct (run s request c) as [r c1].
    change (unbind_payload md None (view (ambient c))) with (λ v : Vars, v). by rewrite Hid.
  - intros r c1 Hr. cbv zeta. fold md. by rewrite Hr.
Qed.

Lemma wrap_jwt_well_formed h s : well_formed h s →
  same_kind h (wrap_handler_with_jwt_context h) ∧ ∃ s', well_formed (wrap_handler_with_jwt_context h) s'.
Proof.
  intros Hw. unfold wrap_handler_with_jwt_context. destruct (unary_unary h) as [i|] eqn:Hu; [|by split; [|exists s]].
  assert (request_streaming h = false ∧ response_streaming h = false) as [Hq Hs].
  { rewrite Hw in Hu |- *. unfold factory in *. by destruct (request_streaming h), (response_streaming h). }
  split; [by split_and!|]. by eexists.
Qed.

(** C9: a call acts as the user its token proves.  For a coroutine servicer
    of a unary method, whatever the metadata: without a token it runs with no
    payload, and asking whom it acts for is refused; with a token that is
    not a bearer token or does not verify, it does not run and the call ends
    as UNAUTHENTICATED; with a verified one it runs with that payload and
    acts for its subject, and for someone else only when the payload is a
    bot's and the call names whom.  What was bound is unbound when the
    servicer ends, however it ends. *)
Theorem call_acts_as_its_identity (h : Handler) s method request c :
  well_formed h s → request_streaming h = false → response_streaming h = false → is_async s = true →
  contains "grpc.health" method = false → contains "grpc.reflection" method = false →
  aborted c = None → view (ambient c) = {| current_jwt_payload := None; current_on_behalf := None |} →
  let md := metadata c in
  ∃ h' s', intercept_service method (Some h) = Some h' ∧ well_formed h' s' ∧ same_kind h h' ∧
    match identity md with
    | refused st => run s' request c = (Raise AbortError, with_abort st c)
    | broken e => run s' request c = (Raise (Raised e), c)
    | anonymous =>
        run s' request c = run s request c ∧
        effective_user_id (view (ambient c)) (current_jwt_payload (view (ambient c))) = Raise auth_required
    | proved p =>
        ∃ v, current_jwt_payload v = Some p ∧
          effective_user_id v (Some p) =
            (if is_bot p then match read_on_behalf md with Some u => Ok u | None => user_id_from_payload (Some p) end
             else user_id_from_payload (Some p)) ∧
          ∀ r c1, run s request (with_ambient (put v) c) = (r, c1) →
            ∃ c', run s' request c = (r, c') ∧ sent c' = sent c1 ∧ aborted c' = aborted c1 ∧
              current_jwt_payload (view (ambient c')) = None ∧
              (view (ambient c1) = v → view (ambient c') = view (ambient c))
    end.
Proof.
  intros Hw Hq Hs Ha H1 H2 Hab Hv md. unfold intercept_service. rewrite H1, H2. cbn [orb].
  destruct (unary_serves_identity h s Hw Hq Hs Ha) as (s' & Hw' & Hk & _ & Hrun).
  exists (wrap_handler_with_jwt_context h), s'. split; [done|]. split; [done|]. split; [done|].
  specialize (Hrun request c Hab). fold md in Hrun. cbv zeta in Hrun. fold md in Hrun.
  destruct (identity md) as [|st|p|e]; [by rewrite Hrun, Hv|done| |done].
  destruct (bind_effective md p (view (ambient c)) ltac:(by rewrite Hv)) as [Hbp Hbe].
  exists (bind_payload md (Some p) (view (ambient c))). split; [done|]. split; [done|].
  intros r c1 Hr. eexists. split; [by apply Hrun|]. split; [done|]. split; [done|].
  cbn [ambient with_ambient]. unfold update. rewrite view_put. split; [by rewrite Hv|].
  intros ->. apply unbind_bind.
Qed.

Lemma first_value_app wanted md md' :
  first_value wanted (md ++ md') =
  match first_value wanted md with Some v => Some v | None => first_value wanted md' end.
Proof. induction md as [|kv md IH]; cbn; [done|]. by destruct (is_key wanted kv). Qed.
Lemma first_value_None wanted md : existsb (is_key wanted) md = false → first_value wanted md = None.
Proof.
  induction md as [|kv md IH]; cbn; [done|]. intros [Hk Hr]%orb_false_iff. by rewrite Hk, IH.
Qed.

Lemma first_value_own wanted v md : lower wanted = wanted → first_value wanted ((wanted, v) :: md) = Some v.
Proof. intros Hw. cbn. unfold is_key. cbn. rewrite Hw. by rewrite bool_decide_eq_true_2. Qed.
Lemma bearer_prefix j :
  is_empty ("Bearer " +:+ j) = false ∧ startswith BEARER_PREFIX (lower ("Bearer " +:+ j)) = true ∧
  sdrop (String.length BEARER_PREFIX) ("Bearer " +:+ j) = j.
Proof. split; [done|]. split; [|done]. apply startswith_spec. by exists (lower j). Qed.

(** The identity a task forwards is the identity its upstream sees.  A
    call made with a token bound for forwarding arrives with what that token
    proves, and, for a bot's token, as acting for the forwarded user and no
    other; a call that names its own authorization is sent as it is, and a
    task without a token adds nothing. *)
Lemma forwarded_identity_arrives jwt on_behalf md :
  let sent := intercept_unary_unary (set_forwarded_jwt jwt) on_behalf md in
  let own := default [] md in
  (existsb (is_key AUTHORIZATION_HEADER) own = true ∨ jwt = None ∨ jwt = Some EmptyString → sent = md) ∧
  ∀ j, jwt = Some j → j ≠ EmptyString → strip j = j →
    existsb (is_key AUTHORIZATION_HEADER) own = false → existsb (is_key ON_BEHALF_METADATA) own = false →
    identity sent = match verify j with
                    | valid p => proved p | rejected => refused invalid_jwt | interrupted e => broken e
                    end ∧
    ∀ p, acts_as sent p = match on_behalf with
                          | Some u => if is_bot p then Ok u else user_id_from_payload (Some p)
                          | None => user_id_from_payload (Some p)
                          end.
Proof.
  intros sent own. split.
  - unfold sent, intercept_unary_unary. intros [Ha|[->| ->]]; [|done|done].
    destruct (set_forwarded_jwt jwt) as [j|]; [|done]. destruct (is_empty j); [done|]. fold own. by rewrite Ha.
  - intros j -> Hj Hst Ha Ho.
    assert (existsb (is_key ON_BEHALF_METADATA) (own ++ [(AUTHORIZATION_HEADER, "Bearer " +:+ j)]) = false) as Ho'.
    { by rewrite existsb_app, Ho. }
    assert (sent = Some ((own ++ [(AUTHORIZATION_HEADER, "Bearer " +:+ j)]) ++
              match on_behalf with Some u => [(ON_BEHALF_METADATA, str_int u)] | None => [] end)) as Hsent.
    { unfold sent, intercept_unary_unary, set_forwarded_jwt, str_or_none. apply is_empty_false in Hj.
      rewrite Hj, Hj. fold own. rewrite Ha, Ho'. cbn [negb]. destruct on_behalf; [done|]. by rewrite app_nil_r. }
    rewrite Hsent. split.
    + unfold identity, read_authorization. cbn [default from_option id].
      rewrite !first_value_app, first_value_None by done. rewrite first_value_own by done.
      destruct (bearer_prefix j) as (-> & -> & ->). by rewrite Hst.
    + intros p. unfold acts_as, read_on_behalf. cbn [default from_option id].
      rewrite first_value_app, first_value_None by done. destruct on_behalf as [u|]; [|done].
      rewrite first_value_own by done.
      assert (py_int (strip (str_int u)) = Some u) as ->; [|done].
      unfold py_int, strip. rewrite strip_idemp. apply py_int_str_int.
Qed.

(** A plain servicer of a unary method runs, and then its call fails. *)
Lemma plain_servicers_fail (h : Handler) s method request c :
  well_formed h s → request_streaming h = false → response_streaming h = false → is_async s = false →
  contains "grpc.health" method = false → contains "grpc.reflection" method = false →
  aborted c = None → identity (metadata c) = anonymous →
  ∃ h' s', intercept_service method (Some h) = Some h' ∧ well_formed h' s' ∧
    ∀ a c1, run s request c = (Ok a, c1) → (run s' request c).1 = Raise (Raised type_error).
Proof.
  intros Hw Hq Hs Ha H1 H2 Hab Hi. unfold intercept_service. rewrite H1, H2. cbn [orb].
  assert (unary_unary h = Some s) as Hu.
  { rewrite Hw. unfold factory. by rewrite Hq, Hs. }
  unfold wrap_handler_with_jwt_context. rewrite Hu. eexists _, {| is_async := true; run := wrapped s |}.
  split; [done|]. split; [done|]. intros a c1 Hr. cbn [run].
  unfold wrapped, se_bind. rewrite verify_metadata_identity by done. rewrite Hi. unfold awaited. rewrite Ha.
  change (bind_payload (metadata c) None) with (λ v : Vars, v).
  assert (with_ambient (update (λ v, v)) c = c) as ->.
  { destruct c as [amb m sn ab cs ds]. unfold with_ambient; cbn. by rewrite update_id. }
  unfold se_bind. by rewrite Hr.
Qed.
End server.

(** ** A running example *)

#[local] Instance demo_errors : LibraryErrors nat := {| type_error := 0%nat; usage_error := 1%nat |}.
#[local] Instance demo_vars : Lens (@Vars (bool * Z)) (@Vars (bool * Z)) := lens_id.
(** A payload: whether it is a bot's, and the subject. *)
Definition demo_verify (token : string) : Verified (E:=nat) (P:=bool * Z) :=
  if bool_decide (token = "bot"%string) then valid (true, 7) else
  if bool_decide (token = "ann"%string) then valid (false, 8) else rejected.
Definition demo_servicer : Servicer nat Z nat (@Vars (bool * Z)) :=
  {| is_async := true;
     run := λ _ c, (Ok (match effective_user_id fst (λ p, Some p.2) (ambient c) (current_jwt_payload (ambient c)) with
                        | Ok u => Some u | Raise _ => None end), c) |}.
Definition demo_handler : MethodHandler nat Z nat (@Vars (bool * Z)) bool :=
  unary_unary_rpc_method_handler demo_servicer true false.
Definition demo_call (md : option Metadata) : Call (@Vars (bool * Z)) Z :=
  {| ambient := {| current_jwt_payload := None; current_on_behalf := None |}; metadata := md;
     sent := []; aborted := None; code_set := None; details_set := None |}.
Definition demo_sent (token : string) : option Metadata :=
  intercept_unary_unary (set_forwarded_jwt (Some token)) (Some 42) (Some [("trace"%string, "t1"%string)]).

Lemma forwarded_identity_arrives_witness :
  strip "bot" = "bot"%string ∧ identity demo_verify (demo_sent "bot") = proved (true, 7) ∧
  acts_as fst (λ p, Some p.2) (demo_sent "bot") (true, 7) = Ok 42.
Proof.
  destruct (forwarded_identity_arrives fst (λ p, Some p.2) demo_verify (Some "bot"%string) (Some 42)
    (Some [("trace"%string, "t1"%string)])) as [_ Hs].
  destruct (Hs "bot"%string eq_refl ltac:(done) eq_refl eq_refl eq_refl) as [Hi Ha].
  split; [by vm_compute|]. split; [exact Hi|]. exact (Ha (true, 7)).
Defined.

Lemma call_acts_as_its_identity_witness :
  (∃ h' s', intercept_service fst demo_verify "/pulse.v1.Users/Me" (Some demo_handler) = Some h' ∧
     well_formed h' s' ∧ ∃ c', run s' 0%nat (demo_call (demo_sent "bot")) = (Ok (Some 42), c')) ∧
  (∃ h' s', intercept_service fst demo_verify "/pulse.v1.Users/Me" (Some demo_handler) = Some h' ∧
     well_formed h' s' ∧ ∃ c', run s' 0%nat (demo_call (demo_sent "ann")) = (Ok (Some 8), c')).
Proof.
  split.
  - destruct (call_acts_as_its_identity (vars:=demo_vars) fst (λ p, Some p.2) demo_verify demo_handler demo_servicer "/pulse.v1.Users/Me" 0%nat
      (demo_call (demo_sent "bot")) eq_refl eq_refl eq_refl eq_refl eq_refl eq_refl eq_refl eq_refl)
      as (h' & s' & Hi & Hw & _ & v & Hv & Hu & Hrun). exists h', s'. split; [done|]. split; [done|].
    destruct (Hrun (Ok (Some 42)) (with_ambient (put v) (demo_call (demo_sent "bot")))) as (c' & Hr & _).
    + cbn [run demo_servicer]. cbn [ambient with_ambient demo_call]. change (put v _) with v. rewrite Hv, Hu. by vm_compute.
    + by exists c'.
  - destruct (call_acts_as_its_identity (vars:=demo_vars) fst (λ p, Some p.2) demo_verify demo_handler demo_servicer "/pulse.v1.Users/Me" 0%nat
      (demo_call (demo_sent "ann")) eq_refl eq_refl eq_refl eq_refl eq_refl eq_refl eq_refl eq_refl)
      as (h' & s' & Hi & Hw & _ & v & Hv & Hu & Hrun). exists h', s'. split; [done|]. split; [done|].
    destruct (Hrun (Ok (Some 8)) (with_ambient (put v) (demo_call (demo_sent "ann")))) as (c' & Hr & _).
    + cbn [run demo_servicer]. cbn [ambient with_ambient demo_call]. change (put v _) with v. rewrite Hv, Hu. by vm_compute.
    + by exists c'.
Defined.
End Jwt.
