(* ===== verification/Health.v ===== *)
(** * grpc/health.py: Check and Watch

    Every method runs on one event loop, so a step is what happens between
    two awaits: a Watch call registers, wakes, writes and ends in steps of its
    own, and [set] and the shutdown are one step each.  [written] records the
    messages that were written, by call. *)

From S2P Require Import Prelude PyStr PyDict.

Module Health.

Inductive ServingStatus := SERVING | NOT_SERVING | SERVICE_UNKNOWN.
#[export] Instance ServingStatus_eq_dec : EqDecision ServingStatus.
Proof. solve_decision. Defined.

(** One Watch call: its [_Watcher] object ([status], [changed]), the local
    variable [sent], and the message a [context.write] is awaited for. *)
Record Watcher := {
  service : string; status : ServingStatus; changed : bool;
  sent : option ServingStatus; writing : option ServingStatus }.
Record Servicer := {
  _status : list (string * ServingStatus);
  _watchers : list (string * list nat);
  _shutting_down : bool;
  calls : gmap nat Watcher; next : nat; written : list (nat * ServingStatus) }.

Definition init : Servicer :=
  {| _status := [(EmptyString, SERVING)]; _watchers := []; _shutting_down := false;
     calls := ∅; next := 0; written := [] |}.

(** [None] is the abort with NOT_FOUND. *)
Definition Check_ (service : string) (s : Servicer) : option ServingStatus := dget (_status s) service.

(** [check_health]: what the Check of the whole server answered; [None] when
    the call failed, also because nobody answers. *)
Definition check_health (reply : option ServingStatus) : bool :=
  match reply with Some status => bool_decide (status = SERVING) | None => false end.

Definition with_calls (f : gmap nat Watcher → gmap nat Watcher) (s : Servicer) : Servicer :=
  {| _status := _status s; _watchers := _watchers s; _shutting_down := _shutting_down s;
     calls := f (calls s); next := next s; written := written s |}.

Definition add (w : nat) (ws : list nat) : list nat := if bool_decide (w ∈ ws) then ws else ws ++ [w].
Definition discard (w : nat) (ws : list nat) : list nat := List.filter (λ v, negb (bool_decide (v = w))) ws.

(** Watch up to its first [wait]. *)
Definition watch_start (name : string) (s : Servicer) : nat * Servicer :=
  let w := next s in
  let watcher := {| service := name; status := default SERVICE_UNKNOWN (dget (_status s) name);
                    changed := true; sent := None; writing := None |} in
  (w, {| _status := _status s;
         _watchers := dset (_watchers s) name (add w (default [] (dget (_watchers s) name)));
         _shutting_down := _shutting_down s;
         calls := <[w := watcher]> (calls s); next := S w; written := written s |}).
(** [changed.wait] returned: up to the write or the next [wait]. *)
Definition wake (r : Watcher) : Watcher :=
  {| service := service r; status := status r; changed := false; sent := sent r;
     writing := if negb (bool_decide (Some (status r) = sent r)) then Some (status r) else None |}.
Definition watch_wake (w : nat) (s : Servicer) : Servicer := with_calls (alter wake w) s.
(** The write returned. *)
Definition wrote (r : Watcher) : Watcher :=
  {| service := service r; status := status r; changed := changed r; sent := writing r; writing := None |}.
Definition watch_wrote (w : nat) (s : Servicer) : Servicer :=
  match calls s !! w with
  | Some r =>
      match writing r with
      | Some st =>
          {| _status := _status s; _watchers := _watchers s; _shutting_down := _shutting_down s;
             calls := <[w := wrote r]> (calls s); next := next s; written := written s ++ [(w, st)] |}
      | None => s
      end
  | None => s
  end.
(** The call ends (cancelled, or a failing write): the [finally] clause. *)
Definition watch_end (w : nat) (s : Servicer) : Servicer :=
  match calls s !! w with
  | None => s
  | Some r =>
      {| _status := _status s;
         _watchers :=
           match dget (_watchers s) (service r) with
           | None => _watchers s
           | Some ws =>
               let ws' := discard w ws in
               if bool_decide (ws' = []) then ddel (_watchers s) (service r)
               else dset (_watchers s) (service r) ws'
           end;
         _shutting_down := _shutting_down s;
         calls := delete w (calls s); next := next s; written := written s |}
  end.
Definition watching (name : string) (s : Servicer) : nat := length (default [] (dget (_watchers s) name)).

Definition tell (st : ServingStatus) (r : Watcher) : Watcher :=
  {| service := service r; status := st; changed := true; sent := sent r; writing := writing r |}.
(** [_set] *)
Definition set_ (name : string) (st : ServingStatus) (s : Servicer) : Servicer :=
  {| _status := dset (_status s) name st; _watchers := _watchers s; _shutting_down := _shutting_down s;
     calls := foldr (alter (tell st)) (calls s) (default [] (dget (_watchers s) name));
     next := next s; written := written s |}.
Definition set (name : string) (st : ServingStatus) (s : Servicer) : Servicer :=
  if _shutting_down s then s else set_ name st s.
Definition enter_graceful_shutdown (s : Servicer) : Servicer :=
  if _shutting_down s then s
  else
    let s1 := {| _status := _status s; _watchers := _watchers s; _shutting_down := true;
                 calls := calls s; next := next s; written := written s |} in
    foldl (λ s name, set_ name NOT_SERVING s) s1 (dkeys (_status s)).

(** A wake needs a change and no write in progress. *)
Inductive step : Servicer → Servicer → Prop :=
  | step_start s name : step s (watch_start name s).2
  | step_wake s w r : calls s !! w = Some r → changed r = true → writing r = None → step s (watch_wake w s)
  | step_wrote s w : step s (watch_wrote w s)
  | step_end s w : step s (watch_end w s)
  | step_set s name st : step s (set name st s)
  | step_shutdown s : step s (enter_graceful_shutdown s).

(** ** What a watcher has been told *)

(** The last message written to a call. *)
Definition told (w : nat) (s : Servicer) : option ServingStatus :=
  snd <$> last (List.filter (λ m, bool_decide (m.1 = w)) (written s)).
Definition now (s : Servicer) (name : string) : ServingStatus :=
  default SERVICE_UNKNOWN (dget (_status s) name).

(** A watcher's object is up to date, and it is quiet only if it has sent
    what it knows. *)
Definition call_ok (s : Servicer) (w : nat) (r : Watcher) : Prop :=
  (w < next s)%nat ∧ status r = now s (service r) ∧ sent r = told w s ∧
  (changed r = false → match writing r with Some st => st = status r | None => sent r = Some (status r) end).
Record Inv (s : Servicer) : Prop := {
  inv_calls : ∀ w r, calls s !! w = Some r → call_ok s w r;
  inv_registered : ∀ name w,
    w ∈ default [] (dget (_watchers s) name) ↔ ∃ r, calls s !! w = Some r ∧ service r = name;
  inv_nodup : ∀ name, NoDup (default [] (dget (_watchers s) name));
  inv_wf : wf (_watchers s);
  inv_nonempty : ∀ name ws, dget (_watchers s) name = Some ws → ws ≠ [];
  inv_fresh : ∀ m, m ∈ written s → (m.1 < next s)%nat }.
Definition Down (s : Servicer) : Prop :=
  _shutting_down s = true → ∀ name st, dget (_status s) name = Some st → st = NOT_SERVING.

Lemma lookup_foldr_alter {A} (f : A → A) (m : gmap nat A) ids w : (∀ a, f (f a) = f a) →
  foldr (alter f) m ids !! w = (if bool_decide (w ∈ ids) then f <$> m !! w else m !! w).
Proof.
  intros Hf. induction ids as [|i ids IH]; cbn [foldr].
  - by rewrite bool_decide_eq_false_2 by apply not_elem_of_nil.
  - destruct (decide (w = i)) as [->|Hn].
    + rewrite lookup_alter_eq, IH, (bool_decide_eq_true_2 (i ∈ i :: ids)) by left.
      case_bool_decide; [|done]. destruct (m !! i); cbn; by rewrite ?Hf.
    + rewrite lookup_alter_ne, IH by done.
      rewrite (bool_decide_ext (w ∈ ids) (w ∈ i :: ids)); [done|]. rewrite elem_of_cons. naive_solver.
Qed.
Lemma told_snoc w s ws sd cs n v st b :
  told w {| _status := b; _watchers := ws; _shutting_down := sd; calls := cs; next := n;
            written := written s ++ [(v, st)] |} = if decide (v = w) then Some st else told w s.
Proof.
  unfold told. cbn [written]. rewrite List.filter_app. cbn. destruct (decide (v = w)) as [->|Hn].
  - rewrite bool_decide_eq_true_2 by done. by rewrite last_snoc.
  - rewrite bool_decide_eq_false_2 by done. by rewrite app_nil_r.
Qed.
Lemma told_fresh s w : Inv s → (next s <= w)%nat → told w s = None.
Proof.
  intros HI Hw. unfold told.
  assert (List.filter (λ m, bool_decide (m.1 = w)) (written s) = []) as ->; [|done].
  destruct (List.filter _ _) as [|m l] eqn:Hf; [done|].
  assert (m ∈ List.filter (λ m, bool_decide (m.1 = w)) (written s)) as [Hm He]%list_elem_of_filter'
    by (rewrite Hf; by left).
  apply bool_decide_eq_true_1 in He. pose proof (inv_fresh _ HI m Hm). lia.
Qed.

Lemma Inv_init : Inv init.
Proof.
  split; cbn; try done.
  - intros name w. split; [by intros ?%not_elem_of_nil|]. intros (r & Hr & _). by rewrite lookup_empty in Hr.
  - intros name. constructor.
  - by intros m ?%not_elem_of_nil.
Qed.

(** Changing the objects of live calls only. *)
Lemma Inv_calls s cs : Inv s →
  (∀ w r', cs !! w = Some r' → ∃ r, calls s !! w = Some r ∧ service r' = service r ∧ call_ok s w r') →
  (∀ w r, calls s !! w = Some r → is_Some (cs !! w)) →
  Inv (with_calls (λ _, cs) s).
Proof.
  intros HI Hcs Hlive. split; cbn; [|intros name w|apply HI|apply HI|apply HI|apply HI].
  - intros w r Hr. by destruct (Hcs w r Hr) as (_ & _ & _ & Hok).
  - rewrite (inv_registered _ HI). split.
    + intros (r & Hr & <-). destruct (Hlive w r Hr) as [r' Hr']. exists r'. split; [done|].
      destruct (Hcs w r' Hr') as (r2 & Hr2 & He & _). congruence.
    + intros (r' & Hr' & <-). destruct (Hcs w r' Hr') as (r & Hr & -> & _). by exists r.
Qed.
Lemma Inv_wake s w r : Inv s → calls s !! w = Some r → changed r = true → writing r = None → Inv (watch_wake w s).
Proof.
  intros HI Hr Hc Hw. apply (Inv_calls s (alter wake w (calls s))); [done| |].
  - intros v r'. destruct (decide (v = w)) as [->|Hn].
    + rewrite lookup_alter_eq, Hr. cbn. intros [= <-]. exists r. split; [done|]. split; [done|].
      destruct (inv_calls _ HI w r Hr) as (Hlt & Hst & Hsent & _). split_and!; [done|done|done|].
      intros _. unfold wake. cbn. case_bool_decide as He; cbn; [by symmetry|done].
    + rewrite lookup_alter_ne by done. intros Hr'. exists r'. split; [done|]. split; [done|].
      by apply (inv_calls _ HI).
  - intros v r' Hr'. destruct (decide (v = w)) as [->|Hn]; [rewrite lookup_alter_eq, Hr'|rewrite lookup_alter_ne, Hr' by done];
      cbn; eauto.
Qed.
Lemma Inv_set_ s name st : Inv s → Inv (set_ name st s).
Proof.
  intros HI. set (ids := default [] (dget (_watchers s) name)).
  assert (∀ w, calls (set_ name st s) !! w =
    if bool_decide (w ∈ ids) then tell st <$> calls s !! w else calls s !! w) as Hl.
  { intros w. by apply lookup_foldr_alter. }
  assert (∀ w r', calls (set_ name st s) !! w = Some r' → ∃ r, calls s !! w = Some r ∧
    r' = if bool_decide (service r = name) then tell st r else r) as Hinv.
  { intros w r'. rewrite Hl. case_bool_decide as Hin.
    - apply (inv_registered _ HI) in Hin as (r & Hr & Hs). rewrite Hr. cbn. intros [= <-]. exists r.
      by rewrite bool_decide_eq_true_2.
    - intros Hr. exists r'. split; [done|]. rewrite bool_decide_eq_false_2; [done|].
      intros Hs. apply Hin, (inv_registered _ HI). by exists r'. }
  split; [|intros n w|apply HI|apply HI|apply HI|apply HI].
  - intros w r' Hr'. destruct (Hinv w r' Hr') as (r & Hr & ->).
    destruct (inv_calls _ HI w r Hr) as (Hlt & Hst & Hsent & Hq).
    unfold call_ok, now in *. cbn [_status set_ next written]. rewrite dget_dset. case_bool_decide as Hs; cbn.
    + subst name. rewrite decide_True by done. split_and!; done.
    + rewrite decide_False by congruence. done.
  - cbn [_watchers set_]. rewrite (inv_registered _ HI). split.
    + intros (r & Hr & <-). rewrite Hl, Hr. case_bool_decide; eexists; done.
    + intros (r' & Hr' & <-). destruct (Hinv w r' Hr') as (r & Hr & ->). exists r. split; [done|].
      by case_bool_decide.
Qed.
Lemma Inv_shutting s b : Inv s →
  Inv {| _status := _status s; _watchers := _watchers s; _shutting_down := b;
         calls := calls s; next := next s; written := written s |}.
Proof. intros [H1 H2 H3 H4 H5 H6]. by split. Qed.
Lemma Inv_set_all s st names : Inv s → Inv (foldl (λ s name, set_ name st s) s names).
Proof. revert s. induction names as [|n names IH]; intros s HI; [done|]. by apply IH, Inv_set_. Qed.
Lemma status_set_all st names : ∀ s name,
  dget (_status (foldl (λ s name, set_ name st s) s names)) name =
  if bool_decide (name ∈ names) then Some st else dget (_status s) name.
Proof.
  induction names as [|n names IH]; intros s name; cbn [foldl].
  { by rewrite bool_decide_eq_false_2 by apply not_elem_of_nil. }
  rewrite IH. cbn [_status set_]. rewrite dget_dset.
  destruct (decide (n = name)) as [->|Hn].
  - rewrite (bool_decide_eq_true_2 (name ∈ name :: names)) by left. by case_bool_decide.
  - rewrite (bool_decide_ext (name ∈ n :: names) (name ∈ names)); [done|]. rewrite elem_of_cons. naive_solver.
Qed.

Lemma registered_lt s name w : Inv s → w ∈ default [] (dget (_watchers s) name) → (w < next s)%nat.
Proof. intros HI (r & Hr & _)%(inv_registered _ HI). by destruct (inv_calls _ HI w r Hr). Qed.
Lemma Inv_start s name : Inv s → Inv (watch_start name s).2.
Proof.
  intros HI. set (w0 := next s).
  assert (calls s !! w0 = None) as Hnew.
  { destruct (calls s !! w0) as [r|] eqn:Hr; [|done]. destruct (inv_calls _ HI _ _ Hr) as [Hlt _]. lia. }
  assert (w0 ∉ default [] (dget (_watchers s) name)) as Hun.
  { intros Hin%registered_lt; [lia|done]. }
  assert (∀ n, default [] (dget (_watchers (watch_start name s).2) n) =
    if decide (name = n) then default [] (dget (_watchers s) n) ++ [w0] else default [] (dget (_watchers s) n)) as Hreg.
  { intros n. cbn. rewrite dget_dset. case_decide; [|done]. subst. unfold add. by rewrite bool_decide_eq_false_2. }
  split.
  - intros w r. cbn. destruct (decide (w = w0)) as [->|Hn].
    + rewrite lookup_insert_eq. intros [= <-]. split_and!; cbn; [lia|done| |done].
      symmetry. by apply told_fresh.
    + rewrite lookup_insert_ne by done. intros Hr. destruct (inv_calls _ HI w r Hr) as (? & ? & ? & ?).
      split_and!; cbn; [lia|done..].
  - intros n w. rewrite Hreg. cbn. destruct (decide (w = w0)) as [->|Hn].
    + rewrite lookup_insert_eq. split.
      * case_decide as Hnm; [intros _; by eexists|]. intros Hin%registered_lt; [lia|done].
      * intros (r & [= <-] & <-). cbn. rewrite decide_True by done. apply elem_of_app. right. by left.
    + rewrite lookup_insert_ne by done. rewrite <-(inv_registered _ HI). case_decide; [|done].
      rewrite elem_of_app, list_elem_of_singleton. naive_solver.
  - intros n. rewrite Hreg. case_decide as Hnm; [|apply HI]. apply NoDup_app. split; [apply HI|].
    split; [|apply NoDup_singleton]. intros v Hv ->%list_elem_of_singleton. by subst.
  - cbn. by apply wf_dset, HI.
  - intros n ws Hws. pose proof (Hreg n) as Hr. rewrite Hws in Hr. cbn in Hr, Hws. rewrite dget_dset in Hws.
    case_decide; [|by apply (inv_nonempty _ HI n)]. rewrite Hr. by intros []%app_nil.
  - cbn. intros m Hm. pose proof (inv_fresh _ HI m Hm). lia.
Qed.
Lemma Inv_wrote s w : Inv s → Inv (watch_wrote w s).
Proof.
  intros HI. unfold watch_wrote. destruct (calls s !! w) as [r|] eqn:Hr; [|done].
  destruct (writing r) as [st|] eqn:Hw; [|done]. destruct (inv_calls _ HI w r Hr) as (Hlt & Hst & Hsent & Hq).
  split; cbn; [|intros n v|apply HI|apply HI|apply HI|].
  - intros v r'. unfold call_ok, now. rewrite told_snoc. cbn. destruct (decide (v = w)) as [->|Hn].
    + rewrite lookup_insert_eq. intros [= <-]. rewrite decide_True by done. cbn. rewrite Hw in Hq |- *.
      split_and!; [done|done|done|]. intros Hc. by rewrite (Hq Hc).
    + rewrite lookup_insert_ne by done. intros Hr'. rewrite decide_False by done. by apply (inv_calls _ HI).
  - rewrite (inv_registered _ HI). destruct (decide (v = w)) as [->|Hn].
    + rewrite lookup_insert_eq, Hr. split; intros (? & [= <-] & <-); by eexists.
    + by rewrite lookup_insert_ne.
  - intros m [Hm| ->%list_elem_of_singleton]%elem_of_app; [by apply HI|done].
Qed.
Lemma elem_discard w v ws : v ∈ discard w ws ↔ v ∈ ws ∧ v ≠ w.
Proof. unfold discard. rewrite list_elem_of_filter', negb_true_iff, bool_decide_eq_false. done. Qed.
Lemma Inv_end s w : Inv s → Inv (watch_end w s).
Proof.
  intros HI. unfold watch_end. destruct (calls s !! w) as [r|] eqn:Hr; [|done].
  assert (w ∈ default [] (dget (_watchers s) (service r))) as Hin by (apply (inv_registered _ HI); by exists r).
  destruct (dget (_watchers s) (service r)) as [ws|] eqn:Hws; [|by apply not_elem_of_nil in Hin]. cbn in Hin.
  set (reg := if bool_decide (discard w ws = []) then _ else _).
  assert (∀ n, default [] (dget reg n) =
    if decide (service r = n) then discard w ws else default [] (dget (_watchers s) n)) as Hreg.
  { intros n. unfold reg. case_bool_decide as He.
    - rewrite dget_ddel by apply HI. case_decide; [by rewrite He|done].
    - rewrite dget_dset. by case_decide. }
  assert (NoDup (discard w ws)) as Hnd.
  { apply NoDup_ListNoDup, List.NoDup_filter, NoDup_ListNoDup.
    pose proof (inv_nodup _ HI (service r)) as Hn. by rewrite Hws in Hn. }
  split; cbn [_status _watchers calls next written].
  - intros v r'. destruct (decide (v = w)) as [->|Hn]; [by rewrite lookup_delete_eq|].
    rewrite lookup_delete_ne by done. apply (inv_calls _ HI).
  - intros n v. rewrite Hreg. destruct (decide (v = w)) as [->|Hn].
    + rewrite lookup_delete_eq. split; [|by intros (? & ? & _)]. case_decide as Hs.
      * by intros [_ ?]%elem_discard.
      * intros Hv. apply (inv_registered _ HI) in Hv as (r' & Hr' & <-). congruence.
    + rewrite lookup_delete_ne by done. rewrite <-(inv_registered _ HI). case_decide as Hs; [|done].
      subst n. rewrite elem_discard, Hws. cbn. naive_solver.
  - intros n. rewrite Hreg. case_decide; [done|apply HI].
  - unfold reg. case_bool_decide; [by apply wf_ddel, HI|by apply wf_dset, HI].
  - intros n ws'. unfold reg. case_bool_decide as He.
    + rewrite dget_ddel by apply HI. case_decide; [done|apply HI].
    + rewrite dget_dset. case_decide; [by intros [= <-]|apply HI].
  - apply HI.
Qed.

Lemma shutdown_down s : Down (enter_graceful_shutdown s) ∨ _shutting_down s = true.
Proof.
  unfold enter_graceful_shutdown. destruct (_shutting_down s) eqn:Hs; [by right|]. left.
  intros _ name st. rewrite status_set_all. case_bool_decide as Hn; [by intros [= <-]|]. cbn.
  by apply dget_None in Hn as ->.
Qed.
Lemma invariant_step s s' : Inv s ∧ Down s → step s s' → Inv s' ∧ Down s'.
Proof.
  intros [HI HD]. destruct 1 as [s name|s w r Hr Hc Hw|s w|s w|s name st|s].
  - split; [by apply Inv_start|done].
  - split; [by eapply Inv_wake|done].
  - split; [by apply Inv_wrote|]. unfold watch_wrote. destruct (calls s !! w) as [r|]; [|done]. by destruct (writing r).
  - split; [by apply Inv_end|]. unfold watch_end. by destruct (calls s !! w) as [r|].
  - unfold set. destruct (_shutting_down s) eqn:Hs; [done|]. split; [by apply Inv_set_|].
    unfold Down. cbn. by rewrite Hs.
  - split.
    + unfold enter_graceful_shutdown. destruct (_shutting_down s); [done|]. by apply Inv_set_all, Inv_shutting.
    + destruct (shutdown_down s) as [?|Hs]; [done|]. unfold enter_graceful_shutdown. by rewrite Hs.
Qed.
Lemma invariant_reachable s : runs step init s → Inv s ∧ Down s.
Proof.
  intros Hr. refine (runs_invariant step (λ s, Inv s ∧ Down s) _ _ invariant_step _ Hr).
  split; [apply Inv_init|done].
Qed.

(** A watcher left alone: its write returns, it wakes if it was told
    something meanwhile, and that write returns. *)
Definition settle (w : nat) (s : Servicer) : Servicer :=
  let s1 := watch_wrote w s in
  let s2 := match calls s1 !! w with Some r => if changed r then watch_wake w s1 else s1 | None => s1 end in
  watch_wrote w s2.

Lemma quiet_told s w r : Inv s → calls s !! w = Some r → changed r = false → writing r = None →
  told w s = Some (now s (service r)).
Proof.
  intros HI Hr Hc Hw. destruct (inv_calls _ HI w r Hr) as (_ & Hst & Hsent & Hq).
  rewrite <-Hsent, <-Hst. specialize (Hq Hc). by rewrite Hw in Hq.
Qed.
Lemma wrote_shape s w r : Inv s → calls s !! w = Some r →
  Inv (watch_wrote w s) ∧ step s (watch_wrote w s) ∧ _status (watch_wrote w s) = _status s ∧
  (length (written (watch_wrote w s)) <= length (written s) + 1)%nat ∧
  ∃ r', calls (watch_wrote w s) !! w = Some r' ∧ service r' = service r ∧ changed r' = changed r ∧ writing r' = None.
Proof.
  intros HI Hr. split; [by apply Inv_wrote|]. split; [constructor|]. unfold watch_wrote. rewrite Hr.
  destruct (writing r) as [st|] eqn:Hw; cbn.
  - split; [done|]. rewrite length_app. split; [cbn; lia|]. exists (wrote r). by rewrite lookup_insert_eq.
  - split; [done|]. split; [lia|]. by exists r.
Qed.
Lemma settle_spec s w r : Inv s → calls s !! w = Some r →
  runs step s (settle w s) ∧ told w (settle w s) = Some (now s (service r)) ∧
  (length (written (settle w s)) <= length (written s) + 2)%nat.
Proof.
  intros HI Hr. unfold settle.
  destruct (wrote_shape s w r HI Hr) as (HI1 & Hs1 & Hn1 & Hl1 & r1 & Hr1 & Hv1 & Hc1 & Hw1).
  rewrite Hr1. set (s1 := watch_wrote w s) in *. destruct (changed r1) eqn:Hc.
  - pose proof (Inv_wake s1 w r1 HI1 Hr1 Hc Hw1) as HI2.
    assert (calls (watch_wake w s1) !! w = Some (wake r1)) as Hr2.
    { cbn. by rewrite lookup_alter_eq, Hr1. }
    destruct (wrote_shape _ w _ HI2 Hr2) as (HI3 & Hs3 & Hn3 & Hl3 & r3 & Hr3 & Hv3 & Hc3 & Hw3).
    split; [|split].
    + eapply runs_step; [|exact Hs3]. eapply runs_step; [|by eapply step_wake]. eapply runs_step; [constructor|done].
    + rewrite (quiet_told _ _ _ HI3 Hr3 Hc3 Hw3). unfold now. rewrite Hn3, Hv3. cbn. by rewrite Hn1, Hv1.
    + cbn in Hl3. lia.
  - destruct (wrote_shape s1 w r1 HI1 Hr1) as (HI3 & Hs3 & Hn3 & Hl3 & r3 & Hr3 & Hv3 & Hc3 & Hw3).
    split; [|split].
    + eapply runs_step; [|exact Hs3]. eapply runs_step; [constructor|done].
    + rewrite Hc in Hc3. rewrite (quiet_told _ _ _ HI3 Hr3 Hc3 Hw3). unfold now. by rewrite Hn3, Hv3, Hn1, Hv1.
    + lia.
Qed.

(** C12: every watcher is told the latest status.  After any interleaving of
    watchers arriving, waking, writing and leaving with status changes and
    the shutdown: the last message written to a watcher that has nothing to
    do is the current status of its service, and any watcher, however many
    changes it slept through, gets there by itself with at most two more
    messages; the registry of a service is exactly its live watchers, so one
    that leaves takes no other with it and nothing is kept for a service
    nobody watches; and once shutdown has begun every known service is
    NOT_SERVING for good. *)
Theorem watchers_see_the_latest s : runs step init s →
  (∀ w r, calls s !! w = Some r →
     (changed r = false → writing r = None → told w s = Some (now s (service r))) ∧
     runs step s (settle w s) ∧ told w (settle w s) = Some (now s (service r)) ∧
     (length (written (settle w s)) <= length (written s) + 2)%nat) ∧
  (∀ name, NoDup (default [] (dget (_watchers s) name)) ∧
     (∀ w, w ∈ default [] (dget (_watchers s) name) ↔ ∃ r, calls s !! w = Some r ∧ service r = name) ∧
     (watching name s = 0%nat ↔ dget (_watchers s) name = None)) ∧
  (_shutting_down s = true → (∀ name st, Check_ name s = Some st → st = NOT_SERVING) ∧ ∀ name st, set name st s = s).
Proof.
  intros Hruns. destruct (invariant_reachable s Hruns) as [HI HD]. split; [|split].
  - intros w r Hr. split; [|by apply settle_spec].
    by apply quiet_told.
  - intros name. split; [apply HI|]. split; [apply HI|]. unfold watching.
    destruct (dget (_watchers s) name) as [ws|] eqn:Hws; [|done]. cbn.
    pose proof (inv_nonempty _ HI _ _ Hws). destruct ws; done.
  - intros Hs. split; [by apply HD|]. intros name st. unfold set. by rewrite Hs.
Qed.

(** A server that drains is not healthy for anybody who asks. *)
Lemma draining_is_not_healthy s service : runs step init s → _shutting_down s = true → check_health (Check_ service s) = false.
Proof.
  intros Hruns Hs. destruct (invariant_reachable s Hruns) as [_ HD]. unfold check_health.
  destruct (Check_ service s) as [st|] eqn:Hc; [|done]. by rewrite (HD Hs _ _ Hc).
Qed.

(** Two watchers of one service, a change while the first is busy, the first
    one leaves, and the shutdown. *)
Definition demo_state : Servicer :=
  let '(_, s1) := watch_start EmptyString init in
  let '(_, s2) := watch_start EmptyString s1 in
  let s3 := set EmptyString NOT_SERVING (watch_wake 0 s2) in
  watch_end 0 (set EmptyString SERVING (watch_wrote 0 s3)).
Lemma demo_runs : runs step init demo_state.
Proof.
  unfold demo_state. cbn [watch_start fst snd].
  eapply runs_step; [|apply step_end]. eapply runs_step; [|apply step_set].
  eapply runs_step; [|apply step_wrote]. eapply runs_step; [|apply step_set].
  eapply runs_step; [|by eapply step_wake]. eapply runs_step; [|apply (step_start _ EmptyString)].
  eapply runs_step; [constructor|apply (step_start _ EmptyString)].
Qed.
Lemma watchers_see_the_latest_witness :
  runs step init demo_state ∧ watching EmptyString demo_state = 1%nat ∧ told 1 demo_state = None ∧
  told 1 (settle 1 demo_state) = Some SERVING.
Proof.
  destruct (watchers_see_the_latest demo_state demo_runs) as (Hw & _ & _).
  split; [apply demo_runs|]. split; [by vm_compute|]. split; [by vm_compute|].
  by destruct (Hw 1%nat {| service := EmptyString; status := SERVING; changed := true; sent := None; writing := None |}
    ltac:(by vm_compute)) as (_ & _ & Ht & _).
Defined.
End Health.
