(* ===== verification/Tenancy.v ===== *)
(** * security/tenancy.py: row scoping

    A statement is the models it selects from, the conditions added with
    [where], and its execution option; a result row gives each selected model
    its columns.  A condition on NULL selects nothing. *)

From S2P Require Import Prelude PyStr PyDict.

Module Tenancy.
Section tenancy.
Context {Model : Type} `{EqDecision Model}.

Inductive Scope :=
  | owner_scope (kind_column id_column owner_kind : string)
  | tenant_scope (id_column : string).
Definition id_column (s : Scope) : string :=
  match s with owner_scope _ i _ => i | tenant_scope i => i end.
Record ScopeSubject := { account_ids : list Z; is_platform_operator : bool }.
Definition for_accounts (ids : list Z) (operator : bool) : ScopeSubject :=
  {| account_ids := ids; is_platform_operator := operator |}.

(** [_REGISTRY] *)
Abbreviation Registry := (list (Model * Scope)).
Definition register_owner_scope (m : Model) (kind_column id_column owner_kind : string) (r : Registry) : Registry :=
  dset r m (owner_scope kind_column id_column owner_kind).
Definition register_tenant_scope (m : Model) (id_column : string) (r : Registry) : Registry :=
  dset r m (tenant_scope id_column).

Inductive Clause :=
  | column_in (m : Model) (column : string) (ids : list Z)
  | column_eq (m : Model) (column : string) (value : string)
  | false_clause
  | other_clause (holds : (Model → string → option (Z + string)) → bool).
Record Select := { models : list Model; wheres : list Clause; scope_option : option string }.
Definition where_ (c : Clause) (s : Select) : Select :=
  {| models := models s; wheres := wheres s ++ [c]; scope_option := scope_option s |}.
Definition stamp (marker : string) (s : Select) : Select :=
  {| models := models s; wheres := wheres s; scope_option := Some marker |}.

Inductive ScopeError :=
  | unscoped_model (m : Model) | unscoped_query (m : Model) | reason_required.

Definition leZ (a b : Z) : bool := a <=? b.
Definition scoped (r : Registry) (stmt : Select) (m : Model) (subject : ScopeSubject) : result ScopeError Select :=
  match dget r m with
  | None => Raise (unscoped_model m)
  | Some registration =>
      if is_platform_operator subject then Ok (stamp "operator" stmt)
      else if bool_decide (account_ids subject = []) then Ok (stamp "denied" (where_ false_clause stmt))
      else
        let narrowed := where_ (column_in m (id_column registration) (py_sort leZ (account_ids subject))) stmt in
        let narrowed := match registration with
                        | owner_scope kind_column _ owner_kind => where_ (column_eq m kind_column owner_kind) narrowed
                        | tenant_scope _ => narrowed
                        end in
        Ok (stamp "subject" narrowed)
  end.
Definition unscoped (stmt : Select) (reason : string) : result ScopeError Select :=
  if is_empty (strip reason) then Raise reason_required
  else Ok (stamp ("unscoped:" +:+ reason) stmt).

(** [_guard], on every statement an ORM session executes. *)
Definition guard (r : Registry) (is_select : bool) (stmt : Select) : result ScopeError unit :=
  if negb is_select then Ok tt
  else if negb (is_empty (default EmptyString (scope_option stmt))) then Ok tt
  else foldr (λ m rest, if dmem r m then Raise (unscoped_query m) else rest) (Ok tt) (models stmt).

(** ** Which rows a statement selects *)

Abbreviation Row := (Model → string → option (Z + string)).
Definition holds (c : Clause) (row : Row) : bool :=
  match c with
  | column_in m column ids => match row m column with Some (inl id) => bool_decide (id ∈ ids) | _ => false end
  | column_eq m column value => match row m column with Some (inr v) => bool_decide (v = value) | _ => false end
  | false_clause => false
  | other_clause f => f row
  end.
Definition selected (s : Select) (row : Row) : bool := forallb (λ c, holds c row) (wheres s).
(** A row of [m] that the subject owns. *)
Definition owned (scope : Scope) (m : Model) (subject : ScopeSubject) (row : Row) : Prop :=
  (∃ id, id ∈ account_ids subject ∧ row m (id_column scope) = Some (inl id)) ∧
  match scope with
  | owner_scope kind_column _ owner_kind => row m kind_column = Some (inr owner_kind)
  | tenant_scope _ => True
  end.

Lemma selected_where c s row : selected (where_ c s) row = selected s row && holds c row.
Proof. unfold selected. cbn. rewrite forallb_app. cbn. by rewrite andb_true_r. Qed.
Lemma selected_stamp marker s row : selected (stamp marker s) row = selected s row.
Proof. done. Qed.
Lemma holds_in m column ids row : holds (column_in m column (py_sort leZ ids)) row = true ↔
  ∃ id, id ∈ ids ∧ row m column = Some (inl id).
Proof.
  cbn. destruct (row m column) as [[id|v]|].
  - rewrite bool_decide_eq_true, elem_py_sort. naive_solver.
  - naive_solver.
  - naive_solver.
Qed.
Lemma holds_eq m column value row : holds (column_eq m column value) row = true ↔ row m column = Some (inr value).
Proof.
  cbn. destruct (row m column) as [[id|v]|]; [naive_solver| |naive_solver].
  rewrite bool_decide_eq_true. naive_solver.
Qed.
Lemma guard_spec r stmt : is_empty (default EmptyString (scope_option stmt)) = true →
  guard r true stmt = Ok tt → ∀ m, m ∈ models stmt → dget r m = None.
Proof.
  unfold guard. intros ->. cbn. induction (models stmt) as [|m0 ms IH]; cbn; [by intros _ ? ?%not_elem_of_nil|].
  destruct (dmem r m0) eqn:Hm; [done|]. intros Hg m [->|Hin]%elem_of_cons; [by apply dmem_false|by apply IH].
Qed.

End tenancy.

(** The guard asks whether the statement was scoped, not for which model: a
    join that was scoped for one of its models selects the rows of another
    registered model that belong to anyone. *)
Lemma join_escapes_the_guard :
  let r := register_owner_scope true "owner_kind" "owner_id" "account" (register_tenant_scope false "tenant_id" []) in
  let join := {| models := [true; false]; wheres := []; scope_option := None |} in
  let row (m : bool) (column : string) : option (Z + string) :=
    if m then if bool_decide (column = "owner_kind"%string) then Some (inr "account"%string) else Some (inl 1)
    else Some (inl 2) in
  ∃ stmt, scoped r join true (for_accounts [1] false) = Ok stmt ∧ guard r true stmt = Ok tt ∧
    selected stmt row = true ∧ ¬ owned (tenant_scope "tenant_id") false (for_accounts [1] false) row.
Proof.
  intros r join row. eexists. split; [by vm_compute|]. split; [by vm_compute|]. split; [by vm_compute|].
  intros [(id & Hid & He) _]. cbn in *. injection He as <-. by apply list_elem_of_singleton in Hid.
Qed.
End Tenancy.
