(* ===== verification/Tls.v ===== *)
(** * grpc/server.py: the port of a server and the certificate of a peer

    How a server listens, and what [peer_certificate_pem] says of a caller.
    The handshake and the auth context are grpc's: [Handshake] is the
    interface, with what grpc documents of them. *)

From S2P Require Import Prelude PyStr PyDict.
#[local] Open Scope string_scope.

Module Tls.

Record ServerTls := { certificate : string; private_key : string; client_ca : option string }.
(** [add_insecure_port], or [add_secure_port] with [ssl_server_credentials]. *)
Inductive Port :=
  | insecure
  | secure (key_certificate_pairs : list (string * string)) (root_certificates : option string) (require_client_auth : bool).
Record Listener := { address : string; kind : Port; options : list (string * Z) }.
Definition server_options : list (string * Z) :=
  [("grpc.max_receive_message_length", 16 * 1024 * 1024)%Z; ("grpc.max_send_message_length", 16 * 1024 * 1024)%Z].
Definition port_of (tls : option ServerTls) : Port :=
  match tls with
  | None => insecure
  | Some t => secure [(private_key t, certificate t)] (client_ca t) (match client_ca t with Some _ => true | None => false end)
  end.
Definition listener (port : Z) (tls : option ServerTls) : Listener :=
  {| address := "[::]:" +:+ str_int port; kind := port_of tls; options := server_options |}.

(** What the context of a call offers: no [auth_context], one that raises, or
    properties, each a list of values that are bytes or something else with
    its [str]. *)
Inductive Value := bytes (b : string) | other (text : string).
Inductive Context := no_auth_context | raising | properties (p : list (string * list Value)).
Section peer.
(** [bytes.decode] *)
Context (decode : string → option string).
Inductive DecodeError := unicode_error.
Definition peer_certificate_pem (context : Context) : result DecodeError string :=
  match context with
  | no_auth_context | raising => Ok EmptyString
  | properties p =>
      match default [] (dget p "x509_pem_cert") with
      | [] => Ok EmptyString
      | bytes b :: _ => match decode b with Some s => Ok s | None => Raise unicode_error end
      | other s :: _ => Ok s
      end
  end.

(** grpc: a connection is made when the handshake succeeds.  A port that does
    not ask for a certificate tells of none; one that requires it lets only
    a peer in whose certificate is signed by one of its roots, and tells of
    that certificate first, as PEM, which is ASCII. *)
Class Handshake (Peer : Type) := {
  connects : Port → Peer → bool;
  auth_context : Port → Peer → Context;
  signed_by : string → string → Prop;
  unasked port peer : connects port peer = true →
    (∀ pairs roots, port ≠ secure pairs roots true) →
    match auth_context port peer with properties p => default [] (dget p "x509_pem_cert") = [] | _ => True end;
  demanded pairs ca peer : connects (secure pairs (Some ca) true) peer = true →
    ∃ p cert rest, auth_context (secure pairs (Some ca) true) peer = properties p ∧
      dget p "x509_pem_cert" = Some (bytes cert :: rest) ∧ cert ≠ EmptyString ∧ signed_by ca cert ∧ decode cert = Some cert }.

(** C31: the certificate a servicer reads is one its caller proved.  On a
    server created with any TLS configuration or none, reading the peer's
    certificate of a connected caller succeeds; what is read is never empty
    exactly when the configuration names a client CA, and then it is a
    certificate that CA signed. *)
Theorem peer_certificates_are_proved {Peer} `{Handshake Peer} port tls (peer : Peer) :
  let l := listener port tls in
  connects (kind l) peer = true →
  ∃ pem, peer_certificate_pem (auth_context (kind l) peer) = Ok pem ∧
    match match tls with Some t => client_ca t | None => None end with
    | Some ca => pem ≠ EmptyString ∧ signed_by ca pem
    | None => pem = EmptyString
    end.
Proof.
  cbn [kind listener]. intros Hc.
  assert ((∀ pairs roots, port_of tls ≠ secure pairs roots true) → peer_certificate_pem (auth_context (port_of tls) peer) = Ok EmptyString) as Hno.
  { intros Hp. pose proof (unasked (port_of tls) peer Hc Hp) as Hu.
    destruct (auth_context (port_of tls) peer) as [| |p]; [done|done|]. cbn. by rewrite Hu. }
  destruct tls as [t|]; [|exists EmptyString; split; [by apply Hno|done]]. unfold port_of in *.
  destruct (client_ca t) as [ca|]; cbn in *.
  - destruct (demanded _ ca peer Hc) as (p & cert & rest & Ha & Hd & Hne & Hs & Hdec). exists cert.
    rewrite Ha. cbn [peer_certificate_pem]. rewrite Hd. cbn [default from_option id]. by rewrite Hdec.
  - exists EmptyString. split; [by apply Hno|done].
Qed.
End peer.

(** A grpc whose peers hold the name of an issuer and their own: it admits
    those whose issuer is the CA. *)
Definition demo_certificate (issuer name : string) : string := issuer +:+ ":" +:+ name.
#[local] Instance demo_handshake : Handshake Some (option (string * string)).
Proof.
  refine {| connects port peer := match port with
              | secure _ (Some ca) true => match peer with Some (issuer, _) => bool_decide (issuer = ca) | None => false end
              | secure _ None true => false
              | _ => true
              end;
            auth_context port peer := match port, peer with
              | secure _ (Some _) true, Some (issuer, name) =>
                  properties [("transport_security_type", [bytes "ssl"]); ("x509_pem_cert", [bytes (demo_certificate issuer name)])]
              | secure _ _ _, _ => properties [("transport_security_type", [bytes "ssl"])]
              | insecure, _ => no_auth_context
              end;
            signed_by ca cert := ∃ name, cert = demo_certificate ca name |}.
  - intros port peer Hc Hp. destruct port as [|pairs [ca|] []]; try done. by destruct (Hp pairs (Some ca)).
  - intros pairs ca [[issuer name]|]; [|done]. intros ->%bool_decide_eq_true_1.
    eexists _, (demo_certificate ca name), []. split_and!; [done|done| |by eexists|done]. by destruct ca.
Defined.
Definition demo_tls : ServerTls := {| certificate := "c"; private_key := "k"; client_ca := Some "ca" |}.
Lemma peer_certificates_are_proved_witness :
  ∃ pem, peer_certificate_pem Some (auth_context Some (kind (listener 50051 (Some demo_tls))) (Some ("ca", "agent-7"))) = Ok pem ∧
    pem = "ca:agent-7" ∧ ∃ name, pem = demo_certificate "ca" name.
Proof.
  destruct (peer_certificates_are_proved Some 50051 (Some demo_tls) (Some ("ca", "agent-7")) ltac:(by vm_compute)) as (pem & Hp & _ & Hs).
  exists pem. split; [exact Hp|]. split; [|exact Hs]. by injection Hp as <-.
Defined.
End Tls.
