(* ===== verification/Server.v ===== *)
(** * grpc/metrics.py and grpc/server.py: the assembled server

    The server side of metrics.py as one more wrapper, the order in which
    [build_grpc_lifecycle] installs the interceptors, and the life cycle of
    the process's servers.  Here the components meet: the theorems are about
    a call that goes through all of them.  Opening a port, TLS credentials
    and reflection are grpc's. *)

From S2P Require Import Prelude PyStr PyDict Handlers Authorization GrpcErrors Jwt Health Tls.

(** ** What the interceptors share *)

Module Ambient.
Section ambient.
Context {P : Type}.
(** A sample of the two server metrics; the observed duration is left out. *)
Record Sample := { service : string; grpc_service : string; grpc_method : string; grpc_code : string }.
Record Ambient := {
  current_caller : option string; jwt_vars : @Jwt.Vars P; samples : list Sample }.
#[export] Instance caller_lens : Lens Ambient (option string).
Proof.
  refine {| view := current_caller;
            put := λ x a, {| current_caller := x; jwt_vars := jwt_vars a; samples := samples a |} |}.
  - done.
  - by intros [].
  - done.
Defined.
#[export] Instance vars_lens : Lens Ambient (@Jwt.Vars P).
Proof.
  refine {| view := jwt_vars;
            put := λ x a, {| current_caller := current_caller a; jwt_vars := x; samples := samples a |} |}.
  - done.
  - by intros [].
  - done.
Defined.
#[export] Instance samples_lens : Lens Ambient (list Sample).
Proof.
  refine {| view := samples;
            put := λ x a, {| current_caller := current_caller a; jwt_vars := jwt_vars a; samples := x |} |}.
  - done.
  - by intros [].
  - done.
Defined.
End ambient.
End Ambient.

(** ** Metrics *)

Module Metrics.
Import Handlers Authorization Ambient.
Definition METRIC_LABEL_MAX : nat := 96.
(** [metric_label] *)
Definition metric_label (value : string) : string :=
  let text := lower (strip value) in
  if is_empty text then "unknown"%string else String.substring 0 METRIC_LABEL_MAX text.

(** [s.rpartition("/")] when the separator occurs. *)
Definition rpartition_slash (s : string) : option (string * string) :=
  match reverse (split "/" s) with
  | last :: w :: rest => Some (join "/" (reverse (w :: rest)), last)
  | _ => None
  end.
Definition split_method (method : string) : string * string :=
  let normalized := lstrip_chars "/" (strip method) in
  if is_empty normalized then ("unknown", "unknown")%string
  else match rpartition_slash normalized with
       | None => (metric_label normalized, "unknown"%string)
       | Some (s, m) => (metric_label s, metric_label m)
       end.
Definition status_label (c : Code) : string := metric_label (Calls.code_name c).

Section metrics.
Context {Req Resp E Amb Codec : Type} `{LibraryErrors E} `{recorded : Lens Amb (list Sample)}.
(** The code of an exception that is a [grpc.RpcError]. *)
Context (rpc_code : E → option Code).

(** [context.code()]: an abort sets it too. *)
Definition context_code (c : Call Amb Resp) : option Code :=
  match aborted c with Some st => Some st.1 | None => code_set c end.
Definition status_code (failure : option (Exn E)) (c : Call Amb Resp) : Code :=
  match failure with
  | Some (Raised e) =>
      match rpc_code e with Some code => code | None => default UNKNOWN (context_code c) end
  | Some AbortError => default UNKNOWN (context_code c)
  | None => default OK (context_code c)
  end.
Definition count (s : Sample) (a : Amb) : Amb := put (view a ++ [s]) a.
Definition sample (service_name method : string) (code : Code) : Sample :=
  let '(s, m) := split_method method in
  {| service := metric_label service_name; grpc_service := s; grpc_method := m; grpc_code := status_label code |}.
Definition enter (service_name method : string) : Enter (Resp:=Resp) (E:=E) (Amb:=Amb) := λ c,
  (Ok (Some (λ failure c, (Ok tt, with_ambient (count (sample service_name method (status_code failure c))) c))), c).

(** [GrpcServerMetricsInterceptor] *)
Definition intercept_service (service_name : string) (continuation : Continuation) : Continuation :=
  λ details,
  let m := default EmptyString (method details) in
  if contains "grpc.health" m || contains "grpc.reflection" m then continuation details
  else
    found ← continuation details;
    match found with
    | None => Ok None
    | Some handler => Ok (Some (wrap (Some (enter service_name m)) None handler : MethodHandler Req Resp E Amb Codec))
    end.

(** The handler of [h'] behind the metrics: one sample, at the end. *)
Definition counted (service_name method : string) (s : Servicer Req Resp E Amb) : Servicer Req Resp E Amb :=
  {| is_async := is_async s;
     run := (if is_async s then async_wrapped else sync_wrapped) (Some (enter service_name method)) None (run s) |}.
Lemma counted_run service_name m s request c r c1 : run s request c = (r, c1) →
  run (counted service_name m s) request c =
  (r, with_ambient (count (sample service_name m
        (status_code (match r with Ok _ => None | Raise e => Some e end) c1))) c1).
Proof.
  intros Hr. cbn. destruct (is_async s); unfold async_wrapped, sync_wrapped, se_bind; cbn; rewrite Hr; by destruct r.
Qed.
End metrics.
End Metrics.

(** ** The life cycle *)

Module Lifecycle.
Import Handlers Authorization Servicer Ambient.
#[local] Open Scope se_scope.

Section lifecycle.
Context {Req Resp P Codec : Type} `{LibraryErrors PyExn}.
Abbreviation Amb := (@Ambient P).
Abbreviation Handler := (MethodHandler Req Resp PyExn Amb Codec).
Abbreviation Cont := (@Continuation Req Resp PyExn Amb Codec).
(** The payloads of the verifier, the codes of exceptions that are errors of
    an upstream call, and the descriptor pool. *)
Context (is_bot : P → bool) (rpc_code : PyExn → option Code) (pool : string → option (list string)).

(** The arguments of [build_grpc_lifecycle]; [registrars] is what they
    register, or the exception one of them raises. *)
Record Args := {
  service_name : string; internal_token : option string; internal_token_exempt_methods : list string;
  require_internal_token : bool; alternate_token_verifier : option (@Verifier Req Resp PyExn Amb Codec);
  jwt_verifier : option (string → Jwt.Verified (E:=PyExn) (P:=P)); reflection_enabled : bool;
  service_names : list string; caller_policy : option CallerPolicy; port : Z; tls : option Tls.ServerTls;
  registrars : result PyExn (string → option Handler) }.

Inductive LifecycleError :=
  | token_required | empty_token | registrar_failed (e : PyExn)
  | policy_not_served (e : CallerPolicyError) | port_failed | no_server.

Definition HEALTH_SERVICE : string := "grpc.health.v1.Health".
Definition REFLECTION_SERVICE : string := "grpc.reflection.v1alpha.ServerReflection".
Definition truthy (s : option string) : bool := negb (is_empty (default EmptyString s)).

(** The guard of [build_grpc_lifecycle] itself. *)
Definition build (a : Args) : result LifecycleError unit :=
  raise_if (require_internal_token a && negb (truthy (internal_token a))) token_required.

(** The interceptors [_startup] installs, the outermost first. *)
Definition jwt_interceptor (verify : string → Jwt.Verified (E:=PyExn) (P:=P)) (continuation : Cont) : Cont := λ details,
  found ← continuation details;
  Ok (Jwt.intercept_service is_bot verify (default EmptyString (method details)) found).
Definition domain_interceptor (continuation : Cont) : Cont := λ details,
  found ← continuation details;
  Ok (Servicer.intercept_service (default EmptyString (method details)) found).
Definition token_config (a : Args) : option (@InternalTokenInterceptor Req Resp PyExn Amb Codec) :=
  internal_token_interceptor (internal_token a) (internal_token_exempt_methods a)
    (alternate_token_verifier a) (caller_policy a).
Definition gated (a : Args) : bool :=
  truthy (internal_token a) || match caller_policy a with Some _ => true | None => false end.
Definition interceptors (a : Args) : result LifecycleError (list (Cont → Cont)) :=
  gate ← (if gated a then
            match token_config a with
            | Some cfg => Ok [Authorization.intercept_service cfg]
            | None => Raise empty_token
            end
          else Ok []);
  Ok ([Metrics.intercept_service rpc_code (service_name a)] ++ gate ++
      match jwt_verifier a with Some verify => [jwt_interceptor verify] | None => [] end ++
      [domain_interceptor]).
(** grpc applies the last interceptor closest to the handler. *)
Definition chain (ics : list (Cont → Cont)) (lookup : Cont) : Cont := foldr (λ i k, i k) lookup ics.
Definition lookup_handler (handlers : string → option Handler) : Cont := λ details,
  Ok (handlers (default EmptyString (method details))).

(** A created server: what it serves, whether it takes calls, its health. *)
Inductive ServerState := created | started | stopped.
Record Server := {
  state : ServerState; serve : Cont; health : Health.Servicer; listens : Tls.Listener; reflected : option (list string) }.
(** [_SERVER], and the servers by identity; [_HEALTH] keeps the servicer of
    a server until it is stopped. *)
Record Globals := { current : option nat; servers : list Server; known_health : list nat }.

Definition health_of (names : list string) : Health.Servicer :=
  foldl (λ s n, Health.set n Health.SERVING s) Health.init names.
Definition create_grpc_server (port : Z) (reflection_enabled : bool) (names : list string) (tls : option Tls.ServerTls)
    (k : Cont) : SE Globals LifecycleError nat := λ g,
  let n := length (servers g) in
  (Ok n, {| current := Some n;
            servers := servers g ++ [{| state := created; serve := k; health := health_of names;
              listens := Tls.listener port tls;
              reflected := if reflection_enabled then Some ([HEALTH_SERVICE] ++ names ++ [REFLECTION_SERVICE]) else None |}];
            known_health := n :: known_health g |}).
Definition on_server (n : nat) (f : Server → Server) (g : Globals) : Globals :=
  {| current := current g; servers := alter f n (servers g); known_health := known_health g |}.
Definition set_state (st : ServerState) (s : Server) : Server :=
  {| state := st; serve := serve s; health := health s; listens := listens s; reflected := reflected s |}.
(** [port_ok]: whether grpc's own start succeeds. *)
Definition start_grpc_server (port_ok : bool) (server : option nat) : SE Globals LifecycleError unit := λ g,
  match (match server with Some n => Some n | None => current g end) with
  | None => (Raise no_server, g)
  | Some n => if port_ok then (Ok tt, on_server n (set_state started) g) else (Raise port_failed, g)
  end.

(** [_startup] *)
Definition startup (a : Args) (port_ok : bool) : SE Globals LifecycleError nat :=
  let* ics := se_lift (interceptors a) in
  let handlers := match registrars a with Ok h => h | Raise _ => λ _, None end in
  let* n := create_grpc_server (port a) (reflection_enabled a) (service_names a) (tls a) (chain ics (lookup_handler handlers)) in
  do* se_lift (match registrars a with Ok _ => Ok tt | Raise e => Raise (registrar_failed e) end) in
  do* se_lift (match caller_policy a with
               | Some p =>
                   let served := [HEALTH_SERVICE] ++ service_names a ++
                     (if reflection_enabled a then [REFLECTION_SERVICE] else []) in
                   match check_served pool p served with Ok _ => Ok tt | Raise e => Raise (policy_not_served e) end
               | None => Ok tt
               end) in
  do* start_grpc_server port_ok (Some n) in
  se_ret n.

(** [stop_grpc_server]: [server] or the current one. *)
Definition stop_grpc_server (server : option nat) : SE Globals LifecycleError unit := λ g,
  match (match server with Some n => Some n | None => current g end) with
  | None => (Ok tt, g)
  | Some n =>
      let shut (s : Server) := if bool_decide (n ∈ known_health g)
        then {| state := state s; serve := serve s; health := Health.enter_graceful_shutdown (health s);
               listens := listens s; reflected := reflected s |} else s in
      (Ok tt, {| current := None;
                 servers := alter (λ s, set_state stopped (shut s)) n (servers g);
                 known_health := List.filter (λ m, negb (bool_decide (m = n))) (known_health g) |})
  end.

(** ** A call through the whole chain *)

(** The calls the gate refuses, and with what. *)
Inductive denied (a : Args) (d : HandlerCallDetails) (m : string) : Code * string → Prop :=
  | denied_unknown p admitted :
      caller_policy a = Some p → dget (_rules p) m = Some admitted →
      resolve (_callers p) (presented_token d) = None → denied a d m (refusal unauthenticated)
  | denied_caller p admitted name :
      caller_policy a = Some p → dget (_rules p) m = Some admitted →
      resolve (_callers p) (presented_token d) = Some name → name ∉ admitted →
      denied a d m (refusal permission_denied)
  | denied_token token :
      (∀ p, caller_policy a = Some p → covers p m = false) →
      internal_token a = Some token → token ≠ EmptyString → ascii_text token = true →
      ascii_text (default EmptyString (presented_token d)) = true → presented_token d ≠ Some token →
      (∀ x, x ∈ internal_token_exempt_methods a → endswith x m = false) →
      alternate_token_verifier a = None → denied a d m (UNAUTHENTICATED, INVALID_TOKEN).
(** The calls it lets pass, and as whom: a listed caller, or anyone with the
    platform's token. *)
Inductive passes (a : Args) (d : HandlerCallDetails) (m : string) : option string → Prop :=
  | passes_caller p admitted name :
      caller_policy a = Some p → dget (_rules p) m = Some admitted →
      resolve (_callers p) (presented_token d) = Some name → name ∈ admitted → passes a d m (Some name)
  | passes_token token :
      (∀ p, caller_policy a = Some p → covers p m = false) →
      internal_token a = Some token → token ≠ EmptyString → ascii_text token = true →
      presented_token d = Some token → passes a d m None.

Definition plain_method (m : string) : Prop :=
  contains "grpc.health" m = false ∧ contains "grpc.reflection" m = false.
Lemma plain_not_system m : plain_method m → system_method m = false.
Proof. intros [H1 H2]. unfold system_method. by rewrite H1, H2. Qed.

(** The part of the chain behind the gate. *)
Definition inner (a : Args) (handlers : string → option Handler) : Cont :=
  chain (match jwt_verifier a with Some verify => [jwt_interceptor verify] | None => [] end ++ [domain_interceptor])
    (lookup_handler handlers).
Lemma inner_spec a handlers d m h s :
  method d = Some m → plain_method m → handlers m = Some h → well_formed h s →
  ∃ hi si, inner a handlers d = Ok (Some hi) ∧ well_formed hi si ∧ same_kind h hi ∧
    match jwt_verifier a with
    | None => si = Mesh.domain_servicer s
    | Some verify => request_streaming h = false → response_streaming h = false → is_async s = true →
        Jwt.serves_identity is_bot verify (wrap None (Some domain_status) h) hi (Mesh.domain_servicer s)
    end.
Proof.
  intros Hd [H1 H2] Hh Hw. pose proof (wrap_well_formed None (Some domain_status) h s Hw) as Hw1.
  pose proof (same_kind_wrap None (Some domain_status) h) as Hk1.
  assert (domain_interceptor (lookup_handler handlers) d = Ok (Some (wrap None (Some domain_status) h))) as Hdom.
  { unfold domain_interceptor, lookup_handler. rewrite Hd. cbn. rewrite Hh. unfold Servicer.intercept_service.
    by rewrite H1, H2. }
  unfold inner, chain. destruct (jwt_verifier a) as [verify|]; cbn [app foldr].
  - unfold jwt_interceptor. rewrite Hdom, Hd. cbn [mbind result_bind default from_option id].
    unfold Jwt.intercept_service. rewrite H1, H2. cbn [orb].
    destruct (Jwt.wrap_jwt_well_formed is_bot verify _ _ Hw1) as [Hk2 [s2 Hw2]].
    eexists _, s2. split; [done|]. split; [done|]. split; [by eapply same_kind_trans|].
    intros Hq Hs Ha. apply Jwt.unary_serves_identity; [done| | |done].
    + destruct Hk1 as (-> & _). done.
    + destruct Hk1 as (_ & -> & _). done.
  - eexists _, _. split; [done|]. split; [done|]. split; [done|]. done.
Qed.

Lemma token_config_spec a : gated a = true → ∃ cfg, token_config a = Some cfg ∧ _policy cfg = caller_policy a ∧
  _exempt_methods cfg = internal_token_exempt_methods a ∧ _alternate_verifier cfg = alternate_token_verifier a ∧
  ∀ t, internal_token a = Some t → t ≠ EmptyString → _token cfg = Some t.
Proof.
  unfold gated, token_config, internal_token_interceptor, truthy. intros Hg.
  destruct (is_empty (default EmptyString (internal_token a))) eqn:He; cbn in Hg |- *.
  - destruct (caller_policy a) as [p|] eqn:Hp; [|done]. eexists. split; [done|]. split; [done|]. split; [done|].
    split; [done|]. intros t Ht Hn. rewrite Ht in He. cbn in He. by apply is_empty_true in He.
  - eexists. split; [done|]. split; [done|]. split; [done|]. split; [done|]. cbn. by intros t ->.
Qed.

(** The gate on a handler of the inner chain. *)
Lemma gate_denies a d m st cfg k hi si :
  denied a d m st → method d = Some m → plain_method m → token_config a = Some cfg →
  k d = Ok (Some hi) → well_formed hi si →
  ∃ h', Authorization.intercept_service cfg k d = Ok (Some h') ∧ refuses hi h' st.
Proof.
  intros Hden Hd Hm Hcfg Hk Hw.
  destruct (token_config_spec a) as (cfg' & Hcfg' & Hp' & Hx & Hv & Ht).
  { unfold gated, truthy. destruct Hden as [p ? Hp|p ? ? Hp|t ? Htok Hne]; rewrite ?Hp, ?Htok; cbn; try by rewrite orb_true_r.
    by apply is_empty_false in Hne as ->. }
  rewrite Hcfg in Hcfg'. injection Hcfg' as <-.
  destruct Hden as [p adm Hp Hr Hres|p adm name Hp Hr Hres Hn|t Hun Htok Hne Ha1 Ha2 Hpt Hex Hver].
  - destruct (listed_decided cfg p k d hi si adm) as (h' & Hi & Hdec);
      [congruence|by rewrite Hd|done|done|]. exists h'. split; [done|]. unfold decided in Hdec. by rewrite Hres in Hdec.
  - destruct (listed_decided cfg p k d hi si adm) as (h' & Hi & Hdec);
      [congruence|by rewrite Hd|done|done|]. exists h'. split; [done|]. unfold decided in Hdec.
    rewrite Hres, bool_decide_eq_false_2 in Hdec by done. done.
  - unfold Authorization.intercept_service. rewrite Hp', Hd. cbn [default from_option id].
    assert (match caller_policy a with
            | Some p => if covers p m then authorize_listed p k d
                        else match _token cfg with Some token => platform_rule cfg token k d | None => k d end
            | None => match _token cfg with Some token => platform_rule cfg token k d | None => k d end
            end = platform_rule cfg t k d) as ->.
    { rewrite (Ht t Htok Hne). destruct (caller_policy a) as [p|] eqn:Hp; [by rewrite (Hun p eq_refl)|done]. }
    pose proof (platform_rule_spec cfg t k d (Some hi) Hne Hk) as Hspec. cbv zeta in Hspec. rewrite Hd in Hspec.
    cbn [default from_option id] in Hspec.
    assert (¬ (open_method cfg m ∨ presented_token d = Some t)) as Hclosed.
    { intros [[Hs|(x & Hxe & He)]|Hs]; [by rewrite plain_not_system in Hs| |done].
      rewrite Hx in Hxe. by rewrite Hex in He. }
    destruct (platform_rule cfg t k d) as [out|[| |e]]; [|done|by destruct Hspec; congruence|].
    + destruct Hspec as [[? _]|[_ [(adm & (v & ? & Hav & _) & _)|[_ Hr]]]]; [done|congruence|].
      destruct out as [h'|]; [|done]. by exists h'.
    + destruct Hspec as (v & ? & Hav & _). congruence.
Qed.
Lemma gate_passes a d m name cfg k hi si :
  passes a d m name → method d = Some m → plain_method m → token_config a = Some cfg →
  k d = Ok (Some hi) → well_formed hi si →
  ∃ h', Authorization.intercept_service cfg k d = Ok (Some h') ∧
    match name with Some n => serves_as hi h' si n | None => h' = hi end.
Proof.
  intros Hpass Hd Hm Hcfg Hk Hw.
  destruct (token_config_spec a) as (cfg' & Hcfg' & Hp' & Hx & Hv & Ht).
  { unfold gated, truthy. destruct Hpass as [p ? ? Hp|t ? Htok Hne]; rewrite ?Hp, ?Htok; cbn; try by rewrite orb_true_r.
    by apply is_empty_false in Hne as ->. }
  rewrite Hcfg in Hcfg'. injection Hcfg' as <-.
  destruct Hpass as [p adm n Hp Hr Hres Hn|t Hun Htok Hne Ha1 Hpt].
  - destruct (listed_decided cfg p k d hi si adm) as (h' & Hi & Hdec);
      [congruence|by rewrite Hd|done|done|]. exists h'. split; [done|]. unfold decided in Hdec.
    rewrite Hres, bool_decide_eq_true_2 in Hdec by done. done.
  - exists hi. split; [|done]. unfold Authorization.intercept_service. rewrite Hp', Hd. cbn [default from_option id].
    assert (platform_rule cfg t k d = Ok (Some hi)) as Hrule.
    { unfold platform_rule. rewrite Hd. cbn [default from_option id]. rewrite plain_not_system by done.
      destruct (existsb _ _); [done|]. rewrite Hpt. cbn. unfold compare_digest. rewrite Ha1. cbn.
      unfold digest_eq. by rewrite bool_decide_eq_true_2. }
    rewrite (Ht t Htok Hne). destruct (caller_policy a) as [p|] eqn:Hp; [by rewrite (Hun p eq_refl)|done].
Qed.

Definition gated_serve (a : Args) (handlers : string → option Handler) (cfg : InternalTokenInterceptor) : Cont :=
  Metrics.intercept_service rpc_code (service_name a) (Authorization.intercept_service cfg (inner a handlers)).
Lemma interceptors_gated a ics handlers : gated a = true → interceptors a = Ok ics →
  ∃ cfg, token_config a = Some cfg ∧ chain ics (lookup_handler handlers) = gated_serve a handlers cfg.
Proof.
  intros Hg. unfold interceptors. rewrite Hg. destruct (token_config a) as [cfg|]; [|done].
  cbn [mbind result_bind]. intros [= <-]. exists cfg. split; [done|]. unfold gated_serve, inner. by destruct (jwt_verifier a).
Qed.
Lemma denied_gated a d m st : denied a d m st → gated a = true.
Proof.
  unfold gated, truthy. intros [p ? Hp|p ? ? Hp|t ? Htok Hne]; rewrite ?Hp, ?Htok; cbn; try by rewrite orb_true_r.
  by apply is_empty_false in Hne as ->.
Qed.
Lemma passes_gated a d m name : passes a d m name → gated a = true.
Proof.
  unfold gated, truthy. intros [p ? ? Hp|t ? Htok Hne]; rewrite ?Hp, ?Htok; cbn; try by rewrite orb_true_r.
  by apply is_empty_false in Hne as ->.
Qed.
Lemma metrics_spec a (k : Cont) d m h' s' : method d = Some m → plain_method m → k d = Ok (Some h') → well_formed h' s' →
  ∃ h2, Metrics.intercept_service rpc_code (service_name a) k d = Ok (Some h2) ∧
    well_formed h2 (Metrics.counted rpc_code (service_name a) m s') ∧ same_kind h' h2.
Proof.
  intros Hd [H1 H2] Hk Hw. unfold Metrics.intercept_service. rewrite Hd. cbn [default from_option id].
  rewrite H1, H2. cbn [orb]. rewrite Hk. cbn [mbind result_bind]. eexists. split; [done|].
  split; [by apply wrap_well_formed|apply same_kind_wrap].
Qed.

(** The chain on a call the gate refuses, and on one it lets pass. *)
Lemma denied_chain a ics handlers d m h s st :
  interceptors a = Ok ics → method d = Some m → plain_method m →
  handlers m = Some h → well_formed h s → denied a d m st →
  ∃ h' s1, chain ics (lookup_handler handlers) d = Ok (Some h') ∧
    well_formed h' (Metrics.counted rpc_code (service_name a) m s1) ∧ same_kind h h' ∧
    ∀ request c, aborted c = None → run s1 request c = (Raise AbortError, with_abort st c).
Proof.
  intros Hics Hd Hm Hh Hw Hden.
  destruct (interceptors_gated a ics handlers (denied_gated _ _ _ _ Hden) Hics) as (cfg & Hcfg & ->).
  destruct (inner_spec a handlers d m h s Hd Hm Hh Hw) as (hi & si & Hin & Hwi & Hki & _).
  destruct (gate_denies a d m st cfg _ hi si Hden Hd Hm Hcfg Hin Hwi) as (h1 & Hg & s1 & Hw1 & Hk1 & Hrun1).
  destruct (metrics_spec a _ d m h1 s1 Hd Hm Hg Hw1) as (h2 & Hser & Hw2 & Hk2).
  exists h2, s1. split; [exact Hser|]. split; [done|].
  split; [eapply same_kind_trans; [exact Hki|]; by eapply same_kind_trans|]. exact Hrun1.
Qed.

(** C3: a refused call stops at the gate.  In a server assembled from these
    arguments, whatever the servicer's kind and whether or not a JWT
    verifier is installed: a call of a listed method by nobody it admits,
    and a call of any other method without the platform's token, is answered
    by a handler of the method's own kind that never runs the servicer, ends
    with the gate's status, and leaves the context variables alone; and the
    metrics count it once, with that status. *)
Theorem refused_calls_stop_at_the_gate a ics handlers d m h s st :
  interceptors a = Ok ics → method d = Some m → plain_method m →
  handlers m = Some h → well_formed h s → denied a d m st →
  ∃ h' s', chain ics (lookup_handler handlers) d = Ok (Some h') ∧ well_formed h' s' ∧ same_kind h h' ∧
    ∀ request c, aborted c = None → ∃ c', run s' request c = (Raise AbortError, c') ∧
      aborted c' = Some st ∧ sent c' = sent c ∧ current_caller (ambient c') = current_caller (ambient c) ∧
      jwt_vars (ambient c') = jwt_vars (ambient c) ∧
      samples (ambient c') = samples (ambient c) ++ [Metrics.sample (service_name a) m st.1].
Proof.
  intros Hics Hd Hm Hh Hw Hden.
  destruct (denied_chain a ics handlers d m h s st Hics Hd Hm Hh Hw Hden) as (h2 & s1 & Hser & Hw2 & Hk & Hrun1).
  exists h2, (Metrics.counted rpc_code (service_name a) m s1). split; [exact Hser|]. split; [done|]. split; [done|].
  intros request c Hc. rewrite (Metrics.counted_run _ _ _ _ _ _ _ _ (Hrun1 request c Hc)).
  eexists. split; [done|]. by split_and!.
Qed.

(** How a call that passed the gate ends, and what it is counted as. *)
Definition counted_end (r : result (Exn PyExn) (option Resp)) (c1 : Call Amb Resp)
    (r' : result (Exn PyExn) (option Resp)) (c' : Call Amb Resp) (code : Code) : Prop :=
  match r with
  | Ok _ => r' = r ∧ aborted c' = aborted c1 ∧ code = default OK (Metrics.context_code c1)
  | Raise AbortError => r' = r ∧ aborted c' = aborted c1 ∧ code = default UNKNOWN (Metrics.context_code c1)
  | Raise (Raised e) =>
      match domain_status e with
      | Some st => r' = Raise AbortError ∧ aborted c' = Some st ∧ code = st.1
      | None => r' = r ∧ aborted c' = aborted c1 ∧
          code = match rpc_code e with Some x => x | None => default UNKNOWN (Metrics.context_code c1) end
      end
  end.
(** What the servicer sees. *)
Definition bound (a : Args) (c : Call Amb Resp) : option (@Jwt.Vars P) :=
  match jwt_verifier a with
  | None => Some (jwt_vars (ambient c))
  | Some verify =>
      match Jwt.identity verify (metadata c) with
      | Jwt.anonymous => Some (jwt_vars (ambient c))
      | Jwt.proved p => Some (Jwt.bind_payload is_bot (metadata c) (Some p) (jwt_vars (ambient c)))
      | _ => None
      end
  end.
Definition entered_as (name : option string) (v : @Jwt.Vars P) (c : Call Amb Resp) : Call Amb Resp :=
  with_ambient (λ x, {| current_caller := match name with Some n => Some n | None => current_caller x end;
                        jwt_vars := v; samples := samples x |}) c.

Lemma entered_same c : entered_as None (jwt_vars (ambient c)) c = c.
Proof. by destruct c as [[]]. Qed.
Lemma inner_run a (h hi : Handler) (s si : Handlers.Servicer Req Resp PyExn Amb) request (c : Call Amb Resp) v r c1 :
  match jwt_verifier a with
  | None => si = Mesh.domain_servicer s
  | Some verify => Jwt.serves_identity is_bot verify (wrap None (Some domain_status) h) hi (Mesh.domain_servicer s)
  end →
  well_formed hi si → is_async s = true → aborted c = None → bound a c = Some v →
  run s request (entered_as None v c) = (r, c1) →
  ∃ f, run si request c = (let '(r2, c2) := Mesh.domain_outcome true r c1 in (r2, with_ambient f c2)) ∧
    (∀ x, current_caller (f x) = current_caller x ∧ samples (f x) = samples x) ∧
    (∀ x, jwt_vars x = v → jwt_vars (f x) = jwt_vars (ambient c)).
Proof.
  intros Hsi Hwi Ha Hab Hv Hr. pose proof (Mesh.domain_servicer_run s request _ r c1 Hr) as Hdom. rewrite Ha in Hdom.
  assert (∀ c2 : Call Amb Resp, with_ambient (λ x, x) c2 = c2) as Hid by (by intros []).
  unfold bound in Hv. destruct (jwt_verifier a) as [verify|]; cycle 1.
  { injection Hv as <-. subst si. rewrite entered_same in Hdom. exists (λ x, x). rewrite Hdom.
    split; [|by split]. destruct (Mesh.domain_outcome true r c1) as [r2 c2]. by rewrite Hid. }
  destruct Hsi as (s' & Hw' & _ & _ & Hrun). specialize (Hrun request c Hab). cbv zeta in Hrun.
  assert (s' = si) as ->.
  { pose proof (behaviour_well_formed _ _ Hw'). pose proof (behaviour_well_formed _ _ Hwi). congruence. }
  destruct (Jwt.identity verify (metadata c)) as [|st|p|e]; [|done| |done].
  - injection Hv as <-. rewrite entered_same in Hdom. exists (λ x, x). rewrite Hrun, Hdom.
    split; [|by split]. destruct (Mesh.domain_outcome true r c1) as [r2 c2]. by rewrite Hid.
  - injection Hv as <-.
    exists (Jwt.update (Jwt.unbind_payload is_bot (metadata c) (Some p) (jwt_vars (ambient c)))).
    destruct (Mesh.domain_outcome true r c1) as [r2 c2] eqn:Ho.
    split; [by apply Hrun|]. split; [done|]. intros x Hx. unfold Jwt.update, view, put; cbn.
    rewrite Hx. apply Jwt.unbind_bind.
Qed.

Lemma refused_identity verify (h0 hi : Handler) si (s0 : Handlers.Servicer Req Resp PyExn Amb) request (c : Call Amb Resp) st :
  Jwt.serves_identity is_bot verify h0 hi s0 → well_formed hi si → aborted c = None →
  Jwt.identity verify (metadata c) = Jwt.refused st → run si request c = (Raise AbortError, with_abort st c).
Proof.
  intros (s' & Hw' & _ & _ & Hrun) Hwi Hab Hid.
  assert (s' = si) as ->.
  { pose proof (behaviour_well_formed _ _ Hw'). pose proof (behaviour_well_formed _ _ Hwi). congruence. }
  specialize (Hrun request c Hab). cbv zeta in Hrun. by rewrite Hid in Hrun.
Qed.
Lemma domain_counted r (c1 : Call Amb Resp) r2 c2 f :
  (∀ e, r = Raise (Raised e) → aborted c1 = None) → Mesh.domain_outcome true r c1 = (r2, c2) →
  sent c2 = sent c1 ∧ code_set c2 = code_set c1 ∧ ambient c2 = ambient c1 ∧
  counted_end r c1 r2 (with_ambient f c2)
    (Metrics.status_code rpc_code (match r2 with Ok _ => None | Raise e => Some e end) (with_ambient f c2)).
Proof.
  intros Hab. unfold Mesh.domain_outcome, counted_end. destruct r as [x|[|e]]; [by intros [= <- <-]|by intros [= <- <-]|].
  specialize (Hab e eq_refl). destruct (domain_status e) as [st|]; [|by intros [= <- <-]].
  unfold abort. rewrite Hab. by intros [= <- <-].
Qed.

(** What the gate does to the context variables on the way in and out. *)
Definition named (name : option string) (c : Call Amb Resp) : Call Amb Resp :=
  with_ambient (match name with Some n => put (Some n) | None => λ x, x end) c.
Definition unnamed (name : option string) (c : Call Amb Resp) : Amb → Amb :=
  match name with Some _ => put (current_caller (ambient c)) | None => λ x, x end.
Lemma named_call a name v c : bound a (named name c) = bound a c ∧
  entered_as None v (named name c) = entered_as name v c ∧ aborted (named name c) = aborted c ∧
  metadata (named name c) = metadata c ∧ jwt_vars (ambient (named name c)) = jwt_vars (ambient c) ∧
  samples (ambient (named name c)) = samples (ambient c).
Proof. by destruct name; destruct c as [[]]. Qed.
Lemma unnamed_fields name c x : jwt_vars (unnamed name c x) = jwt_vars x ∧ samples (unnamed name c x) = samples x ∧
  (name ≠ None → current_caller (unnamed name c x) = current_caller (ambient c)).
Proof. by destruct name. Qed.
Lemma passed_runs a d m name cfg k hi (si : Handlers.Servicer Req Resp PyExn Amb) :
  passes a d m name → method d = Some m → plain_method m → token_config a = Some cfg →
  k d = Ok (Some hi) → well_formed hi si →
  ∃ h1 s1, Authorization.intercept_service cfg k d = Ok (Some h1) ∧ well_formed h1 s1 ∧ same_kind hi h1 ∧
    ∀ request c r c1, run si request (named name c) = (r, c1) →
      run s1 request c = (r, with_ambient (unnamed name c) c1).
Proof.
  intros Hpass Hd Hm Hcfg Hk Hw.
  destruct (gate_passes a d m name cfg k hi si Hpass Hd Hm Hcfg Hk Hw) as (h1 & Hg & Hname).
  assert (∀ c : Call Amb Resp, with_ambient (λ x, x) c = c) as Hid by (by intros []). destruct name as [n|].
  - destruct Hname as (s1 & ? & ? & _ & Hrun). by exists h1, s1.
  - subst h1. exists hi, si. split_and!; try done. intros request c r c1. unfold named, unnamed. by rewrite !Hid.
Qed.

(** [si] is the servicer [s] of the method with handler [h] behind the JWT and
    the domain interceptor. *)
Definition behind_gate (a : Args) (h hi : Handler) (s si : Handlers.Servicer Req Resp PyExn Amb) : Prop :=
  well_formed hi si ∧
  match jwt_verifier a with
  | None => si = Mesh.domain_servicer s
  | Some verify => Jwt.serves_identity is_bot verify (wrap None (Some domain_status) h) hi (Mesh.domain_servicer s)
  end.
Lemma passed_chain a ics handlers d m h s name :
  interceptors a = Ok ics → method d = Some m → plain_method m → handlers m = Some h → well_formed h s →
  request_streaming h = false → response_streaming h = false → is_async s = true → passes a d m name →
  ∃ h' s1 hi si, chain ics (lookup_handler handlers) d = Ok (Some h') ∧
    well_formed h' (Metrics.counted rpc_code (service_name a) m s1) ∧ same_kind h h' ∧ behind_gate a h hi s si ∧
    ∀ request c r c1, run si request (named name c) = (r, c1) → run s1 request c = (r, with_ambient (unnamed name c) c1).
Proof.
  intros Hics Hd Hm Hh Hw Hq Hs Ha Hpass.
  destruct (interceptors_gated a ics handlers (passes_gated _ _ _ _ Hpass) Hics) as (cfg & Hcfg & ->).
  destruct (inner_spec a handlers d m h s Hd Hm Hh Hw) as (hi & si & Hin & Hwi & Hki & Hsi).
  destruct (passed_runs a d m name cfg _ hi si Hpass Hd Hm Hcfg Hin Hwi) as (h1 & s1 & Hg & Hw1 & Hk1 & Hrun1).
  destruct (metrics_spec a _ d m h1 s1 Hd Hm Hg Hw1) as (h2 & Hser & Hw2 & Hk2).
  exists h2, s1, hi, si. split; [exact Hser|]. split; [done|].
  split; [eapply same_kind_trans; [exact Hki|]; by eapply same_kind_trans|].
  split; [|exact Hrun1]. split; [done|]. destruct (jwt_verifier a); auto.
Qed.
(** A call whose identity is proved, and one whose token is refused. *)
Lemma passed_call a h hi s si m name s1 request c v r c1 :
  behind_gate a h hi s si → is_async s = true →
  (∀ request c r c1, run si request (named name c) = (r, c1) → run s1 request c = (r, with_ambient (unnamed name c) c1)) →
  aborted c = None → bound a c = Some v →
  run s request (entered_as name v c) = (r, c1) → (∀ e, r = Raise (Raised e) → aborted c1 = None) →
  ∃ r' c' code, run (Metrics.counted rpc_code (service_name a) m s1) request c = (r', c') ∧
    counted_end r c1 r' c' code ∧ sent c' = sent c1 ∧ code_set c' = code_set c1 ∧
    (name ≠ None → current_caller (ambient c') = current_caller (ambient c)) ∧
    (jwt_vars (ambient c1) = v → jwt_vars (ambient c') = jwt_vars (ambient c)) ∧
    samples (ambient c') = samples (ambient c1) ++ [Metrics.sample (service_name a) m code].
Proof.
  intros [Hwi Hsi] Ha Hrun1 Hab Hv Hr Hraise.
  destruct (named_call a name v c) as (Hb & He & Hab' & _ & Hj & _).
  destruct (inner_run a h hi s si request (named name c) v r c1 Hsi Hwi Ha) as (f & Hrunf & Hf & Hfv);
    [congruence|congruence|by rewrite He|].
  destruct (Mesh.domain_outcome true r c1) as [r2 c2] eqn:Ho.
  rewrite (Metrics.counted_run _ _ _ _ _ _ _ _ (Hrun1 request c _ _ Hrunf)).
  destruct (domain_counted r c1 r2 c2 (λ x, unnamed name c (f x)) Hraise Ho) as (Hsent & Hcode & Hamb & Hend).
  destruct (unnamed_fields name c (f (ambient c1))) as (Hun1 & Hun2 & Hun3).
  destruct (Hf (ambient c1)) as [_ Hsf].
  eexists _, _, _. split; [done|]. split; [exact Hend|]. split; [done|]. split; [done|]. cbn [ambient with_ambient].
  unfold Metrics.count. rewrite Hamb. split; [exact Hun3|]. split.
  - intros Hjv. change (jwt_vars (put ?y ?x)) with (jwt_vars x). by rewrite Hun1, Hfv, Hj.
  - change (samples (put ?x ?y)) with x. change (view ?x) with (samples x). by rewrite Hun2, Hsf.
Qed.
Lemma unproved_call a h hi s si m name s1 request c verify st :
  behind_gate a h hi s si →
  (∀ request c r c1, run si request (named name c) = (r, c1) → run s1 request c = (r, with_ambient (unnamed name c) c1)) →
  aborted c = None → jwt_verifier a = Some verify → Jwt.identity verify (metadata c) = Jwt.refused st →
  ∃ c', run (Metrics.counted rpc_code (service_name a) m s1) request c = (Raise AbortError, c') ∧ aborted c' = Some st ∧
    (name ≠ None → current_caller (ambient c') = current_caller (ambient c)) ∧
    samples (ambient c') = samples (ambient c) ++ [Metrics.sample (service_name a) m st.1].
Proof.
  intros [Hwi Hsi] Hrun1 Hab Hj Hid. rewrite Hj in Hsi.
  destruct (named_call a name (jwt_vars (ambient c)) c) as (_ & _ & Hab' & Hmd & _ & Hsm).
  rewrite <-Hab' in Hab. rewrite <-Hmd in Hid.
  pose proof (refused_identity verify _ hi si _ request _ st Hsi Hwi Hab Hid) as Hrun.
  rewrite (Metrics.counted_run _ _ _ _ _ _ _ _ (Hrun1 request c _ _ Hrun)).
  eexists. split; [done|]. split; [done|]. cbn [ambient with_ambient]. unfold Metrics.count.
  destruct (unnamed_fields name c (ambient (with_abort st (named name c)))) as (_ & Hun & Hcc).
  split; [exact Hcc|].
  change (samples (put ?x ?y)) with x. change (view ?x) with (samples x). rewrite Hun. change (samples (ambient (with_abort st ?x))) with (samples (ambient x)). by rewrite Hsm.
Qed.

(** C2: a call that passes the gate runs as its caller, and is counted once.
    For a coroutine servicer of a unary method in a server assembled from
    these arguments: an admitted caller of a listed method, or anyone with
    the platform's token on another method, reaches the servicer with
    [current_caller] naming it and with the identity its JWT proves, or ends
    as UNAUTHENTICATED when that token is bad; a domain error ends the call
    with its status and everything else passes through; afterwards the
    context variables are what they were; and the metrics count the call
    once, with the status it ended with. *)
Theorem admitted_calls_run_as_their_caller a ics handlers d m h s name :
  interceptors a = Ok ics → method d = Some m → plain_method m → handlers m = Some h → well_formed h s →
  request_streaming h = false → response_streaming h = false → is_async s = true → passes a d m name →
  ∃ h' s', chain ics (lookup_handler handlers) d = Ok (Some h') ∧ well_formed h' s' ∧ same_kind h h' ∧
  (∀ request c v r c1, aborted c = None → bound a c = Some v →
    run s request (entered_as name v c) = (r, c1) → (∀ e, r = Raise (Raised e) → aborted c1 = None) →
    ∃ r' c' code, run s' request c = (r', c') ∧ counted_end r c1 r' c' code ∧ sent c' = sent c1 ∧
      (name ≠ None → current_caller (ambient c') = current_caller (ambient c)) ∧
      (jwt_vars (ambient c1) = v → jwt_vars (ambient c') = jwt_vars (ambient c)) ∧
      samples (ambient c') = samples (ambient c1) ++ [Metrics.sample (service_name a) m code]) ∧
  (∀ request c verify st, aborted c = None → jwt_verifier a = Some verify →
    Jwt.identity verify (metadata c) = Jwt.refused st →
    ∃ c', run s' request c = (Raise AbortError, c') ∧ aborted c' = Some st ∧
      samples (ambient c') = samples (ambient c) ++ [Metrics.sample (service_name a) m st.1]).
Proof.
  intros Hics Hd Hm Hh Hw Hq Hs Ha Hpass.
  destruct (passed_chain a ics handlers d m h s name Hics Hd Hm Hh Hw Hq Hs Ha Hpass)
    as (h2 & s1 & hi & si & Hser & Hw2 & Hk & Hbg & Hrun1).
  exists h2, (Metrics.counted rpc_code (service_name a) m s1). split; [exact Hser|]. split; [done|]. split; [done|]. split.
  - intros request c v r c1 Hab Hv Hr Hraise.
    destruct (passed_call a h hi s si m name s1 request c v r c1 Hbg Ha Hrun1 Hab Hv Hr Hraise)
      as (r' & c' & code & ? & ? & ? & _ & ? & ? & ?). by exists r', c', code.
  - intros request c verify st Hab Hj Hid.
    destruct (unproved_call a h hi s si m name s1 request c verify st Hbg Hrun1 Hab Hj Hid) as (c' & ? & ? & _ & ?).
    by exists c'.
Qed.

(** ** What starts and what stops *)

Definition served_names (a : Args) : list string :=
  [HEALTH_SERVICE] ++ service_names a ++ (if reflection_enabled a then [REFLECTION_SERVICE] else []).
(** The arguments a server may start with. *)
Definition policy_served (a : Args) : Prop :=
  ∀ p rule, caller_policy a = Some p → rule ∈ _rules p → ∃ service name methods,
    method_path rule.1 = Some (service, name) ∧ service ∈ served_names a ∧
    pool service = Some methods ∧ name ∈ methods.
Definition as_created (a : Args) (k : Cont) : Server :=
  {| state := created; serve := k; health := health_of (service_names a); listens := Tls.listener (port a) (tls a);
     reflected := if reflection_enabled a then Some ([HEALTH_SERVICE] ++ service_names a ++ [REFLECTION_SERVICE]) else None |}.

Lemma status_health_of names name : Health.Check_ name (health_of names) =
  if bool_decide (name ∈ names) || bool_decide (name = EmptyString) then Some Health.SERVING else None.
Proof.
  unfold health_of, Health.Check_.
  assert (∀ ns (s : Health.Servicer), Health._shutting_down s = false →
    dget (Health._status (foldl (λ s n, Health.set n Health.SERVING s) s ns)) name =
    if bool_decide (name ∈ ns) then Some Health.SERVING else dget (Health._status s) name) as Hf.
  { intros ns. induction ns as [|n ns IH]; intros s Hs; [done|]. cbn [foldl].
    unfold Health.set at 2. rewrite Hs. rewrite IH by done. cbn [Health._status Health.set_].
    destruct (decide (name ∈ ns)) as [Hin|Hnin].
    - by rewrite !bool_decide_eq_true_2 by (try right; done).
    - rewrite (bool_decide_eq_false_2 (name ∈ ns)) by done. destruct (decide (n = name)) as [->|Hne].
      + rewrite bool_decide_eq_true_2 by left. apply dget_dset_eq.
      + rewrite bool_decide_eq_false_2 by (rewrite elem_of_cons; naive_solver). by apply dget_dset_ne. }
  rewrite Hf by done. destruct (bool_decide (name ∈ names)); [done|]. cbn -[dget].
  destruct (decide (name = EmptyString)) as [->|Hn]; [done|]. rewrite bool_decide_eq_false_2 by done.
  apply dget_None. cbn. set_solver.
Qed.
Lemma health_of_open names : Health._shutting_down (health_of names) = false.
Proof.
  unfold health_of. assert (Health._shutting_down Health.init = false) as Hi by done. revert Hi.
  generalize Health.init. induction names as [|x xs IH]; intros s Hs; [done|]. cbn. apply IH.
  unfold Health.set. by rewrite Hs.
Qed.
Lemma shutdown_not_serving s name st : Health._shutting_down s = false →
  Health.Check_ name (Health.enter_graceful_shutdown s) = Some st → st = Health.NOT_SERVING.
Proof.
  intros Hs. unfold Health.enter_graceful_shutdown, Health.Check_. rewrite Hs, Health.status_set_all.
  case_bool_decide as Hn; [by intros [= <-]|]. cbn. by apply dget_None in Hn as ->.
Qed.
Lemma interceptors_total a : ∃ ics, interceptors a = Ok ics.
Proof.
  unfold interceptors. destruct (gated a) eqn:Hg; [|by eexists].
  destruct (token_config_spec a Hg) as (cfg & -> & _). by eexists.
Qed.
Lemma alter_last {A} (f : A → A) (l : list A) x : alter f (length l) (l ++ [x]) = l ++ [f x].
Proof.
  induction l as [|y l IH]; [done|]. change (y :: alter f (length l) (l ++ [x]) = y :: (l ++ [f x])). by rewrite IH.
Qed.

Definition startup_failed (a : Args) (port_ok : bool) (e : LifecycleError) : Prop :=
  match e with
  | registrar_failed e => registrars a = Raise e
  | policy_not_served e => ∃ p, caller_policy a = Some p ∧ check_served pool p (served_names a) = Raise e
  | port_failed => port_ok = false
  | token_required | empty_token | no_server => False
  end.
Lemma startup_spec a port_ok g r g' : startup a port_ok g = (r, g') →
  ∃ ics, interceptors a = Ok ics ∧ current g' = Some (length (servers g)) ∧
    known_health g' = length (servers g) :: known_health g ∧
    match r with
    | Ok n => n = length (servers g) ∧ port_ok = true ∧ policy_served a ∧ ∃ handlers, registrars a = Ok handlers ∧
        servers g' = servers g ++ [set_state started (as_created a (chain ics (lookup_handler handlers)))]
    | Raise e => startup_failed a port_ok e ∧ ∃ k, servers g' = servers g ++ [as_created a k]
    end.
Proof.
  destruct (interceptors_total a) as [ics Hics]. unfold startup, se_bind, se_lift. rewrite Hics. cbn.
  destruct (registrars a) as [handlers|e] eqn:Hreg; cycle 1.
  { intros [= <- <-]. exists ics. split_and!; try done. by eexists. }
  unfold policy_served, served_names. destruct (caller_policy a) as [p|] eqn:Hp.
  - destruct (check_served pool p _) as [[]|e] eqn:Hs; cycle 1.
    { intros [= <- <-]. exists ics. split_and!; try done; [|by eexists]. exists p. done. }
    unfold start_grpc_server. destruct port_ok; intros [= <- <-]; exists ics; split_and!; try done; [| |by eexists].
    + intros q rule [= <-] Hin. by eapply check_served_spec.
    + exists handlers. split; [done|]. apply alter_last.
  - unfold start_grpc_server. destruct port_ok; intros [= <- <-]; exists ics; split_and!; try done; [|by eexists].
    exists handlers. split; [done|]. apply alter_last.
Qed.

(** Only a checked server starts, and a stopped one says so.  The startup
    of a lifecycle that was built creates one server and becomes its owner,
    and touches no other.  It starts that server exactly when the registrars
    succeed, every method of the policy is one the server serves, and the
    port opens: then a required token is a non-empty one, the server answers
    through the interceptors in their order, on the port and with the
    certificates it was given, and every service it announces is SERVING;
    reflection, where it is on, names what it serves.  When it fails it says why and the server never took a call.
    The shutdown of a started server stops it and leaves no status that is
    not NOT_SERVING. *)
Lemma only_checked_servers_start a port_ok g r g' :
  build a = Ok tt → startup a port_ok g = (r, g') →
  match r with
  | Ok n => n = length (servers g) ∧ current g' = Some n ∧ port_ok = true ∧ policy_served a ∧
      (require_internal_token a = true → ∃ token, internal_token a = Some token ∧ token ≠ EmptyString) ∧
      ∃ ics handlers s, interceptors a = Ok ics ∧ registrars a = Ok handlers ∧
        servers g' = servers g ++ [s] ∧ state s = started ∧ serve s = chain ics (lookup_handler handlers) ∧
        listens s = Tls.listener (port a) (tls a) ∧ reflected s = (if reflection_enabled a then Some (served_names a) else None) ∧
        (∀ name, Health.Check_ name (health s) =
           if bool_decide (name ∈ service_names a) || bool_decide (name = EmptyString)
           then Some Health.SERVING else None) ∧
        ∃ s', stop_grpc_server None g' = (Ok tt,
            {| current := None; servers := servers g ++ [s'];
               known_health := List.filter (λ m, negb (bool_decide (m = n))) (known_health g) |}) ∧
          state s' = stopped ∧ serve s' = serve s ∧
          ∀ name st, Health.Check_ name (health s') = Some st → st = Health.NOT_SERVING
  | Raise e => startup_failed a port_ok e ∧ ∃ s, servers g' = servers g ++ [s] ∧ state s = created
  end.
Proof.
  intros Hb Hs. destruct (startup_spec a port_ok g r g' Hs) as (ics & Hics & Hcur & Hkn & Hr).
  destruct r as [n|e]; [|destruct Hr as (? & k & ?); split; [done|]; by eexists].
  destruct Hr as (-> & -> & Hpol & handlers & Hreg & Hsrv).
  split; [done|]. split; [done|]. split; [done|]. split; [done|]. split.
  { intros Hreq. unfold build in Hb. rewrite Hreq in Hb. unfold truthy in Hb.
    destruct (internal_token a) as [t|]; [|done]. exists t. split; [done|]. by intros ->. }
  exists ics, handlers. eexists. split; [done|]. split; [done|]. split; [done|]. split; [done|]. split; [done|].
  split; [done|]. split; [unfold served_names; cbn [reflected set_state as_created]; by destruct (reflection_enabled a)|].
  split; [apply status_health_of|]. unfold stop_grpc_server. rewrite Hcur, Hsrv, Hkn, alter_last.
  rewrite bool_decide_eq_true_2 by left. eexists. split.
  { f_equal. f_equal. cbn [List.filter]. by rewrite bool_decide_eq_true_2. }
  split; [done|]. split; [done|]. intros name st Hst. cbn [health set_state as_created] in Hst.
  by eapply shutdown_not_serving, Hst; apply health_of_open.
Qed.

(** Stopping a server by argument clears [_SERVER] whichever server it holds:
    the shutdown callable, which stops the current one, then stops nothing,
    and the server goes on taking calls. *)
Lemma stopping_another_forgets_the_current g n m s :
  current g = Some m → n ≠ m → servers g !! m = Some s → state s = started →
  ∃ g1, stop_grpc_server (Some n) g = (Ok tt, g1) ∧ stop_grpc_server None g1 = (Ok tt, g1) ∧
    servers g1 !! m = Some s.
Proof.
  intros Hc Hne Hs Hst. eexists. split; [done|]. split; [done|]. cbn [servers].
  by rewrite list_lookup_alter_ne.
Qed.
End lifecycle.

(** ** A running example

    The policy of Authorization.v's example in front of a servicer that
    answers who called it and whom it acts for, and refuses the request 1. *)

#[local] Instance demo_errors : LibraryErrors PyExn :=
  {| type_error := {| type_name := "TypeError"; is_exception := true; status_code := None; text := "" |};
     usage_error := {| type_name := "UsageError"; is_exception := true; status_code := None; text := "" |} |}.
Definition conflict : PyExn :=
  {| type_name := "SlugTaken"; is_exception := true; status_code := Some 409; text := "slug taken" |}.
Abbreviation DemoAmb := (@Ambient (bool * Z)).
Abbreviation Answer := (option string * option Z)%type.
Definition demo_verify (token : string) : Jwt.Verified (E:=PyExn) (P:=bool * Z) :=
  if bool_decide (token = "bot"%string) then Jwt.valid (true, 7) else Jwt.rejected.
Definition demo_servicer : Handlers.Servicer nat Answer PyExn DemoAmb :=
  {| is_async := true;
     run := λ request c,
       if bool_decide (request = 1%nat) then (Raise (Raised conflict), c)
       else (Ok (Some (current_caller (ambient c),
              Jwt.current_on_behalf (jwt_vars (ambient c)))), c) |}.
Definition demo_handler : MethodHandler nat Answer PyExn DemoAmb bool :=
  unary_unary_rpc_method_handler demo_servicer true false.
Definition demo_handlers (m : string) : option (MethodHandler nat Answer PyExn DemoAmb bool) :=
  if bool_decide (m = enroll) then Some demo_handler else None.
Definition demo_args : @Args nat Answer (bool * Z) bool :=
  {| service_name := "gateway"; internal_token := Some "platform"%string; internal_token_exempt_methods := [];
     require_internal_token := true; alternate_token_verifier := None; jwt_verifier := Some demo_verify;
     reflection_enabled := true; service_names := ["pulse.v1.AgentGateway"%string]; port := 50051; tls := None;
     caller_policy := Some demo_policy; registrars := Ok demo_handlers |}.
Definition demo_metadata (secret : string) : list (string * string) :=
  [("authorization", "Bearer bot"); ("x-on-behalf-user-id", "42"); ("x-internal-token", secret)]%string.
Definition demo_details (secret : string) : HandlerCallDetails :=
  {| method := Some enroll; invocation_metadata := Some (demo_metadata secret) |}.
Definition demo_call (secret : string) : Call DemoAmb Answer :=
  {| ambient := {| current_caller := None; samples := [];
                   jwt_vars := {| Jwt.current_jwt_payload := None; Jwt.current_on_behalf := None |} |};
     metadata := Some (demo_metadata secret); sent := []; aborted := None; code_set := None; details_set := None |}.
Definition demo_ics : list (@Continuation nat Answer PyExn DemoAmb bool → @Continuation nat Answer PyExn DemoAmb bool) :=
  match interceptors fst (λ _, None) demo_args with Ok l => l | Raise _ => [] end.

(** A caller the policy does not know, and what it is counted as. *)
Lemma refused_calls_stop_at_the_gate_witness :
  ∃ h' s', chain demo_ics (lookup_handler demo_handlers) (demo_details "guess") = Ok (Some h') ∧
    well_formed h' s' ∧ ∃ c', run s' 0%nat (demo_call "guess") = (Raise AbortError, c') ∧
    samples (ambient c') = [{| service := "gateway"; grpc_service := "pulse.v1.agentgateway";
                               grpc_method := "enroll"; grpc_code := "unauthenticated" |}].
Proof.
  destruct (refused_calls_stop_at_the_gate fst (λ _, None) demo_args demo_ics demo_handlers (demo_details "guess")
    enroll demo_handler demo_servicer (refusal unauthenticated) eq_refl eq_refl (conj eq_refl eq_refl) eq_refl eq_refl
    ltac:(eapply denied_unknown; by vm_compute)) as (h' & s' & Hc & Hw & _ & Hrun).
  exists h', s'. split; [exact Hc|]. split; [done|].
  destruct (Hrun 0%nat (demo_call "guess") eq_refl) as (c' & Hr & _ & _ & _ & _ & Hs).
  exists c'. split; [done|]. rewrite Hs. by vm_compute.
Defined.

(** A known caller that forwards a bot's token: it is answered as itself and
    on behalf of the user it names, and a refused request is counted by its
    own status. *)
Lemma admitted_calls_run_as_their_caller_witness :
  ∃ h' s', chain demo_ics (lookup_handler demo_handlers) (demo_details "s2") = Ok (Some h') ∧ well_formed h' s' ∧
    (∃ c', run s' 0%nat (demo_call "s2") = (Ok (Some (Some "web-api"%string, Some 42)), c') ∧
       grpc_code <$> samples (ambient c') = ["ok"%string]) ∧
    (∃ c', run s' 1%nat (demo_call "s2") = (Raise AbortError, c') ∧
       aborted c' = Some (ALREADY_EXISTS, "slug taken"%string) ∧
       grpc_code <$> samples (ambient c') = ["already_exists"%string]).
Proof.
  destruct (admitted_calls_run_as_their_caller fst (λ _, None) demo_args demo_ics demo_handlers (demo_details "s2")
    enroll demo_handler demo_servicer (Some "web-api"%string) eq_refl eq_refl (conj eq_refl eq_refl) eq_refl eq_refl
    eq_refl eq_refl eq_refl ltac:(eapply passes_caller; [by vm_compute..|by left]))
    as (h' & s' & Hc & Hw & _ & Hrun & _).
  exists h', s'. split; [exact Hc|]. split; [done|].
  assert (∃ v, bound fst demo_args (demo_call "s2") = Some v ∧ Jwt.current_on_behalf v = Some 42) as (v & Hv & Ho)
    by (eexists; split; by vm_compute).
  split.
  - destruct (Hrun 0%nat (demo_call "s2") v (Ok (Some (Some "web-api"%string, Some 42)))
      (entered_as (Some "web-api"%string) v (demo_call "s2")) eq_refl Hv) as (r' & c' & code & Hr & He & _ & _ & _ & Hs).
    + cbn. by rewrite Ho.
    + done.
    + destruct He as (-> & _ & ->). exists c'. split; [done|]. rewrite Hs. by vm_compute.
  - destruct (Hrun 1%nat (demo_call "s2") v (Raise (Raised conflict))
      (entered_as (Some "web-api"%string) v (demo_call "s2")) eq_refl Hv eq_refl ltac:(done))
      as (r' & c' & code & Hr & (-> & Ha & ->) & _ & _ & _ & Hs).
    exists c'. split; [done|]. split; [done|]. rewrite Hs. by vm_compute.
Defined.

Definition demo_globals : @Globals nat Answer (bool * Z) bool := {| current := None; servers := []; known_health := [] |}.
Definition pools (s : string) : option (list string) :=
  if bool_decide (s = "pulse.v1.AgentGateway"%string) then Some ["Enroll"%string] else None.
Lemma only_checked_servers_start_witness :
  build demo_args = Ok tt ∧
  ∃ g', startup fst (λ _, None) pools demo_args true demo_globals = (Ok 0%nat, g') ∧
    policy_served pools demo_args ∧ ∃ s, servers g' = [s] ∧ state s = started.
Proof.
  split; [by vm_compute|].
  assert ((startup fst (λ _, None) pools demo_args true demo_globals).1 = Ok 0%nat) as Hok by (by vm_compute).
  destruct (startup fst (λ _, None) pools demo_args true demo_globals) as [r g'] eqn:Hrun. cbn in Hok. subst r.
  exists g'. split; [done|].
  destruct (only_checked_servers_start fst (λ _, None) pools demo_args true demo_globals (Ok 0%nat) g' eq_refl Hrun)
    as (_ & _ & _ & Hp & _ & ics & hs & s & _ & _ & Hs & Hst & _).
  split; [exact Hp|]. by exists s.
Defined.
End Lifecycle.
