(* ===== verification/ClientMetrics.v ===== *)
(** * grpc/metrics.py: calls that a service sends

    The client interceptor as a state machine: each call passes through the
    sections of the code between its awaits, in any interleaving with the
    others and with the loop that runs its tasks.  Durations are left out. *)

From S2P Require Import Prelude PyStr Handlers GrpcErrors Server.

Module ClientMetrics.
Import Handlers Metrics.

#[local] Open Scope string_scope.

Record Sample := { service : string; target : string; grpc_service : string; grpc_method : string; grpc_code : string }.
(** [_status_label] *)
Definition status_label (c : option Code) : string :=
  match c with None => "unknown" | Some c => metric_label (Calls.code_name c) end.
(** [_record_client_metrics]; the interceptor has normalized its labels. *)
Record Interceptor := { _service_name : string; _target : string }.
Definition interceptor (service_name target : string) : Interceptor :=
  {| _service_name := metric_label service_name; _target := metric_label target |}.
Definition sample (i : Interceptor) (method : string) (code : option Code) : Sample :=
  let '(s, m) := split_method method in
  {| service := _service_name i; target := _target i; grpc_service := s; grpc_method := m; grpc_code := status_label code |}.

(** What the continuation gives: an exception of grpc with its code, another
    [Exception], one that is no [Exception] (a cancellation), or a call,
    which takes callbacks or not. *)
Inductive Outcome := rpc_error (code : option Code) | failure | interruption | call (callbacks : bool).
(** What reading the code of a finished call gives. *)
Inductive Answer := answers (code : option Code) | answers_rpc_error (code : option Code) | answers_failure.
(** [_observe_completed_client_call] *)
Definition observed_code (a : Answer) (cancelled : bool) : Code :=
  let status_code := match a with answers c | answers_rpc_error c => c | answers_failure => None end in
  match status_code with
  | Some c => c
  | None => if cancelled then CANCELLED else UNKNOWN
  end.

(** How far a call has come. *)
Inductive Phase :=
  | sending | failed (o : Outcome) | plain | watched | finished_without_loop | finished
  | observed (a : Answer) (cancelled : bool).
Record Call_ := { method : string; phase : Phase }.
Record World := { calls : list Call_; samples : list (nat * Sample) }.
Definition start : World := {| calls := []; samples := [] |}.

Definition at_phase (n : nat) (p : Phase) (w : World) : World :=
  {| calls := alter (λ c, {| method := method c; phase := p |}) n (calls w); samples := samples w |}.
Definition record (n : nat) (s : Sample) (w : World) : World :=
  {| calls := calls w; samples := (samples w ++ [(n, s)])%list |}.

Section interceptor.
Context (i : Interceptor).

(** [intercept_unary_unary] up to its await, and after it. *)
Definition send (m : string) (w : World) : World :=
  {| calls := (calls w ++ [{| method := m; phase := sending |}])%list; samples := samples w |}.
Definition sent (n : nat) (m : string) (o : Outcome) (w : World) : World :=
  match o with
  | rpc_error code => record n (sample i m code) (at_phase n (failed o) w)
  | failure => record n (sample i m (Some UNKNOWN)) (at_phase n (failed o) w)
  | interruption => at_phase n (failed o) w
  | call false => record n (sample i m (Some OK)) (at_phase n plain w)
  | call true => at_phase n watched w
  end.
(** [_on_done], with a running loop or without. *)
Definition on_done (n : nat) (m : string) (loop : bool) (w : World) : World :=
  if loop then at_phase n finished w
  else record n (sample i m (Some UNKNOWN)) (at_phase n finished_without_loop w).
Definition observe (n : nat) (m : string) (a : Answer) (cancelled : bool) (w : World) : World :=
  record n (sample i m (Some (observed_code a cancelled))) (at_phase n (observed a cancelled) w).

Inductive step : World → World → Prop :=
  | step_send w m : step w (send m w)
  | step_sent w n m o : calls w !! n = Some {| method := m; phase := sending |} → step w (sent n m o w)
  | step_done w n m loop : calls w !! n = Some {| method := m; phase := watched |} → step w (on_done n m loop w)
  | step_observe w n m a cancelled :
      calls w !! n = Some {| method := m; phase := finished |} → step w (observe n m a cancelled w).

(** The code a call is counted with, once it is. *)
Definition counted (p : Phase) : option (option Code) :=
  match p with
  | failed (rpc_error code) => Some code
  | failed failure | finished_without_loop => Some (Some UNKNOWN)
  | plain => Some (Some OK)
  | observed a cancelled => Some (Some (observed_code a cancelled))
  | _ => None
  end.
Definition samples_of (n : nat) (w : World) : list Sample := (List.filter (λ p, bool_decide (p.1 = n)) (samples w)).*2.
Definition expected (c : option Call_) : list Sample :=
  match c with
  | Some c => match counted (phase c) with Some code => [sample i (method c) code] | None => [] end
  | None => []
  end.
Definition Inv (w : World) : Prop := ∀ n, samples_of n w = expected (calls w !! n).

Lemma samples_of_record n k s w : samples_of n (record k s w) = (samples_of n w ++ (if bool_decide (k = n) then [s] else []))%list.
Proof. unfold samples_of, record. cbn. rewrite List.filter_app, fmap_app. cbn. by case_bool_decide. Qed.

Lemma samples_of_at_phase n k p w : samples_of n (at_phase k p w) = samples_of n w.
Proof. done. Qed.

Lemma calls_at_phase k p w m q n : calls w !! k = Some {| method := m; phase := q |} →
  calls (at_phase k p w) !! n = if bool_decide (k = n) then Some {| method := m; phase := p |} else calls w !! n.
Proof.
  intros Hk. cbn. case_bool_decide as Hn; [subst n|by rewrite list_lookup_alter_ne].
  by rewrite list_lookup_alter_eq, Hk.
Qed.

(** A call moves to a phase, and is counted when that phase is counted. *)
Lemma Inv_move w k m q p : Inv w → calls w !! k = Some {| method := m; phase := q |} → counted q = None →
  Inv (match counted p with Some code => record k (sample i m code) (at_phase k p w) | None => at_phase k p w end).
Proof.
  intros Hinv Hk Hq n. specialize (Hinv n) as Hn. assert (Hlook := calls_at_phase k p w m q n Hk).
  destruct (counted p) as [code|] eqn:Hp; cbn [calls record]; rewrite Hlook, ?samples_of_record, (samples_of_at_phase n k p w), Hn.
  - case_bool_decide as He; [subst n|by rewrite app_nil_r]. rewrite Hk. cbn. by rewrite Hq, Hp.
  - case_bool_decide as He; [subst n|done]. rewrite Hk. cbn. by rewrite Hq, Hp.
Qed.

Lemma step_keeps_Inv w w' : Inv w → step w w' → Inv w'.
Proof.
  intros Hinv Hs. destruct Hs as [w m|w n m o Hn|w n m loop Hn|w n m a cancelled Hn].
  - intros n. transitivity (expected (calls w !! n)); [exact (Hinv n)|]. cbn [send calls].
    destruct (decide (n < length (calls w))%nat); [by rewrite lookup_app_l|].
    rewrite lookup_app_r by lia. rewrite lookup_ge_None_2 by lia. by destruct (n - length (calls w))%nat as [|[]].
  - destruct o as [code| | |[]]; [apply (Inv_move w n m sending (failed (rpc_error code)))|apply (Inv_move w n m sending (failed failure))
      |apply (Inv_move w n m sending (failed interruption))|apply (Inv_move w n m sending watched)|apply (Inv_move w n m sending plain)]; done.
  - destruct loop; [apply (Inv_move w n m watched finished)|apply (Inv_move w n m watched finished_without_loop)]; done.
  - apply (Inv_move w n m finished (observed a cancelled)); done.
Qed.

(** However the calls of a service interleave, a call that failed or whose
    completion was seen is counted once, under its own method and with the
    status it ended with, and a call that is under way, or was interrupted
    before it was sent, is not counted. *)
Lemma sent_calls_are_counted_once w n c : runs step start w → calls w !! n = Some c →
  samples_of n w = match counted (phase c) with Some code => [sample i (method c) code] | None => [] end.
Proof.
  intros Hr Hc. assert (Hinv : Inv w).
  { apply (runs_invariant step Inv start w); [intros; by eapply step_keeps_Inv|by intros []|done]. }
  rewrite Hinv, Hc. done.
Qed.
End interceptor.

(** Labels stay short, whatever a caller sends. *)
Lemma substring_length n s : (String.length (String.substring 0 n s) <= n)%nat.
Proof. revert s. induction n as [|n IH]; intros [|c s]; cbn; try lia. specialize (IH s). lia. Qed.
Lemma metric_label_bounded v : (String.length (metric_label v) <= METRIC_LABEL_MAX)%nat.
Proof.
  unfold metric_label. destruct (is_empty _); [cbn; unfold METRIC_LABEL_MAX; lia|apply substring_length].
Qed.
Lemma labels_are_bounded service target method code : let s := sample (interceptor service target) method code in
  (String.length (grpc_service s) <= METRIC_LABEL_MAX)%nat ∧ (String.length (grpc_method s) <= METRIC_LABEL_MAX)%nat ∧
  (String.length (ClientMetrics.target s) <= METRIC_LABEL_MAX)%nat.
Proof.
  cbn zeta. unfold sample, split_method. destruct (is_empty _); cbn [ClientMetrics.target grpc_service grpc_method].
  - repeat split; [cbn; unfold METRIC_LABEL_MAX; lia..|apply metric_label_bounded].
  - destruct (rpartition_slash _) as [[a b]|]; cbn; repeat split; try apply metric_label_bounded; unfold METRIC_LABEL_MAX; cbn; lia.
Qed.

(** A call cancelled while it is sent leaves no sample. *)
Definition demo_interceptor : Interceptor := interceptor "bot-service" "Billing".
Definition demo_world : World :=
  observe demo_interceptor 0 "/billing.v1.Billing/Pay" (answers None) true
    (on_done demo_interceptor 0 "/billing.v1.Billing/Pay" true
      (sent demo_interceptor 0 "/billing.v1.Billing/Pay" (call true) (send "/billing.v1.Billing/Pay" start))).
Lemma demo_calls_reachable : runs (step demo_interceptor) start demo_world.
Proof.
  unfold demo_world. eapply runs_trans; [eapply runs_trans; [eapply runs_trans|]|]; apply runs_one; by constructor.
Qed.

Lemma sent_calls_are_counted_once_witness :
  samples_of 0 demo_world = [sample demo_interceptor "/billing.v1.Billing/Pay" (Some CANCELLED)].
Proof. apply (sent_calls_are_counted_once demo_interceptor demo_world 0
  {| method := "/billing.v1.Billing/Pay"; phase := observed (answers None) true |} demo_calls_reachable). reflexivity. Defined.

End ClientMetrics.
