(* ===== verification/Fields.v ===== *)
(** * grpc/calls.py: the fields of a message

    The second half of calls.py: reading optional fields, and the PATCH-style
    writers.  Protobuf is not this repository's code: [Message] is the
    interface of a generated message class, with the documented behaviour of
    presence, assignment and [oneof] as the laws [MessageLaws];
    [simple_message] is an implementation of it. *)

From S2P Require Import Prelude PyStr PyDict.
#[local] Open Scope se_scope.

Module Proto.

(** The numbers of [FieldDescriptor.type] that the code names. *)
Definition _TYPE_STRING : Z := 9.
Definition _TYPE_BOOL : Z := 8.
Definition _TYPE_BYTES : Z := 12.
Definition _TYPE_FLOAT : Z := 2.
Definition _TYPE_DOUBLE : Z := 1.
Definition _TYPE_INT32 : Z := 5.
Definition _TYPE_INT64 : Z := 3.
Definition _TYPE_UINT32 : Z := 13.
Definition _TYPE_UINT64 : Z := 4.
Definition _TYPE_SINT32 : Z := 17.
Definition _TYPE_SINT64 : Z := 18.
Definition _TYPE_FIXED32 : Z := 7.
Definition _TYPE_FIXED64 : Z := 6.
Definition _TYPE_SFIXED32 : Z := 15.
Definition _TYPE_SFIXED64 : Z := 16.
Definition _TYPE_ENUM : Z := 14.
Definition _TYPE_MESSAGE : Z := 11.
Definition _INT_TYPES : list Z :=
  [_TYPE_INT32; _TYPE_INT64; _TYPE_UINT32; _TYPE_UINT64; _TYPE_SINT32; _TYPE_SINT64;
   _TYPE_FIXED32; _TYPE_FIXED64; _TYPE_SFIXED32; _TYPE_SFIXED64; _TYPE_ENUM].
Definition _FLOAT_TYPES : list Z := [_TYPE_FLOAT; _TYPE_DOUBLE].

(** A field of a descriptor.  [map_value] is the type of the values of a map
    entry, [None] when the field's message type is not one. *)
Record Field := {
  ftype : Z; label : Z; containing_oneof : option string; map_value : option Z }.
Definition repeated (d : Field) : bool := label d =? 3.
(** Explicit presence: singular messages and the members of a oneof, to which
    protobuf counts the fields marked [optional]. *)
Definition presence (d : Field) : bool :=
  negb (repeated d) && ((ftype d =? _TYPE_MESSAGE) || bool_decide (is_Some (containing_oneof d))).

(** Python values, as far as they are told apart.  [VOther] is an object of
    a class of its own, such as another library's sentinel. *)
Inductive Val (M : Type) :=
  | VNone | VBool (b : bool) | VInt (z : Z) | VFloat (q : Q) | VStr (s : string) | VBytes (s : string)
  | VMsg (m : M) | VList (l : list (Val M)) | VDict (l : list (string * Val M)) | VOther (class : string).
Arguments VNone {M}.
Arguments VBool {M} b.
Arguments VInt {M} z.
Arguments VFloat {M} q.
Arguments VStr {M} s.
Arguments VBytes {M} s.
Arguments VMsg {M} m.
Arguments VList {M} l.
Arguments VDict {M} l.
Arguments VOther {M} class.

Section values.
Context {M : Type}.
Implicit Types v : Val M.
Definition truthy v : bool :=
  match v with
  | VNone => false
  | VBool b => b
  | VInt z => negb (z =? 0)
  | VFloat q => negb (Qeq_bool q 0)
  | VStr s | VBytes s => negb (is_empty s)
  | VList l => match l with [] => false | _ => true end
  | VDict l => match l with [] => false | _ => true end
  | VMsg _ | VOther _ => true
  end.
Definition is_none v : bool := match v with VNone => true | _ => false end.
(** The values protobuf keeps as they are in a scalar field. *)
Definition has_type (d : Field) v : bool :=
  negb (repeated d) &&
  match v with
  | VBool _ => ftype d =? _TYPE_BOOL
  | VInt _ => bool_decide (ftype d ∈ _INT_TYPES)
  | VFloat _ => bool_decide (ftype d ∈ _FLOAT_TYPES)
  | VStr _ => ftype d =? _TYPE_STRING
  | VBytes _ => ftype d =? _TYPE_BYTES
  | _ => false
  end.
End values.

Inductive PyError := value_error | attribute_error | type_error.

(** What the code calls on a message.  The methods of [request.f]
    ([extend], [del [:]], [update], [CopyFrom], item assignment) are methods of
    the message here, with the field's name. *)
Class Message (M : Type) := {
  fields_by_name : M → list (string * Field);
  HasField : string → M → result PyError bool;
  getattr : M → string → option (Val M);
  setattr : string → Val M → M → result PyError M;
  del_all : string → M → result PyError M;
  extend : string → list (Val M) → M → result PyError M;
  update : string → list (string * Val M) → M → result PyError M;
  CopyFrom : string → M → M → result PyError M;
  item_CopyFrom : string → string → M → M → result PyError M }.

Section laws.
Context `{Message M}.
Implicit Types (m : M) (f g : string).
Definition field_of m f : option Field := dget (fields_by_name m) f.
(** Setting a member of a oneof clears its other members. *)
Definition siblings m f g : Prop :=
  f ≠ g ∧ ∃ d e o, field_of m f = Some d ∧ field_of m g = Some e ∧
    containing_oneof d = Some o ∧ containing_oneof e = Some o ∧ presence d = true ∧ presence e = true.
Definition same_oneof (s : list (string * Field)) (f g : string) : bool :=
  negb (bool_decide (f = g)) &&
  match dget s f, dget s g with
  | Some d, Some e =>
      match containing_oneof d with
      | Some o => bool_decide (containing_oneof e = Some o) && presence d && presence e
      | None => false
      end
  | _, _ => false
  end.
Lemma same_oneof_spec m f g : same_oneof (fields_by_name m) f g = true ↔ siblings m f g.
Proof.
  unfold same_oneof, siblings, field_of. rewrite andb_true_iff, negb_true_iff, bool_decide_eq_false. split.
  - intros [Hne Hs]. split; [done|]. destruct (dget _ f) as [d|]; [|done].
    destruct (dget _ g) as [e|]; [|done]. destruct (containing_oneof d) as [o|] eqn:Ho; [|done].
    apply andb_true_iff in Hs as [Hs He]. apply andb_true_iff in Hs as [Hs Hd].
    apply bool_decide_eq_true in Hs. by exists d, e, o.
  - intros (Hne & d & e & o & -> & -> & -> & -> & -> & ->). split; [done|]. by rewrite bool_decide_eq_true_2.
Qed.
(** [m'] is [m] but for the field [f], which holds [v]. *)
Record only_sets (f : string) (v : Val M) (m m' : M) : Prop := {
  sets_schema : fields_by_name m' = fields_by_name m;
  sets_value : getattr m' f = Some v;
  sets_present d : field_of m f = Some d → presence d = true → HasField f m' = Ok true;
  sets_sibling g : siblings m f g → HasField g m' = Ok false;
  sets_other g : g ≠ f → ¬ siblings m f g →
    getattr m' g = getattr m g ∧ HasField g m' = HasField g m }.
End laws.

(** The documented behaviour.  Nothing is said of when an assignment is
    refused (a value of another type, out of the range of its type). *)
Class MessageLaws (M : Type) `{Message M} := {
  HasField_declared m f d : field_of m f = Some d →
    if presence d then ∃ b, HasField f m = Ok b else HasField f m = Raise value_error;
  HasField_unknown m f : field_of m f = None → HasField f m = Raise value_error;
  getattr_declared m f d : field_of m f = Some d → is_Some (getattr m f);
  setattr_sets f v m m' d : field_of m f = Some d → has_type d v = true →
    setattr f v m = Ok m' → only_sets f v m m';
  del_all_sets f m m' d : field_of m f = Some d → repeated d = true → map_value d = None →
    del_all f m = Ok m' → only_sets f (VList []) m m';
  extend_sets f vs m m' d l : field_of m f = Some d → repeated d = true → map_value d = None →
    getattr m f = Some (VList l) → extend f vs m = Ok m' → only_sets f (VList (l ++ vs)) m m';
  update_sets f kvs m m' d l : field_of m f = Some d → repeated d = true → is_Some (map_value d) →
    getattr m f = Some (VDict l) → update f kvs m = Ok m' →
    only_sets f (VDict (foldl (λ acc kv, dset acc kv.1 kv.2) l kvs)) m m';
  CopyFrom_sets f w m m' d : field_of m f = Some d → repeated d = false → ftype d = _TYPE_MESSAGE →
    CopyFrom f w m = Ok m' → only_sets f (VMsg w) m m';
  item_CopyFrom_sets f k w m m' d l : field_of m f = Some d → repeated d = true →
    map_value d = Some _TYPE_MESSAGE → getattr m f = Some (VDict l) → item_CopyFrom f k w m = Ok m' →
    only_sets f (VDict (dset l k (VMsg w))) m m' }.
End Proto.

Module Fields.
Import Proto.
Section fields.
Context {M : Type} `{Message M}.
Implicit Types (m : M) (f : string) (v : Val M).

(** ** Reading *)

(** [_field_is_present] *)
Definition field_is_present m f : bool :=
  match HasField f m with
  | Ok b => b
  | Raise _ => match getattr m f with Some v => truthy v | None => false end
  end.
(** The reading every [optional_*] does: [as_] is [str], [int], [bool] or
    [float]. *)
Definition optional {T} (as_ : Val M → result PyError T) m f : result PyError (option T) :=
  if negb (field_is_present m f) then Ok None
  else match getattr m f with
       | Some v => t ← as_ v; Ok (Some t)
       | None => Raise attribute_error
       end.

(** [str(v)]; what it prints for the values whose [repr] is not modelled is a
    parameter. *)
Context (repr : Val M → string).
Definition py_str v : string :=
  match v with
  | VStr s => s
  | VInt z => str_int z
  | VBool b => if b then "True" else "False"
  | VNone => "None"
  | _ => repr v
  end.
(** [int(x)] of a float: truncation towards zero *)
Definition trunc (q : Q) : Z := Z.quot (Qnum q) (Zpos (Qden q)).
Definition int_of v : result PyError Z :=
  match v with
  | VInt z => Ok z
  | VBool b => Ok (if b then 1 else 0)
  | VFloat q => Ok (trunc q)
  | VStr s | VBytes s => match py_int s with Some z => Ok z | None => Raise value_error end
  | _ => Raise type_error
  end.
Definition float_of v : result PyError Q :=
  match v with
  | VFloat q => Ok q
  | VInt z => Ok (inject_Z z)
  | VBool b => Ok (if b then 1 else 0)%Q
  | VStr s | VBytes s => match py_float s with Some q => Ok q | None => Raise value_error end
  | _ => Raise type_error
  end.
Definition optional_str : M → string → result PyError (option string) := optional (λ v, Ok (py_str v)).
Definition optional_int : M → string → result PyError (option Z) := optional int_of.
Definition optional_bool : M → string → result PyError (option bool) := optional (λ v, Ok (truthy v)).
Definition optional_float : M → string → result PyError (option Q) := optional float_of.
Definition optional_str_from_int : M → string → result PyError (option string) := optional (λ v, Ok (py_str v)).
Definition optional_dt {T} (fromisoformat : string → option T) m f : option T :=
  let raw := match getattr m f with
             | Some v => if truthy v then py_str v else EmptyString
             | None => EmptyString
             end in
  if is_empty raw then None else fromisoformat raw.

(** A value that may be no message at all has no [DESCRIPTOR]. *)
Definition message_has_field (message : option M) f : bool :=
  match message with None => false | Some m => bool_decide (f ∈ dkeys (fields_by_name m)) end.
Definition optional_str_if_present m f : result PyError (option string) :=
  if message_has_field (Some m) f then optional_str m f else Ok None.

(** ** Writing *)

(** An argument of a PATCH-style caller: the module's own sentinel, or a
    value. *)
Inductive Arg := _UNSET | arg (v : Val M).

Definition set_attr (f : string) v : SE M PyError unit := λ m,
  match setattr f v m with Ok m' => (Ok tt, m') | Raise e => (Raise e, m) end.
Fixpoint set_all (l : list (string * Val M)) : SE M PyError unit :=
  match l with
  | [] => se_ret tt
  | (f, v) :: l' => do* set_attr f v in set_all l'
  end.

(** The arguments [apply_optional_fields] does not skip. *)
Definition given (fields : list (string * Arg)) : list (string * Val M) :=
  omap (λ p, match p.2 with
             | _UNSET => None
             | arg v => if is_none v then None else Some (p.1, v)
             end) fields.
Definition apply_optional_fields (fields : list (string * Arg)) : SE M PyError unit := set_all (given fields).

(** The loop of [present_fields].  [unset_type]: the [isinstance] test, when
    there is one; [none_value] is the sentinel by default. *)
Definition present_field (unset_type : option (Val M → bool)) (none_value : Arg)
    (coerce : option (Val M → result PyError (Val M))) (value : Arg) : result PyError (option (Val M)) :=
  match value with
  | _UNSET => Ok None
  | arg v =>
      if match unset_type with Some is_unset => is_unset v | None => false end then Ok None
      else
        match (if is_none v then none_value else value) with
        | _UNSET => Ok None
        | arg w => match coerce with
                   | Some c => u ← c w; Ok (Some u)
                   | None => Ok (Some w)
                   end
        end
  end.
Fixpoint present_fields (unset_type : option (Val M → bool)) (none_value : Arg)
    (coerce : option (Val M → result PyError (Val M))) (fields : list (string * Arg)) :
    result PyError (list (string * Val M)) :=
  match fields with
  | [] => Ok []
  | (name, value) :: fields' =>
      r ← present_field unset_type none_value coerce value;
      rest ← present_fields unset_type none_value coerce fields';
      Ok (match r with Some v => (name, v) :: rest | None => rest end)
  end.
Definition apply_present_fields (unset_type : option (Val M → bool)) (none_value : Arg)
    (coerce : option (Val M → result PyError (Val M))) (fields : list (string * Arg)) : SE M PyError unit :=
  let* l := se_lift (present_fields unset_type none_value coerce fields) in set_all l.

Definition se_of (op : M → result PyError M) : SE M PyError unit := λ m,
  match op m with Ok m' => (Ok tt, m') | Raise e => (Raise e, m) end.
(** [wrapper]: the fresh [wrapper_type()], when there is one. *)
Definition apply_optional_repeated f (values : option (list (Val M))) (wrapper : option M)
    (wrapper_field : string) : SE M PyError unit :=
  match values with
  | None => se_ret tt
  | Some vs =>
      match wrapper with
      | Some w =>
          let* w' := se_lift (extend wrapper_field vs w) in
          se_of (CopyFrom f w')
      | None =>
          do* se_of (del_all f) in
          se_of (extend f vs)
      end
  end.
End fields.
Arguments Arg : clear implicits.

(** ** What a reader sees *)

Section props.
Context {M : Type} `{MessageLaws M}.
Implicit Types (m : M) (f g : string) (v : Val M) (l : list (string * Val M)).

(** What the [optional_*] readers see of a field. *)
Definition read m f : option (Val M) := if field_is_present m f then getattr m f else None.
Lemma optional_read {T} (as_ : Val M → result PyError T) m f d : field_of m f = Some d →
  optional as_ m f = match read m f with None => Ok None | Some v => t ← as_ v; Ok (Some t) end.
Proof.
  intros Hd. unfold optional, read. destruct (field_is_present m f); [|done]. cbn.
  by destruct (getattr_declared m f d Hd) as [v ->].
Qed.

(** The values [l] can be assigned one by one: to fields that are declared,
    with values of their types, at most one in each oneof. *)
Record assignable m l : Prop := {
  assign_nodup : wf l;
  assign_typed f v : (f, v) ∈ l → ∃ d, field_of m f = Some d ∧ has_type d v = true;
  assign_oneof f g : f ∈ dkeys l → g ∈ dkeys l → ¬ siblings m f g }.

Lemma only_sets_field_of f v m m' g : only_sets f v m m' → field_of m' g = field_of m g.
Proof. intros Ho. unfold field_of. by rewrite (sets_schema _ _ _ _ Ho). Qed.
Lemma only_sets_siblings f v m m' g h : only_sets f v m m' → siblings m' g h ↔ siblings m g h.
Proof. intros Ho. unfold siblings. by setoid_rewrite (only_sets_field_of _ _ _ _ _ Ho). Qed.
Lemma only_sets_trans f v w m m1 m2 : only_sets f v m m1 → only_sets f w m1 m2 → only_sets f w m m2.
Proof.
  intros H1 H2. constructor.
  - by rewrite (sets_schema _ _ _ _ H2), (sets_schema _ _ _ _ H1).
  - apply (sets_value _ _ _ _ H2).
  - intros d Hd. apply (sets_present _ _ _ _ H2). by rewrite (only_sets_field_of _ _ _ _ _ H1).
  - intros g Hs. apply (sets_sibling _ _ _ _ H2). by apply (only_sets_siblings _ _ _ _ _ _ H1).
  - intros g Hne Hs. destruct (sets_other _ _ _ _ H2 g Hne) as [-> ->].
    { by rewrite (only_sets_siblings _ _ _ _ _ _ H1). }
    by apply (sets_other _ _ _ _ H1).
Qed.
Lemma siblings_sym m f g : siblings m f g → siblings m g f.
Proof. intros (Hne & d & e & o & ? & ? & ? & ? & ? & ?). split; [done|]. by exists e, d, o. Qed.

Lemma siblings_meet m f g k : siblings m f g → siblings m k g → k ≠ f → siblings m f k.
Proof.
  intros (_ & d & e & o & Hd & He & Ho & Ho' & ? & _) (_ & d' & e' & o' & Hd' & He' & Hp & Hp' & ? & _) Hk.
  rewrite He in He'. injection He' as <-. rewrite Ho' in Hp'. injection Hp' as <-.
  split; [done|]. by exists d, d', o.
Qed.

(** [m'] is [m] with the values [l] assigned. *)
Record all_set l m m' : Prop := {
  all_schema : fields_by_name m' = fields_by_name m;
  all_values f v : (f, v) ∈ l → getattr m' f = Some v ∧
    ∀ d, field_of m f = Some d → presence d = true → HasField f m' = Ok true;
  all_siblings g f : f ∈ dkeys l → siblings m f g → HasField g m' = Ok false;
  all_others g : g ∉ dkeys l → (∀ f, f ∈ dkeys l → ¬ siblings m f g) →
    getattr m' g = getattr m g ∧ HasField g m' = HasField g m }.

Lemma siblings_schema m m' g h : fields_by_name m' = fields_by_name m → siblings m' g h ↔ siblings m g h.
Proof. intros Hs. unfold siblings, field_of. by rewrite Hs. Qed.
Lemma all_set_nil m : all_set [] m m.
Proof. constructor; [done|set_solver|set_solver|done]. Qed.
Lemma all_set_one f v m m' : only_sets f v m m' → all_set [(f, v)] m m'.
Proof.
  intros [O1 O2 O3 O4 O5]. constructor; [done| | |].
  - by intros g w [= -> ->]%list_elem_of_singleton.
  - intros g h ->%list_elem_of_singleton. apply O4.
  - intros g Hg Hs. apply O5; [set_solver|]. apply Hs. by left.
Qed.
Lemma all_set_app l1 l2 m m1 m2 : wf (l1 ++ l2) →
  (∀ f g, f ∈ dkeys (l1 ++ l2) → g ∈ dkeys (l1 ++ l2) → ¬ siblings m f g) →
  all_set l1 m m1 → all_set l2 m1 m2 → all_set (l1 ++ l2) m m2.
Proof.
  pose proof (dkeys_app l1 l2) as Hk.
  intros Hwf Hno [A1 A2 A3 A4] [B1 B2 B3 B4]. unfold wf in Hwf. rewrite Hk in *.
  apply NoDup_app in Hwf as (_ & Hdis & _).
  assert (∀ g h, siblings m1 g h ↔ siblings m g h) as Hsib by (intros; by apply siblings_schema).
  assert (∀ f, f ∈ dkeys l1 → getattr m2 f = getattr m1 f ∧ HasField f m2 = HasField f m1) as Hkept.
  { intros f Hf. apply B4; [by apply Hdis|]. intros g Hg. rewrite Hsib. apply Hno; set_solver. }
  constructor.
  - congruence.
  - intros f v [Hf|Hf]%elem_of_app.
    + assert (f ∈ dkeys l1) as Hf1 by (apply dkeys_elem; by exists v). destruct (Hkept f Hf1) as [-> ->]. by apply A2.
    + destruct (B2 f v Hf) as [? Hp]. split; [done|]. intros d Hd. apply Hp. unfold field_of. by rewrite A1.
  - intros g f. rewrite Hk. intros [Hf|Hf]%elem_of_app Hs; [|apply (B3 g f Hf); by apply Hsib].
    destruct (B4 g) as [_ ->]; [| |by apply (A3 g f)].
    + intros Hg. apply (Hno f g); [set_solver|set_solver|done].
    + intros k Hk2 Hkg%Hsib. apply (Hno f k); [set_solver|set_solver|].
      apply (siblings_meet m f g k); [done|done|]. intros ->. by apply (Hdis f).
  - intros g. rewrite Hk. intros Hg Hs. destruct (A4 g) as [<- <-]; [set_solver|set_solver|].
    apply B4; [set_solver|]. intros f Hf. rewrite Hsib. set_solver.
Qed.

Lemma set_all_sets l : ∀ m m', assignable m l → set_all l m = (Ok tt, m') → all_set l m m'.
Proof.
  induction l as [|[f v] l IH]; intros m m' Ha; cbn; [intros [= <-]; apply all_set_nil|].
  unfold se_bind, set_attr. destruct (setattr f v m) as [m1|e] eqn:Hs; [|done].
  destruct (assign_typed _ _ Ha f v ltac:(left)) as (d & Hd & Ht).
  pose proof (all_set_one _ _ _ _ (setattr_sets f v m m1 d Hd Ht Hs)) as Ho. intros Hl.
  apply (all_set_app [(f, v)] l m m1 m'); [apply Ha|apply Ha|done|].
  apply IH; [|done]. pose proof (all_schema _ _ _ Ho) as Hsch. constructor.
  - by destruct (proj1 (NoDup_cons _ _) (assign_nodup _ _ Ha)).
  - intros g w Hg. unfold field_of. rewrite Hsch. apply (assign_typed _ _ Ha). by right.
  - intros g h Hg Hh. rewrite (siblings_schema _ _ _ _ Hsch). by apply (assign_oneof _ _ Ha); right.
Qed.

(** One assignment after another fails at the first that is refused. *)
Lemma set_all_fails l : ∀ m m' e, set_all l m = (Raise e, m') →
  ∃ l1 f v l2, l = l1 ++ (f, v) :: l2 ∧ set_all l1 m = (Ok tt, m') ∧ setattr f v m' = Raise e.
Proof.
  induction l as [|[f v] l IH]; intros m m' e; cbn; [done|]. unfold se_bind, set_attr.
  destruct (setattr f v m) as [m1|e1] eqn:Hs.
  - intros Hl. destruct (IH _ _ _ Hl) as (l1 & g & w & l2 & -> & Hl1 & He).
    exists ((f, v) :: l1), g, w, l2. split; [done|]. split; [|done]. cbn. unfold se_bind, set_attr. by rewrite Hs.
  - intros [= <- <-]. exists [], f, v, l. by rewrite Hs.
Qed.

Lemma HasField_presence m f d b : field_of m f = Some d → HasField f m = Ok b → presence d = true.
Proof.
  intros Hd Hb. pose proof (HasField_declared m f d Hd) as Hp. destruct (presence d); [done|]. by rewrite Hp in Hb.
Qed.
Lemma read_all_set l m m' f d : assignable m l → all_set l m m' → field_of m f = Some d →
  match dget l f with
  | Some v => read m' f = (if presence d || truthy v then Some v else None)
  | None => ((∃ g, g ∈ dkeys l ∧ siblings m g f) → read m' f = None) ∧
            ((∀ g, g ∈ dkeys l → ¬ siblings m g f) → read m' f = read m f)
  end.
Proof.
  intros Ha [S1 S2 S3 S4] Hd. assert (field_of m' f = Some d) as Hd' by (unfold field_of; by rewrite S1).
  destruct (dget l f) as [v|] eqn:Hv.
  - destruct (S2 f v (dget_elem _ _ _ Hv)) as [Hg Hp]. unfold read, field_is_present. rewrite Hg.
    destruct (presence d) eqn:Hpd; cbn; [by rewrite (Hp d)|].
    pose proof (HasField_declared m' f d Hd') as Hh. rewrite Hpd in Hh. by rewrite Hh.
  - apply dget_None in Hv. split.
    + intros (g & Hg & Hsib). unfold read, field_is_present. by rewrite (S3 f g Hg Hsib).
    + intros Hno. destruct (S4 f Hv Hno) as [Hg Hh]. unfold read, field_is_present. by rewrite Hg, Hh.
Qed.

Lemma present_fields_spec unset_type none_value coerce (fields : list (string * Arg M)) said :
  present_fields unset_type none_value coerce fields = Ok said → wf fields →
  wf said ∧ dkeys said ⊆ dkeys fields ∧ ∀ f, match dget fields f with
    | None => dget said f = None
    | Some a => present_field unset_type none_value coerce a = Ok (dget said f)
    end.
Proof.
  revert said. induction fields as [|[n a] fields IH]; intros said; cbn.
  { intros [= <-] _. split_and!; [apply wf_nil|done|done]. }
  destruct (present_field unset_type none_value coerce a) as [r|e] eqn:Hr; [|done]. cbn.
  destruct (present_fields unset_type none_value coerce fields) as [rest|e]; [|done]. cbn.
  intros [= <-] Hwf. unfold wf in Hwf. cbn in Hwf. apply NoDup_cons in Hwf as [Hn Hwf].
  destruct (IH rest eq_refl Hwf) as (Hw & Hsub & Hall).
  assert (n ∉ dkeys rest) as Hnr by set_solver. destruct r as [v|].
  - split; [by apply NoDup_cons|]. split; [unfold dkeys in *; cbn; set_solver|]. intros f. cbn.
    case_decide as Hf; [subst; by rewrite Hr|]. apply Hall.
  - split; [done|]. split; [unfold dkeys in *; cbn; set_solver|]. intros f. cbn.
    case_decide as Hf; [|apply Hall]. subst. rewrite Hr. f_equal. symmetry. by apply dget_None.
Qed.

Lemma assignable_prefix m l1 l2 : assignable m (l1 ++ l2) → assignable m l1.
Proof.
  pose proof (dkeys_app l1 l2) as Hk.
  intros [Hn Ht Ho]. constructor.
  - unfold wf in *. rewrite Hk in Hn. by apply NoDup_app in Hn as [? _].
  - intros f v Hf. apply Ht, elem_of_app. by left.
  - intros f g Hf Hg. apply Ho; rewrite Hk; apply elem_of_app; by left.
Qed.


(** Replacing a list: [None] changes nothing, a list, the empty one too, is
    what the field then holds, and a wrapper is present whatever it holds. *)
Theorem repeated_is_replaced f values wrapper wrapper_field m m' d :
  field_of m f = Some d →
  match wrapper with
  | Some w => repeated d = false ∧ ftype d = _TYPE_MESSAGE ∧
      ∃ e, field_of w wrapper_field = Some e ∧ repeated e = true ∧ map_value e = None ∧
        getattr w wrapper_field = Some (VList [])
  | None => repeated d = true ∧ map_value d = None
  end →
  apply_optional_repeated f values wrapper wrapper_field m = (Ok tt, m') →
  match values with
  | None => m' = m
  | Some vs =>
      match wrapper with
      | Some w => ∃ w', only_sets f (VMsg w') m m' ∧ getattr w' wrapper_field = Some (VList vs) ∧
          HasField f m' = Ok true
      | None => only_sets f (VList vs) m m'
      end
  end.
Proof.
  intros Hd Hcase. unfold apply_optional_repeated. destruct values as [vs|]; [|by intros [= <-]].
  destruct wrapper as [w|]; unfold se_bind, se_lift, se_of.
  - destruct Hcase as (Hr & Ht & e & He & Hre & Hme & Hg).
    destruct (extend wrapper_field vs w) as [w'|er] eqn:Hext; [|done].
    destruct (CopyFrom f w' m) as [m1|er] eqn:Hc; [|done]. intros [= <-].
    pose proof (CopyFrom_sets f w' m m1 d Hd Hr Ht Hc) as Ho.
    exists w'. split; [done|]. split; [apply (sets_value _ _ _ _ (extend_sets _ _ _ _ _ [] He Hre Hme Hg Hext))|].
    apply (sets_present _ _ _ _ Ho d Hd). unfold presence. rewrite Hr, Ht. done.
  - destruct Hcase as [Hr Hm].
    destruct (del_all f m) as [m1|er] eqn:Hdel; [|done].
    pose proof (del_all_sets f m m1 d Hd Hr Hm Hdel) as H1.
    destruct (extend f vs m1) as [m2|er] eqn:Hext; [|done]. intros [= <-].
    assert (field_of m1 f = Some d) as Hd1 by by rewrite (only_sets_field_of _ _ _ _ _ H1).
    pose proof (extend_sets f vs m1 m2 d [] Hd1 Hr Hm (sets_value _ _ _ _ H1) Hext) as H2.
    by eapply only_sets_trans.
Qed.
End props.

(** ** A message class *)

(** Its schema and the values that were set. *)
Inductive Simple := simple (schema : list (string * Field)) (store : list (string * Val Simple)).
Definition schema (m : Simple) : list (string * Field) := match m with simple s _ => s end.
Definition store (m : Simple) : list (string * Val Simple) := match m with simple _ s => s end.
Definition default_value (d : Field) : Val Simple :=
  if repeated d then (if map_value d then VDict [] else VList [])
  else if ftype d =? _TYPE_STRING then VStr EmptyString
  else if ftype d =? _TYPE_BYTES then VBytes EmptyString
  else if ftype d =? _TYPE_BOOL then VBool false
  else if bool_decide (ftype d ∈ _FLOAT_TYPES) then VFloat 0
  else if ftype d =? _TYPE_MESSAGE then VMsg (simple [] []) else VInt 0.
Definition put_field (f : string) (v : Val Simple) (m : Simple) : Simple :=
  simple (schema m) (dset (List.filter (λ p, negb (same_oneof (schema m) f p.1)) (store m)) f v).
(** An operation on a field of the right kind. *)
Definition on_field (f : string) (ok : Field → bool) (new : Val Simple → option (Val Simple)) (m : Simple) :
    result PyError Simple :=
  match dget (schema m) f with
  | None => Raise attribute_error
  | Some d =>
      if ok d then
        match new (default (default_value d) (dget (store m) f)) with
        | Some v => Ok (put_field f v m)
        | None => Raise type_error
        end
      else Raise type_error
  end.
Definition is_map (d : Field) : bool := match map_value d with Some _ => true | None => false end.
#[export] Instance simple_message : Message Simple := {
  fields_by_name := schema;
  HasField f m := match dget (schema m) f with
                  | Some d => if presence d then Ok (dmem (store m) f) else Raise value_error
                  | None => Raise value_error
                  end;
  getattr m f := match dget (schema m) f with
                 | Some d => Some (default (default_value d) (dget (store m) f))
                 | None => None
                 end;
  setattr f v := on_field f (λ d, has_type d v) (λ _, Some v);
  del_all f := on_field f (λ d, repeated d && negb (is_map d)) (λ _, Some (VList []));
  extend f vs := on_field f (λ d, repeated d && negb (is_map d))
                   (λ w, match w with VList l => Some (VList (l ++ vs)) | _ => None end);
  update f kvs := on_field f (λ d, repeated d && is_map d)
                    (λ w, match w with VDict l => Some (VDict (foldl (λ acc kv, dset acc kv.1 kv.2) l kvs)) | _ => None end);
  CopyFrom f w := on_field f (λ d, negb (repeated d) && (ftype d =? _TYPE_MESSAGE)) (λ _, Some (VMsg w));
  item_CopyFrom f k w := on_field f (λ d, repeated d && is_map d)
                    (λ x, match x with VDict l => Some (VDict (dset l k (VMsg w))) | _ => None end) }.
Lemma same_simple (m : Simple) f g : same_oneof (schema m) f g = true ↔ siblings m f g.
Proof. exact (same_oneof_spec m f g). Qed.
Lemma put_field_sets f v m d : dget (schema m) f = Some d → only_sets f v m (put_field f v m).
Proof.
  intros Hd. constructor; cbn.
  - done.
  - by rewrite Hd, dget_dset_eq.
  - intros d' Hd' Hp. unfold field_of in Hd'; cbn in Hd'. rewrite Hd' , Hp. unfold dmem. by rewrite dget_dset_eq.
  - intros g Hs. pose proof Hs as (Hne & _ & e & _ & _ & He & _ & _ & _ & Hp). unfold field_of in He; cbn in He.
    rewrite He, Hp. f_equal. unfold dmem. apply bool_decide_eq_false.
    rewrite dget_dset_ne, (dget_filter_key (λ k, negb (same_oneof (schema m) f k))) by done.
    apply same_simple in Hs. cbn in Hs. rewrite Hs. cbn. by intros [? ?].
  - intros g Hne Hs. rewrite dget_dset_ne, (dget_filter_key (λ k, negb (same_oneof (schema m) f k))) by done.
    destruct (same_oneof (schema m) f g) eqn:Hso; [by apply same_simple in Hso|]. cbn.
    split; [done|]. unfold dmem. by rewrite dget_dset_ne, (dget_filter_key (λ k, negb (same_oneof (schema m) f k))), Hso.
Qed.
Lemma on_field_sets f ok new m m' d v : field_of m f = Some d →
  on_field f ok new m = Ok m' → new (default (default_value d) (dget (store m) f)) = Some v →
  only_sets f v m m'.
Proof.
  unfold field_of, on_field; cbn. intros Hd. rewrite Hd. destruct (ok d); [|done]. intros Hn Hv. rewrite Hv in Hn.
  injection Hn as <-. by eapply put_field_sets.
Qed.
#[export] Instance simple_laws : MessageLaws Simple.
Proof.
  assert (∀ (m : Simple) f d l, field_of m f = Some d → getattr m f = Some l →
    default (default_value d) (dget (store m) f) = l) as Hget.
  { unfold field_of; cbn. intros m f d l Hd. rewrite Hd. by intros [= ->]. }
  constructor.
  - unfold field_of; cbn. intros m f d ->. destruct (presence d); by eauto.
  - unfold field_of; cbn. by intros m f ->.
  - unfold field_of; cbn. intros m f d ->. by eexists.
  - intros f v m m' d Hd _ Hs. exact (on_field_sets f _ _ m m' d _ Hd Hs eq_refl).
  - intros f m m' d Hd _ _ Hs. exact (on_field_sets f _ _ m m' d _ Hd Hs eq_refl).
  - intros f vs m m' d l Hd _ _ Hg Hs. eapply on_field_sets; [exact Hd|exact Hs|]. by rewrite (Hget _ _ _ _ Hd Hg).
  - intros f kvs m m' d l Hd _ _ Hg Hs. eapply on_field_sets; [exact Hd|exact Hs|]. by rewrite (Hget _ _ _ _ Hd Hg).
  - intros f w m m' d Hd _ _ Hs. exact (on_field_sets f _ _ m m' d _ Hd Hs eq_refl).
  - intros f k w m m' d l Hd _ _ Hg Hs. eapply on_field_sets; [exact Hd|exact Hs|]. by rewrite (Hget _ _ _ _ Hd Hg).
Qed.

(** ** A running example

    A PATCH of a server's card: a title that is cleared, a sort order, a flag
    left alone, and a kind from a oneof. *)

Definition demo_schema : list (string * Field) :=
  [("title", {| ftype := _TYPE_STRING; label := 1; containing_oneof := Some "_title"; map_value := None |});
   ("sort_order", {| ftype := _TYPE_INT32; label := 1; containing_oneof := None; map_value := None |});
   ("public", {| ftype := _TYPE_BOOL; label := 1; containing_oneof := Some "_public"; map_value := None |});
   ("name", {| ftype := _TYPE_STRING; label := 1; containing_oneof := Some "kind"; map_value := None |});
   ("number", {| ftype := _TYPE_INT64; label := 1; containing_oneof := Some "kind"; map_value := None |})]%string.
Definition demo_fields : list (string * Arg Simple) :=
  [("title", arg VNone); ("sort_order", arg (VInt 0)); ("public", arg (VOther "UnsetType")); ("number", arg (VInt 7))]%string.
Definition is_unset (v : Val Simple) : bool := match v with VOther c => bool_decide (c = "UnsetType"%string) | _ => false end.
Definition demo_message : Simple := simple demo_schema [("public", VBool true); ("name", VStr "old")]%string.
Definition demo_said : list (string * Val Simple) :=
  [("title", VStr ""); ("sort_order", VInt 0); ("number", VInt 7)]%string.
Lemma demo_assignable : assignable demo_message demo_said.
Proof.
  constructor.
  - apply (bool_decide_eq_true_1 (NoDup (dkeys demo_said))). by vm_compute.
  - intros f v. unfold demo_said. rewrite !elem_of_cons.
    intros [[= -> ->]|[[= -> ->]|[[= -> ->]|[]%not_elem_of_nil]]]; eexists; split; by vm_compute.
  - intros f g Hf Hg Hs%same_simple. cbn in Hf, Hg. rewrite !elem_of_cons in Hf, Hg.
    destruct Hf as [->|[->|[->|[]%not_elem_of_nil]]]; destruct Hg as [->|[->|[->|[]%not_elem_of_nil]]];
      by vm_compute in Hs.
Qed.
End Fields.
