(* ===== verification/ClientCodegen.v ===== *)
(** * grpc/client_codegen.py: generating clients

    [Render]: from the descriptors of a package to the text of its clients, as
    the code builds it.  [Targets]: where a run takes its targets from.  What
    the generated methods do is in GeneratedClient.v.  Importing the packages
    and writing the files are not modelled. *)

From S2P Require Import Prelude PyStr PyDict Fields.

#[local] Open Scope string_scope.
#[local] Open Scope list_scope.
#[local] Open Scope Z_scope.

Module Render.
Import Proto.

Definition nl : string := String (ascii_of_nat 10) "".
Definition quoted (s : string) : string := String dquote (s +:+ String dquote "").
Definition lines (l : list string) : string := join nl l.

(** [_Field], [_Method], [_Service] *)
Record GField := {
  name : string; py_type : string; is_repeated : bool; is_optional : bool; is_message : bool;
  is_map : bool; map_value_is_message : bool }.
Record GMethod := {
  rpc_name : string; snake_name : string; input_type : string; output_type : string; gfields : list GField }.
Record GService := {
  proto_module : string; grpc_module : string; service_name : string; stub_class : string;
  methods : list GMethod }.

(** [_snake] *)
Definition next_is_lower (s : string) : bool := match s with String c _ => is_lower c | "" => false end.
Fixpoint snake_go (prev : option ascii) (s : string) : string :=
  match s with
  | EmptyString => ""
  | String ch s' =>
      let rest := String (lower_char ch) (snake_go (Some ch) s') in
      match prev with
      | Some p => if is_upper ch && (negb (is_upper p) || next_is_lower s') then String "_" rest else rest
      | None => rest
      end
  end.
Definition snake : string → string := snake_go None.

(** [_py_type_for] *)
Definition py_type_for (t : Z) : string :=
  if (t =? _TYPE_STRING)%Z then "str"
  else if (t =? _TYPE_BOOL)%Z then "bool"
  else if (t =? _TYPE_BYTES)%Z then "bytes"
  else if bool_decide (t ∈ _INT_TYPES) then "int"
  else if bool_decide (t ∈ _FLOAT_TYPES) then "float"
  else "Any".

(** [_collect_fields] *)
Definition collect_field (f : string * Field) : GField :=
  let d := f.2 in
  let is_rep := (label d =? 3)%Z in
  let is_m := is_rep && (ftype d =? _TYPE_MESSAGE)%Z && bool_decide (is_Some (map_value d)) in
  {| name := f.1; py_type := py_type_for (ftype d); is_repeated := is_rep;
     is_optional := match containing_oneof d with Some o => startswith "_" o | None => false end;
     is_message := (ftype d =? _TYPE_MESSAGE)%Z; is_map := is_m;
     map_value_is_message := is_m && bool_decide (map_value d = Some _TYPE_MESSAGE) |}.
Definition collect_fields (fs : list (string * Field)) : list GField := collect_field <$> fs.

(** What [_scan_package] reads: the modules of the package with the services
    of their descriptors, and whether a stub class exists for each. *)
Record RpcDescriptor := { rpc : string; input : string * list (string * Field); output : string }.
Record ServiceDescriptor := { sname : string; rpcs : list RpcDescriptor; has_stub : bool }.
Definition method_of (short_pb2 : string) (r : RpcDescriptor) : GMethod :=
  {| rpc_name := rpc r; snake_name := snake (rpc r); input_type := short_pb2 +:+ "." +:+ (input r).1;
     output_type := short_pb2 +:+ "." +:+ output r; gfields := collect_fields (input r).2 |}.
Definition removesuffix_grpc (m : string) : string := String.substring 0 (String.length m - 5) m.
Definition scan_package (modules : list (string * list ServiceDescriptor)) (service_names : option (list string)) :
    list GService :=
  '(m, services) ← modules;
  if endswith "_pb2_grpc" m then
    s ← services;
    if match service_names with Some names => negb (bool_decide (sname s ∈ names)) | None => false end then []
    else if negb (has_stub s) then []
    else [{| proto_module := removesuffix_grpc m; grpc_module := m; service_name := sname s;
             stub_class := sname s +:+ "Stub"; methods := method_of (removesuffix_grpc m) <$> rpcs s |}]
  else [].

(** [_render_signature] *)
Definition required_param (f : GField) : option string :=
  if is_map f || is_repeated f || is_message f || is_optional f then None
  else Some (name f +:+ ": " +:+ py_type f).
Definition optional_param (f : GField) : option string :=
  if is_map f then Some (name f +:+ ": Mapping[str, Any] | None = None")
  else if is_repeated f then Some (name f +:+ ": Iterable[" +:+ py_type f +:+ "] = ()")
  else if is_message f then Some (name f +:+ ": Any | None = None")
  else if is_optional f then Some (name f +:+ ": " +:+ py_type f +:+ " | None = None")
  else None.
Definition grpc_options : list string :=
  ["grpc_resource: str | None = None"; "grpc_resource_id: object = None";
   "grpc_extra_errors: Mapping[grpc.StatusCode, Any] | None = None"].
Definition render_signature (m : GMethod) : string :=
  join ", " (["*"] ++ omap required_param (gfields m) ++ omap optional_param (gfields m) ++ grpc_options).

(** [_render_request_build] *)
Definition plain_kwarg (f : GField) : option string :=
  if is_map f || is_repeated f || is_message f || is_optional f then None
  else Some (name f +:+ "=" +:+ name f).
Definition optional_kwarg (f : GField) : option string :=
  if is_map f || is_repeated f || is_message f then None else if is_optional f then Some (name f) else None.
Definition multi_block (f : GField) : option string :=
  let n := name f in
  if is_map f then
    Some (if map_value_is_message f
          then "if " +:+ n +:+ ":" +:+ nl +:+ "    for key, value in " +:+ n +:+ ".items():" +:+ nl
               +:+ "        request." +:+ n +:+ "[key].CopyFrom(value)"
          else "if " +:+ n +:+ ":" +:+ nl +:+ "    request." +:+ n +:+ ".update(" +:+ n +:+ ")")
  else if is_repeated f then
    Some ("if " +:+ n +:+ ":" +:+ nl +:+ "    request." +:+ n +:+ ".extend(" +:+ n +:+ ")")
  else if is_message f then
    Some ("if " +:+ n +:+ " is not None:" +:+ nl +:+ "    request." +:+ n +:+ ".CopyFrom(" +:+ n +:+ ")")
  else None.
Definition render_request_build (m : GMethod) : string :=
  let plain_kwargs := omap plain_kwarg (gfields m) in
  let optional_kwargs := omap optional_kwarg (gfields m) in
  lines
    ([match plain_kwargs with
      | [] => "request = " +:+ input_type m +:+ "()"
      | _ => "request = " +:+ input_type m +:+ "(" +:+ join ", " plain_kwargs +:+ ")"
      end] ++
     match optional_kwargs with
     | [] => []
     | _ => ["apply_optional_fields(request, " +:+ join ", " ((λ n, n +:+ "=" +:+ n) <$> optional_kwargs) +:+ ")"]
     end ++
     omap multi_block (gfields m)).

Section service.
(** [repr] of a string, and the dash of the header, which is above U+00FF. *)
Context (repr : string → string) (em_dash : string).

(** [_render_method] *)
Definition indent (s : string) : string := "    " +:+ s.
Definition render_method (resource : string) (m : GMethod) : string :=
  let indented_body := lines (indent <$> split (ascii_of_nat 10) (render_request_build m)) in
  "async def " +:+ snake_name m +:+ "(" +:+ render_signature m +:+ ") -> " +:+ output_type m +:+ ":" +:+ nl
  +:+ indented_body +:+ nl
  +:+ "    return await _CLIENT.call(" +:+ nl
  +:+ "        _STUBS[" +:+ quoted (rpc_name m) +:+ "]," +:+ nl
  +:+ "        request," +:+ nl
  +:+ "        resource=grpc_resource if grpc_resource is not None else " +:+ repr resource +:+ "," +:+ nl
  +:+ "        resource_id=grpc_resource_id," +:+ nl
  +:+ "        extra_errors=grpc_extra_errors," +:+ nl
  +:+ "    )" +:+ nl.

Record Settings := {
  proto_package : string; channel_key : string; target_setting : string; timeout_setting : string;
  token_setting : string; settings_import : string; resource : string }.

Definition import_lines (module : string) (names : list string) : list string :=
  match names with
  | [n] => ["from " +:+ module +:+ " import " +:+ n]
  | _ => ["from " +:+ module +:+ " import ("] ++ ((λ n, "    " +:+ n +:+ ",") <$> names) ++ [")"]
  end.
Definition stub_lookups (s : GService) : string :=
  join ("," +:+ nl +:+ "    ") ((λ m, quoted (rpc_name m) +:+ ": _STUB." +:+ rpc_name m) <$> methods s).
(** [_render_service_module] *)
Definition uses (p : GField → bool) (s : GService) : bool := existsb (λ m, existsb p (gfields m)) (methods s).
Definition triple : string := String dquote (String dquote (String dquote "")).
Definition header_lines (c : Settings) (s : GService) : list string :=
  let collections := (if uses is_repeated s then ["Iterable"] else []) ++ ["Mapping"] in
  let toolkit := (if uses is_optional s then ["apply_optional_fields"] else []) ++ ["build_grpc_client"] in
  let proto_lines := ["from " +:+ proto_package c +:+ " import ("; "    " +:+ proto_module s +:+ ",";
                      "    " +:+ grpc_module s +:+ ","; ")"] in
  let toolkit_lines := import_lines "service_toolkit.grpc" toolkit in
  [triple +:+ "AUTOGENERATED gRPC client for " +:+ service_name s +:+ "."; "";
   "Do not edit by hand " +:+ em_dash +:+ " regenerate via ``lp-gen-client``.";
   "Source proto package: ``" +:+ proto_package c +:+ "``"; triple; ""; "from __future__ import annotations"; ""] ++
  import_lines "collections.abc" collections ++
  ["from typing import Any"; ""; "import grpc"] ++
  (if String.ltb (proto_package c) "service_toolkit.grpc" then proto_lines ++ toolkit_lines
   else toolkit_lines ++ proto_lines) ++
  [""; "from " +:+ settings_import c +:+ " import settings"; "";
   "_CHANNEL_KEY = " +:+ repr (channel_key c); "_CLIENT = build_grpc_client("; "    key=_CHANNEL_KEY,";
   "    target=" +:+ target_setting c +:+ ","; "    token=" +:+ token_setting c +:+ ",";
   "    timeout_seconds=" +:+ timeout_setting c +:+ ","; ")";
   "_STUB = _CLIENT.stub(" +:+ grpc_module s +:+ "." +:+ stub_class s +:+ ")"; "_STUBS = {";
   "    " +:+ stub_lookups s +:+ ","; "}"; ""; ""; "async def close() -> None:"; "    await _CLIENT.close()";
   ""; ""; ""].
Definition render_service_module (c : Settings) (s : GService) : string :=
  rstrip_by is_space (lines (header_lines c s) +:+ join (nl +:+ nl) (render_method (resource c) <$> methods s)) +:+ nl.
(** The file [_generate_target] writes it to. *)
Definition out_file (s : GService) : string := snake (service_name s) +:+ "_grpc.py".
End service.
(** *** Names

    [_snake] lowers the name and inserts underscores: a name without capitals
    stays as it is, and names that become the same differ in case and
    underscores only. *)
Fixpoint squeeze (s : string) : string :=
  match s with
  | EmptyString => ""
  | String c s' => if decide (c = "_"%char) then squeeze s' else String (lower_char c) (squeeze s')
  end.
Lemma upper_not_underscore c : is_upper c = true → c ≠ "_"%char.
Proof. by intros H ->. Qed.
Lemma lower_underscore c : lower_char c = "_"%char → c = "_"%char.
Proof. destruct c as [[] [] [] [] [] [] [] []]; vm_compute; congruence. Qed.
Lemma lower_lower c : lower_char (lower_char c) = lower_char c.
Proof. destruct c as [[] [] [] [] [] [] [] []]; by vm_compute. Qed.
Lemma squeeze_snake s : squeeze (snake s) = squeeze s.
Proof.
  unfold snake. generalize (@None ascii). induction s as [|c s IH]; intros prev; [done|]. cbn.
  assert (squeeze (String (lower_char c) (snake_go (Some c) s)) = squeeze (String c s)) as Hc.
  { cbn. destruct (decide (c = "_"%char)) as [->|Hc]; [apply IH|].
    rewrite decide_False by (by intros ?%lower_underscore). by rewrite lower_lower, IH. }
  destruct prev as [p|]; [|exact Hc]. destruct (is_upper c && _); [|exact Hc]. exact Hc.
Qed.
Lemma snake_fixes s : sall (λ c, negb (is_upper c)) s = true → snake s = s.
Proof.
  unfold snake. generalize (@None ascii). induction s as [|c s IH]; intros prev; cbn; [done|].
  intros [Hc Hs]%andb_true_iff. apply negb_true_iff in Hc. unfold lower_char. rewrite Hc, (IH _ Hs). by destruct prev.
Qed.
Lemma snake_lower s : sall (λ c, negb (is_upper c)) (snake s) = true.
Proof.
  assert (∀ c, negb (is_upper (lower_char c)) = true) as Hl
    by (intros c; destruct c as [[] [] [] [] [] [] [] []]; by vm_compute).
  unfold snake. generalize (@None ascii). induction s as [|c s IH]; intros prev; [done|]. cbn.
  destruct prev as [p|]; [destruct (is_upper c && _)|]; cbn; by rewrite Hl, IH.
Qed.
(** Two services whose names become the same write the same file, and two
    methods the same function: the later one stays. *)
Lemma snake_collisions s t : snake s = snake t → squeeze s = squeeze t.
Proof. intros H. by rewrite <-(squeeze_snake s), H, squeeze_snake. Qed.
Example colliding_names : snake "GetURL" = snake "GetUrl" ∧ snake "GetURLPath" = "get_url_path".
Proof. by vm_compute. Qed.
(** A service without methods: [_STUBS] holds a lone comma. *)
Lemma empty_service_stubs s : methods s = [] → "    " +:+ stub_lookups s +:+ "," = "    ,".
Proof. unfold stub_lookups. by intros ->. Qed.
End Render.

(** ** Where the targets come from *)

Module Targets.

(** What TOML, the environment and the command line give. *)
Inductive Value := TStr (s : string) | TInt (z : Z) | TBool (b : bool) | TList (l : list Value)
  | TTable (l : list (string * Value)) | TOther (printed : string).
Definition Raw : Type := list (string * option Value).
Record Target {P : Type} := {
  proto_package : string; out_dir : P; channel_key_prefix : string; target_setting : string;
  timeout_setting : string; token_setting : string; settings_import : string; resource : string;
  services : list string }.
Arguments Target : clear implicits.
(** [SystemExit]: its message, or the fields [_target_from_mapping] lists in it;
    [unreadable]: reading or parsing the file raised. *)
Inductive Exit := missing (names : list string) | bad_services | no_file | no_section | no_targets | no_source
  | unreadable.

Section targets.
(** [pathlib], and [repr] of the values that are not strings, integers or
    booleans. *)
Context {P : Type} (Path : string → P) (is_absolute : P → bool) (div : P → P → P) (cwd : P)
  (resolve parent : P → P) (exists_ : P → bool) (load : P → result Exit (list (string * Value)))
  (repr : Value → string).

Definition str_of (v : Value) : string :=
  match v with
  | TStr s => s
  | TInt z => str_int z
  | TBool b => if b then "True" else "False"
  | TOther s => s
  | TList _ | TTable _ => repr v
  end.
(** [_get_config_section] *)
Definition table (v : option Value) : option (list (string * Value)) :=
  match v with Some (TTable t) => Some t | _ => None end.
Definition candidates : list (string * string) :=
  [("service_toolkit", "grpc_client_codegen"); ("service-toolkit", "grpc-client-codegen");
   ("service_toolkit", "grpc-client-codegen"); ("service-toolkit", "grpc_client_codegen")].
Fixpoint first_section (tool : list (string * Value)) (l : list (string * string)) : option (list (string * Value)) :=
  match l with
  | [] => None
  | (first, second) :: l' =>
      match table (dget tool first) with
      | Some section =>
          match table (dget section second) with
          | Some t => Some t
          | None => first_section tool l'
          end
      | None => first_section tool l'
      end
  end.
Definition get_config_section (data : list (string * Value)) : option (list (string * Value)) :=
  match table (dget data "tool") with
  | Some tool => first_section tool candidates
  | None => None
  end.
(** [_read_key] *)
Definition read_key (raw : Raw) (name : string) (default : option Value) : option Value :=
  let hyphen_name := replace_char "_" "-" name in
  match dget raw name with
  | Some (Some v) => Some v
  | _ => match dget raw hyphen_name with Some (Some v) => Some v | _ => default end
  end.
(** [_coerce_services] *)
Definition coerce_services (value : option Value) : result Exit (list string) :=
  match value with
  | None => Ok []
  | Some (TStr s) => Ok (List.filter (λ x, negb (is_empty x)) (strip <$> split "," s))
  | Some (TList l) => Ok (List.filter (λ x, negb (is_empty x)) ((λ v, strip (str_of v)) <$> l))
  | Some _ => Raise bad_services
  end.
(** [_target_from_mapping]; [required] trims. *)
Definition trimmed (raw : Raw) (name : string) : string :=
  match read_key raw name None with Some v => strip (str_of v) | None => "" end.
Definition required_names : list string :=
  ["proto_package"; "out_dir"; "channel_key_prefix"; "target_setting"; "timeout_setting"].
Definition absent (raw : Raw) (name : string) : bool := is_empty (trimmed raw name).
Definition text (raw : Raw) (name default : string) : string :=
  match read_key raw name (Some (TStr default)) with Some v => str_of v | None => default end.
Definition target_from_mapping (raw : Raw) (base_dir : P) : result Exit (Target P) :=
  match List.filter (absent raw) required_names with
  | [] =>
      let d := Path (trimmed raw "out_dir") in
      services ← coerce_services (read_key raw "services" None);
      Ok {| proto_package := trimmed raw "proto_package";
            out_dir := if is_absolute d then d else div base_dir d;
            channel_key_prefix := trimmed raw "channel_key_prefix";
            target_setting := trimmed raw "target_setting"; timeout_setting := trimmed raw "timeout_setting";
            token_setting := text raw "token_setting" "settings.internal.token";
            settings_import := text raw "settings_import" "platform_api.core.config";
            resource := text raw "resource" "resource"; services := services |}
  | names => Raise (missing names)
  end.
(** [_targets_from_config] *)
Definition present (t : list (string * Value)) : Raw := prod_map id Some <$> t.
Fixpoint targets_of (l : list Value) (base_dir : P) : result Exit (list (Target P)) :=
  match l with
  | [] => Ok []
  | TTable raw :: l' =>
      t ← target_from_mapping (present raw) base_dir; ts ← targets_of l' base_dir; Ok (t :: ts)
  | _ :: l' => targets_of l' base_dir
  end.
Definition targets_from_config (p : P) : result Exit (list (Target P)) :=
  let path := resolve p in
  if negb (exists_ path) then Raise no_file
  else
    data ← load path;
    match get_config_section data with
    | None => Raise no_section
    | Some section =>
        match dget section "targets" with
        | Some (TList (t :: ts)) => targets_of (t :: ts) (parent path)
        | _ => Raise no_targets
        end
    end.
(** [_target_from_env], [_target_from_args] *)
Definition names : list (string * string) :=
  [("proto_package", "PROTO_PACKAGE"); ("out_dir", "OUT_DIR"); ("channel_key_prefix", "CHANNEL_KEY_PREFIX");
   ("target_setting", "TARGET_SETTING"); ("timeout_setting", "TIMEOUT_SETTING"); ("token_setting", "TOKEN_SETTING");
   ("settings_import", "SETTINGS_IMPORT"); ("resource", "RESOURCE"); ("services", "SERVICES")].
Definition env_raw (environ : string → option string) : Raw :=
  (λ '(k, n), (k, TStr <$> environ ("LP_GRPC_CLIENTGEN_" +:+ n))) <$> names.
Definition target_from_env (environ : string → option string) : result Exit (option (Target P)) :=
  match environ "LP_GRPC_CLIENTGEN_PROTO_PACKAGE" with
  | None => Ok None
  | Some _ => t ← target_from_mapping (env_raw environ) cwd; Ok (Some t)
  end.
(** The namespace of the parsed arguments: [--config], and the others. *)
Record Args := { config : option P; options : string → option Value }.
Definition args_raw (a : Args) : Raw := (λ '(k, _), (k, options a k)) <$> names.
Definition target_from_args (a : Args) : result Exit (option (Target P)) :=
  if forallb (λ p, bool_decide (p.2 = None)) (args_raw a) then Ok None
  else t ← target_from_mapping (args_raw a) cwd; Ok (Some t).
(** [_default_config_path] *)
Definition default_config_path (a : Args) (environ : string → option string) : option P :=
  match config a with
  | Some p => Some p
  | None =>
      match environ "LP_GRPC_CLIENTGEN_CONFIG" with
      | Some s => if is_empty s then (if exists_ (Path "pyproject.toml") then Some (Path "pyproject.toml") else None)
                  else Some (Path s)
      | None => if exists_ (Path "pyproject.toml") then Some (Path "pyproject.toml") else None
      end
  end.
(** [_resolve_targets] *)
Definition resolve_targets (a : Args) (environ : string → option string) : result Exit (list (Target P)) :=
  arg_target ← target_from_args a;
  match arg_target with
  | Some t => Ok [t]
  | None =>
      env_target ← target_from_env environ;
      match env_target with
      | Some t => Ok [t]
      | None =>
          match default_config_path a environ with
          | None => Raise no_source
          | Some p => targets_from_config p
          end
      end
  end.

(** An option on the command line decides the run: neither the environment
    nor a configuration is read, even when a required option is missing. *)
Lemma explicit_options_win a o (v : Value) environ environ' : o ∈ names.*1 → options a o = Some v →
  resolve_targets a environ = resolve_targets a environ' ∧
  match target_from_mapping (args_raw a) cwd with
  | Ok t => resolve_targets a environ = Ok [t]
  | Raise e => resolve_targets a environ = Raise e
  end.
Proof.
  intros Ho Hv. unfold resolve_targets, target_from_args.
  assert (forallb (λ p, bool_decide (p.2 = None)) (args_raw a) = false) as ->.
  { apply list_elem_of_fmap in Ho as ([o' n] & -> & Ho). cbn in Hv. apply not_true_iff_false.
    rewrite forallb_forall. intros Hall. assert (In (o', Some v) (args_raw a)) as Hin.
    { apply list_elem_of_In, list_elem_of_fmap. exists (o', n). by rewrite Hv. }
    by apply Hall, bool_decide_eq_true in Hin. }
  by destruct (target_from_mapping (args_raw a) cwd).
Qed.
(** The entries of [targets] that are not tables are skipped: a
    configuration whose only target is a string generates nothing, and the
    run succeeds. *)
Lemma other_targets_vanish path data section l :
  exists_ (resolve path) = true → load (resolve path) = Ok data → get_config_section data = Some section →
  dget section "targets" = Some (TList l) → l ≠ [] → (∀ v, v ∈ l → table (Some v) = None) →
  targets_from_config path = Ok [].
Proof.
  intros He Hl Hs Ht Hne Hall. unfold targets_from_config. rewrite He, Hl. cbn [negb mbind result_bind].
  rewrite Hs, Ht. assert (targets_of l (parent (resolve path)) = Ok []) as Hl'; [|by destruct l].
  clear Hne Ht. induction l as [|w ws IH]; [done|]. cbn.
  pose proof (Hall w ltac:(left)) as Hw. destruct w; try done; apply IH; intros x Hx; apply Hall; by right.
Qed.
End targets.
End Targets.
