(* ===== verification/GeneratedClient.v ===== *)
(** * What a generated client does

    The statements of the text that [Render.render_request_build] writes
    ([render_request_build_shows]), with an executable meaning over the
    interface of a message ([Proto], Fields.v), and what a call of a generated
    method sends. *)

From S2P Require Import Prelude PyStr PyDict Fields ClientCodegen.

#[local] Open Scope string_scope.
#[local] Open Scope list_scope.
#[local] Open Scope Z_scope.

Module Meaning.
Import Proto Fields Render.

(** The statements of a method's body, by the fields they name. *)
Inductive Stmt :=
  | New (type : string) (fields : list string)
  | ApplyOptional (fields : list string)
  | CopyItems (field : string) | Update (field : string) | Extend (field : string)
  | CopyUnlessNone (field : string).
Inductive Kind := KMap (of_messages : bool) | KRepeated | KMessage | KOptional | KPlain.
Definition kind (f : GField) : Kind :=
  if is_map f then KMap (map_value_is_message f) else if is_repeated f then KRepeated
  else if is_message f then KMessage else if is_optional f then KOptional else KPlain.
Definition plain_name (f : GField) : option string := match kind f with KPlain => Some (name f) | _ => None end.
Definition optional_name (f : GField) : option string := match kind f with KOptional => Some (name f) | _ => None end.
Definition multi_stmt (f : GField) : option Stmt :=
  match kind f with
  | KMap true => Some (CopyItems (name f))
  | KMap false => Some (Update (name f))
  | KRepeated => Some (Extend (name f))
  | KMessage => Some (CopyUnlessNone (name f))
  | KOptional | KPlain => None
  end.
Definition stmts (m : GMethod) : list Stmt :=
  [New (input_type m) (omap plain_name (gfields m))] ++
  match omap optional_name (gfields m) with [] => [] | ns => [ApplyOptional ns] end ++
  omap multi_stmt (gfields m).

Definition kwargs_text (ns : list string) : string := join ", " ((λ n, n +:+ "=" +:+ n) <$> ns).
Definition show (s : Stmt) : string :=
  match s with
  | New t ns => "request = " +:+ t +:+ "(" +:+ kwargs_text ns +:+ ")"
  | ApplyOptional ns => "apply_optional_fields(request, " +:+ kwargs_text ns +:+ ")"
  | CopyItems n => lines ["if " +:+ n +:+ ":"; "    for key, value in " +:+ n +:+ ".items():";
                          "        request." +:+ n +:+ "[key].CopyFrom(value)"]
  | Update n => lines ["if " +:+ n +:+ ":"; "    request." +:+ n +:+ ".update(" +:+ n +:+ ")"]
  | Extend n => lines ["if " +:+ n +:+ ":"; "    request." +:+ n +:+ ".extend(" +:+ n +:+ ")"]
  | CopyUnlessNone n => lines ["if " +:+ n +:+ " is not None:"; "    request." +:+ n +:+ ".CopyFrom(" +:+ n +:+ ")"]
  end.

(** The generator writes these statements. *)
Lemma render_request_build_shows m : render_request_build m = lines (show <$> stmts m).
Proof.
  unfold render_request_build, stmts. f_equal. rewrite !fmap_app. f_equal; [|f_equal].
  - cbn. f_equal. assert (omap plain_kwarg (gfields m) = (λ n, n +:+ "=" +:+ n) <$> omap plain_name (gfields m)) as ->.
    { induction (gfields m) as [|f fs IH]; [done|]. cbn. rewrite IH. unfold plain_kwarg, plain_name, kind.
      destruct (is_map f), (is_repeated f), (is_message f), (is_optional f); done. }
    unfold kwargs_text. by destruct (omap plain_name (gfields m)).
  - assert (omap optional_kwarg (gfields m) = omap optional_name (gfields m)) as ->.
    { induction (gfields m) as [|f fs IH]; [done|]. cbn. rewrite IH. unfold optional_kwarg, optional_name, kind.
      destruct (is_map f), (is_repeated f), (is_message f), (is_optional f); done. }
    by destruct (omap optional_name (gfields m)).
  - induction (gfields m) as [|f fs IH]; [done|]. cbn. rewrite IH.
    enough (multi_block f = show <$> multi_stmt f) as -> by (by destruct (multi_stmt f)).
    unfold multi_block, multi_stmt, kind.
    destruct (is_map f); [destruct (map_value_is_message f)|
      destruct (is_repeated f); [|destruct (is_message f); [|by destruct (is_optional f)]]];
      cbn; f_equal; unfold lines; cbn [join]; by rewrite !append_assoc.
Qed.

(** The class of a message type: its fresh message, and its constructor with
    keyword arguments, which sets those that are not [None]. *)
Class MessageTypes (M : Type) `{Message M} := {
  empty : string → M;
  construct : string → list (string * Val M) → result PyError M;
  empty_absent t f d : field_of (empty t) f = Some d → presence d = true → HasField f (empty t) = Ok false;
  empty_list t f d : field_of (empty t) f = Some d → repeated d = true → map_value d = None →
    getattr (empty t) f = Some (VList []);
  empty_map t f d : field_of (empty t) f = Some d → repeated d = true → is_Some (map_value d) →
    getattr (empty t) f = Some (VDict []);
  construct_sets t kwargs m : construct t kwargs = Ok m →
    set_all (given (prod_map id arg <$> kwargs)) (empty t) = (Ok tt, m) }.

Section exec.
Context {M : Type} `{MessageTypes M}.
Inductive RunError := unbound (x : string) | failed (e : PyError).
Definition Env : Type := list (string * Val M).
Definition py {A} (r : result PyError A) : result RunError A :=
  match r with Ok a => Ok a | Raise e => Raise (failed e) end.
Definition var (x : string) (env : Env) : result RunError (Val M) :=
  match dget env x with Some v => Ok v | None => Raise (unbound x) end.
Fixpoint vars (xs : list string) (env : Env) : result RunError (list (string * Val M)) :=
  match xs with
  | [] => Ok []
  | x :: xs' => v ← var x env; vs ← vars xs' env; Ok ((x, v) :: vs)
  end.
Definition message (v : Val M) : result RunError M :=
  match v with VMsg m => Ok m | _ => Raise (failed attribute_error) end.
Definition set_request (m : M) (env : Env) : Env := dset env "request" (VMsg m).
(** [request.f.op(...)]: the message is changed in place. *)
Definition on_request (op : M → result PyError M) (env : Env) : result RunError Env :=
  r ← var "request" env;
  m ← message r;
  m' ← py (op m);
  Ok (set_request m' env).
(** What iterating over a value gives. *)
Fixpoint chars (s : string) : list ascii :=
  match s with EmptyString => [] | String c s' => c :: chars s' end.
Definition iterate (v : Val M) : option (list (Val M)) :=
  match v with
  | VList l => Some l
  | VDict l => Some (VStr <$> dkeys l)
  | VStr s => Some ((λ c, VStr (String c EmptyString)) <$> chars s)
  | VBytes s => Some ((λ c, VInt (Z.of_N (code c))) <$> chars s)
  | _ => None
  end.
(** The loop over [f.items()]: [key] and [value] are locals of the method. *)
Fixpoint copy_items (f : string) (items : list (string * Val M)) (env : Env) : result RunError Env :=
  match items with
  | [] => Ok env
  | (k, v) :: items' =>
      let env1 := dset (dset env "key" (VStr k)) "value" v in
      w ← message v;
      env2 ← on_request (item_CopyFrom f k w) env1;
      copy_items f items' env2
  end.
Definition exec (s : Stmt) (env : Env) : result RunError Env :=
  match s with
  | New t ns => kwargs ← vars ns env; m ← py (construct t kwargs); Ok (set_request m env)
  | ApplyOptional ns =>
      r ← var "request" env;
      kwargs ← vars ns env;
      m ← message r;
      match apply_optional_fields (prod_map id arg <$> kwargs) m with
      | (Ok _, m') => Ok (set_request m' env)
      | (Raise e, _) => Raise (failed e)
      end
  | CopyItems n =>
      v ← var n env;
      if negb (truthy v) then Ok env
      else match v with VDict l => copy_items n l env | _ => Raise (failed attribute_error) end
  | Update n =>
      v ← var n env;
      if negb (truthy v) then Ok env
      else match v with VDict l => on_request (update n l) env | _ => Raise (failed type_error) end
  | Extend n =>
      v ← var n env;
      if negb (truthy v) then Ok env
      else match iterate v with Some l => on_request (extend n l) env | None => Raise (failed type_error) end
  | CopyUnlessNone n =>
      v ← var n env;
      if is_none v then Ok env
      else w ← (match v with VMsg w => Ok w | _ => Raise (failed type_error) end); on_request (CopyFrom n w) env
  end.
Fixpoint exec_all (l : list Stmt) (env : Env) : result RunError Env :=
  match l with
  | [] => Ok env
  | s :: l' => env' ← exec s env; exec_all l' env'
  end.

(** The parameters with their defaults, in the order of the signature. *)
Definition default_of (f : GField) : option (Val M) :=
  match kind f with
  | KMap _ | KMessage | KOptional => Some VNone
  | KRepeated => Some (VList [])
  | KPlain => None
  end.
Definition params (m : GMethod) : list (string * option (Val M)) :=
  ((λ n, (n, None)) <$> omap plain_name (gfields m)) ++
  omap (λ f, match default_of f with Some v => Some (name f, Some v) | None => None end) (gfields m) ++
  [("grpc_resource", Some VNone); ("grpc_resource_id", Some VNone); ("grpc_extra_errors", Some VNone)].
(** Keyword-only parameters: an argument for each that has no default, and
    none for another name. *)
Fixpoint bind (ps : list (string * option (Val M))) (args : Env) : result RunError Env :=
  match ps with
  | [] => Ok []
  | (x, d) :: ps' =>
      v ← (match dget args x, d with
           | Some v, _ => Ok v
           | None, Some v => Ok v
           | None, None => Raise (failed type_error)
           end);
      env ← bind ps' args;
      Ok ((x, v) :: env)
  end.
(** A call of the generated method, up to the request it sends. *)
Definition request_of (m : GMethod) (args : Env) : result RunError M :=
  if negb (forallb (λ x, dmem (params m) x) (dkeys args)) then Raise (failed type_error)
  else env ← bind (params m) args;
       env' ← exec_all (stmts m) env;
       r ← var "request" env';
       message r.
End exec.

(** ** What a call sends *)

Section sends.
Context {M : Type} `{MessageLaws M} `{!MessageTypes M}.
Implicit Types (g : GField) (v : Val M) (env : @Env M).

(** The names a field must not have: the parameters the generator adds, the
    local and the global names the body reads, and, when it loops over a map,
    the names it loops with. *)
Definition reserved (m : GMethod) : list string :=
  ["request"; "grpc_resource"; "grpc_resource_id"; "grpc_extra_errors"; "apply_optional_fields";
   "_CLIENT"; "_STUBS"] ++
  (if existsb map_value_is_message (gfields m) then ["key"; "value"] else []).
Definition safe_names (m : GMethod) : bool := forallb (λ g, negb (bool_decide (name g ∈ reserved m))) (gfields m).
(** What protobuf's descriptors keep to. *)
Definition valid_field (d : Field) : Prop :=
  (is_Some (map_value d) → repeated d = true ∧ ftype d = _TYPE_MESSAGE) ∧
  (is_Some (containing_oneof d) → repeated d = false).
(** An argument of the type its parameter is annotated with. *)
Definition typed (f : string * Field) v : Prop :=
  match kind (collect_field f) with
  | KMap of_messages => v = VNone ∨ ∃ l, v = VDict l ∧ wf l ∧
      (of_messages = true → ∀ p, p ∈ l → ∃ w, p.2 = VMsg w)
  | KRepeated => ∃ l, v = VList l
  | KMessage => v = VNone ∨ ∃ w, v = VMsg w
  | KOptional | KPlain => v = VNone ∨ has_type f.2 v = true
  end.
(** The value a parameter puts into its field, if any. *)
Definition value_sent g v : option (Val M) :=
  match kind g with
  | KMap _ | KRepeated => if truthy v then Some v else None
  | _ => if is_none v then None else Some v
  end.
Definition field_sent env g : list (string * Val M) :=
  match dget env (name g) with
  | Some v => match value_sent g v with Some w => [(name g, w)] | None => [] end
  | None => []
  end.
Definition is_plain g : bool := match kind g with KPlain => true | _ => false end.
Definition is_opt g : bool := match kind g with KOptional => true | _ => false end.
Definition is_multi g : bool := negb (is_plain g) && negb (is_opt g).
Definition sent env (gs : list GField) : list (string * Val M) :=
  mjoin (field_sent env <$> (List.filter is_plain gs ++ List.filter is_opt gs ++ List.filter is_multi gs)).

(** *** Kinds and descriptors *)

Lemma kind_collect n d : valid_field d →
  match kind (collect_field (n, d)) with
  | KMap of_messages => repeated d = true ∧ is_Some (map_value d) ∧
      (of_messages = true → map_value d = Some _TYPE_MESSAGE)
  | KRepeated => repeated d = true ∧ map_value d = None
  | KMessage => repeated d = false ∧ ftype d = _TYPE_MESSAGE
  | KOptional | KPlain => repeated d = false
  end.
Proof.
  intros [Hm Ho]. unfold kind, collect_field. cbn. fold (repeated d). destruct (repeated d) eqn:Hr; cbn.
  - destruct (map_value d) as [t|] eqn:Ht; cbn.
    + destruct Hm as [_ ->]; [by eexists|]. cbn. split; [done|]. split; [by eexists|]. intros Hb. by apply bool_decide_eq_true in Hb.
    + by rewrite andb_false_r.
  - destruct (ftype d =? _TYPE_MESSAGE) eqn:Hf; [apply Z.eqb_eq in Hf; done|].
    by destruct (match containing_oneof d with Some o => startswith "_" o | None => false end).
Qed.
Lemma repeated_no_siblings (m : M) f (k : string) d : field_of m f = Some d → repeated d = true → ¬ siblings m k f.
Proof.
  intros Hd Hr (_ & _ & e & _ & _ & He & _ & _ & _ & Hp). rewrite Hd in He. injection He as <-.
  unfold presence in Hp. by rewrite Hr in Hp.
Qed.

(** *** Statements *)

Lemma var_Ok x env v : var x env = Ok v → dget env x = Some v.
Proof. unfold var. destruct (dget env x); [by intros [= ->]|done]. Qed.
Lemma py_Ok {A} (r : result PyError A) a : py r = Ok a → r = Ok a.
Proof. destruct r; [by intros [= ->]|done]. Qed.
Lemma on_request_Ok op env env' (m : M) : dget env "request" = Some (VMsg m) → on_request op env = Ok env' →
  ∃ m', op m = Ok m' ∧ env' = set_request m' env.
Proof.
  intros Hr. unfold on_request, var. rewrite Hr. cbn. destruct (op m) as [m'|e]; [|done]. cbn.
  intros [= <-]. by exists m'.
Qed.
Lemma copy_items_sets f d items : ∀ done env env' (m : M),
  field_of m f = Some d → repeated d = true → map_value d = Some _TYPE_MESSAGE →
  getattr m f = Some (VDict done) → wf (done ++ items) →
  dget env "request" = Some (VMsg m) → copy_items f items env = Ok env' →
  ∃ m', dget env' "request" = Some (VMsg m') ∧
    (if items then m' = m else only_sets f (VDict (done ++ items)) m m') ∧
    ∀ x, x ∉ ["request"; "key"; "value"] → dget env' x = dget env x.
Proof.
  induction items as [|[k v] items IH]; intros acc env env' m Hd Hr Hm Hg Hwf Hreq; cbn.
  { intros [= <-]. by exists m. }
  destruct (message v) as [w|e] eqn:Hw; [|done]. cbn.
  set (env1 := dset (dset env "key" (VStr k)) "value" v).
  assert (dget env1 "request" = Some (VMsg m)) as Hreq1 by (unfold env1; by rewrite !dget_dset_ne).
  destruct (on_request (item_CopyFrom f k w) env1) as [env2|e] eqn:Hop; [|done]. cbn. intros Hrest.
  destruct (on_request_Ok _ _ _ m Hreq1 Hop) as (m1 & Hi & ->).
  pose proof (item_CopyFrom_sets f k w m m1 d acc Hd Hr Hm Hg Hi) as H1.
  assert (v = VMsg w) as -> by (destruct v; cbn in Hw; congruence).
  rewrite dset_fresh in H1; cycle 1.
  { destruct (wf_app_inv _ _ Hwf) as (_ & _ & Hd'). intros Hk. apply (Hd' k Hk). left. }
  destruct (IH (acc ++ [(k, VMsg w)]) (set_request m1 env1) env' m1) as (m' & Hr' & Hs & Hx).
  - by rewrite (only_sets_field_of _ _ _ _ _ H1).
  - done.
  - done.
  - apply (sets_value _ _ _ _ H1).
  - by rewrite <-(assoc_L (++)).
  - apply dget_dset_eq.
  - done.
  - exists m'. split; [done|]. rewrite <-(assoc_L (++)) in Hs. split.
    + destruct items; [by subst|]. by eapply only_sets_trans.
    + intros x Hx'. rewrite Hx by done. unfold set_request, env1. rewrite !dget_dset_ne by set_solver. done.
Qed.

Definition locals (loops : bool) : list string := "request" :: (if loops then ["key"; "value"] else []).
(** After some statements: the request is [base] with [W] assigned, and only
    the body's own locals have changed. *)
Record Inv (base : M) (loops : bool) env0 (W : list (string * Val M)) env (m : M) : Prop := {
  inv_request : dget env "request" = Some (VMsg m);
  inv_set : all_set W base m;
  inv_vars x : x ∉ locals loops → dget env x = dget env0 x }.

(** One more field, not a sibling of those before. *)
Definition free (base : M) (W : list (string * Val M)) : Prop :=
  wf W ∧ ∀ f h, f ∈ dkeys W → h ∈ dkeys W → ¬ siblings base f h.
Lemma free_prefix base W W' : free base (W ++ W') → free base W.
Proof.
  intros [Hwf Hs]. split; [by destruct (wf_app_inv _ _ Hwf)|]. intros f g Hf Hg.
  apply Hs; rewrite dkeys_app; set_solver.
Qed.
Lemma Inv_request base loops env0 W env m w f m' :
  Inv base loops env0 W env m → free base (W ++ [(f, w)]) → only_sets f w m m' →
  Inv base loops env0 (W ++ [(f, w)]) (set_request m' env) m'.
Proof.
  intros [I1 I2 I3] [Hwf Hs] Ho. constructor.
  - apply dget_dset_eq.
  - eapply all_set_app; [done|done|done|]. by apply all_set_one.
  - intros x Hx. unfold set_request. rewrite dget_dset_ne; [by apply I3|]. intros <-. apply Hx. left.
Qed.
Lemma getattr_before base W (m : M) f d w : all_set W base m → field_of base f = Some d → repeated d = true →
  free base (W ++ [(f, w)]) → getattr m f = getattr base f.
Proof.
  intros HW Hd Hr [Hwf _]. apply (all_others _ _ _ HW).
  - intros Hf. destruct (wf_app_inv _ _ Hwf) as (_ & _ & Hdis). apply (Hdis f Hf). left.
  - intros h _. by eapply repeated_no_siblings.
Qed.
Lemma exec_multi t loops env0 W env m f d v s env' : let base := empty t in let g := collect_field (f, d) in
  field_of base f = Some d → valid_field d → multi_stmt g = Some s → Inv base loops env0 W env m →
  dget env0 f = Some v → typed (f, d) v → f ∉ locals loops → (map_value_is_message g = true → loops = true) →
  free base (W ++ field_sent env0 g) → exec s env = Ok env' →
  ∃ m', Inv base loops env0 (W ++ field_sent env0 g) env' m'.
Proof.
  intros base g Hd Hval Hs HI Hv Ht Hf Hloop Hfree Hex. pose proof HI as [I1 I2 I3].
  assert (var f env = Ok v) as Hvar by (unfold var; by rewrite I3, Hv).
  pose proof (kind_collect f d Hval) as Hk. fold g in Hk. unfold typed in Ht. fold g in Ht.
  assert (field_of m f = Some d) as Hdm by (unfold field_of; by rewrite (all_schema _ _ _ I2)).
  unfold field_sent in *. change (name g) with f in *. rewrite Hv in *. unfold value_sent in *. unfold multi_stmt in Hs.
  change (name g) with f in Hs. destruct (kind g) as [b| | | |] eqn:Hkind; [| | |done|done].
  - destruct Hk as (Hr & Hmap & Hmsg). destruct b; injection Hs as <-; cbn in Hex; rewrite Hvar in Hex; cbn in Hex.
    + destruct (truthy v) eqn:Htr; cbn in Hex; [|injection Hex as <-; rewrite app_nil_r; by exists m].
      destruct Ht as [->|(l & -> & Hwl & Hl)]; [done|].
      assert (getattr m f = Some (VDict [])) as Hg.
      { rewrite (getattr_before base W m f d (VDict l)) by done. by apply (empty_map t f d). }
      destruct (copy_items_sets f d l [] env env' m Hdm Hr (Hmsg eq_refl) Hg Hwl I1 Hex) as (m' & Hreq & Ho & Hx).
      exists m'. destruct l as [|p l]; [done|]. constructor; [done| |].
      * eapply all_set_app; [apply Hfree|apply Hfree|done|]. by apply all_set_one.
      * intros x Hx'. rewrite Hx, I3; [done|done|]. unfold locals in Hx'. rewrite Hloop in Hx'; [done|].
        unfold kind in Hkind. destruct (is_map g); [by injection Hkind|]. by destruct (is_repeated g), (is_message g), (is_optional g).
    + destruct (truthy v) eqn:Htr; cbn in Hex; [|injection Hex as <-; rewrite app_nil_r; by exists m].
      destruct Ht as [->|(l & -> & Hwl & _)]; [done|].
      destruct (on_request_Ok _ _ _ m I1 Hex) as (m' & Hu & ->). exists m'. apply (Inv_request _ _ _ _ _ m); [done|done|].
      assert (getattr m f = Some (VDict [])) as Hg.
      { rewrite (getattr_before base W m f d (VDict l)) by done. by apply (empty_map t f d). }
      pose proof (update_sets f l m m' d [] Hdm Hr Hmap Hg Hu) as Ho. by rewrite dset_all_fresh in Ho.
  - destruct Hk as [Hr Hmap]. injection Hs as <-. cbn in Hex. rewrite Hvar in Hex. cbn in Hex.
    destruct (truthy v) eqn:Htr; cbn in Hex; [|injection Hex as <-; rewrite app_nil_r; by exists m].
    destruct Ht as [l ->]. destruct (on_request_Ok _ _ _ m I1 Hex) as (m' & Hu & ->).
    exists m'. apply (Inv_request _ _ _ _ _ m); [done|done|].
    assert (getattr m f = Some (VList [])) as Hg.
    { rewrite (getattr_before base W m f d (VList l)) by done. by apply (empty_list t f d). }
    apply (extend_sets f l m m' d [] Hdm Hr Hmap Hg Hu).
  - destruct Hk as [Hr Hmsg]. injection Hs as <-. cbn in Hex. rewrite Hvar in Hex. cbn in Hex.
    destruct Ht as [->|[w ->]]; cbn in Hex; [injection Hex as <-; rewrite app_nil_r; by exists m|].
    destruct (on_request_Ok _ _ _ m I1 Hex) as (m' & Hu & ->). exists m'. apply (Inv_request _ _ _ _ _ m); [done|done|].
    by apply (CopyFrom_sets f w m m' d).
Qed.

(** *** Bodies *)

Definition scalar g : bool := is_plain g || is_opt g.
Lemma given_arg f v l : given ((f, arg v) :: l) = (if is_none v then [] else [(f, v)]) ++ given l.
Proof. unfold given. cbn. by destruct (is_none v). Qed.
Lemma given_kwargs (pick : GField → option string) (p : GField → bool) gs : ∀ env kwargs,
  (∀ g, pick g = if p g then Some (name g) else None) → (∀ g, p g = true → scalar g = true) →
  vars (omap pick gs) env = Ok kwargs →
  given (prod_map id arg <$> kwargs) = mjoin (field_sent env <$> List.filter p gs).
Proof.
  induction gs as [|g gs IH]; intros env kwargs Hpick Hp; cbn; [by intros [= <-]|].
  rewrite Hpick. destruct (p g) eqn:Hg; [|by apply IH]. cbn.
  destruct (var (name g) env) as [v|e] eqn:Hv; [|done]. cbn.
  destruct (vars (omap pick gs) env) as [vs|e] eqn:Hvs; [|done]. cbn. intros [= <-].
  rewrite fmap_cons. change (prod_map id arg (name g, v)) with (name g, arg v).
  rewrite given_arg, (IH env vs Hpick Hp Hvs). f_equal. unfold field_sent. rewrite (var_Ok _ _ _ Hv).
  assert (value_sent g v = if is_none v then None else Some v) as ->.
  { specialize (Hp g Hg). unfold value_sent, scalar, is_plain, is_opt in *. by destruct (kind g). }
  by destruct (is_none v).
Qed.
Lemma elem_sent_filter (p : GField → bool) gs env f w :
  (f, w) ∈ mjoin (field_sent env <$> List.filter p gs) →
  ∃ g v, g ∈ gs ∧ p g = true ∧ name g = f ∧ dget env f = Some v ∧ value_sent g v = Some w.
Proof.
  rewrite list_elem_of_join. intros (l & Hin & Hl). apply list_elem_of_fmap in Hl as (g & -> & Hg).
  apply list_elem_of_filter' in Hg as [Hg Hpg]. unfold field_sent in Hin.
  destruct (dget env (name g)) as [v|] eqn:Hv; [|by apply not_elem_of_nil in Hin].
  destruct (value_sent g v) as [x|] eqn:Hx; [|by apply not_elem_of_nil in Hin].
  apply list_elem_of_singleton in Hin as [= -> ->]. by exists g, v.
Qed.
Lemma scalars_assignable t (fs : list (string * Field)) (p : GField → bool) env (W : list (string * Val M)) (m : M) :
  fields_by_name (empty t) = fs → wf fs → (∀ n d, (n, d) ∈ fs → valid_field d) →
  (∀ g, p g = true → scalar g = true) →
  (∀ n d v, (n, d) ∈ fs → dget env n = Some v → typed (n, d) v) →
  free (empty t) (W ++ mjoin (field_sent env <$> List.filter p (collect_fields fs))) →
  fields_by_name m = fs →
  assignable m (mjoin (field_sent env <$> List.filter p (collect_fields fs))).
Proof.
  intros Hsch Hwf Hval Hp Hty [Hfw Hfs] Hm. rewrite dkeys_app in Hfs. constructor.
  - by destruct (wf_app_inv _ _ Hfw) as (_ & ? & _).
  - intros f w Hin. apply elem_sent_filter in Hin as (g & v & Hg & Hpg & Hn & Hv & Hs).
    apply list_elem_of_fmap in Hg as ([n d] & -> & Hnd). cbn in Hn. subst n.
    exists d. split; [unfold field_of; rewrite Hm; by apply elem_dget|].
    specialize (Hty f d v Hnd Hv). specialize (Hp _ Hpg). unfold typed, value_sent, scalar, is_plain, is_opt in *.
    destruct (kind (collect_field (f, d))); try done;
      (destruct Hty as [->|Ht]; [done|]; destruct (is_none v) eqn:?; [done|]; by injection Hs as <-).
  - intros f h Hf Hh. rewrite (siblings_schema (empty t) m) by congruence. apply Hfs; apply elem_of_app; by right.
Qed.
Lemma exec_all_app l1 l2 env : exec_all (l1 ++ l2) env = (env' ← exec_all l1 env; exec_all l2 env').
Proof. revert env. induction l1 as [|s l1 IH]; intros env; cbn; [done|]. by destruct (exec s env); cbn. Qed.
Lemma is_multi_stmt g : is_multi g = match multi_stmt g with Some _ => true | None => false end.
Proof. unfold is_multi, is_plain, is_opt, multi_stmt. by destruct (kind g) as [[]| | | |]. Qed.
(** The descriptor of [t] is [fs], and the parameters are bound to values of
    their types. *)
Record call_ok (t : string) (loops : bool) env0 (fs : list (string * Field)) : Prop := {
  co_schema : fields_by_name (empty t) = fs;
  co_wf : wf fs;
  co_valid n d : (n, d) ∈ fs → valid_field d;
  co_typed n d v : (n, d) ∈ fs → dget env0 n = Some v → typed (n, d) v;
  co_names n d : (n, d) ∈ fs → n ∉ locals loops ∧ is_Some (dget env0 n) ∧
    (map_value_is_message (collect_field (n, d)) = true → loops = true) }.
Definition sent_by env (p : GField → bool) (fs : list (string * Field)) : list (string * Val M) :=
  mjoin (field_sent env <$> List.filter p (collect_fields fs)).
Lemma sent_by_cons env p f fs : sent_by env p (f :: fs) =
  (if p (collect_field f) then field_sent env (collect_field f) else []) ++ sent_by env p fs.
Proof. unfold sent_by. cbn. by destruct (p (collect_field f)). Qed.
Lemma exec_multis t loops env0 fs fs' : call_ok t loops env0 fs →
  ∀ W env m env', (∀ f, f ∈ fs' → f ∈ fs) → Inv (empty t) loops env0 W env m →
  free (empty t) (W ++ sent_by env0 is_multi fs') →
  exec_all (omap multi_stmt (collect_fields fs')) env = Ok env' →
  ∃ m', Inv (empty t) loops env0 (W ++ sent_by env0 is_multi fs') env' m'.
Proof.
  intros [Hsch Hwf Hval Hty Hnames].
  induction fs' as [|[n d] fs' IH]; intros W env m env' Hsub HI Hfree.
  { intros [= <-]. exists m. unfold sent_by; cbn. by rewrite app_nil_r. }
  rewrite sent_by_cons, is_multi_stmt in *. cbn [collect_fields fmap list_fmap omap list_omap].
  destruct (multi_stmt (collect_field (n, d))) as [s|] eqn:Hs; cycle 1.
  { intros Hex. eapply IH; [|done|done|done]. intros f Hf. apply Hsub. by right. }
  cbn [exec_all]. destruct (exec s env) as [env1|e] eqn:Hex; [|done]. cbn [mbind result_bind]. intros Hrest.
  rewrite (assoc_L (++)) in Hfree |- *.
  pose proof (Hsub (n, d) ltac:(left)) as Hin. destruct (Hnames n d Hin) as (Hl & [v Hv] & Hlp).
  assert (field_of (empty t) n = Some d) as Hd by (unfold field_of; rewrite Hsch; by apply elem_dget).
  destruct (exec_multi t loops env0 W env m n d v s env1 Hd (Hval _ _ Hin) Hs HI Hv (Hty _ _ _ Hin Hv) Hl Hlp
    (free_prefix _ _ _ Hfree) Hex) as [m1 HI1].
  eapply IH; [|done|done|done]. intros f Hf. apply Hsub. by right.
Qed.
(** The constructor and [apply_optional_fields]. *)
Lemma scalars_set t loops env0 fs p W (m m' : M) : call_ok t loops env0 fs → (∀ g, p g = true → scalar g = true) →
  free (empty t) (W ++ sent_by env0 p fs) → all_set W (empty t) m →
  set_all (sent_by env0 p fs) m = (Ok tt, m') → all_set (W ++ sent_by env0 p fs) (empty t) m'.
Proof.
  intros [Hsch Hwf Hval Hty Hnames] Hp Hfree HW Hset.
  eapply all_set_app; [apply Hfree|apply Hfree|done|]. apply set_all_sets; [|done].
  eapply scalars_assignable; [done|done|done|done|done|done|]. by rewrite (all_schema _ _ _ HW).
Qed.
Lemma vars_same xs : ∀ env env' : @Env M, (∀ x, x ∈ xs → dget env' x = dget env x) → vars xs env' = vars xs env.
Proof.
  induction xs as [|x xs IH]; intros env env' Hx; [done|]. cbn. unfold var. rewrite Hx by left.
  rewrite (IH env env'); [done|]. intros y Hy. apply Hx. by right.
Qed.
Lemma vars_Ok_given p pick gs t loops env0 fs W (m m' : M) env kwargs :
  call_ok t loops env0 fs → gs = collect_fields fs → (∀ g, p g = true → scalar g = true) →
  (∀ g, pick g = if p g then Some (name g) else None) →
  all_set W (empty t) m → (∀ x, x ∉ locals loops → dget env x = dget env0 x) →
  free (empty t) (W ++ sent_by env0 p fs) → vars (omap pick gs) env = Ok kwargs → set_all (given (prod_map id arg <$> kwargs)) m = (Ok tt, m') →
  Inv (empty t) loops env0 (W ++ sent_by env0 p fs) (set_request m' env) m'.
Proof.
  intros Hok -> Hp Hpick I2 I3 Hfree Hv Hset.
  rewrite (vars_same _ env0) in Hv; cycle 1.
  { intros x Hx. apply I3. apply list_elem_of_omap in Hx as (g & Hg & Hx). rewrite Hpick in Hx.
    destruct (p g); [|done]. injection Hx as <-. apply list_elem_of_fmap in Hg as ([n d] & -> & Hin).
    by destruct (co_names _ _ _ _ Hok n d Hin). }
  rewrite (given_kwargs pick p _ env0 kwargs Hpick Hp Hv) in Hset. constructor.
  - apply dget_dset_eq.
  - eapply scalars_set; done.
  - intros x Hx. unfold set_request. rewrite dget_dset_ne; [by apply I3|]. intros <-. apply Hx. left.
Qed.
(** The line of [apply_optional_fields], if there is one. *)
Lemma exec_optional t loops env0 fs W env (m : M) : call_ok t loops env0 fs → Inv (empty t) loops env0 W env m →
  free (empty t) (W ++ sent_by env0 is_opt fs) → ∀ env',
  exec_all (match omap optional_name (collect_fields fs) with [] => [] | ns => [ApplyOptional ns] end) env = Ok env' →
  ∃ m', Inv (empty t) loops env0 (W ++ sent_by env0 is_opt fs) env' m'.
Proof.
  intros Hok [I1 I2 I3] Hfree env'.
  assert (∀ kw m', vars (omap optional_name (collect_fields fs)) env = Ok kw →
    set_all (given (prod_map id arg <$> kw)) m = (Ok tt, m') →
    Inv (empty t) loops env0 (W ++ sent_by env0 is_opt fs) (set_request m' env) m') as Hgen.
  { intros kw m' Hv Hs. refine (vars_Ok_given is_opt optional_name _ t loops env0 fs W m m' env kw Hok eq_refl
      _ _ I2 I3 Hfree Hv Hs); [intros g Hg; unfold scalar; by rewrite Hg, orb_true_r|].
    intros g. unfold optional_name, is_opt. by destruct (kind g). }
  destruct (omap optional_name (collect_fields fs)) as [|n ns].
  - intros [= <-]. destruct (Hgen [] m eq_refl eq_refl) as [J1 J2 J3]. exists m. by constructor.
  - cbn [exec_all exec]. unfold var at 1. rewrite I1. cbn [mbind result_bind].
    destruct (vars (n :: ns) env) as [kw|e] eqn:Hv; [|done]. cbn [mbind result_bind message].
    unfold apply_optional_fields. destruct (set_all _ m) as [[[]|e] m'] eqn:Hs; [|done]. cbn.
    intros [= <-]. exists m'. by apply (Hgen kw).
Qed.
Lemma body_sends t loops env0 fs (m : GMethod) env' :
  call_ok t loops env0 fs → gfields m = collect_fields fs → input_type m = t →
  free (empty t) (sent env0 (gfields m)) → exec_all (stmts m) env0 = Ok env' →
  ∃ msg, Inv (empty t) loops env0 (sent env0 (gfields m)) env' msg.
Proof.
  intros Hok Hgs Ht Hfree. unfold stmts. rewrite Hgs, Ht in *.
  assert (sent env0 (collect_fields fs) = (sent_by env0 is_plain fs ++ sent_by env0 is_opt fs) ++ sent_by env0 is_multi fs)
    as Hsent by (unfold sent, sent_by; by rewrite !fmap_app, !join_app, (assoc_L (++))).
  rewrite Hsent in *. pose proof (free_prefix _ _ _ Hfree) as Hfree2. pose proof (free_prefix _ _ _ Hfree2) as Hfree1.
  cbn [app exec_all exec].
  destruct (vars (omap plain_name (collect_fields fs)) env0) as [kw|e] eqn:Hv; [|done]. cbn [mbind result_bind].
  destruct (construct t kw) as [m1|e] eqn:Hc; [|done]. cbn [mbind result_bind py].
  pose proof (vars_Ok_given is_plain plain_name _ t loops env0 fs [] (empty t) m1 env0 kw Hok eq_refl
    ltac:(intros g Hg; unfold scalar; by rewrite Hg) ltac:(intros g; unfold plain_name, is_plain; by destruct (kind g))
    (all_set_nil _) ltac:(done) Hfree1 Hv (construct_sets _ _ _ Hc)) as HI1. cbn [app] in HI1.
  set (env1 := set_request m1 env0) in *.
  enough (∀ env2 m2, Inv (empty t) loops env0 (sent_by env0 is_plain fs ++ sent_by env0 is_opt fs) env2 m2 →
    exec_all (omap multi_stmt (collect_fields fs)) env2 = Ok env' →
    ∃ msg, Inv (empty t) loops env0
      ((sent_by env0 is_plain fs ++ sent_by env0 is_opt fs) ++ sent_by env0 is_multi fs) env' msg) as Hend.
  { intros Hex. rewrite exec_all_app in Hex.
    destruct (exec_all _ env1) as [env2|e] eqn:He in Hex; [|done]. cbn in Hex.
    destruct (exec_optional _ _ _ _ _ _ _ Hok HI1 Hfree2 env2 He) as [m2 HI2]. by apply (Hend env2 m2). }
  intros env2 m2 HI2 Hex. by eapply exec_multis.
Qed.

(** *** Calls *)

Lemma bind_Ok ps : ∀ (args env : @Env M), bind ps args = Ok env → ∀ x,
  dget env x = match dget ps x with
               | Some d => match dget args x with Some v => Some v | None => d end
               | None => None
               end ∧ (is_Some (dget ps x) → is_Some (dget env x)).
Proof.
  induction ps as [|[y d] ps IH]; intros args env; cbn.
  { intros [= <-] x. split; [done|]. by intros [? ?]. }
  destruct (match dget args y, d with
            | Some v, _ => Ok v | None, Some v => Ok v | None, None => Raise (failed type_error) end)
    as [v|e] eqn:Hv; [|done]. cbn.
  destruct (bind ps args) as [env1|e] eqn:Hb; [|done]. cbn. intros [= <-] x. cbn. case_decide as Hx.
  - subst y. destruct (dget args x) as [w|]; [|destruct d as [w|]; [|done]]; injection Hv as <-; by eauto.
  - apply (IH args env1 Hb).
Qed.
Lemma bind_fails ps : ∀ (args : @Env M) e, bind ps args = Raise e → ∃ x, dget args x = None ∧ (x, None) ∈ ps.
Proof.
  induction ps as [|[y d] ps IH]; intros args e; cbn; [done|].
  destruct (dget args y) as [v|] eqn:Hy; cbn; [|destruct d as [v|]; cbn].
  - destruct (bind ps args) eqn:Hb; [done|]. intros _. destruct (IH args _ Hb) as (x & ? & ?). exists x. set_solver.
  - destruct (bind ps args) eqn:Hb; [done|]. intros _. destruct (IH args _ Hb) as (x & ? & ?). exists x. set_solver.
  - intros _. exists y. split; [done|left].
Qed.
Definition picked {X} (pick : GField → option X) (gs : list GField) : list (string * X) :=
  omap (λ g, match pick g with Some v => Some (name g, v) | None => None end) gs.
Lemma picked_cons {X} (pick : GField → option X) g gs : picked pick (g :: gs) =
  match pick g with Some v => (name g, v) :: picked pick gs | None => picked pick gs end.
Proof. unfold picked. cbn. by destruct (pick g). Qed.
Lemma dget_picked {X} (pick : GField → option X) fs n : wf fs →
  dget (picked pick (collect_fields fs)) n =
  match dget fs n with Some d => pick (collect_field (n, d)) | None => None end.
Proof.
  induction fs as [|[x d] fs IH]; [done|]. intros [Hx Hwf]%NoDup_cons. specialize (IH Hwf).
  change (collect_fields ((x, d) :: fs)) with (collect_field (x, d) :: collect_fields fs).
  rewrite picked_cons. assert (dget fs x = None) as Hnone by (by apply dget_None).
  cbn [dget]. case_decide as Hn.
  - subst. destruct (pick (collect_field (n, d))) as [v|]; cbn [dget]; [by rewrite decide_True|].
    rewrite IH. by rewrite Hnone.
  - destruct (pick (collect_field (x, d))); cbn [dget]; [rewrite decide_False by done|]; apply IH.
Qed.
Definition argument_of (args : @Env M) g : option (Val M) :=
  match dget args (name g) with Some v => Some v | None => default_of g end.
Lemma dget_params (m : GMethod) fs n d : gfields m = collect_fields fs → wf fs → (n, d) ∈ fs →
  dget (params m) n = Some (default_of (collect_field (n, d)) : option (Val M)).
Proof.
  intros Hg Hwf Hin. unfold params. rewrite Hg, !dget_app.
  assert (((λ n, (n, None)) <$> omap plain_name (collect_fields fs)) =
    picked (λ g, if is_plain g then Some (@None (Val M)) else None) (collect_fields fs)) as ->.
  { clear. induction (collect_fields fs) as [|g gs IH]; [done|]. rewrite picked_cons. cbn.
    unfold plain_name, is_plain. destruct (kind g); cbn; [..|f_equal]; exact IH. }
  assert (omap (λ f, match default_of f with Some v => Some (name f, Some v) | None => None end) (collect_fields fs) =
    picked (λ g, match default_of g : option (Val M) with Some v => Some (Some v) | None => None end) (collect_fields fs)) as ->.
  { clear. induction (collect_fields fs) as [|g gs IH]; [done|]. rewrite picked_cons. cbn.
    destruct (default_of g : option (Val M)); cbn; [f_equal|]; exact IH. }
  rewrite !dget_picked by done. rewrite (elem_dget _ _ _ Hwf Hin).
  unfold is_plain, default_of. by destruct (kind (collect_field (n, d))).
Qed.
Lemma safe_name (m : GMethod) g : safe_names m = true → g ∈ gfields m → name g ∉ reserved m.
Proof.
  unfold safe_names. intros Hs Hg. rewrite forallb_forall in Hs.
  specialize (Hs g (proj1 (list_elem_of_In _ _) Hg)). by apply negb_true_iff, bool_decide_eq_false in Hs.
Qed.

(** The value a call gives for a field, if any. *)
Definition sent_value (args : @Env M) g : option (Val M) :=
  match argument_of args g with Some v => value_sent g v | None => None end.
(** A call with arguments of the annotated types, at most one of each oneof,
    of a method whose request type is the one described. *)
Record typed_call (m : GMethod) fs (args : @Env M) : Prop := {
  tc_fields : gfields m = collect_fields fs;
  tc_schema : fields_by_name (empty (input_type m)) = fs;
  tc_wf : wf fs;
  tc_valid n d : (n, d) ∈ fs → valid_field d;
  tc_safe : safe_names m = true;
  tc_args n d v : (n, d) ∈ fs → dget args n = Some v → typed (n, d) v;
  tc_oneof n d n' d' : (n, d) ∈ fs → (n', d') ∈ fs →
    is_Some (sent_value args (collect_field (n, d))) → is_Some (sent_value args (collect_field (n', d'))) →
    ¬ siblings (empty (input_type m)) n n' }.
Section call.
Context (m : GMethod) (fs : list (string * Field)) (args env0 : @Env M).
Context (Hcall : typed_call m fs args) (Hbind : bind (params m) args = Ok env0).
Lemma bound_value n d : (n, d) ∈ fs → is_Some (dget env0 n) ∧ dget env0 n = argument_of args (collect_field (n, d)).
Proof.
  intros Hin. destruct (bind_Ok _ _ _ Hbind n) as [He Hs].
  rewrite (dget_params m fs n d) in He, Hs by (by destruct Hcall). split; [by apply Hs; eexists|done].
Qed.
Lemma field_sent_value n d : (n, d) ∈ fs → field_sent env0 (collect_field (n, d)) =
  match sent_value args (collect_field (n, d)) with Some w => [(n, w)] | None => [] end.
Proof.
  intros Hin. unfold field_sent, sent_value. change (name (collect_field (n, d))) with n.
  destruct (bound_value n d Hin) as [[v Hv] He]. by rewrite <-He, Hv.
Qed.
Lemma elem_sent f w : (f, w) ∈ sent env0 (gfields m) ↔
  ∃ d, (f, d) ∈ fs ∧ sent_value args (collect_field (f, d)) = Some w.
Proof.
  unfold sent. rewrite (tc_fields _ _ _ Hcall), list_elem_of_join. setoid_rewrite list_elem_of_fmap. split.
  - intros (l & Hin & g & -> & Hg). assert (g ∈ collect_fields fs) as Hg'.
    { rewrite !elem_of_app, !list_elem_of_filter' in Hg. tauto. }
    apply list_elem_of_fmap in Hg' as ([n d] & -> & Hnd). rewrite field_sent_value in Hin by done.
    destruct (sent_value args (collect_field (n, d))) as [x|] eqn:Hx; [|by apply not_elem_of_nil in Hin].
    apply list_elem_of_singleton in Hin as [= -> ->]. by exists d.
  - intros (d & Hin & Hw). exists [(f, w)]. split; [by left|]. exists (collect_field (f, d)).
    rewrite field_sent_value, Hw by done. split; [done|].
    assert (collect_field (f, d) ∈ collect_fields fs) by (apply list_elem_of_fmap; by exists (f, d)).
    rewrite !elem_of_app, !list_elem_of_filter'. unfold is_multi.
    destruct (is_plain (collect_field (f, d))), (is_opt (collect_field (f, d))); cbn; tauto.
Qed.
Lemma sent_keys env gs : dkeys (mjoin (field_sent env <$> gs)) `sublist_of` (name <$> gs).
Proof.
  induction gs as [|g gs IH]; [done|]. rewrite !fmap_cons. cbn [mjoin list_join]. rewrite dkeys_app.
  apply (sublist_app _ [name g]); [|done].
  unfold field_sent. destruct (dget env (name g)) as [v|]; [|apply sublist_nil_l].
  destruct (value_sent g v); [done|apply sublist_nil_l].
Qed.
Lemma kinds_partition gs : List.filter is_plain gs ++ List.filter is_opt gs ++ List.filter is_multi gs ≡ₚ gs.
Proof.
  induction gs as [|g gs IH]; [done|]. cbn. unfold is_multi at 1.
  assert (is_plain g = true → is_opt g = false) as Hx by (unfold is_plain, is_opt; by destruct (kind g)).
  destruct (is_plain g) eqn:Hp; [rewrite Hx by done; cbn; by f_equiv|].
  destruct (is_opt g) eqn:Ho; cbn.
  - by rewrite <-Permutation_middle, IH.
  - by rewrite (assoc_L (++)), <-Permutation_middle, <-(assoc_L (++)), IH.
Qed.
Lemma sent_free : free (empty (input_type m)) (sent env0 (gfields m)).
Proof.
  split.
  - eapply sublist_NoDup; [|apply sent_keys]. rewrite kinds_partition, (tc_fields _ _ _ Hcall).
    unfold collect_fields. rewrite <-list_fmap_compose. apply (tc_wf _ _ _ Hcall).
  - intros f h [w Hf]%dkeys_elem [w' Hh]%dkeys_elem. apply elem_sent in Hf as (d & Hd & Hf).
    apply elem_sent in Hh as (d' & Hd' & Hh). by eapply (tc_oneof _ _ _ Hcall).
Qed.
Lemma argument_typed n d v : (n, d) ∈ fs → dget env0 n = Some v → typed (n, d) v.
Proof.
  intros Hin. rewrite (proj2 (bound_value n d Hin)). unfold argument_of. change (name (collect_field (n, d))) with n.
  destruct (dget args n) as [w|] eqn:Hw; [intros [= <-]; by apply (tc_args _ _ _ Hcall)|].
  unfold default_of, typed. destruct (kind (collect_field (n, d))); try done; intros [= <-]; try by left. by exists [].
Qed.
Definition loops : bool := existsb map_value_is_message (gfields m).
Lemma bound_call : call_ok (input_type m) loops env0 fs.
Proof.
  destruct Hcall as [Hgs Hsch Hwf Hval Hsafe Hargs Hone]. constructor; [done|done|done|apply argument_typed|].
  intros n d Hin. assert (collect_field (n, d) ∈ gfields m) as Hg.
  { rewrite Hgs. apply list_elem_of_fmap. by exists (n, d). }
  split; [|split; [by apply (bound_value n d)|]].
  - pose proof (safe_name _ _ Hsafe Hg) as Hn. change (name (collect_field (n, d))) with n in Hn.
    intros Hl. apply Hn. unfold locals, loops in Hl. unfold reserved. destruct (existsb _ _); set_solver.
  - intros Hm. unfold loops. apply existsb_exists. exists (collect_field (n, d)).
    split; [by apply list_elem_of_In|done].
Qed.
End call.

(** *** What can fail

    Protobuf refused an operation that the field it is for supports, such as
    an assignment of a number out of the range of its type. *)
Inductive Refused (t : string) : PyError → Prop :=
  | refused_construct kwargs e :
      (∀ f v, (f, v) ∈ kwargs → ∃ d, field_of (empty t) f = Some d ∧ (v = VNone ∨ has_type d v = true)) →
      construct t kwargs = Raise e → Refused t e
  | refused_setattr m f d v e : field_of (empty t) f = Some d → fields_by_name m = fields_by_name (empty t) →
      has_type d v = true → setattr f v m = Raise e → Refused t e
  | refused_extend (m : M) f d l e : field_of (empty t) f = Some d → fields_by_name m = fields_by_name (empty t) →
      repeated d = true → map_value d = None → extend f l m = Raise e → Refused t e
  | refused_update (m : M) f d l e : field_of (empty t) f = Some d → fields_by_name m = fields_by_name (empty t) →
      repeated d = true → is_Some (map_value d) → update f l m = Raise e → Refused t e
  | refused_CopyFrom (m : M) f d w e : field_of (empty t) f = Some d → fields_by_name m = fields_by_name (empty t) →
      repeated d = false → ftype d = _TYPE_MESSAGE → CopyFrom f w m = Raise e → Refused t e
  | refused_item (m : M) f d k w e : field_of (empty t) f = Some d → fields_by_name m = fields_by_name (empty t) →
      repeated d = true → map_value d = Some _TYPE_MESSAGE → item_CopyFrom f k w m = Raise e → Refused t e.
Definition only_refused (t : string) (e : RunError) : Prop := ∃ p, e = failed p ∧ Refused t p.
Lemma on_request_fails op env (m : M) e : dget env "request" = Some (VMsg m) → on_request op env = Raise e →
  ∃ p, e = failed p ∧ op m = Raise p.
Proof.
  intros Hr. unfold on_request, var. rewrite Hr. cbn. destruct (op m) as [m'|p]; [done|]. cbn.
  intros [= <-]. by exists p.
Qed.
Lemma copy_items_fails t f d items : ∀ acc env (m : M) e,
  field_of (empty t) f = Some d → fields_by_name m = fields_by_name (empty t) → repeated d = true →
  map_value d = Some _TYPE_MESSAGE → getattr m f = Some (VDict acc) →
  (∀ p, p ∈ items → ∃ w, p.2 = VMsg w) →
  dget env "request" = Some (VMsg m) → copy_items f items env = Raise e → only_refused t e.
Proof.
  induction items as [|[k v] items IH]; intros acc env m e Hd Hsch Hr Hm Hg Hty Hreq; cbn; [done|].
  destruct (Hty (k, v) ltac:(left)) as [w Hw]. cbn in Hw. subst v. cbn.
  set (env1 := dset (dset env "key" (VStr k)) "value" (VMsg w)).
  assert (dget env1 "request" = Some (VMsg m)) as Hreq1 by (unfold env1; by rewrite !dget_dset_ne).
  destruct (on_request (item_CopyFrom f k w) env1) as [env2|e'] eqn:Hop; cbn.
  - destruct (on_request_Ok _ _ _ m Hreq1 Hop) as (m1 & Hi & ->). intros Hrest.
    assert (field_of m f = Some d) as Hdm by (unfold field_of; by rewrite Hsch).
    pose proof (item_CopyFrom_sets f k w m m1 d acc Hdm Hr Hm Hg Hi) as H1.
    eapply (IH _ _ m1); [done| |done|done|apply (sets_value _ _ _ _ H1)| |apply dget_dset_eq|exact Hrest].
    + by rewrite (sets_schema _ _ _ _ H1).
    + intros p Hp. apply Hty. by right.
  - intros [= <-]. destruct (on_request_fails _ _ _ _ Hreq1 Hop) as (p & -> & Hp). exists p. split; [done|].
    by eapply (refused_item t m f d k w p).
Qed.
Lemma exec_multi_fails t lp env0 W env (m : M) f d v s e : let g := collect_field (f, d) in
  field_of (empty t) f = Some d → valid_field d → multi_stmt g = Some s → Inv (empty t) lp env0 W env m →
  dget env0 f = Some v → typed (f, d) v → f ∉ locals lp → free (empty t) (W ++ field_sent env0 g) →
  exec s env = Raise e → only_refused t e.
Proof.
  intros g Hd Hval Hs HI Hv Ht Hf Hfree Hex. pose proof HI as [I1 I2 I3].
  assert (var f env = Ok v) as Hvar by (unfold var; by rewrite I3, Hv).
  pose proof (kind_collect f d Hval) as Hk. fold g in Hk. unfold typed in Ht. fold g in Ht.
  pose proof (all_schema _ _ _ I2) as Hsch. unfold multi_stmt in Hs. change (name g) with f in Hs.
  unfold field_sent, value_sent in Hfree. change (name g) with f in Hfree. rewrite Hv in Hfree.
  destruct (kind g) as [b| | | |] eqn:Hkind; [| | |done|done].
  - destruct Hk as (Hr & Hmap & Hmsg). destruct b; injection Hs as <-; cbn in Hex; rewrite Hvar in Hex; cbn in Hex;
      destruct (truthy v) eqn:Htr; cbn in Hex; try done; destruct Ht as [->|(l & -> & Hwl & Hl)]; try done.
    + assert (getattr m f = Some (VDict [])) as Hg.
      { rewrite (getattr_before (empty t) W m f d (VDict l)) by done. by apply (empty_map t f d). }
      eapply (copy_items_fails t f d l []); [done|done|done|by apply Hmsg|done|by apply Hl|done|done].
    + destruct (on_request_fails _ _ _ _ I1 Hex) as (p & -> & Hp). exists p. split; [done|].
      by eapply (refused_update t m f d l).
  - destruct Hk as [Hr Hmap]. injection Hs as <-. cbn in Hex. rewrite Hvar in Hex. cbn in Hex.
    destruct Ht as [l ->]. destruct (truthy (VList l)) eqn:Htr; cbn in Hex; [|by destruct l].
    destruct l as [|x l]; [done|]. destruct (on_request_fails _ _ _ _ I1 Hex) as (p & -> & Hp). exists p. split; [done|].
    by eapply (refused_extend t m f d (x :: l)).
  - destruct Hk as [Hr Hmsg]. injection Hs as <-. cbn in Hex. rewrite Hvar in Hex. cbn in Hex.
    destruct Ht as [->|[w ->]]; cbn in Hex; [done|].
    destruct (on_request_fails _ _ _ _ I1 Hex) as (p & -> & Hp). exists p. split; [done|].
    by eapply (refused_CopyFrom t m f d w).
Qed.
Lemma exec_multis_fails t lp env0 fs fs' : call_ok t lp env0 fs →
  ∀ W env (m : M) e, (∀ f, f ∈ fs' → f ∈ fs) → Inv (empty t) lp env0 W env m →
  free (empty t) (W ++ sent_by env0 is_multi fs') →
  exec_all (omap multi_stmt (collect_fields fs')) env = Raise e → only_refused t e.
Proof.
  intros [Hsch Hwf Hval Hty Hnames].
  induction fs' as [|[n d] fs' IH]; intros W env m e Hsub HI Hfree; [done|].
  rewrite sent_by_cons, is_multi_stmt in *. cbn [collect_fields fmap list_fmap omap list_omap].
  destruct (multi_stmt (collect_field (n, d))) as [s|] eqn:Hs; cycle 1.
  { intros Hex. eapply (IH W env); [|done|done|done]. intros f Hf. apply Hsub. by right. }
  cbn [exec_all]. rewrite (assoc_L (++)) in Hfree.
  pose proof (Hsub (n, d) ltac:(left)) as Hin. destruct (Hnames n d Hin) as (Hl & [v Hv] & Hlp).
  assert (field_of (empty t) n = Some d) as Hd by (unfold field_of; rewrite Hsch; by apply elem_dget).
  destruct (exec s env) as [env1|e'] eqn:Hex; cbn [mbind result_bind]; intros Hrest.
  - destruct (exec_multi t lp env0 W env m n d v s env1 Hd (Hval _ _ Hin) Hs HI Hv (Hty _ _ _ Hin Hv) Hl Hlp
      (free_prefix _ _ _ Hfree) Hex) as [m1 HI1].
    eapply (IH _ env1 m1); [|done|done|done]. intros f Hf. apply Hsub. by right.
  - injection Hrest as ->.
    by apply (exec_multi_fails t lp env0 W env m n d v s e Hd (Hval _ _ Hin) Hs HI Hv (Hty _ _ _ Hin Hv) Hl
      (free_prefix _ _ _ Hfree)).
Qed.
(** The names of the parameters are bound. *)
Lemma vars_bound xs : ∀ env : @Env M, (∀ x, x ∈ xs → is_Some (dget env x)) → ∃ kw, vars xs env = Ok kw.
Proof.
  induction xs as [|x xs IH]; intros env Hx; cbn; [by eexists|]. unfold var.
  destruct (Hx x ltac:(left)) as [v ->]. cbn. destruct (IH env) as [kw ->]; [|by eexists].
  intros y Hy. apply Hx. by right.
Qed.
Lemma vars_elem xs : ∀ (env : @Env M) kw f v, vars xs env = Ok kw → (f, v) ∈ kw → f ∈ xs ∧ dget env f = Some v.
Proof.
  induction xs as [|x xs IH]; intros env kw f v; cbn; [intros [= <-] []%not_elem_of_nil|].
  destruct (var x env) as [w|e] eqn:Hw; [|done]. cbn. destruct (vars xs env) as [kw'|e] eqn:Hk; [|done]. cbn.
  intros [= <-] [[= -> ->]|Hin]%elem_of_cons; [split; [left|by apply var_Ok]|].
  destruct (IH env kw' f v Hk Hin). split; [by right|done].
Qed.
Lemma picks_bound t lp env0 fs (pick : GField → option string) (p : GField → bool) env :
  call_ok t lp env0 fs → (∀ g, pick g = if p g then Some (name g) else None) →
  (∀ x, x ∉ locals lp → dget env x = dget env0 x) →
  ∃ kw, vars (omap pick (collect_fields fs)) env = Ok kw ∧ ∀ f v, (f, v) ∈ kw →
    ∃ d, (f, d) ∈ fs ∧ p (collect_field (f, d)) = true ∧ dget env0 f = Some v.
Proof.
  intros Hok Hpick Henv.
  assert (∀ x, x ∈ omap pick (collect_fields fs) → ∃ d, (x, d) ∈ fs ∧ p (collect_field (x, d)) = true) as Hx.
  { intros x (g & Hg & Hx)%list_elem_of_omap. rewrite Hpick in Hx. destruct (p g) eqn:Hp; [|done].
    injection Hx as <-. apply list_elem_of_fmap in Hg as ([n d] & -> & Hin). by exists d. }
  destruct (vars_bound (omap pick (collect_fields fs)) env) as [kw Hkw].
  { intros x (d & Hin & _)%Hx. destruct (co_names _ _ _ _ Hok x d Hin) as (Hl & ? & _). by rewrite Henv. }
  exists kw. split; [done|]. intros f v Hin. destruct (vars_elem _ _ _ _ _ Hkw Hin) as [Hf Hv].
  destruct (Hx f Hf) as (d & Hd & Hp). exists d. split_and!; [done|done|].
  rewrite Henv in Hv; [done|]. by destruct (co_names _ _ _ _ Hok f d Hd).
Qed.
Lemma typed_scalar n d v : scalar (collect_field (n, d)) = true → typed (n, d) v → v = VNone ∨ has_type d v = true.
Proof. unfold scalar, is_plain, is_opt, typed. by destruct (kind (collect_field (n, d))). Qed.
Lemma scalars_fail t lp env0 fs p W (m m' : M) e : call_ok t lp env0 fs → (∀ g, p g = true → scalar g = true) →
  free (empty t) (W ++ sent_by env0 p fs) → all_set W (empty t) m →
  set_all (sent_by env0 p fs) m = (Raise e, m') → Refused t e.
Proof.
  intros [Hsch Hwf Hval Hty Hnames] Hp Hfree HW Hs.
  assert (assignable m (sent_by env0 p fs)) as Hass.
  { eapply scalars_assignable; [done|done|done|done|done|exact Hfree|]. by rewrite (all_schema _ _ _ HW). }
  destruct (set_all_fails _ _ _ _ Hs) as (l1 & f & v & l2 & Hl & Hl1 & He). rewrite Hl in Hass.
  destruct (assign_typed _ _ Hass f v) as (d & Hd & Ht); [set_solver|].
  pose proof (set_all_sets _ _ _ (assignable_prefix _ _ _ Hass) Hl1) as Hset.
  eapply (refused_setattr t m' f d v); [|by rewrite (all_schema _ _ _ Hset), (all_schema _ _ _ HW)|done|done].
  unfold field_of in Hd |- *. by rewrite <-(all_schema _ _ _ HW).
Qed.
Lemma exec_optional_fails t lp env0 fs W env (m : M) e : call_ok t lp env0 fs → Inv (empty t) lp env0 W env m →
  free (empty t) (W ++ sent_by env0 is_opt fs) →
  exec_all (match omap optional_name (collect_fields fs) with [] => [] | ns => [ApplyOptional ns] end) env = Raise e →
  only_refused t e.
Proof.
  intros Hok [I1 I2 I3] Hfree.
  assert (∀ g, optional_name g = if is_opt g then Some (name g) else None) as Hpick
    by (intros g; unfold optional_name, is_opt; by destruct (kind g)).
  assert (∀ g, is_opt g = true → scalar g = true) as Hsc by (intros g Hg; unfold scalar; by rewrite Hg, orb_true_r).
  destruct (picks_bound t lp env0 fs optional_name is_opt env Hok Hpick I3) as (kw & Hkw & Hin).
  assert (∀ m' p, set_all (given (prod_map id arg <$> kw)) m = (Raise p, m') → Refused t p) as Hgen.
  { intros m' p Hs. rewrite (given_kwargs optional_name is_opt (collect_fields fs) env0 kw Hpick Hsc) in Hs;
      [by eapply scalars_fail|]. rewrite <-Hkw. apply vars_same. intros x (g & Hg & Hx)%list_elem_of_omap.
    rewrite Hpick in Hx. destruct (is_opt g); [|done]. injection Hx as <-.
    apply list_elem_of_fmap in Hg as ([n d] & -> & Hnd). symmetry. apply I3. by destruct (co_names _ _ _ _ Hok n d Hnd). }
  destruct (omap optional_name (collect_fields fs)) as [|n ns]; [done|].
  cbn [exec_all exec]. unfold var at 1. rewrite I1. cbn [mbind result_bind]. rewrite Hkw. cbn [mbind result_bind message].
  unfold apply_optional_fields. destruct (set_all _ m) as [[[]|p] m'] eqn:Hs; [done|]. cbn.
  intros [= <-]. exists p. split; [done|]. by eapply Hgen.
Qed.
Lemma body_fails t lp env0 fs (m : GMethod) e :
  call_ok t lp env0 fs → gfields m = collect_fields fs → input_type m = t →
  free (empty t) (sent env0 (gfields m)) → exec_all (stmts m) env0 = Raise e → only_refused t e.
Proof.
  intros Hok Hgs Ht Hfree. unfold stmts. rewrite Hgs, Ht in *.
  assert (sent env0 (collect_fields fs) = (sent_by env0 is_plain fs ++ sent_by env0 is_opt fs) ++ sent_by env0 is_multi fs)
    as Hsent by (unfold sent, sent_by; by rewrite !fmap_app, !join_app, (assoc_L (++))).
  rewrite Hsent in *. pose proof (free_prefix _ _ _ Hfree) as Hfree2. pose proof (free_prefix _ _ _ Hfree2) as Hfree1.
  assert (∀ g, plain_name g = if is_plain g then Some (name g) else None) as Hpick
    by (intros g; unfold plain_name, is_plain; by destruct (kind g)).
  assert (∀ g, is_plain g = true → scalar g = true) as Hsc by (intros g Hg; unfold scalar; by rewrite Hg).
  cbn [app exec_all exec].
  destruct (picks_bound t lp env0 fs plain_name is_plain env0 Hok Hpick ltac:(done)) as (kw & Hkw & Hin).
  rewrite Hkw. cbn [mbind result_bind].
  destruct (construct t kw) as [m1|p] eqn:Hc; cbn [mbind result_bind py]; cycle 1.
  { intros [= <-]. exists p. split; [done|]. apply (refused_construct t kw); [|done]. intros f v Hfv.
    destruct (Hin f v Hfv) as (d & Hd & Hp & Hv). exists d.
    split; [unfold field_of; rewrite (co_schema _ _ _ _ Hok); apply elem_dget; [by destruct Hok|done]|].
    apply (typed_scalar f); [by apply Hsc|]. by apply (co_typed _ _ _ _ Hok). }
  pose proof (vars_Ok_given is_plain plain_name _ t lp env0 fs [] (empty t) m1 env0 kw Hok eq_refl Hsc Hpick
    (all_set_nil _) ltac:(done) Hfree1 Hkw (construct_sets _ _ _ Hc)) as HI1. cbn [app] in HI1.
  intros Hex. rewrite exec_all_app in Hex.
  destruct (exec_all _ (set_request m1 env0)) as [env2|e'] eqn:He in Hex; cbn in Hex.
  - destruct (exec_optional _ _ _ _ _ _ _ Hok HI1 Hfree2 env2 He) as [m2 HI2]. by eapply exec_multis_fails.
  - injection Hex as ->. by eapply exec_optional_fails.
Qed.

Lemma request_of_body (m : GMethod) fs (args : @Env M) :
  typed_call m fs args → (∀ x, x ∈ dkeys args → dmem (params (M:=M) m) x = true) →
  (∀ n d, (n, d) ∈ fs → is_plain (collect_field (n, d)) = true → is_Some (dget args n)) →
  (∃ msg, request_of m args = Ok msg) ∨ ∃ e, request_of m args = Raise e ∧ only_refused (input_type m) e.
Proof.
  intros Hc Hkeys Hreq. unfold request_of.
  assert (forallb (λ x, dmem (params m) x) (dkeys args) = true) as ->.
  { apply forallb_forall. intros x Hx. by apply Hkeys, list_elem_of_In. }
  cbn [negb]. destruct (bind (params m) args) as [env0|e] eqn:Hb; cbn [mbind result_bind]; cycle 1.
  { destruct (bind_fails _ _ _ Hb) as (x & Hx & Hin). exfalso. unfold params in Hin. rewrite !elem_of_app in Hin.
    destruct Hin as [Hin|[Hin|Hin]].
    - apply list_elem_of_fmap in Hin as (y & [= <-] & Hy). apply list_elem_of_omap in Hy as (g & Hg & Hn).
      rewrite (tc_fields _ _ _ Hc) in Hg. apply list_elem_of_fmap in Hg as ([n d] & -> & Hnd).
      unfold plain_name in Hn. destruct (kind (collect_field (n, d))) eqn:Hk; try done. injection Hn as <-.
      destruct (Hreq n d Hnd) as [v Hv]; [by unfold is_plain; rewrite Hk|]. cbn in Hx. congruence.
    - apply list_elem_of_omap in Hin as (g & _ & Hn). by destruct (default_of g).
    - rewrite !elem_of_cons in Hin. destruct Hin as [?|[?|[?|[]%not_elem_of_nil]]]; done. }
  destruct (exec_all (stmts m) env0) as [env'|e] eqn:Hex; cbn [mbind result_bind].
  - left. destruct (body_sends _ _ env0 fs m env' (bound_call m fs args env0 Hc Hb) (tc_fields _ _ _ Hc) eq_refl
      (sent_free m fs args env0 Hc Hb) Hex) as [msg HI]. exists msg.
    unfold var. by rewrite (inv_request _ _ _ _ _ _ HI).
  - right. exists e. split; [done|]. by apply (body_fails _ _ env0 fs m e (bound_call m fs args env0 Hc Hb)
      (tc_fields _ _ _ Hc) eq_refl (sent_free m fs args env0 Hc Hb)).
Qed.


End sends.

(** ** A generated method

    A registration with a field of every kind; its descriptor is the table of
    the type. *)

Definition demo_fields : list (string * Field) :=
  [("name", {| ftype := _TYPE_STRING; label := 1; containing_oneof := None; map_value := None |});
   ("title", {| ftype := _TYPE_STRING; label := 1; containing_oneof := Some "_title"; map_value := None |});
   ("tags", {| ftype := _TYPE_STRING; label := 3; containing_oneof := None; map_value := None |});
   ("labels", {| ftype := _TYPE_MESSAGE; label := 3; containing_oneof := None; map_value := Some _TYPE_STRING |});
   ("parts", {| ftype := _TYPE_MESSAGE; label := 3; containing_oneof := None; map_value := Some _TYPE_MESSAGE |});
   ("owner", {| ftype := _TYPE_MESSAGE; label := 1; containing_oneof := None; map_value := None |});
   ("by_id", {| ftype := _TYPE_INT64; label := 1; containing_oneof := Some "kind"; map_value := None |});
   ("by_name", {| ftype := _TYPE_STRING; label := 1; containing_oneof := Some "kind"; map_value := None |})].
Definition shadow_fields : list (string * Field) :=
  [("parts", {| ftype := _TYPE_MESSAGE; label := 3; containing_oneof := None; map_value := Some _TYPE_MESSAGE |});
   ("value", {| ftype := _TYPE_MESSAGE; label := 1; containing_oneof := None; map_value := None |})].
Definition demo_table (t : string) : list (string * Field) :=
  if bool_decide (t = "demo_pb2.Shadow") then shadow_fields else demo_fields.
#[export] Instance demo_types : MessageTypes Simple.
Proof.
  refine {| empty := λ t, simple (demo_table t) [];
            construct := λ t kwargs, match set_all (given (prod_map id arg <$> kwargs)) (simple (demo_table t) []) with
                                     | (Ok _, m) => Ok m
                                     | (Raise e, _) => Raise e
                                     end |}.
  - unfold field_of; cbn. intros t f d -> Hp. by rewrite Hp.
  - unfold field_of; cbn. intros t f d -> Hr Hm. unfold default_value. by rewrite Hr, Hm.
  - unfold field_of; cbn. intros t f d -> Hr [v Hm]. unfold default_value. by rewrite Hr, Hm.
  - intros t kwargs m. destruct (set_all _ _) as [[[]|e] m'] eqn:Hs; [|done]. by intros [= <-].
Defined.
Definition demo_rpc : RpcDescriptor := {| rpc := "RegisterServer"; input := ("Register", demo_fields); output := "Registered" |}.
Definition demo_args : @Env Simple :=
  [("name", VStr "alpha"); ("tags", VList [VStr "a"; VStr "b"]); ("labels", VDict [("k", VStr "v")]);
   ("parts", VDict [("p", VMsg (simple [] []))]); ("by_id", VInt 7); ("by_name", VNone)].
Definition demo_sent : result RunError Simple := request_of (method_of "demo_pb2" demo_rpc) demo_args.
Definition sent_msg : Simple := match demo_sent with Ok m => m | Raise _ => simple [] [] end.

Lemma demo_kinds n d : (n, d) ∈ demo_fields → valid_field d.
Proof.
  unfold demo_fields. rewrite !elem_of_cons.
  intros Hin. repeat (destruct Hin as [[= -> ->]|Hin]; [split; cbn; [try by intros [? ?]|try by intros [? ?]]|]);
    by apply not_elem_of_nil in Hin.
Qed.
Lemma demo_typed n d v : (n, d) ∈ demo_fields → dget demo_args n = Some v → typed (n, d) v.
Proof.
  unfold demo_fields. rewrite !elem_of_cons. intros Hin.
  repeat (destruct Hin as [[= -> ->]|Hin]; [cbn; try done; intros [= <-]; unfold typed; cbn|]);
    try (by apply not_elem_of_nil in Hin); try by (left + right).
  - by eexists.
  - right. eexists. split; [done|]. split; [|done]. apply (bool_decide_eq_true_1 (NoDup ["k"])). by vm_compute.
  - right. eexists. split; [done|]. split; [apply (bool_decide_eq_true_1 (NoDup ["p"])); by vm_compute|].
    intros _ p ->%list_elem_of_singleton. by eexists.
Qed.
Lemma demo_call : typed_call (method_of "demo_pb2" demo_rpc) demo_fields demo_args.
Proof.
  constructor; [done|done|by apply (bool_decide_eq_true_1 (NoDup (dkeys demo_fields))); vm_compute|
    apply demo_kinds|by vm_compute|apply demo_typed|].
  intros n d n' d' Hin Hin' Hs Hs' Hsib%same_oneof_spec. cbn in Hsib. revert Hs Hs'.
  unfold demo_fields in Hin, Hin'. rewrite !elem_of_cons in Hin, Hin'.
  repeat (destruct Hin as [[= -> ->]|Hin]; [
    repeat (destruct Hin' as [[= -> ->]|Hin']; [cbn; first [by vm_compute in Hsib|by intros [? ?]|by intros _ [? ?]]|]);
    by apply not_elem_of_nil in Hin'|]); by apply not_elem_of_nil in Hin.
Qed.

(** ** Names the generator takes *)

(** The loop over a map of messages assigns [key] and [value], which are also
    the names of the parameters of fields called so: here [value], which was
    not given, is sent as the last message of the map. *)
Definition shadow_method : GMethod :=
  method_of "demo_pb2" {| rpc := "Shadow"; input := ("Shadow", shadow_fields); output := "Shadow" |}.
Definition shadow_args : @Env Simple := [("parts", VDict [("p", VMsg (simple [] []))])].
Lemma loop_variables_shadow_fields :
  dget shadow_args "value" = None ∧
  match request_of shadow_method shadow_args with
  | Ok m => getattr m "value" = Some (VMsg (simple [] [])) ∧ HasField "value" m = Ok true
  | Raise _ => False
  end.
Proof. by vm_compute. Qed.
(** A member of a oneof that is not [optional] is a required parameter, and
    the constructor keeps the last of those it is given. *)
Lemma oneof_members_are_required :
  let by_id := ("by_id", {| ftype := _TYPE_INT64; label := 1; containing_oneof := Some "kind"; map_value := None |}) in
  by_id ∈ demo_fields ∧ is_plain (collect_field by_id) = true ∧
  match request_of (method_of "demo_pb2" demo_rpc) (dset demo_args "by_name" (VStr "")) with
  | Ok m => HasField "by_name" m = Ok true ∧ HasField "by_id" m = Ok false
  | Raise _ => False
  end.
Proof. cbv zeta. split; [unfold demo_fields; set_solver|]. by vm_compute. Qed.
End Meaning.
