(* ===== verification/Channels.v ===== *)
(** * grpc/channels.py, grpc/client.py and web/http.py: shared clients

    Both modules keep one process-wide object per key: [Registry] is that
    pattern, for any object with a way to close it.  [Channels] is its gRPC
    instance, whose objects are proxies with one channel for each event loop,
    and the client facade; [Http] is its HTTP instance. *)

From S2P Require Import Prelude PyStr PyDict Handlers GrpcErrors.
#[local] Open Scope se_scope.

(** ** The pattern *)

Module Registry.

(** The two dictionaries: [_SHARED_CHANNELS] and [_SHARED_CHANNEL_SPECS]. *)
Record Registry (H Spec : Type) := { shared : list (string * H); specs : list (string * Spec) }.
Arguments shared {H Spec} r.
Arguments specs {H Spec} r.
Definition initial {H Spec} : Registry H Spec := {| shared := []; specs := [] |}.

Inductive Refusal := empty_key | empty_target | reused (key : string).

Definition normalize_keys (keys : list string) : list string :=
  List.filter (λ k, negb (is_empty k)) (strip <$> keys).

Section registry.
Context {W H Spec E : Type} `{EqDecision Spec} `{Lens W (Registry H Spec)}.
Context (refuse : Refusal → E) (close : H → SE W E unit).
Implicit Types (r : Registry H Spec) (w : W).

(** Under the lock: the object of a key, made when there is none. *)
Definition acquire (key : string) (spec : Spec) (create : W → H * W) : SE W E H := λ w,
  let r := view w in
  match dget (shared r) key with
  | Some h => if decide (dget (specs r) key = Some spec) then (Ok h, w) else (Raise (refuse (reused key)), w)
  | None =>
      let '(h, w') := create w in
      (Ok h, put {| shared := dset (shared r) key h; specs := dset (specs r) key spec |} w')
  end.
(** Under the lock: what is to be closed leaves the dictionaries. *)
Fixpoint pop_all (keys : list string) r : list (string * option H) * Registry H Spec :=
  match keys with
  | [] => ([], r)
  | k :: keys' =>
      let '(l, r') := pop_all keys' {| shared := ddel (shared r) k; specs := ddel (specs r) k |} in
      ((k, dget (shared r) k) :: l, r')
  end.
Definition take (keys : list string) : SE W E (list (string * option H)) := λ w,
  match normalize_keys keys with
  | [] => (Ok (prod_map id Some <$> shared (view w)), put initial w)
  | ks => let '(l, r) := pop_all ks (view w) in (Ok l, put r w)
  end.
(** Then one after the other, an exception ending the loop. *)
Fixpoint close_all (l : list (string * option H)) : SE W E unit :=
  match l with
  | [] => se_ret tt
  | (_, None) :: l' => close_all l'
  | (_, Some h) :: l' => do* close h in close_all l'
  end.
Definition close_shared (keys : list string) : SE W E unit :=
  let* l := take keys in close_all l.

(** *** The dictionaries agree *)

Record registry_ok r : Prop := {
  ok_wf : wf (shared r);
  ok_keys : dkeys (specs r) = dkeys (shared r) }.
Lemma initial_ok : registry_ok initial.
Proof. by constructor; [apply wf_nil|]. Qed.
Lemma ok_specs_wf r : registry_ok r → wf (specs r).
Proof. intros [H1 H2]. unfold wf. by rewrite H2. Qed.
Lemma registry_ok_set r k h spec : registry_ok r →
  registry_ok {| shared := dset (shared r) k h; specs := dset (specs r) k spec |}.
Proof. intros [H1 H2]. constructor; cbn [shared specs]; [by apply wf_dset|]. by rewrite !dkeys_dset, H2. Qed.
Lemma registry_ok_del r k : registry_ok r → registry_ok {| shared := ddel (shared r) k; specs := ddel (specs r) k |}.
Proof.
  intros Hr. pose proof (ok_specs_wf _ Hr) as Hw. destruct Hr as [H1 H2].
  constructor; cbn [shared specs]; [by apply wf_ddel|]. by rewrite !dkeys_ddel, H2.
Qed.
Lemma pop_all_spec keys : ∀ r l r', registry_ok r → pop_all keys r = (l, r') →
  registry_ok r' ∧ (∀ k, dget (shared r') k = if decide (k ∈ keys) then None else dget (shared r) k) ∧
  (∀ k, dget (specs r') k = if decide (k ∈ keys) then None else dget (specs r) k) ∧
  ∀ k h, (k, Some h) ∈ l ↔ k ∈ keys ∧ dget (shared r) k = Some h.
Proof.
  induction keys as [|k keys IH]; intros r l r' Hr; cbn.
  { intros [= <- <-]. split_and!; [done|done|done|]. intros k h. split; [by intros ?%not_elem_of_nil|].
    by intros [?%not_elem_of_nil ?]. }
  destruct (pop_all keys _) as [l1 r1] eqn:Hp. intros [= <- <-].
  destruct (IH _ _ _ (registry_ok_del r k Hr) Hp) as (Hok & Hs & Hc & Hl). cbn in *.
  pose proof (ok_wf _ Hr) as Hwf. pose proof (ok_specs_wf _ Hr) as Hwf'.
  split_and!; [done| | |].
  - intros k'. rewrite Hs, dget_ddel by done. repeat case_decide; set_solver.
  - intros k'. rewrite Hc, dget_ddel by done. repeat case_decide; set_solver.
  - intros k' h. rewrite !elem_of_cons, Hl, dget_ddel by done. case_decide as Hk.
    + subst k'. split; [intros [[= ->]|[_ ?]]; [split; [by left|done]|done]|]. intros [_ ->]. by left.
    + split; [intros [[= -> _]|[? ?]]; [done|by auto]|]. intros [[->|?] ?]; [done|by right].
Qed.
(** The registry after a close, and what is to be closed. *)
Definition named (keys : list string) (k : string) : Prop :=
  match normalize_keys keys with [] => True | ks => k ∈ ks end.
#[export] Instance named_dec keys k : Decision (named keys k).
Proof. unfold named. destruct (normalize_keys keys); apply _. Defined.
Lemma take_spec keys w l w' : registry_ok (view w) → take keys w = (Ok l, w') →
  ∃ r', w' = put r' w ∧ registry_ok r' ∧
  (∀ k, dget (shared r') k = if decide (named keys k) then None else dget (shared (view w)) k) ∧
  (∀ k, dget (specs r') k = if decide (named keys k) then None else dget (specs (view w)) k) ∧
  ∀ k h, (k, Some h) ∈ l ↔ named keys k ∧ dget (shared (view w)) k = Some h.
Proof.
  intros Hr. unfold take. destruct (normalize_keys keys) as [|k0 ks] eqn:Hk.
  - assert (∀ k, named keys k) as Hn by (intros k; unfold named; by rewrite Hk).
    intros [= <- <-]. exists initial. split; [done|]. split; [apply initial_ok|].
    split; [intros k; by rewrite decide_True|]. split; [intros k; by rewrite decide_True|].
    intros k h. rewrite list_elem_of_fmap. split.
    + intros ([k' h'] & [= -> ->] & Hin). split; [done|]. apply elem_dget; [by destruct Hr|done].
    + intros [_ Hg%dget_elem]. by exists (k, h).
  - assert (∀ k, named keys k ↔ k ∈ k0 :: ks) as Hn by (intros k; unfold named; by rewrite Hk).
    destruct (pop_all (k0 :: ks) (view w)) as [l1 r1] eqn:Hp. intros [= <- <-].
    destruct (pop_all_spec _ _ _ _ Hr Hp) as (Hok & Hs & Hc & Hl). exists r1. split_and!; [done|done| | |].
    + intros k. rewrite Hs. repeat case_decide; naive_solver.
    + intros k. rewrite Hc. repeat case_decide; naive_solver.
    + intros k h. by rewrite Hl, Hn.
Qed.
(** A key keeps its object and its specification. *)
Lemma acquire_known key h s s' create w : dget (shared (view w)) key = Some h → dget (specs (view w)) key = Some s →
  acquire key s' create w = (if decide (s' = s) then Ok h else Raise (refuse (reused key)), w).
Proof. intros Hh Hs. unfold acquire. rewrite Hh, Hs. repeat case_decide; congruence. Qed.
Lemma acquire_Ok key s create w h w' : acquire key s create w = (Ok h, w') →
  dget (shared (view w')) key = Some h ∧ dget (specs (view w')) key = Some s.
Proof.
  unfold acquire. destruct (dget (shared (view w)) key) as [h'|] eqn:Hh.
  - case_decide; [|done]. by intros [= <- <-].
  - destruct (create w) as [h' w1]. intros [= <- <-]. rewrite view_put. cbn [shared specs].
    by rewrite !dget_dset_eq.
Qed.
(** Blank keys name everything. *)
Lemma blank_keys_name_all keys k : (∀ x, x ∈ keys → strip x = EmptyString) → named keys k.
Proof.
  intros Hall. unfold named, normalize_keys. enough (List.filter (λ k, negb (is_empty k)) (strip <$> keys) = []) as -> by done.
  induction keys as [|x keys IH]; [done|]. cbn. rewrite Hall by left. cbn. apply IH. intros y Hy. apply Hall. by right.
Qed.
(** An exception leaves the objects after it open, and out of the registry. *)
Lemma close_all_stops l1 k h l2 w w1 e w2 :
  close_all l1 w = (Ok tt, w1) → close h w1 = (Raise e, w2) → close_all (l1 ++ (k, Some h) :: l2) w = (Raise e, w2).
Proof.
  revert w. induction l1 as [|[k' [h'|]] l1 IH]; intros w; cbn; [|unfold se_bind|by apply IH].
  - intros [= <-] He. unfold se_bind. by rewrite He.
  - destruct (close h' w) as [[[]|e'] w3]; [|done]. intros H1 H2. by apply IH.
Qed.
End registry.
End Registry.

(** ** gRPC *)

#[local] Open Scope string_scope.
#[local] Open Scope list_scope.
#[local] Open Scope Z_scope.

Module Channels.
Import Registry.

Definition _GRPC_KEEPALIVE_TIME_MS : Z := 300000.
Definition _GRPC_KEEPALIVE_TIMEOUT_MS : Z := 10000.
Definition _GRPC_KEEPALIVE_PERMIT_WITHOUT_CALLS : Z := 0.
Definition _GRPC_MAX_RECEIVE_MESSAGE_LENGTH : Z := 16 * 1024 * 1024.
Definition options : list (string * Z) :=
  [("grpc.keepalive_time_ms", _GRPC_KEEPALIVE_TIME_MS);
   ("grpc.keepalive_timeout_ms", _GRPC_KEEPALIVE_TIMEOUT_MS);
   ("grpc.keepalive_permit_without_calls", _GRPC_KEEPALIVE_PERMIT_WITHOUT_CALLS);
   ("grpc.max_receive_message_length", _GRPC_MAX_RECEIVE_MESSAGE_LENGTH)]%string.

(** The interceptors a real channel is opened with, and the channel: what it
    was opened for, on which loop, and whether it was closed. *)
Inductive Interceptor := metrics (service_name target : string) | jwt_forwarding | internal_token (token : string).
Record Spec := { target : string; token : option string; service_name : string }.
#[export] Instance Spec_eq_dec : EqDecision Spec.
Proof. solve_decision. Defined.
Record Channel := {
  c_target : string; c_options : list (string * Z); c_interceptors : list Interceptor; c_loop : nat;
  c_closed : bool }.
(** [_SharedChannelProxy]: loops are numbers, and [channels] maps them to the
    numbers of real channels. *)
Record Proxy := { p_key : string; p_spec : Spec; p_channels : list (nat * nat) }.
Record World := { reg : Registry nat Spec; proxies : list Proxy; chans : list Channel }.
Definition start : World := {| reg := initial; proxies := []; chans := [] |}.
#[export] Instance registry_lens : Lens World (Registry nat Spec).
Proof.
  by refine {| view := reg; put := λ r w, {| reg := r; proxies := proxies w; chans := chans w |} |};
    intros; repeat match goal with w : World |- _ => destruct w end.
Defined.
Definition set_proxies (f : list Proxy → list Proxy) (w : World) : World :=
  {| reg := reg w; proxies := f (proxies w); chans := chans w |}.
Definition set_chans (f : list Channel → list Channel) (w : World) : World :=
  {| reg := reg w; proxies := proxies w; chans := f (chans w) |}.
Definition set_channels (f : list (nat * nat) → list (nat * nat)) (p : Proxy) : Proxy :=
  {| p_key := p_key p; p_spec := p_spec p; p_channels := f (p_channels p) |}.

Inductive Error := refused (r : Refusal) | bad_timeout | no_running_loop | close_failed.
(** What [asyncio] says: the running loop of the caller, and of other loops
    whether they run and whether they were closed. *)
Record Loops := { current : option nat; is_running : nat → bool; is_closed : nat → bool }.

(** [_create_channel] *)
Definition create_channel (p : Proxy) (loop : nat) : Channel :=
  let s := p_spec p in
  {| c_target := target s; c_options := options;
     c_interceptors := [metrics (service_name s) (target s); jwt_forwarding] ++
       match token s with Some t => [internal_token t] | None => [] end;
     c_loop := loop; c_closed := false |}.
(** [_get_or_create_channel] *)
Definition get_or_create_channel (ls : Loops) (p : nat) : SE World Error nat := λ w,
  match current ls, proxies w !! p with
  | Some loop, Some proxy =>
      match dget (p_channels proxy) loop with
      | Some c => (Ok c, w)
      | None =>
          let c := length (chans w) in
          (Ok c, set_proxies (alter (set_channels (λ d, dset d loop c)) p)
                   (set_chans (λ l, l ++ [create_channel proxy loop]) w))
      end
  | _, _ => (Raise no_running_loop, w)
  end.

(** [_MultiCallableProxy]: a method of the proxy, resolved when it is called. *)
Inductive Kind := unary_unary | unary_stream | stream_unary | stream_stream.
Record MultiCallable := { mc_channel : nat; mc_kind : Kind; mc_method : string }.
Definition multi_callable (k : Kind) (p : nat) (method : string) : MultiCallable :=
  {| mc_channel := p; mc_kind := k; mc_method := method |}.
Definition resolve (ls : Loops) (m : MultiCallable) : SE World Error (nat * Kind * string) :=
  let* c := get_or_create_channel ls (mc_channel m) in se_ret (c, mc_kind m, mc_method m).

(** [_close_channel]; [fails] says of which channels the close raises. *)
Definition close_real (fails : nat → bool) (c : nat) : SE World Error unit := λ w,
  if fails c then (Raise close_failed, w)
  else (Ok tt, set_chans (alter (λ ch, {| c_target := c_target ch; c_options := c_options ch;
      c_interceptors := c_interceptors ch; c_loop := c_loop ch; c_closed := true |}) c) w).
Definition reachable_loop (ls : Loops) (loop : nat) : bool :=
  bool_decide (current ls = Some loop) || (is_running ls loop && negb (is_closed ls loop)).
Definition close_channel (ls : Loops) (fails : nat → bool) (loop c : nat) : SE World Error unit :=
  if bool_decide (current ls = Some loop) then close_real fails c
  else if is_running ls loop && negb (is_closed ls loop) then close_real fails c
  else se_ret tt.
(** [close] of a proxy: its channels leave it under the lock. *)
Definition swap_channels (p : nat) : SE World Error (list (nat * nat)) := λ w,
  (Ok (match proxies w !! p with Some proxy => p_channels proxy | None => [] end),
   set_proxies (alter (set_channels (λ _, [])) p) w).
Fixpoint close_channels (ls : Loops) (fails : nat → bool) (l : list (nat * nat)) : SE World Error unit :=
  match l with
  | [] => se_ret tt
  | (loop, c) :: l' => do* close_channel ls fails loop c in close_channels ls fails l'
  end.
Definition close_proxy (ls : Loops) (fails : nat → bool) (p : nat) : SE World Error unit :=
  let* l := swap_channels p in close_channels ls fails l.

(** [build_shared_channel] *)
Definition token_of (token : option string) : option string :=
  str_or_none (strip (default EmptyString token)).
Definition spec_of (key target : string) (token service_name : option string) : Spec :=
  {| target := strip target; token := token_of token;
     service_name := str_or (strip (default EmptyString service_name))
                       (replace_char "_" "-" (partition_char "." (strip key)).1.1) |}.
Definition create_proxy (key : string) (s : Spec) (w : World) : nat * World :=
  (length (proxies w), set_proxies (λ l, l ++ [{| p_key := key; p_spec := s; p_channels := [] |}]) w).
Definition build_shared_channel (key target : string) (token service_name : option string) : SE World Error nat :=
  let key' := strip key in
  if is_empty key' then se_raise (refused empty_key)
  else if is_empty (strip target) then se_raise (refused empty_target)
  else let s := spec_of key target token service_name in acquire refused key' s (create_proxy key' s).
Definition close_shared_channels (ls : Loops) (fails : nat → bool) (keys : list string) : SE World Error unit :=
  close_shared (close_proxy ls fails) keys.

(** [GrpcClient]: the attempt a call makes is a parameter of [call], given the
    timeout it runs with. *)
Record Client := { key : string; timeout_seconds : Q; channel : nat }.
Definition build_grpc_client (key target : string) (timeout_seconds : Q) (token service_name : option string) :
    SE World Error Client :=
  if Qle_bool timeout_seconds 0 then se_raise bad_timeout
  else let* c := build_shared_channel (strip key) (strip target) (token_of token) service_name in
       se_ret {| key := strip key; timeout_seconds := timeout_seconds; channel := c |}.
Definition client_call {A} (awesome_errors : bool) (c : Client) (method : Q → result Calls.CallError A)
    (timeout : option Q) (resource resource_id : option string)
    (extra_errors : option (list (Handlers.Code * option Calls.Factory))) : result Calls.CallError A :=
  Calls.grpc_call awesome_errors extra_errors resource resource_id
    (method (match timeout with Some t => t | None => timeout_seconds c end)).
Definition client_close (ls : Loops) (fails : nat → bool) (c : Client) : SE World Error unit :=
  close_shared_channels ls fails [key c].

(** *** Any interleaving

    The sections between awaits, in any order: building, using a proxy,
    taking keys out of the registry, a proxy giving up its channels, closing
    one that was given up, and the end of a loop, whose entry the weak
    dictionaries lose.  The second component is what was given up. *)
Definition State : Type := World * list (nat * nat).
Inductive step : State → State → Prop :=
  | step_build key target token service_name w t :
      step (w, t) ((build_shared_channel key target token service_name w).2, t)
  | step_use ls p w t : step (w, t) ((get_or_create_channel ls p w).2, t)
  | step_take keys w t : step (w, t) ((take (E:=Error) keys w).2, t)
  | step_swap p w t l w' : swap_channels p w = (Ok l, w') → step (w, t) (w', l ++ t)
  | step_close ls fails loop c w t : (loop, c) ∈ t → step (w, t) ((close_channel ls fails loop c w).2, t)
  | step_forget loop w t : step (w, t) (set_proxies (fmap (set_channels (λ d, ddel d loop))) w, t).

(** What holds: the registry names proxies of its keys and specifications; a
    proxy's channels are open, one for each loop, made for it and held by no
    other; what was given up is held by none. *)
Record Inv (w : World) (t : list (nat * nat)) : Prop := {
  inv_reg : registry_ok (reg w);
  inv_spec k p : dget (shared (reg w)) k = Some p → ∃ proxy, proxies w !! p = Some proxy ∧
    p_key proxy = k ∧ dget (specs (reg w)) k = Some (p_spec proxy);
  inv_wf p proxy : proxies w !! p = Some proxy → wf (p_channels proxy);
  inv_chan p proxy loop c : proxies w !! p = Some proxy → (loop, c) ∈ p_channels proxy →
    chans w !! c = Some (create_channel proxy loop);
  inv_once p q P Q loop loop' c : proxies w !! p = Some P → proxies w !! q = Some Q →
    (loop, c) ∈ p_channels P → (loop', c) ∈ p_channels Q → p = q ∧ loop = loop';
  inv_taken p proxy loop loop' c : proxies w !! p = Some proxy → (loop, c) ∈ p_channels proxy → (loop', c) ∉ t;
  inv_made loop c : (loop, c) ∈ t → (c < length (chans w))%nat }.
(** Proxies stay, with their keys and specifications. *)
Definition keeps (w w' : World) : Prop := ∀ p proxy, proxies w !! p = Some proxy →
  ∃ proxy', proxies w' !! p = Some proxy' ∧ p_spec proxy' = p_spec proxy ∧ p_key proxy' = p_key proxy.
Lemma keeps_refl w : keeps w w.
Proof. intros p proxy Hp. by exists proxy. Qed.
Lemma keeps_trans w1 w2 w3 : keeps w1 w2 → keeps w2 w3 → keeps w1 w3.
Proof.
  intros H1 H2 p proxy Hp. destruct (H1 p proxy Hp) as (q & Hq & Hs & Hk).
  destruct (H2 p q Hq) as (r & Hr & Hs' & Hk'). exists r. split; [done|]. split; congruence.
Qed.
Lemma Inv_at_start : Inv start [].
Proof.
  constructor; cbn; try (by intros). by intros loop c ?%not_elem_of_nil.
Qed.
(** A step that only takes channels away from proxies. *)
Lemma Inv_shrink w w' t t' :
  Inv w t → registry_ok (reg w') →
  (∀ k p, dget (shared (reg w')) k = Some p → dget (shared (reg w)) k = Some p ∧
     dget (specs (reg w')) k = dget (specs (reg w)) k) →
  (∀ p proxy', proxies w' !! p = Some proxy' → ∃ proxy, proxies w !! p = Some proxy ∧
     p_spec proxy' = p_spec proxy ∧ p_key proxy' = p_key proxy ∧ p_channels proxy' `sublist_of` p_channels proxy) →
  keeps w w' → length (chans w') = length (chans w) →
  (∀ p proxy loop c, proxies w' !! p = Some proxy → (loop, c) ∈ p_channels proxy → chans w' !! c = chans w !! c) →
  (∀ p proxy loop loop' c, proxies w' !! p = Some proxy → (loop, c) ∈ p_channels proxy → (loop', c) ∉ t → (loop', c) ∉ t') →
  (∀ loop c, (loop, c) ∈ t' → (c < length (chans w))%nat) →
  Inv w' t'.
Proof.
  intros [I1 I2 I3 I4 I5 I6 I7] Hreg Hsh Hpr Hk Hlen Hch Ht' Hm. constructor; [done|..].
  - intros k p Hg. destruct (Hsh k p Hg) as [Hg' ->]. destruct (I2 k p Hg') as (proxy & Hp & Hkey & Hs).
    destruct (Hk p proxy Hp) as (proxy' & Hp' & Hs' & Hk'). exists proxy'. split_and!; [done|congruence|congruence].
  - intros p proxy Hp. destruct (Hpr p proxy Hp) as (P & HP & _ & _ & Hs). exact (wf_sublist _ _ Hs (I3 _ _ HP)).
  - intros p proxy loop c Hp Hin. rewrite (Hch p proxy loop c Hp Hin).
    destruct (Hpr p proxy Hp) as (P & HP & Hs & _ & Hsub). rewrite (I4 p P loop c HP) by (by eapply elem_of_sublist).
    unfold create_channel. by rewrite Hs.
  - intros p q P Q loop loop' c HP HQ Hc Hc'. destruct (Hpr p P HP) as (P0 & HP0 & _ & _ & Hs).
    destruct (Hpr q Q HQ) as (Q0 & HQ0 & _ & _ & Hs'). eapply I5; [done|done|by eapply elem_of_sublist..].
  - intros p proxy loop loop' c Hp Hin. eapply Ht'; [done|done|]. destruct (Hpr p proxy Hp) as (P & HP & _ & _ & Hs).
    eapply I6; [done|by eapply elem_of_sublist].
  - intros loop c Hc. rewrite Hlen. by eapply Hm.
Qed.
Lemma alter_lookup {A} (f : A → A) (l : list A) i j :
  alter f i l !! j = if decide (i = j) then f <$> l !! j else l !! j.
Proof. rewrite list_lookup_alter. by case_decide; subst. Qed.
Lemma lookup_alter_id {A} (f : A → A) (l : list A) i j x : alter f i l !! j = Some x →
  ∃ y, l !! j = Some y ∧ x = if decide (i = j) then f y else y.
Proof.
  rewrite alter_lookup. destruct (decide (i = j)); [|intros H; by exists x].
  destruct (l !! j) as [y|]; [|done]. intros [= <-]. by exists y.
Qed.
Lemma keeps_alter f p w w' : proxies w' = alter f p (proxies w) →
  (∀ x, p_spec (f x) = p_spec x ∧ p_key (f x) = p_key x) → keeps w w'.
Proof.
  intros Hw Hf q proxy Hq. rewrite Hw, alter_lookup, Hq. case_decide; cbn; [|by exists proxy].
  eexists. split; [done|]. apply Hf.
Qed.

Lemma step_build_ok key target token service_name w t :
  Inv w t → Inv (build_shared_channel key target token service_name w).2 t ∧
            keeps w (build_shared_channel key target token service_name w).2.
Proof.
  intros I. pose proof I as [I1 I2 I3 I4 I5 I6 I7]. unfold build_shared_channel.
  destruct (is_empty (strip key)); [split; [done|apply keeps_refl]|].
  destruct (is_empty (strip target)); [split; [done|apply keeps_refl]|].
  unfold acquire, view; cbn. destruct (dget (shared (reg w)) (strip key)) as [h|] eqn:Hk.
  { case_decide; (split; [done|apply keeps_refl]). }
  cbn. unfold put; cbn. assert (keeps w {| reg := reg w; proxies := proxies w ++
    [{| p_key := strip key; p_spec := spec_of key target token service_name; p_channels := [] |}]; chans := chans w |}) as Hkeep.
  { intros p proxy Hp. cbn. exists proxy. split; [|done]. by apply lookup_app_l_Some. }
  split; [|exact Hkeep].
  assert (∀ p proxy loop c, (proxies w ++ [{| p_key := strip key; p_spec := spec_of key target token service_name;
      p_channels := [] |}]) !! p = Some proxy → (loop, c) ∈ p_channels proxy → proxies w !! p = Some proxy) as Hold.
  { intros p proxy loop c Hp Hin. apply lookup_app_Some in Hp as [?|[_ Hp]]; [done|].
    apply list_lookup_singleton_Some in Hp as [_ <-]. by apply not_elem_of_nil in Hin. }
  constructor; cbn [reg proxies chans].
  - by apply registry_ok_set.
  - intros k p. cbn [shared specs]. rewrite !dget_dset. case_decide as Hkk.
    + subst. intros [= <-]. eexists. split; [by rewrite lookup_app_r, Nat.sub_diag by done|]. done.
    + intros Hg. destruct (I2 k p Hg) as (proxy & ? & ? & ?). exists proxy. split; [|done]. by apply lookup_app_l_Some.
  - intros p proxy [Hp|[_ Hp]]%lookup_app_Some; [by eapply I3|].
    apply list_lookup_singleton_Some in Hp as [_ <-]. apply wf_nil.
  - intros p proxy loop c Hp Hin. eapply I4; [by eapply Hold|done].
  - intros p q P Q loop loop' c HP HQ Hc Hc'. eapply I5; [by eapply Hold|by eapply Hold|done|done].
  - intros p proxy loop loop' c Hp Hin. eapply I6; [by eapply Hold|done].
  - done.
Qed.

(** A proxy's channel for the running loop. *)
Lemma use_spec ls p w c w' : get_or_create_channel ls p w = (Ok c, w') →
  ∃ loop proxy, current ls = Some loop ∧ proxies w !! p = Some proxy ∧
    ((dget (p_channels proxy) loop = Some c ∧ w' = w) ∨
     (dget (p_channels proxy) loop = None ∧ c = length (chans w) ∧
      w' = set_proxies (alter (set_channels (λ d, dset d loop c)) p) (set_chans (λ l, l ++ [create_channel proxy loop]) w))).
Proof.
  unfold get_or_create_channel. destruct (current ls) as [loop|]; [|done].
  destruct (proxies w !! p) as [proxy|]; [|done]. exists loop, proxy.
  destruct (dget (p_channels proxy) loop) as [c'|] eqn:Hd; injection H as <- <-; split_and!; auto.
Qed.
Lemma step_use_ok ls p w t : Inv w t → Inv (get_or_create_channel ls p w).2 t ∧ keeps w (get_or_create_channel ls p w).2.
Proof.
  intros I. pose proof I as [I1 I2 I3 I4 I5 I6 I7].
  destruct (get_or_create_channel ls p w) as [[c|e] w'] eqn:Hu; cycle 1.
  { unfold get_or_create_channel in Hu. destruct (current ls) as [loop|]; [|injection Hu as _ <-; split; [done|apply keeps_refl]].
    destruct (proxies w !! p) as [proxy|]; [|injection Hu as _ <-; split; [done|apply keeps_refl]].
    by destruct (dget (p_channels proxy) loop). }
  destruct (use_spec _ _ _ _ _ Hu) as (loop & proxy & _ & Hp & [[_ ->]|(Hd & -> & ->)]); [split; [done|apply keeps_refl]|].
  cbn [snd]. set (f := set_channels (λ d, dset d loop (length (chans w)))).
  assert (∀ l c', (l, c') ∈ dset (p_channels proxy) loop (length (chans w)) →
    (l = loop ∧ c' = length (chans w)) ∨ (l, c') ∈ p_channels proxy) as Hin.
  { intros l c'. rewrite dset_fresh by by apply dget_None. rewrite elem_of_app. intros [?|[= -> ->]%list_elem_of_singleton]; auto. }
  assert (∀ q Q l c', proxies w !! q = Some Q → (l, c') ∈ p_channels Q → (c' < length (chans w))%nat) as Hlt.
  { intros q Q l c' HQ Hc. apply lookup_lt_is_Some. rewrite (I4 q Q l c' HQ Hc). by eexists. }
  assert (∀ q Q l c', alter f p (proxies w) !! q = Some Q → (l, c') ∈ p_channels Q →
    ∃ Q0, proxies w !! q = Some Q0 ∧ p_spec Q = p_spec Q0 ∧
      ((q = p ∧ l = loop ∧ c' = length (chans w)) ∨ (l, c') ∈ p_channels Q0)) as Hold.
  { intros q Q l c' HQ Hc. destruct (lookup_alter_id _ _ _ _ _ HQ) as (Q0 & HQ0 & ->). exists Q0. split; [done|].
    case_decide as Hpq; [|by auto]. subst q. split; [done|]. rewrite Hp in HQ0. injection HQ0 as <-.
    cbn in Hc. destruct (Hin l c' Hc) as [[-> ->]|?]; auto. }
  split; [|by apply (keeps_alter f p)]. constructor; cbn [reg proxies chans set_proxies set_chans].
  - done.
  - intros k q Hg. destruct (I2 k q Hg) as (Q & HQ & Hkey & Hs). rewrite alter_lookup, HQ.
    case_decide; eexists; by split.
  - intros q Q HQ. destruct (lookup_alter_id _ _ _ _ _ HQ) as (Q0 & HQ0 & ->). case_decide; [|by eapply I3].
    cbn. apply wf_dset. by eapply I3.
  - intros q Q l c' HQ Hc. destruct (Hold q Q l c' HQ Hc) as (Q0 & HQ0 & Hs & [(-> & -> & ->)|Hc']).
    + rewrite lookup_app_r, Nat.sub_diag by done. cbn. rewrite Hp in HQ0. injection HQ0 as <-. unfold create_channel. by rewrite Hs.
    + apply lookup_app_l_Some. rewrite (I4 q Q0 l c' HQ0 Hc'). unfold create_channel. by rewrite Hs.
  - intros q r Q R l l' c' HQ HR Hc Hc'. destruct (Hold q Q l c' HQ Hc) as (Q0 & HQ0 & _ & HcQ).
    destruct (Hold r R l' c' HR Hc') as (R0 & HR0 & _ & HcR).
    destruct HcQ as [(-> & -> & Hn)|HcQ], HcR as [(-> & -> & Hn')|HcR]; subst.
    + done.
    + pose proof (Hlt _ _ _ _ HR0 HcR). lia.
    + pose proof (Hlt _ _ _ _ HQ0 HcQ). lia.
    + by eapply I5.
  - intros q Q l l' c' HQ Hc. destruct (Hold q Q l c' HQ Hc) as (Q0 & HQ0 & _ & [(-> & -> & ->)|HcQ]); [|by eapply I6].
    intros Ht. pose proof (I7 _ _ Ht). lia.
  - intros l c' Ht. rewrite length_app. pose proof (I7 _ _ Ht). lia.
Qed.
Lemma step_take_ok keys w t : Inv w t → Inv (take (E:=Error) keys w).2 t ∧ keeps w (take (E:=Error) keys w).2.
Proof.
  intros I. destruct (take (E:=Error) keys w) as [[l|e] w'] eqn:Ht; cycle 1.
  { unfold take in Ht. destruct (normalize_keys keys); [done|]. by destruct (pop_all _ _). }
  pose proof (inv_reg _ _ I : registry_ok (view w)) as Hreg.
  destruct (take_spec keys w l w' Hreg Ht) as (r' & -> & Hok & Hs & Hc & _). cbn [snd].
  split; [|intros p proxy Hp; by exists proxy].
  apply (Inv_shrink w _ t t I); try done.
  - intros k p Hg. unfold put in *; cbn in *. rewrite Hs in Hg. rewrite Hc. by case_decide.
  - intros p proxy Hp. by exists proxy.
  - intros p proxy Hp. by exists proxy.
  - apply I.
Qed.
Lemma step_swap_ok p w t l w' : Inv w t → swap_channels p w = (Ok l, w') → Inv w' (l ++ t) ∧ keeps w w'.
Proof.
  intros I. unfold swap_channels. intros [= <- <-].
  assert (keeps w (set_proxies (alter (set_channels (λ _, [])) p) w)) as Hk
    by (by apply (keeps_alter (set_channels (λ _, [])) p)).
  split; [|done]. apply (Inv_shrink w _ t _ I); try done; cbn [proxies chans set_proxies].
  - apply I.
  - intros q Q HQ. destruct (lookup_alter_id _ _ _ _ _ HQ) as (Q0 & HQ0 & ->). exists Q0. split; [done|].
    case_decide; split_and!; try done. apply sublist_nil_l.
  - intros q Q loop loop' c HQ Hc Ht. rewrite elem_of_app. intros [Hin|?]; [|done].
    destruct (lookup_alter_id _ _ _ _ _ HQ) as (Q0 & HQ0 & ->). case_decide as Hpq; [by apply not_elem_of_nil in Hc|].
    destruct (proxies w !! p) as [proxy|] eqn:Hp; [|by apply not_elem_of_nil in Hin].
    by destruct (inv_once _ _ I p q proxy Q0 loop' loop c Hp HQ0 Hin Hc).
  - intros loop c [Hin|?]%elem_of_app; [|by eapply (inv_made _ _ I)].
    destruct (proxies w !! p) as [proxy|] eqn:Hp; [|by apply not_elem_of_nil in Hin].
    apply lookup_lt_is_Some. rewrite (inv_chan _ _ I p proxy loop c Hp Hin). by eexists.
Qed.
Lemma close_channel_world ls fails loop c w : ∃ f, (close_channel ls fails loop c w).2 = set_chans (alter f c) w.
Proof.
  assert (w = set_chans (alter id c) w) as Hid.
  { destruct w as [r ps cs]. unfold set_chans; cbn. f_equal. apply list_eq. intros i. rewrite alter_lookup.
    case_decide; [|done]. by destruct (cs !! i). }
  unfold close_channel, close_real. case_bool_decide; [|destruct (_ && _)]; [| |by exists id];
    (destruct (fails c); [by exists id|by eexists]).
Qed.
Lemma step_close_ok ls fails loop c w t : Inv w t → (loop, c) ∈ t →
  Inv (close_channel ls fails loop c w).2 t ∧ keeps w (close_channel ls fails loop c w).2.
Proof.
  intros I Hc. destruct (close_channel_world ls fails loop c w) as [f ->].
  assert (keeps w (set_chans (alter f c) w)) as Hk by (intros p proxy Hp; by exists proxy).
  split; [|done]. apply (Inv_shrink w _ t t I); try done; cbn [proxies chans set_chans reg].
  - apply I.
  - intros p proxy Hp. by exists proxy.
  - by rewrite length_alter.
  - intros p proxy loop' c' Hp Hin. rewrite alter_lookup. case_decide; [|done]. subst.
    by destruct (inv_taken _ _ I p proxy loop' loop c' Hp Hin).
  - apply I.
Qed.
Lemma step_forget_ok loop w t : Inv w t →
  Inv (set_proxies (fmap (set_channels (λ d, ddel d loop))) w) t ∧
  keeps w (set_proxies (fmap (set_channels (λ d, ddel d loop))) w).
Proof.
  intros I. set (w' := set_proxies _ w). assert (keeps w w') as Hk.
  { intros p proxy Hp. cbn. rewrite list_lookup_fmap, Hp. by eexists. }
  split; [|done]. apply (Inv_shrink w _ t t I); try done; cbn [proxies chans set_proxies reg w'].
  - apply I.
  - intros p proxy. rewrite list_lookup_fmap. destruct (proxies w !! p) as [P|]; [|done]. intros [= <-].
    exists P. split_and!; [done|done|done|]. apply ddel_sublist.
  - apply I.
Qed.
Lemma step_ok w t w' t' : Inv w t → step (w, t) (w', t') → Inv w' t' ∧ keeps w w'.
Proof.
  intros I Hs. inversion Hs; subst; [by apply step_build_ok|by apply step_use_ok|by apply step_take_ok|
    by eapply step_swap_ok|by apply step_close_ok|by apply step_forget_ok].
Qed.
Lemma runs_ok s s' : Inv s.1 s.2 → runs step s s' → Inv s'.1 s'.2 ∧ keeps s.1 s'.1.
Proof.
  intros I Hr. induction Hr as [[w t]|[w t] [w1 t1] [w2 t2] Hr IH Hs]; [split; [done|apply keeps_refl]|].
  destruct (IH I) as [I1 K1]. destruct (step_ok _ _ _ _ I1 Hs) as [I2 K2]. split; [done|]. by eapply keeps_trans.
Qed.
Lemma reachable_ok w t : runs step (start, []) (w, t) → Inv w t.
Proof. intros Hr. apply (runs_ok (start, []) (w, t)); [apply Inv_at_start|done]. Qed.

(** Closing is such a sequence of steps. *)
Lemma close_channels_runs ls fails l : ∀ w t, (∀ x, x ∈ l → x ∈ t) →
  runs step (w, t) ((close_channels ls fails l w).2, t).
Proof.
  induction l as [|[loop c] l IH]; intros w t Hl; [constructor|]. cbn. unfold se_bind.
  pose proof (step_close ls fails loop c w t (Hl _ ltac:(left))) as Hs.
  destruct (close_channel ls fails loop c w) as [[[]|e] w1]; cbn in Hs |- *; cycle 1.
  { by apply (runs_one step _ _ Hs). }
  eapply runs_trans; [exact (runs_one step _ _ Hs)|]. apply IH. intros x Hx. apply Hl. by right.
Qed.
Lemma close_proxy_runs ls fails p w t : ∃ t', runs step (w, t) ((close_proxy ls fails p w).2, t').
Proof.
  unfold close_proxy, se_bind. destruct (swap_channels p w) as [[l|e] w1] eqn:Hs; [|by unfold swap_channels in Hs].
  exists (l ++ t). eapply runs_trans; [exact (runs_one step _ _ (step_swap p w t l w1 Hs))|].
  apply close_channels_runs. intros x Hx. apply elem_of_app. by left.
Qed.
Lemma close_shared_channels_runs ls fails keys w t : ∃ t', runs step (w, t) ((close_shared_channels ls fails keys w).2, t').
Proof.
  unfold close_shared_channels, close_shared, se_bind. pose proof (step_take keys w t) as Hs.
  destruct (take keys w) as [[l|e] w1]; cbn in Hs |- *; [|exists t; by apply (runs_one step _ _ Hs)].
  assert (∀ w t, ∃ t', runs step (w, t) ((close_all (close_proxy ls fails) l w).2, t')) as Hall.
  { clear. induction l as [|[k [p|]] l IH]; intros w t; cbn; [exists t; constructor| |apply IH].
    unfold se_bind. destruct (close_proxy_runs ls fails p w t) as [t1 H1].
    destruct (close_proxy ls fails p w) as [[[]|e] w1]; cbn in H1 |- *; [|by exists t1].
    destruct (IH w1 t1) as [t2 H2]. exists t2. by eapply runs_trans. }
  destruct (Hall w1 t) as [t' Ht]. exists t'. eapply runs_trans; [|exact Ht]. exact (runs_one step _ _ Hs).
Qed.

(** *** What a call uses *)

Lemma build_Ok key target token service_name w t p w' : Inv w t →
  build_shared_channel key target token service_name w = (Ok p, w') →
  ∃ proxy, proxies w' !! p = Some proxy ∧ p_spec proxy = spec_of key target token service_name.
Proof.
  intros I. unfold build_shared_channel. destruct (is_empty (strip key)); [done|].
  destruct (is_empty (strip target)); [done|]. unfold acquire, view; cbn.
  destruct (dget (shared (reg w)) (strip key)) as [h|] eqn:Hk.
  - case_decide as Hs; [|done]. intros [= <- <-]. destruct (inv_spec _ _ I _ _ Hk) as (proxy & Hp & _ & Hs').
    exists proxy. split; [done|]. congruence.
  - intros [= <- <-]. unfold put; cbn. eexists. split; [by rewrite lookup_app_r, Nat.sub_diag by done|done].
Qed.
(** Once built, a key is that proxy for the same configuration, and is refused
    to any other. *)
Lemma rebuilt key target token service_name w p w1 target' token' service_name' :
  build_shared_channel key target token service_name w = (Ok p, w1) → is_empty (strip target') = false →
  build_shared_channel key target' token' service_name' w1 =
    (if decide (spec_of key target' token' service_name' = spec_of key target token service_name) then Ok p
     else Raise (refused (reused (strip key))), w1).
Proof.
  unfold build_shared_channel. destruct (is_empty (strip key)); [done|].
  destruct (is_empty (strip target)); [done|]. intros Hb ->. destruct (acquire_Ok _ _ _ _ _ _ _ Hb) as [Hh Hs].
  by apply acquire_known.
Qed.

(** The channel of a call through a proxy that was built before. *)
Lemma call_channel key target token service_name w t p w1 w2 t2 ls c w3 :
  runs step (start, []) (w, t) → build_shared_channel key target token service_name w = (Ok p, w1) →
  runs step (w1, t) (w2, t2) → get_or_create_channel ls p w2 = (Ok c, w3) →
  Inv w3 t2 ∧ ∃ loop proxy, current ls = Some loop ∧ proxies w3 !! p = Some proxy ∧
    p_spec proxy = spec_of key target token service_name ∧ dget (p_channels proxy) loop = Some c ∧
    chans w3 !! c = Some (create_channel proxy loop).
Proof.
  intros Hr Hb Hr2 Hu. pose proof (reachable_ok w t Hr) as I.
  destruct (step_ok w t w1 t I) as [I1 _].
  { pose proof (step_build key target token service_name w t) as Hs. by rewrite Hb in Hs. }
  destruct (build_Ok _ _ _ _ _ _ _ _ I Hb) as (proxy1 & Hp1 & Hspec).
  destruct (runs_ok (w1, t) (w2, t2) I1 Hr2) as [I2 K]. cbn in I2, K.
  destruct (K p proxy1 Hp1) as (proxy & Hp & Hs & _). rewrite Hspec in Hs.
  pose proof (step_use_ok ls p w2 t2 I2) as [I3 _]. rewrite Hu in I3. cbn in I3. split; [done|].
  destruct (use_spec _ _ _ _ _ Hu) as (loop & P & Hl & HP & Hc). rewrite Hp in HP. injection HP as <-.
  exists loop. assert (∃ proxy3, proxies w3 !! p = Some proxy3 ∧ p_spec proxy3 = p_spec proxy ∧ dget (p_channels proxy3) loop = Some c)
    as (proxy3 & Hp3 & Hs3 & Hd3).
  { destruct Hc as [[Hd ->]|(Hd & -> & ->)]; [by exists proxy|]. cbn [proxies set_proxies set_chans].
    rewrite alter_lookup, Hp, decide_True by done. eexists. split; [done|]. split; [done|]. apply dget_dset_eq. }
  exists proxy3. split_and!; [done|done|congruence|done|].
  apply (inv_chan _ _ I3 p); [done|]. by apply dget_elem.
Qed.
(** A built proxy stays. *)
Lemma built_stays key target token service_name w t p w1 w2 t2 :
  runs step (start, []) (w, t) → build_shared_channel key target token service_name w = (Ok p, w1) →
  runs step (w1, t) (w2, t2) → ∃ proxy, proxies w2 !! p = Some proxy.
Proof.
  intros Hr Hb Hr2. pose proof (reachable_ok w t Hr) as I.
  destruct (step_ok w t w1 t I) as [I1 _].
  { pose proof (step_build key target token service_name w t) as Hs. by rewrite Hb in Hs. }
  destruct (build_Ok _ _ _ _ _ _ _ _ I Hb) as (proxy1 & Hp1 & _).
  destruct (runs_ok (w1, t) (w2, t2) I1 Hr2) as [_ K]. destruct (K p proxy1 Hp1) as (proxy & Hp & _). by exists proxy.
Qed.

(** C15: whatever was built, used, closed and forgotten before and since, a
    call through a shared channel goes out on an open channel of the running
    loop that carries the target and, as its only token, the one the channel
    was built with; no other proxy and no other loop uses that channel, and
    the next call on the loop goes out on the same one.  It fails only
    outside a running loop. *)
Theorem calls_use_their_own_channel key target token service_name w t p w1 w2 t2 ls k method :
  runs step (start, []) (w, t) → build_shared_channel key target token service_name w = (Ok p, w1) →
  runs step (w1, t) (w2, t2) →
  match resolve ls (multi_callable k p method) w2 with
  | (Raise e, w3) => e = no_running_loop ∧ current ls = None ∧ w3 = w2
  | (Ok (c, k', method'), w3) =>
      k' = k ∧ method' = method ∧ ∃ loop ch, current ls = Some loop ∧ chans w3 !! c = Some ch ∧
      c_closed ch = false ∧ c_loop ch = loop ∧ c_target ch = strip target ∧
      (∀ tok, internal_token tok ∈ c_interceptors ch ↔ token_of token = Some tok) ∧
      (∀ q proxy loop', proxies w3 !! q = Some proxy → (loop', c) ∈ p_channels proxy → q = p ∧ loop' = loop) ∧
      ∀ k2 method2, resolve ls (multi_callable k2 p method2) w3 = (Ok (c, k2, method2), w3)
  end.
Proof.
  intros Hr Hb Hr2. unfold resolve, se_bind. cbn [mc_channel multi_callable].
  destruct (get_or_create_channel ls p w2) as [[c|e] w3] eqn:Hu; cycle 1.
  { destruct (built_stays _ _ _ _ _ _ _ _ _ _ Hr Hb Hr2) as (proxy & Hp).
    unfold get_or_create_channel in Hu. rewrite Hp in Hu. destruct (current ls) as [loop|]; [|by injection Hu as <- <-].
    by destruct (dget (p_channels proxy) loop). }
  cbn. split; [done|]. split; [done|].
  destruct (call_channel _ _ _ _ _ _ _ _ _ _ _ _ _ Hr Hb Hr2 Hu) as (I3 & loop & proxy & Hl & Hp & Hs & Hd & Hc).
  exists loop, (create_channel proxy loop). split; [done|]. split; [done|].
  unfold create_channel. rewrite Hs. cbn [c_closed c_loop c_target c_interceptors].
  split; [done|]. split; [done|]. split; [done|]. split; [|split].
  - intros tok. cbn. destruct (token_of token) as [u|]; rewrite !elem_of_cons, ?list_elem_of_singleton; [|set_solver].
    split; [intros [?|[?|[[= ->]|[]%not_elem_of_nil]]]; done|intros [= ->]; right; right; by left].
  - intros q Q loop' HQ Hq. by destruct (inv_once _ _ I3 q p Q proxy loop' loop c HQ Hp Hq (dget_elem _ _ _ Hd)).
  - intros k2 method2. unfold get_or_create_channel. rewrite Hl, Hp, Hd. done.
Qed.

(** *** What closing closes *)

Definition closed (ch : Channel) : Channel :=
  {| c_target := c_target ch; c_options := c_options ch; c_interceptors := c_interceptors ch;
     c_loop := c_loop ch; c_closed := true |}.
(** [c] is the channel of one of the proxies [ps] for [loop]. *)
Definition held (w : World) (ps : nat → Prop) (loop c : nat) : Prop :=
  ∃ p proxy, ps p ∧ proxies w !! p = Some proxy ∧ (loop, c) ∈ p_channels proxy.
(** [w'] is [w] with the channels [P] closed that belong to loops that can
    close them, and no others. *)
Record closes (ls : Loops) (P : nat → nat → Prop) (w w' : World) : Prop := {
  closes_reg : reg w' = reg w;
  closes_in loop c : P loop c → reachable_loop ls loop = true → chans w' !! c = closed <$> chans w !! c;
  closes_out c : (∀ loop, P loop c → reachable_loop ls loop = false) → chans w' !! c = chans w !! c;
  closes_or c : chans w' !! c = chans w !! c ∨ chans w' !! c = closed <$> chans w !! c }.
Lemma closed_closed (o : option Channel) : closed <$> (closed <$> o) = closed <$> o.
Proof. by destruct o. Qed.
Lemma closes_refl ls w : closes ls (λ _ _, False) w w.
Proof. constructor; auto. done. Qed.
Lemma closes_trans ls P Q w1 w2 w3 : closes ls P w1 w2 → closes ls Q w2 w3 → closes ls (λ l c, P l c ∨ Q l c) w1 w3.
Proof.
  intros [A1 A2 A3 A4] [B1 B2 B3 B4]. constructor; [congruence| | |].
  - intros loop c [HP|HQ] Hr.
    + destruct (B4 c) as [->| ->]; by rewrite (A2 loop c HP Hr), ?closed_closed.
    + rewrite (B2 loop c HQ Hr). by destruct (A4 c) as [->| ->]; rewrite ?closed_closed.
  - intros c Hn. rewrite B3, A3; [done|intros loop HP; apply Hn; by left|intros loop HQ; apply Hn; by right].
  - intros c. destruct (B4 c) as [->| ->], (A4 c) as [->| ->]; rewrite ?closed_closed; auto.
Qed.
Lemma closes_ext ls (P Q : nat → nat → Prop) w w' : (∀ l c, P l c ↔ Q l c) → closes ls P w w' → closes ls Q w w'.
Proof.
  intros HPQ [A1 A2 A3 A4]. constructor; [done| | |done].
  - intros loop c HQ. apply A2. by apply HPQ.
  - intros c Hn. apply A3. intros loop HP. by apply Hn, HPQ.
Qed.
Lemma close_channel_closes ls loop c w :
  ∃ w', close_channel ls (λ _, false) loop c w = (Ok tt, w') ∧ closes ls (λ l c', l = loop ∧ c' = c) w w' ∧ proxies w' = proxies w.
Proof.
  assert (close_channel ls (λ _, false) loop c w =
    if reachable_loop ls loop then (Ok tt, set_chans (alter closed c) w) else (Ok tt, w)) as ->.
  { unfold close_channel, close_real, reachable_loop. by destruct (bool_decide _), (is_running ls loop && _). }
  destruct (reachable_loop ls loop) eqn:Hr; eexists; (split; [done|]); (split; [|done]); constructor; try done.
  - intros l c' [-> ->] _. cbn. by rewrite alter_lookup, decide_True.
  - intros c' Hn. cbn. rewrite alter_lookup. case_decide as Hc; [|done]. subst. by rewrite (Hn loop) in Hr.
  - intros c'. cbn. rewrite alter_lookup. case_decide; auto.
  - intros l c' [-> ->] Hr'. congruence.
  - intros c'. by left.
Qed.
Lemma close_channels_closes ls l : ∀ w, ∃ w', close_channels ls (λ _, false) l w = (Ok tt, w') ∧
  closes ls (λ loop c, (loop, c) ∈ l) w w' ∧ proxies w' = proxies w.
Proof.
  induction l as [|[loop c] l IH]; intros w; cbn.
  { exists w. split; [done|]. split; [|done]. eapply closes_ext; [|apply closes_refl].
    intros l c. split; [done|apply not_elem_of_nil]. }
  unfold se_bind. destruct (close_channel_closes ls loop c w) as (w1 & -> & H1 & P1).
  destruct (IH w1) as (w2 & -> & H2 & P2). exists w2. split; [done|]. split; [|congruence].
  eapply closes_ext; [|by eapply closes_trans]. intros l' c'. rewrite elem_of_cons. naive_solver.
Qed.
(** A proxy gives up its channels, which are closed. *)
Definition emptied (ps : nat → Prop) (w w' : World) : Prop := ∀ p,
  (ps p → proxies w' !! p = set_channels (λ _, []) <$> proxies w !! p) ∧ (¬ ps p → proxies w' !! p = proxies w !! p).
Lemma close_proxy_closes ls p w : ∃ w', close_proxy ls (λ _, false) p w = (Ok tt, w') ∧
  closes ls (held w (λ q, q = p)) w w' ∧ emptied (λ q, q = p) w w'.
Proof.
  unfold close_proxy, se_bind, swap_channels. set (l := match proxies w !! p with Some _ => _ | None => _ end).
  set (w1 := set_proxies _ w). destruct (close_channels_closes ls l w1) as (w' & -> & [A1 A2 A3 A4] & Hp).
  exists w'. split; [done|]. split.
  - eapply (closes_ext _ (λ loop c, (loop, c) ∈ l)); [|by constructor]. intros loop c. unfold held, l. split.
    + destruct (proxies w !! p) as [proxy|] eqn:He; [|by intros ?%not_elem_of_nil]. intros Hin. by exists p, proxy.
    + by intros (q & proxy & -> & -> & Hin).
  - intros q. rewrite Hp. cbn. rewrite alter_lookup. by split; intros; case_decide.
Qed.
Lemma close_all_closes ls (l : list (string * option nat)) : ∀ w, ∃ w',
  close_all (close_proxy ls (λ _, false)) l w = (Ok tt, w') ∧
  closes ls (held w (λ p, ∃ k, (k, Some p) ∈ l)) w w' ∧ emptied (λ p, ∃ k, (k, Some p) ∈ l) w w'.
Proof.
  induction l as [|[k [p|]] l IH]; intros w; cbn.
  - exists w. split; [done|]. split.
    + eapply closes_ext; [|apply closes_refl]. intros loop c. split; [done|].
      by intros (p & proxy & [k ?%not_elem_of_nil] & _).
    + intros p. split; [by intros [k ?%not_elem_of_nil]|done].
  - unfold se_bind. destruct (close_proxy_closes ls p w) as (w1 & -> & H1 & E1).
    destruct (IH w1) as (w2 & -> & H2 & E2). exists w2. split; [done|]. split.
    + eapply closes_ext; [|by eapply closes_trans]. intros loop c. split.
      * intros [(q & proxy & -> & Hq & Hin)|(q & proxy & [k' Hk'] & Hq & Hin)].
        { exists p, proxy. split_and!; [exists k; left|done|done]. }
        destruct (decide (q = p)) as [->|Hne].
        { rewrite (proj1 (E1 p)) in Hq by done. destruct (proxies w !! p); [|done]. injection Hq as <-.
          by apply not_elem_of_nil in Hin. }
        rewrite (proj2 (E1 q)) in Hq by done. exists q, proxy. split_and!; [exists k'; by right|done|done].
      * intros (q & proxy & [k' Hk'] & Hq & Hin). destruct (decide (q = p)) as [->|Hne]; [left; by exists p, proxy|].
        right. exists q, proxy. rewrite (proj2 (E1 q)) by done. split_and!; [|done|done]. exists k'.
        apply elem_of_cons in Hk' as [[= -> ->]|?]; [done|done].
    + intros q. destruct (E1 q) as [E1a E1b], (E2 q) as [E2a E2b]. split.
      * intros [k' Hk']. destruct (decide (q = p)) as [->|Hne].
        { destruct (decide (Exists (λ x, x.2 = Some p) l)) as [Hd|Hd].
          - apply Exists_exists in Hd as ([k2 o] & Hd & Ho). cbn in Ho. subst o. rewrite E2a, E1a by (try done; by exists k2).
            by destruct (proxies w !! p).
          - rewrite E2b, E1a; [done|done|]. intros [k2 Hk2]. apply Hd, Exists_exists. by eexists. }
        rewrite <-E1b by done. apply E2a. exists k'. apply elem_of_cons in Hk' as [[= -> ->]|?]; done.
      * intros Hn. rewrite E2b, E1b; [done|intros ->; apply Hn; exists k; left|].
        intros [k' Hk']. apply Hn. exists k'. by right.
  - destruct (IH w) as (w' & -> & H1 & E1). exists w'. split; [done|].
    assert (∀ p, (∃ k', (k', Some p) ∈ (k, None) :: l) ↔ ∃ k', (k', Some p) ∈ l) as Heq.
    { intros p. split; intros [k' Hk']; exists k'; [|by right]. by apply elem_of_cons in Hk' as [?|?]. }
    split.
    + eapply closes_ext; [|exact H1]. intros loop c. unfold held. by setoid_rewrite Heq.
    + intros p. destruct (E1 p). by rewrite Heq.
Qed.
Lemma take_Ok keys w : ∃ l w', take (E:=Error) keys w = (Ok l, w').
Proof. unfold take. destruct (normalize_keys keys); [|destruct (pop_all _ _)]; by eexists _, _. Qed.

(** Closing ends the channels it names and no others: when no channel
    fails to close, the named keys (all of them, if none is named) are free
    again; the proxies behind them hold nothing any more, and each channel
    they had for the caller's loop or another running one is closed; every
    other proxy keeps its channels, open. *)
Lemma closing_closes_what_it_names ls keys w t r w' :
  runs step (start, []) (w, t) → close_shared_channels ls (λ _, false) keys w = (r, w') →
  r = Ok tt ∧
  (∀ k, dget (shared (reg w')) k = if decide (named keys k) then None else dget (shared (reg w)) k) ∧
  ∀ p proxy, proxies w !! p = Some proxy →
    ((∃ k, named keys k ∧ dget (shared (reg w)) k = Some p) →
       proxies w' !! p = Some (set_channels (λ _, []) proxy) ∧
       ∀ loop c, (loop, c) ∈ p_channels proxy →
         ∃ ch, chans w' !! c = Some ch ∧ c_closed ch = reachable_loop ls loop) ∧
    (¬ (∃ k, named keys k ∧ dget (shared (reg w)) k = Some p) →
       proxies w' !! p = Some proxy ∧
       ∀ loop c, (loop, c) ∈ p_channels proxy → ∃ ch, chans w' !! c = Some ch ∧ c_closed ch = false).
Proof.
  intros Hr. pose proof (reachable_ok w t Hr) as I. pose proof (inv_reg _ _ I : registry_ok (view w)) as Hreg.
  unfold close_shared_channels, close_shared, se_bind. destruct (take_Ok keys w) as (l & w1 & Ht). rewrite Ht.
  destruct (take_spec keys w l w1 Hreg Ht) as (r1 & -> & _ & Hs & _ & Hl).
  destruct (close_all_closes ls l (put r1 w)) as (w2 & -> & [A1 A2 A3 _] & He). intros [= <- <-].
  split; [done|]. split; [intros k; rewrite A1; apply Hs|]. intros p proxy Hp.
  assert (∀ q, (∃ k, (k, Some q) ∈ l) ↔ ∃ k, named keys k ∧ dget (shared (reg w)) k = Some q) as Hq
    by (intros q; split; intros [k Hk]; exists k; by apply Hl).
  destruct (He p) as [He1 He2]. rewrite Hq in He1, He2. split; intros Hd.
  - rewrite He1 by done. change (proxies (put r1 w)) with (proxies w). rewrite Hp. split; [done|]. intros loop c Hin.
    pose proof (inv_chan _ _ I p proxy loop c Hp Hin) as Hc. destruct (reachable_loop ls loop) eqn:Hrl.
    + rewrite (A2 loop c); [|exists p, proxy; by rewrite Hq|done]. change (chans (put r1 w)) with (chans w). rewrite Hc. by eexists.
    + rewrite A3; [change (chans (put r1 w)) with (chans w); rewrite Hc; by eexists|].
      intros loop' (q & Q & _ & HQ & HinQ). by destruct (inv_once _ _ I p q proxy Q loop loop' c Hp HQ Hin HinQ) as [_ <-].
  - rewrite He2 by done. split; [done|]. intros loop c Hin. rewrite A3.
    + change (chans (put r1 w)) with (chans w). rewrite (inv_chan _ _ I p proxy loop c Hp Hin). by eexists.
    + intros loop' (q & Q & HqQ & HQ & HinQ). destruct (inv_once _ _ I p q proxy Q loop loop' c Hp HQ Hin HinQ) as [<- _].
      by rewrite Hq in HqQ.
Qed.

(** *** Where closing does too much or too little *)

(** A close that names only blank keys closes everything. *)
Lemma blank_close_closes_all ls keys w t r w' : runs step (start, []) (w, t) →
  (∀ x, x ∈ keys → strip x = EmptyString) → close_shared_channels ls (λ _, false) keys w = (r, w') →
  ∀ k, dget (shared (reg w')) k = None.
Proof.
  intros Hr Hb. unfold close_shared_channels, close_shared, se_bind. pose proof (reachable_ok w t Hr) as I.
  pose proof (inv_reg _ _ I : registry_ok (view w)) as Hreg. destruct (take_Ok keys w) as (l & w1 & Ht). rewrite Ht.
  destruct (take_spec keys w l w1 Hreg Ht) as (r1 & -> & _ & Hs & _ & _).
  destruct (close_all_closes ls l (put r1 w)) as (w2 & -> & [A1 _ _ _] & _). intros [= _ <-] k.
  rewrite A1. change (reg (put r1 w)) with r1. rewrite Hs, decide_True; [done|]. by apply blank_keys_name_all.
Qed.

(** A running example: two clients of one upstream, a third of another; the
    first is used on loop 1, the third on loops 1 and 2. *)
Definition on_loop (n : nat) : Loops := {| current := Some n; is_running := λ m, (m =? 1)%nat; is_closed := λ _, false |}.
Definition demo_build : SE World Error (nat * nat) :=
  let* a := build_grpc_client "users.api" "users:50051" 5 (Some " s3cret ")%string None in
  let* b := build_grpc_client " users.api" "users:50051" 9 (Some "s3cret")%string None in
  let* c := build_grpc_client "votes" "votes:50051" 5 None (Some "votes-service")%string in
  do* get_or_create_channel (on_loop 1) (channel a) in
  do* get_or_create_channel (on_loop 2) (channel c) in
  do* get_or_create_channel (on_loop 1) (channel c) in
  se_ret (channel a, channel b).
Definition demo : World := (demo_build start).2.
(** The clients share a proxy: when one closes, the other's channel is closed,
    and what the other opens from then on no close of shared channels will
    ever reach. *)
Lemma closing_a_client_closes_its_twin :
  (demo_build start).1 = Ok (0, 0)%nat ∧
  let w := (client_close (on_loop 1) (λ _, false) {| key := "users.api"; timeout_seconds := 5; channel := 0 |} demo).2 in
  (c_closed <$> chans w) = [true; false; false] ∧
  let w2 := (get_or_create_channel (on_loop 1) 0 w).2 in
  let w3 := (close_shared_channels (on_loop 1) (λ _, false) [] w2).2 in
  (c_closed <$> chans w3) = [true; false; true; false] ∧ (p_channels <$> proxies w3) = [[(1, 3)]; []]%nat.
Proof. by vm_compute. Qed.
(** One channel that fails to close leaves those after it open, although they
    left the registry. *)
Lemma a_failed_close_drops_the_rest :
  let '(r, w) := close_shared_channels (on_loop 1) (λ c, (c =? 0)%nat) [] demo in
  r = Raise close_failed ∧ shared (reg w) = [] ∧ (c_closed <$> chans w) = [false; false; false].
Proof. by vm_compute. Qed.

Definition after_builds : World :=
  let b k t tok s w := (build_shared_channel k t tok s w).2 in
  b "votes" "votes:50051" None (Some "votes-service") (b "users.api" "users:50051" (Some "s3cret") None start).
Definition after_uses : World :=
  let u n p w := (get_or_create_channel (on_loop n) p w).2 in u 1%nat 1%nat (u 2%nat 1%nat (u 1%nat 0%nat after_builds)).
Lemma demo_channels_reachable : runs step (start, []) (demo, []).
Proof.
  assert (demo = after_uses) as -> by (by vm_compute). unfold after_uses, after_builds.
  do 5 (eapply runs_step; [|by constructor]). constructor.
Qed.
Lemma calls_use_their_own_channel_witness :
  ∃ c w3 ch, resolve (on_loop 1) (multi_callable unary_unary 0 "/users.v1.Users/Get") after_uses =
      (Ok (c, unary_unary, "/users.v1.Users/Get"), w3) ∧
    chans w3 !! c = Some ch ∧ c_closed ch = false ∧ c_target ch = "users:50051" ∧
    internal_token "s3cret" ∈ c_interceptors ch.
Proof.
  assert (runs step ((build_shared_channel "users.api" " users:50051 " (Some "s3cret ") None start).2, []) (after_uses, [])) as Hr.
  { unfold after_uses, after_builds. do 4 (eapply runs_step; [|by constructor]). constructor. }
  pose proof (calls_use_their_own_channel "users.api" " users:50051 " (Some "s3cret ") None start [] 0 _ after_uses []
    (on_loop 1) unary_unary "/users.v1.Users/Get" (runs_refl step (start, [])) eq_refl Hr) as Hall.
  destruct (resolve (on_loop 1) (multi_callable unary_unary 0 "/users.v1.Users/Get") after_uses) as [[[[c k] m]|e] w3] eqn:Hres.
  - destruct Hall as (-> & -> & loop & ch & _ & Hc & Ho & _ & Ht & Htok & _). exists c, w3, ch.
    split; [done|]. split; [done|]. split; [done|]. split; [exact Ht|]. by apply Htok.
  - exfalso. by destruct Hall as (_ & Hl & _).
Defined.
Lemma closing_closes_what_it_names_witness :
  let w' := (close_shared_channels (on_loop 1) (λ _, false) ["votes"] demo).2 in
  dget (shared (reg w')) "votes" = None ∧ dget (shared (reg w')) "users.api" = Some 0%nat ∧
  proxies w' !! 0%nat = proxies demo !! 0%nat ∧
  ∃ ch, chans w' !! 2%nat = Some ch ∧ c_closed ch = true.
Proof.
  destruct (close_shared_channels (on_loop 1) (λ _, false) ["votes"] demo) as [r w'] eqn:Hc. cbn [snd].
  destruct (closing_closes_what_it_names (on_loop 1) ["votes"] demo [] r w' demo_channels_reachable Hc) as (_ & Hreg & Hall).
  split; [by rewrite Hreg|]. split; [by rewrite Hreg|].
  destruct (proxies demo !! 0%nat) as [P0|] eqn:H0; [|by vm_compute in H0].
  destruct (proxies demo !! 1%nat) as [P1|] eqn:H1; [|by vm_compute in H1].
  split.
  - destruct (Hall 0%nat P0 H0) as [_ Hk]. apply Hk. intros (k & Hn & Hk0). vm_compute in Hn. 
    apply list_elem_of_singleton in Hn as ->. by vm_compute in Hk0.
  - destruct (Hall 1%nat P1 H1) as [Hk _]. destruct Hk as [_ Hk].
    { exists "votes". split; [|by vm_compute]. by apply (bool_decide_eq_true_1 (named ["votes"] "votes")). }
    apply (Hk 1%nat 2%nat). vm_compute in H1. injection H1 as <-. cbn. by (left + right; left).
Defined.
End Channels.

(** ** HTTP *)

Module Http.
Import Registry.

Section http.
(** [httpx]'s timeouts and limits: their equality, the timeout of a number of
    seconds, and the limits the code falls back to. *)
Context {T L : Type} `{EqDecision T} `{EqDecision L} (Timeout : Q → T) (default_limits : L).

Record Spec := {
  base_url : option string; timeout : T; headers : list (string * string); follow_redirects : bool;
  limits : option L; retries : Z }.
#[export] Instance Spec_eq_dec : EqDecision Spec.
Proof. solve_decision. Defined.
(** An [httpx.AsyncClient] and its options; [transport] holds its retries and limits. *)
Record AsyncClient := {
  o_timeout : T; o_headers : list (string * string); o_follow_redirects : bool; o_base_url : option string;
  o_transport : option (Z * L); o_limits : option L; is_closed : bool }.
Record World := { reg : Registry nat Spec; clients : list AsyncClient }.
#[export] Instance registry_lens : Lens World (Registry nat Spec).
Proof.
  by refine {| view := reg; put := λ r w, {| reg := r; clients := clients w |} |};
    intros; repeat match goal with w : World |- _ => destruct w end.
Defined.
Inductive Error := refused (r : Refusal) | close_failed.

(** [_normalize_headers] *)
Definition normalize_headers (headers : option (list (string * string))) : list (string * string) :=
  match headers with Some h => py_sort pair_leb h | None => [] end.
Record Args := {
  a_key : string; a_base_url : option string; a_timeout_seconds : Q; a_headers : option (list (string * string));
  a_follow_redirects : bool; a_timeout : option T; a_limits : option L; a_retries : Z }.
Definition spec_of (a : Args) : Spec :=
  {| base_url := str_or_none (strip (default EmptyString (a_base_url a)));
     timeout := match a_timeout a with Some t => t | None => Timeout (a_timeout_seconds a) end;
     headers := normalize_headers (a_headers a); follow_redirects := a_follow_redirects a;
     limits := a_limits a; retries := Z.max 0 (a_retries a) |}.
Definition new_client (s : Spec) : AsyncClient :=
  let retrying := negb (retries s =? 0) in
  {| o_timeout := timeout s; o_headers := headers s; o_follow_redirects := follow_redirects s;
     o_base_url := base_url s;
     o_transport := if retrying then Some (retries s, default default_limits (limits s)) else None;
     o_limits := if retrying then None else limits s; is_closed := false |}.
Definition create_client (s : Spec) (w : World) : nat * World :=
  (length (clients w), {| reg := reg w; clients := clients w ++ [new_client s] |}).
(** [build_shared_async_client], [close_shared_async_clients] *)
Definition build_shared_async_client (a : Args) : SE World Error nat :=
  let key := strip (a_key a) in
  if is_empty key then se_raise (refused empty_key)
  else acquire refused key (spec_of a) (create_client (spec_of a)).
Definition aclose (fails : nat → bool) (c : nat) : SE World Error unit := λ w,
  if fails c then (Raise close_failed, w)
  else (Ok tt, {| reg := reg w; clients := alter (λ k,
         {| o_timeout := o_timeout k; o_headers := o_headers k; o_follow_redirects := o_follow_redirects k;
            o_base_url := o_base_url k; o_transport := o_transport k; o_limits := o_limits k; is_closed := true |}) c (clients w) |}).
Definition close_shared_async_clients (fails : nat → bool) (keys : list string) : SE World Error unit :=
  close_shared (aclose fails) keys.

(** The same configuration gets the same client: blanks around the key and
    the URL, the order of the headers and a negative number of retries do not
    make it another. *)
Lemma same_configuration (a b : Args) :
  a_base_url b = a_base_url a → a_timeout b = a_timeout a → a_timeout_seconds b = a_timeout_seconds a →
  default [] (a_headers b) ≡ₚ default [] (a_headers a) → a_follow_redirects b = a_follow_redirects a →
  a_limits b = a_limits a → Z.max 0 (a_retries b) = Z.max 0 (a_retries a) → spec_of b = spec_of a.
Proof.
  intros H1 H2 H3 H4 H5 H6 H7. unfold spec_of. rewrite H1, H2, H3, H5, H6, H7. f_equal.
  assert (∀ h, normalize_headers h = py_sort pair_leb (default [] h)) as Hn by by intros [].
  rewrite !Hn. apply py_sort_unique; [apply leb_total|apply leb_trans|apply leb_antisym|done].
Qed.
(** What is built is kept under its key with the client made for it, until
    its key is closed; another configuration is refused and changes nothing. *)
Lemma shared_client (a b : Args) w c w1 : build_shared_async_client a w = (Ok c, w1) → strip (a_key b) = strip (a_key a) →
  build_shared_async_client b w1 =
    (if decide (spec_of b = spec_of a) then Ok c else Raise (refused (reused (strip (a_key a)))), w1).
Proof.
  unfold build_shared_async_client. intros Hb ->. destruct (is_empty (strip (a_key a))); [done|].
  destruct (acquire_Ok _ _ _ _ _ _ _ Hb) as [Hh Hs]. by apply acquire_known.
Qed.
(** A transport takes the limits over: they are never given twice. *)
Lemma limits_are_given_once s : o_transport (new_client s) = None ∨ o_limits (new_client s) = None.
Proof. unfold new_client; cbn. destruct (negb (retries s =? 0)); auto. Qed.
End http.
End Http.
