(* ===== verification/RemoteCalls.v ===== *)
(** * A call between two services

    The parts of the gRPC mesh put together: a client's shared channel with
    its interceptors (Channels, Jwt, Authorization), the wire, the chain of
    interceptors of the server (Server) and the translation of what comes back
    (GrpcErrors).  The theorem states what a remote call amounts to without
    any of them. *)

From S2P Require Import Prelude PyStr PyDict Handlers Authorization GrpcErrors Jwt Server Channels.
#[local] Open Scope string_scope.
#[local] Open Scope list_scope.
#[local] Open Scope Z_scope.

Module RemoteCalls.
Import Handlers Authorization Servicer Calls Ambient.
Abbreviation Metadata := (list (string * string)).

(** ** The wire

    What grpc promises of metadata: the keys of an application are lower
    case, and the values of a key arrive in the order they were sent; the
    library adds entries of its own, [user-agent] and those that begin with
    [grpc-]. *)

Definition values (k : string) (md : Metadata) : list string :=
  (List.filter (λ kv, bool_decide (kv.1 = k)) md).*2.
Definition lower_keys (md : Metadata) : Prop := ∀ kv, kv ∈ md → lower kv.1 = kv.1.
Definition of_application (k : string) : bool := negb (bool_decide (k = "user-agent") || startswith "grpc-" k).

(** And of the end of a call: [abort] ends it with its status, an exception
    of the servicer as UNKNOWN when no code was set, and a response without a
    status is the answer. *)
Class Transport (Amb Resp : Type) := {
  carry : Metadata → Metadata;
  carry_values md k : lower_keys md → of_application k = true → values k (carry md) = values k md;
  carry_lower md : lower_keys md → lower_keys (carry md);
  reply : result (Exn PyExn) (option Resp) → Call Amb Resp → result AioRpcError Resp;
  reply_answer x c : aborted c = None → code_set c = None → reply (Ok (Some x)) c = Ok x;
  reply_abort c st : aborted c = Some st →
    reply (Raise AbortError) c = Raise {| rpc_code := st.1; rpc_details := Some st.2 |};
  reply_crash e c : aborted c = None → code_set c = None →
    ∃ text, reply (Raise (Raised e)) c = Raise {| rpc_code := UNKNOWN; rpc_details := Some text |};
  unserved : AioRpcError }.

(** *** What the readers of metadata see *)

Lemma values_app k md md' : values k (md ++ md') = values k md ++ values k md'.
Proof. unfold values. by rewrite List.filter_app, fmap_app. Qed.
Lemma values_one k v : values k [(k, v)] = [v].
Proof. unfold values. cbn. by rewrite bool_decide_eq_true_2. Qed.
Lemma values_other k k' v : k' ≠ k → values k [(k', v)] = [].
Proof. intros Hk. unfold values. cbn. by rewrite bool_decide_eq_false_2. Qed.
Lemma first_value_values k md : lower_keys md → Jwt.first_value k md = head (values k md).
Proof.
  unfold values. induction md as [|[k' v] md IH]; intros Hl; [done|]. cbn [Jwt.first_value List.filter fst].
  unfold Jwt.is_key. cbn [fst]. rewrite (Hl (k', v) ltac:(by left) : lower k' = k'). case_bool_decide; [done|].
  apply IH. intros kv Hkv. apply Hl. by right.
Qed.
Lemma no_key_values k md : lower_keys md → existsb (Jwt.is_key k) md = false → values k md = [].
Proof.
  unfold values. induction md as [|[k' v] md IH]; intros Hl; [done|]. cbn [existsb List.filter fst].
  unfold Jwt.is_key at 1. cbn [fst]. rewrite (Hl (k', v) ltac:(by left) : lower k' = k'). intros [Hk He]%orb_false_iff. rewrite Hk.
  apply IH; [|done]. intros kv Hkv. apply Hl. by right.
Qed.
Lemma presented_values d : presented_token d = last (values "x-internal-token" (default [] (invocation_metadata d))).
Proof.
  unfold presented_token, metadata_dict. generalize (default [] (invocation_metadata d)) as md.
  induction md as [|[k v] md IH] using rev_ind; [done|].
  rewrite foldl_app, values_app. cbn [foldl fst snd].
  destruct (decide (k = "x-internal-token"%string)) as [->|Hk].
  - by rewrite dget_dset_eq, values_one, last_snoc.
  - by rewrite dget_dset_ne, values_other, app_nil_r by done.
Qed.
Lemma lower_keys_app md md' : lower_keys md → lower_keys md' → lower_keys (md ++ md').
Proof. intros H1 H2 kv [?|?]%elem_of_app; auto. Qed.
Lemma lower_keys_one k v : lower k = k → lower_keys [(k, v)].
Proof. by intros Hk kv ->%list_elem_of_singleton. Qed.

(** ** The client *)

(** The context variables of the calling task, and what each interceptor of
    its channel makes of the metadata of a call; the channel's interceptors
    are interceptors of unary calls, so grpc applies them to these only. *)
Record Task := { forwarded_jwt : option string; forwarded_on_behalf : option Z }.
Definition add_metadata (t : Task) (md : option Metadata) (i : Channels.Interceptor) : option Metadata :=
  match i with
  | Channels.metrics _ _ => md
  | Channels.jwt_forwarding => Jwt.intercept_unary_unary (forwarded_jwt t) (forwarded_on_behalf t) md
  | Channels.internal_token token => Some (client_metadata token md)
  end.
Definition outgoing (ch : Channels.Channel) (k : Channels.Kind) (t : Task) (md : option Metadata) : option Metadata :=
  match k with
  | Channels.unary_unary => foldl (add_metadata t) md (Channels.c_interceptors ch)
  | _ => md
  end.

(** A call's own metadata says nothing of who calls. *)
Definition plain_metadata (md : Metadata) : Prop :=
  lower_keys md ∧ existsb (Jwt.is_key Jwt.AUTHORIZATION_HEADER) md = false ∧
  existsb (Jwt.is_key Jwt.ON_BEHALF_METADATA) md = false.
(** What the task adds. *)
Definition bearer (t : Task) : option string := match forwarded_jwt t with Some j => str_or_none j | None => None end.
Definition identity_entries (t : Task) : Metadata :=
  match bearer t with
  | None => []
  | Some j => (Jwt.AUTHORIZATION_HEADER, "Bearer " +:+ j)%string ::
      match forwarded_on_behalf t with Some u => [(Jwt.ON_BEHALF_METADATA, str_int u)] | None => [] end
  end.
Lemma forwarding_adds t md : plain_metadata (default [] md) →
  default [] (Jwt.intercept_unary_unary (forwarded_jwt t) (forwarded_on_behalf t) md) = default [] md ++ identity_entries t.
Proof.
  intros (_ & Ha & Ho). unfold Jwt.intercept_unary_unary, identity_entries, bearer, str_or_none.
  destruct (forwarded_jwt t) as [j|]; [|by rewrite app_nil_r]. destruct (is_empty j); [by rewrite app_nil_r|].
  rewrite Ha, existsb_app, Ho. cbn. destruct (forwarded_on_behalf t); [|done]. cbn. by rewrite <-app_assoc.
Qed.
Lemma outgoing_unary proxy loop t md secret : plain_metadata (default [] md) →
  Channels.token (Channels.p_spec proxy) = Some secret →
  outgoing (Channels.create_channel proxy loop) Channels.unary_unary t md =
  Some (default [] md ++ identity_entries t ++ [("x-internal-token", secret)]%string).
Proof.
  intros Hmd Ht. unfold outgoing, Channels.create_channel. cbn [Channels.c_interceptors]. rewrite Ht. cbn.
  unfold client_metadata. by rewrite forwarding_adds, <-app_assoc.
Qed.
Lemma identity_entries_lower t : lower_keys (identity_entries t).
Proof.
  unfold identity_entries. destruct (bearer t); [|by intros kv ?%not_elem_of_nil]. destruct (forwarded_on_behalf t).
  - intros kv [->|[->|[]%not_elem_of_nil]%elem_of_cons]%elem_of_cons; done.
  - by apply lower_keys_one.
Qed.

(** A stream goes out with its own metadata only: no token, no identity. *)
Lemma streams_carry_no_token ch k t md : k ≠ Channels.unary_unary → outgoing ch k t md = md.
Proof. by destruct k. Qed.

(** ** The server *)

Section server.
Context {Req Resp P Codec : Type} `{LibraryErrors PyExn}.
Abbreviation Amb := (@Ambient P).
Context `{wire : Transport Amb Resp} (is_bot : P → bool) (status_of : PyExn → option Code).
Abbreviation Handler := (MethodHandler Req Resp PyExn Amb Codec).
Abbreviation Cont := (@Continuation Req Resp PyExn Amb Codec).
Abbreviation Args := (@Lifecycle.Args Req Resp P Codec).
Abbreviation PyServicer := (Handlers.Servicer Req Resp PyExn Amb).

Definition arriving (m : string) (md : option Metadata) : HandlerCallDetails :=
  {| method := Some m; invocation_metadata := Some (carry (default [] md)) |}.
(** Each call runs in a task of its own, whose context variables are those
    the server was started with. *)
Definition nobody : @Jwt.Vars P := {| Jwt.current_jwt_payload := None; Jwt.current_on_behalf := None |}.
Definition fresh (md : option Metadata) (counted : list Sample) : Call Amb Resp :=
  {| ambient := {| current_caller := None; jwt_vars := nobody; samples := counted |};
     metadata := Some (carry (default [] md)); sent := []; aborted := None; code_set := None; details_set := None |}.
Definition serve (k : Cont) (m : string) (md : option Metadata) (request : Req) (counted : list Sample) :
    result AioRpcError Resp * Call Amb Resp :=
  match k (arriving m md) with
  | Ok (Some h) =>
      match behaviour h with
      | Some s => let '(r, c) := run s request (fresh md counted) in (reply r c, c)
      | None => (Raise unserved, fresh md counted)
      end
  | _ => (Raise unserved, fresh md counted)
  end.
(** [GrpcClient.call] of a unary method through the channel [ch]. *)
Definition remote_call (cl : Channels.Client) (ch : Channels.Channel) (t : Task) (k : Cont) (m : string)
    (md : option Metadata) (request : Req) (counted : list Sample) (timeout : option Q) (resource rid : option string) :
    result CallError Resp * Call Amb Resp :=
  let '(r, c) := serve k m (outgoing ch Channels.unary_unary t md) request counted in
  (Channels.client_call true cl (λ _, match r with Ok x => Ok x | Raise e => Raise (rpc e) end) timeout resource rid None, c).

(** ** What a remote call is *)

(** How a servicer's run ends, and how the caller learns it. *)
Inductive Ending := answer (x : Resp) | failure (st : Code * string) | crash.
Inductive ends (r : result (Exn PyExn) (option Resp)) (c : Call Amb Resp) : Ending → Prop :=
  | ends_answer x : r = Ok (Some x) → aborted c = None → code_set c = None → ends r c (answer x)
  | ends_abort st : r = Raise AbortError → aborted c = Some st → ends r c (failure st)
  | ends_error e st : r = Raise (Raised e) → aborted c = None → domain_status e = Some st → ends r c (failure st)
  | ends_crash e : r = Raise (Raised e) → aborted c = None → code_set c = None → domain_status e = None → ends r c crash.
Definition delivered (resource rid : option string) (o : Ending) (r : result CallError Resp) : Prop :=
  match o with
  | answer x => r = Ok x
  | failure st => r = Raise (translated (Mesh.seen resource rid st) {| rpc_code := st.1; rpc_details := Some st.2 |})
  | crash => ∃ text, r = Raise (translated (Mesh.seen resource rid (UNKNOWN, text))
                                 {| rpc_code := UNKNOWN; rpc_details := Some text |})
  end.

(** The identity the calling task forwards, and what the servicer is told. *)
Definition proves (verify : string → Jwt.Verified (E:=PyExn) (P:=P)) (t : Task) : @Jwt.Identity PyExn P :=
  match bearer t with
  | None => Jwt.anonymous
  | Some j => match verify (strip j) with
              | Jwt.valid p => Jwt.proved p | Jwt.rejected => Jwt.refused Jwt.invalid_jwt | Jwt.interrupted e => Jwt.broken e
              end
  end.
Definition told (a : Args) (t : Task) : option (@Jwt.Vars P) :=
  match Lifecycle.jwt_verifier a with
  | None => Some nobody
  | Some verify =>
      match proves verify t with
      | Jwt.anonymous => Some nobody
      | Jwt.proved p => Some {| Jwt.current_jwt_payload := Some p;
                                Jwt.current_on_behalf := if is_bot p then forwarded_on_behalf t else None |}
      | _ => None
      end
  end.
(** A call of a listed method by the holder of [secret], with neither
    interceptors nor wire: the policy, the identity, and the servicer run as
    its caller.  [c] is the call before it is anybody's. *)
Inductive calls (a : Args) (secrets : list (string * string)) (admitted : list string) (s : PyServicer)
    (secret : string) (t : Task) (request : Req) (c : Call Amb Resp) : Ending → Prop :=
  | calls_unknown : (∀ name, (name, secret) ∉ secrets) → calls a secrets admitted s secret t request c (failure (refusal unauthenticated))
  | calls_uninvited name : (name, secret) ∈ secrets → name ∉ admitted →
      calls a secrets admitted s secret t request c (failure (refusal permission_denied))
  | calls_unproved name verify st : (name, secret) ∈ secrets → name ∈ admitted →
      Lifecycle.jwt_verifier a = Some verify → proves verify t = Jwt.refused st →
      calls a secrets admitted s secret t request c (failure st)
  | calls_run name v r c1 o : (name, secret) ∈ secrets → name ∈ admitted → told a t = Some v →
      run s request (Lifecycle.entered_as (Some name) v c) = (r, c1) → ends r c1 o →
      calls a secrets admitted s secret t request c o.

(** *** The wire in between *)

Section sent.
Context (proxy : Channels.Proxy) (loop : nat) (t : Task) (md : option Metadata) (secret : string).
Context (Hmd : plain_metadata (default [] md)) (Htoken : Channels.token (Channels.p_spec proxy) = Some secret).
Abbreviation ch := (Channels.create_channel proxy loop).
Abbreviation out := (outgoing ch Channels.unary_unary t md).

Lemma out_lower : lower_keys (default [] out).
Proof.
  rewrite outgoing_unary with (secret:=secret) by done. cbn [default from_option id].
  apply lower_keys_app; [by destruct Hmd|]. apply lower_keys_app; [apply identity_entries_lower|by apply lower_keys_one].
Qed.
Lemma out_values k : values k (default [] out) =
  values k (default [] md) ++ values k (identity_entries t) ++ values k [("x-internal-token", secret)]%string.
Proof. rewrite outgoing_unary with (secret:=secret) by done. cbn [default from_option id]. by rewrite !values_app. Qed.
(** The channel's token is the one the server reads, whatever the call's own
    metadata holds. *)
Lemma arriving_token m : presented_token (arriving m out) = Some secret.
Proof.
  rewrite presented_values. cbn [arriving invocation_metadata default from_option id].
  rewrite carry_values by first [apply out_lower|done]. by rewrite out_values, values_one, app_assoc, last_snoc.
Qed.
Lemma arriving_first k : of_application k = true → values k (default [] md) = [] → k ≠ "x-internal-token"%string →
  Jwt.first_value k (carry (default [] out)) = head (values k (identity_entries t)).
Proof.
  intros Ha Hn Hk. rewrite first_value_values by apply carry_lower, out_lower.
  rewrite carry_values by first [apply out_lower|done]. rewrite out_values, Hn, values_other, app_nil_r by done. done.
Qed.
Lemma arriving_identity verify : Jwt.identity verify (Some (carry (default [] out))) = proves verify t.
Proof.
  destruct Hmd as (Hl & Ha & _). unfold Jwt.identity, Jwt.read_authorization, proves. cbn [default from_option id].
  rewrite arriving_first by first [done|by apply no_key_values]. unfold identity_entries.
  destruct (bearer t) as [j|]; [|done]. cbn [values head List.filter fst].
  destruct (Jwt.bearer_prefix j) as (H1 & H2 & H3).
  replace (head _) with (Some ("Bearer " +:+ j)%string) by done.
  by rewrite H1, H2, H3.
Qed.
Lemma arriving_on_behalf : bearer t ≠ None → Jwt.read_on_behalf (Some (carry (default [] out))) = forwarded_on_behalf t.
Proof.
  destruct Hmd as (Hl & _ & Ho). intros Hb. unfold Jwt.read_on_behalf. cbn [default from_option id].
  rewrite arriving_first by first [done|by apply no_key_values]. unfold identity_entries.
  destruct (bearer t) as [j|]; [|done]. destruct (forwarded_on_behalf t) as [u|]; [|done].
  replace (head _) with (Some (str_int u)) by done.
  unfold py_int, strip. rewrite strip_idemp. apply py_int_str_int.
Qed.
Lemma arriving_bound a counted : Lifecycle.bound is_bot a (fresh out counted) = told a t.
Proof.
  unfold Lifecycle.bound, told. destruct (Lifecycle.jwt_verifier a) as [verify|]; [|done].
  cbn [metadata fresh]. rewrite arriving_identity. destruct (proves verify t) as [|st|p|e] eqn:Hp; try done.
  unfold Jwt.bind_payload. rewrite arriving_on_behalf; [|intros Hb; unfold proves in Hp; by rewrite Hb in Hp].
  cbn. by destruct (is_bot p), (forwarded_on_behalf t).
Qed.
End sent.

(** A server that offers the method [m] to the callers [admitted], known by
    their [secrets]. *)
Record offers (a : Args) (ics : list (Cont → Cont)) (handlers : string → option Handler) (m : string)
    (secrets : list (string * string)) (admitted : list string) (h : Handler) (s : PyServicer) : Prop := {
  offers_chain : Lifecycle.interceptors is_bot status_of a = Ok ics;
  offers_method : Lifecycle.plain_method m;
  offers_handler : handlers m = Some h;
  offers_unary : well_formed h s ∧ request_streaming h = false ∧ response_streaming h = false ∧ is_async s = true;
  offers_listed : ∃ p, Lifecycle.caller_policy a = Some p ∧ caller_credentials secrets = Ok (_callers p) ∧
    dget (_rules p) m = Some admitted }.

(** What the wire brings back. *)
Definition replied (o : Ending) (x : result AioRpcError Resp) : Prop :=
  match o with
  | answer y => x = Ok y
  | failure st => x = Raise {| rpc_code := st.1; rpc_details := Some st.2 |}
  | crash => ∃ text, x = Raise {| rpc_code := UNKNOWN; rpc_details := Some text |}
  end.
Lemma replied_delivered cl timeout resource rid o x : replied o x →
  delivered resource rid o (Channels.client_call true cl
    (λ _, match x with Ok y => Ok y | Raise e => Raise (rpc e) end) timeout resource rid None).
Proof.
  destruct o as [y|st|]; cbn [replied delivered]; [by intros ->|by intros ->|]. intros [text ->]. by exists text.
Qed.
(** The server's last sample is the call, under the status the caller gets. *)
Definition counted_as (service m : string) (o : Ending) (c : Call Amb Resp) : Prop :=
  ∃ code, last (samples (ambient c)) = Some (Metrics.sample service m code) ∧
    match o with answer _ => code = OK | failure st => code = st.1 | crash => True end.

Section offered.
Context (a : Args) (ics : list (Cont → Cont)) (handlers : string → option Handler) (m : string).
Context (secrets : list (string * string)) (admitted : list string) (h : Handler) (s : PyServicer).
Context (Hoff : offers a ics handlers m secrets admitted h s).
Abbreviation chain := (Lifecycle.chain ics (Lifecycle.lookup_handler handlers)).

Lemma serve_by out request counted h' s' r c : chain (arriving m out) = Ok (Some h') → well_formed h' s' →
  run s' request (fresh out counted) = (r, c) → serve chain m out request counted = (reply r c, c).
Proof.
  intros Hc Hw Hr. unfold serve. rewrite Hc, (behaviour_well_formed _ _ Hw). by rewrite Hr.
Qed.
Lemma serve_refused out request counted st : Lifecycle.denied a (arriving m out) m st →
  ∃ c, serve chain m out request counted = (Raise {| rpc_code := st.1; rpc_details := Some st.2 |}, c) ∧
    current_caller (ambient c) = None ∧ counted_as (Lifecycle.service_name a) m (failure st) c.
Proof.
  intros Hden. destruct Hoff as [Hics Hm Hh (Hw & _) _].
  destruct (Lifecycle.denied_chain is_bot status_of a ics handlers (arriving m out) m h s st Hics eq_refl Hm Hh Hw Hden)
    as (h' & s1 & Hc & Hw' & _ & Hrun).
  eexists. rewrite (serve_by _ _ _ _ _ _ _ Hc Hw' (Metrics.counted_run status_of _ _ _ _ _ _ _ (Hrun request (fresh out counted) eq_refl))).
  split; [by rewrite (reply_abort _ st)|]. split; [done|]. exists st.1. split; [|done]. apply last_snoc.
Qed.
Lemma sender out secret : presented_token (arriving m out) = Some secret →
  ∃ p, Lifecycle.caller_policy a = Some p ∧ dget (_rules p) m = Some admitted ∧
    ∀ name, resolve (_callers p) (presented_token (arriving m out)) = Some name ↔ (name, secret) ∈ secrets.
Proof.
  intros Ht. destruct (offers_listed _ _ _ _ _ _ _ _ Hoff) as (p & Hp & Hcr & Hr). exists p. split_and!; [done|done|].
  intros name. destruct (resolve_spec _ _ Hcr) as [_ Hres]. rewrite Hres, Ht. split; [by intros (? & [= <-] & ?)|by exists secret].
Qed.
(** A run of the servicer as the caller [name]. *)
Lemma serve_passed out request counted name : Lifecycle.passes a (arriving m out) m (Some name) →
  (∀ v r c1 o, Lifecycle.bound is_bot a (fresh out counted) = Some v →
    run s request (Lifecycle.entered_as (Some name) v (fresh out counted)) = (r, c1) → ends r c1 o →
    ∃ x c, serve chain m out request counted = (x, c) ∧ current_caller (ambient c) = None ∧
      counted_as (Lifecycle.service_name a) m o c ∧
      replied o x) ∧
  (∀ verify st, Lifecycle.jwt_verifier a = Some verify →
    Jwt.identity verify (metadata (fresh out counted)) = Jwt.refused st →
    ∃ c, serve chain m out request counted = (Raise {| rpc_code := st.1; rpc_details := Some st.2 |}, c) ∧
      current_caller (ambient c) = None ∧ counted_as (Lifecycle.service_name a) m (failure st) c).
Proof.
  intros Hpass. destruct Hoff as [Hics Hm Hh (Hw & Hq & Hs & Ha) _].
  destruct (Lifecycle.passed_chain is_bot status_of a ics handlers (arriving m out) m h s (Some name)
    Hics eq_refl Hm Hh Hw Hq Hs Ha Hpass) as (h' & s1 & hi & si & Hc & Hw' & _ & Hbg & Hrun). split.
  - intros v r c1 o Hv Hr Hend.
    destruct (Lifecycle.passed_call is_bot status_of a h hi s si m (Some name) s1 request (fresh out counted) v r c1
      Hbg Ha Hrun eq_refl Hv Hr) as (r' & c' & code & Hrun' & Hce & _ & Hcs & Hcc & _ & Hsm).
    { intros e ->. by destruct Hend. }
    rewrite (serve_by _ _ _ _ _ _ _ Hc Hw' Hrun'). eexists _, _. split; [done|].
    split; [by apply Hcc|]. unfold counted_as. rewrite Hsm, last_snoc.
    unfold Lifecycle.counted_end, Metrics.context_code in Hce.
    destruct Hend as [x -> Hab Hcode|st -> Hab|e st -> Hab Hst|e -> Hab Hcode Hst].
    + destruct Hce as (-> & Hab' & ->). rewrite Hab, Hcode. split; [by eexists|]. apply reply_answer; congruence.
    + destruct Hce as (-> & Hab' & ->). rewrite Hab. split; [by eexists|]. apply reply_abort. congruence.
    + rewrite Hst in Hce. destruct Hce as (-> & Hab' & ->). split; [by eexists|]. by apply reply_abort.
    + rewrite Hst in Hce. destruct Hce as (-> & Hab' & _). split; [by eexists|]. apply reply_crash; congruence.
  - intros verify st Hj Hid.
    destruct (Lifecycle.unproved_call is_bot status_of a h hi s si m (Some name) s1 request (fresh out counted) verify st
      Hbg Hrun eq_refl Hj Hid) as (c' & Hrun' & Hab & Hcc & Hsm).
    rewrite (serve_by _ _ _ _ _ _ _ Hc Hw' Hrun'). eexists. split; [by rewrite (reply_abort _ st)|].
    split; [by apply Hcc|]. unfold counted_as. rewrite Hsm, last_snoc. by eexists.
Qed.
(** The three together, for a call that arrives with the token [secret]. *)
Lemma serve_calls t out secret request counted o : presented_token (arriving m out) = Some secret →
  Lifecycle.bound is_bot a (fresh out counted) = told a t →
  (∀ verify, Jwt.identity verify (metadata (fresh out counted)) = proves verify t) →
  calls a secrets admitted s secret t request (fresh out counted) o →
  ∃ x c, serve chain m out request counted = (x, c) ∧ current_caller (ambient c) = None ∧
    counted_as (Lifecycle.service_name a) m o c ∧ replied o x.
Proof.
  intros Ht Hb Hid Hcalls. destruct (sender out secret Ht) as (p & Hp & Hr & Hres).
  assert (∀ st, Lifecycle.denied a (arriving m out) m st → ∃ x c, serve chain m out request counted = (x, c) ∧
    current_caller (ambient c) = None ∧ counted_as (Lifecycle.service_name a) m (failure st) c ∧ replied (failure st) x) as Hden.
  { intros st Hst. destruct (serve_refused out request counted st Hst) as (c & ? & ? & ?). by eexists _, c. }
  assert (∀ name, (name, secret) ∈ secrets → name ∈ admitted → Lifecycle.passes a (arriving m out) m (Some name)) as Hpass.
  { intros name Hin Hadm. eapply Lifecycle.passes_caller; [done|done|by apply Hres|done]. }
  destruct Hcalls as [Hn|name Hin Hn|name verify st Hin Hadm Hj Hst|name v r c1 o Hin Hadm Hv Hrun Hend].
  - apply Hden. eapply Lifecycle.denied_unknown; [done|done|].
    destruct (resolve _ _) as [name|] eqn:Hname; [|done]. by destruct (Hn name (proj1 (Hres name) eq_refl)).
  - apply Hden. eapply Lifecycle.denied_caller; [done|done|by apply Hres|done].
  - destruct (serve_passed out request counted name (Hpass _ Hin Hadm)) as [_ Hbad].
    destruct (Hbad verify st Hj) as (c & ? & ? & ?); [by rewrite Hid|]. by eexists _, c.
  - destruct (serve_passed out request counted name (Hpass _ Hin Hadm)) as [Hgood _].
    apply (Hgood v r c1 o); [by rewrite Hb|done|done].
Qed.
End offered.

(** *** From client to servicer *)

Lemma token_of_token_of token : Channels.token_of (Channels.token_of token) = Channels.token_of token.
Proof.
  unfold Channels.token_of, str_or_none. destruct (is_empty (strip (default EmptyString token))) eqn:He; [done|].
  cbn [default from_option id]. unfold strip in *. by rewrite strip_idemp, He.
Qed.
(** The channel of a call of a client that was built with [token], whatever
    happened to the channels before and since. *)
Lemma client_channel key target timeout token service_name w t cl w1 w2 t2 ls n w3 :
  runs Channels.step (Channels.start, []) (w, t) →
  Channels.build_grpc_client key target timeout token service_name w = (Ok cl, w1) →
  runs Channels.step (w1, t) (w2, t2) → Channels.get_or_create_channel ls (Channels.channel cl) w2 = (Ok n, w3) →
  ∃ proxy loop, Channels.chans w3 !! n = Some (Channels.create_channel proxy loop) ∧
    Channels.token (Channels.p_spec proxy) = Channels.token_of token.
Proof.
  intros Hr Hb Hr2 Hu. unfold Channels.build_grpc_client in Hb. destruct (Qle_bool _ _); [done|].
  unfold se_bind in Hb. destruct (Channels.build_shared_channel _ _ _ _ w) as [[p|e] w1'] eqn:Hp; [|done].
  injection Hb as <- <-. cbn [Channels.channel] in Hu.
  destruct (Channels.call_channel _ _ _ _ _ _ _ _ _ _ _ _ _ Hr Hp Hr2 Hu) as (_ & loop & proxy & _ & _ & Hs & _ & Hc).
  exists proxy, loop. split; [done|]. rewrite Hs. apply token_of_token_of.
Qed.

(** C1: a call between two services is the call of the servicer as its
    sender.  Take a client that was built with a token, whatever else was
    built, used and closed on its process, and a server that offers a unary
    method to a list of callers.  Whatever the wire adds, a call through the
    client's channel ends at the caller as the policy and the servicer say: a
    token nobody owns is an authentication error, a caller that is not listed
    a permission error, a forwarded token the server rejects an
    authentication error; and any other call returns what the servicer
    returns, run as the owner of the token, with the identity the calling
    task forwards and, for a bot, for the user it acts for; a domain error
    arrives as that error.  The server is left with no caller, and has
    counted the call under the status its caller got. *)
Theorem remote_calls_run_as_their_sender key target timeout token service_name w tk cl w1 w2 tk2 ls n w3 ch secret
    a ics handlers m secrets admitted h s t md request counted call_timeout resource rid o :
  runs Channels.step (Channels.start, []) (w, tk) →
  Channels.build_grpc_client key target timeout token service_name w = (Ok cl, w1) →
  runs Channels.step (w1, tk) (w2, tk2) →
  Channels.get_or_create_channel ls (Channels.channel cl) w2 = (Ok n, w3) → Channels.chans w3 !! n = Some ch →
  Channels.token_of token = Some secret → offers a ics handlers m secrets admitted h s →
  plain_metadata (default [] md) →
  calls a secrets admitted s secret t request (fresh (outgoing ch Channels.unary_unary t md) counted) o →
  ∃ r c, remote_call cl ch t (Lifecycle.chain ics (Lifecycle.lookup_handler handlers)) m md request counted
           call_timeout resource rid = (r, c) ∧
    delivered resource rid o r ∧ current_caller (ambient c) = None ∧ counted_as (Lifecycle.service_name a) m o c.
Proof.
  intros Hr Hb Hr2 Hu Hch Htok Hoff Hmd Hcalls.
  destruct (client_channel _ _ _ _ _ _ _ _ _ _ _ _ _ _ Hr Hb Hr2 Hu) as (proxy & loop & Hc & Hs).
  rewrite Hch in Hc. injection Hc as ->. rewrite Htok in Hs.
  destruct (serve_calls a ics handlers m secrets admitted h s Hoff t _ secret request counted o
    (arriving_token proxy loop t md secret Hmd Hs m) (arriving_bound proxy loop t md secret Hmd Hs a counted)
    (λ verify, arriving_identity proxy loop t md secret Hmd Hs verify) Hcalls) as (x & c & Hx & Hcc & Hcount & Hrep).
  unfold remote_call. rewrite Hx. eexists _, c. split; [done|]. split; [|done]. by apply replied_delivered.
Qed.

(** A stream of such a client carries no token, so that the gate refuses it
    whoever sends it. *)
Lemma streams_are_refused (a : Args) p m secrets admitted ch k t md :
  Lifecycle.caller_policy a = Some p → caller_credentials secrets = Ok (_callers p) →
  dget (_rules p) m = Some admitted → k ≠ Channels.unary_unary →
  lower_keys (default [] md) → values "x-internal-token" (default [] md) = [] →
  Lifecycle.denied a (arriving m (outgoing ch k t md)) m (refusal unauthenticated).
Proof.
  intros Hp Hcr Hr Hk Hl Hn. rewrite streams_carry_no_token by done. eapply Lifecycle.denied_unknown; [done|done|].
  destruct (resolve _ _) as [name|] eqn:Hres; [|done]. apply (resolve_spec _ _ Hcr) in Hres as (x & Hx & _).
  rewrite presented_values in Hx. cbn [arriving invocation_metadata default from_option id] in Hx.
  by rewrite carry_values, Hn in Hx.
Qed.
End server.

(** ** A running example

    The client of a web API and the server of Server.v's example, over a wire
    that puts an entry of its own first. *)

#[local] Instance demo_errors : LibraryErrors PyExn :=
  {| type_error := {| type_name := "TypeError"; is_exception := true; status_code := None; text := "" |};
     usage_error := {| type_name := "UsageError"; is_exception := true; status_code := None; text := "" |} |}.
Definition demo_reply {Amb Resp} (r : result (Exn PyExn) (option Resp)) (c : Call Amb Resp) : result AioRpcError Resp :=
  match aborted c, r with
  | Some st, _ => Raise {| rpc_code := st.1; rpc_details := Some st.2 |}
  | None, Ok (Some x) =>
      match code_set c with None => Ok x | Some code => Raise {| rpc_code := code; rpc_details := details_set c |} end
  | None, _ => Raise {| rpc_code := default UNKNOWN (code_set c); rpc_details := Some "Unexpected error"%string |}
  end.
#[local] Instance demo_wire {Amb Resp} : Transport Amb Resp.
Proof.
  refine {| carry := λ md, ("user-agent", "grpc-python-asyncio/1.0")%string :: md; reply := demo_reply;
            unserved := {| rpc_code := UNIMPLEMENTED; rpc_details := Some "Method not found!"%string |} |}.
  - intros md k _ Hk. unfold values. cbn. rewrite bool_decide_eq_false_2; [done|]. intros <-. by vm_compute in Hk.
  - intros md Hl kv [->|Hin]%elem_of_cons; [done|by apply Hl].
  - intros x c Ha Hc. unfold demo_reply. by rewrite Ha, Hc.
  - intros c st Ha. unfold demo_reply. by rewrite Ha.
  - intros e c Ha Hc. unfold demo_reply. rewrite Ha, Hc. by eexists.
Defined.
Definition demo_task : Task := {| forwarded_jwt := Some "bot"%string; forwarded_on_behalf := Some 42 |}.
Definition demo_loops : Channels.Loops := {| Channels.current := Some 0%nat; Channels.is_running := λ _, true; Channels.is_closed := λ _, false |}.
Definition demo_build : result Channels.Error Channels.Client * Channels.World :=
  Channels.build_grpc_client "gateway" "gateway:50051" 5 (Some " s2 "%string) None Channels.start.
Definition demo_client : Channels.Client :=
  match demo_build.1 with Ok cl => cl | Raise _ => {| Channels.key := ""; Channels.timeout_seconds := 1; Channels.channel := 0%nat |} end.
Definition demo_channel : Channels.Channel :=
  Channels.create_channel {| Channels.p_key := "gateway"; Channels.p_channels := [];
    Channels.p_spec := Channels.spec_of "gateway" "gateway:50051" (Some "s2"%string) None |} 0.
Definition demo_chain : @Continuation nat Lifecycle.Answer PyExn Lifecycle.DemoAmb bool :=
  Lifecycle.chain Lifecycle.demo_ics (Lifecycle.lookup_handler Lifecycle.demo_handlers).

Lemma demo_offers : offers fst (λ _, None) Lifecycle.demo_args Lifecycle.demo_ics Lifecycle.demo_handlers enroll demo_secrets
  ["web-api"%string] Lifecycle.demo_handler Lifecycle.demo_servicer.
Proof.
  constructor; [done|done|done|done|]. exists demo_policy. split; [done|]. split; [exact demo_secrets_ok|done].
Qed.
Lemma remote_calls_run_as_their_sender_witness :
  (∃ c, remote_call demo_client demo_channel demo_task demo_chain enroll None 0%nat [] None None None =
     (Ok (Some "web-api"%string, Some 42), c) ∧ current_caller (ambient c) = None) ∧
  (∃ c e, remote_call demo_client demo_channel demo_task demo_chain enroll None 1%nat [] None None None =
     (Raise (translated (InvalidInputError "slug taken") e), c)).
Proof.
  assert (∃ v, told fst Lifecycle.demo_args demo_task = Some v ∧ Jwt.current_on_behalf v = Some 42) as (v & Hv & Ho)
    by (eexists; split; by vm_compute).
  assert (∀ request o, calls fst Lifecycle.demo_args demo_secrets ["web-api"%string] Lifecycle.demo_servicer "s2" demo_task request
    (fresh (outgoing demo_channel Channels.unary_unary demo_task None) []) o →
    ∃ r c, remote_call demo_client demo_channel demo_task demo_chain enroll None request [] None None None = (r, c) ∧
      delivered None None o r ∧ current_caller (ambient c) = None) as Hcall.
  { intros request o Ho'.
    destruct (remote_calls_run_as_their_sender fst (λ _, None) "gateway" "gateway:50051" 5 (Some " s2 "%string) None
      Channels.start [] demo_client demo_build.2 demo_build.2 [] demo_loops 0%nat
      (Channels.get_or_create_channel demo_loops 0 demo_build.2).2 demo_channel "s2" _ _ _ enroll demo_secrets _ _ _ demo_task None
      request [] None None None o ltac:(constructor) eq_refl ltac:(constructor) eq_refl eq_refl eq_refl demo_offers
      ltac:(split; [by intros kv ?%not_elem_of_nil|done]) Ho') as (r & c & ? & ? & ? & _). by exists r, c. }
  split.
  - destruct (Hcall 0%nat (answer (Some "web-api"%string, Some 42))) as (r & c & Hr & -> & Hc).
    + eapply (calls_run _ _ _ _ _ _ _ _ _ "web-api" v); [by right; left|by left|exact Hv|reflexivity|].
      eapply ends_answer; [|done|done]. cbn. by rewrite Ho.
    + by exists c.
  - destruct (Hcall 1%nat (failure (ALREADY_EXISTS, "slug taken"%string))) as (r & c & Hr & -> & _).
    + eapply (calls_run _ _ _ _ _ _ _ _ _ "web-api" v); [by right; left|by left|exact Hv|reflexivity|].
      by eapply ends_error.
    + eexists c, _. exact Hr.
Defined.
End RemoteCalls.
