(* ===== verification/Probes.v ===== *)
(** * web/health.py and web/auth.py: probes and tokens

    [Probes]: the checks behind the health endpoints, as a state machine with
    a clock: evaluations overlap, and each writes the cache when it ends.
    [Auth]: the tokens of a request's headers. *)

From S2P Require Import Prelude PyStr PyDict.
#[local] Open Scope string_scope.
#[local] Open Scope list_scope.
#[local] Open Scope Z_scope.

Module Probes.

Definition CHECK_TIMEOUT_SECONDS : Q := 2.
Definition CACHE_TTL_SECONDS : Q := 2.
Record DependencyStatus := { name : string; ok : bool; detail : string }.
(** How a check ends: with a reason or none, with an exception, or not before
    its timeout (or with a [TimeoutError] of its own). *)
Inductive Outcome := answered (reason : option string) | raised (text : string) | timed_out.
(** [_run] *)
Definition run (check : string) (o : Outcome) : DependencyStatus :=
  match o with
  | timed_out => {| name := check; ok := false; detail := "timed out" |}
  | raised text => {| name := check; ok := false; detail := String.substring 0 200 text |}
  | answered (Some reason) =>
      if is_empty reason then {| name := check; ok := true; detail := "" |}
      else {| name := check; ok := false; detail := reason |}
  | answered None => {| name := check; ok := true; detail := "" |}
  end.

(** [sqlalchemy_check]: a connection and a statement on it. *)
Inductive Query := connected (executed : result string unit) | no_connection (text : string) | no_answer.
Definition sqlalchemy_check (q : Query) : Outcome :=
  match q with
  | connected (Ok _) => answered None
  | connected (Raise text) | no_connection text => raised text
  | no_answer => timed_out
  end.
(** The database is up when a statement was executed, not before. *)
Lemma database_is_up_when_it_answers check q : ok (run check (sqlalchemy_check q)) = true ↔ q = connected (Ok tt).
Proof. destruct q as [[[]|]| |]; cbn; naive_solver. Qed.

Section probes.
(** The checks, and how the one of each name ends when an evaluation starts it:
    the number of the evaluation and its time. *)
Context (checks : list string) (world : nat → Q → string → Outcome).
Definition result_of (id : nat) (at_ : Q) : list DependencyStatus := (λ c, run c (world id at_ c)) <$> checks.

(** [evaluate] up to its first await: the statuses of the cache, when it has
    some that are young enough. *)
Definition cached (cache : Q * list DependencyStatus) (now : Q) : option (list DependencyStatus) :=
  match cache.2 with
  | [] => None
  | statuses => if Qltb (now - cache.1) CACHE_TTL_SECONDS then Some statuses else None
  end.
Record State := {
  clock : Q; cache : Q * list DependencyStatus; running : list (nat * Q); next : nat;
  (* the evaluations that ended: when they started and ended, and their answer *)
  answers : list (Q * Q * list DependencyStatus) }.
Definition started_at (t0 : Q) : State :=
  {| clock := t0; cache := (0%Q, []); running := []; next := 0%nat; answers := [] |}.
Definition evaluate_start (s : State) : State :=
  match cached (cache s) (clock s) with
  | Some statuses =>
      {| clock := clock s; cache := cache s; running := running s; next := next s;
         answers := (clock s, clock s, statuses) :: answers s |}
  | None =>
      {| clock := clock s; cache := cache s; running := (next s, clock s) :: running s; next := S (next s);
         answers := answers s |}
  end.
Definition evaluate_end (e : nat * Q) (s : State) : State :=
  let result := result_of e.1 e.2 in
  {| clock := clock s; cache := (e.2, result); running := List.filter (λ r, negb (bool_decide (r.1 = e.1))) (running s);
     next := next s; answers := (e.2, clock s, result) :: answers s |}.
(** Time passes, but [wait_for] ends every check by its timeout. *)
Definition tick (d : Q) (s : State) : State :=
  {| clock := clock s + d; cache := cache s; running := running s; next := next s; answers := answers s |}.
Inductive step : State → State → Prop :=
  | step_start s : step s (evaluate_start s)
  | step_end e s : e ∈ running s → step s (evaluate_end e s)
  | step_tick d s : (0 <= d)%Q → (∀ e, e ∈ running s → clock s + d <= e.2 + CHECK_TIMEOUT_SECONDS)%Q → step s (tick d s).
End probes.

(** The endpoints: [HealthController], for an application with a
    [HealthState] or without one. *)
Section endpoints.
Context (em_dash : string).
Definition health_status (statuses : option (list DependencyStatus)) : string :=
  match statuses with
  | None => "healthy"
  | Some l => if forallb ok l then "healthy" else "degraded"
  end.
Definition dependencies (statuses : list DependencyStatus) : list (string * string * string) :=
  (λ s, (name s, if ok s then "up" else "down", detail s)) <$> statuses.
Definition readiness (statuses : option (list DependencyStatus)) : result string string :=
  match statuses with
  | None => Ok "ready"
  | Some l =>
      match List.filter (λ s, negb (ok s)) l with
      | [] => Ok "ready"
      | down => Raise ("dependencies unavailable " +:+ em_dash +:+ " " +:+
                       join ", " ((λ s, name s +:+ ": " +:+ str_or (detail s) "down") <$> down))
      end
  end.
Definition liveness : string := "alive".
End endpoints.

(** ** Every answer is of checks just made *)

Section honest.
Context (checks : list string) (world : nat → Q → string → Outcome).
(** [q] is when the checks behind [statuses] were started. *)
Definition from (q : Q) (statuses : list DependencyStatus) : Prop := ∃ id, statuses = result_of checks world id q.
Record Inv (s : State) : Prop := {
  inv_cache : (cache s).2 ≠ [] → from (cache s).1 (cache s).2 ∧ ((cache s).1 <= clock s)%Q;
  inv_running e : e ∈ running s → (e.2 <= clock s ∧ clock s <= e.2 + CHECK_TIMEOUT_SECONDS)%Q;
  inv_answers b e l : (b, e, l) ∈ answers s → (b <= e ∧ e <= clock s ∧ e <= b + CHECK_TIMEOUT_SECONDS)%Q ∧
    ∃ q, from q l ∧ (b - CACHE_TTL_SECONDS < q ∧ q <= b)%Q }.
Lemma step_Inv s s' : Inv s → step checks world s s' → Inv s'.
Proof.
  intros HI Hs. revert HI. destruct Hs as [s0|e s0 He|d s0 Hd Hlate]; intros [I1 I2 I3].
  - unfold evaluate_start, cached. destruct (cache s0) as [at_ statuses] eqn:Hc. cbn [fst snd] in *.
    assert (Inv {| clock := clock s0; cache := (at_, statuses); running := (next s0, clock s0) :: running s0;
                   next := S (next s0); answers := answers s0 |}) as Hnew.
    { constructor; cbn; [exact I1| |exact I3]. intros e [->|He]%elem_of_cons; [cbn; unfold CHECK_TIMEOUT_SECONDS; lra|by apply I2]. }
    destruct statuses as [|st sts]; [done|]. qcase (Qltb (clock s0 - at_) CACHE_TTL_SECONDS); [|done].
    destruct I1 as [Hfrom Hat]; [done|]. constructor; cbn; [by intros _|exact I2|].
    intros b e l [[= -> -> ->]|Hin]%elem_of_cons; [|by apply I3].
    unfold CHECK_TIMEOUT_SECONDS in *. split; [lra|]. exists at_. split; [done|]. split; [lra|done].
  - destruct (I2 e He) as [H1 H2]. constructor; cbn.
    + intros _. split; [by exists e.1|done].
    + intros e' He'. apply I2. by apply list_elem_of_filter' in He' as [? _].
    + intros b e' l [[= -> -> ->]|Hin]%elem_of_cons; [|by apply I3]. split; [lra|]. exists e.2.
      split; [by exists e.1|]. unfold CACHE_TTL_SECONDS. lra.
  - constructor; cbn.
    + intros Hne. destruct (I1 Hne) as [? ?]. split; [done|]. lra.
    + intros e He. specialize (Hlate e He). destruct (I2 e He). lra.
    + intros b e l Hin. destruct (I3 b e l Hin) as [? ?]. split; [lra|done].
Qed.
Lemma reachable_Inv t0 s : runs (step checks world) (started_at t0) s → Inv s.
Proof.
  intros Hr. eapply (runs_invariant _ Inv); [by intros; eapply step_Inv| |exact Hr].
  constructor; cbn; [done|..]; intros; by (match goal with H : _ ∈ [] |- _ => apply not_elem_of_nil in H end).
Qed.
Lemma elem_result id q st : st ∈ result_of checks world id q ↔ ∃ c, c ∈ checks ∧ st = run c (world id q c).
Proof. unfold result_of. rewrite list_elem_of_fmap. naive_solver. Qed.
Lemma down_filter em l : (∃ st, st ∈ l ∧ ok st = false) → ∃ msg, readiness em (Some l) = Raise msg.
Proof.
  intros (st & Hin & Hst). unfold readiness. destruct (List.filter _ l) as [|d ds] eqn:Hf; [|by eexists].
  exfalso. assert (st ∈ List.filter (λ s, negb (ok s)) l) as H by (apply list_elem_of_filter'; by rewrite Hst).
  rewrite Hf in H. by apply not_elem_of_nil in H.
Qed.
Lemma up_filter em l : (∀ st, st ∈ l → ok st = true) → readiness em (Some l) = Ok "ready".
Proof.
  intros Hall. unfold readiness. destruct (List.filter _ l) as [|d ds] eqn:Hf; [done|].
  assert (d ∈ List.filter (λ s, negb (ok s)) l) as H by (rewrite Hf; left).
  apply list_elem_of_filter' in H as [Hin Hd]. by rewrite (Hall d Hin) in Hd.
Qed.

End honest.

(** Postgres is down until 10 and answers from then on; the bus always does. *)
Definition demo_world (id : nat) (q : Q) (c : string) : Outcome :=
  if bool_decide (c = "postgres") && Qltb q 10 then timed_out else answered None.
Definition demo_checks : list string := ["postgres"; "nats"].
Definition at_11 : State :=
  tick 1 (evaluate_end demo_checks demo_world (0%nat, (0 + 9)%Q) (tick 1 (evaluate_start (tick 9 (started_at 0))))).
Definition at_12 : State := evaluate_end demo_checks demo_world (1%nat, (0 + 9 + 1 + 1 + 1)%Q) (evaluate_start (tick 1 at_11)).
Lemma demo_probes_reachable : runs (step demo_checks demo_world) (started_at 0) at_12.
Proof.
  unfold at_12, at_11.
  repeat (eapply runs_step; [|first [apply step_start
    |apply step_end; left
    |apply step_tick; [lra|intros e He; cbn in He; rewrite ?elem_of_cons in He;
       repeat destruct He as [->|He]; try (by apply not_elem_of_nil in He); unfold CHECK_TIMEOUT_SECONDS; cbn; lra]]]).
  constructor.
Qed.
End Probes.

(** ** Tokens in headers *)

Module Auth.

(** A mapping: its items in order, and its [get], which may know names by
    other spellings. *)
Record Headers := { items : list (string * string); get : string → option string }.
(** [str.title]: a letter after a letter is lowered, another one raised. *)
Fixpoint title_go (after_letter : bool) (s : string) : string :=
  match s with
  | EmptyString => EmptyString
  | String c s' =>
      let letter := is_upper c || is_lower c in
      String (if after_letter then lower_char c else upper_char c) (title_go letter s')
  end.
Definition title : string → string := title_go false.

(** [_header_value] *)
Definition first_item (h : Headers) (expected : string) : option string :=
  snd <$> List.find (λ p, bool_decide (lower p.1 = expected)) (items h).
Fixpoint first_get (h : Headers) (candidates : list string) : option string :=
  match candidates with
  | [] => None
  | c :: cs => match get h c with Some v => Some v | None => first_get h cs end
  end.
Definition header_value (h : Headers) (name : string) : string :=
  match first_item h (lower name) with
  | Some v => v
  | None => default "" (first_get h [name; lower name; title name])
  end.

(** [extract_bearer_token], [extract_internal_token] *)
Definition extract_bearer_token (h : Headers) (header_name : string) : option string :=
  let value := strip (header_value h header_name) in
  let '(scheme, separator, token) := partition_char " " value in
  if negb separator || negb (bool_decide (lower scheme = "bearer")) then None
  else str_or_none (strip token).
Definition extract_internal_token (h : Headers) : option string :=
  match extract_bearer_token h "Authorization" with
  | Some bearer => Some bearer
  | None => str_or_none (strip (header_value h "X-Internal-Token"))
  end.
(** [internal_token_matches]; [hmac.compare_digest] takes ASCII text only. *)
Inductive AuthError := type_error.
Definition ascii_text (s : string) : bool := sall (λ c, (code c <? 128)%N) s.
Definition internal_token_matches (h : Headers) (expected_token : option string) : result AuthError bool :=
  let expected := strip (default "" expected_token) in
  if is_empty expected then Ok false
  else match extract_internal_token h with
       | None => Ok false
       | Some provided =>
           if ascii_text provided && ascii_text expected then Ok (bool_decide (provided = expected))
           else Raise type_error
       end.

(** The token guard fails closed: it lets a request through exactly when
    a token is expected and the request carries that token, as its bearer
    token or, without one, in the header for it; without an expected token
    nothing passes, and it raises only on a token that is not ASCII. *)
Lemma token_guard_fails_closed h expected_token :
  let expected := strip (default "" expected_token) in
  match internal_token_matches h expected_token with
  | Ok true => is_empty expected = false ∧ extract_internal_token h = Some expected
  | Ok false => is_empty expected = true ∨ extract_internal_token h ≠ Some expected
  | Raise type_error => ∃ provided, extract_internal_token h = Some provided ∧
      (ascii_text provided = false ∨ ascii_text expected = false)
  end.
Proof.
  intros expected. unfold internal_token_matches. fold expected. destruct (is_empty expected) eqn:He; [by left|].
  destruct (extract_internal_token h) as [p|]; [|by right].
  destruct (ascii_text p) eqn:Hp; cbn; [|exists p; by auto]. destruct (ascii_text expected) eqn:Hx; [|exists p; by auto].
  case_bool_decide; [by subst|right; congruence].
Qed.
Lemma strip_nonempty_token s t : str_or_none (strip s) = Some t → t = strip t ∧ is_empty t = false.
Proof.
  unfold str_or_none. destruct (is_empty (strip s)) eqn:He; [done|]. intros [= <-].
  split; [symmetry; apply strip_idemp|done].
Qed.
(** What is compared is trimmed on both sides, and the spelling of the
    header's name does not matter. *)
Lemma internal_token_is_trimmed h t : extract_internal_token h = Some t → t = strip t ∧ is_empty t = false.
Proof.
  unfold extract_internal_token, extract_bearer_token. destruct (partition_char _ _) as [[scheme sep] token].
  destruct (negb sep || _).
  - apply strip_nonempty_token.
  - destruct (str_or_none (strip token)) as [u|] eqn:Hu; [intros [= <-]; by eapply strip_nonempty_token|apply strip_nonempty_token].
Qed.
Lemma header_spelling h pre n v post name : items h = pre ++ (n, v) :: post →
  (∀ p, p ∈ pre → lower p.1 ≠ lower n) → lower name = lower n → header_value h name = v.
Proof.
  intros Hi Hpre Hn. unfold header_value, first_item. rewrite Hi, Hn. clear Hi.
  enough (List.find (λ p, bool_decide (lower p.1 = lower n)) (pre ++ (n, v) :: post) = Some (n, v)) as -> by done.
  induction pre as [|p pre IH]; cbn; [by rewrite bool_decide_true|].
  rewrite bool_decide_false by (apply Hpre; left). apply IH. intros q Hq. apply Hpre. by right.
Qed.
(** A token above ASCII is an exception, not a refusal. *)
Example non_ascii_token_raises :
  let token := String (ascii_of_nat 233) "t" in
  internal_token_matches {| items := [("X-Internal-Token", token)]; get := λ _, None |} (Some "s3cret") = Raise type_error.
Proof. by vm_compute. Qed.
End Auth.
