(* ===== verification/Observability.v ===== *)
(** * observability/: request context in logs, Loki queries, tracing, slow queries

    [Logging]: observability/logging.py, over the applications of Asgi.v.  [Loki]: observability/loki.py.
    [Tracing]: observability/tracing.py, the process-wide state of its setup.
    [SlowQuery]: db/observability.py. *)

From S2P Require Import Prelude PyStr PyDict Asgi.
#[local] Open Scope string_scope.
#[local] Open Scope list_scope.
#[local] Open Scope Z_scope.

Module Logging.
Import Asgi.

Definition DEFAULT_SUPPRESSED_PATTERNS : list string := ["GET /health"; "HEAD /health"; "GET /metrics"].
Definition _MAX_CONTEXT_VALUE_LEN : nat := 128.

(** A number in hexadecimal, padded with zeros ([:032x]). *)
Definition hex_char (n : N) : ascii := ascii_of_N (if (n <? 10)%N then 48 + n else 87 + n)%N.
Fixpoint hex_digits (fuel : nat) (n : N) (acc : string) : string :=
  match fuel with
  | O => acc
  | S fuel => if (n =? 0)%N then acc else hex_digits fuel (n / 16) (String (hex_char (n mod 16)) acc)
  end.
Fixpoint zeros (k : nat) : string := match k with O => EmptyString | S k => String "0" (zeros k) end.
Definition hex (width : nat) (n : N) : string :=
  let digits := hex_digits (N.size_nat n) n EmptyString in
  (zeros (Nat.max width 1 - String.length digits) +:+ digits)%string.
(** [_current_otel_trace_context]: the current span's ids, when tracing is
    installed and there is a span whose context is valid. *)
Record SpanContext := { is_valid : bool; otel_trace_id : N; otel_span_id : N }.
Definition _current_otel_trace_context (installed : bool) (span : option (option SpanContext)) : option (string * string) :=
  if negb installed then None
  else match span with
       | Some (Some c) => if is_valid c then Some (hex 32 (otel_trace_id c), hex 16 (otel_span_id c)) else None
       | _ => None
       end.
Lemma length_zeros k : String.length (zeros k) = k.
Proof. induction k; cbn; congruence. Qed.
Lemma hex_digits_length k : ∀ fuel n acc, (n < 16 ^ N.of_nat k)%N → (String.length (hex_digits fuel n acc) <= k + String.length acc)%nat.
Proof.
  induction k as [|k IH]; intros fuel n acc Hn.
  { assert (n = 0%N) as -> by (cbn in Hn; lia). destruct fuel; cbn; lia. }
  destruct fuel as [|fuel]; cbn [hex_digits]; [lia|]. destruct (n =? 0)%N; [lia|].
  etransitivity; [apply IH|cbn; lia]. apply N.Div0.div_lt_upper_bound. rewrite Nat2N.inj_succ, N.pow_succ_r' in Hn. lia.
Qed.
(** The number a hexadecimal text says. *)
Definition hex_digit_value (c : ascii) : N := let n := N_of_ascii c in (if n <? 58 then n - 48 else n - 87)%N.
Fixpoint hex_value (acc : N) (s : string) : N :=
  match s with EmptyString => acc | String c s => hex_value (acc * 16 + hex_digit_value c)%N s end.
Lemma hex_char_value d : (d < 16)%N → hex_digit_value (hex_char d) = d.
Proof.
  intros Hd. assert (d ∈ N.of_nat <$> seq 0 16) as Hin.
  { apply list_elem_of_fmap. exists (N.to_nat d). split; [lia|]. apply elem_of_seq. lia. }
  assert (Forall (λ d, hex_digit_value (hex_char d) = d) (N.of_nat <$> seq 0 16)) as Hall by (by repeat constructor).
  rewrite Forall_forall in Hall. by apply Hall.
Qed.
Lemma hex_digits_value fuel : ∀ n acc, (n < 16 ^ N.of_nat fuel)%N → hex_value 0 (hex_digits fuel n acc) = hex_value n acc.
Proof.
  induction fuel as [|fuel IH]; intros n acc Hn; cbn [hex_digits]; [cbn in Hn; by replace n with 0%N by lia|].
  destruct (N.eqb_spec n 0) as [->|Hne]; [done|]. rewrite IH.
  - cbn [hex_value]. rewrite hex_char_value by (by apply N.mod_lt). f_equal. pose proof (N.div_mod n 16). lia.
  - apply N.Div0.div_lt_upper_bound. rewrite Nat2N.inj_succ, N.pow_succ_r' in Hn. lia.
Qed.
(** The padded text says the number, whatever its width: the fuel of the
    digits is the number of its bits. *)
Lemma hex_says_its_number w n : hex_value 0 (hex w n) = n.
Proof.
  unfold hex. assert (∀ k s, hex_value 0 (zeros k +:+ s)%string = hex_value 0 s) as Hz.
  { intros k s. induction k as [|k IH]; [done|]. cbn. exact IH. }
  rewrite Hz, hex_digits_value; [done|]. eapply N.lt_le_trans; [apply N.size_gt|].
  assert (∀ p, N.of_nat (Pos.size_nat p) = Npos (Pos.size p)) as Hp.
  { intros p. induction p; cbn [Pos.size_nat Pos.size]; rewrite ?Nat2N.inj_succ, ?IHp; [lia|lia|done]. }
  replace (N.of_nat (N.size_nat n)) with (N.size n) by (by destruct n as [|p]; [|symmetry; apply Hp]).
  apply N.pow_le_mono_l. lia.
Qed.
(** The ids of a valid span have the widths that headers and dashboards
    expect, whatever their leading zeros. *)
Lemma span_ids_have_their_width installed span trace span_id : 
  (∀ c, span = Some (Some c) → otel_trace_id c < 16 ^ 32 ∧ otel_span_id c < 16 ^ 16)%N →
  _current_otel_trace_context installed span = Some (trace, span_id) →
  String.length trace = 32%nat ∧ String.length span_id = 16%nat.
Proof.
  assert (∀ w n, (0 < w)%nat → (n < 16 ^ N.of_nat w)%N → String.length (hex w n) = w) as Hhex.
  { intros w n Hw Hn. unfold hex. pose proof (hex_digits_length w (N.size_nat n) n EmptyString Hn) as Hl. cbn in Hl.
    rewrite append_length, length_zeros. lia. }
  unfold _current_otel_trace_context. intros Hb. destruct (negb installed); [done|]. destruct span as [[c|]|]; [|done..].
  destruct (Hb c eq_refl) as [H1 H2]. destruct (is_valid c); [|done]. intros [= <- <-]. split; apply Hhex; first [lia|done].
Qed.

Section logging.
(** [decode("utf-8", errors="ignore")] and [encode("utf-8")], and the ids of
    the current span, when there is one. *)
Context (decode encode : string → string) (otel : option (string * string)).

(** [_context_label] *)
Definition context_label (value : option string) : string :=
  let text := strip (default "" value) in
  if is_empty text then "-" else String.substring 0 _MAX_CONTEXT_VALUE_LEN text.
(** [_extract_header]: the first header of the name, whatever it holds. *)
Definition extract_header (headers : list (string * string)) (name : string) : option string :=
  let target := lower name in
  match List.find (λ h, bool_decide (blower h.1 = target)) headers with
  | Some h => str_or_none (strip (decode h.2))
  | None => None
  end.
(** [_extract_trace_id] *)
Definition extract_trace_id (headers : list (string * string)) : option string :=
  let from_traceparent :=
    match extract_header headers "traceparent" with
    | Some traceparent =>
        match split "-" traceparent with
        | _ :: part :: _ :: _ :: _ =>
            let trace_id := lower (strip part) in
            if (String.length trace_id =? 32)%nat then Some trace_id else None
        | _ => None
        end
    | None => None
    end in
  match from_traceparent with Some t => Some t | None => extract_header headers "x-trace-id" end.

(** The three context variables; a token is the value [set] replaced. *)
Record Vars := { request_id : string; trace_id : string; user_id : string }.
Definition no_request : Vars := {| request_id := "-"; trace_id := "-"; user_id := "-" |}.
Definition bind_log_user_id (user : option string) (v : Vars) : Vars :=
  {| request_id := request_id v; trace_id := trace_id v; user_id := context_label user |}.
Definition bind_log_context (request trace user : option string) (v : Vars) : Vars * Vars :=
  ({| request_id := context_label request; trace_id := context_label trace; user_id := context_label user |}, v).
Definition reset_log_context (tokens : Vars) (v : Vars) : Vars :=
  {| request_id := request_id tokens; trace_id := trace_id tokens; user_id := user_id tokens |}.
(** [get_log_context]: request, trace, span and user. *)
Definition get_log_context (v : Vars) : string * string * string * string :=
  let '(trace, span) :=
    if bool_decide (trace_id v = "-") then match otel with Some (t, s) => (t, s) | None => (trace_id v, "-") end
    else (trace_id v, "-") in
  (request_id v, trace, span, user_id v).

(** [bind_log_user_id] in an application. *)
Definition bind_user {E S} (user : option string) (k : App Vars E S) : App Vars E S :=
  SetVars (bind_log_user_id user) (λ _, k).

(** [RequestContextLoggingMiddleware.__call__] *)
Definition send_wrapper (request_id : string) (m : Message) : Message :=
  match m with
  | response_start status headers =>
      if existsb (λ h, bool_decide (blower h.1 = "x-request-id")) headers then m
      else response_start status (headers ++ [("x-request-id", encode request_id)])
  | _ => m
  end.
Definition request_id_of (uuid4 : string) (scope : Scope) : string :=
  match extract_header (request_headers scope) "x-request-id" with Some r => r | None => uuid4 end.
Definition trace_id_of (uuid4 : string) (scope : Scope) : string :=
  match extract_trace_id (request_headers scope) with Some t => t | None => request_id_of uuid4 scope end.
Definition user_id_of (scope : Scope) : option string := extract_header (request_headers scope) "x-user-id".
Definition request_context_middleware {E S} (uuid4 : string) (scope : Scope) (app : App Vars E S) : App Vars E S :=
  if negb (bool_decide (scope_type scope = "http")) then app
  else
    let request_id := request_id_of uuid4 scope in
    let bound v := (bind_log_context (Some request_id) (Some (trace_id_of uuid4 scope)) (user_id_of scope) v).1 in
    SetVars bound (λ tokens,
      finally (λ k, SetVars (reset_log_context tokens) (λ _, k))
        (wrapping (λ w m, ([send_wrapper request_id m], w)) tt app)).

(** [_merge_patterns], the filters and the formatter. *)
Definition merge_patterns (suppressed_paths : option (list string)) (include_default : bool) : list string :=
  (if include_default then DEFAULT_SUPPRESSED_PATTERNS else []) ++ default [] suppressed_paths.
Definition path_suppress_filter (patterns : list string) (message : string) : bool :=
  negb (existsb (λ p, contains p message) patterns).
Inductive Format := text_format | json_format.
Definition log_format (s : string) : option Format :=
  if bool_decide (lower s = "json") then Some json_format
  else if bool_decide (lower s = "text") then Some text_format else None.
Definition json_payload (timestamp severity logger message : string) (c : string * string * string * string)
    (exception : option string) : list (string * string) :=
  let '(request, trace, span, user) := c in
  [("timestamp", timestamp); ("severity", severity); ("logger", logger); ("message", message);
   ("request_id", request); ("trace_id", trace); ("span_id", span); ("user_id", user)] ++
  match exception with Some e => [("exception", e)] | None => [] end.

(** ** What a request leaves *)

Definition echoes (m : Message) : Prop :=
  match m with response_start _ headers => ∃ h, h ∈ headers ∧ blower h.1 = "x-request-id" | _ => True end.
Lemma send_wrapper_echoes r m : echoes (send_wrapper r m).
Proof.
  destruct m as [st hs|b more|t]; cbn; [|done|done]. destruct (existsb _ hs) eqn:He; cbn.
  - apply existsb_True in He as (h & Hin & Hh%bool_decide_eq_true). by exists h.
  - exists ("x-request-id", encode r). split; [apply elem_of_app; right; by left|by vm_compute].
Qed.
(** The wrapper adds the header, and changes nothing else. *)
Lemma send_wrapper_keeps r m : match m, send_wrapper r m with
  | response_start st hs, response_start st' hs' => st' = st ∧ (hs' = hs ∨ hs' = hs ++ [("x-request-id", encode r)])
  | _, m' => m' = m end.
Proof. destruct m as [st hs|b more|t]; cbn; [|done|done]. destruct (existsb _ hs); auto. Qed.
(** An application that binds no more than the user. *)
Inductive binds_users {E S} : App Vars E S → Prop :=
  | binds_return : binds_users Return
  | binds_raise e : binds_users (RaiseExc e)
  | binds_send m k : binds_users k → binds_users (Send m k)
  | binds_user user k : binds_users k → binds_users (bind_user user k)
  | binds_log k : binds_users k → binds_users (Log k)
  | binds_count s k : binds_users k → binds_users (Count s k).
Lemma behave_logs {E S} (app : App Vars E S) : binds_users app → ∀ v c, c ∈ logs (behave app v) →
  request_id c = request_id v ∧ trace_id c = trace_id v.
Proof.
  induction 1 as [|e|m k _ IH|u k _ IH|k _ IH|s k _ IH]; intros v c; cbn.
  - by intros ?%not_elem_of_nil.
  - by intros ?%not_elem_of_nil.
  - apply IH.
  - intros Hc. by destruct (IH _ c Hc).
  - intros [->|Hc]%elem_of_cons; [done|by apply IH].
  - apply IH.
Qed.
(** The label of a line: its request, and its trace when it has one. *)
Lemma log_context_labels c : (get_log_context c).1.1.1 = request_id c ∧
  (trace_id c ≠ "-" → (get_log_context c).1.1.2 = trace_id c).
Proof. unfold get_log_context. case_bool_decide; [by destruct otel as [[t s]|]|done]. Qed.
(** What the middleware makes of an application. *)
Definition entered (uuid4 : string) (scope : Scope) : Vars :=
  {| request_id := context_label (Some (request_id_of uuid4 scope)); trace_id := context_label (Some (trace_id_of uuid4 scope));
     user_id := context_label (user_id_of scope) |}.
Lemma behave_request_context {E S} uuid4 scope (app : App Vars E S) v : scope_type scope = "http" →
  behave (request_context_middleware uuid4 scope app) v =
  let b := behave app (entered uuid4 scope) in
  {| outcome := outcome b; left := v; sends := send_wrapper (request_id_of uuid4 scope) <$> sends b;
     logs := logs b; counts := counts b |}.
Proof.
  intros Hs. unfold request_context_middleware. rewrite bool_decide_eq_true_2 by done. cbn [negb behave bind_log_context fst].
  rewrite behave_finally, behave_wrapping, wrap_all_map. cbn [outcome left sends logs counts with_sends behave].
  fold (entered uuid4 scope). destruct (outcome (behave app (entered uuid4 scope))) as [[]|e]; cbn;
    rewrite !app_nil_r; by destruct v.
Qed.

(** A request is logged as itself and leaves nothing behind: whatever the
    application does, binding users and raising included, every line it logs
    carries the request's id and, when it has one, its trace, as labels; every
    response it starts carries a request id, its own or this one, and nothing
    else of what it sends is changed; its outcome is what it would be without
    the middleware, and afterwards the task's variables are what they were. *)
Lemma requests_are_logged_as_themselves {E S} uuid4 scope (app : App Vars E S) v :
  scope_type scope = "http" → binds_users app →
  let b := behave app (entered uuid4 scope) in
  let b' := behave (request_context_middleware uuid4 scope app) v in
  outcome b' = outcome b ∧ left b' = v ∧ counts b' = counts b ∧ logs b' = logs b ∧
  sends b' = (send_wrapper (request_id_of uuid4 scope) <$> sends b) ∧ (∀ m, m ∈ sends b' → echoes m) ∧
  (∀ c, c ∈ logs b' → (get_log_context c).1.1.1 = context_label (Some (request_id_of uuid4 scope)) ∧
     (context_label (Some (trace_id_of uuid4 scope)) ≠ "-" →
        (get_log_context c).1.1.2 = context_label (Some (trace_id_of uuid4 scope)))).
Proof.
  intros Hs Hb b b'. subst b'. rewrite behave_request_context by done. cbn [outcome left counts logs sends].
  split_and!; try done.
  - intros m (x & -> & _)%list_elem_of_fmap. apply send_wrapper_echoes.
  - intros c Hc. destruct (behave_logs app Hb _ c Hc) as [Hr Ht]. destruct (log_context_labels c) as [H1 H2].
    rewrite H1, Hr. split; [done|]. rewrite Ht in H2. exact H2.
Qed.

(** Passing no patterns keeps the default ones. *)
Lemma empty_patterns_suppress : path_suppress_filter (merge_patterns (Some []) true) "GET /health/ready" = false.
Proof. by vm_compute. Qed.
(** An id longer than a label is logged cut, and echoed whole. *)
Lemma long_ids_are_cut rid : (_MAX_CONTEXT_VALUE_LEN < String.length rid)%nat → strip rid = rid →
  context_label (Some rid) ≠ rid.
Proof.
  intros Hl Hs Heq. apply (f_equal String.length) in Heq. unfold context_label in Heq.
  change (default "" (Some rid)) with rid in Heq.
  rewrite Hs in Heq. destruct (is_empty rid) eqn:He; [destruct rid; [cbn in Hl; lia|done]|].
  assert (∀ n s, (String.length (String.substring 0 n s) <= n)%nat) as Hsub.
  { clear. intros n. induction n as [|n IH]; intros [|c s]; cbn; try lia. specialize (IH s). lia. }
  specialize (Hsub _MAX_CONTEXT_VALUE_LEN rid). lia.
Qed.
End logging.
(** A request with an id and a trace; the application binds a user, logs,
    starts its response and raises. *)
Definition demo_scope : Scope :=
  {| scope_type := "http"; method := Some "GET"; path := Some "/users"; route_path := None;
     request_headers := [("X-Request-Id", "req-1"); ("traceparent", "00-0AF7651916CD43DD8448EB211C80319C-b7ad6b7169203331-01")] |}.
Definition demo_app : App Vars nat nat :=
  bind_user (Some "42") (Log (Send (response_start 200 [("content-type", "text/plain")]) (RaiseExc 7%nat))).
Lemma requests_are_logged_as_themselves_witness :
  let b := behave (request_context_middleware id id "uuid" demo_scope demo_app) no_request in
  left b = no_request ∧ outcome b = Raise 7%nat ∧ ∀ c, c ∈ logs b → (get_log_context None c).1.1.1 = "req-1".
Proof.
  destruct (requests_are_logged_as_themselves id id None "uuid" demo_scope demo_app no_request eq_refl) as (Ho & Hl & _ & _ & _ & _ & Hlog).
  - apply binds_user, binds_log, binds_send, binds_raise.
  - split; [exact Hl|]. split; [exact Ho|]. intros c Hc. exact (proj1 (Hlog c Hc)).
Defined.
End Logging.

Module Loki.

(** A decoded JSON document; [printed] is how Python prints a value that is
    neither text, a number, a boolean nor null. *)
Inductive Json := JNull | JBool (b : bool) | JInt (z : Z) | JFloat (q : Q) | JStr (s : string) | JList (l : list Json)
  | JObj (l : list (string * Json)).
Inductive LokiError := LokiQueryError (msg : string) | ValueError (msg : string).
Record LokiLogLine := { timestamp_ns : Z; line : string; labels : list (string * string) }.
Inductive Direction := forward | backward.

Section loki.
Context (printed : Json → string).
Definition py_str (j : Json) : string :=
  match j with
  | JStr s => s
  | JInt z => str_int z
  | JBool b => if b then "True" else "False"
  | JNull => "None"
  | JFloat _ | JList _ | JObj _ => printed j
  end.
(** [int(x)] of a timestamp *)
Definition timestamp (j : Json) : option Z :=
  match j with
  | JInt z => Some z
  | JStr s => py_int s
  | JBool b => Some (if b then 1 else 0)
  | JFloat q => Some (Z.quot (Qnum q) (Zpos (Qden q)))
  | JNull | JList _ | JObj _ => None
  end.
(** The loops of [_decode_lines]. *)
Definition entry (ls : list (string * string)) (raw_value : Json) : result LokiError LokiLogLine :=
  match raw_value with
  | JList (t :: JStr text :: _) =>
      match timestamp t with
      | None => Raise (LokiQueryError "Loki returned an invalid log timestamp")
      | Some ns => if ns <? 0 then Raise (LokiQueryError "Loki returned a negative log timestamp")
                   else Ok {| timestamp_ns := ns; line := text; labels := ls |}
      end
  | _ => Raise (LokiQueryError "Loki returned a malformed log entry")
  end.
Fixpoint map_result {A B} (f : A → result LokiError B) (l : list A) : result LokiError (list B) :=
  match l with
  | [] => Ok []
  | a :: l' => b ← f a; bs ← map_result f l'; Ok (b :: bs)
  end.
Definition stream_lines (stream : Json) : result LokiError (list LokiLogLine) :=
  match stream with
  | JObj s =>
      match dget s "stream", dget s "values" with
      | Some (JObj raw_labels), Some (JList raw_values) => map_result (entry (prod_map id py_str <$> raw_labels)) raw_values
      | _, _ => Raise (LokiQueryError "Loki returned malformed stream data")
      end
  | _ => Raise (LokiQueryError "Loki returned a malformed stream")
  end.
(** What the lines are sorted by; backward is [reverse=True], which keeps the
    order of equal lines. *)
Definition key (l : LokiLogLine) : Z * (list (string * string) * string) :=
  (timestamp_ns l, (py_sort pair_leb (labels l), line l)).
Definition key_leb : Z * (list (string * string) * string) → Z * (list (string * string) * string) → bool :=
  lex_leb Z.leb (lex_leb (list_leb pair_leb) String.leb).
Definition before (d : Direction) (a b : LokiLogLine) : bool :=
  match d with forward => key_leb (key a) (key b) | backward => key_leb (key b) (key a) end.
Definition streams_of (payload : list (string * Json)) : result LokiError (list Json) :=
  if negb (match dget payload "status" with Some (JStr s) => bool_decide (s = "success") | _ => false end) then
    Raise (LokiQueryError "Loki returned an unsuccessful query response")
  else match dget payload "data" with
       | Some (JObj data) =>
           if negb (match dget data "resultType" with Some (JStr s) => bool_decide (s = "streams") | _ => false end) then
             Raise (LokiQueryError "Loki returned a non-stream query response")
           else match dget data "result" with
                | Some (JList streams) => Ok streams
                | _ => Raise (LokiQueryError "Loki returned malformed stream results")
                end
       | _ => Raise (LokiQueryError "Loki returned a non-stream query response")
       end.
Definition decode_lines (payload : list (string * Json)) (d : Direction) : result LokiError (list LokiLogLine) :=
  streams ← streams_of payload;
  lines ← map_result stream_lines streams;
  Ok (py_sort (before d) (mjoin lines)).

(** [LokiClient]: the base URL, and a query.  [get] is the HTTP call with its
    parameters, which fails with an [HTTPError] or answers with the body;
    [json] decodes it. *)
Definition normalized_url (base_url : string) : result LokiError string :=
  let url := rstrip_chars "/" base_url in
  if startswith "http://" url || startswith "https://" url then Ok url
  else Raise (ValueError "Loki base_url must be an absolute HTTP(S) URL").
Definition positive (name : string) (value : Z) : result LokiError unit :=
  raise_if (value <=? 0) (ValueError (name +:+ " must be positive")).
Definition direction_of (s : string) : option Direction :=
  if bool_decide (s = "forward") then Some forward else if bool_decide (s = "backward") then Some backward else None.
Definition query_range (get : string → list (string * string) → option string) (json : string → option Json)
    (query : string) (start_ns end_ns limit : Z) (direction : string) : result LokiError (list LokiLogLine) :=
  _ ← raise_if (is_empty (strip query)) (ValueError "Loki query must not be empty");
  _ ← positive "start_ns" start_ns;
  _ ← positive "end_ns" end_ns;
  _ ← positive "limit" limit;
  _ ← raise_if (end_ns <? start_ns) (ValueError "start_ns must not exceed end_ns");
  match direction_of direction with
  | None => Raise (ValueError "direction must be forward or backward")
  | Some d =>
      match get "/loki/api/v1/query_range"
              [("query", query); ("start", str_int start_ns); ("end", str_int end_ns); ("limit", str_int limit);
               ("direction", direction)] with
      | None => Raise (LokiQueryError "Loki range query failed")
      | Some body =>
          match json body with
          | None => Raise (LokiQueryError "Loki returned invalid JSON")
          | Some (JObj decoded) => decode_lines decoded d
          | Some _ => Raise (LokiQueryError "Loki returned a malformed response")
          end
      end
  end.

(** ** One order for all streams *)

#[local] Instance key_order : TotalOrder key_leb := lex_order _ _.
Lemma before_total d a b : before d a b = true ∨ before d b a = true.
Proof. destruct d; apply (leb_total (leb := key_leb)). Qed.
Lemma before_trans d a b c : before d a b = true → before d b c = true → before d a c = true.
Proof. destruct d; intros H1 H2; [exact (leb_trans (leb := key_leb) _ _ _ H1 H2)|exact (leb_trans (leb := key_leb) _ _ _ H2 H1)]. Qed.
Lemma map_result_Ok {A B} (f : A → result LokiError B) l bs :
  map_result f l = Ok bs ↔ Forall2 (λ a b, f a = Ok b) l bs.
Proof.
  revert bs. induction l as [|a l IH]; intros bs; cbn.
  - split; [by intros [= <-]|by intros ->%Forall2_nil_inv_l].
  - rewrite result_bind_Ok. setoid_rewrite result_bind_Ok. split.
    + intros (b & Hb & cs & Hcs & [= <-]). constructor; [done|by apply IH].
    + intros (b & cs & Hb & Hcs & ->)%Forall2_cons_inv_l. exists b. split; [done|]. exists cs. split; [by apply IH|done].
Qed.
Lemma map_result_perm {A B} (f : A → result LokiError B) l l' : l ≡ₚ l' → ∀ bs, map_result f l = Ok bs →
  ∃ bs', map_result f l' = Ok bs' ∧ bs ≡ₚ bs'.
Proof.
  induction 1 as [|x l l' Hp IH|x y l|l1 l2 l3 _ IH1 _ IH2]; intros bs; setoid_rewrite map_result_Ok.
  - intros ->%Forall2_nil_inv_l. by exists [].
  - intros (b & cs & Hb & Hcs & ->)%Forall2_cons_inv_l. setoid_rewrite map_result_Ok in IH.
    destruct (IH cs Hcs) as (cs' & Hcs' & Hp'). exists (b :: cs'). split; [by constructor|by f_equiv].
  - intros (b & cs & Hb & (c & ds & Hc & Hds & ->)%Forall2_cons_inv_l & ->)%Forall2_cons_inv_l.
    exists (c :: b :: ds). split; [by repeat constructor|constructor].
  - intros Hbs. setoid_rewrite map_result_Ok in IH1. setoid_rewrite map_result_Ok in IH2.
    destruct (IH1 bs Hbs) as (bs2 & H2 & P2). destruct (IH2 bs2 H2) as (bs3 & H3 & P3).
    exists bs3. split; [done|]. by etrans.
Qed.
Definition before_key (d : Direction) k1 k2 : bool := match d with forward => key_leb k1 k2 | backward => key_leb k2 k1 end.
Lemma sorted_keys d ls : StronglySorted (before d) ls → StronglySorted (before_key d) (key <$> ls).
Proof.
  induction 1 as [|a ls Hs IH Ha]; cbn; constructor; [done|]. apply Forall_fmap. eapply Forall_impl; [exact Ha|].
  intros b. by destruct d.
Qed.
Lemma sorted_by_keys d ls ls' : ls ≡ₚ ls' → key <$> py_sort (before d) ls = key <$> py_sort (before d) ls'.
Proof.
  intros Hp. apply (StronglySorted_unique_strong (before_key d)).
  - intros x y _ _ Hx%Is_true_true Hy%Is_true_true. destruct d; by apply (leb_antisym (leb := key_leb)).
  - apply sorted_keys, py_sort_sorted; [apply before_total|apply before_trans].
  - apply sorted_keys, py_sort_sorted; [apply before_total|apply before_trans].
  - by rewrite !py_sort_perm, Hp.
Qed.

(** A query's lines are the lines of its streams in one order: every line
    that the response holds is returned once, sorted by time (then labels and
    text), the latest first when the query goes backward; and the order in
    which Loki lists the streams does not show. *)
Lemma loki_lines_are_merged payload d lines : decode_lines payload d = Ok lines →
  ∃ streams per_stream, streams_of payload = Ok streams ∧
    Forall2 (λ s l, stream_lines s = Ok l) streams per_stream ∧ lines ≡ₚ mjoin per_stream ∧
    StronglySorted (before d) lines ∧
    ∀ payload' streams', streams_of payload' = Ok streams' → streams' ≡ₚ streams →
      ∃ lines', decode_lines payload' d = Ok lines' ∧ (key <$> lines') = (key <$> lines).
Proof.
  unfold decode_lines. destruct (streams_of payload) as [streams|e]; [|done]. cbn.
  destruct (map_result stream_lines streams) as [ls|e] eqn:Hls; [|done]. cbn. intros [= <-].
  exists streams, ls. split; [done|]. split; [by apply map_result_Ok|]. split; [apply py_sort_perm|].
  split; [apply py_sort_sorted; [apply before_total|apply before_trans]|].
  intros payload' streams' -> Hp. cbn. destruct (map_result_perm _ _ _ (Permutation_sym Hp) _ Hls) as (ls' & -> & Hp').
  cbn. eexists. split; [done|]. apply sorted_by_keys. by rewrite Hp'.
Qed.
End loki.

(** Two streams of which one starts before and ends after the other. *)
Definition demo_stream (app : string) (entries : list (string * string)) : Json :=
  JObj [("stream", JObj [("app", JStr app)]); ("values", JList ((λ e, JList [JStr e.1; JStr e.2]) <$> entries))].
Definition demo_payload : list (string * Json) :=
  [("status", JStr "success");
   ("data", JObj [("resultType", JStr "streams");
                  ("result", JList [demo_stream "api" [("5", "a"); ("30", "d")]; demo_stream "bus" [("9", "b"); ("12", "c")]])])].
Definition demo_lines : list LokiLogLine :=
  match decode_lines (λ _, "") demo_payload backward with Ok l => l | Raise _ => [] end.
Lemma loki_lines_are_merged_witness :
  (line <$> demo_lines) = ["d"; "c"; "b"; "a"] ∧ StronglySorted (before backward) demo_lines.
Proof.
  split; [by vm_compute|].
  destruct (loki_lines_are_merged (λ _, "") demo_payload backward demo_lines eq_refl) as (_ & _ & _ & _ & _ & Hs & _). exact Hs.
Defined.
End Loki.

Module Tracing.

(** [_parse_otel_headers], [_parse_resource_attributes]: the same code twice. *)
Definition parse_pair (acc : list (string * string)) (pair : string) : list (string * string) :=
  let '(k, _, v) := partition_char "=" pair in
  let k := strip k in
  let v := strip v in
  if negb (is_empty k) && negb (is_empty v) then dset acc k v else acc.
Definition parse_otel_headers (raw : option string) : list (string * string) :=
  match raw with Some r => if is_empty r then [] else foldl parse_pair [] (split "," r) | None => [] end.
Definition parse_resource_attributes (raw : option string) : list (string * string) :=
  match raw with Some r => if is_empty r then [] else foldl parse_pair [] (split "," r) | None => [] end.

(** The libraries that may be instrumented, and the settings. *)
Inductive Library := httpx | sqlalchemy | redis.
#[export] Instance Library_eq_dec : EqDecision Library.
Proof. solve_decision. Defined.
Record TracingSettings := {
  enabled : bool; exporter_otlp_endpoint : string; exporter_otlp_headers : string;
  exporter_otlp_insecure : option bool; traces_sampler_arg : Q; resource_attributes : string;
  instrument : Library → bool }.
Record Args := {
  service_name : string; settings : TracingSettings; a_enabled : option bool; a_instrument : Library → option bool;
  export_failed_unsampled : bool }.
(** What was done to the process, in order. *)
Inductive Effect :=
  | set_tracer_provider (resource : list (string * string)) (ratio : Q) (records_unsampled : bool) (endpoint : string)
      (headers : list (string * string)) (insecure : bool)
  | instrumented (l : Library).
Record State := {
  configured : bool; configured_service_name : option string; done : list Library; effects : list Effect }.
Definition fresh : State := {| configured := false; configured_service_name := None; done := []; effects := [] |}.
Inductive SetupError := ModuleNotFoundError.

Definition endpoint_of (t : TracingSettings) : string := str_or (strip (exporter_otlp_endpoint t)) "http://tempo:4317".
Definition ratio_of (t : TracingSettings) : Q := Qmaxb 0 (Qminb 1 (traces_sampler_arg t)).
Definition insecure_of (t : TracingSettings) : bool :=
  match exporter_otlp_insecure t with Some b => b | None => startswith "http://" (endpoint_of t) end.
Definition setdefault (d : list (string * string)) (k v : string) : list (string * string) :=
  match dget d k with Some _ => d | None => dset d k v end.
Definition wants (a : Args) (l : Library) : bool :=
  match a_instrument a l with Some b => b | None => instrument (settings a) l end.
(** [has_sdk] and [has]: whether the SDK and each instrumentation is installed. *)
Definition configure (a : Args) (s : State) : State :=
  if configured s then s
  else
    let t := settings a in
    {| configured := true; configured_service_name := Some (service_name a); done := done s;
       effects := effects s ++ [set_tracer_provider
         (setdefault (parse_resource_attributes (Some (resource_attributes t))) "service.name" (service_name a))
         (ratio_of t) (export_failed_unsampled a) (endpoint_of t) (parse_otel_headers (Some (exporter_otlp_headers t)))
         (insecure_of t)] |}.
Definition instrument_one (has : Library → bool) (a : Args) (l : Library) : SE State SetupError unit := λ s,
  if wants a l && negb (bool_decide (l ∈ done s)) then
    if has l then
      (Ok tt, {| configured := configured s; configured_service_name := configured_service_name s;
                 done := done s ++ [l]; effects := effects s ++ [instrumented l] |})
    else (Raise ModuleNotFoundError, s)
  else (Ok tt, s).
(** [setup_tracing]: whether a middleware is returned. *)
Definition setup_tracing (has_sdk : bool) (has : Library → bool) (a : Args) : SE State SetupError bool := λ s,
  if negb (match a_enabled a with Some b => b | None => enabled (settings a) end) then (Ok false, s)
  else if negb has_sdk then (Raise ModuleNotFoundError, s)
  else match (se_bind (instrument_one has a httpx) (λ _, se_bind (instrument_one has a sqlalchemy)
                (λ _, instrument_one has a redis))) (configure a s) with
       | (Ok _, s') => (Ok true, s')
       | (Raise e, s') => (Raise e, s')
       end.
(** A sampler's decision, and [RecordUnsampled] around it. *)
Inductive Decision := DROP | RECORD_ONLY | RECORD_AND_SAMPLE.
Definition should_sample (inner : Decision) : Decision := match inner with DROP => RECORD_ONLY | d => d end.
Definition get_description (inner : string) : string := "RecordUnsampled{" +:+ inner +:+ "}".
(** The two processors: what is exported of a span that ended. *)
Definition exported (failures_too sampled failed : bool) : bool := sampled || (failures_too && failed).

(** A span of the tracer that was set up: the inner sampler's decision, and
    whether it ends as failed.  A dropped span is not recorded and reaches no
    processor. *)
Definition span_exported (failures_too : bool) (inner : Decision) (failed : bool) : bool :=
  match (if failures_too then should_sample inner else inner) with
  | DROP => false
  | RECORD_ONLY => exported failures_too false failed
  | RECORD_AND_SAMPLE => exported failures_too true failed
  end.
(** With [export_failed_unsampled] no failed span is lost, and of the others
    exactly those are exported that the ratio samples; without it, exactly
    those of all. *)
Lemma no_failure_is_lost failures_too inner failed : span_exported failures_too inner failed = true ↔
  inner = RECORD_AND_SAMPLE ∨ failures_too = true ∧ failed = true.
Proof. destruct failures_too, inner, failed; cbn; naive_solver. Qed.

(** ** Set up once *)

Definition is_provider (e : Effect) : bool := match e with set_tracer_provider _ _ _ _ _ _ => true | instrumented _ => false end.
Definition library_of (e : Effect) : option Library := match e with instrumented l => Some l | _ => None end.
Record Inv (s : State) : Prop := {
  inv_provider : List.filter is_provider (effects s) = [] ∧ configured s = false ∨
                 (∃ e, List.filter is_provider (effects s) = [e]) ∧ configured s = true;
  inv_libraries : omap library_of (effects s) = done s;
  inv_once : NoDup (done s);
  inv_ratio r q b p h i : set_tracer_provider r q b p h i ∈ effects s → (0 <= q <= 1)%Q }.
Lemma ratio_bounds t : (0 <= ratio_of t <= 1)%Q.
Proof.
  unfold ratio_of, Qmaxb, Qminb. qcase (Qle_bool 1 (traces_sampler_arg t));
    (match goal with |- context [Qle_bool 0 ?x] => qcase (Qle_bool 0 x) end); lra.
Qed.
Lemma configure_Inv a s : Inv s → Inv (configure a s).
Proof.
  intros [[[H1 H1']|[H1 H1']] H2 H3 H4]; unfold configure; rewrite H1'; [|constructor; auto].
  constructor; cbn [effects configured done].
  - right. split; [|done]. eexists. rewrite List.filter_app, H1. done.
  - rewrite omap_app, H2. cbn. by rewrite app_nil_r.
  - done.
  - intros r q b p h i [Hin|Heq%list_elem_of_singleton]%elem_of_app; [by eapply H4|].
    injection Heq as _ -> _ _ _ _. apply ratio_bounds.
Qed.
Lemma instrument_one_Inv has a l : post Inv (instrument_one has a l) (λ _, True) (λ _, True).
Proof.
  intros s HI. unfold instrument_one. destruct (wants a l && _) eqn:Hw; [|done]. destruct (has l); [|done].
  apply andb_true_iff in Hw as [_ Hn]. apply negb_true_iff, bool_decide_eq_false in Hn.
  destruct HI as [H1 H2 H3 H4]. split; [|done]. constructor; cbn [fst snd effects configured done].
  - rewrite List.filter_app. cbn. by rewrite app_nil_r.
  - by rewrite omap_app, H2.
  - apply NoDup_app. split; [done|]. split; [|apply NoDup_singleton]. by intros x Hx ->%list_elem_of_singleton.
  - intros r q b p h i [Hin|Heq%list_elem_of_singleton]%elem_of_app; [by eapply H4|done].
Qed.

(** Calls of [setup_tracing] in any number, from any settings. *)
Inductive step : State → State → Prop :=
  | step_setup has_sdk has a s : step s (setup_tracing has_sdk has a s).2.
(** However often tracing is set up, and whatever is missing, the process has
    one provider at most, whose sampling ratio is between 0 and 1, and each
    library is instrumented once at most. *)
Lemma tracing_is_set_up_once s : runs step fresh s →
  (length (List.filter is_provider (effects s)) <= 1)%nat ∧ NoDup (omap library_of (effects s)) ∧
  ∀ r q b p h i, set_tracer_provider r q b p h i ∈ effects s → (0 <= q <= 1)%Q.
Proof.
  intros Hr. assert (Inv s) as [H1 H2 H3 H4].
  { assert (Inv fresh) as H0.
    { constructor; [by left|done|constructor|by intros r q b p h i ?%not_elem_of_nil]. }
    eapply (runs_invariant step Inv); [|exact H0|exact Hr].
    clear. intros s0 s1 HI Hs. destruct Hs as [has_sdk has a s0]. unfold setup_tracing. destruct (negb _); [done|]. destruct (negb has_sdk); [done|].
    apply (configure_Inv a) in HI.
    assert (post Inv (se_bind (instrument_one has a httpx) (λ _, se_bind (instrument_one has a sqlalchemy)
      (λ _, instrument_one has a redis))) (λ _, True) (λ _, True)) as Hp.
    { eapply post_bind; [apply instrument_one_Inv|intros _ _]. eapply post_bind; [apply instrument_one_Inv|intros _ _].
      apply instrument_one_Inv. }
    destruct (Hp _ HI) as [Hi _]. by destruct (se_bind _ _ _) as [[[]|e] s2]. }
  split; [|split; [by rewrite H2|done]]. destruct H1 as [[-> _]|[[e ->] _]]; cbn; lia.
Qed.
End Tracing.

Module Throttle.

(** [ThrottledGaugeRefresh] as its users follow it: a task takes the lock,
    asks [should_run] again, refreshes, and marks a success; times are those of
    one monotonic clock. *)
Section throttle.
Context (min_interval_seconds : Q).
Record State := {
  clock : Q; last_refresh : Q; holder : option Q;
  (* the refreshes that succeeded: when they started and ended, and whether they were forced *)
  done : list (Q * Q * bool); forced : bool }.
Definition fresh (now : Q) : State := {| clock := now; last_refresh := 0; holder := None; done := []; forced := false |}.
Definition should_run (force : bool) (s : State) : bool := force || Qle_bool min_interval_seconds (clock s - last_refresh s).
Definition begin (force : bool) (s : State) : State :=
  {| clock := clock s; last_refresh := last_refresh s; holder := Some (clock s); done := done s; forced := force |}.
Definition mark_done (started : Q) (s : State) : State :=
  {| clock := clock s; last_refresh := clock s; holder := None; done := (started, clock s, forced s) :: done s; forced := forced s |}.
Definition failed (s : State) : State :=
  {| clock := clock s; last_refresh := last_refresh s; holder := None; done := done s; forced := forced s |}.
Definition tick (d : Q) (s : State) : State :=
  {| clock := clock s + d; last_refresh := last_refresh s; holder := holder s; done := done s; forced := forced s |}.
Inductive step : State → State → Prop :=
  | step_begin force s : holder s = None → should_run force s = true → step s (begin force s)
  | step_done started s : holder s = Some started → step s (mark_done started s)
  | step_failed started s : holder s = Some started → step s (failed s)
  | step_tick d s : (0 <= d)%Q → step s (tick d s).
(** The refreshes, the latest first: each unforced one started an interval
    after the one before had ended. *)
Fixpoint spaced (l : list (Q * Q * bool)) : Prop :=
  match l with
  | (start, _, force) :: rest =>
      (match rest with (_, end_, _) :: _ => (force = false → end_ + min_interval_seconds <= start)%Q | [] => True end) ∧ spaced rest
  | [] => True
  end.
Record Inv (s : State) : Prop := {
  inv_last : match done s with (_, end_, _) :: _ => last_refresh s = end_ | [] => last_refresh s = 0%Q end;
  inv_holder : match holder s with Some started => (forced s = false → last_refresh s + min_interval_seconds <= started)%Q | None => True end;
  inv_spaced : spaced (done s) }.
Lemma throttle_step_Inv s s' : Inv s → step s s' → Inv s'.
Proof.
  intros [H1 H2 H3] Hs. destruct Hs as [force s Hh Hr|started s Hh|started s Hh|d s Hd]; constructor; cbn; try done.
  - intros ->. unfold should_run in Hr. cbn in Hr. apply Qle_bool_iff in Hr. lra.
  - rewrite Hh in H2. split; [|done]. destruct (done s) as [|[[st en] fo] rest]; [done|]. by rewrite <-H1.
Qed.
(** However the tasks of a service interleave, the refreshes that nobody
    forced are an interval apart. *)
Lemma refreshes_are_spaced now s : runs step (fresh now) s → spaced (done s).
Proof.
  intros Hr. apply inv_spaced. eapply (runs_invariant step Inv); [apply throttle_step_Inv| |exact Hr]. by constructor.
Qed.
End throttle.
End Throttle.

Module SlowQuery.

(** db/observability.py: the stack of a connection's started queries. *)
Definition Stack : Type := list Q.
Definition before_cursor_execute (now : Q) (s : Stack) : Stack := now :: s.
(** The duration that is measured, and whether it is logged. *)
Definition after_cursor_execute (threshold now : Q) (s : Stack) : option (Q * bool) * Stack :=
  match s with
  | [] => (None, [])
  | started_at :: s' => (Some (now - started_at, Qle_bool threshold (now - started_at))%Q, s')
  end.
(** [_normalize_text]; [split()] splits at runs of white space. *)
Definition split_ws (s : string) : list string :=
  List.filter (λ w, negb (is_empty w)) (split " " (sub_runs is_space " " false s)).
Definition normalize_text (max_len : nat) (value : option string) : string :=
  let text := strip (default "" value) in
  if is_empty text then "-"
  else let compact := join " " (split_ws text) in
       if (max_len <? String.length compact)%nat then String.substring 0 max_len compact +:+ "..." else compact.

(** The events of a connection: a query may contain others, and a query that
    fails has no [after_cursor_execute]. *)
Inductive Query := query (start : Q) (inner : list Query) (stop : option Q).
Section events.
Context (threshold : Q).
Fixpoint run_query (q : Query) (s : Stack) : list (Q * Q * option (Q * bool)) * Stack :=
  match q with
  | query start inner stop =>
      let '(l, s1) := (fix go (qs : list Query) (s : Stack) :=
         match qs with
         | [] => ([], s)
         | q' :: qs' => let '(l1, s1) := run_query q' s in let '(l2, s2) := go qs' s1 in (l1 ++ l2, s2)
         end) inner (before_cursor_execute start s) in
      match stop with
      | Some t => let '(o, s2) := after_cursor_execute threshold t s1 in (l ++ [(start, t, o)], s2)
      | None => (l, s1)
      end
  end.
End events.
(** A failed query leaves its start on the stack: the query around it is then
    measured from there, and the stack grows with every failure. *)
Example failed_queries_stay :
  run_query (1 # 4) (query 0 [query 1 [] None] (Some 2%Q)) [] = ([(0, 2, Some (2 - 1, true))]%Q, [0%Q]) ∧
  (run_query (1 # 4) (query 0 [] None) [7%Q; 7%Q]).2 = [0; 7; 7]%Q.
Proof. by vm_compute. Qed.
End SlowQuery.
