(* ===== verification/Prometheus.v ===== *)
(** * observability/prometheus.py, prometheus_runtime.py: request metrics

    [Prometheus]: the middleware that counts requests, over the applications
    of Asgi.v, and the registries it uses.  [Runtime]: the directory of
    prometheus_client's multiprocess mode, prepared before a program starts. *)

From S2P Require Import Prelude PyStr PyDict Asgi.
From S2P Require Contracts.
#[local] Open Scope string_scope.
#[local] Open Scope list_scope.
#[local] Open Scope Z_scope.

Module Prometheus.
Import Asgi.

Definition _normalize_service_name (service_name : string) : string :=
  replace_char " " "_" (replace_char "-" "_" (lower (strip service_name))).

(** The registries, and the directory that is made. *)
Inductive Registry (R : Type) := given (r : R) | REGISTRY | multiprocess.
Arguments given {R} r.
Arguments REGISTRY {R}.
Arguments multiprocess {R}.
Definition env_dir (env : list (string * string)) : option string :=
  match dget env "PROMETHEUS_MULTIPROC_DIR" with
  | Some d => if is_empty d then dget env "prometheus_multiproc_dir" else Some d
  | None => dget env "prometheus_multiproc_dir"
  end.
Record Registries (R : Type) := { metrics_registry : Registry R; instrumentation_registry : Registry R; made : option string }.
Arguments metrics_registry {R} r.
Arguments instrumentation_registry {R} r.
Arguments made {R} r.
Definition choose_registries {R} (registry : option R) (env : list (string * string)) : Registries R :=
  match registry with
  | Some r => {| metrics_registry := given r; instrumentation_registry := given r; made := None |}
  | None =>
      match env_dir env with
      | Some d => if is_empty d then {| metrics_registry := REGISTRY; instrumentation_registry := REGISTRY; made := None |}
                  else {| metrics_registry := multiprocess; instrumentation_registry := REGISTRY; made := Some d |}
      | None => {| metrics_registry := REGISTRY; instrumentation_registry := REGISTRY; made := None |}
      end
  end.
(** The names of the two metrics. *)
Definition request_count (service_name : string) : string := _normalize_service_name service_name +:+ "_http_requests_total".
Definition request_latency (service_name : string) : string :=
  _normalize_service_name service_name +:+ "_http_request_duration_seconds".

(** A request counted, or the time of one observed; the time is left out. *)
Inductive Sample := request (method route status : string) | latency (method route : string).

Definition resolve_route_label (scope : Scope) : string :=
  match route_path scope with
  | Some pattern => if is_empty pattern then default "unknown" (path scope) else pattern
  | None => default "unknown" (path scope)
  end.
Definition method_label (scope : Scope) : string := default "UNKNOWN" (method scope).

Section middleware.
(** The status code of an exception that is an [HTTPException]. *)
Context {C E : Type} (http_status : E → option Z).

Definition exception_status (status : Z) (e : E) : Z :=
  match http_status e with Some s => if s =? 0 then 500 else s | None => status end.
Definition started (status : Z) (m : Message) : Z := match m with response_start s _ => s | _ => status end.
(** The [finally] clause. *)
Definition observe (scope : Scope) (status : Z) (k : App C E Sample) : App C E Sample :=
  Count (request (method_label scope) (resolve_route_label scope) (str_int status))
    (Count (latency (method_label scope) (resolve_route_label scope)) k).
Fixpoint instrumented (scope : Scope) (status : Z) (app : App C E Sample) : App C E Sample :=
  match app with
  | Return => observe scope status Return
  | RaiseExc e => observe scope (exception_status status e) (RaiseExc e)
  | Send m k => Send m (instrumented scope (started status m) k)
  | SetVars f k => SetVars f (λ v, instrumented scope status (k v))
  | Log k => Log (instrumented scope status k)
  | Count s k => Count s (instrumented scope status k)
  end.
Definition skipped (route : string) (scope : Scope) : bool :=
  negb (bool_decide (scope_type scope = "http")) || bool_decide (resolve_route_label scope = route).
Definition middleware (route : string) (scope : Scope) (app : App C E Sample) : App C E Sample :=
  if skipped route scope then app else instrumented scope 500 app.

(** ** One sample of each, with the status of the request *)

Definition final_status (status : Z) (b : Behaviour C E Sample) : Z :=
  let last := foldl started status (sends b) in
  match outcome b with Ok _ => last | Raise e => exception_status last e end.
Definition observed (scope : Scope) (status : Z) : list Sample :=
  [request (method_label scope) (resolve_route_label scope) (str_int status);
   latency (method_label scope) (resolve_route_label scope)].
Definition with_counts (cs : list Sample) (b : Behaviour C E Sample) : Behaviour C E Sample :=
  {| outcome := outcome b; left := left b; sends := sends b; logs := logs b; counts := counts b ++ cs |}.
Lemma behave_instrumented scope app : ∀ status v, behave (instrumented scope status app) v =
  with_counts (observed scope (final_status status (behave app v))) (behave app v).
Proof.
  induction app as [|e|m k IH|f k IH|k IH|s k IH]; intros status v; cbn [instrumented behave].
  - done.
  - done.
  - by rewrite IH.
  - apply IH.
  - by rewrite IH.
  - by rewrite IH.
Qed.
Lemma behave_middleware route scope app v : behave (middleware route scope app) v =
  if skipped route scope then behave app v
  else with_counts (observed scope (final_status 500 (behave app v))) (behave app v).
Proof. unfold middleware. destruct (skipped route scope); [done|apply behave_instrumented]. Qed.
End middleware.
End Prometheus.

(** ** The directory of the multiprocess mode *)

Module Runtime.
Import Prometheus.

Definition DEFAULT_MULTIPROC_DIRECTORY : string := "/tmp/metrics".
(** [str(Path(text))] *)
Definition path_text (text : string) : string :=
  let parts := join "/" (Contracts.Contracts.parts text) in
  if startswith "//" text && negb (startswith "///" text) then "//" +:+ parts
  else if startswith "/" text then "/" +:+ parts else str_or parts ".".

Definition truthy (o : option string) : option string := match o with Some s => str_or_none s | None => None end.
Definition resolve_multiprocess_directory (directory : option string) (default_directory : string)
    (env : list (string * string)) : string :=
  path_text (match truthy directory with
             | Some d => d
             | None => match truthy (dget env "PROMETHEUS_MULTIPROC_DIR") with
                       | Some d => d
                       | None => match truthy (dget env "prometheus_multiproc_dir") with Some d => d | None => default_directory end
                       end
             end).

(** The environment, and the directories with their entries: a name, and
    whether it is a file. *)
Record World := { env : list (string * string); dirs : list (string * list (string * bool)) }.
Definition is_file (entry : string * bool) : bool := entry.2.
Definition prepare_multiprocess_directory (directory : option string) (default_directory : string) (w : World) : string * World :=
  let target := resolve_multiprocess_directory directory default_directory (env w) in
  (target, {| env := dset (dset (env w) "PROMETHEUS_MULTIPROC_DIR" target) "prometheus_multiproc_dir" target;
              dirs := dset (dirs w) target (List.filter (λ e, negb (is_file e)) (default [] (dget (dirs w) target))) |}).
(** [os.execvpe] replaces the process: the program, its arguments and its
    environment. *)
Inductive End_ := executed (program : string) (command : list string) (env : list (string * string)) | value_error | usage_error.
Definition exec_with_prepared_multiprocess_directory (command : list string) (directory : option string)
    (default_directory : string) (w : World) : End_ * World :=
  match command with
  | [] => (value_error, w)
  | program :: _ =>
      let '(_, w') := prepare_multiprocess_directory directory default_directory w in
      (executed program command (env w'), w')
  end.
Record Args := { directory : option string; default_directory : option string; command : list string }.
Definition main (a : Args) (w : World) : End_ * World :=
  let command := match command a with "--" :: rest => rest | c => c end in
  match command with
  | [] => (usage_error, w)
  | _ => exec_with_prepared_multiprocess_directory command (directory a)
           (default DEFAULT_MULTIPROC_DIRECTORY (default_directory a)) w
  end.

(** A program starts with both variables naming one directory without files,
    which is the one the middleware makes its registry of; what is below it
    and every other directory stays. *)
Lemma programs_start_clean command directory default_directory w program cmd env' w' :
  exec_with_prepared_multiprocess_directory command directory default_directory w = (executed program cmd env', w') →
  let target := resolve_multiprocess_directory directory default_directory (env w) in
  cmd = command ∧ head command = Some program ∧ env' = env w' ∧
  dget env' "PROMETHEUS_MULTIPROC_DIR" = Some target ∧ dget env' "prometheus_multiproc_dir" = Some target ∧
  (∃ entries, dget (dirs w') target = Some entries ∧ (∀ e, e ∈ entries → is_file e = false) ∧
     ∀ old e, dget (dirs w) target = Some old → e ∈ old → is_file e = false → e ∈ entries) ∧
  (∀ d, d ≠ target → dget (dirs w') d = dget (dirs w) d) ∧
  (target ≠ EmptyString → made (choose_registries (R:=unit) None env') = Some target).
Proof.
  unfold exec_with_prepared_multiprocess_directory. destruct command as [|p ps]; [done|]. cbn zeta beta iota.
  intros [= <- <- <- <-]. set (target := resolve_multiprocess_directory directory default_directory (env w)).
  cbn [env dirs]. assert (dget (dset (dset (env w) "PROMETHEUS_MULTIPROC_DIR" target) "prometheus_multiproc_dir" target)
    "PROMETHEUS_MULTIPROC_DIR" = Some target) as Hp by (by rewrite dget_dset_ne, dget_dset_eq).
  split_and!; [done|done|done|done|by rewrite dget_dset_eq| | |].
  - eexists. rewrite dget_dset_eq. split; [done|]. split.
    + intros e [_ He]%list_elem_of_filter'. by apply negb_true_iff in He.
    + intros old e Hold Hin Hf. rewrite Hold. apply list_elem_of_filter'. split; [done|]. by rewrite Hf.
  - intros d Hd. by rewrite dget_dset_ne.
  - intros Hne. unfold choose_registries, env_dir. apply is_empty_false in Hne. by rewrite Hp, Hne, Hne.
Qed.
End Runtime.
