(* ===== verification/Services.v ===== *)
(** * enums.py, time.py, models.py, geo/geoip.py and channels/: small services

    [Enums]: a string enum that decodes any value.  [Times]: moments without a
    zone.  [Geo]: the reader of the
    place of an address.  [Notifications]: the registry of channels and the
    SMTP channel; the SMTP client is what each of its commands does. *)

From S2P Require Import Prelude PyStr PyDict.
#[local] Open Scope string_scope.
#[local] Open Scope list_scope.
#[local] Open Scope Z_scope.

Module Enums.

Definition _UNKNOWN : string := "unknown".
(** A class: its members by name, its lookup by value (in [__new__]), and what
    [_missing_] counted. *)
Record EnumClass := {
  members : list (string * string); value2member : list (string * string); unknown_total : nat }.
(** The class statement: a value that occurs twice makes an alias, which the
    lookup by value does not know. *)
Definition class_of (declared : list (string * string)) : EnumClass :=
  {| members := declared;
     value2member := foldl (λ acc m, match dget acc m.2 with Some _ => acc | None => dset acc m.2 m.1 end) [] declared;
     unknown_total := 0%nat |}.
(** [__init_subclass__] *)
Definition init_subclass (c : EnumClass) : EnumClass :=
  match dget (members c) "UNKNOWN" with
  | Some _ => c
  | None =>
      {| members := dset (members c) "UNKNOWN" _UNKNOWN; value2member := dset (value2member c) _UNKNOWN "UNKNOWN";
         unknown_total := unknown_total c |}
  end.
Definition tolerant (declared : list (string * string)) : EnumClass := init_subclass (class_of declared).
(** [cls(value)]: the name of the member, through [_missing_] if there is none. *)
Definition missing (c : EnumClass) : string * EnumClass :=
  ("UNKNOWN", {| members := members c; value2member := value2member c; unknown_total := S (unknown_total c) |}).
Definition call (value : string) (c : EnumClass) : string * EnumClass :=
  match dget (value2member c) value with
  | Some m => (m, c)
  | None => missing c
  end.
(** [coerce] and [coerce_optional], of what [str(raw)] prints. *)
Definition coerce (raw : option string) (c : EnumClass) : string * EnumClass := call (default "" raw) c.
Definition coerce_optional (raw : option string) (c : EnumClass) : option string * EnumClass :=
  match raw with
  | None => (None, c)
  | Some s => if is_empty s then (None, c) else let '(m, c') := call s c in (Some m, c')
  end.

Lemma value2member_declared (declared : list (string * string)) : ∀ (acc : list (string * string)) value, NoDup (declared.*2) → wf acc →
  (∀ v, v ∈ dkeys acc → v ∉ declared.*2) →
  dget (foldl (λ acc m, match dget acc m.2 with Some _ => acc | None => dset acc m.2 m.1 end) acc declared) value =
  match dget acc value with
  | Some n => Some n
  | None => fst <$> List.find (λ m, bool_decide (m.2 = value)) declared
  end.
Proof.
  induction declared as [|[n v] declared IH]; intros acc value Hnd Hwf Hd; cbn; [by destruct (dget acc value)|].
  apply NoDup_cons in Hnd as [Hv Hnd].
  assert (dget acc v = None) as Hnone.
  { apply dget_None. intros Hin. apply (Hd v Hin). left. }
  rewrite Hnone, IH; [| done | by apply wf_dset |]; cycle 1.
  - intros x. rewrite dkeys_dset. case_decide; [intros Hx Hin; apply (Hd x Hx); by right|].
    intros [Hx| ->%list_elem_of_singleton]%elem_of_app; [intros Hin; apply (Hd x Hx); by right|done].
  - rewrite dget_dset. case_decide as Hvv; [subst; by rewrite Hnone, bool_decide_true|].
    by rewrite bool_decide_false.
Qed.
(** Decoding is total and exact: every declared member is decoded from
    its own value, uncounted, unless its value is the one of [UNKNOWN]; every
    other text decodes to [UNKNOWN] and is counted, but for the text of
    [UNKNOWN] itself; and an absent value stays absent where it may be. *)
Lemma tolerant_decoding declared c value :
  NoDup (declared.*1) → NoDup (declared.*2) → "UNKNOWN" ∉ declared.*1 → c = tolerant declared →
  call value c =
    (if decide (value = _UNKNOWN) then ("UNKNOWN", c)
     else match List.find (λ m, bool_decide (m.2 = value)) declared with
          | Some m => (m.1, c)
          | None => missing c
          end) ∧
  coerce_optional None c = (None, c) ∧ coerce_optional (Some "") c = (None, c) ∧
  coerce None c = call "" c ∧ (value ≠ "" → coerce_optional (Some value) c = (Some (call value c).1, (call value c).2)).
Proof.
  intros H1 H2 H3 ->. split.
  - unfold call, tolerant, init_subclass. assert (dget (members (class_of declared)) "UNKNOWN" = None) as -> by (by apply dget_None).
    cbn [value2member members]. rewrite dget_dset. case_decide as Hv.
    { subst. by rewrite decide_True. }
    rewrite decide_False by done. unfold class_of; cbn [value2member].
    rewrite value2member_declared; [cbn|done|apply wf_nil|by intros v ?%not_elem_of_nil].
    by destruct (List.find _ declared).
  - split; [done|]. split; [done|]. split; [done|]. intros Hv. unfold coerce_optional. destruct (is_empty value) eqn:He; [by destruct value|].
    by destruct (call value (tolerant declared)).
Qed.
Lemma tolerant_decoding_witness :
  let c := tolerant [("ACTIVE", "active"); ("GONE", "gone")] in
  call "gone" c = ("GONE", c) ∧ call "frozen" c = ("UNKNOWN", {| members := members c; value2member := value2member c; unknown_total := 1 |}).
Proof.
  intros c. pose proof (λ value, tolerant_decoding [("ACTIVE", "active"); ("GONE", "gone")] c value
    (bool_decide_eq_true_1 (NoDup ["ACTIVE"; "GONE"]) eq_refl) (bool_decide_eq_true_1 (NoDup ["active"; "gone"]) eq_refl)
    (bool_decide_eq_true_1 ("UNKNOWN" ∉ ["ACTIVE"; "GONE"]) eq_refl) eq_refl) as H.
  split; [exact (proj1 (H "gone"))|exact (proj1 (H "frozen"))].
Defined.
(** A declared member with the value of [UNKNOWN] cannot be decoded. *)
Example unknown_takes_a_members_value :
  (call "unknown" (tolerant [("NOT_SEEN", "unknown"); ("SEEN", "seen")])).1 = "UNKNOWN".
Proof. by vm_compute. Qed.
End Enums.

Module Times.

(** A datetime: its wall time in microseconds since the first moment of year 1,
    and the offset of its zone from UTC, in microseconds, when it has one. *)
Record Datetime := { wall : Z; utcoffset : option Z }.
Inductive TimeError := OverflowError.
Definition MAX : Z := 3652059 * 86400 * 1000000 - 1.
Definition valid (d : Datetime) : Prop := 0 <= wall d <= MAX.
Definition to_naive_utc (value : Datetime) : result TimeError Datetime :=
  match utcoffset value with
  | None => Ok value
  | Some offset =>
      let utc := wall value - offset in
      if (0 <=? utc) && (utc <=? MAX) then Ok {| wall := utc; utcoffset := None |} else Raise OverflowError
  end.
(** [TimestampedStruct] *)
Record TimestampedStruct := { created_at : Datetime; updated_at : Datetime }.
(** The moment of a datetime, on the line of UTC. *)
Definition moment (d : Datetime) : Z := wall d - default 0 (utcoffset d).
(** The result is the same moment without a zone, equal for equal moments, and
    itself unchanged by another conversion; a moment of no calendar year is an
    error, and only that. *)
Lemma naive_utc_keeps_the_moment d : valid d →
  match to_naive_utc d with
  | Ok n => valid n ∧ utcoffset n = None ∧ moment n = moment d ∧ to_naive_utc n = Ok n ∧
            ∀ d' n', to_naive_utc d' = Ok n' → moment d' = moment d → n' = n
  | Raise _ => is_Some (utcoffset d) ∧ ¬ 0 <= moment d <= MAX
  end.
Proof.
  assert (∀ d n, to_naive_utc d = Ok n → utcoffset n = None ∧ moment n = moment d) as Hok.
  { intros [w [o|]] n; unfold to_naive_utc, moment; cbn [wall utcoffset default from_option id]; [|by intros [= <-]].
    destruct (_ && _); [|done]. intros [= <-]. cbn. split; [done|lia]. }
  intros Hv. destruct (to_naive_utc d) as [n|] eqn:E.
  - destruct (Hok _ _ E) as [Hn Hm]. split_and!; [|done|done|by unfold to_naive_utc; rewrite Hn|].
    + revert E. destruct d as [w [o|]]; unfold to_naive_utc, valid in *; cbn in *; [|by intros [= <-]].
      destruct (_ && _) eqn:Hb; [|done]. intros [= <-]. cbn. apply andb_prop in Hb as [? ?]. lia.
    + intros d' n' E' Hd. destruct (Hok _ _ E') as [Hn' Hm']. destruct n as [w o], n' as [w' o']. unfold moment in *.
      cbn in *. subst. cbn in *. f_equal. lia.
  - revert E. destruct d as [w [o|]]; unfold to_naive_utc, moment; cbn [wall utcoffset default from_option id]; [|done].
    destruct (_ && _) eqn:Hb; [done|]. intros _. split; [by eexists|]. apply andb_false_iff in Hb. lia.
Qed.
End Times.

Module Geo.

Record Location := {
  city : option string; country : option string; latitude : option Q; longitude : option Q }.
Definition _UNKNOWN : Location := {| city := None; country := None; latitude := None; longitude := None |}.
Definition has_coordinates (l : Location) : bool :=
  bool_decide (is_Some (latitude l)) && bool_decide (is_Some (longitude l)).
Definition db_path (data_dir name : option string) : string * string :=
  (str_or (default "" data_dir) "/data/geoip", str_or (default "" name) "GeoLite2-City.mmdb").

Section geo.
(** A reader of the database, and what it answers for an address: a place,
    that it knows none (or that this is no address), or another exception. *)
Context {Reader : Type}.
Inductive Answer := found (l : Location) | address_not_found | broken.
Context (city_of : Reader → string → Answer).
Record State := { reader : option Reader; loaded : bool; opened : nat }.
Definition fresh : State := {| reader := None; loaded := false; opened := 0%nat |}.
(** [_get_reader]; [file] is the file at this moment: missing, one that cannot
    be opened, or one that can. *)
Definition get_reader (file : option (option Reader)) (s : State) : option Reader * State :=
  if loaded s then (reader s, s)
  else match file with
       | None => (reader s, {| reader := reader s; loaded := true; opened := opened s |})
       | Some None => (None, {| reader := None; loaded := true; opened := S (opened s) |})
       | Some (Some r) => (Some r, {| reader := Some r; loaded := true; opened := S (opened s) |})
       end.
Definition nonempty (o : option string) : option string := str_or_none (default "" o).
Definition locate (file : option (option Reader)) (ip_address : option string) (s : State) : Location * State :=
  match ip_address with
  | None => (_UNKNOWN, s)
  | Some ip =>
      if is_empty ip then (_UNKNOWN, s)
      else match get_reader file s with
           | (None, s') => (_UNKNOWN, s')
           | (Some r, s') =>
               match city_of r ip with
               | found l => ({| city := nonempty (city l); country := nonempty (country l);
                                latitude := latitude l; longitude := longitude l |}, s')
               | address_not_found | broken => (_UNKNOWN, s')
               end
           end
  end.
Definition resolve_geoip (file : option (option Reader)) (ip_address : option string) (s : State) :
    (option string * option string) * State :=
  let '(place, s') := locate file ip_address s in ((city place, country place), s').
Definition reset_reader_cache (s : State) : State := {| reader := None; loaded := false; opened := opened s |}.

(** Between two resets the file is opened once at most, and every lookup uses
    what was found then. *)
Lemma reader_is_opened_once file ips : ∀ s, loaded s = true →
  let s' := foldl (λ s x, (locate x.1 x.2 s).2) s (zip file ips) in
  opened s' = opened s ∧ reader s' = reader s ∧ loaded s' = true.
Proof.
  revert ips. induction file as [|f file IH]; intros [|ip ips] s Hl; cbn; try done.
  assert ((locate f ip s).2 = s) as ->; [|by apply IH].
  unfold locate, get_reader. destruct ip as [ip|]; [|done]. destruct (is_empty ip); [done|]. rewrite Hl.
  destruct (reader s) as [r|]; [|done]. by destruct (city_of r ip).
Qed.
End geo.

(** [distance_km] over the numbers' own trigonometry. *)
Section distance.
Context (radians sin cos asin sqrt : Q → Q).
Definition _EARTH_RADIUS_KM : Q := 6371.
Definition distance_km (a b : Location) : option Q :=
  match latitude a, longitude a, latitude b, longitude b with
  | Some la, Some lo, Some lb, Some lp =>
      let lat1 := radians la in let lon1 := radians lo in
      let lat2 := radians lb in let lon2 := radians lp in
      let dlat := lat2 - lat1 in let dlon := lon2 - lon1 in
      let h := sin (dlat / 2) ^ 2 + cos lat1 * cos lat2 * sin (dlon / 2) ^ 2 in
      Some (2 * _EARTH_RADIUS_KM * asin (sqrt (Qminb 1 h)))
  | _, _, _, _ => None
  end%Q.
Lemma distance_needs_coordinates a b : is_Some (distance_km a b) ↔ has_coordinates a && has_coordinates b = true.
Proof.
  unfold distance_km, has_coordinates. destruct a as [? ? [?|] [?|]], b as [? ? [?|] [?|]]; cbn;
    split; intros H; try done; try (by destruct H); by eexists.
Qed.
End distance.
End Geo.

Module Notifications.

Record Message := {
  to : string; body : string; subject : option string; html : option string; to_name : option string;
  meta : list (string * string) }.
Record DeliveryResult := { ok : bool; detail : option string }.

(** [ChannelRegistry], for any channels. *)
Section registry.
Context {C : Type} (name_of : C → string) (channel_send : C → Message → DeliveryResult).
Definition register (channels : list (string * C)) (c : C) : list (string * C) := dset channels (name_of c) c.
Definition channel_registry (l : list C) : list (string * C) := foldl register [] l.
Definition send (channels : list (string * C)) (name : string) (m : Message) : DeliveryResult :=
  match dget channels name with
  | Some c => channel_send c m
  | None => {| ok := false; detail := Some ("channel_unavailable:" +:+ name) |}
  end.
(** The last channel of a name is the one that sends. *)
Lemma registry_sends_by_last l c l' m : (∀ d, d ∈ l' → name_of d ≠ name_of c) →
  send (channel_registry (l ++ c :: l')) (name_of c) m = channel_send c m.
Proof.
  intros Hl'. unfold send, channel_registry. rewrite foldl_app. cbn.
  assert (∀ acc, dget acc (name_of c) = Some c → dget (foldl register acc l') (name_of c) = Some c) as Hkeep.
  { induction l' as [|d l' IH]; intros acc Ha; [done|]. cbn. apply IH; [intros e He; apply Hl'; by right|].
    unfold register. rewrite dget_dset_ne; [done|]. apply Hl'. left. }
  unfold register at 2. rewrite Hkeep; [done|]. apply dget_dset_eq.
Qed.
End registry.

(** [SmtpSettings] *)
Record SmtpSettings := {
  host : option string; port : Z; username : option string; password : option string; from_email : option string;
  from_name : option string; use_tls : bool; use_ssl : bool; timeout_seconds : Z }.
Definition truthy (o : option string) : bool := negb (is_empty (default "" o)).
Definition enabled (s : SmtpSettings) : bool := truthy (host s) && truthy (from_email s).
Definition parse_int (value : option string) (default : Z) : Z :=
  match value with
  | Some v => if is_empty v then default else match py_int v with Some z => z | None => default end
  | None => default
  end.
Definition parse_bool (value : option string) (default : bool) : bool :=
  match value with
  | Some v => if is_empty v then default else bool_decide (lower (strip v) ∈ ["1"; "true"; "yes"; "on"])
  | None => default
  end.
(** [from_env] without msgspec_conf *)
Definition from_env (source : string → option string) (prefix : string) : SmtpSettings :=
  {| host := source (prefix +:+ "HOST"); port := parse_int (source (prefix +:+ "PORT")) 587;
     username := source (prefix +:+ "USERNAME"); password := source (prefix +:+ "PASSWORD");
     from_email := source (prefix +:+ "FROM_EMAIL"); from_name := source (prefix +:+ "FROM_NAME");
     use_tls := parse_bool (source (prefix +:+ "USE_TLS")) true;
     use_ssl := parse_bool (source (prefix +:+ "USE_SSL")) false;
     timeout_seconds := parse_int (source (prefix +:+ "TIMEOUT_SECONDS")) 10 |}.
(** [SmtpChannel.__init__] writes to the settings it was given. *)
Definition smtp_channel (s : SmtpSettings) : SmtpSettings :=
  {| host := host s; port := port s; username := username s; password := password s; from_email := from_email s;
     from_name := from_name s; use_tls := use_tls s && negb (use_ssl s); use_ssl := use_ssl s;
     timeout_seconds := timeout_seconds s |}.

Section smtp.
(** [formataddr], and which texts [email] takes as headers: it raises on
    others, such as one with a line break. *)
Context (formataddr : string → string → string) (header_ok : string → bool).
Record Email := { e_subject : string; e_from : string; e_to : string; e_body : string; e_html : option string }.
Inductive Command :=
  | connect (ssl : bool) (host : string) (port timeout : Z) | starttls | login (user password : string)
  | send_message (e : Email).
Inductive SendError := header_refused.
Definition sender_email (s : SmtpSettings) (m : Message) : option string :=
  if truthy (dget (meta m) "from_email") then dget (meta m) "from_email" else from_email s.
Definition sender_name (s : SmtpSettings) (m : Message) : option string :=
  if truthy (dget (meta m) "from_email") then dget (meta m) "from_name"
  else if truthy (dget (meta m) "from_name") then dget (meta m) "from_name" else from_name s.
Definition address (name : option string) (email : string) : string :=
  if truthy name then formataddr (default "" name) email else email.
Definition email_of (s : SmtpSettings) (m : Message) (sender : string) : result SendError Email :=
  let subject := default "" (subject m) in
  let from_ := address (sender_name s m) sender in
  let to_ := address (to_name m) (to m) in
  _ ← raise_if (negb (header_ok subject)) header_refused;
  _ ← raise_if (negb (header_ok from_)) header_refused;
  _ ← raise_if (negb (header_ok to_)) header_refused;
  Ok {| e_subject := subject; e_from := from_; e_to := to_; e_body := body m;
        e_html := if truthy (html m) then html m else None |}.
Definition session (s : SmtpSettings) (h : string) (e : Email) : list Command :=
  [connect (use_ssl s) h (port s) (timeout_seconds s)] ++
  (if use_tls s && negb (use_ssl s) then [starttls] else []) ++
  (if truthy (username s) then [login (default "" (username s)) (default "" (password s))] else []) ++
  [send_message e].
(** The commands up to the first that fails. *)
Fixpoint execute (fails : Command → bool) (l : list Command) : bool * list Command :=
  match l with
  | [] => (true, [])
  | c :: l' => if fails c then (false, [c]) else let '(r, done_) := execute fails l' in (r, c :: done_)
  end.
(** [_send_blocking], with the commands it issued. *)
Definition send_blocking (fails : Command → bool) (s : SmtpSettings) (m : Message) :
    result SendError DeliveryResult * list Command :=
  match sender_email s m, host s with
  | Some sender, Some h =>
      if negb (enabled s) || is_empty sender || is_empty h then
        (Ok {| ok := false; detail := Some "smtp_not_configured" |}, [])
      else match email_of s m sender with
           | Raise e => (Raise e, [])
           | Ok e =>
               match execute fails (session s h e) with
               | (true, l) => (Ok {| ok := true; detail := None |}, l)
               | (false, l) => (Ok {| ok := false; detail := Some "smtp_send_failed" |}, l)
               end
           end
  | _, _ => (Ok {| ok := false; detail := Some "smtp_not_configured" |}, [])
  end.

Lemma execute_spec fails l : ∀ r done_, execute fails l = (r, done_) →
  if r then done_ = l ∧ ∀ c, c ∈ l → fails c = false
  else ∃ rest, l = done_ ++ rest ∧ ∃ c, c ∈ done_ ∧ fails c = true.
Proof.
  induction l as [|c l IH]; intros r d; cbn.
  { intros [= <- <-]. split; [done|]. by intros c ?%not_elem_of_nil. }
  destruct (fails c) eqn:Hc.
  { intros [= <- <-]. exists l. split; [done|]. exists c. split; [by left|done]. }
  destruct (execute fails l) as [[|] d'] eqn:He; intros [= <- <-]; specialize (IH _ _ eq_refl).
  - destruct IH as [-> Hall]. split; [done|]. intros x [->|Hx]%elem_of_cons; [done|by apply Hall].
  - destruct IH as (rest & -> & x & Hx & Hf). exists rest. split; [done|]. exists x. split; [by right|done].
Qed.
(** Where a session is safe. *)
Lemma session_is_protected settings h e before_ c after_ :
  use_tls settings || use_ssl settings = true → session (smtp_channel settings) h e = before_ ++ c :: after_ →
  match c with
  | login _ _ | send_message _ => starttls ∈ before_ ∨ ∃ h p t, connect true h p t ∈ before_
  | _ => True
  end.
Proof.
  unfold session; cbn [use_ssl use_tls smtp_channel]. intros Hp Hs.
  destruct (use_ssl settings) eqn:Hssl; [|rewrite orb_false_r in Hp; rewrite Hp in Hs]; cbn in Hs.
  - destruct before_ as [|x bs]; cbn in Hs; injection Hs as <- Hs; [done|].
    assert (∃ h' p t, connect true h' p t ∈ connect true h (port settings) (timeout_seconds settings) :: bs) as Hin
      by (eexists _, _, _; left). destruct c; try done; by right.
  - destruct before_ as [|x bs]; cbn in Hs; injection Hs as <- Hs; [done|].
    destruct bs as [|y bs]; cbn in Hs; injection Hs as <- Hs; [done|].
    assert (starttls ∈ connect false h (port settings) (timeout_seconds settings) :: starttls :: bs) as Hin by (right; left).
    destruct c; try done; by left.
Qed.
(** A message is delivered exactly when it was handed to the server, and
    no secret and no message travels in the clear that need not: [ok] is told
    only after every command of the session, the message with the sender and
    the recipient it should have among them, succeeded; a channel that was
    configured for TLS or SSL has turned it on before it logs in or sends;
    and anything but a header that [email] refuses is an answer, not an
    exception. *)
Lemma mail_is_sent_as_configured fails settings m :
  let s := smtp_channel settings in
  match send_blocking fails s m with
  | (Raise header_refused, l) => l = [] ∧ ∃ h, header_ok h = false
  | (Ok r, l) =>
      (ok r = true ↔ ∃ sender h e, sender_email s m = Some sender ∧ host s = Some h ∧ email_of s m sender = Ok e ∧
         l = session s h e ∧ (∀ c, c ∈ l → fails c = false)) ∧
      (use_tls settings || use_ssl settings = true → ∀ before_ c after_, l = before_ ++ c :: after_ →
         match c with
         | login _ _ | send_message _ => starttls ∈ before_ ∨ ∃ h p t, connect true h p t ∈ before_
         | _ => True
         end)
  end.
Proof.
  intros s. unfold send_blocking.
  destruct (sender_email s m) as [sender|] eqn:Hsender; cycle 1.
  { split; [split; [done|by intros (? & ? & ? & ? & _)]|]. intros _ [|? ?] ? ?; done. }
  destruct (host s) as [h|] eqn:Hh; cycle 1.
  { split; [split; [done|by intros (? & ? & ? & _ & ? & _)]|]. intros _ [|? ?] ? ?; done. }
  destruct (negb (enabled s) || is_empty sender || is_empty h) eqn:Hen.
  { split; [split; [done|]|intros _ [|? ?] ? ?; done]. cbn. intros (sender' & h' & e & _ & _ & _ & Hl & _). done. }
  destruct (email_of s m sender) as [e|[]] eqn:He; cycle 1.
  { split; [done|]. unfold email_of, raise_if in He.
    destruct (header_ok (default "" (subject m))) eqn:H1; cbn in He; [|by eexists].
    destruct (header_ok (address (sender_name s m) sender)) eqn:H2; cbn in He; [|by eexists].
    destruct (header_ok (address (to_name m) (to m))) eqn:H3; cbn in He; [done|by eexists]. }
  destruct (execute fails (session s h e)) as [[|] l] eqn:Hx; pose proof (execute_spec _ _ _ _ Hx) as Hspec; cbn.
  - destruct Hspec as [-> Hall]. split; [split; [|done]; intros _; by exists sender, h, e|].
    intros Hp before_ c after_ Hl. by apply (session_is_protected settings h e before_ c after_).
  - destruct Hspec as (rest & Hrest & x & Hxin & Hf). split.
    + split; [done|]. intros (sender' & h' & e' & _ & _ & _ & _ & Hall). by rewrite Hall in Hf.
    + intros Hp before_ c after_ ->. apply (session_is_protected settings h e before_ c (after_ ++ rest)); [done|].
      fold s. by rewrite Hrest, <-(assoc_L (++)).
Qed.
End smtp.
(** A recipient with a line break is an exception of the sender's call, and a
    channel that prefers SSL turns TLS off in the settings it shares. *)
Example header_break_raises :
  let settings := {| host := Some "mail"; port := 587; username := None; password := None; from_email := Some "a@b";
                     from_name := None; use_tls := true; use_ssl := false; timeout_seconds := 10 |} in
  let m := {| to := String "x" (String (ascii_of_nat 10) "y"); body := ""; subject := None; html := None; to_name := None; meta := [] |} in
  (send_blocking (λ n e, n +:+ e) (sall (λ c, (32 <=? code c)%N)) (λ _, false) (smtp_channel settings) m).1 = Raise header_refused.
Proof. by vm_compute. Qed.
End Notifications.
