(* ===== verification/ArchLinter.v ===== *)
(** * dev/arch_linter.py: the architecture linter

    The rules as the tables of the source, [check_file], [check_observability]
    and [main].  Patterns are read by Regex.v from the text the source has.  A
    file is its path, below the root, and what reading it gives; the banners
    and the text of the final report are not modelled. *)

From S2P Require Import Prelude PyStr Regex.

#[local] Open Scope string_scope.

(** [str.splitlines] *)
Definition is_break (c : ascii) : bool := in_range 10 13 c || in_range 28 30 c || (code c =? 133)%N.
Fixpoint splitlines (s : string) : list string :=
  match s with
  | EmptyString => []
  | String c t =>
      if is_break c then
        EmptyString :: match t with
                       | String d u => if (code c =? 13)%N && (code d =? 10)%N then splitlines u else splitlines t
                       | EmptyString => []
                       end
      else match splitlines t with
           | [] => [String c EmptyString]
           | w :: ws => String c w :: ws
           end
  end.

Module ArchLinter.

Record Rule := {
  code : string; pattern : string; name : string; reason : string;
  trigger : option string; negative_trigger : option string; exclude_files : option string }.

Definition INTERNAL_SERVICE_NAMES : list string :=
  ["auth_service"; "billing_service"; "bot_service"; "community_service"; "agent_gateway";
   "monitoring_service"; "realtime_gateway"; "server_service"; "whitelist_service"].

Definition IGNORE_PATHS : list string :=
  [".venv"; "venv"; "__pycache__"; ".git"; "tests"; "migrations"; "alembic"; "node_modules"; "dist"; "generated"].

Definition FORBIDDEN_GLOBAL : list Rule := [
  {| code := "aiohttp"; pattern := "aiohttp\.ClientSession\("; name := "Forbidden aiohttp";
     reason := "Use 'httpx.AsyncClient' or shared clients from service-toolkit.";
     trigger := None; negative_trigger := None; exclude_files := None |};
  {| code := "aiohttp-import"; pattern := "^\s*(import\s+aiohttp|from\s+aiohttp)"; name := "Forbidden aiohttp import";
     reason := "Use 'httpx' instead of 'aiohttp'.";
     trigger := None; negative_trigger := None; exclude_files := None |};
  {| code := "requests"; pattern := "\brequests\.(get|post|put|delete|patch)\("; name := "Blocking requests call";
     reason := "Forbidden in async services. Use 'httpx.AsyncClient'.";
     trigger := None; negative_trigger := None; exclude_files := None |};
  {| code := "time-sleep"; pattern := "\btime\.sleep\("; name := "Blocking time.sleep";
     reason := "Forbidden in async services. Use 'asyncio.sleep()'.";
     trigger := None; negative_trigger := None; exclude_files := None |};
  {| code := "print"; pattern := "\bprint\("; name := "Raw print() found";
     reason := "Use structured logging (structlog) with proper context.";
     trigger := None; negative_trigger := None; exclude_files := None |};
  {| code := "bare-except"; pattern := "except\s*:"; name := "Bare except";
     reason := "Forbidden. Catch 'Exception' or specific errors.";
     trigger := None; negative_trigger := None; exclude_files := None |};
  {| code := "untracked-todo"; pattern := "\bTODO\b|\bFIXME\b"; name := "Untracked TODO";
     reason := "TODO/FIXME must have a reference to an issue (LP-123) or URL.";
     trigger := None; negative_trigger := Some "LP-\d+|https?://|#\d+"; exclude_files := None |} ].

Definition CONDITIONALLY_FORBIDDEN : list Rule := [
  {| code := "cache-lock"; pattern := "asyncio\.Lock\(\)"; name := "Manual Cache Lock";
     reason := "Manual locks around cache logic are error-prone. Use 'service_toolkit.LookupCache'.";
     trigger := Some "\b(cache|ttl|memo|dedup)\b"; negative_trigger := None; exclude_files := None |};
  {| code := "ad-hoc-client"; pattern := "httpx\.AsyncClient\("; name := "Ad-hoc Client Creation";
     reason := "Clients must be managed in lifespan/singletons to reuse connections.";
     trigger := None; negative_trigger := None;
     exclude_files := Some "lifespan|startup|singleton|client|conftest|core/config|deps|container|di|wiring|app" |};
  {| code := "dangerous-timeout"; pattern := "timeout\s*=\s*None|httpx\.Timeout\(\s*None\s*\)"; name := "Dangerous Timeout";
     reason := "Infinite timeout detected. Always specify a finite timeout (e.g. 5.0).";
     trigger := None; negative_trigger := None; exclude_files := None |};
  {| code := "env-access"; pattern := "os\.(environ|getenv)\("; name := "Direct Env Access";
     reason := "Avoid accessing env vars directly in business logic. Use the 'settings' object.";
     trigger := None; negative_trigger := None; exclude_files := Some "core/config|settings|env|constants" |};
  {| code := "request-scope-verifier"; pattern := "JWTVerifier\(|JWKSCache\("; name := "Request-scope Verifier";
     reason := "JWTVerifier/JWKSCache created in connection/request scope. This causes JWKS spam. Move to singleton/lifespan or use a provider-owned shared verifier helper.";
     trigger := Some "class\s+\w+(Handler|Socket|Connection)"; negative_trigger := None;
     exclude_files := Some "singleton|lifespan|app|deps|container" |} ].

Definition RULES : list Rule := FORBIDDEN_GLOBAL ++ CONDITIONALLY_FORBIDDEN.
Definition CODE_SILENT_EXCEPTION := "silent-except".
Definition CODE_TIGHT_LOOP := "tight-loop".
Definition CODE_BOUNDARY := "boundary".

Definition compiled (r : Rule) : re := compile no_flags (pattern r).
Definition compiled_trigger (r : Rule) : option re := compile only_ignorecase <$> trigger r.
Definition compiled_negative_trigger (r : Rule) : option re := compile only_ignorecase <$> negative_trigger r.
Definition compiled_exclude (r : Rule) : option re := compile only_ignorecase <$> exclude_files r.

Lemma patterns_are_read :
  forallb (λ r, parses no_flags (pattern r) && forallb (parses only_ignorecase)
    (omap id [trigger r; negative_trigger r; exclude_files r])) RULES = true.
Proof. vm_compute. reflexivity. Qed.

(** ** Suppression *)

Definition strip_comments (line : string) : string := rstrip_by is_space (default EmptyString (head (split "#" line))).

Definition NOQA : string := "#\s*noqa:\s*archlint(?:\s*[=(]\s*(?P<codes>[\w\-][\w\-,\s]*?)\s*\)?\s*$)?".
Definition _NOQA_ARCHLINT_RE : re := compile {| MULTILINE := true; IGNORECASE := true |} NOQA.

(** A frozenset of codes, or the sentinel [_SUPPRESS_ALL], which the code
    tells apart by identity. *)
Inductive suppression := SUPPRESS_ALL | Only (codes : list string).

Definition _archlint_suppression (text : string) : option suppression :=
  match search _NOQA_ARCHLINT_RE text with
  | None => None
  | Some (_, (_, cs)) =>
      match group cs "codes" with
      | None | Some EmptyString => Some SUPPRESS_ALL
      | Some codes => Some (Only (List.filter (λ c, negb (is_empty c)) (strip <$> split "," codes)))
      end
  end.

Definition names_code (c : string) (s : suppression) : bool :=
  match s with SUPPRESS_ALL => true | Only l => bool_decide (c ∈ l) end.

Definition _is_suppressed (c line : string) (file_suppression : suppression) : bool :=
  names_code c file_suppression ||
  match _archlint_suppression line with None => false | Some s => names_code c s end.

(** The loop over the lines that builds [file_suppression]. *)
Fixpoint file_suppression (lines : list string) (acc : list string) : suppression :=
  match lines with
  | [] => Only acc
  | line :: lines =>
      match _archlint_suppression line with
      | None => file_suppression lines acc
      | Some SUPPRESS_ALL => SUPPRESS_ALL
      | Some (Only cs) => file_suppression lines (acc ++ cs)
      end
  end.

(** ** The checks of a file *)

Definition newlines : string := String newline EmptyString.
Definition excluded (r : Rule) (path : string) : bool :=
  match compiled_exclude r with Some e => found e path | None => false end.
Definition triggered (r : Rule) (content : string) : bool :=
  match compiled_trigger r with Some t => found t content | None => true end.
(** What is looked for on one line. *)
Definition offends (r : Rule) (line : string) : bool :=
  let clean_line := strip_comments line in
  found (compiled r) clean_line &&
  match compiled_negative_trigger r with Some n => negb (found n clean_line) | None => true end.

Definition at_line (path : string) (i : nat) : string := path +:+ ":" +:+ pretty (i + 1)%nat +:+ ": ".
Definition shown (line : string) : string := newlines +:+ "  -> " +:+ strip line.

(** [for i, line in enumerate(lines)], appending messages. *)
Definition enumerate (f : nat → string → list string) (lines : list string) : list string :=
  mjoin (imap f lines).

Definition rule_message (path : string) (r : Rule) (i : nat) (line : string) : string :=
  at_line path i +:+ name r +:+ " - " +:+ reason r +:+ shown line.

Definition check_rule (path content : string) (lines : list string) (fs : suppression) (r : Rule) : list string :=
  if names_code (code r) fs then [] else
  if negb (found (compiled r) content) then [] else
  if excluded r path then [] else
  if negb (triggered r content) then [] else
  enumerate (λ i line,
    if _is_suppressed (code r) line fs then [] else
    if offends r line then [rule_message path r i line] else []) lines.

Definition import_name (service : string) : string := replace_char "-" "_" service.
Definition boundary_pattern (service : string) : re :=
  compile no_flags ("^\s*(from|import)\s+(\w+\.)*" +:+ import_name service +:+ "\b").
Definition boundary_message (path other : string) (i : nat) (line : string) : string :=
  at_line path i +:+ "Boundary Violation - Direct import from '" +:+ other +:+ "' forbidden." +:+ shown line.

Definition check_boundary (path : string) (current_service : option string) (lines : list string) (fs : suppression) : list string :=
  match current_service with
  | None | Some EmptyString => []
  | Some service =>
      if names_code CODE_BOUNDARY fs then [] else
      List.flat_map (λ other_service,
        if bool_decide (import_name other_service = service) then [] else
        enumerate (λ i line,
          if _is_suppressed CODE_BOUNDARY line fs then [] else
          if found (boundary_pattern other_service) (strip_comments line)
          then [boundary_message path other_service i line] else []) lines) INTERNAL_SERVICE_NAMES
  end.

Definition following (n i : nat) (lines : list string) : string := join newlines (take n (drop (i + 1) lines)).
Definition catches (line : string) : bool := contains "except Exception:" line || contains "except Exception as" line.
Definition handles (block : string) : bool :=
  existsb (λ kw, contains kw block) ["log"; "error"; "exception"; "raise"; "structlog"; "pass"].
Definition silent_message (path : string) (i : nat) : string :=
  at_line path i +:+ "Silent Exception - Exception caught but no logging or re-raise found in the next 5 lines.".

Definition check_silent (path : string) (lines : list string) (fs : suppression) : list string :=
  if names_code CODE_SILENT_EXCEPTION fs then [] else
  enumerate (λ i line,
    if catches line then
      if _is_suppressed CODE_SILENT_EXCEPTION line fs then [] else
      if handles (lower (following 5 i lines)) then [] else [silent_message path i]
    else []) lines.

Definition waits (block : string) : bool :=
  contains "asyncio.sleep" block || contains "await " block || contains "break" block.
Definition loop_message (path : string) (i : nat) : string :=
  at_line path i +:+ "Tight Loop Warning - 'while True' loop found without 'asyncio.sleep' in the next 10 lines.".

Definition check_loops (path : string) (lines : list string) (fs : suppression) : list string :=
  if names_code CODE_TIGHT_LOOP fs then [] else
  enumerate (λ i line,
    if contains "while True:" line then
      if _is_suppressed CODE_TIGHT_LOOP line fs then [] else
      if waits (following 10 i lines) then [] else [loop_message path i]
    else []) lines.

(** An exception while reading is printed, and the file has no errors. *)
Definition check_file {E} (path : string) (current_service : option string) (read : result E string) : list string :=
  match read with
  | Raise _ => []
  | Ok content =>
      let lines := splitlines content in
      match file_suppression lines [] with
      | SUPPRESS_ALL => []
      | fs => List.flat_map (check_rule path content lines fs) RULES
              ++ check_boundary path current_service lines fs
              ++ check_silent path lines fs ++ check_loops path lines fs
      end
  end.

(** ** The project *)

Record File E := { parts : list string; read : result E string }.
#[global] Arguments parts {_} _.
#[global] Arguments read {_} _.
Definition path_of {E} (f : File E) : string := "/" +:+ join "/" (parts f).
Definition ignored {E} (f : File E) : bool := existsb (λ part, bool_decide (part ∈ IGNORE_PATHS)) (parts f).

Fixpoint combined {E} (files : list (File E)) : result E string :=
  match files with
  | [] => Ok EmptyString
  | f :: files =>
      if ignored f then combined files else
      text ← read f; rest ← combined files; Ok (text +:+ newlines +:+ rest)
  end.

Definition either_quote : string := "[\'" +:+ String dquote "]".
Definition route (path : string) : string := "(\.get\(|\.route\()\s*" +:+ either_quote +:+ "\/" +:+ path +:+ either_quote.
Definition literal_path (path : string) : string := either_quote +:+ "\/" +:+ path +:+ either_quote.
Definition markers : list (list string * string) := [
  ([route "metrics"; "build_prometheus_instrumentation\s*\("; literal_path "metrics"], "Prometheus /metrics");
  ([route "health"; "\bHealthController\b"; literal_path "health"], "Health /health");
  ([route "ready"; "\bHealthController\b"; literal_path "ready"], "Readiness /ready");
  (["opentelemetry|instrumentation|tracer|setup_tracing\s*\("], "OpenTelemetry init")].

Definition missing_contract (name : string) : string := "Missing Observability Contract: Project must implement " +:+ name.
Definition check_observability {E} (files : list (File E)) : result E (list string) :=
  content_combined ← combined files;
  if found (compile no_flags "\bcreate_service_app\s*\(") content_combined then Ok [] else
  Ok (List.flat_map (λ '(patterns, name),
        if existsb (λ p, found (compile no_flags p) content_combined) patterns then [] else [missing_contract name]) markers).

Definition SERVICE_DIRS : list string :=
  (replace_char "-" "_" <$> INTERNAL_SERVICE_NAMES) ++ (replace_char "_" "-" <$> INTERNAL_SERVICE_NAMES).
Definition current_service_of (root : list string) : option string :=
  replace_char "-" "_" <$> List.find (λ part, bool_decide (part ∈ SERVICE_DIRS)) root.

(** [main]: the argument's absolute path, whether it exists, the Python files
    below it.  The result is the exit code and the violations reported. *)
Definition main {E} (argument : option (list string)) (exists_ : bool) (files : list (File E)) : result E (Z * list string) :=
  match argument with
  | None => Ok (1%Z, [])
  | Some search_root =>
      if negb exists_ then Ok (1%Z, []) else
      let current_service := current_service_of search_root in
      let total_errors := List.flat_map (λ f, if ignored f then [] else check_file (path_of f) current_service (read f)) files in
      observed ← check_observability files;
      let total_errors := (total_errors ++ observed)%list in
      Ok (if bool_decide (total_errors = []) then 0%Z else 1%Z, total_errors)
  end.


(** ** What the linter promises *)

(** A comment on a line silences a code, or all of them. *)
Definition silences (line c : string) : Prop :=
  ∃ s, _archlint_suppression line = Some s ∧ names_code c s = true.
Definition silenced (text c : string) : Prop := ∃ line, line ∈ splitlines text ∧ silences line c.

Inductive violation (path : string) (service : option string) (text : string) : string → Prop :=
  | breaks_rule r i line :
      r ∈ RULES → splitlines text !! i = Some line → ¬ silenced text (code r) →
      excluded r path = false → triggered r text = true → offends r line = true →
      (anchor_free (compiled r) = false → found (compiled r) text = true) →
      violation path service text (rule_message path r i line)
  | crosses_boundary s other i line :
      service = Some s → s ≠ EmptyString → other ∈ INTERNAL_SERVICE_NAMES → import_name other ≠ s →
      splitlines text !! i = Some line → ¬ silenced text CODE_BOUNDARY →
      found (boundary_pattern other) (strip_comments line) = true →
      violation path service text (boundary_message path other i line)
  | catches_silently i line :
      splitlines text !! i = Some line → ¬ silenced text CODE_SILENT_EXCEPTION →
      catches line = true → handles (lower (following 5 i (splitlines text))) = false →
      violation path service text (silent_message path i)
  | loops_tightly i line :
      splitlines text !! i = Some line → ¬ silenced text CODE_TIGHT_LOOP →
      contains "while True:" line = true → waits (following 10 i (splitlines text)) = false →
      violation path service text (loop_message path i).

(** *** Suppression is for the whole file *)

Lemma file_suppression_spec c lines : ∀ acc,
  names_code c (file_suppression lines acc) = true ↔ c ∈ acc ∨ ∃ line, line ∈ lines ∧ silences line c.
Proof.
  unfold silences. induction lines as [|line lines IH]; intros acc; cbn [file_suppression].
  - cbn [names_code]. rewrite bool_decide_eq_true. set_solver.
  - destruct (_archlint_suppression line) as [[|cs]|] eqn:Hs; [| |].
    + split; [|done]. intros _. right. exists line. split; [set_solver|by eexists].
    + rewrite IH, elem_of_app. setoid_rewrite elem_of_cons. split.
      * intros [[H|H]|(l & Hl & H)]; [by left|right; exists line; split; [by left|]|right; exists l; auto].
        exists (Only cs). split; [done|]. by apply bool_decide_eq_true.
      * intros [H|(l & [->|Hl] & s & Hl2 & H)]; [by left; left| |right; eauto].
        left. right. rewrite Hs in Hl2. injection Hl2 as <-. by apply bool_decide_eq_true in H.
    + rewrite IH. setoid_rewrite elem_of_cons. split.
      * intros [H|(l & Hl & H)]; [by left|right; eauto].
      * intros [H|(l & [->|Hl] & s & Hl2 & H)]; [by left|congruence|right; eauto].
Qed.

Lemma silenced_spec text c : names_code c (file_suppression (splitlines text) []) = true ↔ silenced text c.
Proof. rewrite file_suppression_spec. unfold silenced. set_solver. Qed.

(** The comment of a line never decides: the file's codes contain its own. *)
Lemma is_suppressed_spec text c line : line ∈ splitlines text →
  _is_suppressed c line (file_suppression (splitlines text) []) = names_code c (file_suppression (splitlines text) []).
Proof.
  intros Hl. unfold _is_suppressed. destruct (names_code c (file_suppression _ _)) eqn:Hf; [done|]. cbn [orb].
  destruct (_archlint_suppression line) as [s|] eqn:Hs; [|done]. destruct (names_code c s) eqn:Hn; [|done].
  rewrite <-Hf. symmetry. apply silenced_spec. exists line. split; [done|]. by exists s.
Qed.

(** *** The file is searched first *)

(** A line that is not the first one, between characters that are no part of
    a word. *)
Definition inner (s line : string) : Prop := ∃ a b, s = a +:+ line +:+ b ∧ a ≠ EmptyString ∧
  word_at (last_char None a) = false ∧ word_at (next (None, b)) = false.
Definition first (s line : string) : Prop := ∃ b, s = line +:+ b ∧ word_at (next (None, b)) = false.

Lemma break_ends_words c : is_break c = true → is_word c = false.
Proof.
  intros H. apply negb_true_iff. revert H. apply implb_true_iff. revert c.
  apply (forall_ascii (λ c, implb (is_break c) (negb (is_word c)))). vm_compute. reflexivity.
Qed.

Lemma inner_cons c s line : inner s line → inner (String c s) line.
Proof.
  intros (a & b & -> & Ha & Hl & Hb). exists (String c a), b. repeat split; [done|by destruct a|done].
Qed.

Lemma inner_break c s line : is_break c = true → first s line → inner (String c s) line.
Proof.
  intros Hc (b & -> & Hb). exists (String c EmptyString), b. repeat split; [done|by apply break_ends_words|done].
Qed.

Lemma splitlines_places n : ∀ s, (String.length s <= n)%nat →
  match splitlines s with [] => True | w :: ws => first s w ∧ ∀ line, line ∈ ws → inner s line end.
Proof.
  induction n as [|n IH]; intros [|c t] Hn; cbn [splitlines]; [done|cbn in Hn; lia|done|].
  assert (Hafter : ∀ t', (String.length t' <= n)%nat → is_break c = true → ∀ line, line ∈ splitlines t' → inner (String c t') line).
  { intros t' Ht' Hc line. specialize (IH t' Ht'). destruct (splitlines t') as [|w ws]; [by intros ?%elem_of_nil|].
    destruct IH as [Hf Hi]. intros [->|Hl]%elem_of_cons; [by apply inner_break|by apply inner_cons, Hi]. }
  destruct (is_break c) eqn:Hc.
  - split; [exists (String c t); split; [done|by apply break_ends_words]|].
    destruct t as [|d u]; [by intros line ?%elem_of_nil|]. destruct (_ && _) eqn:Hd; [|intros line; apply Hafter; [cbn in *; lia|done]].
    intros line Hl. apply inner_cons. apply andb_true_iff in Hd as [_ Hd%N.eqb_eq].
    assert (is_break d = true) by (unfold is_break, in_range; by rewrite Hd).
    specialize (IH u ltac:(cbn in *; lia)). destruct (splitlines u) as [|w ws]; [by apply elem_of_nil in Hl|].
    destruct IH as [Hf Hi]. apply elem_of_cons in Hl as [->|Hl]; [by apply inner_break|by apply inner_cons, Hi].
  - specialize (IH t ltac:(cbn in *; lia)). destruct (splitlines t) as [|w ws] eqn:Ht.
    + split; [|by intros line ?%elem_of_nil]. exists t. split; [done|].
      destruct t as [|d u]; [done|]. cbn [splitlines] in Ht. destruct (is_break d); [done|]. by destruct (splitlines u).
    + destruct IH as [(b & -> & Hb) Hi]. split; [by exists b|]. intros line Hl. by apply inner_cons, Hi.
Qed.

Lemma splitlines_stretch s line : line ∈ splitlines s →
  ∃ a b, s = a +:+ line +:+ b ∧ word_at (last_char None a) = false ∧ word_at (next (None, b)) = false.
Proof.
  pose proof (splitlines_places (String.length s) s (le_n _)) as H. destruct (splitlines s) as [|w ws]; [by intros ?%elem_of_nil|].
  destruct H as [(b & Hb & Hn) Hi]. intros [->|Hl]%elem_of_cons; [by exists EmptyString, b|].
  destruct (Hi line Hl) as (a & b' & ? & _ & ? & ?). by exists a, b'.
Qed.

Lemma rstrip_stretch p s : ∃ w, s = rstrip_by p s +:+ w ∧ sall p w = true.
Proof.
  induction s as [|c s (w & Hs & Hw)]; [by exists EmptyString|]. cbn [rstrip_by].
  destruct (rstrip_by p s) as [|d u]; [|exists w; split; [|done]; cbn; by f_equal].
  cbn in Hs. subst w. destruct (p c) eqn:Hc; [exists (String c s); cbn; by rewrite Hc|by exists s].
Qed.

Lemma split_stretch c s : ∃ b, s = default EmptyString (head (split c s)) +:+ b ∧ (b = EmptyString ∨ next (None, b) = Some c).
Proof.
  induction s as [|d s (b & Hs & Hb)]; [exists EmptyString; auto|]. cbn [split]. destruct (decide (d = c)) as [->|Hd].
  - exists (String c s). auto.
  - exists b. split; [|done]. destruct (split c s) as [|w ws] eqn:Hw; [by destruct (split_nonempty c s)|].
    cbn in *. by f_equal.
Qed.

Lemma space_ends_words c : is_space c = true → is_word c = false.
Proof.
  intros H. apply negb_true_iff. revert H. apply implb_true_iff. revert c.
  apply (forall_ascii (λ c, implb (is_space c) (negb (is_word c)))). vm_compute. reflexivity.
Qed.

Lemma strip_comments_stretch line : ∃ b, line = strip_comments line +:+ b ∧ word_at (next (None, b)) = false.
Proof.
  unfold strip_comments. destruct (split_stretch "#" line) as (b & Hb & Hend). set (h := default _ _) in *.
  destruct (rstrip_stretch is_space h) as (w & Hw & Hs). exists (w +:+ b). split.
  - by rewrite <-append_assoc, <-Hw.
  - destruct w as [|c w]; cbn.
    + by destruct Hend as [->|Hend]; [|cbn in Hend; rewrite Hend].
    + cbn in Hs. apply andb_true_iff in Hs as [Hs _]. by apply space_ends_words.
Qed.

Lemma offence_is_in_the_file r text line : anchor_free (compiled r) = true →
  line ∈ splitlines text → offends r line = true → found (compiled r) text = true.
Proof.
  intros Hr Hline [Hf _]%andb_true_iff. destruct (splitlines_stretch text line Hline) as (a & b & -> & Ha & Hb).
  destruct (strip_comments_stretch line) as (c & Hc & Hn). rewrite Hc, append_assoc.
  apply found_within; [done..| |done]. by destruct c.
Qed.

(** *** The checks *)

Lemma elem_enumerate f lines m : m ∈ enumerate f lines ↔ ∃ i line, lines !! i = Some line ∧ m ∈ f i line.
Proof.
  unfold enumerate. rewrite list_elem_of_join. setoid_rewrite elem_of_lookup_imap. naive_solver.
Qed.

Lemma elem_unless {A} (b1 b2 : bool) (x y : A) :
  x ∈ (if b1 then [] else if b2 then [y] else []) ↔ b1 = false ∧ b2 = true ∧ x = y.
Proof. destruct b1, b2; rewrite ?elem_of_nil, ?list_elem_of_singleton; naive_solver. Qed.
Lemma elem_when {A} (b1 b2 b3 : bool) (x y : A) :
  x ∈ (if b1 then if b2 then [] else if b3 then [] else [y] else []) ↔ b2 = false ∧ b1 = true ∧ b3 = false ∧ x = y.
Proof. destruct b1, b2, b3; rewrite ?elem_of_nil, ?list_elem_of_singleton; naive_solver. Qed.

Section File.
Context (path : string) (service : option string) (text : string).
Let lines := splitlines text.
Let fs := file_suppression lines [].

Lemma not_silenced c : names_code c fs = false ↔ ¬ silenced text c.
Proof using. rewrite <-silenced_spec. by destruct (names_code c _). Qed.

(** A check of the lines for one code, with what it finds on a line. *)
Lemma elem_checked_lines c f (P : nat → string → string → Prop) m :
  (∀ i line, lines !! i = Some line → names_code c fs = false →
    (m ∈ f i line ↔ _is_suppressed c line fs = false ∧ P i line m)) →
  m ∈ (if names_code c fs then [] else enumerate f lines) ↔
  ¬ silenced text c ∧ ∃ i line, lines !! i = Some line ∧ P i line m.
Proof using.
  intros Hf. rewrite <-not_silenced. destruct (names_code c fs) eqn:Hc; [rewrite elem_of_nil; naive_solver|].
  rewrite elem_enumerate. split.
  - intros (i & line & Hi & Hm). split; [done|]. exists i, line. split; [done|]. by apply Hf in Hm as [_ ?].
  - intros (_ & i & line & Hi & HP). exists i, line. split; [done|]. apply Hf; [done..|]. split; [|done].
    unfold fs, lines. rewrite is_suppressed_spec; [done|]. by apply list_elem_of_lookup_2 in Hi.
Qed.

Lemma elem_check_rule r m : r ∈ RULES → m ∈ check_rule path text lines fs r ↔
  ¬ silenced text (code r) ∧ excluded r path = false ∧ triggered r text = true ∧
  (anchor_free (compiled r) = false → found (compiled r) text = true) ∧
  ∃ i line, lines !! i = Some line ∧ offends r line = true ∧ m = rule_message path r i line.
Proof using.
  intros Hr. unfold check_rule.
  assert (Hlines : m ∈ (if names_code (code r) fs then [] else enumerate (λ i line,
      if _is_suppressed (code r) line fs then [] else
      if offends r line then [rule_message path r i line] else []) lines) ↔
    ¬ silenced text (code r) ∧ ∃ i line, lines !! i = Some line ∧ (offends r line = true ∧ m = rule_message path r i line)).
  { apply (elem_checked_lines _ _ (λ i line m, offends r line = true ∧ m = rule_message path r i line)). intros i line _ _. apply elem_unless. }
  destruct (found (compiled r) text) eqn:Hfound; cbn [negb].
  - destruct (names_code (code r) fs), (excluded r path), (triggered r text); cbn [negb]; rewrite ?elem_of_nil in *; naive_solver.
  - assert (Hno : (if names_code (code r) fs then [] else [] : list string) = []) by (by destruct (names_code (code r) fs)).
    rewrite Hno, elem_of_nil. split; [done|]. intros (_ & _ & _ & Ha & i & line & Hi & Ho & _).
    destruct (anchor_free (compiled r)) eqn:Haf; [|by discriminate Ha].
    apply list_elem_of_lookup_2 in Hi. by rewrite (offence_is_in_the_file r text line) in Hfound.
Qed.

Lemma elem_check_boundary m : m ∈ check_boundary path service lines fs ↔
  ∃ s other i line, service = Some s ∧ s ≠ EmptyString ∧ other ∈ INTERNAL_SERVICE_NAMES ∧ import_name other ≠ s ∧
    lines !! i = Some line ∧ ¬ silenced text CODE_BOUNDARY ∧
    found (boundary_pattern other) (strip_comments line) = true ∧ m = boundary_message path other i line.
Proof using.
  unfold check_boundary. destruct service as [[|c0 s0]|]; [rewrite elem_of_nil; naive_solver| |rewrite elem_of_nil; naive_solver].
  set (s := String c0 s0).
  destruct (names_code CODE_BOUNDARY fs) eqn:Hc.
  { rewrite elem_of_nil. split; [done|]. intros (s' & other & i & line & _ & _ & _ & _ & _ & Hs & _).
    apply not_silenced in Hs. congruence. }
  apply not_silenced in Hc.
  assert (Hone : ∀ other, m ∈ enumerate (λ i line, if _is_suppressed CODE_BOUNDARY line fs then [] else
        if found (boundary_pattern other) (strip_comments line) then [boundary_message path other i line] else []) lines ↔
      ∃ i line, lines !! i = Some line ∧ (found (boundary_pattern other) (strip_comments line) = true ∧ m = boundary_message path other i line)).
  { intros other. pose proof (elem_checked_lines CODE_BOUNDARY (λ i line, if _is_suppressed CODE_BOUNDARY line fs then [] else
        if found (boundary_pattern other) (strip_comments line) then [boundary_message path other i line] else [])
      (λ i line m, found (boundary_pattern other) (strip_comments line) = true ∧ m = boundary_message path other i line) m) as He.
    rewrite (proj2 (not_silenced _) Hc) in He. rewrite He; [clear He; tauto|].
    intros i line _ _. apply elem_unless. }
  rewrite elem_flat_map. split.
  - intros (other & Ho & Hm). destruct (bool_decide _) eqn:Hb; [by apply elem_of_nil in Hm|].
    apply bool_decide_eq_false in Hb. apply Hone in Hm as (i & line & ? & ? & ?). by exists s, other, i, line.
  - intros (s' & other & i & line & [= <-] & _ & Ho & Hne & Hi & _ & Hf & ->). exists other. split; [done|].
    rewrite bool_decide_eq_false_2 by done. apply Hone. by exists i, line.
Qed.

Lemma elem_check_silent m : m ∈ check_silent path lines fs ↔
  ¬ silenced text CODE_SILENT_EXCEPTION ∧ ∃ i line, lines !! i = Some line ∧
    (catches line = true ∧ handles (lower (following 5 i lines)) = false ∧ m = silent_message path i).
Proof using.
  unfold check_silent. apply (elem_checked_lines _ _ (λ i line m, catches line = true ∧ handles (lower (following 5 i lines)) = false ∧ m = silent_message path i)).
  intros i line _ _. apply elem_when.
Qed.

Lemma elem_check_loops m : m ∈ check_loops path lines fs ↔
  ¬ silenced text CODE_TIGHT_LOOP ∧ ∃ i line, lines !! i = Some line ∧
    (contains "while True:" line = true ∧ waits (following 10 i lines) = false ∧ m = loop_message path i).
Proof using.
  unfold check_loops. apply (elem_checked_lines _ _ (λ i line m, contains "while True:" line = true ∧ waits (following 10 i lines) = false ∧ m = loop_message path i)).
  intros i line _ _. apply elem_when.
Qed.

Lemma silenced_file m : fs = SUPPRESS_ALL → ¬ violation path service text m.
Proof using.
  intros Hfs. assert (Hall : ∀ c, silenced text c) by (intros c; apply silenced_spec; fold lines fs; by rewrite Hfs).
  by intros []; eauto.
Qed.
End File.


Lemma elem_check_file {E} path service (text : string) m :
  m ∈ check_file (E:=E) path service (Ok text) ↔ violation path service text m.
Proof.
  unfold check_file. pose proof (silenced_file path service text m) as Hall.
  destruct (file_suppression (splitlines text) []) as [|cs] eqn:Hfs;
    [rewrite elem_of_nil; split; [done|]; intros Hv; by destruct (Hall eq_refl)|clear Hall].
  rewrite !elem_of_app, elem_flat_map. rewrite <-Hfs. split.
  - intros [(r & Hr & Hm)|[Hm|[Hm|Hm]]].
    + apply elem_check_rule in Hm as (? & ? & ? & ? & i & line & ? & ? & ->); [|done]. by econstructor.
    + apply elem_check_boundary in Hm as (s & other & i & line & ? & ? & ? & ? & ? & ? & ? & ->). by econstructor.
    + apply elem_check_silent in Hm as (? & i & line & ? & ? & ? & ->). by econstructor.
    + apply elem_check_loops in Hm as (? & i & line & ? & ? & ? & ->). by econstructor.
  - intros [r i line|s other i line|i line|i line].
    + left. exists r. split; [done|]. apply elem_check_rule; [done|]. eauto 10.
    + right. left. apply elem_check_boundary. eauto 12.
    + right. right. left. apply elem_check_silent. eauto 10.
    + right. right. right. apply elem_check_loops. eauto 10.
Qed.

(** The files of a project that are looked at. *)
Definition linted {E} (files : list (File E)) (f : File E) : Prop := f ∈ files ∧ ignored f = false.
(** A contract of which nothing is found in the whole project. *)
Definition misses {E} (files : list (File E)) (m : string) : Prop :=
  ∃ content patterns name, combined files = Ok content ∧ (patterns, name) ∈ markers ∧ m = missing_contract name ∧
    found (compile no_flags "\bcreate_service_app\s*\(") content = false ∧
    ∀ p, p ∈ patterns → found (compile no_flags p) content = false.

Lemma elem_check_observability {E} (files : list (File E)) observed m :
  check_observability files = Ok observed → (m ∈ observed ↔ misses files m).
Proof.
  unfold check_observability, misses. destruct (combined files) as [content|e]; cbn [mbind result_bind]; [|done].
  generalize markers. intros ms.
  destruct (found (compile no_flags "\bcreate_service_app\s*\(") content) eqn:Happ.
  - intros [= <-]. rewrite elem_of_nil. split; [done|]. intros (c & ps & n & [= <-] & _ & _ & Hno & _). congruence.
  - intros [= <-]. rewrite elem_flat_map. split.
    + intros ([ps n] & Hin & Hm). destruct (existsb _ ps) eqn:Hex; [by apply elem_of_nil in Hm|].
      apply list_elem_of_singleton in Hm as ->. exists content, ps, n. repeat split; [done..|].
      intros p Hp. by apply (proj1 (existsb_False _ _) Hex).
    + intros (c & ps & n & [= <-] & Hin & -> & _ & Hno). exists (ps, n). split; [done|].
      rewrite (proj2 (existsb_False _ _)); [by apply list_elem_of_singleton|done].
Qed.


(** ** A small project, and what slips through *)

Definition lines_of (l : list string) : string := join newlines l.
Definition demo_files : list (File unit) := [
  {| parts := ["srv"; "bot-service"; "main.py"];
     read := Ok (lines_of ["import time"; "from billing_service.models import Order"; "time.sleep(1)"; "app = create_service_app("]) |};
  {| parts := ["srv"; "bot-service"; "tests"; "test.py"]; read := Ok "print('x')" |}].
Definition demo_errors : list string := Eval vm_compute in
  match main (Some ["srv"; "bot-service"]) true demo_files with Ok (_, l) => l | Raise _ => [] end.
Lemma demo_lints : main (Some ["srv"; "bot-service"]) true demo_files = Ok (1%Z, demo_errors).
Proof. vm_compute. reflexivity. Qed.


Definition demo (l : list string) : list string := check_file (E:=unit) "/app/main.py" (Some "bot_service") (Ok (lines_of l)).

(** The rule about importing aiohttp has no MULTILINE flag: the search of the
    whole file finds it on the first line only. *)
Lemma imports_after_the_first_line_pass :
  demo ["import asyncio"; "import aiohttp"] = [] ∧ length (demo ["import aiohttp"]) = 1%nat.
Proof. vm_compute. done. Qed.

(** A TODO is looked for in what is left of a line without its comment. *)
Lemma todo_comments_pass : demo ["x = 1  # TODO tidy up"; "# FIXME"] = [].
Proof. vm_compute. done. Qed.

(** [os.environ] is a mapping: nobody calls it. *)
Lemma reading_the_environment_passes :
  demo ["a = os.environ['A']"; "b = os.environ.get('B')"] = [] ∧ length (demo ["c = os.getenv('C')"]) = 1%nat.
Proof. vm_compute. done. Qed.

(** A reason in parentheses after the codes turns the comment into a bare one,
    which silences every rule in the whole file. *)
Lemma explained_suppressions_silence_everything :
  _archlint_suppression "print(1)  # noqa: archlint=print" = Some (Only ["print"]) ∧
  _archlint_suppression "print(1)  # noqa: archlint=print (startup)" = Some SUPPRESS_ALL ∧
  demo ["print(1)  # noqa: archlint=print (startup)"; "time.sleep(1)"] = [].
Proof. vm_compute. done. Qed.
End ArchLinter.
