(* ===== verification/Codegen.v ===== *)
(** * grpc/codegen.py, grpc/imported.py, grpc/buf_workspace.py: generating code

    [Imported]: contracts that an installed distribution owns.  [Codegen]: the
    targets of a run, and what generating one does to its output directory.
    [Buf]: the modules and the policy of a Buf workspace.  protoc, the file
    system below the proto roots and the installed packages are parameters; a
    path is its components below the root, and the output directory is a tree
    of texts. *)

From S2P Require Import Prelude PyStr PyDict Regex ClientCodegen.
From S2P Require Contracts.

#[local] Open Scope string_scope.
#[local] Open Scope se_scope.

Abbreviation path := (list string).
Definition str_path (p : path) : string := "/" +:+ join "/" p.
Definition name_of (p : path) : string := default EmptyString (last p).
Definition parent (p : path) : path := removelast p.
(** [PurePath.stem] and [PurePath.suffix]: around the last dot, which is not
    the first or the last character. *)
Fixpoint rsplit_dot (s : string) : option (string * string) :=
  match s with
  | EmptyString => None
  | String c t =>
      match rsplit_dot t with
      | Some (a, b) => Some (String c a, b)
      | None => if bool_decide (c = "."%char) then Some (EmptyString, t) else None
      end
  end.
Definition stem (name : string) : string :=
  match rsplit_dot name with
  | Some (a, b) => if is_empty a || is_empty b then name else a
  | None => name
  end.
Definition suffix (name : string) : string :=
  match rsplit_dot name with
  | Some (a, b) => if is_empty a || is_empty b then EmptyString else "." +:+ b
  | None => EmptyString
  end.

(** [SystemExit] and its subclasses, by what they say. *)
Inductive Exit :=
  | missing (names : list string) | contracts_not_list | undeclared (out_dir : string) (names : list string)
  | imports_not_names | no_config | no_section | no_targets | incomplete (names : list string) | no_target
  | no_protos (dir : path) | not_installed (package : string) | bad_layout (package : string)
  | ships_nothing (package : string) | two_owners (module owner other : string)
  | redefined (clash : list string) (package : string) | protoc_failed (code : Z)
  | contract_error (e : Contracts.Contracts.ContractError) | attribute_error.

Module Imported.

Record ImportedContract := {
  package : string; proto_root : path; import_root : string; proto_files : list path }.

Definition module_of (p : path) : string := join "." (parent p ++ [stem (name_of p) +:+ "_pb2"]).
(** A frozenset, in the order it is iterated. *)
Definition modules (c : ImportedContract) : list string := remove_dups (module_of <$> proto_files c).

Section resolve.
(** [importlib.util.find_spec(package).submodule_search_locations], the
    directories, and the [.proto] files below a root. *)
Context (find_spec : string → option (list path)) (is_dir : path → bool) (protos : path → list path).

Definition resolve (package : string) : result Exit ImportedContract :=
  match find_spec package with
  | None | Some [] => Raise (not_installed package)
  | Some (root :: _) =>
      let proto_root := (root ++ ["proto"])%list in
      if negb (is_dir (root ++ ["generated"])%list) || negb (is_dir proto_root) then Raise (bad_layout package)
      else match protos proto_root with
           | [] => Raise (ships_nothing package)
           | files => Ok {| package := package; proto_root := proto_root;
                            import_root := package +:+ ".generated"; proto_files := files |}
           end
  end.
Fixpoint resolve_all (packages : list string) : result Exit (list ImportedContract) :=
  match packages with
  | [] => Ok []
  | p :: ps => c ← resolve p; cs ← resolve_all ps; Ok (c :: cs)
  end.
End resolve.

Fixpoint own_modules (owner : string) (ms : list string) (roots : list (string * string)) :
    result Exit (list (string * string)) :=
  match ms with
  | [] => Ok roots
  | m :: ms =>
      match dget roots m with
      | None => own_modules owner ms (dset roots m owner)
      | Some o => if negb (bool_decide (o = owner)) then Raise (two_owners m o owner) else own_modules owner ms roots
      end
  end.
Fixpoint roots_loop (contracts : list ImportedContract) (roots : list (string * string)) :
    result Exit (list (string * string)) :=
  match contracts with
  | [] => Ok roots
  | c :: cs => roots ← own_modules (import_root c) (modules c) roots; roots_loop cs roots
  end.
Definition import_roots (contracts : list ImportedContract) : result Exit (list (string * string)) :=
  roots_loop contracts [].

Definition posix (p : path) : string := join "/" p.
Fixpoint check_not_redefined (own : list path) (contracts : list ImportedContract) : result Exit unit :=
  match contracts with
  | [] => Ok tt
  | c :: cs =>
      let clash := py_sorted (posix <$> List.filter (λ p, bool_decide (p ∈ proto_files c)) (remove_dups own)) in
      if bool_decide (clash = []) then check_not_redefined own cs else Raise (redefined clash (package c))
  end.

End Imported.

Module Codegen.
Import Imported.

(** ** Targets *)

Abbreviation Value := Targets.Value.
Abbreviation table := (list (string * Value)).
Record ProtoGenerationTarget := {
  proto_dir : path; out_dir : path; import_prefix : string; extra_proto_dirs : list path; imports : list string }.

(** [bool(value)]; a value that is not modelled is falsy when it prints as a
    zero. *)
Definition is_truthy (v : Value) : bool :=
  match v with
  | Targets.TStr s => negb (is_empty s)
  | Targets.TInt z => negb (z =? 0)%Z
  | Targets.TBool b => b
  | Targets.TList l => negb (bool_decide (length l = 0%nat))
  | Targets.TTable t => negb (bool_decide (length t = 0%nat))
  | Targets.TOther s => negb (bool_decide (s ∈ ["0.0"; "-0.0"]))
  end.
(** [str.isidentifier], below U+0100 *)
Definition identifier_start (c : ascii) : bool := is_upper c || is_lower c || char_in "_" c.
Definition isidentifier (s : string) : bool :=
  match s with
  | EmptyString => false
  | String c t => identifier_start c && sall (λ d, identifier_start d || is_digit d || (code d =? 183)%N) t
  end.

Section targets.
(** [repr] of what is not a string, an integer or a boolean; the environment
    and [Path.resolve] as contracts.py sees them; the directories. *)
Context (repr : Value → string) (environ : string → option string) (resolve_override : string → path)
  (is_dir : path → bool).

Definition _read_key (raw : table) (name : string) : option Value := dget raw name.
Definition required (raw : table) (name : string) : string :=
  match _read_key raw name with Some v => strip (Targets.str_of repr v) | None => EmptyString end.
(** [Path(value)], below [base_dir] unless it is absolute. *)
Definition placed (base_dir : path) (value : string) : path :=
  if startswith "/" value then Contracts.Contracts.parts value else (base_dir ++ Contracts.Contracts.parts value)%list.
(** [raw.get(key) or []] *)
Definition given (raw : table) (key : string) : Value :=
  match dget raw key with Some v => if is_truthy v then v else Targets.TList [] | None => Targets.TList [] end.

Fixpoint proto_roots (known : list (string * Contracts.Contracts.ContractPin)) (base_dir : path) (names : list string) :
    result Exit (list path) :=
  match names with
  | [] => Ok []
  | n :: ns =>
      match dget known n with
      | None => Raise (undeclared EmptyString [n])
      | Some pin =>
          match Contracts.Contracts.proto_root environ resolve_override is_dir pin base_dir with
          | Raise e => Raise (contract_error e)
          | Ok root => rest ← proto_roots known base_dir ns; Ok (root :: rest)
          end
      end
  end.

Definition package_name (v : Value) : option string :=
  match v with Targets.TStr s => if isidentifier s then Some s else None | _ => None end.

Definition _target_from_mapping (raw : table) (base_dir : path)
    (known : list (string * Contracts.Contracts.ContractPin)) : result Exit ProtoGenerationTarget :=
  match List.filter (λ n, is_empty (required raw n)) ["proto_dir"; "out_dir"; "import_prefix"] with
  | [] =>
      match given raw "contracts" with
      | Targets.TList names =>
          let names := Targets.str_of repr <$> names in
          match List.filter (λ n, negb (dmem known n)) names with
          | [] =>
              match given raw "imports" with
              | Targets.TList packages =>
                  match mapM package_name packages with
                  | Some packages =>
                      extra ← proto_roots known base_dir names;
                      Ok {| proto_dir := placed base_dir (required raw "proto_dir");
                            out_dir := placed base_dir (required raw "out_dir");
                            import_prefix := required raw "import_prefix";
                            extra_proto_dirs := extra; imports := packages |}
                  | None => Raise imports_not_names
                  end
              | _ => Raise imports_not_names
              end
          | unknown => Raise (undeclared (required raw "out_dir") unknown)
          end
      | _ => Raise contracts_not_list
      end
  | names => Raise (missing names)
  end.

Definition as_table (v : option Value) : option table := match v with Some (Targets.TTable t) => Some t | _ => None end.
(** [data.get("tool", {}).get("service_toolkit", {}).get(...)]: [.get] of what
    is not a table raises. *)
Definition get_table (t : table) (k : string) : result Exit table :=
  match dget t k with
  | None => Ok []
  | Some (Targets.TTable t) => Ok t
  | Some _ => Raise attribute_error
  end.
Definition _get_config_section (data : table) : result Exit (option table) :=
  tool ← get_table data "tool"; toolkit ← get_table tool "service_toolkit";
  Ok (as_table (dget toolkit "grpc_proto_codegen")).

Fixpoint targets_of (l : list Value) (base_dir : path) (known : list (string * Contracts.Contracts.ContractPin)) :
    result Exit (list ProtoGenerationTarget) :=
  match l with
  | [] => Ok []
  | Targets.TTable raw :: l => t ← _target_from_mapping raw base_dir known; ts ← targets_of l base_dir known; Ok (t :: ts)
  | _ :: l => targets_of l base_dir known
  end.

(** A configuration file: the parsed table and what [read_pins] gives for it;
    [None] when there is no such file. *)
Record Config := { data : result Exit table; pins : result Contracts.Contracts.ContractError (list (string * Contracts.Contracts.ContractPin)) }.
Definition _targets_from_config (file : path) (config : option Config) : result Exit (list ProtoGenerationTarget) :=
  match config with
  | None => Raise no_config
  | Some c =>
      data ← data c;
      section ← _get_config_section data;
      match section with
      | None => Raise no_section
      | Some section =>
          match dget section "targets" with
          | Some (Targets.TList (t :: ts)) =>
              match pins c with
              | Raise e => Raise (contract_error e)
              | Ok known => targets_of (t :: ts) (parent file) known
              end
          | _ => Raise no_targets
          end
      end
  end.
End targets.

(** The parsed arguments. *)
Record Args := { arg_proto_dir : option path; arg_out_dir : option path; arg_import_prefix : option string; arg_config : option path }.
Definition _target_from_args (a : Args) : result Exit (option ProtoGenerationTarget) :=
  match arg_proto_dir a, arg_out_dir a, arg_import_prefix a with
  | None, None, None => Ok None
  | Some p, Some o, Some i => Ok (Some {| proto_dir := p; out_dir := o; import_prefix := i; extra_proto_dirs := []; imports := [] |})
  | p, o, i => Raise (incomplete
      ((if bool_decide (p = None) then ["--proto-dir"] else []) ++
       (if bool_decide (o = None) then ["--out-dir"] else []) ++
       (if bool_decide (i = None) then ["--import-prefix"] else []))%list)
  end.
(** [pyproject]: the file in the working directory, when it exists. *)
Definition _default_config_path (a : Args) (env_config : option string) (at_path : string → path) (pyproject : option path) : option path :=
  match arg_config a with
  | Some p => Some p
  | None => match env_config with
            | Some s => if is_empty s then pyproject else Some (at_path s)
            | None => pyproject
            end
  end.
Definition _resolve_targets (a : Args) (env_config : option string) (at_path : string → path) (pyproject : option path)
    (from_config : path → result Exit (list ProtoGenerationTarget)) : result Exit (list ProtoGenerationTarget) :=
  arg_target ← _target_from_args a;
  match arg_target with
  | Some t => Ok [t]
  | None => match _default_config_path a env_config at_path pyproject with
            | None => Raise no_target
            | Some p => from_config p
            end
  end.

(** ** Imports *)

Definition GENERATED_IMPORT : string := "^from (?P<package>leavepulse(?:\.\w+)*) import (?P<module>\w+)".
Definition _GENERATED_IMPORT : re := compile only_multiline GENERATED_IMPORT.
(** [owner] of a match. *)
Definition owner (own : string) (roots : list (string * string)) (cs : caps) : string :=
  let package := default EmptyString (group cs "package") in
  let module := default EmptyString (group cs "module") in
  match dget roots (package +:+ "." +:+ module) with
  | Some root => "from " +:+ root +:+ "." +:+ package +:+ " import " +:+ module
  | None => "from " +:+ own +:+ removeprefix "leavepulse" package +:+ " import " +:+ module
  end.
Definition rewritten (import_prefix : string) (roots : list (string * string)) (text : string) : string :=
  sub _GENERATED_IMPORT (owner (rstrip_chars "." import_prefix) roots) text.

(** ** The output directory *)

(** The files and the directories below it. *)
Record Tree := { files : gmap path string; dirs : gset path }.
Definition M (A : Type) := SE Tree Exit A.
Definition on_files (f : gmap path string → gmap path string) : M unit :=
  se_modify (λ t, {| files := f (files t); dirs := dirs t |}).

(** The files that [_clean_output] leaves. *)
Definition survives (p : path) : bool :=
  negb (bool_decide ("__pycache__" ∈ parent p)) &&
  negb (endswith ".py" (name_of p) && negb (bool_decide (name_of p = "__init__.py"))) &&
  negb (endswith ".pyi" (name_of p)).
Definition _clean_output : M unit := se_modify (λ t,
  {| files := filter (λ kv : path * string, survives kv.1 = true) (files t);
     dirs := filter (λ d : path, "__pycache__" ∉ d) (dirs t) |}).

(** The proper ancestors of a path below the root. *)
Fixpoint ancestors (p : path) : list path :=
  match p with
  | [] => []
  | a :: q => if bool_decide (q = []) then [] else [a] :: (cons a <$> ancestors q)
  end.

(** A name that [rglob("*_pb2*.py*")] finds and whose suffix is [.py] or
    [.pyi]: the text before the suffix contains [_pb2]. *)
Definition is_stub (p : path) : bool :=
  contains "_pb2" (name_of p) && bool_decide (suffix (name_of p) ∈ [".py"; ".pyi"]).
Definition _rewrite_imports (import_prefix : string) (roots : list (string * string)) : M unit :=
  on_files (map_imap (λ p text, Some (if is_stub p then rewritten import_prefix roots text else text))).

Definition touch (files : gmap path string) (p : path) : gmap path string :=
  match files !! p with Some _ => files | None => <[p := EmptyString]> files end.
Definition _ensure_package_inits : M unit := se_modify (λ t,
  {| files := foldl touch (files t) ((λ d : path, d ++ ["__init__.py"])%list <$> ([] :: elements (dirs t)));
     dirs := dirs t |}).

Section generate.
(** [Path.resolve]; the [.proto] files below a root; protoc: the include path
    and the files it compiles give its exit code and the files it wrote. *)
Context (resolve_path : path → path) (find_spec : string → option (list path)) (is_dir : path → bool)
  (protos : path → list path) (protoc : list path → list path → Z * gmap path string).

Definition _collect_proto_files (dir : path) : result Exit (list path) :=
  match py_sort (λ p q, String.leb (str_path p) (str_path q)) ((λ p, dir ++ p)%list <$> protos dir) with
  | [] => Raise (no_protos dir)
  | l => Ok l
  end.
Fixpoint collect_all (dirs : list path) : result Exit (list path) :=
  match dirs with
  | [] => Ok []
  | d :: ds => l ← _collect_proto_files d; ls ← collect_all ds; Ok (l ++ ls)%list
  end.

(** [path.relative_to(root)], when it is below it. *)
Fixpoint relative_to (root p : path) : option path :=
  match root, p with
  | [], _ => Some p
  | a :: root, b :: p => if bool_decide (a = b) then relative_to root p else None
  | _ :: _, [] => None
  end.
Definition own_files (roots proto_files : list path) : list path :=
  List.flat_map (λ root, omap (relative_to root) proto_files) roots.

Definition _run_protoc (includes proto_files : list path) : M unit := λ t,
  let '(code, written) := protoc includes proto_files in
  let t' := {| files := written ∪ files t;
               dirs := dirs t ∪ list_to_set (List.flat_map ancestors (map_to_list written).*1) |} in
  if (code =? 0)%Z then (Ok tt, t') else (Raise (protoc_failed code), t').

Definition _generate_target (target : ProtoGenerationTarget) : M unit :=
  let proto_dir := resolve_path (proto_dir target) in
  let extra_proto_dirs := resolve_path <$> extra_proto_dirs target in
  let* contracts := se_lift (resolve_all find_spec is_dir protos (imports target)) in
  do* _clean_output in
  let* proto_files := se_lift (_collect_proto_files proto_dir) in
  let* extra := se_lift (collect_all extra_proto_dirs) in
  let proto_files := (proto_files ++ extra)%list in
  do* se_lift (check_not_redefined (own_files (proto_dir :: extra_proto_dirs) proto_files) contracts) in
  do* _run_protoc (proto_dir :: extra_proto_dirs ++ (proto_root <$> contracts))%list proto_files in
  let* roots := se_lift (import_roots contracts) in
  do* _rewrite_imports (import_prefix target) roots in
  _ensure_package_inits.

(** [main], on the output directories of all targets. *)
Definition no_tree : Tree := {| files := ∅; dirs := ∅ |}.
Fixpoint main (targets : list ProtoGenerationTarget) (outputs : gmap path Tree) : result Exit unit * gmap path Tree :=
  match targets with
  | [] => (Ok tt, outputs)
  | target :: targets =>
      let out_dir := resolve_path (out_dir target) in
      let '(r, tree) := _generate_target target (default no_tree (outputs !! out_dir)) in
      let outputs := <[out_dir := tree]> outputs in
      match r with Ok _ => main targets outputs | Raise e => (Raise e, outputs) end
  end.
End generate.


(** ** What rewriting does to a generated module *)

(** The lines protoc writes: an import of a generated module, by the parts of
    its package below [leavepulse], the module and the rest of the line; or a
    line that is no such import. *)
Inductive Line := Import (package : list string) (module rest : string) | Other (text : string).
Definition package_text (package : list string) : string := "leavepulse" +:+ String.concat EmptyString ((String "."%char) <$> package).
Definition print_line (l : Line) : string :=
  match l with
  | Import package module rest => "from " +:+ package_text package +:+ " import " +:+ module +:+ rest
  | Other text => text
  end.
Definition is_word_text (w : string) : bool := negb (is_empty w) && sall is_word w.
Definition no_newline (s : string) : bool := sall (λ c, negb (bool_decide (c = newline))) s.
Definition valid_line (l : Line) : bool :=
  match l with
  | Import package module rest =>
      forallb is_word_text package && is_word_text module && negb (word_at (next (None, rest))) && no_newline rest
  | Other text => no_newline text && negb (startswith "from leavepulse" text)
  end.
Definition newlines : string := String newline EmptyString.
Definition print_lines (ls : list Line) : string := join newlines (print_line <$> ls).

(** Where an import points after the rewriting: [root] says which root holds a
    module. *)
Definition point_line (own : string) (root : string → option string) (l : Line) : string :=
  match l with
  | Import package module rest =>
      match root (package_text package +:+ "." +:+ module) with
      | Some r => "from " +:+ r +:+ "." +:+ package_text package +:+ " import " +:+ module +:+ rest
      | None => "from " +:+ own +:+ String.concat EmptyString ((String "."%char) <$> package) +:+ " import " +:+ module +:+ rest
      end
  | Other text => text
  end.

Definition W := Chr is_word.
Definition words : re := Seq (Seq W (Star true W)) Eps.
Definition dotted : re := Star true (Seq (Chr (literal only_multiline "."%char)) words).
Definition import_re : re :=
  lit only_multiline "from " (Seq (Grp "package" (lit only_multiline "leavepulse" (Seq dotted Eps)))
    (lit only_multiline " import " (Seq (Grp "module" words) Eps))).

Lemma generated_import_shape : _GENERATED_IMPORT = Seq (Bol true) import_re.
Proof. reflexivity. Qed.

Lemma first_words_text w o t cs : is_word_text w = true → word_at (next (None, t)) = false →
  first_of words ((o, w +:+ t), cs) ((last_char o w, t), cs).
Proof.
  intros [Hne Hw]%andb_true_iff Ht. destruct w as [|c w]; [done|]. cbn in Hw. apply andb_true_iff in Hw as [Hc Hw].
  cbn [String.append last_char]. eapply first_seq; [|apply first_eps]. eapply first_seq; [by apply first_chr|]. by apply first_words.
Qed.

Lemma first_dotted package : ∀ o t cs, forallb is_word_text package = true →
  word_at (next (None, t)) = false → next (None, t) ≠ Some "."%char →
  ∃ o', first_of dotted ((o, String.concat EmptyString ((String "."%char) <$> package) +:+ t), cs) ((o', t), cs).
Proof.
  induction package as [|w package IH]; intros o t cs Hp Ht Hd.
  - exists o. apply first_star_done. cbn. destruct t as [|c t]; [done|]. unfold literal. cbn.
    rewrite bool_decide_eq_false_2; [done|]. intros <-. by apply Hd.
  - cbn [forallb] in Hp. apply andb_true_iff in Hp as [Hw Hp].
    destruct (IH (last_char (Some "."%char) w) t cs Hp Ht Hd) as (o' & Hfirst). exists o'.
    assert (Hcat : String.concat EmptyString ((String "."%char) <$> w :: package) +:+ t =
      String "."%char (w +:+ String.concat EmptyString ((String "."%char) <$> package) +:+ t)).
    { destruct package as [|w' package]; cbn; [done|]. by rewrite !append_assoc. }
    rewrite Hcat. eapply first_star_more; [|shelve|exact Hfirst].
    eapply first_seq; [by apply first_chr|]. apply first_words_text; [done|].
    by destruct package as [|w' [|w'' package]].
    Unshelve. cbn. rewrite !append_length. lia.
Qed.

Lemma words_end_no_line w : ∀ o, is_word_text w = true → at_bol true (last_char o w, EmptyString) = false.
Proof.
  intros o [Hne Hw]%andb_true_iff. destruct w as [|c w]; [done|]. cbn [last_char]. clear Hne. revert c Hw.
  induction w as [|d w IH]; intros c [Hc Hw]%andb_true_iff; [|by apply IH].
  cbn. apply bool_decide_eq_false_2. intros ->. by vm_compute in Hc.
Qed.

Lemma bol_of_prev o s : at_bol true (o, s) = at_bol true (o, EmptyString).
Proof. reflexivity. Qed.

Lemma first_import o package module t : forallb is_word_text package = true → is_word_text module = true →
  word_at (next (None, t)) = false → at_bol true (o, EmptyString) = true →
  ∃ o', at_bol true (o', EmptyString) = false ∧ match_at _GENERATED_IMPORT (o, "from " +:+ package_text package +:+ " import " +:+ module +:+ t) =
    Some ((o', t), [("package", package_text package); ("module", module)]).
Proof.
  intros Hp Hm Ht Hbol. set (tail := " import " +:+ module +:+ t).
  assert (∃ o', at_bol true (o', EmptyString) = false ∧ first_of import_re ((o, "from " +:+ package_text package +:+ tail), [])
    ((o', t), [("package", package_text package); ("module", module)])) as (o' & Hafter & l & Hrun).
  { set (o0 := last_char o "from ").
    destruct (first_dotted package (last_char o0 "leavepulse") tail [] Hp) as (o' & Hd); [done|done|].
    assert (Hlit : first_of (lit only_multiline "leavepulse" (Seq dotted Eps)) ((o0, package_text package +:+ tail), []) ((o', tail), [])).
    { unfold package_text. rewrite append_assoc. apply first_lit; [done|]. eapply first_seq; [exact Hd|apply first_eps]. }
    apply (first_grp "package") in Hlit. cbn [fst snd app] in Hlit. rewrite between_append in Hlit.
    pose proof (first_grp "module" words _ _ (first_words_text module (last_char o' " import ") t [("package", package_text package)] Hm Ht)) as Hg.
    cbn [fst snd app] in Hg. rewrite between_append in Hg.
    eexists. split; [|apply first_lit; [done|]; eapply first_seq; [exact Hlit|]; apply first_lit; [done|];
      eapply first_seq; [exact Hg|apply first_eps]].
    by apply words_end_no_line. }
  exists o'. split; [done|]. unfold match_at. rewrite generated_import_shape. cbn [run fst snd]. rewrite (bol_of_prev o), Hbol.
  cbn [List.flat_map]. by rewrite app_nil_r, Hrun.
Qed.

Lemma no_import_inside o s : at_bol true (o, EmptyString) = false → match_at _GENERATED_IMPORT (o, s) = None.
Proof.
  intros H. unfold match_at. rewrite generated_import_shape, run_seq_nil; [done|]. cbn [run fst].
  by rewrite (bol_of_prev o), H.
Qed.

Lemma no_import_here o s : startswith "from leavepulse" s = false → match_at _GENERATED_IMPORT (o, s) = None.
Proof.
  intros H. unfold match_at. rewrite generated_import_shape. cbn [run fst]. destruct (at_bol true _); [|done].
  cbn [List.flat_map]. rewrite app_nil_r. unfold import_re. rewrite run_lit_other; [done|done|].
  intros t ->. apply run_seq_nil. cbn [run]. rewrite run_lit_other; [done|done|].
  intros u ->. exfalso. by destruct u.
Qed.

(** *** Walking the text *)

Section Walk.
Context (f : caps → string).
Let walk := sub_from _GENERATED_IMPORT f.

Lemma walk_char n o c t : match_at _GENERATED_IMPORT (o, String c t) = None →
  walk (S n) o (String c t) = String c (walk n (Some c) t).
Proof using. intros H. unfold walk. cbn [sub_from]. by rewrite H. Qed.

Lemma walk_empty n o : walk n o EmptyString = EmptyString.
Proof using. destruct n; [done|]. unfold walk. cbn [sub_from]. by rewrite no_import_here. Qed.

Lemma walk_inside x : ∀ n o after, at_bol true (o, EmptyString) = false → no_newline x = true →
  (String.length x + String.length after <= n)%nat →
  ∃ n' o', (String.length after <= n')%nat ∧ walk n o (x +:+ after) = x +:+ walk n' o' after.
Proof using.
  induction x as [|c x IH]; intros n o after Ho Hx Hn; [by exists n, o|].
  cbn in Hx, Hn. apply andb_true_iff in Hx as [Hc Hx]. destruct n as [|n]; [lia|].
  destruct (IH n (Some c) after) as (n' & o' & Hn' & Hw); [|done|lia|].
  { cbn. by apply negb_true_iff in Hc. }
  exists n', o'. split; [done|]. cbn [String.append]. rewrite walk_char, Hw; [done|by apply no_import_inside].
Qed.

Lemma walk_import n o package module rest after : valid_line (Import package module rest) = true →
  at_bol true (o, EmptyString) = true → (after = EmptyString ∨ ∃ more, after = String newline more) →
  (String.length (print_line (Import package module rest)) + String.length after <= n)%nat →
  ∃ n' o', (String.length after <= n')%nat ∧
    walk n o (print_line (Import package module rest) +:+ after) =
    f [("package", package_text package); ("module", module)] +:+ rest +:+ walk n' o' after.
Proof using.
  cbn [valid_line print_line]. rewrite !andb_true_iff. intros (((Hp & Hm) & Hrest) & Hnl) Ho Hafter Hn.
  rewrite !append_assoc. set (t := rest +:+ after).
  assert (Ht : word_at (next (None, t)) = false).
  { apply negb_true_iff in Hrest. unfold t. destruct rest as [|c rest]; [|done]. by destruct Hafter as [->|[more ->]]. }
  destruct (first_import o package module t Hp Hm Ht Ho) as (o' & Ho' & Hmatch).
  set (s := "from " +:+ package_text package +:+ " import " +:+ module +:+ t) in *.
  assert (Hlen : (String.length s = String.length t + 5 + String.length (package_text package) + 8 + String.length module)%nat).
  { unfold s. rewrite !append_length. change (String.length "from ") with 5%nat. change (String.length " import ") with 8%nat. lia. }
  assert (Ht' : String.length t = (String.length rest + String.length after)%nat) by apply append_length.
  rewrite !append_length in Hn. change (String.length "from ") with 5%nat in Hn. change (String.length " import ") with 8%nat in Hn.
  destruct n as [|n]; [lia|]. unfold walk. cbn [sub_from]. rewrite Hmatch. cbn [fst snd].
  rewrite (proj2 (Nat.ltb_lt _ _)) by lia.
  destruct (walk_inside rest n o' after Ho' Hnl) as (n' & o2 & Hn' & Hw); [lia|]. exists n', o2. split; [done|].
  f_equal. exact Hw.
Qed.

Lemma startswith_stops p : ∀ s after, no_newline p = true → (after = EmptyString ∨ ∃ more, after = String newline more) →
  startswith p (s +:+ after) = true → startswith p s = true.
Proof using.
  intros s after Hp Hafter [r Hr]%startswith_spec. revert s Hr. induction p as [|c p IH]; intros s Hr; [by destruct s|].
  cbn in Hp. apply andb_true_iff in Hp as [Hc Hp]. destruct s as [|d s].
  - destruct Hafter as [->|[more ->]]; [done|]. cbn in Hr. injection Hr as <- _. done.
  - cbn in Hr. injection Hr as -> Hr. apply startswith_spec. destruct (proj1 (startswith_spec p s) (IH Hp s Hr)) as [u ->].
    by exists u.
Qed.

Lemma walk_other n o text after : valid_line (Other text) = true → 
  (after = EmptyString ∨ ∃ more, after = String newline more) →
  (String.length text + String.length after <= n)%nat →
  ∃ n' o', (String.length after <= n')%nat ∧ walk n o (text +:+ after) = text +:+ walk n' o' after.
Proof using.
  cbn [valid_line]. intros [Hnl Hno%negb_true_iff]%andb_true_iff Hafter Hn.
  destruct text as [|c text]; [by exists n, o|]. destruct n as [|n]; [cbn in Hn; lia|].
  assert (Hmatch : match_at _GENERATED_IMPORT (o, String c text +:+ after) = None).
  { apply no_import_here. destruct (startswith _ (_ +:+ _)) eqn:Hs; [|done]. apply startswith_stops in Hs; [congruence|done..]. }
  cbn in Hnl, Hn. apply andb_true_iff in Hnl as [Hc Hnl]. cbn [String.append] in *. rewrite walk_char by done.
  destruct (walk_inside text n (Some c) after) as (n' & o' & Hn' & Hw); [|done|lia|].
  - cbn. by apply negb_true_iff in Hc.
  - exists n', o'. split; [done|]. by rewrite Hw.
Qed.

Definition walked (l : Line) : string :=
  match l with
  | Import package module rest => f [("package", package_text package); ("module", module)] +:+ rest
  | Other text => text
  end.

Lemma walk_line n o l after : valid_line l = true → at_bol true (o, EmptyString) = true →
  (after = EmptyString ∨ ∃ more, after = String newline more) →
  (String.length (print_line l) + String.length after <= n)%nat →
  ∃ n' o', (String.length after <= n')%nat ∧ walk n o (print_line l +:+ after) = walked l +:+ walk n' o' after.
Proof using.
  intros Hl Ho Hafter Hn. destruct l as [package module rest|text]; cbn [walked].
  - destruct (walk_import n o package module rest after Hl Ho Hafter Hn) as (n' & o' & ? & Hw). exists n', o'.
    split; [done|]. by rewrite append_assoc.
  - by apply walk_other.
Qed.

Lemma walk_lines ls : ∀ n o, forallb valid_line ls = true → at_bol true (o, EmptyString) = true →
  (String.length (print_lines ls) <= n)%nat → walk n o (print_lines ls) = join newlines (walked <$> ls).
Proof using.
  induction ls as [|l ls IH]; intros n o Hls Ho Hn; [apply walk_empty|].
  cbn [forallb] in Hls. apply andb_true_iff in Hls as [Hl Hls].
  destruct ls as [|l' ls].
  - destruct (walk_line n o l EmptyString Hl Ho) as (n' & o' & _ & Hw); [by left|cbn in *; lia|].
    unfold print_lines. cbn [fmap list_fmap join]. rewrite append_nil_r in Hw. by rewrite Hw, walk_empty, append_nil_r.
  - assert (Hprint : print_lines (l :: l' :: ls) = print_line l +:+ String newline (print_lines (l' :: ls))) by done.
    rewrite Hprint, append_length in Hn. rewrite Hprint.
    destruct (walk_line n o l (String newline (print_lines (l' :: ls))) Hl Ho) as (n' & o' & Hn' & Hw); [by right; eexists|done|].
    rewrite Hw. destruct n' as [|n']; [cbn in Hn'; lia|]. rewrite walk_char by (by apply no_import_here).
    rewrite IH; [done|done|done|]. cbn [String.length] in Hn'. lia.
Qed.
End Walk.

Lemma walked_points own roots l : walked (owner own roots) l = point_line own (dget roots) l.
Proof.
  destruct l as [package module rest|text]; [|done]. cbn [walked point_line]. unfold owner.
  change (group [("package", package_text package); ("module", module)] "package") with (Some (package_text package)).
  change (group [("package", package_text package); ("module", module)] "module") with (Some module). cbn [default from_option]. unfold id.
  destruct (dget roots _).
  - by rewrite !append_assoc.
  - unfold package_text. rewrite removeprefix_append. by rewrite !append_assoc.
Qed.

(** Rewriting a generated module moves its imports, and nothing else. *)
Lemma rewritten_lines import_prefix roots ls : forallb valid_line ls = true →
  rewritten import_prefix roots (print_lines ls) =
  join newlines (point_line (rstrip_chars "." import_prefix) (dget roots) <$> ls).
Proof.
  intros Hls. unfold rewritten, sub. rewrite walk_lines by done. f_equal. apply list_fmap_ext. intros _ l _.
  apply walked_points.
Qed.

(** ** Who owns a module *)

(** [root] is the one root of the contracts that have [m]. *)
Definition owned (contracts : list ImportedContract) (m root : string) : Prop :=
  (∃ c, c ∈ contracts ∧ m ∈ modules c ∧ import_root c = root) ∧
  ∀ c, c ∈ contracts → m ∈ modules c → import_root c = root.

Lemma own_modules_spec o ms : ∀ roots roots', own_modules o ms roots = Ok roots' → ∀ m,
  (m ∈ ms → dget roots' m = Some o) ∧ (m ∉ ms → dget roots' m = dget roots m) ∧
  (∀ r, dget roots m = Some r → dget roots' m = Some r).
Proof.
  induction ms as [|m0 ms IH]; intros roots roots' H m; cbn [own_modules] in H; [injection H as <-; set_solver|].
  destruct (dget roots m0) as [o'|] eqn:Hd.
  - destruct (bool_decide (o' = o)) eqn:Hb; [|done]. apply bool_decide_eq_true_1 in Hb as ->. cbn [negb] in H.
    destruct (IH _ _ H m) as (H1 & H2 & H3). split; [|split; [set_solver|done]].
    intros [->|Hm]%elem_of_cons; [by apply H3|by apply H1].
  - destruct (IH _ _ H m) as (H1 & H2 & H3). assert (Hset : m ≠ m0 → dget (dset roots m0 o) m = dget roots m).
    { intros Hne. by apply dget_dset_ne. }
    split; [|split].
    + intros [->|Hm]%elem_of_cons; [|by apply H1]. apply H3. apply dget_dset_eq.
    + intros [Hne Hm]%not_elem_of_cons. rewrite H2 by done. by apply Hset.
    + intros r Hr. apply H3. rewrite Hset; [done|congruence].
Qed.

Lemma roots_loop_spec contracts : ∀ roots roots', roots_loop contracts roots = Ok roots' → ∀ m,
  (∀ c, c ∈ contracts → m ∈ modules c → dget roots' m = Some (import_root c)) ∧
  (∀ r, dget roots m = Some r → dget roots' m = Some r) ∧
  ((∀ c, c ∈ contracts → m ∉ modules c) → dget roots' m = dget roots m).
Proof.
  induction contracts as [|c contracts IH]; intros roots roots' H m; cbn [roots_loop] in H; [injection H as <-; set_solver|].
  destruct (own_modules _ _ roots) as [roots1|] eqn:H1; cbn [mbind result_bind] in H; [|done].
  destruct (own_modules_spec _ _ _ _ H1 m) as (A1 & A2 & A3). destruct (IH _ _ H m) as (B1 & B2 & B3).
  split; [|split].
  - intros c' [->|Hc]%elem_of_cons Hm; [by apply B2, A1|by apply B1].
  - intros r Hr. by apply B2, A3.
  - intros Hno. rewrite B3 by (intros c' Hc'; apply Hno; by right). apply A2, Hno. by left.
Qed.

Lemma import_roots_spec contracts roots m : import_roots contracts = Ok roots →
  (∀ root, owned contracts m root ↔ dget roots m = Some root).
Proof.
  intros H root. destruct (roots_loop_spec contracts [] roots H m) as (H1 & _ & H3). split.
  - intros [(c & Hc & Hm & <-) _]. by apply H1.
  - intros Hr. split.
    + destruct (decide (Exists (λ c, m ∈ modules c) contracts)) as [(c & Hc & Hm)%list.Exists_exists|Hno].
      * exists c. specialize (H1 c Hc Hm). repeat split; [done..|congruence].
      * rewrite H3 in Hr; [done|]. intros c Hc Hm. apply Hno, list.Exists_exists. by exists c.
    + intros c Hc Hm. specialize (H1 c Hc Hm). congruence.
Qed.

Lemma check_not_redefined_spec own contracts : check_not_redefined own contracts = Ok tt →
  ∀ c p, c ∈ contracts → p ∈ own → p ∉ proto_files c.
Proof.
  induction contracts as [|c0 contracts IH]; cbn [check_not_redefined]; intros H c p Hc Hp Hin; [set_solver|].
  case_bool_decide as Hclash; [|done]. apply elem_of_cons in Hc as [->|Hc]; [|by eapply IH].
  assert (Hin' : posix p ∈ py_sorted (posix <$> List.filter (λ p, bool_decide (p ∈ proto_files c0)) (remove_dups own))).
  { apply elem_py_sort, list_elem_of_fmap. exists p. split; [done|]. apply list_elem_of_filter'.
    split; [by apply elem_of_remove_dups|by apply bool_decide_eq_true]. }
  rewrite Hclash in Hin'. by apply elem_of_nil in Hin'.
Qed.

(** ** What is in the output directory *)

(** A Python module or a stub, but not the marker of a package. *)
Definition is_python (p : path) : bool :=
  (endswith ".py" (name_of p) && negb (bool_decide (name_of p = "__init__.py"))) || endswith ".pyi" (name_of p).

Lemma rsplit_dot_spec s : ∀ a b, rsplit_dot s = Some (a, b) → s = a +:+ String "."%char b.
Proof.
  induction s as [|c s IH]; intros a b; cbn [rsplit_dot]; [done|]. destruct (rsplit_dot s) as [[a' b']|].
  - intros [= <- <-]. cbn. f_equal. by apply IH.
  - case_bool_decide as Hc; [|done]. intros [= <- <-]. by rewrite Hc.
Qed.

Lemma endswith_append x s : endswith s (x +:+ s) = true.
Proof.
  induction x as [|c x IH]; [|cbn; rewrite IH; apply orb_true_r].
  destruct s; [done|]. cbn [String.append endswith]. by rewrite bool_decide_eq_true_2.
Qed.

Lemma stub_is_python p : is_stub p = true → is_python p = true.
Proof.
  unfold is_stub, is_python. intros [Hc Hs%bool_decide_eq_true_1]%andb_true_iff. unfold suffix in Hs.
  destruct (rsplit_dot (name_of p)) as [[a b]|] eqn:Hr; [|set_solver]. apply rsplit_dot_spec in Hr.
  destruct (is_empty a || is_empty b); [set_solver|].
  apply elem_of_cons in Hs as [Hs|Hs%list_elem_of_singleton]; cbn in Hs; injection Hs as ->.
  - rewrite Hr at 1. rewrite endswith_append. case_bool_decide as Hi; [by rewrite Hi in Hc|done].
  - apply orb_true_iff. right. rewrite Hr. apply endswith_append.
Qed.

Lemma touch_keeps ps : ∀ fs p, p ∉ ps → foldl touch fs ps !! p = fs !! p.
Proof.
  induction ps as [|q ps IH]; intros fs p Hp; [done|]. apply not_elem_of_cons in Hp as [Hne Hp].
  cbn [foldl]. rewrite IH by done. unfold touch. destruct (fs !! q); [done|]. by rewrite lookup_insert_ne.
Qed.

Lemma touch_present ps : ∀ fs p, p ∈ ps ∨ is_Some (fs !! p) → is_Some (foldl touch fs ps !! p).
Proof.
  induction ps as [|q ps IH]; intros fs p Hp; [by destruct Hp as [Hp%elem_of_nil|]|]. cbn [foldl]. apply IH.
  destruct (decide (p = q)) as [->|Hne].
  - right. unfold touch. destruct (fs !! q) eqn:Hq; [by rewrite Hq|by rewrite lookup_insert_eq].
  - destruct Hp as [[->|Hp]%elem_of_cons|Hp]; [done|by left|right]. unfold touch. destruct (fs !! q); [done|].
    by rewrite lookup_insert_ne.
Qed.

Lemma init_is_no_python p d : is_python p = true → p ≠ (d ++ ["__init__.py"])%list.
Proof. intros Hp ->. unfold is_python, name_of in Hp. rewrite last_snoc in Hp. by vm_compute in Hp. Qed.

Lemma clean_removes t p : is_python p = true → files (_clean_output t).2 !! p = None.
Proof.
  intros Hp. cbn. apply map_lookup_filter_None. right. intros text _. cbn. unfold survives, is_python in *.
  apply orb_true_iff in Hp as [->| ->]; cbn; by rewrite ?andb_false_r.
Qed.

Section Generate.
Context (resolve_path : path → path) (find_spec : string → option (list path)) (is_dir : path → bool)
  (protos : path → list path) (protoc : list path → list path → Z * gmap path string) (target : ProtoGenerationTarget).
Let roots_of := resolve_path (proto_dir target) :: (resolve_path <$> extra_proto_dirs target).

(** The output directory after the last step. *)
Definition written_tree (written : gmap path string) (t : Tree) : Tree :=
  {| files := written ∪ files t; dirs := dirs t ∪ list_to_set (List.flat_map ancestors (map_to_list written).*1) |}.
Definition generated (roots : list (string * string)) (written : gmap path string) (t : Tree) : Tree :=
  (_ensure_package_inits (_rewrite_imports (import_prefix target) roots (written_tree written (_clean_output t).2)).2).2.

Lemma generate_steps t t' : _generate_target resolve_path find_spec is_dir protos protoc target t = (Ok tt, t') →
  ∃ contracts compiled written roots, resolve_all find_spec is_dir protos (imports target) = Ok contracts ∧
    check_not_redefined (own_files roots_of compiled) contracts = Ok tt ∧
    protoc (roots_of ++ (proto_root <$> contracts))%list compiled = (0%Z, written) ∧
    import_roots contracts = Ok roots ∧ t' = generated roots written t.
Proof using.
  unfold _generate_target, se_bind, se_lift. intros H.
  destruct (resolve_all _ _ _ _) as [contracts|] eqn:Hc; [|done].
  destruct (_clean_output t) as [[[]|] t1] eqn:Hclean; [|done].
  destruct (_collect_proto_files protos _) as [own|] eqn:Hown; [|done].
  destruct (collect_all protos _) as [extra|] eqn:Hextra; [|done].
  destruct (check_not_redefined _ _) as [[]|] eqn:Hcheck; [|done].
  unfold _run_protoc in H. destruct (protoc _ _) as [code written] eqn:Hprotoc.
  destruct (code =? 0)%Z eqn:Hcode; [apply Z.eqb_eq in Hcode as ->|done].
  destruct (import_roots contracts) as [roots|] eqn:Hroots; [|done].
  exists contracts, (own ++ extra)%list, written, roots. repeat split; [done..|].
  unfold generated. rewrite Hclean. injection H as <-. done.
Qed.

Lemma generated_lookup roots written t p : is_python p = true →
  files (generated roots written t) !! p =
  (λ text, if is_stub p then rewritten (import_prefix target) roots text else text) <$> written !! p.
Proof using.
  intros Hp. unfold generated, _ensure_package_inits, se_modify. cbn [snd files]. rewrite touch_keeps.
  - unfold _rewrite_imports, on_files, se_modify, written_tree. cbn [snd files]. rewrite map_lookup_imap, lookup_union_l.
    { by destruct (written !! p). }
    by apply clean_removes.
  - intros (d & Hd & _)%list_elem_of_fmap. by destruct (init_is_no_python p d Hp).
Qed.

Lemma generated_inits roots written t p d : is_Some (written !! p) → d ∈ ancestors p →
  is_Some (files (generated roots written t) !! (d ++ ["__init__.py"])%list).
Proof using.
  intros [text Hp] Hd. unfold generated, _ensure_package_inits, se_modify. cbn [snd files]. apply touch_present. left.
  apply list_elem_of_fmap. exists d. split; [done|]. right. apply elem_of_elements.
  unfold _rewrite_imports, on_files, se_modify, written_tree. cbn [snd dirs]. apply elem_of_union. right.
  apply elem_of_list_to_set, elem_flat_map. exists p. split; [|done]. apply list_elem_of_fmap. exists (p, text).
  split; [done|]. by apply elem_of_map_to_list.
Qed.
End Generate.

(** C18: Generating a target leaves exactly what protoc wrote now: every module
    and stub of the output directory is one it wrote, nothing of an earlier
    run stays, and the packages can be imported.  In a stub, an import of a
    module that an imported contract has points at that contract's
    distribution, of which there is one, any other import of the tree points
    below the target's own prefix, and nothing else changes; and no compiled
    proto belongs to an imported contract. *)
Theorem generated_code_is_current_and_owned resolve_path find_spec is_dir protos protoc target t t' :
  _generate_target resolve_path find_spec is_dir protos protoc target t = (Ok tt, t') →
  let dirs := resolve_path (proto_dir target) :: (resolve_path <$> extra_proto_dirs target) in
  ∃ contracts compiled written, resolve_all find_spec is_dir protos (imports target) = Ok contracts ∧
    protoc (dirs ++ (proto_root <$> contracts))%list compiled = (0%Z, written) ∧
    (∀ c p, c ∈ contracts → p ∈ own_files dirs compiled → p ∉ proto_files c) ∧
    (∀ p, is_python p = true → is_stub p = false → files t' !! p = written !! p) ∧
    (∀ p, is_stub p = true → is_Some (files t' !! p) ↔ is_Some (written !! p)) ∧
    (∀ p d, is_Some (written !! p) → d ∈ ancestors p → is_Some (files t' !! (d ++ ["__init__.py"])%list)) ∧
    ∃ root, (∀ m r, root m = Some r ↔ owned contracts m r) ∧
      ∀ p ls, is_stub p = true → written !! p = Some (print_lines ls) → forallb valid_line ls = true →
        files t' !! p = Some (join newlines (point_line (rstrip_chars "." (import_prefix target)) root <$> ls)).
Proof.
  intros H dirs. destruct (generate_steps _ _ _ _ _ _ _ _ H) as (contracts & compiled & written & roots & Hc & Hcheck & Hprotoc & Hroots & ->).
  exists contracts, compiled, written. split; [done|]. split; [done|].
  split; [intros c p Hin Hp; by apply (check_not_redefined_spec _ _ Hcheck c p)|].
  split; [intros p Hp Hs; rewrite generated_lookup, Hs by done; by destruct (written !! p)|].
  split; [intros p Hs; rewrite generated_lookup by (by apply stub_is_python); by rewrite fmap_is_Some|].
  split; [intros p d; apply generated_inits|].
  exists (dget roots). split; [intros m r; symmetry; by apply import_roots_spec|].
  intros p ls Hs Hp Hls. rewrite generated_lookup, Hp, Hs by (by apply stub_is_python). cbn. by rewrite rewritten_lines.
Qed.

(** A target refused for redefining a contract has already lost its code. *)
Lemma refused_targets_are_emptied resolve_path find_spec is_dir protos protoc target t t' clash package :
  _generate_target resolve_path find_spec is_dir protos protoc target t = (Raise (redefined clash package), t') →
  ∀ p, is_python p = true → files t' !! p = None.
Proof.
  unfold _generate_target, se_bind, se_lift. intros H p Hp.
  assert (Hresolve : ∀ l e, resolve_all find_spec is_dir protos l = Raise e → ∀ c q, e ≠ redefined c q).
  { intros l. induction l as [|q l IH]; intros e He c r ->; [done|]. cbn in He. unfold resolve in He.
    destruct (find_spec q) as [[|a b]|]; [done| |done]. destruct (_ || _); [done|]. destruct (protos _); [done|].
    cbn in He. destruct (resolve_all _ _ _ l) eqn:Hl; [done|]. cbn in He. injection He as ->. by apply (IH _ eq_refl c r). }
  destruct (resolve_all _ _ _ _) as [contracts|e] eqn:Hc; [|injection H as -> _; by destruct (Hresolve _ _ Hc clash package)].
  pose proof (clean_removes t p Hp) as Hclean. destruct (_clean_output t) as [[[]|e] t1] eqn:Hout; [|done].
  cbn [snd] in Hclean.
  destruct (_collect_proto_files protos _) as [own|e] eqn:Hown; [|by injection H as _ <-].
  destruct (collect_all protos _) as [extra|e] eqn:Hextra; [|by injection H as _ <-].
  destruct (check_not_redefined _ _) as [[]|e] eqn:Hcheck; [|by injection H as _ <-].
  unfold _run_protoc in H. destruct (protoc _ _) as [code written]. destruct (code =? 0)%Z; [|done].
  destruct (import_roots contracts) as [roots|e] eqn:Hroots; [done|]. exfalso. injection H as -> _.
  unfold import_roots in Hroots. revert Hroots. generalize (@nil (string * string)) as rs.
  induction contracts as [|c cs IH] in |- *; intros rs; cbn [roots_loop]; [done|].
  destruct (own_modules _ _ rs) as [rs1|e1] eqn:H1; cbn [mbind result_bind]; [apply IH|].
  intros [= ->]. revert rs H1. induction (modules c) as [|m ms IHm]; intros rs; cbn [own_modules]; [done|].
  destruct (dget rs m); [|apply IHm]. destruct (negb _); [done|apply IHm].
Qed.

(** A list of targets without a table is a configuration without a target. *)
Lemma targets_without_tables_generate_nothing repr environ resolve_override is_dir base known l :
  (∀ t, Targets.TTable t ∉ l) → targets_of repr environ resolve_override is_dir l base known = Ok [].
Proof.
  induction l as [|v l IH]; intros Hl; [done|]. cbn [targets_of].
  destruct v; try (apply IH; intros t Ht; apply (Hl t); by right). destruct (Hl l0). by left.
Qed.

(** ** A target with an imported contract *)

Definition demo_target : ProtoGenerationTarget :=
  {| proto_dir := ["srv"; "proto"]; out_dir := ["srv"; "generated"]; import_prefix := "net_grpc.generated.leavepulse.";
     extra_proto_dirs := []; imports := ["agent_contract_grpc"] |}.
Definition demo_spec (package : string) : option (list path) := Some [["site"; package]].
Definition demo_protos (root : path) : list path :=
  if bool_decide (root = ["srv"; "proto"]) then [["leavepulse"; "net"; "v1"; "net.proto"]]
  else [["leavepulse"; "agent"; "v1"; "gateway.proto"]].
Definition demo_stub : path := ["leavepulse"; "net"; "v1"; "net_pb2.py"].
Definition demo_lines : list Line :=
  [Other "import grpc"; Import ["agent"; "v1"] "gateway_pb2" " as gateway"; Import ["net"; "v1"] "types_pb2" ""].
Definition demo_protoc (includes compiled : list path) : Z * gmap path string := (0%Z, {[demo_stub := print_lines demo_lines]}).
Definition demo_tree : Tree := {| files := {[["leavepulse"; "old_pb2.py"] := "stale"]}; dirs := {[["leavepulse"]]} |}.
Definition demo_run := _generate_target id demo_spec (λ _, true) demo_protos demo_protoc demo_target demo_tree.

Lemma demo_generates : demo_run.1 = Ok tt.
Proof. vm_compute. reflexivity. Qed.

Example demo_stub_text : files demo_run.2 !! demo_stub = Some (join newlines ["import grpc";
  "from agent_contract_grpc.generated.leavepulse.agent.v1 import gateway_pb2 as gateway";
  "from net_grpc.generated.leavepulse.net.v1 import types_pb2"]).
Proof. vm_compute. reflexivity. Qed.

Lemma generated_code_is_current_and_owned_witness :
  demo_run.1 = Ok tt ∧ files demo_run.2 !! ["leavepulse"; "old_pb2.py"] = None.
Proof.
  split; [exact demo_generates|].
  destruct (generated_code_is_current_and_owned id demo_spec (λ _, true) demo_protos demo_protoc demo_target demo_tree demo_run.2)
    as (contracts & compiled & written & _ & Hprotoc & _ & _ & Hstub & _).
  { rewrite <-demo_generates. apply surjective_pairing. }
  injection Hprotoc as <-. apply eq_None_not_Some. intros Hold.
  apply (Hstub ["leavepulse"; "old_pb2.py"]) in Hold; [|reflexivity]. vm_compute in Hold. by destruct Hold.
Defined.

End Codegen.

Module Buf.
Import Imported.
Abbreviation Value := Targets.Value.
Abbreviation table := (list (string * Value)).

Definition LOCAL_MODULE : string := "modules/local".
(** [ContractError] with what it says, or another exception of the code. *)
Inductive BufError :=
  | no_policy | unknown_keys (keys : list string) | outside (path : string) | not_a_table (section : string)
  | not_one_target | bad_proto_dir | unpinned (names : list string) | exit (e : Exit) | type_error.

(** The [PurePosixPath] of a text: whether it is absolute, and its parts. *)
Definition is_absolute (p : string) : bool := startswith "/" p.
Definition _local_path (p : string) : result BufError string :=
  let relative := Contracts.Contracts.parts p in
  if is_absolute p || bool_decide (".." ∈ relative) then Raise (outside p)
  else Ok (join "/" (["modules"; "local"] ++ relative)%list).

(** [[f(p) for p in value]]: what iterating over the value gives. *)
Definition each (v : Value) : result BufError (list Value) :=
  match v with
  | Targets.TList l => Ok l
  | Targets.TStr s => Ok ((λ c, Targets.TStr (String c EmptyString)) <$> String.list_ascii_of_string s)
  | Targets.TTable t => Ok (Targets.TStr <$> dkeys t)
  | _ => Raise type_error
  end.
Fixpoint local_paths (l : list Value) : result BufError (list string) :=
  match l with
  | [] => Ok []
  | Targets.TStr p :: l => q ← _local_path p; qs ← local_paths l; Ok (q :: qs)
  | _ :: _ => Raise type_error
  end.
Definition moved_paths (v : Value) : result BufError Value :=
  l ← each v; qs ← local_paths l; Ok (Targets.TList (Targets.TStr <$> qs)).
Fixpoint moved_rules (t : table) : result BufError table :=
  match t with
  | [] => Ok []
  | (rule, paths) :: t => v ← moved_paths paths; rest ← moved_rules t; Ok ((rule, v) :: rest)
  end.
Definition _moved_under_local (section : string) (value : Value) : result BufError table :=
  match value with
  | Targets.TTable moved =>
      moved ← match dget moved "ignore" with
              | Some v => q ← moved_paths v; Ok (dset moved "ignore" q)
              | None => Ok moved
              end;
      match dget moved "ignore_only" with
      | Some (Targets.TTable rules) => q ← moved_rules rules; Ok (dset moved "ignore_only" (Targets.TTable q))
      | Some _ => Raise type_error
      | None => Ok moved
      end
  | _ => Raise (not_a_table section)
  end.
Fixpoint moved_sections (policy : table) : result BufError (list (string * table)) :=
  match policy with
  | [] => Ok []
  | (key, value) :: policy => t ← _moved_under_local key value; rest ← moved_sections policy; Ok ((key, t) :: rest)
  end.
Definition _policy (buf : option Value) : result BufError (list (string * table)) :=
  match buf with
  | Some (Targets.TTable (p :: ps)) =>
      match List.filter (λ k, negb (bool_decide (k ∈ ["lint"; "breaking"]))) (dkeys (p :: ps)) with
      | [] => moved_sections (p :: ps)
      | unknown => Raise (unknown_keys (py_sorted unknown))
      end
  | _ => Raise no_policy
  end.

(** The modules of [build_workspace]: the service's own, its pinned contracts
    and the installed ones, by the directory they get. *)
Section modules.
Context (proto_root_of : string → option (result Exit path)) (resolve : string → result Exit ImportedContract).
Fixpoint add_contracts (names : list string) (modules : list (string * path)) : result BufError (list (string * path)) :=
  match names with
  | [] => Ok modules
  | n :: ns => match proto_root_of n with
               | None => Raise (unpinned [n])
               | Some (Raise e) => Raise (exit e)
               | Some (Ok root) => add_contracts ns (dset modules ("modules/" +:+ n) root)
               end
  end.
Fixpoint add_packages (packages : list string) (modules : list (string * path)) : result BufError (list (string * path)) :=
  match packages with
  | [] => Ok modules
  | p :: ps => match resolve p with
               | Raise e => Raise (exit e)
               | Ok c => add_packages ps (dset modules ("modules/" +:+ p) (proto_root c))
               end
  end.
Definition workspace_modules (proto_dir : path) (names packages : list string) : result BufError (list (string * path)) :=
  match List.filter (λ n, match proto_root_of n with Some _ => false | None => true end) names with
  | [] => modules ← add_contracts names [(LOCAL_MODULE, proto_dir)]; add_packages packages modules
  | unknown => Raise (unpinned unknown)
  end.
End modules.

(** ** Where the policy points *)

Lemma local_path_inside p q : _local_path p = Ok q →
  ∃ relative, q = join "/" ("modules" :: "local" :: relative) ∧ ".." ∉ relative.
Proof.
  unfold _local_path. destruct (is_absolute p || _) eqn:Hb; [done|]. apply orb_false_iff in Hb as [_ Hb%bool_decide_eq_false_1].
  intros [= <-]. by exists (Contracts.Contracts.parts p).
Qed.

Lemma moved_paths_inside v q : moved_paths v = Ok q → ∃ qs, q = Targets.TList (Targets.TStr <$> qs) ∧
  ∀ p, p ∈ qs → ∃ relative, p = join "/" ("modules" :: "local" :: relative) ∧ ".." ∉ relative.
Proof.
  unfold moved_paths. destruct (each v) as [l|]; cbn [mbind result_bind]; [|done].
  destruct (local_paths l) as [qs|] eqn:Hl; cbn [mbind result_bind]; [|done]. intros [= <-]. exists qs. split; [done|].
  revert qs Hl. induction l as [|x l IH]; intros qs; cbn [local_paths]; [intros [= <-]; set_solver|].
  destruct x as [s| | | | |]; try done. destruct (_local_path s) as [a|] eqn:Ha; cbn [mbind result_bind]; [|done].
  destruct (local_paths l) as [as_|]; cbn [mbind result_bind]; [|done]. intros [= <-] p [->|Hp]%elem_of_cons.
  - by apply local_path_inside in Ha.
  - by apply (IH as_ eq_refl).
Qed.

(** A pinned contract called local takes the place of the service's module. *)
Lemma a_contract_named_local_replaces_the_service own root :
  workspace_modules (λ n, Some (Ok root)) (λ p, Raise (not_installed p)) own ["local"] [] = Ok [(LOCAL_MODULE, root)]
  ∧ Contracts.Contracts.is_name "local" = true.
Proof. done. Qed.

End Buf.
