(* ===== verification/BufWorkspace.v ===== *)
(** * grpc/buf_workspace.py: a workspace is built from its inputs

    [Workspace]: reading the manifest's one target, the files of every module,
    the digest they are fed to and the directory that is assembled and swapped
    in.  The modules and the policy are those of Codegen.v ([Buf]).  A file
    system is a map from paths to the bytes of the files; texts are below
    U+0100.  SHA-256, symbolic links, the installed packages and the JSON of a
    TOML value that is no text, integer, boolean, list or table are
    parameters. *)

From S2P Require Import Prelude PyStr PyDict Regex ClientCodegen Codegen.
From S2P Require Contracts.

#[local] Open Scope string_scope.
#[local] Open Scope se_scope.

Module Workspace.
Import Codegen.Buf.

(** ** Bytes and JSON *)

Definition nul : ascii := ascii_of_nat 0.
(** UTF-8, below U+0100. *)
Definition utf8 (c : ascii) : string :=
  let n := N_of_ascii c in
  if (n <? 128)%N then String c EmptyString
  else String (ascii_of_N (192 + n / 64)) (String (ascii_of_N (128 + n mod 64)) EmptyString).
Fixpoint encode (s : string) : string :=
  match s with EmptyString => EmptyString | String c s => utf8 c +:+ encode s end.
Definition hex_digit (n : N) : string := String (ascii_of_N (if (n <? 10)%N then 48 + n else 87 + n)) EmptyString.
(** The escapes of [json.dumps], which prints ASCII. *)
Definition escape (c : ascii) : string :=
  let n := N_of_ascii c in
  if (n =? 34)%N || (n =? 92)%N then String "\" (String c EmptyString)
  else if (n =? 10)%N then "\n" else if (n =? 13)%N then "\r" else if (n =? 9)%N then "\t"
  else if (n =? 8)%N then "\b" else if (n =? 12)%N then "\f"
  else if (32 <=? n)%N && (n <=? 126)%N then String c EmptyString
  else "\u00" +:+ hex_digit (n / 16) +:+ hex_digit (n mod 16).
Fixpoint escaped (s : string) : string :=
  match s with EmptyString => EmptyString | String c s => escape c +:+ escaped s end.
Definition quoted (s : string) : string := String dquote (escaped s +:+ String dquote EmptyString).
Definition nl : string := String newline EmptyString.
Fixpoint spaces (n : nat) : string := match n with O => EmptyString | S n => " " +:+ spaces n end.
(** The items of a list or a table, one a line. *)
Definition block (n : nat) (opening closing : string) (items : list string) : string :=
  match items with
  | [] => opening +:+ closing
  | _ => opening +:+ nl +:+ join ("," +:+ nl) ((λ i, spaces (2 + n) +:+ i) <$> items) +:+ nl +:+ spaces n +:+ closing
  end.

Section json.
Context (other : string → option string).
Fixpoint serializable (v : Value) : bool :=
  match v with
  | Targets.TOther s => match other s with Some _ => true | None => false end
  | Targets.TList l => forallb serializable l
  | Targets.TTable t => forallb (λ '(_, v), serializable v) t
  | _ => true
  end.
Definition by_key : string * string → string * string → bool := λ a b, String.leb a.1 b.1.
(** [json.dumps(value, indent=2, sort_keys=True)] *)
Fixpoint dumps (n : nat) (v : Value) : string :=
  match v with
  | Targets.TStr s => quoted s
  | Targets.TInt z => str_int z
  | Targets.TBool b => if b then "true" else "false"
  | Targets.TOther s => default EmptyString (other s)
  | Targets.TList l => block n "[" "]" (List.map (dumps (2 + n)) l)
  | Targets.TTable t =>
      block n "{" "}" ((λ '(k, printed), quoted k +:+ ": " +:+ printed)
                         <$> py_sort by_key (List.map (λ '(k, v), (k, dumps (2 + n) v)) t))
  end.
End json.

(** ** Reading the target *)

Definition lift {A} (r : result Exit A) : result BufError A := match r with Ok a => Ok a | Raise e => Raise (exit e) end.
Definition toolkit (data : table) : result BufError table :=
  tool ← lift (Codegen.get_table data "tool"); lift (Codegen.get_table tool "service_toolkit").
(** The manifest as contracts.py reads it. *)
Fixpoint toml (v : Value) : Contracts.Contracts.Toml :=
  match v with
  | Targets.TStr s => Contracts.Contracts.toml_string s
  | Targets.TTable t => Contracts.Contracts.toml_table (List.map (λ '(k, v), (k, toml v)) t)
  | _ => Contracts.Contracts.toml_other
  end.
Definition below (root p : path) : bool := match Codegen.relative_to root p with Some _ => true | None => false end.

Section workspace.
(** [repr] and JSON of other values; [Path.resolve]; the overrides of pinned
    contracts, as contracts.py sees them; the directories; the installed
    packages; the hexadecimal SHA-256. *)
Context (repr : Value → string) (other : string → option string) (resolve_path : path → path)
  (environ : string → option string) (resolve_override : string → path) (is_dir : path → bool)
  (find_spec : string → option (list path)) (sha256 : string → string).

(** [[target] = targets] *)
Definition one_target (section : table) : result BufError table :=
  match dget section "targets" with
  | Some (Targets.TList [Targets.TTable target]) => Ok target
  | Some (Targets.TList [_]) => Raise (exit attribute_error)
  | _ => Raise not_one_target
  end.
Definition proto_dir_of (target : table) (root : path) : result BufError path :=
  let text := match dget target "proto_dir" with Some v => Targets.str_of repr v | None => EmptyString end in
  let proto_dir := resolve_path (Codegen.placed root text) in
  if negb (below root proto_dir) || bool_decide (proto_dir = root) || negb (is_dir proto_dir) then Raise bad_proto_dir
  else Ok proto_dir.
Definition _single_target (data : table) (root : path) : result BufError (path * list string * list string) :=
  toolkit ← toolkit data;
  section ← lift (Codegen.get_table toolkit "grpc_proto_codegen");
  target ← one_target section;
  proto_dir ← proto_dir_of target root;
  names ← each (Codegen.given target "contracts");
  packages ← each (Codegen.given target "imports");
  Ok (proto_dir, fmap (M := list) (Targets.str_of repr) names, fmap (M := list) (Targets.str_of repr) packages).

(** ** The files *)

Definition is_proto (p : path) : bool := endswith ".proto" (name_of p).
(** The [.proto] files below [root], relative to it, in the order of their
    paths. *)
Definition _files (fs : gmap path string) (root : path) : list path :=
  py_sort (list_leb String.leb) (List.filter is_proto (omap (Codegen.relative_to root) (map_to_list fs).*1)).
Definition content (fs : gmap path string) (file : path) : string := default EmptyString (fs !! file).
(** The files of a workspace: the name each gets, and where it is. *)
Definition placed_files (fs : gmap path string) (modules : list (string * path)) : list (string * path) :=
  List.flat_map (λ '(module, source), (λ q, (module +:+ "/" +:+ Imported.posix q, source ++ q)%list) <$> _files fs source) modules.
Definition entry (fs : gmap path string) (f : string * path) : string :=
  encode f.1 +:+ String nul (content fs f.2 +:+ String nul EmptyString).
(** What the digest is fed. *)
Definition fed (fs : gmap path string) (buf_yaml : string) (placed : list (string * path)) : string :=
  encode buf_yaml +:+ String.concat EmptyString (entry fs <$> placed).
(** The directory that is assembled. *)
Definition copied (fs : gmap path string) (staging : gmap path string) (f : string * path) : gmap path string :=
  <[Contracts.Contracts.parts f.1 := content fs f.2]> staging.
Definition staged (fs : gmap path string) (buf_yaml : string) (placed : list (string * path)) : gmap path string :=
  <[["buf.yaml"] := encode buf_yaml]> (foldl (copied fs) ∅ placed).
(** [rmtree(destination)], [staging.rename(destination)] *)
Definition swapped_in (destination : path) (staging fs : gmap path string) : gmap path string :=
  filter (λ f, below destination f.1 = false) fs ∪ kmap (app destination) staging.

(** ** [build_workspace] *)

Definition config_of (modules : list (string * path)) (policy : list (string * table)) : Value :=
  Targets.TTable (foldl (λ config '(key, t), dset config key (Targets.TTable t))
    [("version", Targets.TStr "v2");
     ("modules", Targets.TList ((λ m, Targets.TTable [("path", Targets.TStr m.1)]) <$> modules))] policy).
Definition contract_root (known : list (string * Contracts.Contracts.ContractPin)) (base_dir : path) (n : string) :
    option (result Exit path) :=
  pin ← dget known n;
  Some match Contracts.Contracts.proto_root environ resolve_override is_dir pin base_dir with
       | Raise e => Raise (contract_error e)
       | Ok root => Ok root
       end.
(** The modules and the text of buf.yaml. *)
Definition inputs (manifest : path) (data : table) (fs : gmap path string) : result BufError (list (string * path) * string) :=
  let base_dir := parent manifest in
  target ← _single_target data (resolve_path base_dir);
  let '(proto_dir, names, packages) := target in
  known ← match Contracts.Contracts.read_pins (name_of manifest) (toml (Targets.TTable data)) with
          | Ok known => Ok known
          | Raise e => Raise (exit (contract_error e))
          end;
  modules ← workspace_modules (contract_root known base_dir) (Imported.resolve find_spec is_dir (_files fs)) proto_dir names packages;
  toolkit ← toolkit data;
  policy ← _policy (dget toolkit "buf");
  if serializable other (config_of modules policy) then Ok (modules, dumps other 0 (config_of modules policy) +:+ nl)
  else Raise type_error.
Definition build_workspace (manifest : path) (data : table) (fs : gmap path string) : result BufError path * gmap path string :=
  let manifest := resolve_path manifest in
  match inputs manifest data fs with
  | Raise e => (Raise e, fs)
  | Ok (modules, buf_yaml) =>
      let placed := placed_files fs modules in
      let destination := (parent manifest ++ [".contracts"; "buf"; sha256 (fed fs buf_yaml placed)])%list in
      (Ok destination, swapped_in destination (staged fs buf_yaml placed) fs)
  end.
End workspace.

(** ** Lemmas on paths and files *)

Lemma relative_to_spec root p q : Codegen.relative_to root p = Some q ↔ p = (root ++ q)%list.
Proof.
  revert p. induction root as [|a root IH]; intros p.
  { cbn. split; [by intros [= ->]|by intros ->]. }
  destruct p as [|b p]; [by split|]. cbn. case_bool_decide as Hab; [subst|].
  - rewrite IH. split; [by intros ->|by intros [= ->]].
  - split; [done|]. intros [= -> _]. done.
Qed.
Lemma below_app root q : below root (root ++ q)%list = true.
Proof. unfold below. by rewrite (proj2 (relative_to_spec root _ q) eq_refl). Qed.
Lemma below_false root p : below root p = false ↔ ∀ q, p ≠ (root ++ q)%list.
Proof.
  unfold below. destruct (Codegen.relative_to root p) as [q|] eqn:He; split; try done.
  - intros Hq. apply relative_to_spec in He. by destruct (Hq q).
  - intros _ q Hq%relative_to_spec. congruence.
Qed.
Lemma elem_files fs root q : q ∈ _files fs root ↔ is_proto q = true ∧ is_Some (fs !! (root ++ q)%list).
Proof.
  unfold _files. rewrite elem_py_sort, list_elem_of_filter', list_elem_of_omap. setoid_rewrite relative_to_spec.
  setoid_rewrite list_elem_of_fmap. split.
  - intros [(p & ([p' b] & -> & Hb) & Hpq) Hp]. cbn in Hpq. subst p'. split; [done|]. apply elem_of_map_to_list in Hb. eauto.
  - intros [Hp [b Hb]]. split; [|done]. eexists. split; [|reflexivity]. eexists (_, b). split; [done|].
    by apply elem_of_map_to_list.
Qed.

(** A name of a file or directory. *)
Definition component (w : string) : Prop :=
  w ≠ EmptyString ∧ w ≠ "." ∧ sall (λ c, negb (bool_decide (c = "/"%char))) w = true.
Lemma filter_components q : Forall component q →
  List.filter (λ w, negb (bool_decide (w = EmptyString)) && negb (bool_decide (w = "."))) q = q.
Proof.
  induction 1 as [|w q (H1 & H2 & _) _ IH]; [done|]. cbn [List.filter]. by rewrite !bool_decide_eq_false_2, IH.
Qed.
Lemma parts_posix q : q ≠ [] → Forall component q → Contracts.Contracts.parts (Imported.posix q) = q.
Proof.
  intros Hq Hc. unfold Contracts.Contracts.parts, Imported.posix. change "/" with (String "/"%char EmptyString) at 1.
  rewrite split_join; [by apply filter_components|done|]. intros w Hw. rewrite Forall_forall in Hc. by apply Hc.
Qed.
Lemma parts_app a b : Contracts.Contracts.parts (a +:+ "/" +:+ b) = (Contracts.Contracts.parts a ++ Contracts.Contracts.parts b)%list.
Proof. unfold Contracts.Contracts.parts. change ("/" +:+ b) with (String "/"%char b). by rewrite split_app, List.filter_app. Qed.

(** ** What the digest is fed says what is placed *)

Definition free (x : ascii) (s : string) : bool := sall (λ c, negb (bool_decide (c = x))) s.
Lemma utf8_free x : x = nul ∨ x = newline → ∀ c, free x (utf8 c) = negb (bool_decide (c = x)).
Proof.
  intros Hx c. apply Bool.eqb_prop. destruct Hx as [-> | ->].
  - refine (forall_ascii (λ c, eqb (free nul (utf8 c)) (negb (bool_decide (c = nul)))) _ c). by vm_compute.
  - refine (forall_ascii (λ c, eqb (free newline (utf8 c)) (negb (bool_decide (c = newline)))) _ c). by vm_compute.
Qed.
Lemma encode_free x s : x = nul ∨ x = newline → free x (encode s) = free x s.
Proof.
  intros Hx. induction s as [|c s IH]; [done|]. cbn [encode]. unfold free. rewrite sall_append. fold (free x (utf8 c)).
  fold (free x (encode s)). by rewrite utf8_free, IH.
Qed.
(** The length of an encoded character is told by its first byte. *)
Definition wide (c : ascii) : bool := (128 <=? N_of_ascii c)%N.
Definition utf8_shape (c : ascii) : bool :=
  match utf8 c with
  | String a EmptyString => bool_decide (a = c) && negb (wide a)
  | String a (String b EmptyString) => wide a && wide c && bool_decide (ascii_of_N ((N_of_ascii a - 192) * 64 + (N_of_ascii b - 128)) = c)
  | _ => false
  end.
Lemma utf8_shaped c : utf8_shape c = true.
Proof. apply (forall_ascii utf8_shape). by vm_compute. Qed.
Lemma utf8_app_inj c d s t : utf8 c +:+ s = utf8 d +:+ t → c = d ∧ s = t.
Proof.
  pose proof (utf8_shaped c) as Hc. pose proof (utf8_shaped d) as Hd. unfold utf8_shape in Hc, Hd.
  destruct (utf8 c) as [|a [|b [|? ?]]]; try done; destruct (utf8 d) as [|a' [|b' [|? ?]]]; try done; cbn; intros He;
    simplify_eq; bprop; subst; try congruence; naive_solver congruence.
Qed.
Lemma encode_inj s t : encode s = encode t → s = t.
Proof.
  revert t. induction s as [|c s IH]; intros [|d t]; cbn; [done|..].
  - pose proof (utf8_shaped d) as Hd. unfold utf8_shape in Hd. by destruct (utf8 d).
  - pose proof (utf8_shaped c) as Hc. unfold utf8_shape in Hc. by destruct (utf8 c).
  - intros [-> Ht]%utf8_app_inj. by rewrite (IH _ Ht).
Qed.
(** The text up to a NUL, and so on, of what is fed after [s]. *)
Fixpoint chunks (s : string) (l : list (string * string)) : list string :=
  match l with [] => [s] | (name, bytes) :: l => (s +:+ name) :: bytes :: chunks EmptyString l end.
Definition stream (s : string) (l : list (string * string)) : string :=
  s +:+ String.concat EmptyString ((λ e, e.1 +:+ String nul (e.2 +:+ String nul EmptyString)) <$> l).
Definition nul_free (l : list (string * string)) : Prop := ∀ name bytes, (name, bytes) ∈ l → free nul name = true ∧ free nul bytes = true.
Lemma concat_cons x l : String.concat EmptyString (x :: l) = x +:+ String.concat EmptyString l.
Proof. destruct l; cbn; [by rewrite append_nil_r|done]. Qed.
Lemma stream_cons s n b l : stream s ((n, b) :: l) = (s +:+ n) +:+ String nul (b +:+ String nul (stream EmptyString l)).
Proof.
  unfold stream. rewrite fmap_cons, concat_cons. cbn [fst snd]. rewrite !append_assoc. cbn [String.append].
  by rewrite !append_assoc.
Qed.
Lemma split_stream l : ∀ s, free nul s = true → nul_free l → split nul (stream s l) = chunks s l.
Proof.
  induction l as [|[name bytes] l IH]; intros s Hs Hl.
  - unfold stream. cbn. rewrite append_nil_r. by apply split_sall.
  - destruct (Hl name bytes) as [Hn Hb]; [by left|]. rewrite stream_cons. cbn [chunks].
    rewrite split_append by (unfold free in *; by rewrite sall_append, Hs, Hn). rewrite split_append by done.
    do 2 f_equal. apply (IH EmptyString); [done|]. intros n b Hin. apply Hl. by right.
Qed.
Lemma chunks_inj l : ∀ l', chunks EmptyString l = chunks EmptyString l' → l = l'.
Proof.
  induction l as [|[n b] l IH]; intros [|[n' b'] l'] He; cbn in He; [done|..].
  - by destruct l'.
  - by destruct l.
  - injection He as -> -> He. by rewrite (IH _ He).
Qed.
(** A text, ended by a newline, and the files can be told apart. *)
Lemma stream_inj y y' l l' : free nul y = true → free nul y' = true → nul_free l → nul_free l' →
  (∀ n b, (n, b) ∈ (l ++ l')%list → free newline n = true) → stream (y +:+ nl) l = stream (y' +:+ nl) l' → y = y' ∧ l = l'.
Proof.
  intros Hy Hy' Hl Hl' Hn He. apply (f_equal (split nul)) in He.
  rewrite !split_stream in He; try done; try (unfold free in *; by rewrite sall_append, ?Hy, ?Hy').
  destruct l as [|[n b] l], l' as [|[n' b'] l']; cbn in He.
  - injection He as He. split; [|done]. apply (f_equal (split newline)) in He. unfold nl in He. rewrite !split_app in He.
    apply app_inj_tail in He as [He _]. by apply split_inj in He.
  - by destruct l'.
  - by destruct l.
  - injection He as Hh -> He. rewrite !append_assoc in Hh. cbn [nl String.append] in Hh.
    apply (f_equal (split newline)) in Hh. unfold nl in Hh. cbn [String.append] in Hh. rewrite !split_app in Hh.
    rewrite (split_sall _ n), (split_sall _ n') in Hh;
      [|apply (Hn n' b'); apply elem_of_app; right; by left|apply (Hn n b'); by left].
    apply app_inj_tail in Hh as [Hh ->]. apply split_inj in Hh as ->. by rewrite (chunks_inj _ _ He).
Qed.

(** ** JSON holds no NUL *)

Section value_induction.
Context (P : Value → Prop) (Hs : ∀ s, P (Targets.TStr s)) (Hi : ∀ z, P (Targets.TInt z)) (Hb : ∀ b, P (Targets.TBool b))
  (Ho : ∀ s, P (Targets.TOther s)) (Hl : ∀ l, Forall P l → P (Targets.TList l))
  (Ht : ∀ t, Forall (λ e, P e.2) t → P (Targets.TTable t)).
Fixpoint value_induction (v : Value) : P v :=
  match v with
  | Targets.TStr s => Hs s
  | Targets.TInt z => Hi z
  | Targets.TBool b => Hb b
  | Targets.TOther s => Ho s
  | Targets.TList l =>
      Hl l ((fix go l := match l return Forall P l with [] => Forall_nil_2 _ | v :: l => Forall_cons_2 _ _ _ (value_induction v) (go l) end) l)
  | Targets.TTable t =>
      Ht t ((fix go t := match t return Forall (λ e, P e.2) t with
                         | [] => Forall_nil_2 _
                         | (k, v) :: t => Forall_cons_2 (λ e : string * Value, P e.2) (k, v) t (value_induction v) (go t) end) t)
  end.
End value_induction.

Lemma free_app x s t : free x (s +:+ t) = free x s && free x t.
Proof. apply sall_append. Qed.
Lemma join_free x sep l : free x sep = true → (∀ s, s ∈ l → free x s = true) → free x (join sep l) = true.
Proof.
  intros Hsep. induction l as [|s l IH]; intros Hl; [done|]. destruct l as [|t l]; [apply Hl; by left|].
  rewrite join_cons, !free_app, Hsep, IH by (intros; apply Hl; by right). by rewrite Hl by by left.
Qed.
Lemma spaces_free n : free nul (spaces n) = true.
Proof. induction n as [|n IH]; [done|]. cbn [spaces]. by rewrite free_app, IH. Qed.
Lemma block_free n a b items : free nul a = true → free nul b = true → (∀ s, s ∈ items → free nul s = true) →
  free nul (block n a b items) = true.
Proof.
  intros Ha Hb Hi. unfold block. destruct items as [|i items]; [by rewrite free_app, Ha, Hb|].
  rewrite !free_app, Ha, Hb, spaces_free, join_free; [done|done|]. intros s (j & -> & Hj)%list_elem_of_fmap.
  by rewrite free_app, spaces_free, Hi.
Qed.
Lemma quoted_free s : free nul (quoted s) = true.
Proof.
  assert (free nul (escaped s) = true) as Hs.
  { induction s as [|c s IH]; [done|]. cbn [escaped]. rewrite free_app, IH.
    refine (forall_ascii (λ c, free nul (escape c) && true) _ c). by vm_compute. }
  unfold quoted. change (free nul (String dquote ?t)) with (free nul t). cbn. fold (free nul (escaped s +:+ String dquote EmptyString)).
  by rewrite free_app, Hs.
Qed.
Lemma digits_free s : sall is_digit s = true → free nul s = true.
Proof.
  apply sall_mono. intros c. rewrite <-implb_true_iff. revert c. apply forall_ascii. by vm_compute.
Qed.
Lemma str_int_free z : free nul (str_int z) = true.
Proof.
  destruct z as [|p|p]; [done|..]; apply (digits_free (pretty_N_go (Npos p) EmptyString)); by apply sall_pretty_N_go.
Qed.
Lemma dumps_free other v : (∀ s t, other s = Some t → free nul t = true) → ∀ n, free nul (dumps other n v) = true.
Proof.
  intros Ho. induction v as [s|z|b|s|l IH|t IH] using value_induction; intros n; cbn [dumps].
  - apply quoted_free.
  - apply str_int_free.
  - by destruct b.
  - destruct (other s) eqn:E; [by eapply Ho|done].
  - apply block_free; [done..|]. intros s (v & -> & Hv)%(list_elem_of_fmap (dumps other (2 + n)) l).
    rewrite Forall_forall in IH. by apply IH.
  - apply block_free; [done..|]. intros s ([k printed] & -> & Hin)%list_elem_of_fmap. rewrite elem_py_sort in Hin.
    apply (list_elem_of_fmap (λ '(k, v), (k, dumps other (2 + n) v)) t) in Hin as ([k' v] & [= -> ->] & Hin).
    rewrite Forall_forall in IH. rewrite !free_app, quoted_free. apply (IH (k', v)). done.
Qed.

(** ** The modules *)

Definition module_name (n : string) : string := "modules/" +:+ n.
Fixpoint add_all (root_of : string → result BufError path) (ns : list string) (modules : list (string * path)) :
    result BufError (list (string * path)) :=
  match ns with
  | [] => Ok modules
  | n :: ns => root ← root_of n; add_all root_of ns (dset modules (module_name n) root)
  end.
Lemma add_contracts_all pr ns : ∀ modules, add_contracts pr ns modules
  = add_all (λ n, match pr n with None => Raise (unpinned [n]) | Some (Raise e) => Raise (exit e) | Some (Ok r) => Ok r end) ns modules.
Proof. induction ns as [|n ns IH]; intros modules; [done|]. cbn. destruct (pr n) as [[]|]; [apply IH|done..]. Qed.
Lemma add_packages_all rs ns : ∀ modules, add_packages rs ns modules
  = add_all (λ n, match rs n with Raise e => Raise (exit e) | Ok c => Ok (Imported.proto_root c) end) ns modules.
Proof. induction ns as [|n ns IH]; intros modules; [done|]. cbn. destruct (rs n); [apply IH|done]. Qed.
Lemma module_name_inj n n' : module_name n = module_name n' → n = n'.
Proof. apply append_inj_l. Qed.
Lemma add_all_spec f ns : ∀ modules modules', add_all f ns modules = Ok modules' → wf modules →
  wf modules' ∧ (∀ n, n ∈ ns → ∃ root, f n = Ok root ∧ dget modules' (module_name n) = Some root) ∧
  (∀ m, (∀ n, n ∈ ns → m ≠ module_name n) → dget modules' m = dget modules m).
Proof.
  induction ns as [|n ns IH]; intros modules modules'; cbn [add_all].
  { intros [= <-] Hwf. split_and!; [done|by intros n Hn%elem_of_nil|done]. }
  intros (root & Hroot & Hr)%result_bind_Ok Hwf. destruct (IH _ _ Hr (wf_dset _ _ _ Hwf)) as (H1 & H2 & H3).
  split_and!; [done| |].
  - intros n' [-> |Hn']%elem_of_cons; [|by apply H2]. exists root. split; [done|].
    destruct (decide (n ∈ ns)) as [Hn|Hn].
    + destruct (H2 _ Hn) as (root' & Hr' & Hg). congruence.
    + rewrite H3; [apply dget_dset_eq|]. by intros n' Hn' <-%module_name_inj.
  - intros m Hm. rewrite H3; [|intros; apply Hm; by right]. apply dget_dset_ne.
    intros He. apply (Hm n); [by left|done].
Qed.
(** Every module is the service's own directory, the root of a pinned contract
    or that of an installed one. *)
Lemma workspace_modules_spec pr rs own names packages modules :
  workspace_modules pr rs own names packages = Ok modules →
  wf modules ∧
  (∀ p, p ∈ packages → ∃ c, rs p = Ok c ∧ dget modules (module_name p) = Some (Imported.proto_root c)) ∧
  (∀ n, n ∈ names → ∃ root, pr n = Some (Ok root) ∧ (n ∉ packages → dget modules (module_name n) = Some root)) ∧
  ("local" ∉ names → "local" ∉ packages → dget modules LOCAL_MODULE = Some own) ∧
  (∀ m root, dget modules m = Some root → ∃ n, m = module_name n ∧ (n = "local" ∨ n ∈ names ∨ n ∈ packages)).
Proof.
  unfold workspace_modules. destruct (List.filter _ names); [|done]. intros (ms & Hms & Hmp)%result_bind_Ok.
  rewrite add_contracts_all in Hms. rewrite add_packages_all in Hmp.
  destruct (add_all_spec _ _ _ _ Hms) as (H1 & H2 & H3); [apply NoDup_singleton|].
  destruct (add_all_spec _ _ _ _ Hmp H1) as (P1 & P2 & P3). split_and!; [done|..].
  - intros p Hp. destruct (P2 p Hp) as (root & Hr & Hg). destruct (rs p) as [c|e]; [|done]. simplify_eq. eauto.
  - intros n Hn. destruct (H2 n Hn) as (root & Hr & Hg). destruct (pr n) as [[root'|e]|]; try done. simplify_eq.
    exists root. split; [done|]. intros Hnp. rewrite P3; [done|]. by intros p Hp <-%module_name_inj.
  - intros Hn Hp. change LOCAL_MODULE with (module_name "local"). rewrite P3, H3; [done|..].
    + by intros n Hin <-%module_name_inj.
    + by intros n Hin <-%module_name_inj.
  - intros m root Hm. destruct (decide (m ∈ module_name <$> packages)) as [(p & -> & Hp)%list_elem_of_fmap|Hp]; [eauto|].
    destruct (decide (m ∈ module_name <$> names)) as [(n & -> & Hn)%list_elem_of_fmap|Hn]; [eauto|].
    rewrite P3, H3 in Hm.
    + exists "local". cbn in Hm. case_decide; by subst; eauto.
    + intros n Hin ->. apply Hn. by apply list_elem_of_fmap_2.
    + intros n Hin ->. apply Hp. by apply list_elem_of_fmap_2.
Qed.

(** ** What is assembled *)

Section assembled.
Context (fs : gmap path string) (modules : list (string * path)).
(** Names of files; of modules. *)
Context (Hfs : ∀ p bytes, fs !! p = Some bytes → Forall component p) (Hwf : wf modules)
  (Hmodules : ∀ m root, dget modules m = Some root → ∃ n, m = module_name n ∧ component n).

Lemma module_parts n : component n → Contracts.Contracts.parts (module_name n) = ["modules"; n].
Proof.
  intros Hn. unfold module_name. change ("modules/" +:+ n) with ("modules" +:+ "/" +:+ n). rewrite parts_app.
  assert (Contracts.Contracts.parts n = [n]) as -> by (apply (parts_posix [n]); [done|by constructor]). done.
Qed.
Lemma file_components root q : is_Some (fs !! (root ++ q)%list) → Forall component q.
Proof. intros [b Hb]. apply Hfs in Hb. by apply Forall_app in Hb as [_ Hb]. Qed.
(** Each file has a place of its own. *)
Lemma elem_placed name file : (name, file) ∈ placed_files fs modules ↔
  ∃ m root q, dget modules m = Some root ∧ name = m +:+ "/" +:+ Imported.posix q ∧ file = (root ++ q)%list ∧
    is_proto q = true ∧ is_Some (fs !! file).
Proof.
  unfold placed_files. rewrite list_elem_of_In, in_flat_map. setoid_rewrite <-list_elem_of_In. split.
  - intros ([m root] & Hm & Hin). apply list_elem_of_fmap in Hin as (q & [= -> ->] & Hq). apply elem_files in Hq as [Hp Hs].
    exists m, root, q. split_and!; try done. by apply elem_dget.
  - intros (m & root & q & Hm & -> & -> & Hp & Hs). exists (m, root). split; [by apply dget_elem|].
    apply list_elem_of_fmap. exists q. split; [done|]. by apply elem_files.
Qed.
Lemma placed_parts name file : (name, file) ∈ placed_files fs modules →
  ∃ n root q, dget modules (module_name n) = Some root ∧ file = (root ++ q)%list ∧ is_proto q = true ∧
    Contracts.Contracts.parts name = ("modules" :: n :: q)%list.
Proof.
  intros (m & root & q & Hm & -> & -> & Hp & Hs)%elem_placed. destruct (Hmodules _ _ Hm) as (n & -> & Hn).
  exists n, root, q. split_and!; [done..|]. rewrite parts_app, module_parts by done.
  rewrite parts_posix; [done| |by eapply file_components]. by intros ->.
Qed.
Lemma placed_once name file name' file' : (name, file) ∈ placed_files fs modules → (name', file') ∈ placed_files fs modules →
  Contracts.Contracts.parts name = Contracts.Contracts.parts name' → file = file'.
Proof.
  intros (n & root & q & Hm & -> & _ & Hp)%placed_parts (n' & root' & q' & Hm' & -> & _ & Hp')%placed_parts He.
  rewrite Hp, Hp' in He. by simplify_eq.
Qed.
End assembled.

Lemma copied_lookup fs placed : ∀ staging k,
  (∀ f, f ∈ placed → Contracts.Contracts.parts f.1 ≠ k) → foldl (copied fs) staging placed !! k = staging !! k.
Proof.
  induction placed as [|f placed IH]; intros staging k Hk; [done|]. cbn. rewrite IH by (intros; apply Hk; by right).
  apply lookup_insert_ne, Hk. by left.
Qed.
Lemma copied_lookup_in fs placed : ∀ staging f, f ∈ placed →
  (∀ g, g ∈ placed → Contracts.Contracts.parts g.1 = Contracts.Contracts.parts f.1 → g.2 = f.2) →
  foldl (copied fs) staging placed !! Contracts.Contracts.parts f.1 = Some (content fs f.2).
Proof.
  induction placed as [|g placed IH]; intros staging f Hf Hone; [by apply elem_of_nil in Hf|]. cbn.
  destruct (decide (f ∈ placed)) as [Hin|Hin]; [apply IH; [done|]; intros; apply Hone; [by right|done]|].
  apply elem_of_cons in Hf as [<-|Hf]; [|done].
  destruct (decide (Exists (λ g, Contracts.Contracts.parts g.1 = Contracts.Contracts.parts f.1) placed)) as [He|He].
  - apply Exists_exists in He as (g & Hg & Hp). rewrite <-Hp, <-(Hone g); [|by right|done]. apply IH; [done|].
    intros h Hh Hph. rewrite (Hone h), (Hone g); [done|by right|done|by right|congruence].
  - rewrite copied_lookup; [unfold copied; by rewrite lookup_insert_eq|]. intros g Hg Hp. apply He, Exists_exists. eauto.
Qed.

(** What the assembled directory holds. *)
Lemma staged_spec fs modules buf_yaml q bytes :
  (∀ p bytes, fs !! p = Some bytes → Forall component p) → wf modules →
  (∀ m root, dget modules m = Some root → ∃ n, m = module_name n ∧ component n) →
  staged fs buf_yaml (placed_files fs modules) !! q = Some bytes ↔
    q = ["buf.yaml"] ∧ bytes = encode buf_yaml ∨
    ∃ n root q', dget modules (module_name n) = Some root ∧ q = ("modules" :: n :: q')%list ∧ is_proto q' = true ∧
      fs !! (root ++ q')%list = Some bytes.
Proof.
  intros Hfs Hwf Hms. unfold staged. destruct (decide (q = ["buf.yaml"])) as [-> |Hne].
  { rewrite lookup_insert_eq. naive_solver. }
  rewrite lookup_insert_ne by done. set (placed := placed_files fs modules).
  destruct (decide (Exists (λ f, Contracts.Contracts.parts f.1 = q) placed)) as [He|He].
  - apply Exists_exists in He as ([name file] & Hin & Hq). cbn [fst] in Hq. subst q.
    rewrite (copied_lookup_in fs placed ∅ (name, file) Hin) by (intros [? ?] ? ?; by eapply placed_once). cbn [fst snd].
    destruct (placed_parts _ _ Hfs Hwf Hms _ _ Hin) as (n & root & q & Hm & -> & Hp & Hparts). rewrite Hparts in *.
    apply (elem_placed _ _ Hwf) in Hin as (_ & _ & _ & _ & _ & _ & _ & Hs). unfold content. destruct Hs as [b Hb].
    rewrite Hb. cbn [default from_option id]. split.
    + intros [= <-]. right. eauto 10.
    + intros [[? _]|(n' & root' & q' & Hm' & Hq & _ & Hb')]; [done|]. simplify_eq. congruence.
  - rewrite copied_lookup by (intros f Hf Hp; apply He, Exists_exists; eauto). rewrite lookup_empty. split; [done|].
    intros [[? _]|(n & root & q' & Hm & -> & Hp & Hb)]; [done|]. destruct He. apply Exists_exists.
    destruct (Hms _ _ Hm) as (n' & <-%module_name_inj & Hn).
    exists (module_name n +:+ "/" +:+ Imported.posix q', (root ++ q')%list). split.
    + apply (elem_placed _ _ Hwf). eauto 10.
    + cbn [fst]. rewrite parts_app, module_parts, parts_posix; [done|by intros ->| |done]. eapply file_components; eauto.
Qed.
Lemma swapped_in_inside destination staging fs q : swapped_in destination staging fs !! (destination ++ q)%list = staging !! q.
Proof.
  unfold swapped_in. rewrite lookup_union_r; [apply (lookup_kmap (app destination))|].
  apply map_lookup_filter_None. right. intros b _. cbn. by rewrite below_app.
Qed.
Lemma swapped_in_outside destination staging fs p : below destination p = false → swapped_in destination staging fs !! p = fs !! p.
Proof.
  intros Hp. unfold swapped_in. rewrite lookup_union_l.
  - destruct (fs !! p) as [b|] eqn:E; [|apply map_lookup_filter_None; by left]. by apply map_lookup_filter_Some.
  - apply eq_None_not_Some. intros [b (q & -> & _)%lookup_kmap_Some]; [|apply _]. by rewrite below_app in Hp.
Qed.

(** ** A build *)

(** The directory a module is taken from: an installed contract's before a
    pinned one's, and either before the service's own. *)
Definition module_root (proto_root_of : string → option (result Exit path)) (resolve : string → result Exit Imported.ImportedContract)
    (own : path) (names packages : list string) (n : string) : option path :=
  if bool_decide (n ∈ packages) then match resolve n with Ok c => Some (Imported.proto_root c) | Raise _ => None end
  else if bool_decide (n ∈ names) then match proto_root_of n with Some (Ok root) => Some root | _ => None end
  else if bool_decide (n = "local") then Some own else None.
Lemma modules_are_their_roots pr rs own names packages modules n : workspace_modules pr rs own names packages = Ok modules →
  dget modules (module_name n) = module_root pr rs own names packages n.
Proof.
  intros (_ & Hp & Hn & Hl & Hall)%workspace_modules_spec. unfold module_root. case_bool_decide as Hip.
  { destruct (Hp n Hip) as (c & -> & Hc). done. }
  case_bool_decide as Hin. { destruct (Hn n Hin) as (root & -> & Hr). by apply Hr. }
  case_bool_decide as Hloc; [subst n; by apply Hl|].
  destruct (dget modules (module_name n)) as [root|] eqn:E; [|done].
  destruct (Hall _ _ E) as (n' & <-%module_name_inj & [-> |[?|?]]); done.
Qed.
Lemma parts_component n : Contracts.Contracts.parts n = [n] → component n.
Proof.
  intros Hp. assert (n ∈ Contracts.Contracts.parts n) as Hin by (rewrite Hp; by left).
  unfold Contracts.Contracts.parts in Hin. rewrite list_elem_of_filter' in Hin. destruct Hin as [Hin Hn].
  split_and!; [| |by eapply split_parts]; intros ->; by vm_compute in Hn.
Qed.

Section build.
Context (repr : Value → string) (other : string → option string) (resolve_path : path → path)
  (environ : string → option string) (resolve_override : string → path) (is_dir : path → bool)
  (find_spec : string → option (list path)) (sha256 : string → string).
(** Only what can be a name is installed. *)
Context (Hspec : ∀ p root roots, find_spec p = Some (root :: roots) → component p).
Lemma inputs_spec manifest data fs modules buf_yaml :
  inputs repr other resolve_path environ resolve_override is_dir find_spec manifest data fs = Ok (modules, buf_yaml) →
  ∃ own names packages known config,
    _single_target repr resolve_path is_dir data (resolve_path (parent manifest)) = Ok (own, names, packages) ∧
    Contracts.Contracts.read_pins (name_of manifest) (toml (Targets.TTable data)) = Ok known ∧
    workspace_modules (contract_root environ resolve_override is_dir known (parent manifest))
      (Imported.resolve find_spec is_dir (_files fs)) own names packages = Ok modules ∧
    buf_yaml = dumps other 0 config +:+ nl.
Proof.
  unfold inputs. intros ([[own names] packages] & Ht & Hi)%result_bind_Ok. cbn iota in Hi.
  apply result_bind_Ok in Hi as (known & Hk & Hi). destruct (Contracts.Contracts.read_pins _ _) as [known'|e] eqn:Hr; [|done].
  simplify_eq. apply result_bind_Ok in Hi as (ms & Hms & Hi). apply result_bind_Ok in Hi as (tk & _ & Hi).
  apply result_bind_Ok in Hi as (policy & _ & Hi). destruct (serializable other (config_of ms policy)); [|done].
  injection Hi as <- <-. exists own, names, packages, known, (config_of ms policy). done.
Qed.
Lemma modules_named manifest known base fs own names packages modules data :
  Contracts.Contracts.read_pins manifest (toml data) = Ok known →
  workspace_modules (contract_root environ resolve_override is_dir known base)
    (Imported.resolve find_spec is_dir (_files fs)) own names packages = Ok modules →
  wf modules ∧ ∀ m root, dget modules m = Some root → ∃ n, m = module_name n ∧ component n.
Proof.
  intros Hk Hms. pose proof (workspace_modules_spec _ _ _ _ _ _ Hms) as (Hwf & Hp & Hn & _ & Hall). split; [done|].
  intros m root Hm. destruct (Hall _ _ Hm) as (n & -> & [-> |[Hin|Hin]]).
  - exists "local". split; [done|]. by apply parts_component.
  - exists n. split; [done|]. destruct (Hn _ Hin) as (r & Hr & _). unfold contract_root in Hr.
    destruct (dget known n) as [pin|] eqn:Hpin; [|done]. apply dget_elem in Hpin.
    destruct (Contracts.Contracts.read_pins_are_safe _ _ _ _ _ Hk Hpin) as (<- & _ & _ & _ & _ & _ & [Hparts _] & _).
    by apply parts_component.
  - exists n. split; [done|]. destruct (Hp _ Hin) as (c & Hc & _). unfold Imported.resolve in Hc.
    destruct (find_spec n) as [[|r rs]|] eqn:Hs; [done| |done]. by eapply Hspec.
Qed.
End build.

(** C27: a build puts exactly its inputs in the directory it returns: buf.yaml
    and, for every module, each [.proto] file of its root, byte for byte, at
    its path below modules/<name>, where the root is that of the installed
    contract, of the pinned contract, or of the service's own protos.  Nothing
    that was in that directory before is left, nothing else of the file system
    changes, and a build that fails changes nothing. *)
Theorem a_workspace_is_its_inputs repr other resolve_path environ resolve_override is_dir find_spec sha256 manifest data fs :
  (∀ p bytes, fs !! p = Some bytes → Forall component p) →
  (∀ p root roots, find_spec p = Some (root :: roots) → component p) →
  match build_workspace repr other resolve_path environ resolve_override is_dir find_spec sha256 manifest data fs with
  | (Ok destination, fs') =>
      ∃ own names packages known modules buf_yaml,
        let base := parent (resolve_path manifest) in
        let roots := module_root (contract_root environ resolve_override is_dir known base)
                       (Imported.resolve find_spec is_dir (_files fs)) own names packages in
        _single_target repr resolve_path is_dir data (resolve_path base) = Ok (own, names, packages) ∧
        Contracts.Contracts.read_pins (name_of (resolve_path manifest)) (toml (Targets.TTable data)) = Ok known ∧
        inputs repr other resolve_path environ resolve_override is_dir find_spec (resolve_path manifest) data fs
          = Ok (modules, buf_yaml) ∧
        (∀ p, below destination p = false → fs' !! p = fs !! p) ∧
        ∀ q bytes, fs' !! (destination ++ q)%list = Some bytes ↔
          q = ["buf.yaml"] ∧ bytes = encode buf_yaml ∨
          ∃ n root q', roots n = Some root ∧ q = ("modules" :: n :: q')%list ∧ is_proto q' = true ∧
            fs !! (root ++ q')%list = Some bytes
  | (Raise _, fs') => fs' = fs
  end.
Proof.
  intros Hfs Hspec. unfold build_workspace. destruct (inputs _ _ _ _ _ _ _ _ _ _) as [[modules buf_yaml]|e] eqn:Hin; [|done].
  destruct (inputs_spec _ _ _ _ _ _ _ _ _ _ _ _ Hin) as (own & names & packages & known & config & Ht & Hk & Hms & Hy).
  destruct (modules_named _ _ _ _ Hspec _ _ _ _ _ _ _ _ _ Hk Hms) as [Hwf Hnamed].
  exists own, names, packages, known, modules, buf_yaml. split_and!; [done..| |].
  - intros p. apply swapped_in_outside.
  - intros q bytes. rewrite swapped_in_inside, (staged_spec _ _ _ _ _ Hfs Hwf Hnamed).
    by setoid_rewrite (modules_are_their_roots _ _ _ _ _ _ _ Hms).
Qed.

(** ** What the name of a workspace says *)

(** A name that a path on one line can hold. *)
Definition on_a_line (w : string) : Prop := free nul w = true ∧ free newline w = true.
Lemma name_on_a_line n : Contracts.Contracts.is_name n = true → on_a_line n.
Proof.
  intros Hn%Contracts.Contracts.name_chars. split; (eapply sall_mono; [|exact Hn]); intros c; rewrite <-implb_true_iff; revert c;
    apply forall_ascii; by vm_compute.
Qed.
Lemma on_a_line_app a b : on_a_line a → on_a_line b → on_a_line (a +:+ b).
Proof. intros [H1 H2] [H3 H4]. unfold on_a_line. by rewrite !free_app, H1, H2, H3, H4. Qed.
Lemma posix_on_a_line q : Forall on_a_line q → on_a_line (Imported.posix q).
Proof. intros Hq. rewrite Forall_forall in Hq. split; apply join_free; [done|apply Hq|done|apply Hq]. Qed.
(** The files a digest is fed, by name and content. *)
Definition files_of (fs : gmap path string) (placed : list (string * path)) : list (string * string) := (λ f, (f.1, content fs f.2)) <$> placed.
Lemma fed_is_stream fs y placed :
  fed fs y placed = stream (encode y) ((λ e, (encode e.1, e.2)) <$> files_of fs placed).
Proof. unfold fed, stream, files_of. f_equal. f_equal. by rewrite <-!list_fmap_compose. Qed.
Lemma staged_from_files fs fs' y placed placed' : files_of fs placed = files_of fs' placed' → staged fs y placed = staged fs' y placed'.
Proof.
  intros He. unfold staged. f_equal.
  assert (∀ fs placed st, foldl (copied fs) st placed = foldl (λ st e, <[Contracts.Contracts.parts e.1 := e.2]> st) st (files_of fs placed)) as Hf.
  { intros f l. induction l as [|x l IH]; intros st; [done|]. cbn [files_of fmap list_fmap foldl]. apply IH. }
  by rewrite !Hf, He.
Qed.
Lemma encode_ends y : encode (y +:+ nl) = encode y +:+ nl.
Proof. induction y as [|c y IH]; [done|]. cbn [String.append encode]. by rewrite IH, append_assoc. Qed.
Lemma encoded_inj (l l' : list (string * string)) : (λ e : string * string, (encode e.1, e.2)) <$> l = (λ e, (encode e.1, e.2)) <$> l' → l = l'.
Proof. apply list_fmap_eq_inj. intros [a b] [a' b'] [= Ha ->]. by rewrite (encode_inj _ _ Ha). Qed.

Section placed_names.
Context (fs : gmap path string) (modules : list (string * path)).
Context (Hfs : ∀ p bytes, fs !! p = Some bytes → Forall on_a_line p ∧ free nul bytes = true) (Hwf : wf modules)
  (Hmodules : ∀ m root, dget modules m = Some root → on_a_line m).
Lemma placed_on_a_line e : e ∈ (λ e, (encode e.1, e.2)) <$> files_of fs (placed_files fs modules) →
  free nul e.1 = true ∧ free newline e.1 = true ∧ free nul e.2 = true.
Proof.
  intros (e' & -> & (f & -> & Hf)%list_elem_of_fmap)%list_elem_of_fmap. destruct f as [name file]. cbn [fst snd].
  apply (elem_placed _ _ Hwf) in Hf as (m & root & q & Hm & -> & -> & _ & [b Hb]). destruct (Hfs _ _ Hb) as [Hp Hfree].
  apply Forall_app in Hp as [_ Hq].
  assert (on_a_line (m +:+ "/" +:+ Imported.posix q)) as [H1 H2].
  { apply on_a_line_app; [by eapply Hmodules|]. apply on_a_line_app; [done|]. by apply posix_on_a_line. }
  rewrite !encode_free by auto. split_and!; [done..|]. unfold content. by rewrite Hb.
Qed.
End placed_names.
(** What is fed for two workspaces is the same only if the workspaces are. *)
Lemma fed_inj fs fs' modules modules' y y' :
  (∀ p bytes, fs !! p = Some bytes → Forall on_a_line p ∧ free nul bytes = true) →
  (∀ p bytes, fs' !! p = Some bytes → Forall on_a_line p ∧ free nul bytes = true) →
  wf modules → wf modules' → (∀ m root, dget modules m = Some root → on_a_line m) →
  (∀ m root, dget modules' m = Some root → on_a_line m) → free nul y = true → free nul y' = true →
  fed fs (y +:+ nl) (placed_files fs modules) = fed fs' (y' +:+ nl) (placed_files fs' modules') →
  staged fs (y +:+ nl) (placed_files fs modules) = staged fs' (y' +:+ nl) (placed_files fs' modules').
Proof.
  intros Hfs Hfs' Hwf Hwf' Hm Hm' Hy Hy'. rewrite !fed_is_stream, !encode_ends. intros He.
  pose proof (placed_on_a_line _ _ Hfs Hwf Hm) as Hp. pose proof (placed_on_a_line _ _ Hfs' Hwf' Hm') as Hp'.
  apply stream_inj in He as [->%encode_inj He%encoded_inj].
  - by apply staged_from_files.
  - by rewrite encode_free by auto.
  - by rewrite encode_free by auto.
  - intros n b Hin. destruct (Hp _ Hin) as (? & _ & ?). done.
  - intros n b Hin. destruct (Hp' _ Hin) as (? & _ & ?). done.
  - intros n b [Hin|Hin]%elem_of_app; [by destruct (Hp _ Hin) as (_ & ? & _)|by destruct (Hp' _ Hin) as (_ & ? & _)].
Qed.
Lemma modules_on_a_line environ resolve_override is_dir find_spec manifest known base fs own names packages modules data :
  (∀ p root roots, find_spec p = Some (root :: roots) → on_a_line p) →
  Contracts.Contracts.read_pins manifest data = Ok known →
  workspace_modules (contract_root environ resolve_override is_dir known base)
    (Imported.resolve find_spec is_dir (_files fs)) own names packages = Ok modules →
  ∀ m root, dget modules m = Some root → on_a_line m.
Proof.
  intros Hspec Hk Hms. pose proof (workspace_modules_spec _ _ _ _ _ _ Hms) as (Hwf & Hp & Hn & _ & Hall).
  intros m root Hm. destruct (Hall _ _ Hm) as (n & -> & [-> |[Hin|Hin]]); [by split|..]; apply on_a_line_app; try by split.
  - destruct (Hn _ Hin) as (r & Hr & _). unfold contract_root in Hr. destruct (dget known n) as [pin|] eqn:Hpin; [|done].
    unfold Contracts.Contracts.read_pins in Hk. apply result_bind_Ok in Hk as (tables & _ & Hk).
    destruct (Contracts.Contracts.read_loop_valid _ [] _ ltac:(done) Hk _ _ Hpin) as [<- Hv].
    apply Contracts.Contracts.valid_spec in Hv as [Hv _]. by apply name_on_a_line.
  - destruct (Hp _ Hin) as (c & Hc & _). unfold Imported.resolve in Hc.
    destruct (find_spec n) as [[|r rs]|] eqn:Hs; [done| |done]. by eapply Hspec.
Qed.


(** ** An example *)

Definition demo_pin : table :=
  [("repository", Targets.TStr "https://github.com/LeavePulse/fleet.git"); ("tag", Targets.TStr "v1.0.0");
   ("commit", Targets.TStr "0123456789012345678901234567890123456789"); ("proto_dir", Targets.TStr "proto")].
Definition demo_target : Value :=
  Targets.TTable [("proto_dir", Targets.TStr "proto"); ("contracts", Targets.TList [Targets.TStr "fleet"])].
Definition demo_manifest : table :=
  [("tool", Targets.TTable [("service_toolkit", Targets.TTable
     [("contracts", Targets.TTable [("fleet", Targets.TTable demo_pin)]);
      ("grpc_proto_codegen", Targets.TTable [("targets", Targets.TList [demo_target])]);
      ("buf", Targets.TTable [("lint", Targets.TTable [("use", Targets.TList [Targets.TStr "STANDARD"])])])])])].
Definition demo_fs (own notes : string) : gmap path string :=
  {[ ["srv"; "pyproject.toml"] := "..."; ["srv"; "proto"; "a"; "v1"; "a.proto"] := own; ["srv"; "proto"; "README.md"] := notes;
     ["fleet"; "proto"; "v1"; "fleet.proto"] := "fleet";
     ["srv"; ".contracts"; "buf"; "#stale"] := "stale" ]}.
Definition demo_resolve (p : path) : path := p.
Definition demo_environ (v : string) : option string := if String.eqb v "LP_GRPC_CONTRACT_FLEET" then Some "/fleet" else None.
Definition demo_find (p : string) : option (list path) := None.
Definition demo_build (own notes : string) :=
  build_workspace (λ _, "") (λ _, None) demo_resolve demo_environ (λ _, ["fleet"]) (λ _, true) demo_find (λ s, "#" +:+ s)
    ["srv"; "pyproject.toml"] demo_manifest (demo_fs own notes).
#[local] Instance component_dec w : Decision (component w).
Proof. unfold component. apply _. Defined.
#[local] Instance on_a_line_dec w : Decision (on_a_line w).
Proof. unfold on_a_line. apply _. Defined.
Lemma demo_file p bytes : bool_decide (Forall component p) = true → bool_decide (Forall on_a_line p) = true →
  free nul bytes = true → Forall component p ∧ Forall on_a_line p ∧ free nul bytes = true.
Proof. by intros ?%bool_decide_eq_true ?%bool_decide_eq_true ?. Qed.
Lemma demo_fs_names own notes p bytes : free nul own = true → free nul notes = true → demo_fs own notes !! p = Some bytes →
  Forall component p ∧ Forall on_a_line p ∧ free nul bytes = true.
Proof.
  intros Hown Hnotes H. unfold demo_fs in H.
  do 4 (apply lookup_insert_Some in H as [[<- <-]|[_ H]]; [by apply demo_file; vm_compute|]).
  apply lookup_singleton_Some in H as [<- <-]. by apply demo_file; vm_compute.
Qed.
Lemma a_workspace_is_its_inputs_witness :
  ∃ destination fs', demo_build "own" "notes" = (Ok destination, fs') ∧
    fs' !! (destination ++ ["modules"; "fleet"; "v1"; "fleet.proto"])%list = Some "fleet" ∧
    fs' !! (destination ++ ["modules"; "local"; "a"; "v1"; "a.proto"])%list = Some "own".
Proof.
  pose proof (a_workspace_is_its_inputs (λ _, "") (λ _, None) demo_resolve demo_environ (λ _, ["fleet"]) (λ _, true) demo_find
    (λ s, "#" +:+ s) ["srv"; "pyproject.toml"] demo_manifest (demo_fs "own" "notes")
    (λ p b H, proj1 (demo_fs_names "own" "notes" p b eq_refl eq_refl H)) (λ p r rs H, ltac:(discriminate H))) as H.
  destruct (build_workspace _ _ _ _ _ _ _ _ _ _ _) as [[d|e] fs'] eqn:Hb;
    [|exfalso; clear H; apply (f_equal fst) in Hb; vm_compute in Hb; discriminate Hb].
  destruct H as (own & names & packages & known & modules & y & Ht & Hk & _ & _ & Hq). exists d, fs'. split; [exact Hb|].
  vm_compute in Ht. injection Ht as <- <- <-. vm_compute in Hk. injection Hk as <-. split; apply Hq; right.
  - exists "fleet", ["fleet"; "proto"], ["v1"; "fleet.proto"]. split_and!; by vm_compute.
  - exists "local", ["srv"; "proto"], ["a"; "v1"; "a.proto"]. split_and!; by vm_compute.
Defined.
End Workspace.
