(* ===== verification/AppFactory.v ===== *)
(** * web/app_factory.py, web/sdk_hints.py, web/cors.py: assembling an application

    [SdkHints]: the hints of a handler and the extensions made of them.
    [App]: what [create_service_app] hands to Litestar, and what it does to the
    application it gets: the security of its handlers, and its OpenAPI
    document, which Litestar renders once and keeps.  Rendering is Litestar's:
    [OpenAPI] is the interface. *)

From S2P Require Import Prelude PyStr PyDict.

#[local] Open Scope string_scope.

Inductive Json := JStr (s : string) | JInt (z : Z) | JBool (b : bool) | JNull | JList (l : list Json) | JObj (d : list (string * Json)).
Definition is_truthy (j : Json) : bool :=
  match j with
  | JStr s => negb (is_empty s)
  | JInt z => negb (z =? 0)%Z
  | JBool b => b
  | JNull => false
  | JList l => negb (bool_decide (length l = 0%nat))
  | JObj d => negb (bool_decide (length d = 0%nat))
  end.
(** [d.update(e)] *)
Definition update {V} (d e : list (string * V)) : list (string * V) := foldl (λ d kv, dset d kv.1 kv.2) d e.

Module SdkHints.

Definition SDK_SCHEMA_VERSION : Z := 3.
Record SdkLink := { name : string; target_resource : string; pick : option string; cached : bool; link_batchable : bool }.
Definition to_dict (l : SdkLink) : list (string * Json) :=
  [("name", JStr (name l)); ("target_resource", JStr (target_resource l))] ++
  match pick l with Some p => [("pick", JStr p)] | None => [] end ++
  (if cached l then [("cached", JBool true)] else []) ++
  (if link_batchable l then [("batchable", JBool true)] else []).

Record Hints := {
  resource : option string; action_of : option string; paginated : bool; raw : bool; capability : option string;
  batchable : bool; returns : option string; data_root : option string; id_path : option string; links : list SdkLink }.
Definition text (key : string) (o : option string) : list (string * Json) :=
  match o with Some s => [(key, JStr s)] | None => [] end.
Definition flag (key : string) (b : bool) : list (string * Json) := if b then [(key, JBool true)] else [].
(** The hints that [sdk_operation] keeps in the handler. *)
Definition sdk_operation (a : Hints) : list (string * Json) :=
  [("schema_version", JInt SDK_SCHEMA_VERSION)] ++ text "resource" (resource a) ++ text "action_of" (action_of a) ++
  flag "paginated" (paginated a) ++ flag "raw" (raw a) ++ text "capability" (capability a) ++
  flag "batchable" (batchable a) ++ text "returns" (returns a) ++ text "data_root" (data_root a) ++
  text "id_path" (id_path a) ++
  match links a with [] => [] | ls => [("links", JList ((λ l, JObj (to_dict l)) <$> ls))] end.

Definition copied (hints : list (string * Json)) (key extension : string) : list (string * Json) :=
  match dget hints key with Some v => [(extension, v)] | None => [] end.
Definition flagged (hints : list (string * Json)) (key extension : string) : list (string * Json) :=
  match dget hints key with Some v => if is_truthy v then [(extension, JBool true)] else [] | None => [] end.
Definition _hints_to_extensions (hints : list (string * Json)) : list (string * Json) :=
  [("x-sdk-schema-version", default (JInt SDK_SCHEMA_VERSION) (dget hints "schema_version"))] ++
  copied hints "resource" "x-sdk-resource" ++ copied hints "action_of" "x-sdk-action-of" ++
  flagged hints "paginated" "x-sdk-paginated" ++ flagged hints "raw" "x-sdk-raw" ++
  copied hints "capability" "x-sdk-capability" ++ flagged hints "batchable" "x-sdk-batchable" ++
  copied hints "returns" "x-sdk-returns" ++ copied hints "data_root" "x-sdk-data-root" ++
  copied hints "id_path" "x-sdk-id-path" ++ copied hints "links" "x-sdk-link".

End SdkHints.

Module App.
Import SdkHints.

(** ** What is handed to Litestar *)

(** [resolve_cors_origins] *)
Definition first_nonempty (a b : list string) : list string := match a with [] => b | _ => a end.
Definition resolve_cors_origins (debug : bool) (allow_origins allow_origins_debug : list string) : list string :=
  let origins := if debug then first_nonempty allow_origins_debug allow_origins
                 else first_nonempty allow_origins allow_origins_debug in
  List.filter (λ o, negb (is_empty o)) (strip <$> origins).

Definition DEFAULT_JWT_EXCLUDE : list string := ["^/health($|/.*)"; "^/docs($|/.*)"; "^/metrics($|/.*)"].

Section create.
(** What the code only passes on: handlers, plugins, middleware, values of
    keyword arguments, checks. *)
Context {H P Mw V C : Type}.

Inductive Kwarg := patterns (l : list string) | value (v : V).
Record JWTAuthIntegration := { jwt_verifier : V; middleware_class : Mw; dependencies : list (string * V);
  middleware_kwargs : list (string * Kwarg) }.
Inductive Middleware :=
  | tracing (m : Mw) | request_context | etag (exclude : list string) | prometheus
  | jwt (cls : Mw) (kwargs : list (string * Kwarg)) | extra (m : Mw).
Inductive RouteHandler := health_controller | metrics_endpoint | given (h : H).
Inductive Plugin := integer_keyed_maps | sqlalchemy_init | given_plugin (p : P).
Inductive Check := sqlalchemy_check | given_check (c : C).

Record AppArguments := {
  debug : bool; route_handlers : list H; cors_allow_origins : list string; cors_allow_origins_debug : list string;
  auth_integration : option JWTAuthIntegration; jwt_exclude_patterns : list string; sqlalchemy : bool;
  app_dependencies : list (string * V); extra_middleware : list Mw; extra_plugins : list P; enable_etag : bool;
  etag_exclude_patterns : list string; health_checks : list (string * C); version : string }.

Record Assembled := {
  middleware : list Middleware; handlers : list RouteHandler; plugins : list Plugin;
  resolved_dependencies : list (string * V); bearer_scheme : bool; allow_origins : list string; max_age : Z;
  checks : list (string * Check); reported_version : string }.

Definition jwt_kwargs (a : AppArguments) (auth : JWTAuthIntegration) : list (string * Kwarg) :=
  update [("jwt_verifier", value (jwt_verifier auth));
          ("exclude", patterns (DEFAULT_JWT_EXCLUDE ++ jwt_exclude_patterns a));
          ("exclude_http_methods", patterns ["OPTIONS"])] (middleware_kwargs auth).

(** [otel_middleware] is what [setup_tracing] returned, [service_version] the
    environment's SERVICE_VERSION. *)
Definition assemble (a : AppArguments) (otel_middleware : option Mw) (service_version : option string) : Assembled :=
  {| middleware :=
       match otel_middleware with Some m => [tracing m] | None => [] end ++ [request_context] ++
       (if enable_etag a then [etag (etag_exclude_patterns a)] else []) ++ [prometheus] ++
       match auth_integration a with Some auth => [jwt (middleware_class auth) (jwt_kwargs a auth)] | None => [] end ++
       (extra <$> extra_middleware a);
     handlers := [health_controller; metrics_endpoint] ++ (given <$> route_handlers a);
     plugins := [integer_keyed_maps] ++ (if sqlalchemy a then [sqlalchemy_init] else []) ++ (given_plugin <$> extra_plugins a);
     resolved_dependencies := match auth_integration a with
                              | Some auth => update (update [] (dependencies auth)) (app_dependencies a)
                              | None => update [] (app_dependencies a)
                              end;
     bearer_scheme := match auth_integration a with Some _ => true | None => false end;
     allow_origins := resolve_cors_origins (debug a) (cors_allow_origins a) (cors_allow_origins_debug a);
     max_age := if debug a then 0%Z else 86400%Z;
     checks := update (if sqlalchemy a then [("postgres", sqlalchemy_check)] else []) (prod_map id given_check <$> health_checks a);
     reported_version := str_or (version a) (default EmptyString service_version) |}.
End create.

(** ** The application Litestar returns *)

(** A registered handler.  [security] is its own requirement, [inherited] that
    of the layers above it, [resolved] what Litestar has resolved and keeps,
    when it has ([Empty] otherwise). *)
Record Handler := {
  is_http : bool; http_methods : list string; exclude_from_auth : bool; operation_id : option string;
  x_sdk : option (list (string * Json)); security : option (list Json); inherited : list Json; resolved : option (list Json) }.
Definition effective (h : Handler) : list Json :=
  match resolved h with Some r => r | None => (inherited h ++ default [] (security h))%list end.

(** The paths of an OpenAPI document: path, method, operation. *)
Definition Doc := list (string * list (string * Json)).
Definition operations (d : Doc) : list (list (string * Json)) :=
  omap (λ j, match j with JObj op => Some op | _ => None end) ((mjoin (dvalues d)).*2).
Definition requirement (l : list Json) : option Json := match l with [] => None | _ => Some (JList l) end.

(** What Litestar documents of rendering: an operation is that of a handler
    and has its resolved requirement. *)
Class OpenAPI := {
  render : list Handler → Doc;
  render_operations hs op : op ∈ operations (render hs) →
    ∃ h, h ∈ hs ∧ is_http h = true ∧ dget op "security" = requirement (effective h) }.

(** The handlers by identity, the routes that refer to them, and the OpenAPI
    plugin with the document it has built, when there is one. *)
Record Litestar := { handler_objects : list Handler; routes : list (list nat); plugin : option (option Doc) }.
Definition registered (app : Litestar) : list Handler := omap (λ i, handler_objects app !! i) (mjoin (routes app)).

Definition bearer : list Json := [JObj [("BearerAuth", JList [JStr "openid"])]].
(** [{"OPTIONS", "HEAD"} >= set(handler.http_methods)] *)
Definition preflight (h : Handler) : bool := forallb (λ m, bool_decide (m ∈ ["OPTIONS"; "HEAD"])) (http_methods h).
Definition secure (h : Handler) : Handler :=
  if negb (is_http h) then h else if preflight h then h else if exclude_from_auth h then h else
  {| is_http := is_http h; http_methods := http_methods h; exclude_from_auth := exclude_from_auth h;
     operation_id := operation_id h; x_sdk := x_sdk h; security := Some bearer; inherited := inherited h; resolved := None |}.

Definition _stamp_handler_security (app : Litestar) : Litestar :=
  {| handler_objects := foldl (λ hs i, alter secure i hs) (handler_objects app) (mjoin (routes app));
     routes := routes app;
     plugin := match plugin app with Some _ => Some None | None => None end |}.

Section document.
Context `{OpenAPI}.

(** [plugin.provide_openapi_schema()]: built once, then kept. *)
Definition provide (app : Litestar) (doc : option Doc) : Doc := match doc with Some d => d | None => render (registered app) end.

Definition hints_of (explicit_operations : bool) (h : Handler) : option (string * list (string * Json)) :=
  if negb (is_http h) then None else if preflight h then None else
  match operation_id h with
  | None | Some EmptyString => None
  | Some id =>
      match x_sdk h with
      | Some (kv :: hints) => Some (id, _hints_to_extensions (kv :: hints))
      | _ => if explicit_operations
             then Some (id, _hints_to_extensions [("schema_version", JInt SDK_SCHEMA_VERSION)]) else None
      end
  end.
Definition hints_by_operation_id (explicit_operations : bool) (app : Litestar) : list (string * list (string * Json)) :=
  update [] (omap (hints_of explicit_operations) (registered app)).

Definition stamp_operation (hints : list (string * list (string * Json))) (op : list (string * Json)) : list (string * Json) :=
  match dget op "operationId" with
  | Some (JStr id) => match dget hints id with
                      | Some (e :: extensions) => update op (e :: extensions)
                      | _ => op
                      end
  | _ => op
  end.
Definition stamp_entry (hints : list (string * list (string * Json))) (j : Json) : Json :=
  match j with JObj op => JObj (stamp_operation hints op) | _ => j end.
Definition stamp_item (hints : list (string * list (string * Json))) (item : list (string * Json)) : list (string * Json) :=
  (λ e, (e.1, stamp_entry hints e.2)) <$> item.
Definition stamp_doc (hints : list (string * list (string * Json))) (d : Doc) : Doc :=
  List.map (λ e, (e.1, stamp_item hints e.2)) d.

Definition stamp_sdk_hints (explicit_operations : bool) (app : Litestar) : Litestar :=
  let hints := hints_by_operation_id explicit_operations app in
  match hints with
  | [] => app
  | _ => match plugin app with
         | None => app
         | Some doc => {| handler_objects := handler_objects app; routes := routes app;
                          plugin := Some (Some (stamp_doc hints (provide app doc))) |}
         end
  end.

(** A hook changes the document in place. *)
Definition _apply_openapi_postprocess (hooks : list (Doc → Doc)) (app : Litestar) : Litestar :=
  match plugin app with
  | None => app
  | Some doc => {| handler_objects := handler_objects app; routes := routes app;
                   plugin := Some (Some (foldl (λ d hook, hook d) (provide app doc) hooks)) |}
  end.

(** The end of [create_service_app]. *)
Definition finish (auth : bool) (explicit_operations : bool) (hooks : list (Doc → Doc)) (app : Litestar) : Litestar :=
  let app := if auth then _stamp_handler_security app else app in
  let app := stamp_sdk_hints explicit_operations app in
  match hooks with [] => app | _ => _apply_openapi_postprocess hooks app end.

(** What [/openapi.json] serves. *)
Definition published (app : Litestar) : option Doc := provide app <$> plugin app.
End document.


(** ** Stamping the handlers *)

Lemma secure_idemp h : secure (secure h) = secure h.
Proof.
  destruct h as [http methods exclude id hints sec inh res]. unfold secure, preflight. cbn.
  destruct http; cbn; [|done]. destruct (forallb _ methods) eqn:Hm; cbn; [by rewrite Hm|].
  destruct exclude; cbn; by rewrite Hm.
Qed.

Lemma secure_loop (ids : list nat) : ∀ (hs : list Handler) (i : nat), foldl (λ hs i, alter secure i hs) hs ids !! i =
  (if bool_decide (i ∈ ids) then secure else id) <$> hs !! i.
Proof.
  induction ids as [|j ids IH]; intros hs i.
  { cbn [foldl]. rewrite bool_decide_eq_false_2 by apply not_elem_of_nil. by destruct (hs !! i). }
  cbn [foldl]. rewrite IH.
  destruct (decide (i = j)) as [->|Hne].
  - rewrite list_lookup_alter_eq, (bool_decide_eq_true_2 (j ∈ j :: ids)) by (by left).
    destruct (hs !! j); [|done]. cbn. f_equal. case_bool_decide; [apply secure_idemp|done].
  - rewrite list_lookup_alter_ne by done. f_equal. rewrite (bool_decide_ext (i ∈ ids) (i ∈ j :: ids)); [done|set_solver].
Qed.

Lemma registered_stamped app : registered (_stamp_handler_security app) = secure <$> registered app.
Proof.
  unfold registered, _stamp_handler_security. cbn [handler_objects routes]. set (ids := mjoin (routes app)).
  assert (Hall : ∀ l : list nat, (∀ i, i ∈ l → i ∈ ids) →
    omap (λ i, foldl (λ hs i, alter secure i hs) (handler_objects app) ids !! i) l =
    secure <$> omap (λ i, handler_objects app !! i) l); [|by apply Hall].
  induction l as [|i l IH]; intros Hl; [done|]. cbn. rewrite secure_loop, bool_decide_eq_true_2 by (apply Hl; by left).
  destruct (handler_objects app !! i); cbn; rewrite IH by (intros j Hj; apply Hl; by right); done.
Qed.

(** What the document says of a stamped handler. *)
Definition documented_security (h : Handler) : option Json :=
  if preflight h || exclude_from_auth h then requirement (effective h) else Some (JList (inherited h ++ bearer)).

Lemma effective_secure h : is_http h = true → requirement (effective (secure h)) = documented_security h.
Proof.
  intros Hh. unfold secure, documented_security. rewrite Hh. cbn [negb].
  destruct (preflight h); [done|]. destruct (exclude_from_auth h); [done|]. cbn. by destruct (inherited h).
Qed.

(** ** Stamping the document *)

Definition extension_keys : list string :=
  ["x-sdk-schema-version"; "x-sdk-resource"; "x-sdk-action-of"; "x-sdk-paginated"; "x-sdk-raw"; "x-sdk-capability";
   "x-sdk-batchable"; "x-sdk-returns"; "x-sdk-data-root"; "x-sdk-id-path"; "x-sdk-link"].

Lemma copied_keys hints k e : dkeys (copied hints k e) `sublist_of` [e].
Proof. unfold copied. destruct (dget hints k); [done|apply sublist_nil_l]. Qed.
Lemma flagged_keys hints k e : dkeys (flagged hints k e) `sublist_of` [e].
Proof. unfold flagged. destruct (dget hints k) as [v|]; [destruct (is_truthy v)|]; try apply sublist_nil_l. done. Qed.

Lemma extensions_keys hints : dkeys (_hints_to_extensions hints) `sublist_of` extension_keys.
Proof.
  unfold _hints_to_extensions, extension_keys. rewrite !dkeys_app.
  repeat (match goal with |- _ `sublist_of` ?k :: ?ks => change (k :: ks) with ([k] ++ ks)%list end; apply sublist_app;
          [first [apply copied_keys|apply flagged_keys|done]|]).
  apply copied_keys.
Qed.

Lemma update_absent {V} (e : list (string * V)) : ∀ d k, k ∉ dkeys e → dget (update d e) k = dget d k.
Proof.
  induction e as [|[k' v] e IH]; intros d k Hk; [done|]. cbn in Hk. apply not_elem_of_cons in Hk as [Hne Hk].
  cbn [update foldl fst snd]. change (foldl _ (dset d k' v) e) with (update (dset d k' v) e). rewrite IH by done.
  by apply dget_dset_ne.
Qed.

Lemma update_present {V} (e : list (string * V)) : ∀ d k v, wf e → dget e k = Some v → dget (update d e) k = Some v.
Proof.
  induction e as [|[k' v'] e IH]; intros d k v Hwf Hk; [done|]. apply NoDup_cons in Hwf as [Hnew Hwf].
  change (update d ((k', v') :: e)) with (update (dset d k' v') e). cbn [dget] in Hk. destruct (decide (k' = k)) as [<-|Hne].
  - injection Hk as ->. rewrite update_absent by done. apply dget_dset_eq.
  - by apply IH.
Qed.

Lemma elem_dset {V} (d : list (string * V)) k v p : p ∈ dset d k v → p = (k, v) ∨ p ∈ d.
Proof.
  induction d as [|[k' v'] d IH]; cbn [dset]; [intros ->%list_elem_of_singleton; by left|].
  destruct (decide _); set_solver.
Qed.

Lemma elem_update {V} (e : list (string * V)) : ∀ d p, p ∈ update d e → p ∈ d ∨ p ∈ e.
Proof.
  induction e as [|[k v] e IH]; intros d p Hp; [by left|].
  apply (IH (dset d k v)) in Hp as [[->|Hp]%elem_dset|Hp]; [right; by left|by left|right; by right].
Qed.

Section published.
Context `{OpenAPI}.

(** The extensions for an id are those of some hints. *)
Lemma hints_by_id_extensions explicit app id ext :
  dget (hints_by_operation_id explicit app) id = Some ext → ∃ hints, ext = _hints_to_extensions hints.
Proof using.
  intros [Hp%elem_of_nil|Hp]%dget_elem%elem_update; [done|]. apply list_elem_of_omap in Hp as (h & _ & Hh).
  unfold hints_of in Hh. splits_match; eauto.
Qed.

Lemma extensions_wf hints : wf (_hints_to_extensions hints).
Proof using. eapply sublist_NoDup; [|apply extensions_keys]. apply (bool_decide_unpack (NoDup extension_keys)). vm_compute. done. Qed.

(** Stamping writes the extensions of the operation's id, and nothing else. *)
Lemma stamp_operation_get explicit app op k : let hints := hints_by_operation_id explicit app in
  (k ∉ extension_keys → dget (stamp_operation hints op) k = dget op k) ∧
  (∀ id ext v, dget op "operationId" = Some (JStr id) → dget hints id = Some ext → dget ext k = Some v →
     dget (stamp_operation hints op) k = Some v).
Proof using.
  cbn zeta. unfold stamp_operation. split.
  - intros Hk. repeat case_match; try done. apply update_absent. intros Hin.
    match goal with Hd : dget (hints_by_operation_id _ _) _ = Some _ |- _ => destruct (hints_by_id_extensions _ _ _ _ Hd) as [hints He] end.
    rewrite He in Hin. apply Hk. by apply (elem_of_sublist _ _ k Hin (extensions_keys hints)).
  - intros id ext v -> Hd Hv. rewrite Hd. destruct ext as [|e ext]; [done|]. apply update_present; [|done].
    destruct (hints_by_id_extensions _ _ _ _ Hd) as [hints ->]. apply extensions_wf.
Qed.

Lemma elem_operations d op : op ∈ operations d ↔ ∃ p item m, (p, item) ∈ d ∧ (m, JObj op) ∈ item.
Proof using.
  unfold operations, dvalues. rewrite list_elem_of_omap. split.
  - intros (j & ([m j'] & -> & (item & Hin & ([p item'] & -> & Hd)%list_elem_of_fmap)%list_elem_of_join)%list_elem_of_fmap & Hop).
    cbn in *. destruct j'; try done. injection Hop as ->. by exists p, item', m.
  - intros (p & item & m & Hd & Hin). exists (JObj op). split; [|done]. apply list_elem_of_fmap. exists (m, JObj op).
    split; [done|]. apply list_elem_of_join. exists item. split; [done|]. apply list_elem_of_fmap. by exists (p, item).
Qed.

Lemma operations_stamped hints d op : op ∈ operations (stamp_doc hints d) →
  ∃ op0, op0 ∈ operations d ∧ op = stamp_operation hints op0.
Proof using.
  intros (p & item & m & Hd & Hin)%elem_operations. unfold stamp_doc in Hd.
  apply (list_elem_of_fmap_1 (λ e, (e.1, stamp_item hints e.2))) in Hd as ([p' item'] & [= -> ->] & Hd).
  apply list_elem_of_fmap in Hin as ([m' j] & [= -> Hj] & Hin). cbn in Hj.
  destruct j as [| | | | |op0]; try done. cbn [stamp_entry snd] in Hj. injection Hj as ->.
  exists op0. split; [|done]. apply elem_operations. by exists p', item', m'.
Qed.

End published.

(** ** What is handed to Litestar *)

(** Probes, the documentation and the metrics stay outside of authentication,
    unless the integration brings its own list. *)
Lemma probes_stay_public {H P Mw V C} (a : @AppArguments H P Mw V C) auth :
  "exclude" ∉ dkeys (middleware_kwargs auth) →
  dget (jwt_kwargs a auth) "exclude" = Some (patterns (DEFAULT_JWT_EXCLUDE ++ jwt_exclude_patterns a)%list).
Proof. intros Hk. unfold jwt_kwargs. by rewrite update_absent. Qed.

(** A check the service gives under a name is the one that runs. *)
Lemma given_checks_win {H P Mw V C} (a : @AppArguments H P Mw V C) otel version name c :
  wf (health_checks a) → dget (health_checks a) name = Some c →
  dget (checks (assemble a otel version)) name = Some (given_check c).
Proof.
  intros Hwf Hc. cbn [checks assemble]. apply update_present.
  - unfold wf, dkeys in *. rewrite <-list_fmap_compose. exact Hwf.
  - clear Hwf. induction (health_checks a) as [|[k v] l IH]; [done|]. cbn in *. destruct (decide (k = name)); [|by apply IH].
    by injection Hc as ->.
Qed.

(** The hints of a decorated handler arrive in its operation. *)
Lemma hints_reach_the_document a :
  let ext := _hints_to_extensions (sdk_operation a) in
  dget ext "x-sdk-schema-version" = Some (JInt 3) ∧ dget ext "x-sdk-resource" = JStr <$> resource a ∧
  dget ext "x-sdk-paginated" = (if paginated a then Some (JBool true) else None) ∧
  dget ext "x-sdk-id-path" = JStr <$> id_path a ∧ dget ext "x-sdk-returns" = JStr <$> returns a.
Proof.
  destruct a as [[] [] [] [] [] [] [] [] [] []]; vm_compute; repeat split.
Qed.

(** ** A service with one public and one protected route *)

Definition simple_render (hs : list Handler) : Doc :=
  (λ h, (default "?" (operation_id h), [("get", JObj ([("operationId", JStr (default "?" (operation_id h)))] ++
    match requirement (effective h) with Some r => [("security", r)] | None => [] end)%list)])) <$> List.filter is_http hs.
#[local] Instance simple_openapi : OpenAPI.
Proof.
  refine {| render := simple_render |}.
  intros hs op (p & item & m & Hd & Hin)%elem_operations. unfold simple_render in Hd.
  apply list_elem_of_fmap in Hd as (h & [= -> ->] & [Hh Hhttp]%list_elem_of_filter').
  apply list_elem_of_singleton in Hin as [= _ ->]. exists h. repeat split; [done..|]. by destruct (requirement (effective h)).
Defined.

Definition demo_handler (id : string) (public : bool) (hints : option (list (string * Json))) : Handler :=
  {| is_http := true; http_methods := ["GET"]; exclude_from_auth := public; operation_id := Some id; x_sdk := hints;
     security := None; inherited := []; resolved := Some [] |}.
Definition demo_hints : list (string * Json) := [("schema_version", JInt 3); ("resource", JStr "Project")].
Definition demo_app : Litestar :=
  {| handler_objects := [demo_handler "login" true None; demo_handler "project.get" false (Some demo_hints)];
     routes := [[0%nat]; [1%nat; 1%nat]]; plugin := Some (Some []) |}.
Definition demo_doc : Doc := Eval vm_compute in default [] (published (finish true false [] demo_app)).
Definition demo_operation : list (string * Json) := [("operationId", JStr "project.get"); ("security", JList bearer);
  ("x-sdk-schema-version", JInt 3); ("x-sdk-resource", JStr "Project")].


End App.
