(* ===== verification/WebStack.v ===== *)
(** * A request through the middleware of an application

    The layers that [create_service_app] installs (AppFactory), each with the
    meaning of its own file: the context of a request (Observability), entity
    tags (Etag) and request metrics (Prometheus).  Tracing, authentication and
    the layers a service adds are parameters. *)

From S2P Require Import Prelude PyStr PyDict Regex Asgi Etag Observability Prometheus AppFactory.
#[local] Open Scope string_scope.
#[local] Open Scope list_scope.
#[local] Open Scope Z_scope.

Module WebStack.
Import Asgi App.

Section stack.
Context {H P Mw V C E : Type}.
Abbreviation Vars := Logging.Vars.
Abbreviation Web := (Asgi.App Vars E Prometheus.Sample).
Context (decode encode digest : string → string) (otel : option (string * string)).
Context (http_status : E → option Z).
(** A layer that is not this package's, with its keyword arguments. *)
Context (foreign : Mw → list (string * @Kwarg V) → Scope → Web → Web).

(** [any(pattern.search(path) for pattern in self._exclude)] *)
Definition excluded (exclude : list string) (path : string) : bool :=
  existsb (λ p, found (compile no_flags p) path) exclude.
(** [uuid4] is what the request would draw. *)
Definition layer (uuid4 prometheus_route : string) (scope : Scope) (m : @Middleware Mw V) (app : Web) : Web :=
  match m with
  | tracing mw => foreign mw [] scope app
  | request_context => Logging.request_context_middleware decode encode uuid4 scope app
  | etag exclude => Etag.middleware digest (excluded exclude) scope app
  | prometheus => Prometheus.middleware http_status prometheus_route scope app
  | jwt cls kwargs => foreign cls kwargs scope app
  | extra mw => foreign mw [] scope app
  end.
(** The first of the list is the outermost. *)
Definition stack (uuid4 prometheus_route : string) (scope : Scope) (ms : list Middleware) (app : Web) : Web :=
  foldr (layer uuid4 prometheus_route scope) app ms.

(** What is inside the metrics: authentication and the service's layers. *)
Definition inner_layers (a : @AppArguments H P Mw V C) : list Middleware :=
  match auth_integration a with Some auth => [jwt (middleware_class auth) (jwt_kwargs a auth)] | None => [] end ++
  (extra <$> extra_middleware a).
Lemma stack_app uuid4 route scope ms ms' app :
  stack uuid4 route scope (ms ++ ms') app = stack uuid4 route scope ms (stack uuid4 route scope ms' app).
Proof. unfold stack. apply foldr_app. Qed.

(** What the entity tags make of a whole response: its status stays or
    becomes 304. *)
Lemma tagged_status ex scope status hs bs body :
  ∃ status' hs' rest, Etag.call digest (excluded ex) scope (Etag.response status hs bs body) = response_start status' hs' :: rest ∧
    (status' = status ∨ status' = 304 ∧ method scope = Some "GET" ∧ 200 <= status < 300).
Proof.
  unfold Etag.call. destruct (Etag.tags (excluded ex) scope) eqn:Ht; [|by eexists _, _, _; split; [done|left]].
  assert (method scope = Some "GET") as Hget.
  { unfold Etag.tags in Ht. destruct (bool_decide (scope_type scope = "http")); [|done].
    by destruct (bool_decide_reflect (method scope = Some "GET")). }
  unfold Etag.response. cbn [foldl]. unfold Etag.send_wrapper at 2. cbn [Etag.passthrough Etag.new_wrapper].
  destruct (Etag.streamed status hs) eqn:Hs.
  { rewrite Etag.foldl_passthrough by done. by eexists _, _, _; split; [|left]. }
  rewrite foldl_app, Etag.foldl_chunks by done. cbn [foldl Etag.send_wrapper Etag.passthrough].
  unfold Etag.emit. cbn [Etag.sent Etag.new_wrapper Etag.start_message Etag.body_chunks app]. unfold Etag.finalize.
  destruct (is_empty _); [by eexists _, _, _; split; [|left]|].
  destruct (match Etag.header (request_headers scope) "if-none-match" with Some m => _ | None => _ end);
    (eexists _, _, _; split; [done|]); [|by left].
  right. split; [done|]. split; [done|]. unfold Etag.streamed in Hs.
  apply orb_false_iff in Hs as [Hs _]. apply orb_false_iff in Hs as [Hs _].
  apply orb_false_iff in Hs as [H1 H2]. lia.
Qed.
Lemma started_chunks bs status : foldl Prometheus.started status (Etag.chunks bs) = status.
Proof. by induction bs. Qed.

(** C25: a request is answered, logged and counted as itself.  In an
    application as [create_service_app] assembles it, inside whatever tracing
    is installed, and whatever the authentication, the layers of the service
    and its handlers do, raising included: the outcome is theirs; what they
    send is sent, with entity tags when these are on, and each response that
    is started carries a request id; every line they log carries the id and
    the trace of this request, and the task's variables end as they were; and
    unless it asks for the metrics themselves the request is counted and timed
    exactly once, by its method and route, under the status of the last
    response they started, that of the HTTP error they raised, or 500.  For a
    whole response that is the status it is answered with, or, when the
    answer is a 304 of the entity tags, the success it stands for. *)
Theorem requests_are_answered_logged_and_counted (a : @AppArguments H P Mw V C) version uuid4 route scope (site : Web) v :
  scope_type scope = "http" →
  let inner := stack uuid4 route scope (inner_layers a) site in
  Logging.binds_users inner →
  let b := behave inner (Logging.entered decode uuid4 scope) in
  let b' := behave (stack uuid4 route scope (middleware (assemble a None version)) site) v in
  let id := Logging.request_id_of decode uuid4 scope in
  let tagged := if enable_etag a then Etag.call digest (excluded (etag_exclude_patterns a)) scope (sends b) else sends b in
  outcome b' = outcome b ∧ left b' = v ∧
  sends b' = (Logging.send_wrapper encode id <$> tagged) ∧ (∀ m, m ∈ sends b' → Logging.echoes m) ∧
  (∀ c, c ∈ logs b' → (Logging.get_log_context otel c).1.1.1 = Logging.context_label (Some id) ∧
     (Logging.context_label (Some (Logging.trace_id_of decode uuid4 scope)) ≠ "-" →
        (Logging.get_log_context otel c).1.1.2 = Logging.context_label (Some (Logging.trace_id_of decode uuid4 scope)))) ∧
  logs b' = logs b ∧
  counts b' = counts b ++ (if bool_decide (Prometheus.resolve_route_label scope = route) then []
                           else Prometheus.observed scope (Prometheus.final_status http_status 500 b)) ∧
  (∀ status hs bs body, sends b = Etag.response status hs bs body → outcome b = Ok tt →
     Prometheus.final_status http_status 500 b = status ∧
     ∃ status' hs' rest, sends b' = response_start status' hs' :: rest ∧
       (status' = status ∨ status' = 304 ∧ enable_etag a = true ∧ method scope = Some "GET" ∧ 200 <= status < 300)).
Proof.
  intros Hs inner Hb b b' id tagged.
  assert (b' = behave (Logging.request_context_middleware decode encode uuid4 scope
    (stack uuid4 route scope (if enable_etag a then [etag (etag_exclude_patterns a)] else [])
      (Prometheus.middleware http_status route scope inner))) v) as Hb'.
  { unfold b', inner. cbn [middleware assemble]. cbn [app stack foldr layer]. by destruct (enable_etag a). }
  clearbody b'. subst b'. rewrite Logging.behave_request_context by done. cbn [outcome left sends logs counts].
  set (p := behave (Prometheus.middleware http_status route scope inner) (Logging.entered decode uuid4 scope)).
  assert (p = if bool_decide (Prometheus.resolve_route_label scope = route) then b
              else Prometheus.with_counts (Prometheus.observed scope (Prometheus.final_status http_status 500 b)) b) as Hp.
  { unfold p. rewrite Prometheus.behave_middleware. unfold Prometheus.skipped. by rewrite bool_decide_eq_true_2. }
  assert (sends p = sends b ∧ logs p = logs b ∧ outcome p = outcome b) as (Hp1 & Hp2 & Hp3)
    by (rewrite Hp; by case_bool_decide).
  set (q := behave (stack uuid4 route scope _ _) _).
  assert (q = with_sends tagged p) as Hq.
  { unfold q, tagged. destruct (enable_etag a); cbn [stack foldr layer].
    - rewrite Etag.behave_tagged. fold p. by rewrite Hp1.
    - fold p. rewrite <-Hp1. by destruct p. }
  rewrite Hq. cbn [outcome logs counts sends with_sends]. rewrite Hp3.
  split_and!; try done.
  - intros m (x & -> & _)%list_elem_of_fmap. apply Logging.send_wrapper_echoes.
  - intros c Hc. rewrite Hp2 in Hc. destruct (Logging.behave_logs inner Hb _ c Hc) as [Hr Ht].
    destruct (Logging.log_context_labels otel c) as [H1 H2]. rewrite H1, Hr. split; [done|]. rewrite Ht in H2. exact H2.
  - rewrite Hp. case_bool_decide; [by rewrite app_nil_r|done].
  - intros status hs bs body Hsend Hok. split.
    { unfold Prometheus.final_status. rewrite Hsend, Hok. unfold Etag.response. cbn [foldl Prometheus.started].
      by rewrite foldl_app, started_chunks. }
    unfold tagged. rewrite Hsend. destruct (enable_etag a).
    + destruct (tagged_status (etag_exclude_patterns a) scope status hs bs body) as (st' & hs' & rest & Hcall & Hst).
      rewrite Hcall. cbn [fmap list_fmap Logging.send_wrapper].
      destruct (existsb _ hs'); eexists _, _, _; (split; [done|]); destruct Hst as [?|(? & ? & ?)]; by auto.
    + unfold Etag.response. cbn [fmap list_fmap Logging.send_wrapper].
      destruct (existsb _ hs); eexists _, _, _; (split; [done|]); by left.
Qed.
End stack.

(** ** A request that holds what it asks for

    A service with one layer of its own, which binds the user; the handler logs
    and answers; the request names every tag. *)

Definition demo_foreign (_ : nat) (_ : list (string * @Kwarg nat)) (_ : Scope)
    (k : Asgi.App Logging.Vars nat Prometheus.Sample) : Asgi.App Logging.Vars nat Prometheus.Sample :=
  Logging.bind_user (Some "42") k.
Definition demo_arguments : @AppArguments nat nat nat nat nat :=
  {| debug := false; route_handlers := []; cors_allow_origins := []; cors_allow_origins_debug := [];
     auth_integration := None; jwt_exclude_patterns := []; sqlalchemy := false; app_dependencies := [];
     extra_middleware := [7%nat]; extra_plugins := []; enable_etag := true; etag_exclude_patterns := ["^/live"];
     health_checks := []; version := "1" |}.
Definition demo_scope : Scope :=
  {| scope_type := "http"; method := Some "GET"; path := Some "/users/7"; route_path := Some "/users/{id}";
     request_headers := [("X-Request-Id", "req-1"); ("If-None-Match", "*")] |}.
Definition demo_site : Asgi.App Logging.Vars nat Prometheus.Sample :=
  Log (Send (response_start 200 [("content-type", "application/json")]) (Send (response_body "{}" false) Return)).
Definition demo_behaviour : Behaviour Logging.Vars nat Prometheus.Sample :=
  behave (stack id id (λ _, "0af3") (λ _, None) demo_foreign "uuid" "/metrics" demo_scope
    (middleware (assemble demo_arguments None None)) demo_site) Logging.no_request.
Lemma requests_are_answered_logged_and_counted_witness :
  counts demo_behaviour = [Prometheus.request "GET" "/users/{id}" "200"; Prometheus.latency "GET" "/users/{id}"] ∧
  (∃ hs rest, sends demo_behaviour = response_start 304 hs :: rest) ∧
  (∀ c, c ∈ logs demo_behaviour → (Logging.get_log_context None c).1.1.1 = "req-1") ∧ left demo_behaviour = Logging.no_request.
Proof.
  destruct (requests_are_answered_logged_and_counted id id (λ _, "0af3") None (λ _, None) demo_foreign demo_arguments None
    "uuid" "/metrics" demo_scope demo_site Logging.no_request eq_refl) as (_ & Hl & _ & _ & Hlog & _ & Hc & _).
  { apply Logging.binds_user, Logging.binds_log, Logging.binds_send, Logging.binds_send, Logging.binds_return. }
  split; [exact Hc|]. split; [by eexists _, _; vm_compute|]. split; [|exact Hl].
  intros c Hin. exact (proj1 (Hlog c Hin)).
Defined.
End WebStack.
