(* ===== verification/Exports.v ===== *)
(** * The packages and their lazy exports

    The package files (service_toolkit/__init__.py and those of its packages
    that resolve their names on first use) with their tables, and what Python
    does around them: an attribute that is set is read without [__getattr__],
    and loading a module sets the attribute of its name in the package.  What
    a module brings along, and which optional distribution it lacks, is the
    environment. *)

From S2P Require Import Prelude PyStr PyDict.
#[local] Open Scope string_scope.
#[local] Open Scope list_scope.

Module Exports.

(** A module of the package, one of its members, or a name the package file
    itself binds. *)
Inductive Value := submodule (m : string) | member (m name : string) | own (name : string).
Inductive ImportError := attribute_error (name : string) | module_not_found (missing : string) | extra_required (extra : string).

(** A package: its tables, the names its file binds, the modules its file
    imports, its modules, and the extra it names for a distribution that a
    module lacks. *)
Record Package := {
  all : list string; exports : list (string * string); submodules : list (string * string); owned : list string; eager : list string;
  files : list string; translate : string → string → option string }.
(** The environment: the modules of the package a module imports before
    itself, the distribution that stops it, and the names it defines. *)
Record Env := { brings : string → list string; lacks : string → option string; defines : string → string → bool }.
(** The name that importing [m] binds in the package. *)
Definition top (m : string) : string := (partition_char "." (sdrop 1 m)).1.1.
Record State := { attrs : list (string * Value); loaded : list string }.
Definition bind_module (st : State) (k : string) : State :=
  if bool_decide (k ∈ loaded st) then st
  else {| attrs := dset (attrs st) k (submodule ("." +:+ k)); loaded := k :: loaded st |}.
(** The package file was executed. *)
Definition start (p : Package) : State :=
  foldl bind_module {| attrs := (λ n, (n, own n)) <$> owned p; loaded := [] |} (eager p).
Definition import_module (env : Env) (m : string) (st : State) : result string unit * State :=
  match lacks env m with
  | Some missing => (Raise missing, foldl bind_module st (brings env m))
  | None => (Ok tt, foldl bind_module st (brings env m ++ [top m]))
  end.
Definition module_of (p : Package) (name : string) : option string :=
  match dget (exports p) name with Some m => Some m | None => dget (submodules p) name end.
(** [__getattr__] *)
Definition getattr_ (p : Package) (env : Env) (name : string) (st : State) : result ImportError Value * State :=
  match module_of p name with
  | None => (Raise (attribute_error name), st)
  | Some m =>
      match import_module env m st with
      | (Raise missing, st1) =>
          (Raise (match translate p missing m with Some extra => extra_required extra | None => module_not_found missing end), st1)
      | (Ok _, st1) =>
          if dmem (submodules p) name then (Ok (submodule m), {| attrs := dset (attrs st1) name (submodule m); loaded := loaded st1 |})
          else if defines env m name then (Ok (member m name), {| attrs := dset (attrs st1) name (member m name); loaded := loaded st1 |})
          else (Raise (attribute_error name), st1)
      end
  end.
Definition access (p : Package) (env : Env) (name : string) (st : State) : result ImportError Value * State :=
  match dget (attrs st) name with Some v => (Ok v, st) | None => getattr_ p env name st end.
(** [__dir__] *)
Definition dir (p : Package) : list string := py_sorted (remove_dups (all p)).

(** ** The packages *)

Definition is_one_of (missing : string) (names : list string) (extra : string) (rest : option string) : option string :=
  if bool_decide (missing ∈ names) then Some extra else rest.

Definition root_all : list string :=
  ["AsyncSingleton"; "BaseEventBus"; "CacheMode"; "Channel"; "ChannelRegistry"; "DeliveryMessage"; "DeliveryResult";
    "DBConfig"; "DEFAULT_EPOCH_MS"; "DEFAULT_JWT_EXCLUDE"; "DEFAULT_NATS_URL"; "DEFAULT_REDIS_DB";
    "DEFAULT_REDIS_HOST"; "DEFAULT_REDIS_PORT"; "DatabaseSettings"; "GrpcSettings"; "GrpcClient";
    "GrpcClientMetricsInterceptor"; "GrpcServerMetricsInterceptor"; "InternalTokenCallCredentials";
    "InternalTokenClientInterceptor"; "InternalTokenInterceptor"; "HealthController"; "InternalSettings";
    "JWTAuthIntegration"; "Keyspace"; "LeaderElectedListener"; "LeaderLease"; "LookupCache"; "NATSClient";
    "NATSSettings"; "ExpansionLoader"; "ProjectionSpec"; "RateLimitFailureMode"; "RedisClient";
    "RedisCoordinationSettings"; "RedisFailureMode"; "RedisLock"; "RedisReplicaStore"; "RedisSettings";
    "RequestContextLoggingMiddleware"; "ResponsePolicy"; "SmtpChannel"; "SmtpSettings"; "SnowflakeGenerator";
    "TimestampedStruct"; "TolerantStrEnum"; "ThrottledGaugeRefresh"; "bind_log_user_id"; "build_grpc_client";
    "build_grpc_lifecycle"; "build_shared_channel"; "close_shared_channels"; "create_grpc_server";
    "start_grpc_server"; "stop_grpc_server"; "build_db_config"; "build_event"; "build_prometheus_instrumentation";
    "build_shared_async_client"; "build_standard_logging_config"; "close_shared_async_clients";
    "configure_default_generator"; "create_service_app"; "enforce_request_rate_limit"; "generate_id"; "metric_label";
    "present_fields"; "rate_limited_request"; "request_projection"; "reset_default_generator"; "resolve_client_ip";
    "setup_tracing"; "ttl_with_jitter"; "utc_now_iso"].
Definition root_exports : list (string * string) :=
  [("AsyncSingleton", ".state.async_singleton"); ("BaseEventBus", ".messaging.event_bus");
    ("CacheMode", ".state.cache"); ("Channel", ".channels"); ("ChannelRegistry", ".channels");
    ("DeliveryMessage", ".channels"); ("DeliveryResult", ".channels"); ("SmtpChannel", ".channels");
    ("SmtpSettings", ".channels"); ("DBConfig", ".db.litestar"); ("DEFAULT_EPOCH_MS", ".ids.snowflake");
    ("DEFAULT_JWT_EXCLUDE", ".web.app_factory"); ("DEFAULT_NATS_URL", ".messaging.nats");
    ("DEFAULT_REDIS_DB", ".state.redis"); ("DEFAULT_REDIS_HOST", ".state.redis");
    ("DEFAULT_REDIS_PORT", ".state.redis"); ("DatabaseSettings", ".settings.config");
    ("GrpcSettings", ".settings.config"); ("GrpcClient", ".grpc.client");
    ("GrpcClientMetricsInterceptor", ".grpc.metrics"); ("GrpcServerMetricsInterceptor", ".grpc.metrics");
    ("InternalTokenCallCredentials", ".grpc.interceptors"); ("InternalTokenClientInterceptor", ".grpc.interceptors");
    ("InternalTokenInterceptor", ".grpc.interceptors"); ("HealthController", ".web.health");
    ("InternalSettings", ".settings.config"); ("JWTAuthIntegration", ".web.jwt_integration");
    ("Keyspace", ".state.redis"); ("LeaderElectedListener", ".messaging.leader_elected_listener");
    ("LeaderLease", ".state.redis"); ("LookupCache", ".state.cache"); ("NATSClient", ".messaging.nats");
    ("NATSSettings", ".messaging.nats"); ("ExpansionLoader", ".web.projection");
    ("ProjectionSpec", ".web.projection"); ("RateLimitFailureMode", ".web.rate_limit");
    ("RedisClient", ".state.redis"); ("RedisCoordinationSettings", ".settings.config");
    ("RedisFailureMode", ".state.cache"); ("RedisLock", ".state.redis");
    ("RedisReplicaStore", ".state.snapshot_store"); ("RedisSettings", ".state.redis");
    ("RequestContextLoggingMiddleware", ".observability.logging"); ("ResponsePolicy", ".web.projection");
    ("SnowflakeGenerator", ".ids.snowflake"); ("TimestampedStruct", ".models"); ("TolerantStrEnum", ".enums");
    ("ThrottledGaugeRefresh", ".observability.metrics"); ("bind_log_user_id", ".observability.logging");
    ("build_grpc_client", ".grpc.client"); ("build_grpc_lifecycle", ".grpc.server");
    ("build_shared_channel", ".grpc.channels"); ("close_shared_channels", ".grpc.channels");
    ("create_grpc_server", ".grpc.server"); ("start_grpc_server", ".grpc.server");
    ("stop_grpc_server", ".grpc.server"); ("build_db_config", ".db.litestar"); ("build_event", ".messaging.events");
    ("build_prometheus_instrumentation", ".observability.prometheus"); ("build_shared_async_client", ".web.http");
    ("build_standard_logging_config", ".observability.logging"); ("close_shared_async_clients", ".web.http");
    ("configure_default_generator", ".ids.snowflake"); ("create_service_app", ".web.app_factory");
    ("enforce_request_rate_limit", ".web.rate_limit"); ("generate_id", ".ids.snowflake");
    ("metric_label", ".observability.metrics"); ("present_fields", ".grpc.calls");
    ("rate_limited_request", ".web.rate_limit"); ("request_projection", ".web.projection");
    ("reset_default_generator", ".ids.snowflake"); ("resolve_client_ip", ".web.request_ip");
    ("setup_tracing", ".observability.tracing"); ("ttl_with_jitter", ".state.redis");
    ("utc_now_iso", ".messaging.events")].
(** Its modules. *)
Definition root_files : list string :=
  ["channels"; "core"; "db"; "dev"; "enums"; "errors"; "geo"; "grpc"; "ids"; "messaging"; "models"; "observability";
    "security"; "settings"; "state"; "time"; "web"].
Definition root_translate (missing module_name : string) : option string :=
  is_one_of missing ["msgspec_conf"] "env" (is_one_of missing ["advanced_alchemy"; "sqlalchemy"] "sqlalchemy"
  (is_one_of missing ["nats"] "nats" (is_one_of missing ["redis"] "redis"
  (is_one_of missing ["awesome_errors"; "awesome-errors"] "errors"
  (if bool_decide (missing = "msgspec") && startswith ".state." module_name then Some "redis"
   else is_one_of missing ["litestar"] "litestar[standard]" (is_one_of missing ["grpc"] "grpc"
     (if startswith "opentelemetry" missing then Some "tracing" else None))))))).
Definition root : Package :=
  {| all := root_all; exports := root_exports; submodules := []; owned := []; eager := [];
     files := root_files; translate := root_translate |}.

Definition grpc_all : list string :=
  ["CallerCredentials"; "CallerPolicy"; "CallerPolicyError"; "current_caller"; "UPSTREAM_FAILURE_CODES";
    "GrpcClientMetricsInterceptor"; "GrpcServerMetricsInterceptor"; "GrpcClient"; "InternalTokenCallCredentials";
    "InternalTokenClientInterceptor"; "InternalTokenInterceptor"; "JwtContextServerInterceptor";
    "JwtForwardingClientInterceptor"; "abort_invalid"; "abort_not_found"; "apply_optional_fields";
    "apply_optional_repeated"; "apply_present_fields"; "build_grpc_client"; "build_grpc_lifecycle";
    "peer_certificate_pem"; "build_shared_channel"; "close_shared_channels"; "ServerTls"; "create_grpc_server";
    "current_jwt_payload"; "current_on_behalf"; "effective_user_id"; "user_id_from_payload"; "db_session";
    "forwarded_jwt"; "forwarded_on_behalf"; "grpc_call"; "is_upstream_failure"; "grpc_error_handler";
    "message_has_field"; "optional_bool"; "optional_dt"; "optional_float"; "optional_int"; "optional_str";
    "optional_str_from_int"; "optional_str_if_present"; "present_fields"; "reset_forwarded_jwt";
    "reset_forwarded_on_behalf"; "set_forwarded_jwt"; "set_forwarded_on_behalf"; "start_grpc_server";
    "stop_grpc_server"; "translate_grpc_error"].
Definition grpc_exports : list (string * string) :=
  [("CallerCredentials", ".authorization"); ("CallerPolicy", ".authorization");
    ("CallerPolicyError", ".authorization"); ("current_caller", ".authorization");
    ("GrpcClientMetricsInterceptor", ".metrics"); ("GrpcServerMetricsInterceptor", ".metrics");
    ("GrpcClient", ".client"); ("InternalTokenCallCredentials", ".interceptors");
    ("InternalTokenClientInterceptor", ".interceptors"); ("InternalTokenInterceptor", ".interceptors");
    ("JwtContextServerInterceptor", ".jwt_forwarding"); ("JwtForwardingClientInterceptor", ".jwt_forwarding");
    ("abort_invalid", ".servicer"); ("abort_not_found", ".servicer"); ("apply_optional_fields", ".calls");
    ("apply_optional_repeated", ".calls"); ("apply_present_fields", ".calls"); ("build_grpc_client", ".client");
    ("build_grpc_lifecycle", ".server"); ("peer_certificate_pem", ".server"); ("build_shared_channel", ".channels");
    ("close_shared_channels", ".channels"); ("ServerTls", ".server"); ("create_grpc_server", ".server");
    ("current_jwt_payload", ".jwt_forwarding"); ("current_on_behalf", ".jwt_forwarding");
    ("effective_user_id", ".jwt_forwarding"); ("user_id_from_payload", ".jwt_forwarding");
    ("db_session", ".servicer"); ("forwarded_jwt", ".jwt_forwarding"); ("forwarded_on_behalf", ".jwt_forwarding");
    ("grpc_call", ".calls"); ("is_upstream_failure", ".calls"); ("UPSTREAM_FAILURE_CODES", ".calls");
    ("grpc_error_handler", ".servicer"); ("message_has_field", ".calls"); ("optional_bool", ".calls");
    ("optional_dt", ".calls"); ("optional_float", ".calls"); ("optional_int", ".calls"); ("optional_str", ".calls");
    ("optional_str_from_int", ".calls"); ("optional_str_if_present", ".calls"); ("present_fields", ".calls");
    ("reset_forwarded_jwt", ".jwt_forwarding"); ("reset_forwarded_on_behalf", ".jwt_forwarding");
    ("set_forwarded_jwt", ".jwt_forwarding"); ("set_forwarded_on_behalf", ".jwt_forwarding");
    ("start_grpc_server", ".server"); ("stop_grpc_server", ".server"); ("translate_grpc_error", ".calls")].
(** Its modules. *)
Definition grpc_files : list string :=
  ["authorization"; "buf_workspace"; "calls"; "channels"; "client"; "client_codegen"; "codegen"; "contracts";
    "generated"; "handlers"; "health"; "imported"; "interceptors"; "jwt_forwarding"; "metrics"; "server"; "servicer"].
Definition grpc_translate (missing _ : string) : option string := is_one_of missing ["grpc"] "grpc" None.
Definition grpc : Package :=
  {| all := grpc_all; exports := grpc_exports; submodules := []; owned := []; eager := [];
     files := grpc_files; translate := grpc_translate |}.

Definition settings_all : list string :=
  ["DatabaseSettings"; "GrpcSettings"; "InternalSettings"; "MissingRequirement"; "Need";
    "RedisCoordinationSettings"; "TracingSettings"; "check_configured"; "needs"; "prefixes_for"; "require_configured"].
Definition settings_exports : list (string * string) :=
  [("DatabaseSettings", ".config"); ("GrpcSettings", ".config"); ("InternalSettings", ".config");
    ("RedisCoordinationSettings", ".config"); ("TracingSettings", ".config"); ("MissingRequirement", ".needs");
    ("Need", ".needs"); ("check_configured", ".needs"); ("needs", ".needs"); ("prefixes_for", ".needs");
    ("require_configured", ".needs")].
(** Its modules. *)
Definition settings_files : list string :=
  ["config"; "needs"].
Definition settings_translate (missing _ : string) : option string := is_one_of missing ["msgspec_conf"] "env" None.
Definition settings : Package :=
  {| all := settings_all; exports := settings_exports; submodules := []; owned := []; eager := [];
     files := settings_files; translate := settings_translate |}.

Definition messaging_all : list string :=
  ["BaseEventBus"; "DEFAULT_NATS_URL"; "DurableConsumer"; "LeaderElectedListener"; "NATSClient"; "NATSSettings";
    "PoisonMessage"; "build_event"; "utc_now_iso"].
Definition messaging_exports : list (string * string) :=
  [("BaseEventBus", ".event_bus"); ("DEFAULT_NATS_URL", ".nats"); ("DurableConsumer", ".consumer");
    ("LeaderElectedListener", ".leader_elected_listener"); ("NATSClient", ".nats"); ("NATSSettings", ".nats");
    ("PoisonMessage", ".consumer")].
(** Its modules. *)
Definition messaging_files : list string :=
  ["consumer"; "event_bus"; "events"; "leader_elected_listener"; "nats"].
Definition messaging_translate (missing _ : string) : option string := is_one_of missing ["nats"] "nats" None.
Definition messaging : Package :=
  {| all := messaging_all; exports := messaging_exports; submodules := []; owned := ["build_event"; "utc_now_iso"]; eager := ["events"];
     files := messaging_files; translate := messaging_translate |}.

Definition web_all : list string :=
  ["DEFAULT_JWT_EXCLUDE"; "NATIVE_SOURCE"; "ON_BEHALF_OF_HEADER"; "ActorContext"; "ActorRef"; "ExpansionLoader";
    "HealthController"; "JWTAuthIntegration"; "ProjectionSpec"; "RateLimitFailureMode"; "ResponsePolicy";
    "SDK_SCHEMA_VERSION"; "SdkLink"; "build_shared_async_client"; "close_shared_async_clients"; "create_service_app";
    "current_actor"; "default_openapi_render_plugins"; "enforce_request_rate_limit"; "extract_bearer_token";
    "extract_internal_token"; "internal_token_matches"; "intersect_perms_bits"; "intersect_scopes";
    "normalize_locale_tag"; "parse_on_behalf_of"; "rate_limited_request"; "request_projection";
    "reset_current_actor"; "resolve_client_ip"; "resolve_cors_origins"; "resolve_locale_from_request";
    "sdk_operation"; "set_current_actor"; "stamp_sdk_hints"; "with_projection"].
Definition web_exports : list (string * string) :=
  [("DEFAULT_JWT_EXCLUDE", ".app_factory"); ("NATIVE_SOURCE", ".actor"); ("ON_BEHALF_OF_HEADER", ".actor");
    ("ActorContext", ".actor"); ("ActorRef", ".actor"); ("current_actor", ".actor");
    ("intersect_perms_bits", ".actor"); ("intersect_scopes", ".actor"); ("parse_on_behalf_of", ".actor");
    ("reset_current_actor", ".actor"); ("set_current_actor", ".actor"); ("ExpansionLoader", ".projection");
    ("HealthController", ".health"); ("JWTAuthIntegration", ".jwt_integration"); ("ProjectionSpec", ".projection");
    ("RateLimitFailureMode", ".rate_limit"); ("ResponsePolicy", ".projection"); ("SDK_SCHEMA_VERSION", ".sdk_hints");
    ("SdkLink", ".sdk_hints"); ("build_shared_async_client", ".http"); ("close_shared_async_clients", ".http");
    ("create_service_app", ".app_factory"); ("default_openapi_render_plugins", ".openapi");
    ("enforce_request_rate_limit", ".rate_limit"); ("extract_bearer_token", ".auth");
    ("extract_internal_token", ".auth"); ("internal_token_matches", ".auth"); ("normalize_locale_tag", ".locale");
    ("rate_limited_request", ".rate_limit"); ("request_projection", ".projection");
    ("resolve_client_ip", ".request_ip"); ("resolve_cors_origins", ".cors");
    ("resolve_locale_from_request", ".locale"); ("sdk_operation", ".sdk_hints"); ("stamp_sdk_hints", ".sdk_hints");
    ("with_projection", ".projection_decorator")].
Definition web_submodules : list (string * string) :=
  [("actor", ".actor"); ("app_factory", ".app_factory"); ("auth", ".auth"); ("cors", ".cors");
    ("health", ".health"); ("http", ".http"); ("jwt_integration", ".jwt_integration"); ("locale", ".locale");
    ("openapi", ".openapi"); ("projection", ".projection"); ("projection_decorator", ".projection_decorator");
    ("rate_limit", ".rate_limit"); ("request_ip", ".request_ip"); ("sdk_hints", ".sdk_hints")].
(** Its modules. *)
Definition web_files : list string :=
  ["actor"; "app_factory"; "auth"; "cors"; "etag"; "health"; "http"; "jwt_integration"; "locale"; "openapi";
    "openapi_maps"; "projection"; "projection_decorator"; "rate_limit"; "request_ip"; "sdk_hints"].
Definition web_translate (missing _ : string) : option string :=
  is_one_of missing ["awesome_errors"; "awesome-errors"] "errors" (is_one_of missing ["litestar"] "litestar[standard]" None).
Definition web : Package :=
  {| all := web_all; exports := web_exports; submodules := web_submodules; owned := []; eager := [];
     files := web_files; translate := web_translate |}.

Definition state_all : list string :=
  ["AsyncSingleton"; "CacheMode"; "DEFAULT_REDIS_DB"; "DEFAULT_REDIS_HOST"; "DEFAULT_REDIS_PORT"; "Keyspace";
    "LeaderLease"; "LookupCache"; "RedisClient"; "RedisFailureMode"; "RedisLock"; "RedisReplicaStore";
    "RedisSettings"; "ttl_with_jitter"].
Definition state_exports : list (string * string) :=
  [("AsyncSingleton", ".async_singleton"); ("CacheMode", ".cache"); ("DEFAULT_REDIS_DB", ".redis");
    ("DEFAULT_REDIS_HOST", ".redis"); ("DEFAULT_REDIS_PORT", ".redis"); ("Keyspace", ".redis");
    ("LeaderLease", ".redis"); ("LookupCache", ".cache"); ("RedisClient", ".redis"); ("RedisFailureMode", ".cache");
    ("RedisLock", ".redis"); ("RedisReplicaStore", ".snapshot_store"); ("RedisSettings", ".redis");
    ("ttl_with_jitter", ".redis")].
Definition state_submodules : list (string * string) :=
  [("async_singleton", ".async_singleton"); ("cache", ".cache"); ("redis", ".redis");
    ("snapshot_store", ".snapshot_store")].
(** Its modules. *)
Definition state_files : list string :=
  ["async_singleton"; "cache"; "redis"; "snapshot_store"].
Definition state_translate (missing _ : string) : option string :=
  is_one_of missing ["redis"; "msgspec"] "redis" (is_one_of missing ["msgspec_conf"] "env" None).
Definition state : Package :=
  {| all := state_all; exports := state_exports; submodules := state_submodules; owned := []; eager := [];
     files := state_files; translate := state_translate |}.

Definition observability_all : list string :=
  ["RequestContextLoggingMiddleware"; "JsonLogFormatter"; "ThrottledGaugeRefresh"; "bind_log_user_id";
    "build_prometheus_instrumentation"; "build_standard_logging_config"; "get_log_context"; "LokiClient";
    "LokiLogLine"; "LokiQueryError"; "LokiQueryResult"; "metric_label"; "prepare_multiprocess_directory";
    "prometheus_runtime"; "request_context_middleware"; "setup_tracing"].
Definition observability_exports : list (string * string) :=
  [("RequestContextLoggingMiddleware", ".logging"); ("JsonLogFormatter", ".logging");
    ("ThrottledGaugeRefresh", ".metrics"); ("bind_log_user_id", ".logging");
    ("build_prometheus_instrumentation", ".prometheus"); ("build_standard_logging_config", ".logging");
    ("get_log_context", ".logging"); ("LokiClient", ".loki"); ("LokiLogLine", ".loki"); ("LokiQueryError", ".loki");
    ("LokiQueryResult", ".loki"); ("metric_label", ".metrics");
    ("prepare_multiprocess_directory", ".prometheus_runtime"); ("request_context_middleware", ".logging");
    ("setup_tracing", ".tracing")].
Definition observability_submodules : list (string * string) :=
  [("logging", ".logging"); ("metrics", ".metrics"); ("prometheus", ".prometheus");
    ("prometheus_runtime", ".prometheus_runtime"); ("tracing", ".tracing")].
(** Its modules. *)
Definition observability_files : list string :=
  ["logging"; "loki"; "metrics"; "prometheus"; "prometheus_runtime"; "tracing"].
Definition observability_translate (missing _ : string) : option string :=
  if startswith "opentelemetry" missing then Some "tracing" else None.
Definition observability : Package :=
  {| all := observability_all; exports := observability_exports; submodules := observability_submodules; owned := []; eager := [];
     files := observability_files; translate := observability_translate |}.

Definition db_all : list string :=
  ["Base"; "DBConfig"; "TimestampMixin"; "build_db_config"; "install_slow_query_logging"; "utcnow"].
Definition db_exports : list (string * string) :=
  [("Base", ".sqlalchemy"); ("DBConfig", ".litestar"); ("TimestampMixin", ".sqlalchemy");
    ("build_db_config", ".litestar"); ("install_slow_query_logging", ".observability"); ("utcnow", ".sqlalchemy")].
Definition db_submodules : list (string * string) :=
  [("litestar", ".litestar"); ("observability", ".observability"); ("sqlalchemy", ".sqlalchemy")].
(** Its modules. *)
Definition db_files : list string :=
  ["litestar"; "observability"; "sqlalchemy"].
Definition db_translate (missing _ : string) : option string :=
  is_one_of missing ["advanced_alchemy"; "sqlalchemy"] "sqlalchemy" None.
Definition db : Package :=
  {| all := db_all; exports := db_exports; submodules := db_submodules; owned := []; eager := [];
     files := db_files; translate := db_translate |}.

Definition ids_all : list string :=
  ["DEFAULT_EPOCH_MS"; "Snowflake"; "SnowflakeGenerator"; "configure_default_generator"; "generate_id";
    "reset_default_generator"].
Definition ids_exports : list (string * string) :=
  [("DEFAULT_EPOCH_MS", ".snowflake"); ("Snowflake", ".snowflake"); ("SnowflakeGenerator", ".snowflake");
    ("configure_default_generator", ".snowflake"); ("generate_id", ".snowflake");
    ("reset_default_generator", ".snowflake")].
Definition ids_submodules : list (string * string) :=
  [("snowflake", ".snowflake")].
(** Its modules. *)
Definition ids_files : list string :=
  ["snowflake"].
Definition ids_translate (_ _ : string) : option string := None.
Definition ids : Package :=
  {| all := ids_all; exports := ids_exports; submodules := ids_submodules; owned := []; eager := [];
     files := ids_files; translate := ids_translate |}.

Definition errors_all : list string :=
  ["ErrorResponseFormat"; "ErrorTranslator"; "apply_problem_details"; "build_error_translator_with_defaults";
    "build_standard_exception_handlers"].
Definition errors_exports : list (string * string) :=
  [("ErrorResponseFormat", ".awesome_errors"); ("ErrorTranslator", ".awesome_errors");
    ("apply_problem_details", ".awesome_errors"); ("build_error_translator_with_defaults", ".awesome_errors");
    ("build_standard_exception_handlers", ".awesome_errors")].
Definition errors_submodules : list (string * string) :=
  [("awesome_errors", ".awesome_errors")].
(** Its modules. *)
Definition errors_files : list string :=
  ["awesome_errors"].
Definition errors_translate (missing _ : string) : option string := is_one_of missing ["awesome_errors"] "errors" None.
Definition errors : Package :=
  {| all := errors_all; exports := errors_exports; submodules := errors_submodules; owned := []; eager := [];
     files := errors_files; translate := errors_translate |}.

(** ** What a name means *)

(** No exported name is the name of a module, a submodule or something the
    file binds; the submodules are the modules of those names; and both tables
    lead into modules of the package. *)
Definition distinct (p : Package) : bool :=
  forallb (λ e, negb (bool_decide (e.1 ∈ files p)) && negb (dmem (submodules p) e.1) && negb (bool_decide (e.1 ∈ owned p))
                && bool_decide (top e.2 ∈ files p)) (exports p)
  && forallb (λ e, bool_decide (e.2 = "." +:+ e.1) && bool_decide (top e.2 = e.1) && bool_decide (e.1 ∈ files p)
                   && negb (bool_decide (e.1 ∈ owned p))) (submodules p)
  && forallb (λ k, bool_decide (k ∈ files p)) (eager p).
(** The value of a name of the tables. *)
Definition meaning (p : Package) (name m : string) : Value := if dmem (submodules p) name then submodule m else member m name.
(** Names are read, and modules of the package are imported, by anyone. *)
Inductive step (p : Package) (env : Env) : State → State → Prop :=
  | step_access name st : step p env st (access p env name st).2
  | step_import k st : k ∈ files p → lacks env ("." +:+ k) = None → step p env st (bind_module st k).
(** A module that is brought along, or imported by the package file, lacks
    nothing, nor does the package that a
    module is found in; and the modules define what the tables say they do. *)
Definition env_ok (p : Package) (env : Env) : Prop :=
  (∀ k, k ∈ eager p → lacks env ("." +:+ k) = None) ∧
  (∀ m k, k ∈ brings env m → k ∈ files p ∧ lacks env ("." +:+ k) = None) ∧
  (∀ name m, module_of p name = Some m → lacks env m = None → lacks env ("." +:+ top m) = None) ∧
  ∀ name m, dget (exports p) name = Some m → defines env m name = true.
(** Every name of the tables that is set is what it means. *)
Definition Inv (p : Package) (env : Env) (st : State) : Prop :=
  ∀ name m v, module_of p name = Some m → dget (attrs st) name = Some v → v = meaning p name m ∧ lacks env m = None.
(** The name is set. *)
Definition is_set (name : string) (st : State) : Prop := is_Some (dget (attrs st) name).

Lemma dset_keeps_set (d : list (string * Value)) k v name : is_Some (dget d name) → is_Some (dget (dset d k v) name).
Proof.
  intros Hs. destruct (decide (name = k)) as [-> |Hne]; [rewrite dget_dset_eq; eauto|by rewrite dget_dset_ne].
Qed.
Lemma bind_keeps_set k name st : is_set name st → is_set name (bind_module st k).
Proof. intros Hs. unfold bind_module. case_bool_decide; [done|]. by apply dset_keeps_set. Qed.
Lemma binds_keep_set name ks : ∀ st, is_set name st → is_set name (foldl bind_module st ks).
Proof. induction ks as [|k ks IH]; intros st Hs; [done|]. by apply IH, bind_keeps_set. Qed.
Lemma import_binds env m st : ∃ ks, (import_module env m st).2 = foldl bind_module st ks ∧
  ∀ k, k ∈ ks → k ∈ brings env m ∨ k = top m ∧ lacks env m = None.
Proof.
  unfold import_module. destruct (lacks env m); eexists; (split; [reflexivity|]); [by left|].
  intros k [Hk| ->%list_elem_of_singleton]%elem_of_app; [by left|by right].
Qed.
Lemma step_keeps_set p env name st st' : step p env st st' → is_set name st → is_set name st'.
Proof.
  intros [n s|k s _] Hs; [|by apply bind_keeps_set]. unfold access. destruct (dget (attrs s) n); [done|].
  unfold getattr_. destruct (module_of p n) as [m|]; [|done].
  destruct (import_binds env m s) as (ks & Hks & _). destruct (import_module env m s) as [[[]|e] s1]; cbn in Hks; subst s1;
    [|by apply binds_keep_set].
  destruct (dmem (submodules p) n); [by apply dset_keeps_set, binds_keep_set|].
  destruct (defines env m n); [by apply dset_keeps_set, binds_keep_set|by apply binds_keep_set].
Qed.

Section distinct_package.
Context (p : Package) (env : Env) (Hdis : distinct p = true) (Henv : env_ok p env).
(** The name of a module, in a table: it is a submodule, of that name. *)
Lemma module_of_spec name m : module_of p name = Some m →
  top m ∈ files p ∧ name ∉ owned p ∧ (name ∈ files p → dmem (submodules p) name = true ∧ m = "." +:+ name).
Proof.
  unfold distinct in Hdis. apply andb_prop in Hdis as [[Hex Hsub]%andb_prop _]. rewrite forallb_True' in Hex, Hsub.
  unfold module_of. destruct (dget (exports p) name) eqn:He; intros Hm.
  - apply dget_elem in He. specialize (Hex _ He). cbn in Hex. simplify_eq. bprop. tauto.
  - pose proof (dget_elem _ _ _ Hm) as Hin. specialize (Hsub _ Hin). cbn in Hsub. bprop.
    destruct Hsub as [[[Hm' Htop] Hf] Ho]. split_and!; [by rewrite Htop|done|]. intros _. split; [|done]. unfold dmem. by rewrite Hm.
Qed.
Lemma export_spec name m : dget (exports p) name = Some m → meaning p name m = member m name.
Proof.
  intros Hm%dget_elem. unfold distinct in Hdis. apply andb_prop in Hdis as [[Hex _]%andb_prop _]. rewrite forallb_True' in Hex.
  specialize (Hex _ Hm). cbn in Hex. unfold meaning. bprop. destruct Hex as [[[_ Hd] _] _]. by rewrite Hd.
Qed.
Lemma bind_keeps k st : k ∈ files p → lacks env ("." +:+ k) = None → Inv p env st → Inv p env (bind_module st k).
Proof.
  intros Hk Hl HI name m v Hm Hv. unfold bind_module in Hv. case_bool_decide; [by eapply HI|]. cbn in Hv.
  destruct (decide (name = k)) as [-> |Hne]; [|rewrite dget_dset_ne in Hv by done; by eapply HI].
  rewrite dget_dset_eq in Hv. simplify_eq. destruct (module_of_spec _ _ Hm) as (_ & _ & Hs).
  destruct (Hs Hk) as [Hd ->]. unfold meaning. by rewrite Hd.
Qed.
Lemma binds_keep ks : ∀ st, (∀ k, k ∈ ks → k ∈ files p ∧ lacks env ("." +:+ k) = None) → Inv p env st →
  Inv p env (foldl bind_module st ks).
Proof.
  induction ks as [|k ks IH]; intros st Hks HI; [done|]. cbn. apply IH; [intros x Hx; apply Hks; by right|].
  apply bind_keeps; [apply Hks; by left..|done].
Qed.
Lemma import_keeps name m st : module_of p name = Some m → Inv p env st → Inv p env (import_module env m st).2.
Proof.
  intros Hm HI. destruct (module_of_spec _ _ Hm) as [Htop _]. destruct (import_binds env m st) as (ks & -> & Hks). destruct Henv as (_ & Hb & Ht & _).
  apply binds_keep; [|done]. intros k [Hk|[-> Hl]]%Hks; [by eapply Hb|]. split; [done|by eapply Ht].
Qed.
Lemma set_keeps name m st : module_of p name = Some m → lacks env m = None → Inv p env st →
  Inv p env {| attrs := dset (attrs st) name (meaning p name m); loaded := loaded st |}.
Proof.
  intros Hm Hl HI n m' v Hm' Hv. cbn in Hv. destruct (decide (n = name)) as [-> |Hne].
  - rewrite dget_dset_eq in Hv. by simplify_eq.
  - rewrite dget_dset_ne in Hv by done. by eapply HI.
Qed.
(** A use of a name of the tables that is not set imports its module. *)
Lemma getattr_known name m st : module_of p name = Some m →
  getattr_ p env name st
  = match lacks env m with
    | None => (Ok (meaning p name m), {| attrs := dset (attrs (import_module env m st).2) name (meaning p name m);
                                         loaded := loaded (import_module env m st).2 |})
    | Some d => (Raise (match translate p d m with Some extra => extra_required extra | None => module_not_found d end),
                 (import_module env m st).2)
    end.
Proof.
  intros Hm. unfold getattr_. rewrite Hm. unfold import_module, meaning. destruct (lacks env m); [done|]. cbn.
  destruct (dmem (submodules p) name) eqn:Hs; [done|]. destruct Henv as (_ & _ & _ & Hd). rewrite (Hd name); [done|].
  unfold module_of in Hm. destruct (dget (exports p) name); [done|]. unfold dmem in Hs. by rewrite Hm in Hs.
Qed.
Lemma access_keeps name st : Inv p env st → Inv p env (access p env name st).2.
Proof.
  intros HI. unfold access. destruct (dget (attrs st) name); [done|].
  destruct (module_of p name) as [m|] eqn:Hm; [|unfold getattr_; by rewrite Hm].
  rewrite (getattr_known _ _ _ Hm). pose proof (import_keeps _ _ st Hm HI). destruct (lacks env m) eqn:Hl; [done|]. by apply set_keeps.
Qed.
Lemma start_keeps : Inv p env (start p).
Proof.
  unfold start. apply binds_keep.
  - intros k Hk. split; [|by apply Henv]. unfold distinct in Hdis. apply andb_prop in Hdis as [_ He].
    rewrite forallb_True' in He. specialize (He _ Hk). by bprop.
  - intros name m v Hm Hv. destruct (module_of_spec _ _ Hm) as (_ & Ho & _). destruct Ho.
    apply dget_elem in Hv. cbn in Hv. apply list_elem_of_fmap in Hv as (n & [= -> ->] & Hn). done.
Qed.
Lemma tables_kept st : runs (step p env) (start p) st → Inv p env st.
Proof.
  intros Hr. apply (runs_invariant (step p env) (Inv p env) (start p) st); [|apply start_keeps|done].
  intros s s' HI Hs. destruct Hs; [by apply access_keeps|by apply bind_keeps].
Qed.
(** What reading a name of the tables gives. *)
Lemma access_known name m st : module_of p name = Some m → Inv p env st →
  match lacks env m with
  | None => (access p env name st).1 = Ok (meaning p name m) ∧ is_set name (access p env name st).2
  | Some d => (access p env name st).1
              = Raise (match translate p d m with Some extra => extra_required extra | None => module_not_found d end)
  end.
Proof.
  intros Hm HI. unfold access. destruct (dget (attrs st) name) as [v|] eqn:Hv.
  - destruct (HI _ _ _ Hm Hv) as [-> ->]. split; [done|]. by exists (meaning p name m).
  - rewrite (getattr_known _ _ _ Hm). destruct (lacks env m); [done|]. split; [done|].
    unfold is_set. cbn. rewrite dget_dset_eq. eauto.
Qed.
Lemma access_set name m st : module_of p name = Some m → Inv p env st → is_set name st →
  access p env name st = (Ok (meaning p name m), st).
Proof. intros Hm HI [v Hv]. unfold access. rewrite Hv. by destruct (HI _ _ _ Hm Hv) as [-> _]. Qed.
End distinct_package.

(** ** The packages of the toolkit *)

(** All but the settings. *)
Definition packages : list Package := [root; grpc; messaging; web; state; observability; db; ids; errors].
(** Every published name is in a table or bound in the file. *)
Definition complete (p : Package) : bool :=
  forallb (λ n, bool_decide (is_Some (module_of p n)) || bool_decide (n ∈ owned p)) (all p).
Lemma packages_ok : forallb (λ p, distinct p && complete p) packages = true.
Proof. by vm_compute. Qed.

(** C37: a name that one of the packages publishes (every package but the
    settings) and that its tables send to a module means that module's member
    of that name, or the submodule itself, whatever names were read and
    whatever modules of the package were imported before: reading it gives
    that value, and from then on it is read without importing anything; where
    the module lacks an optional distribution, reading it names the extra to
    install, or the distribution where no extra is known.  The other published
    names are bound in the package file. *)
Theorem published_names_mean_their_members p env name st :
  p ∈ packages → env_ok p env → name ∈ all p → runs (step p env) (start p) st →
  match module_of p name with
  | Some m => 
     match lacks env m with
     | None => (access p env name st).1 = Ok (meaning p name m) ∧
               ∀ st', runs (step p env) (access p env name st).2 st' → access p env name st' = (Ok (meaning p name m), st')
     | Some d => (access p env name st).1
                 = Raise (match translate p d m with Some extra => extra_required extra | None => module_not_found d end)
     end
  | None => name ∈ owned p
  end.
Proof.
  intros Hp Henv Hname Hr. pose proof packages_ok as Hok. rewrite forallb_True' in Hok.
  specialize (Hok _ Hp). apply andb_prop in Hok as [Hdis Hall]. unfold complete in Hall. rewrite forallb_True' in Hall.
  specialize (Hall _ Hname). destruct (module_of p name) as [m|] eqn:Hm.
  2:{ apply orb_prop in Hall as [Hall|Hall]; bprop; [by destruct Hall|done]. }
  pose proof (tables_kept _ _ Hdis Henv _ Hr) as HI.
  pose proof (access_known _ _ Henv _ _ _ Hm HI) as Ha. destruct (lacks env m); [done|]. destruct Ha as [Ha Hset].
  split; [done|]. intros st' Hr'. apply (access_set p env name m); [done| |].
  - eapply tables_kept; [done..|]. eapply runs_trans; [exact Hr|]. eapply runs_trans; [|exact Hr'].
    apply runs_one. constructor.
  - revert Hset Hr'. generalize (access p env name st).2. intros s0 Hset Hr'. revert Hset. induction Hr'; [done|].
    intros Hs. eapply step_keeps_set; [done|]. by apply IHHr'.
Qed.
(** An environment without Redis, in which the web package brings the state
    and the settings along. *)
Definition no_redis : Env :=
  {| brings := λ m, if startswith ".web" m then ["state"; "settings"] else [];
     lacks := λ m, if String.eqb m ".state.redis" then Some "redis" else None; defines := λ _ _, true |}.
Lemma no_redis_ok : env_ok root no_redis.
Proof.
  split_and!; [by intros k Hk%elem_of_nil| | |done].
  - intros m k Hk. unfold no_redis in Hk. cbn in Hk. destruct (startswith ".web" m); [|by apply elem_of_nil in Hk].
    apply elem_of_cons in Hk as [-> |Hk]; [|apply list_elem_of_singleton in Hk as ->];
      (split; [apply (bool_decide_unpack _); by vm_compute|done]).
  - intros name m Hm _. unfold module_of in Hm. destruct (dget (exports root) name) eqn:He; [|done]. simplify_eq.
    apply dget_elem in He. assert (forallb (λ e, negb (String.eqb ("." +:+ top e.2) ".state.redis")) (exports root) = true) as Hall
      by (vm_compute; reflexivity). rewrite forallb_True' in Hall. specialize (Hall _ He). cbn in Hall |- *. by case_match.
Qed.
(** A helper of the web package was read first. *)
Definition after_the_web : State := (access root no_redis "resolve_client_ip" (start root)).2.
Lemma published_names_mean_their_members_witness :
  (access root no_redis "generate_id" after_the_web).1 = Ok (member ".ids.snowflake" "generate_id") ∧
  (access root no_redis "RedisLock" after_the_web).1 = Raise (extra_required "redis").
Proof.
  assert (∀ name, name ∈ root_all → runs (step root no_redis) (start root) after_the_web) as Hr
    by (intros; apply runs_one, step_access).
  split.
  - refine (proj1 (published_names_mean_their_members root no_redis "generate_id" after_the_web _ no_redis_ok _ _)).
    1: by left. 1: apply (bool_decide_unpack _); by vm_compute. apply (Hr "generate_id"), (bool_decide_unpack _). by vm_compute.
  - refine (published_names_mean_their_members root no_redis "RedisLock" after_the_web _ no_redis_ok _ _).
    1: by left. 1: apply (bool_decide_unpack _); by vm_compute. apply (Hr "RedisLock"), (bool_decide_unpack _). by vm_compute.
Defined.

(** In the settings package one name is both: once anything has loaded the
    module [needs], the published function of that name is out of reach. *)
Lemma settings_needs_is_shadowed :
  let env := {| brings := λ _, []; lacks := λ _, None; defines := λ _ _, true |} in
  env_ok settings env ∧ complete settings = true ∧
  (access settings env "needs" (start settings)).1 = Ok (member ".needs" "needs") ∧
  ∀ name, dget (exports settings) name = Some ".needs" → name ≠ "needs" →
    (access settings env "needs" (access settings env name (start settings)).2).1 = Ok (submodule ".needs").
Proof.
  cbn zeta. split_and!; [by split_and!; [intros k Hk%elem_of_nil|intros m k Hk%elem_of_nil| |]|by vm_compute|by vm_compute|].
  intros name Hm%dget_elem Hne. unfold settings, settings_exports in Hm. cbn in Hm.
  repeat (apply elem_of_cons in Hm as [Hm|Hm]; [simplify_eq; by vm_compute|]). by apply elem_of_nil in Hm.
Qed.
End Exports.
