(* ===== verification/ErrorPages.v ===== *)
(** * errors/awesome_errors.py: a service's error texts and handlers

    What the helpers hand to the awesome-errors library and what a reader of
    the errors then gets.  The library's translator is an interface: a text is
    looked up by locale and code, and adding translations replaces the texts of
    their codes in their locale.  Ukrainian texts are their UTF-8 bytes. *)

From S2P Require Import Prelude PyStr PyDict.
#[local] Open Scope string_scope.
#[local] Open Scope list_scope.

Module ErrorPages.

Class Translator (T : Type) := {
  create : string → T;
  add_translations : T → string → list (string * string) → bool → T;
  text : T → string → string → option string;
  text_added t locale d persist locale' code :
    text (add_translations t locale d persist) locale' code
    = if bool_decide (locale' = locale) then (match dget d code with Some v => Some v | None => text t locale' code end)
      else text t locale' code }.

(** A response's format; the handlers' arguments. *)
Inductive ErrorResponseFormat := RFC7807 | other_format (name : string).
Section errors.
Context {T Err Extension Handlers : Type} `{!Translator T}.
(** [error.code.value]; an extension of a problem that names the service; the
    keyword arguments and the function of the library. *)
Context (code_value : Err → string) (service_extension : string → Extension).
Record HandlerArguments := {
  translator : T; debug : bool; response_format : ErrorResponseFormat;
  problem_type_resolver : Err → string; problem_extension_builder : Err → Extension }.
Context (create_litestar_exception_handlers : HandlerArguments → Handlers).

Definition default_problem_type_resolver (service_name : string) (error : Err) : string :=
  "urn:" +:+ service_name +:+ ":error:" +:+ lower (code_value error).
Definition default_problem_extension_builder (service_name : string) (_error : Err) : Extension := service_extension service_name.
Definition build_standard_exception_handlers (service_name : string) (t : T) (debug : bool) (response_format : option ErrorResponseFormat)
    (type_resolver : option (Err → string)) (extension_builder : option (Err → Extension)) : Handlers :=
  create_litestar_exception_handlers
    {| translator := t; debug := debug; response_format := default RFC7807 response_format;
       problem_type_resolver := default (default_problem_type_resolver service_name) type_resolver;
       problem_extension_builder := default (default_problem_extension_builder service_name) extension_builder |}.

Definition en_defaults (service_name : string) : list (string * string) :=
  [("OAUTH_PROVIDER_UNKNOWN", "Unknown OAuth provider"); ("SESSION_EXPIRED", "Session is no longer valid");
   ("RESOURCE_NOT_FOUND", "Resource not found"); ("INTERNAL_ERROR", service_name +:+ " internal error")].
Definition uk_defaults : list (string * string) :=
  [("OAUTH_PROVIDER_UNKNOWN", "Невідомий OAuth-провайдер"); ("SESSION_EXPIRED", "Сесія більше не дійсна");
   ("RESOURCE_NOT_FOUND", "Ресурс не знайдено")].
Definition add_custom (t : T) (entry : string * list (string * string)) : T :=
  match entry.2 with [] => t | texts => add_translations t entry.1 texts false end.
Definition build_error_translator_with_defaults (service_name : string) (custom : option (list (string * list (string * string))))
    (default_locale : string) : T :=
  let t := add_translations (create default_locale) "en" (en_defaults service_name) false in
  let t := add_translations t "uk" uk_defaults false in
  foldl add_custom t (default [] custom).

(** ** Which text a code has *)

Definition defaults (service_name locale : string) : list (string * string) :=
  if bool_decide (locale = "uk") then uk_defaults else if bool_decide (locale = "en") then en_defaults service_name else [].
Lemma add_custom_text t locale texts locale' code : text (add_custom t (locale, texts)) locale' code
  = if bool_decide (locale' = locale) then (match dget texts code with Some v => Some v | None => text t locale' code end)
    else text t locale' code.
Proof. unfold add_custom. cbn. destruct texts as [|e texts]; [by case_bool_decide|]. apply text_added. Qed.
Lemma custom_text custom : wf custom → ∀ t locale code, text (foldl add_custom t custom) locale code
  = match (texts ← dget custom locale; dget texts code) with Some v => Some v | None => text t locale code end.
Proof.
  induction custom as [|[l texts] custom IH]; intros Hwf t locale code; [done|]. cbn [foldl].
  unfold wf, dkeys in Hwf. cbn in Hwf. apply NoDup_cons in Hwf as [Hl Hwf]. rewrite IH by done. rewrite add_custom_text.
  cbn [dget]. destruct (decide (l = locale)) as [<-|Hne].
  - rewrite bool_decide_eq_true_2 by done.
    assert (dget custom l = None) as -> by (by apply dget_None). cbn. done.
  - rewrite bool_decide_eq_false_2 by done. done.
Qed.
(** A service's own text of a code comes before the toolkit's, and that before
    the library's; the toolkit's name the service where they do. *)
Lemma services_own_texts_come_first service_name custom default_locale locale code : wf custom →
  text (build_error_translator_with_defaults service_name (Some custom) default_locale) locale code
  = match (texts ← dget custom locale; dget texts code) with
    | Some v => Some v
    | None => match dget (defaults service_name locale) code with
              | Some v => Some v
              | None => text (create default_locale) locale code
              end
    end.
Proof.
  intros Hwf. unfold build_error_translator_with_defaults. cbn [default from_option id]. rewrite custom_text by done.
  rewrite !text_added. unfold defaults. destruct (decide (locale = "uk")) as [-> |Huk]; [done|].
  rewrite (bool_decide_eq_false_2 (locale = "uk")) by done. by case_bool_decide.
Qed.
(** What the handlers are given names the service, whatever the error, unless
    the service says otherwise. *)
Lemma problems_name_the_service service_name t debug format type_resolver extension_builder :
  ∃ args, build_standard_exception_handlers service_name t debug format type_resolver extension_builder
    = create_litestar_exception_handlers args ∧
    (type_resolver = None → ∀ e, startswith ("urn:" +:+ service_name +:+ ":error:") (problem_type_resolver args e) = true) ∧
    (extension_builder = None → ∀ e, problem_extension_builder args e = service_extension service_name) ∧
    (format = None → response_format args = RFC7807).
Proof.
  eexists. split; [reflexivity|]. cbn. split_and!; [|by intros -> e|by intros ->].
  intros -> e. cbn. unfold default_problem_type_resolver. apply startswith_spec. exists (lower (code_value e)).
  cbn. do 4 f_equal. by rewrite append_assoc.
Qed.
End errors.
End ErrorPages.
