(* ===== verification/OpenApi.v ===== *)
(** * web/openapi.py, web/openapi_maps.py, db/litestar.py and db/sqlalchemy.py

    [Maps]: the schema of a map whose keys are integers, and the default pages
    of the documentation.  [Database]: the configuration a service's engine is
    built from, and the columns of a row's times.  The classes of Litestar,
    SQLAlchemy and Advanced Alchemy are the values they are given. *)

From S2P Require Import Prelude PyStr PyDict.
#[local] Open Scope string_scope.
#[local] Open Scope list_scope.
#[local] Open Scope Z_scope.

Module Maps.

(** A type annotation: a class, or a parametrised one (or form) with its
    arguments. *)
Inductive Origin := class (name : string) | form (name : string).
Inductive Annotation := plain (name : string) | generic (origin : Origin) (args : list Annotation).
Inductive Schema :=
  | string_schema (pattern : option string) | object_schema (additional_properties property_names : option Schema) | other_schema (text : string).
Definition PATTERN : string := "^-?[0-9]+$".
Definition INTEGER_KEYS : Schema := string_schema (Some PATTERN).

Section maps.
(** [issubclass(origin, Mapping)]; Litestar's schema of another field. *)
Context (is_mapping : string → bool) (for_field_definition : Annotation → Schema).
Definition _int_keyed (annotation : Annotation) : option (list Annotation) :=
  match annotation with
  | generic (class origin) args =>
      if negb (is_mapping origin) then None
      else match args with
           | [plain key; _] => if bool_decide (key = "int") then Some args else None
           | _ => None
           end
  | _ => None
  end.
Definition is_plugin_supported_type (value : Annotation) : bool := bool_decide (is_Some (_int_keyed value)).
Definition to_openapi_schema (annotation : Annotation) : Schema :=
  match _int_keyed annotation with
  | Some (_ :: v :: _) => object_schema (Some (for_field_definition v)) (Some INTEGER_KEYS)
  | _ => object_schema None None
  end.
End maps.

(** What [PATTERN] matches. *)
Definition integer_key (s : string) : bool :=
  match s with
  | String "-" t => negb (is_empty t) && sall is_digit t
  | s => negb (is_empty s) && sall is_digit s
  end.
Lemma natural_key p : integer_key (pretty (Npos p)) = true ∧ integer_key (String "-" (pretty (Npos p))) = true.
Proof.
  assert (sall is_digit (pretty (Npos p)) = true) as Hd by (apply (sall_pretty_N_go (Npos p) EmptyString eq_refl)).
  assert (pretty (Npos p) ≠ EmptyString) as Hne by (apply (pretty_N_go_nonempty (Npos p) EmptyString eq_refl)).
  split; cbn [integer_key]; [|by rewrite Hd, (proj2 (is_empty_false _) Hne)].
  destruct (pretty (Npos p)) as [|c s]; [done|]. destruct (decide (c = "-"%char)) as [->|Hc]; [done|].
  destruct c as [[] [] [] [] [] [] [] []]; cbn in *; done.
Qed.
Lemma int_digits_all s : ∀ acc b, sall is_digit s = true → b = true ∨ s ≠ EmptyString → is_Some (int_digits acc b s).
Proof.
  induction s as [|c s IH]; intros acc b Hs Hb; cbn [int_digits].
  - destruct Hb as [->|?]; [by eexists|done].
  - cbn in Hs. apply andb_prop in Hs as [Hc Hs]. unfold digit_value. rewrite Hc. apply IH; [done|by left].
Qed.
(** The keys of a map that travelled as JSON are those the schema allows, and
    each is read back as the integer it was; a map that is not keyed by [int]
    is left to Litestar. *)
Lemma integer_maps_keep_their_keys is_mapping for_field v origin z : is_mapping origin = true →
  let annotation := generic (class origin) [plain "int"; v] in
  is_plugin_supported_type is_mapping annotation = true ∧
  to_openapi_schema is_mapping for_field annotation = object_schema (Some (for_field v)) (Some INTEGER_KEYS) ∧
  integer_key (str_int z) = true ∧ py_int (str_int z) = Some z.
Proof.
  intros Hm. unfold is_plugin_supported_type, to_openapi_schema. cbn. rewrite Hm. cbn. split_and!; [done|done| |apply py_int_str_int].
  destruct z as [|p|p]; [done|apply natural_key|]. by destruct (natural_key p).
Qed.

(** [default_openapi_render_plugins] *)
Definition _SCALAR_BUNDLE_URL : string := "https://cdn.leavepulse.com/scalar/leavepulse-scalar.js?v=2026-06-12a".
Definition _SDK_CLIENT_ID : string := "leavepulse-sdk".
Inductive RenderPlugin := Scalar (js_url target_key client_key : string) | Swagger | Redoc | Stoplight.
Definition default_openapi_render_plugins : list RenderPlugin := [Scalar _SCALAR_BUNDLE_URL "js" _SDK_CLIENT_ID; Swagger; Redoc; Stoplight].

End Maps.

Module Database.

Definition DEFAULT_POOL_PRE_PING : bool := true.
Definition DEFAULT_POOL_RECYCLE_SECONDS : Z := 1800.
Record EngineConfig := { echo : bool; pool_pre_ping : bool; pool_recycle : Z }.
Record SQLAlchemyAsyncConfig := { connection_string : string; sqlalchemy_engine_config : EngineConfig; expire_on_commit : bool }.
Record DBConfig := { engine_config : EngineConfig; sqlalchemy_config : SQLAlchemyAsyncConfig }.
Definition build_db_config (connection_string : string) (echo pool_pre_ping : option bool) (pool_recycle : option Z) : DBConfig :=
  let engine_config := {| echo := default false echo; pool_pre_ping := default DEFAULT_POOL_PRE_PING pool_pre_ping;
                          pool_recycle := default DEFAULT_POOL_RECYCLE_SECONDS pool_recycle |} in
  {| engine_config := engine_config;
     sqlalchemy_config := {| connection_string := connection_string; sqlalchemy_engine_config := engine_config; expire_on_commit := false |} |}.
Section sessions.
(** Advanced Alchemy's session factory of a configuration. *)
Context {Maker : Type} (session_maker : SQLAlchemyAsyncConfig → Maker).
Definition create_session_maker (c : DBConfig) : Maker := session_maker (sqlalchemy_config c).
(** The sessions use the engine the service was configured with: one that
    checks a connection before it is used and retires it in time, unless the
    service says otherwise, and whose objects are not expired by a commit. *)
Lemma sessions_use_the_configured_engine url e ping recycle :
  let c := build_db_config url e ping recycle in
  create_session_maker c = session_maker {| connection_string := url; sqlalchemy_engine_config := engine_config c; expire_on_commit := false |} ∧
  (ping = None → pool_pre_ping (engine_config c) = true) ∧ (recycle = None → pool_recycle (engine_config c) = 1800).
Proof. cbn. split_and!; [done|by intros ->|by intros ->]. Qed.
End sessions.

(** [TimestampMixin]: a column with what fills it when a row is inserted or
    updated without a value of its own. *)
Record Column := { column : string; timezone : bool; on_insert : bool; on_update : bool; nullable : bool }.
Definition TimestampMixin : list Column :=
  [{| column := "created_at"; timezone := true; on_insert := true; on_update := false; nullable := false |};
   {| column := "updated_at"; timezone := true; on_insert := true; on_update := true; nullable := false |}].
(** A row's times, filled with the values of [utcnow] in turn. *)
Definition Row := list (string * Z).
Definition fill (filled : Column → bool) (given : Row) (utcnow : nat → Z) (row : Row) : Row :=
  (foldl (λ '(row, n) c, if dmem given (column c) then (row, n)
                         else if filled c then (dset row (column c) (utcnow n), S n) else (row, n))
     (foldl (λ r e, dset r e.1 e.2) row given, 0%nat) TimestampMixin).1.
Definition insert_row (given : Row) (utcnow : nat → Z) : Row := fill on_insert given utcnow [].
Definition update_row (given : Row) (utcnow : nat → Z) (row : Row) : Row := fill on_update given utcnow row.
(** A row is created with both times; an update that gives none moves
    [updated_at] and nothing else of the row. *)
Lemma rows_know_their_times (utcnow utcnow' : nat → Z) :
  let row := insert_row [] utcnow in
  dget row "created_at" = Some (utcnow 0%nat) ∧ dget row "updated_at" = Some (utcnow 1%nat) ∧
  ∀ row k, dget (update_row [] utcnow' row) k = if decide ("updated_at" = k) then Some (utcnow' 0%nat) else dget row k.
Proof. split_and!; [done|done|]. intros row k. unfold update_row, fill. cbn. by rewrite dget_dset. Qed.
End Database.
