(* ===== verification/Boot.v ===== *)
(** * geo/fetch.py and dev/: programs around a service

    [Fetch]: the GeoLite2 database is fetched before a service starts; the file
    system is the files of one machine, and the network and the disk are what
    each of them does.  [Smoke]: the smoke test of a running container, whose
    replies are what each request in turn gets.  [Watcher]: migrations applied
    whenever they change.  [Guards]: what importing an optional distribution
    says when it is not there, and dev/ci_runner.py, which hands its arguments
    to the Rust crate. *)

From S2P Require Import Prelude PyStr PyDict Codegen.
From S2P Require Contracts.
#[local] Open Scope string_scope.
#[local] Open Scope Z_scope.

Module Fetch.

Record File := { bytes : string; modified : Q }.
Abbreviation Files := (gmap path File).
(** The request fails; or a response: whether its status is a success, the
    chunks of its body, and whether the body came to its end. *)
Inductive Answer := unreachable | answered (success : bool) (chunks : list string) (complete : bool).
(** The environment of a run: what the calls that may fail do; the disk takes
    [room] chunks. *)
Record Env := {
  getenv : string → option string; cwd : path; now : Q; mkdir_ok : bool; answer : string → Answer; open_ok : bool;
  room : nat; replace_ok : bool; unlink_ok : bool }.
Inductive Log := disabled | recent | no_directory | kept_existing | none_yet | wrote.
Inductive Exn := value_error | os_error.

Definition DEFAULT_URL : string := "https://raw.githubusercontent.com/P3TERX/GeoLite.mmdb/download/GeoLite2-City.mmdb".
Definition _enabled (raw : string) : bool := negb (bool_decide (lower (strip raw) ∈ ["false"; "0"; "no"; "off"])).
(** [float], with the values that are no numbers. *)
Inductive Float := finite (q : Q) | infinite | minus_infinite | nan.
Definition float (s : string) : option Float :=
  match py_float s with
  | Some q => Some (finite q)
  | None =>
      let t := blower (strip s) in
      if bool_decide (t ∈ ["inf"; "+inf"; "infinity"; "+infinity"]) then Some infinite
      else if bool_decide (t ∈ ["-inf"; "-infinity"]) then Some minus_infinite
      else if bool_decide (t ∈ ["nan"; "+nan"; "-nan"]) then Some nan else None
  end.
Definition less (age : Q) (limit : Float) : bool :=
  match limit with finite q => negb (Qle_bool q age) | infinite => true | minus_infinite | nan => false end.

Section fetch.
Context (e : Env).
Definition getenv_or (k d : string) : string := default d (getenv e k).
Definition url : string := strip (getenv_or "GEOIP_CITY_DB_URL" DEFAULT_URL).
Definition data_dir : path := Codegen.placed (cwd e) (getenv_or "GEOIP_DATA_DIR" "/data/geoip").
Definition target : path := Codegen.placed data_dir (getenv_or "GEOIP_CITY_DB_FILENAME" "GeoLite2-City.mmdb").
(** [target.with_suffix(target.suffix + ".tmp")] *)
Definition tmp : path := (parent target ++ [name_of target +:+ ".tmp"])%list.

(** Writing chunks: the states of the file system after each. *)
Fixpoint writing (files : Files) (text : string) (chunks : list string) : list Files :=
  match chunks with
  | [] => []
  | c :: chunks => let files := <[tmp := {| bytes := text +:+ c; modified := now e |}]> files in
                   files :: writing files (text +:+ c) chunks
  end.
Definition body (chunks : list string) : string := String.concat EmptyString chunks.
(** The [try] block: the states it goes through, and whether it ends. *)
Definition download (files : Files) : list Files * bool :=
  match answer e url with
  | answered true chunks complete =>
      if open_ok e then
        let opened := <[tmp := {| bytes := EmptyString; modified := now e |}]> files in
        let written := (opened :: writing opened EmptyString (take (room e) chunks))%list in
        if bool_decide (length chunks ≤ room e)%nat && complete && replace_ok e
        then (written ++ [<[target := {| bytes := body chunks; modified := now e |}]> (delete tmp (default opened (last written)))], true)%list
        else (written, false)
      else ([], false)
  | _ => ([], false)
  end.
Definition is_recent (files : Files) (max_age_days : Float) : bool :=
  match files !! target with Some f => less ((now e - modified f) / 86400)%Q max_age_days | None => false end.
(** [main]: every state of the file system that a reader may see, and how it
    ends; its exit code is 0 unless it raises. *)
Definition main (files : Files) : list Files * result Exn Log :=
  if negb (_enabled (getenv_or "GEOIP_DOWNLOAD_ENABLED" "true")) then ([], Ok disabled)
  else match float (getenv_or "GEOIP_MAX_AGE_DAYS" "30") with
  | None => ([], Raise value_error)
  | Some max_age_days =>
      if is_recent files max_age_days then ([], Ok recent)
      else if negb (mkdir_ok e) then ([], Ok no_directory)
      else if bool_decide (target = []) then ([], Raise value_error)
      else match download files with
           | (states, true) => (states, Ok wrote)
           | (states, false) =>
               if unlink_ok e then
                 let files := delete tmp (default files (last states)) in
                 (states ++ [files], Ok (if bool_decide (is_Some (files !! target)) then kept_existing else none_yet))%list
               else (states, Raise os_error)
           end
  end.

(** ** What a reader sees *)

Lemma tmp_ne_target : target ≠ [] → tmp ≠ target.
Proof.
  unfold tmp. intros Hne He. assert (String.length (name_of target +:+ ".tmp") = String.length (name_of target)) as Hl.
  { unfold name_of at 2. rewrite <-He at 2. by rewrite last_snoc. }
  rewrite append_length in Hl. cbn in Hl. lia.
Qed.
(** Nothing but the two files changes, and the target is as it was. *)
Definition untouched (files s : Files) : Prop :=
  (∀ p, p ≠ target → p ≠ tmp → s !! p = files !! p) ∧ s !! target = files !! target.
Lemma insert_untouched files s f : tmp ≠ target → untouched files s → untouched files (<[tmp := f]> s).
Proof. intros Hne [H1 H2]. split; [intros p Hp Hp'; rewrite lookup_insert_ne by done; by apply H1|by rewrite lookup_insert_ne]. Qed.
Lemma writing_untouched files chunks : ∀ s text, tmp ≠ target → untouched files s →
  ∀ s', s' ∈ writing s text chunks → untouched files s'.
Proof.
  induction chunks as [|c chunks IH]; intros s text Hne Hs s'; cbn; [by intros ?%elem_of_nil|].
  intros [-> |Hin]%elem_of_cons; [by apply insert_untouched|]. eapply IH; [done| |exact Hin]. by apply insert_untouched.
Qed.
(** The target holds a whole download. *)
Definition fetched (files s : Files) : Prop :=
  (∀ p, p ≠ target → p ≠ tmp → s !! p = files !! p) ∧ s !! tmp = None ∧
  ∃ chunks, answer e url = answered true chunks true ∧ s !! target = Some {| bytes := body chunks; modified := now e |}.
Lemma download_spec files states ended : target ≠ [] → download files = (states, ended) →
  (∀ s, s ∈ states → untouched files s ∨ fetched files s) ∧
  (if ended then ∃ s, last states = Some s ∧ fetched files s else ∀ s, s ∈ states → untouched files s).
Proof.
  intros Ht. pose proof (tmp_ne_target Ht) as Hne. unfold download.
  assert (∀ Q : Prop, ([], false) = (states, ended) →
    (∀ s, s ∈ states → Q) ∧ (if ended then ∃ s, last states = Some s ∧ fetched files s else ∀ s, s ∈ states → untouched files s)) as Hnone.
  { intros Q [= <- <-]. split; by intros s ?%elem_of_nil. }
  destruct (answer e url) as [|[] chunks complete] eqn:Ha; [|destruct (open_ok e)|].
  1,3,4: intros Hd; destruct (Hnone False Hd) as [Hn Hf]; split; [by intros s ?%Hn|done].
  set (opened := <[tmp := _]> files). set (written := (opened :: writing opened EmptyString (take (room e) chunks))%list).
  assert (untouched files opened) as Ho by (apply insert_untouched; [done|by split]).
  assert (∀ s, s ∈ written → untouched files s) as Hw.
  { intros s [-> |Hin]%elem_of_cons; [done|]. by eapply writing_untouched. }
  destruct (bool_decide _ && complete && replace_ok e) eqn:Hend; intros [= <- <-]; [|split; [by auto|done]].
  apply andb_prop in Hend as [[_ ->]%andb_prop _]. set (final := <[target := _]> _).
  assert (untouched files (default opened (last written))) as [Hl _].
  { destruct (last written) as [s|] eqn:Hlast; [|done]. apply Hw. by apply last_Some_elem_of. }
  assert (fetched files final) as Hf.
  { unfold fetched, final. split_and!;
      [|by rewrite lookup_insert_ne, lookup_delete_eq by done|exists chunks; split; [done|by rewrite lookup_insert_eq]].
    intros p Hp Hp'. rewrite lookup_insert_ne, lookup_delete_ne by done. by apply Hl. }
  rewrite app_comm_cons. fold written. split; [|exists final; split; [apply last_snoc|done]].
  intros s [Hin| ->%list_elem_of_singleton]%elem_of_app; [by left; apply Hw|by right].
Qed.

(** Whatever the network and the disk do, a reader never sees a part of a
    download: at every moment the database file is the one that was there or a
    whole new one, and no other file changes.  The run ends normally unless
    the greatest age is no number, the database has no file name or the
    temporary file cannot be removed; and after a download, tried or done, no
    temporary file is left. *)
Lemma readers_see_whole_files files :
  let '(states, r) := main files in
  (∀ s, s ∈ states → untouched files s ∨ fetched files s) ∧
  match r with
  | Ok wrote => ∃ s, last states = Some s ∧ fetched files s
  | Ok kept_existing | Ok none_yet => ∃ s, last states = Some s ∧ untouched files s ∧ s !! tmp = None
  | Ok _ => states = []
  | Raise value_error => states = [] ∧ (float (getenv_or "GEOIP_MAX_AGE_DAYS" "30") = None ∨ target = [])
  | Raise os_error => unlink_ok e = false
  end.
Proof.
  unfold main. destruct (negb _); [split; [by intros s ?%elem_of_nil|done]|].
  destruct (float _) as [m|]; [|split; [by intros s ?%elem_of_nil|by split; [|left]]].
  destruct (is_recent files m); [split; [by intros s ?%elem_of_nil|done]|].
  destruct (negb (mkdir_ok e)); [split; [by intros s ?%elem_of_nil|done]|].
  case_bool_decide as Ht; [split; [by intros s ?%elem_of_nil|by split; [|right]]|].
  pose proof (tmp_ne_target Ht) as Hne.
  destruct (download files) as [states []] eqn:Hd; destruct (download_spec _ _ _ Ht Hd) as [Hall Hend]; [by split|].
  destruct (unlink_ok e) eqn:Hu; [|by split]. set (final := delete tmp _).
  assert (untouched files final) as Hf.
  { assert (untouched files (default files (last states))) as [H1 H2].
    { destruct (last states) as [s|] eqn:Hlast; [|by split]. apply Hend. by apply last_Some_elem_of. }
    split; [intros p Hp Hp'|]; unfold final; rewrite lookup_delete_ne by done; [by apply H1|done]. }
  assert (∃ s, last (states ++ [final])%list = Some s ∧ untouched files s ∧ s !! tmp = None) as Hl.
  { exists final. rewrite last_snoc. split_and!; [done..|apply lookup_delete_eq]. }
  split; [intros s [Hin| ->%list_elem_of_singleton]%elem_of_app; [by apply Hall|by left]|]. by case_bool_decide.
Qed.
End fetch.
End Fetch.

Module Smoke.

Inductive Reply := raised | replied (status_code : Z) (text : string).
(** The client, by the number of the request it is; the requests that were
    made; and the exit code. *)
Definition M (A : Type) : Type := list string → A * list string.
Section smoke.
Context (client : nat → string → Reply).
Definition get (url : string) : M Reply := λ sent, (client (length sent) url, (sent ++ [url])%list).
Definition check_endpoint (url : string) : M bool := λ sent,
  let '(r, sent) := get url sent in (match r with replied code _ => (code =? 200) | raised => false end, sent).
(** The wait for the health endpoint. *)
Fixpoint wait (retries : nat) (url : string) : M bool := λ sent,
  match retries with
  | O => (false, sent)
  | S n => match check_endpoint url sent with (true, sent) => (true, sent) | (false, sent) => wait n url sent end
  end.
Definition has_metrics (r : Reply) : bool :=
  match r with
  | replied code content => (code =? 200) && (contains "http_requests_total" content || contains "process_cpu_seconds" content)
  | raised => false
  end.
Definition main (argv : list string) : M Z := λ sent,
  match argv with
  | _ :: url :: _ =>
      let base_url := rstrip_chars "/" url in
      match wait 10 (base_url +:+ "/health") sent with
      | (false, sent) => (1, sent)
      | (true, sent) =>
          match check_endpoint (base_url +:+ "/ready") sent with
          | (false, sent) => (1, sent)
          | (true, sent) => let '(r, sent) := get (base_url +:+ "/metrics") sent in (if has_metrics r then 0 else 1, sent)
          end
      end
  | _ => (1, sent)
  end.

Definition is_ok (r : Reply) : bool := match r with replied code _ => (code =? 200) | raised => false end.
(** The requests [wait] makes: up to the first that succeeds, or all. *)
Lemma wait_spec n url : ∀ sent,
  match wait n url sent with
  | (true, sent') => ∃ k, (k < n)%nat ∧ sent' = (sent ++ replicate (S k) url)%list ∧ is_ok (client (length sent + k) url) = true ∧
                          ∀ i, (i < k)%nat → is_ok (client (length sent + i) url) = false
  | (false, sent') => sent' = (sent ++ replicate n url)%list ∧ ∀ i, (i < n)%nat → is_ok (client (length sent + i) url) = false
  end.
Proof.
  induction n as [|n IH]; intros sent; cbn [wait]; [by rewrite app_nil_r; split; [|lia]|].
  unfold check_endpoint, get. fold (is_ok (client (length sent) url)). destruct (is_ok (client (length sent) url)) eqn:Hr.
  { exists 0%nat. rewrite Nat.add_0_r. split_and!; [lia|done|done|lia]. }
  assert (∀ k, (∀ i, (i < k)%nat → is_ok (client (length (sent ++ [url])%list + i) url) = false) →
    ∀ i, (i < S k)%nat → is_ok (client (length sent + i) url) = false) as Hstep.
  { intros k Hk [|i] Hi; [by rewrite Nat.add_0_r|]. rewrite <-Nat.add_succ_comm. rewrite length_app, Nat.add_1_r in Hk. apply Hk. lia. }
  specialize (IH (sent ++ [url])%list). destruct (wait n url (sent ++ [url])%list) as [[] sent'].
  - destruct IH as (k & Hk & -> & Hok & Hb). exists (S k). split_and!; [lia|by rewrite <-app_assoc| |by apply Hstep].
    rewrite length_app, Nat.add_1_r in Hok. by rewrite <-Nat.add_succ_comm.
  - destruct IH as [-> Hb]. split; [by rewrite <-app_assoc|by apply Hstep].
Qed.

(** The test passes exactly when one of ten requests for the health of the
    service succeeds, the readiness then does and the metrics that follow hold
    one of the two names; it stops at the first health it is given, and makes
    twelve requests at most. *)
Lemma smoke_test_passes program url args :
  let base_url := rstrip_chars "/" url in
  let '(code, sent) := main (program :: url :: args) [] in
  (length sent ≤ 12)%nat ∧
  (code = 0 ↔ ∃ k, (k < 10)%nat ∧ is_ok (client k (base_url +:+ "/health")) = true ∧
     (∀ i, (i < k)%nat → is_ok (client i (base_url +:+ "/health")) = false) ∧
     is_ok (client (S k) (base_url +:+ "/ready")) = true ∧ has_metrics (client (S (S k)) (base_url +:+ "/metrics")) = true).
Proof.
  cbn zeta. unfold main. set (h := rstrip_chars "/" url +:+ "/health"). set (r := rstrip_chars "/" url +:+ "/ready").
  set (m := rstrip_chars "/" url +:+ "/metrics").
  pose proof (wait_spec 10 h []) as Hw. destruct (wait 10 h []) as [[] sent].
  2:{ destruct Hw as [-> Hb]. split; [cbn; lia|]. split; [done|]. intros (k & Hk & Hok & _). cbn in Hb. rewrite Hb in Hok by done. done. }
  destruct Hw as (k & Hk & -> & Hok & Hb). cbn [length Nat.add app] in *.
  assert (∀ j, is_ok (client j h) = true → (∀ i, (i < j)%nat → is_ok (client i h) = false) → j = k) as Huniq.
  { intros j Hj Hjb. destruct (lt_eq_lt_dec j k) as [[Hlt|He]|Hgt]; [|done|].
    - rewrite Hb in Hj by done. done.
    - rewrite Hjb in Hok by done. done. }
  assert (length (replicate (S k) h) = S k) as Hl by apply length_replicate.
  unfold check_endpoint, get. rewrite Hl. fold (is_ok (client (S k) r)). destruct (is_ok (client (S k) r)) eqn:Hr.
  - rewrite !length_app, Hl. cbn [length]. rewrite !Nat.add_1_r. split; [lia|]. split.
    + intros Hc. exists k. split_and!; [done..|]. destruct (has_metrics _); [done|lia].
    + intros (j & _ & Hj & Hjb & _ & Hm). rewrite (Huniq j Hj Hjb) in Hm. by rewrite Hm.
  - rewrite length_app, Hl. split; [cbn; lia|]. split; [done|].
    intros (j & _ & Hj & Hjb & Hrj & _). rewrite (Huniq j Hj Hjb) in Hrj. congruence.
Qed.
End smoke.
End Smoke.

Module Watcher.

(** A run of Alembic: it cannot be started, or it ends with a code and what it
    printed. *)
Inductive Proc := not_started | ended (returncode : Z) (stdout : option string).
Inductive Log := watching (path : string) (debounce_ms : Z) | failed_to_run | failed (code : Z) (out : string) | applied (out : string).
Definition _run_upgrade (proc : Proc) : list Log :=
  match proc with
  | not_started => [failed_to_run]
  | ended returncode stdout =>
      let out := strip (default EmptyString stdout) in
      if negb (returncode =? 0) then [failed returncode out]
      else if is_empty out then [] else [applied out]
  end.
(** [main] over the changes so far, each with its run; [None]: the debounce is
    no number. *)
Definition main (getenv : string → option string) (changes : list Proc) : option (list Log) :=
  let watch_path := default "/app/migrations/versions" (getenv "MIGRATIONS_WATCH_PATH") in
  debounce_ms ← py_int (default "800" (getenv "MIGRATIONS_WATCH_DEBOUNCE_MS"));
  Some (watching watch_path debounce_ms :: List.flat_map _run_upgrade changes)%list.
(** A failed upgrade does not end the watch: every later change is applied. *)
Lemma the_watch_goes_on getenv before after logs : main getenv (before ++ after)%list = Some logs →
  ∃ logs', main getenv before = Some logs' ∧ logs = (logs' ++ List.flat_map _run_upgrade after)%list.
Proof.
  unfold main. destruct (py_int _) as [d|]; cbn; [|done]. intros [= <-]. eexists. split; [done|]. by rewrite flat_map_app.
Qed.
End Watcher.

Module Guards.

(** What an import raises: [name] is the module that was not found. *)
Inductive ImportError := not_found (name : option string) (message : string) | import_error (message : string).
Definition extra (what extra : string) : ImportError :=
  not_found None (what +:+ " require the optional '" +:+ extra +:+ "' extra. Install with 'pip install service-toolkit[" +:+ extra +:+ "]'.").
(** [_import_redis_async], and the imports of messaging/nats.py and core.py. *)
Definition _import_redis_async {M} (module : result ImportError M) : result ImportError M :=
  match module with
  | Raise (not_found name msg) => Raise (if bool_decide (name = Some "redis") then extra "Redis helpers" "redis" else not_found name msg)
  | r => r
  end.
Definition import_nats {M} (module : result ImportError M) : result ImportError M :=
  match module with
  | Raise (not_found name msg) => Raise (if bool_decide (name = Some "nats") then extra "NATS helpers" "nats" else not_found name msg)
  | r => r
  end.
Definition import_native {M} (module : result ImportError M) : result ImportError M :=
  match module with
  | Raise (not_found _ _) =>
      Raise (not_found None ("service_toolkit.core requires the native extension. "
                             +:+ "Install it with the 'rust' extra: service-toolkit[rust]."))
  | r => r
  end.
(** [_missing_extra] and [_optional] of observability/tracing.py; a module is
    its attributes. *)
Definition _missing_extra (name : option string) : ImportError :=
  let missing := match name with Some n => if is_empty n then "opentelemetry" else n | None => "opentelemetry" end in
  not_found None ("Tracing support requires the optional 'tracing' extra. Install with 'pip install service-toolkit[tracing]'. "
                  +:+ "Missing module: " +:+ missing).
Definition _optional {A} (module : result ImportError (string → result ImportError A)) (name : string) : result ImportError A :=
  match module with
  | Ok attrs => match attrs name with Raise (not_found n _) => Raise (_missing_extra n) | r => r end
  | Raise (not_found n _) => Raise (_missing_extra n)
  | Raise e => Raise e
  end.
(** dev/ci_runner.py: the exit code, and what is written to stderr. *)
Definition run_ci (rust : result ImportError (list string → Z)) (sys_argv : list string) (argv : option (list string)) : Z * string :=
  match rust with
  | Raise _ => (2, "lp-ci requires the 'rust' extra: install service-toolkit[rust] in your dev dependencies." +:+ Codegen.newlines)
  | Ok gate => (gate (match argv with Some args => args | None => tail sys_argv end), EmptyString)
  end.

(** Only the absence of the distribution itself is reported as a missing
    extra by the guards of Redis and NATS: a module missing for another reason
    is reported as what it is. *)
Lemma guards_blame_their_own_module {M} name msg :
  (name ≠ Some "redis" → _import_redis_async (M := M) (Raise (not_found name msg)) = Raise (not_found name msg)) ∧
  (name ≠ Some "nats" → import_nats (M := M) (Raise (not_found name msg)) = Raise (not_found name msg)).
Proof. split; intros H; cbn; by rewrite bool_decide_eq_false_2. Qed.
(** The gate decides alone: its code is the program's, for the arguments of the
    command line without the program's name; without it the program fails. *)
Lemma the_gate_decides gate name args : run_ci (Ok gate) (name :: args) None = (gate args, EmptyString) ∧
  ∀ e argv, (run_ci (Raise e) (name :: args) argv).1 ≠ 0.
Proof. by split. Qed.
End Guards.
